(* ===== verification/_CoqProject ===== *)
-Q . S2P
Prelude.v
Bytes.v
CString.v
Crc.v
Fnv.v
Hsieh.v
Jenkins.v
Murmur.v
GfsHash.v
Double.v
JumpHash.v
Layout.v
Disk.v
Image.v
Super.v
Extents.v
ExtentDepth.v
Inode.v
Read.v
Dcache.v
Path.v
Ops.v
Malformed.v
Format.v
Utils.v
Chain.v
Os.v
Chunk.v
Dict.v
Hashmap.v
Wt.v
KvDb.v
SchemaMeta.v
SchemaDump.v
Scan.v
KvTest.v
NetSock.v
Echo.v
CLog.v
Logging.v
Main.v
Session.v
DcacheThreads.v
PathThreads.v
LoggingThreads.v
FaultHandler.v
Conf.v
ChunkCache.v
ChunkLoad.v
ChunkServer.v
