(* ===== verification/Prelude.v ===== *)
(** * samplefs: a verification development

    samplefs is a collection of C programs around storage: a read-only FUSE
    file system for ext2/3/4 images ([src/fuse]), the library of hash
    functions, containers, sockets and logs of a distributed store
    ([src/base]), its chunk server ([src/chunkserver]) and its metadata server
    ([src/metaserver]).  This library translates their code into executable
    Rocq functions, one file per component, and proves what the components
    do, including where that is not what they mean to do.

    ** Conventions

    - Integers are [Z]; every operation whose result C truncates is written
      with the wrap-around of its type ([u32], [s64], and the scopes [%u32]
      and [%u64] in which [+ - * <<] wrap).  Signed overflow does not occur in
      the modelled code on the ranges the theorems state.
    - Memory is a list of bytes from a pointer to the end of its object; an
      access outside of it, a null dereference, a division by zero or the use
      of an uninitialised variable is [Undefined].  A failed [assert], [ASSERT]
      or a call of [abort] is [AssertFail]; [malloc] and [calloc] succeed.
    - Linked structures live in heaps of numbered cells ([Dcache], [Chain],
      the dispatchers of [ChunkServer]), so that aliasing, dangling pointers
      and double frees can be seen.
    - Loops that are not structural take fuel; running out of it is
      [OutOfFuel].  The theorems state how much is enough -- rounds above the
      length of a path ([Path]), above the number of entries of a directory
      ([dirs_width]), the depth of an extent tree, one round per byte for reads
      and writes ([Read], [Chunk]), the number of live cells for chains
      ([Chain], whose callers pass it themselves), the number of buckets for
      jump hashing -- and conclude that the call returns; non-termination is
      stated for every amount of fuel.
    - Systems, libraries and callbacks that are not in the repository are
      parameters: the device ([Disk]), files and threads ([Os]), the storage
      engine ([Wt], [Scan], classes with their laws), libuv (the events of
      [NetSock] and [Echo]), libfuse ([Main]), the JSON library ([Conf],
      [SchemaDump]), [rand_r] ([Utils]), [lstat] ([ChunkLoad]), time and
      [vsnprintf] ([CLog]), [backtrace_symbols] ([FaultHandler]).  Each theorem
      that assumes something of them has a witness with a concrete instance.
    - Runs are sequential; the mutexes of the code are no-ops.  The exceptions
      are step relations over all interleavings: [NetSock], [Echo],
      [LoggingThreads] (with its lock), [FaultHandler] on top of it,
      [DcacheThreads], which runs the functions of [Dcache] one memory access at
      a time, and [PathThreads], which runs whole path lookups that way.

    ** The FUSE file system ([src/fuse])

    - [Layout]: the on-disk structures of [types/], offsets and sizes computed
      by the layout rules.
    - [Disk] ([disk.c]): [pread] in both builds, device reads, disk contexts.
    - [Super] ([super.c], [common.h]): super block, group descriptors, geometry.
    - [Extents] ([extents.c]): the extent tree walk, against a search of all
      extents; [ExtentDepth]: its recursion on nodes of any content.
    - [Inode] ([inode.c], first part): direct and indirect block maps as a radix
      tree, inode slots, directory contexts as a coherent buffer.
    - [Read] ([op_read.c]): reading through the [BlockMap] interface, which both
      kinds of block map implement ([radix_block_map], and [extent_block_map] when
      the holes are behind the extents).
    - [Dcache] ([dcache.c]): the ring-shaped dentry cache, refining a tree of
      named children; [DcacheThreads]: the same functions as programs of
      several threads, what stays safe without a lock and what does not.
    - [Path] ([inode.c], second part): path lookup through the cache, against
      [resolve], which reads one directory listing after the other
      ([DirTree]); [PathThreads]: any number of lookups at once over the cache
      of [DcacheThreads].
    - [Ops] ([op_init.c], [op_getattr.c], [op_open.c], [op_readlink.c],
      [op_readdir.c]): the other operations.
    - [Malformed]: lookup and listing in a root directory of any content, where
      the other files are about directories that are chains of records.
    - [Logging] and, for several threads, [LoggingThreads] ([logging.c]); [Main]
      ([fuse-main.c]): start-up; [FaultHandler]: its handler of segmentation
      faults, in the middle of what the threads log.
    - [Session]: [op_init] and any sequence of getattr, open, read, readlink and
      readdir requests together, refining an abstract file system without state.
    - [Image]: the small image on which all of this is instantiated.

    ** The library ([src/base])

    - [Crc], [Fnv], [Hsieh], [Jenkins], [Murmur], [GfsHash] and [JumpHash] (with
      the floating-point arithmetic it needs in [Double]): every function of
      [c_hash.c], against its published or table-free definition, with its
      memory accesses in bounds ([Murmur] has the published algorithm in the
      module [MurmurHash3]).
    - [Chain], [Hashmap] ([c_hashmap.c]): buckets of linked pairs, and the map
      over them; [hm_ok] describes the maps of [c_hashmap_alloc], which stay
      empty, as well as those whose [max_count] the caller has set.
    - [Utils] ([utils.c]), [CLog] ([c_log.c], over the conversions of [Format]),
      [NetSock] and [Echo] ([net_sock.c]: the dispatcher, and the connections of
      a thread with their buffers).

    ** The servers ([src/chunkserver], [src/metaserver])

    - [Chunk] ([chunk.c]), [ChunkCache] and [ChunkLoad] ([chunk_cache.c], the
      program of [main.c]), [ChunkServer] ([chunk_server.c]), [Conf] (both [conf.c]).
    - [Dict] ([dict.c]) refining a finite map, [KvDb] ([kv_db.c]) refining
      named tables over [Wt], [SchemaMeta] ([schmea_meta.c]) a write-through
      cache of one of them, [Scan] its loading by a scan whose callback uses the
      database, [SchemaDump] the text of a record, [KvTest]
      ([kv_db_test.c]) the whole database run by its demonstration program.

    ** What the theorems show

    Refinement: [mounted_session] for the whole file system, [path_lookup_correct],
    [block_map_radix], [dcache_lookup_refines], [dict_refines_map],
    [kv_db_refines_tables], [schema_cache_follows_table], [schema_cache_loaded],
    [log_run_expected]; the conditions each is under are those of the code, and
    stated with it.  Invariants: [dcache_insert_refines],
    [dentry_get_transparent], [hashmap_keeps_no_data], [round_robin_reachable].
    Safety over all interleavings: [concurrent_lookups_correct],
    [dcache_threads_safe], [echo_buffers_freed], [logging_lines_whole];
    liveness, and its failure: [dcache_insert_wait_free], [fault_handler_aborts],
    [dcache_race_hangs].
    Functional behaviour: reading, listing, links, descriptors, inodes, chunks,
    splitting, start-up.  Round trips: [kv_test_roundtrip], [rec_dump_roundtrip].
    Equivalence with a reference: the hash functions, the extent walk, the two
    builds of [pread_wrapper], the programs of [DcacheThreads] and [PathThreads]
    run alone.
    Termination and bounds: jump hashing, the extent recursion
    ([extent_recursion_ends]), token lengths, every loop with fuel.
    Errors: the calls that go wrong, each with the exact condition
    ([lookup_any_root], [readdir_any_root], [extent_lookup_hole], [chunk_read_back_hangs], [chunk_cache_inert],
    [chunk_cache_load_loads_nothing], [string_split_pieces],
    [conf_search_prefix] and others).

    ** Not modelled

    - Output to the terminal (except that of [kv_db_test.c] and of the test
      program of [utils.c]); how a backtrace is taken.
    - The empty functions of [chunk_node_meta.c]; the [main] of [c_hash.c] under
      [c_hash_TEST], which calls [gfs_hashfn], a function that does not exist.
    - Weak memory: [DcacheThreads] takes single accesses as atomic and seen in
      one order.  Several threads inside one component other than those named
      above.
    - The colour macros, constants and prototypes nothing uses. *)

From Stdlib Require Export ZArith Lia.
From Stdlib Require Import Strings.Byte.
From stdpp Require Export prelude gmap list strings.

Open Scope Z_scope.

(** ** Machine words

    A [w]-bit unsigned integer is a [Z] in [[0, 2^w)].  Arithmetic wraps
    explicitly, bitwise operations are those of [Z]. *)

Definition wrap (w x : Z) : Z := x mod 2 ^ w.
Definition swrap (w x : Z) : Z :=
  if wrap w x <? 2 ^ (w - 1) then wrap w x else wrap w x - 2 ^ w.

Definition wadd (w a b : Z) : Z := wrap w (a + b).
Definition wsub (w a b : Z) : Z := wrap w (a - b).
Definition wmul (w a b : Z) : Z := wrap w (a * b).
Definition wshl (w a n : Z) : Z := wrap w (Z.shiftl a n).
Definition wnot (w a : Z) : Z := wrap w (Z.lnot a).

#[global] Arguments wrap _ _ : simpl never.
#[global] Arguments swrap _ _ : simpl never.
#[global] Arguments Z.pow _ _ : simpl never.

Abbreviation u8 := (wrap 8).
Abbreviation u16 := (wrap 16).
Abbreviation u32 := (wrap 32).
Abbreviation u64 := (wrap 64).
Abbreviation s8 := (swrap 8).
Abbreviation s32 := (swrap 32).
Abbreviation s64 := (swrap 64).

(** Operands are read in the scope of the whole expression, so that a nested
    [+] inside [(_)%u32] is again 32-bit addition. *)
#[global] Arguments wadd _ _ _ : clear scopes.
#[global] Arguments wsub _ _ _ : clear scopes.
#[global] Arguments wmul _ _ _ : clear scopes.
#[global] Arguments wshl _ _ _ : clear scopes.
#[global] Arguments Z.shiftr _ _ : clear scopes.
#[global] Arguments Z.lxor _ _ : clear scopes.
#[global] Arguments Z.land _ _ : clear scopes.
#[global] Arguments Z.lor _ _ : clear scopes.

Declare Scope u32_scope.
Delimit Scope u32_scope with u32.
Notation "a + b" := (wadd 32 a b) : u32_scope.
Notation "a - b" := (wsub 32 a b) : u32_scope.
Notation "a * b" := (wmul 32 a b) : u32_scope.
Notation "a << n" := (wshl 32 a n) (at level 45, left associativity) : u32_scope.
Notation "a >> n" := (Z.shiftr a n) (at level 45, left associativity) : u32_scope.
Notation "a ⊕ b" := (Z.lxor a b) (at level 50, left associativity) : u32_scope.
Notation "a .& b" := (Z.land a b) (at level 50, left associativity) : u32_scope.
Notation "a .| b" := (Z.lor a b) (at level 50, left associativity) : u32_scope.

Declare Scope u64_scope.
Delimit Scope u64_scope with u64.
Notation "a + b" := (wadd 64 a b) : u64_scope.
Notation "a - b" := (wsub 64 a b) : u64_scope.
Notation "a * b" := (wmul 64 a b) : u64_scope.
Notation "a << n" := (wshl 64 a n) (at level 45, left associativity) : u64_scope.
Notation "a >> n" := (Z.shiftr a n) (at level 45, left associativity) : u64_scope.
Notation "a ⊕ b" := (Z.lxor a b) (at level 50, left associativity) : u64_scope.
Notation "a .& b" := (Z.land a b) (at level 50, left associativity) : u64_scope.
Notation "a .| b" := (Z.lor a b) (at level 50, left associativity) : u64_scope.

(** [x] is representable on [w] unsigned bits. *)
Definition fits (w x : Z) : Prop := 0 <= x < 2 ^ w.

#[global] Instance fits_dec w x : Decision (fits w x) := and_dec _ _.

Definition fitsb (w x : Z) : bool := (0 <=? x) && (x <? 2 ^ w).

Lemma fitsb_fits w x : fitsb w x = true <-> fits w x.
Proof. unfold fitsb, fits. rewrite andb_true_iff, Z.leb_le, Z.ltb_lt. done. Qed.

Create HintDb words discriminated.

Lemma pow2_pos w : 0 <= w -> 0 < 2 ^ w.
Proof. intros. apply Z.pow_pos_nonneg; lia. Qed.

Lemma wrap_fits w x : 0 <= w -> fits w (wrap w x).
Proof. intros. apply Z.mod_pos_bound, pow2_pos; done. Qed.

Lemma wrap_small w x : fits w x -> wrap w x = x.
Proof. intros. by apply Z.mod_small. Qed.

Lemma wrap_mod_pow w v x : 0 <= w <= v -> wrap w (wrap v x) = wrap w x.
Proof.
  intros. unfold wrap. symmetry. apply Znumtheory.Zmod_div_mod.
  - apply pow2_pos; lia.
  - apply pow2_pos; lia.
  - exists (2 ^ (v - w)). rewrite <- Z.pow_add_r by lia. f_equal; lia.
Qed.

Lemma wrap_wrap w x : 0 <= w -> wrap w (wrap w x) = wrap w x.
Proof. intros. apply wrap_mod_pow; lia. Qed.

Lemma testbit_wrap w x i :
  0 <= w -> 0 <= i -> Z.testbit (wrap w x) i = (i <? w) && Z.testbit x i.
Proof.
  intros. unfold wrap. destruct (Z.ltb_spec i w).
  - by rewrite Z.mod_pow2_bits_low.
  - rewrite Z.mod_pow2_bits_high by lia. done.
Qed.

(** Range as a condition on bits; every bitwise bound below goes through it. *)
Lemma fits_bits w x :
  0 <= w -> fits w x <-> 0 <= x /\ (forall i, w <= i -> Z.testbit x i = false).
Proof.
  intros Hw. split.
  - intros [H0 H1]. split; [done|]. intros i Hi.
    rewrite <- (wrap_small w x) by done. rewrite testbit_wrap by lia.
    destruct (Z.ltb_spec i w); [lia|done].
  - intros [H0 Hb]. replace x with (wrap w x); [by apply wrap_fits|].
    apply Z.bits_inj'. intros i Hi. rewrite testbit_wrap by lia.
    destruct (Z.ltb_spec i w); [done|]. by rewrite Hb by lia.
Qed.

Lemma fits_lxor w a b : 0 <= w -> fits w a -> fits w b -> fits w (Z.lxor a b).
Proof.
  intros Hw Ha Hb. rewrite fits_bits in * by done.
  destruct Ha as [? Ha], Hb as [? Hb]. split.
  - apply Z.lxor_nonneg; tauto.
  - intros i Hi. by rewrite Z.lxor_spec, Ha, Hb.
Qed.

Lemma fits_lor w a b : 0 <= w -> fits w a -> fits w b -> fits w (Z.lor a b).
Proof.
  intros Hw Ha Hb. rewrite fits_bits in * by done.
  destruct Ha as [? Ha], Hb as [? Hb]. split.
  - apply Z.lor_nonneg; tauto.
  - intros i Hi. by rewrite Z.lor_spec, Ha, Hb.
Qed.

Lemma fits_land_l w a b : 0 <= w -> fits w a -> fits w (Z.land a b).
Proof.
  intros Hw Ha. rewrite fits_bits in * by done. destruct Ha as [? Hb]. split.
  - apply Z.land_nonneg; tauto.
  - intros i Hi. rewrite Z.land_spec. by rewrite Hb.
Qed.

Lemma fits_land_r w a b : 0 <= w -> fits w b -> fits w (Z.land a b).
Proof. intros. rewrite Z.land_comm. by apply fits_land_l. Qed.

Lemma fits_shiftr w a n : 0 <= w -> 0 <= n -> fits w a -> fits w (Z.shiftr a n).
Proof.
  intros Hw Hn Ha. rewrite fits_bits in * by done. destruct Ha as [? Hb]. split.
  - by apply Z.shiftr_nonneg.
  - intros i Hi. rewrite Z.shiftr_spec by lia. apply Hb. lia.
Qed.

Lemma fits_le w v x : 0 <= w <= v -> fits w x -> fits v x.
Proof.
  intros Hw [H0 H1]. split; [done|].
  eapply Z.lt_le_trans; [exact H1|]. apply Z.pow_le_mono_r; lia.
Qed.

Lemma wadd_fits w a b : 0 <= w -> fits w (wadd w a b).
Proof. apply wrap_fits. Qed.
Lemma wsub_fits w a b : 0 <= w -> fits w (wsub w a b).
Proof. apply wrap_fits. Qed.
Lemma wmul_fits w a b : 0 <= w -> fits w (wmul w a b).
Proof. apply wrap_fits. Qed.
Lemma wshl_fits w a n : 0 <= w -> fits w (wshl w a n).
Proof. apply wrap_fits. Qed.
Lemma wnot_fits w a : 0 <= w -> fits w (wnot w a).
Proof. apply wrap_fits. Qed.

#[export] Hint Resolve wrap_fits wadd_fits wsub_fits wmul_fits wshl_fits wnot_fits
  fits_lxor fits_lor fits_land_l fits_shiftr : words.
#[export] Hint Extern 1 (0 <= _) => lia : words.
#[export] Hint Extern 1 (fits _ (Zpos _)) => (split; [done|reflexivity]) : words.
#[export] Hint Extern 1 (fits _ Z0) => (split; [done|reflexivity]) : words.

(** Solves range goals on word expressions, following their syntax; leaves
    go to the [words] hints. *)
Ltac word_range :=
  lazymatch goal with
  | |- fits _ (wadd _ _ _) => apply wadd_fits; lia
  | |- fits _ (wsub _ _ _) => apply wsub_fits; lia
  | |- fits _ (wmul _ _ _) => apply wmul_fits; lia
  | |- fits _ (wshl _ _ _) => apply wshl_fits; lia
  | |- fits _ (wnot _ _) => apply wnot_fits; lia
  | |- fits _ (Z.lxor _ _) => apply fits_lxor; [lia|word_range|word_range]
  | |- fits _ (Z.lor _ _) => apply fits_lor; [lia|word_range|word_range]
  | |- fits _ (Z.land _ _) => apply fits_land_l; [lia|word_range]
  | |- fits _ (Z.shiftr _ _) => apply fits_shiftr; [lia|lia|word_range]
  | |- _ => solve [assumption | eauto with words]
  end.

(** Bits of wrapped operations, used by the bitwise proofs. *)
Lemma testbit_wshl w a n i :
  0 <= w -> 0 <= n -> 0 <= i ->
  Z.testbit (wshl w a n) i = (i <? w) && (n <=? i) && Z.testbit a (i - n).
Proof.
  intros. unfold wshl. rewrite testbit_wrap, Z.shiftl_spec by lia.
  destruct (Z.ltb_spec i w), (Z.leb_spec n i); simpl; try done.
  rewrite Z.testbit_neg_r; [done|lia].
Qed.

Lemma wrap_lxor w x y :
  0 <= w -> wrap w (Z.lxor x y) = Z.lxor (wrap w x) (wrap w y).
Proof.
  intros. apply Z.bits_inj'. intros i Hi.
  rewrite Z.lxor_spec, !testbit_wrap, Z.lxor_spec by done.
  by destruct (i <? w), (Z.testbit x i), (Z.testbit y i).
Qed.

Lemma wadd_assoc w a b c : 0 <= w -> wadd w (wadd w a b) c = wadd w a (wadd w b c).
Proof.
  intros. unfold wadd, wrap. rewrite Zplus_mod_idemp_l, Zplus_mod_idemp_r.
  f_equal; lia.
Qed.

Lemma swrap_small w x : 0 < w -> - 2 ^ (w - 1) <= x < 2 ^ (w - 1) -> swrap w x = x.
Proof.
  intros Hw Hx. unfold swrap, wrap. assert (2 ^ w = 2 * 2 ^ (w - 1)) as E.
  { rewrite <- Z.pow_succ_r by lia. f_equal. lia. }
  rewrite E. destruct (Z.le_gt_cases 0 x).
  - rewrite Z.mod_small by lia. destruct (Z.ltb_spec x (2 ^ (w - 1))); lia.
  - replace (x mod (2 * 2 ^ (w - 1))) with (x + 2 * 2 ^ (w - 1))
      by (apply Z.mod_unique_pos with (q := -1); lia).
    destruct (Z.ltb_spec (x + 2 * 2 ^ (w - 1)) (2 ^ (w - 1))); lia.
Qed.

Lemma s32_small x : -0x80000000 <= x < 0x80000000 -> s32 x = x.
Proof. intros. apply swrap_small; [done|]. by change (2 ^ (32 - 1)) with 0x80000000. Qed.

Lemma s64_small x : - 2 ^ 63 <= x < 2 ^ 63 -> s64 x = x.
Proof. intros. by apply swrap_small. Qed.

Lemma u64_small x : 0 <= x < 2 ^ 64 -> u64 x = x.
Proof. apply wrap_small. Qed.

Lemma u32_small x : 0 <= x < 2 ^ 32 -> u32 x = x.
Proof. apply wrap_small. Qed.

(** ** Congruence of words

    Equality modulo [m], a relation of its own so that setoid rewriting can
    drop the reductions inside a sum or a product. *)

Record cong (m x y : Z) : Prop := { cong_mod : x mod m = y mod m }.

#[global] Instance cong_equiv m : Equivalence (cong m).
Proof.
  split.
  - by constructor.
  - intros x y [H]. by constructor.
  - intros x y z [H1] [H2]. constructor. congruence.
Qed.

#[global] Instance cong_add m : Proper (cong m ==> cong m ==> cong m) Z.add.
Proof.
  intros x x' [Hx] y y' [Hy]. constructor. by rewrite Zplus_mod, Hx, Hy, <- Zplus_mod.
Qed.

#[global] Instance cong_mul m : Proper (cong m ==> cong m ==> cong m) Z.mul.
Proof.
  intros x x' [Hx] y y' [Hy]. constructor. by rewrite Zmult_mod, Hx, Hy, <- Zmult_mod.
Qed.

#[global] Instance cong_sub m : Proper (cong m ==> cong m ==> cong m) Z.sub.
Proof.
  intros x x' [Hx] y y' [Hy]. constructor. by rewrite Zminus_mod, Hx, Hy, <- Zminus_mod.
Qed.

Lemma cong_reduce m x : cong m (x mod m) x.
Proof. constructor. apply Zmod_mod. Qed.

Lemma cong_eq m x y : cong m x y -> x mod m = y mod m.
Proof. by intros [H]. Qed.

(** Proves an equation of words by dropping every reduction and normalising
    the polynomial that is left. *)
Ltac word_ring :=
  unfold wadd, wsub, wmul, wshl, wrap; rewrite ?Z.shiftl_mul_pow2 by lia;
  apply cong_eq; rewrite ?cong_reduce;
  match goal with |- cong _ ?x ?y => replace x with y; [reflexivity|ring] end.

(** ** Outcomes

    A call either returns, stops the process through a failed [ASSERT],
    [assert] or [abort()], runs into behaviour C does not define (an access
    out of bounds, a null dereference, a division by zero), or is still
    looping when the fuel of the model is spent. *)

Inductive outcome (A : Type) : Type :=
  | Ret (a : A)
  | AssertFail
  | Undefined
  | OutOfFuel.
Arguments Ret {A} a.
Arguments AssertFail {A}.
Arguments Undefined {A}.
Arguments OutOfFuel {A}.

#[global] Instance outcome_ret : MRet outcome := fun A a => Ret a.
#[global] Instance outcome_bind : MBind outcome := fun A B f m =>
  match m with
  | Ret a => f a
  | AssertFail => AssertFail
  | Undefined => Undefined
  | OutOfFuel => OutOfFuel
  end.
#[global] Instance outcome_fmap : FMap outcome := fun A B f m =>
  match m with
  | Ret a => Ret (f a)
  | AssertFail => AssertFail
  | Undefined => Undefined
  | OutOfFuel => OutOfFuel
  end.
#[global] Instance outcome_eq_dec `{EqDecision A} : EqDecision (outcome A).
Proof. solve_decision. Defined.

(** [ASSERT] of [src/fuse/logging.h] in the default (not [NDEBUG]) build,
    and [assert] of the C library. *)
Definition c_assert (b : bool) : outcome unit := if b then Ret tt else AssertFail.

(** An access that C defines only when [b] holds. *)
Definition c_defined (b : bool) : outcome unit := if b then Ret tt else Undefined.

Definition from_option_undef {A} (o : option A) : outcome A :=
  match o with Some a => Ret a | None => Undefined end.

Definition returns {A} (m : outcome A) : Prop := exists a, m = Ret a.

Lemma bind_Ret {A B} (m : outcome A) (f : A -> outcome B) b :
  m ≫= f = Ret b <-> exists a, m = Ret a /\ f a = Ret b.
Proof. destruct m; simpl; naive_solver. Qed.

Lemma bind_Ret_l {A B} (m : outcome A) (f : A -> outcome B) a :
  m = Ret a -> m ≫= f = f a.
Proof. by intros ->. Qed.

Lemma bind_assoc {A B C} (m : outcome A) (f : A -> outcome B) (g : B -> outcome C) :
  (m ≫= f) ≫= g = m ≫= (fun a => f a ≫= g).
Proof. by destruct m. Qed.

Lemma c_assert_Ret b u : c_assert b = Ret u <-> b = true.
Proof. destruct b, u; simpl; naive_solver. Qed.

Lemma c_defined_Ret b u : c_defined b = Ret u <-> b = true.
Proof. destruct b, u; simpl; naive_solver. Qed.

(** Inverts [Ret] equations produced by sequenced calls. *)
Ltac outcome_inv :=
  repeat match goal with
  | H : _ ≫= _ = Ret _ |- _ =>
      let a := fresh "r" in let E := fresh "E" in
      apply bind_Ret in H as (a & E & H)
  | H : mbind _ _ = Ret _ |- _ =>
      let a := fresh "r" in let E := fresh "E" in
      apply bind_Ret in H as (a & E & H)
  | H : c_assert _ = Ret _ |- _ => apply c_assert_Ret in H
  | H : c_defined _ = Ret _ |- _ => apply c_defined_Ret in H
  | H : Ret _ = Ret _ |- _ => injection H as H
  | H : AssertFail = Ret _ |- _ => discriminate H
  | H : Undefined = Ret _ |- _ => discriminate H
  | H : OutOfFuel = Ret _ |- _ => discriminate H
  | H : mret _ = Ret _ |- _ => injection H as H
  end.

(** Proves a decidable proposition by evaluating its decision. *)
Ltac vm_decide := apply (bool_decide_unpack _); vm_compute; exact I.

(** Case analysis on integer comparisons of the goal. *)
Ltac zcase :=
  repeat match goal with
  | |- context [?a <? ?b] => destruct (Z.ltb_spec a b); try lia
  | |- context [?a <=? ?b] => destruct (Z.leb_spec a b); try lia
  | |- context [?a =? ?b] => destruct (Z.eqb_spec a b); try lia
  end.

(** ** Lists *)

Lemma take_drop_app {A} n m (l : list A) :
  take (n + m) l = take n l ++ take m (drop n l).
Proof.
  revert l. induction n as [|n IH]; intros [|x l]; simpl; try done.
  - by rewrite take_nil.
  - by rewrite IH.
Qed.

Lemma seq_app_map {A} (f : nat -> A) n m s :
  f <$> seq s (n + m) = (f <$> seq s n) ++ (f <$> seq (s + n) m).
Proof. by rewrite seq_app, fmap_app. Qed.

Lemma fold_left_ext {A B} (f g : A -> B -> A) l a :
  (forall x y, f x y = g x y) -> fold_left f l a = fold_left g l a.
Proof. intros H. revert a. induction l; intros a0; simpl; [done|]. by rewrite H. Qed.

Lemma fold_left_inv {A B} (P : A -> Prop) (f : A -> B -> A) l a :
  (forall x y, P x -> P (f x y)) -> P a -> P (fold_left f l a).
Proof. intros H. revert a. induction l; intros a0 Ha; simpl; auto. Qed.

Lemma fold_left_sim {A B C} (h : A -> C) (f : A -> B -> A) (g : C -> B -> C) l a :
  (forall x y, h (f x y) = g (h x) y) -> h (fold_left f l a) = fold_left g l (h a).
Proof. intros H. revert a. induction l; intros a0; simpl; [done|]. by rewrite IHl, H. Qed.

Lemma take_repeat {A} (x : A) n m : take n (repeat x m) = repeat x (n `min` m).
Proof. revert m. induction n as [|n IH]; intros [|m]; cbn; [done..|]. by rewrite IH. Qed.

Lemma drop_repeat {A} (x : A) n m : drop n (repeat x m) = repeat x (m - n).
Proof. revert m. induction n as [|n IH]; intros [|m]; simpl; try done. Qed.

Lemma length_concat_insert {A} (ls : list (list A)) i l l' :
  ls !! i = Some l -> (length (concat (<[i := l']> ls)) + length l = length (concat ls) + length l')%nat.
Proof.
  revert i. induction ls as [|x ls IH]; intros [|i] H; simplify_eq/=; rewrite !length_app; [lia|].
  specialize (IH i H). lia.
Qed.
