(* ===== verification/Bytes.v ===== *)
(** * Bytes, characters and little-endian words

    Memory is a list of bytes.  [uchar] and [schar] are the values of an
    [unsigned char] and of a (signed, as on x86-64) plain [char]; [le_decode]
    is a little-endian load, the only byte order the code supports. *)

From Stdlib Require Import Strings.Byte.
From S2P Require Import Prelude.

Notation byte := Byte.byte.

#[global] Instance byte_eq_dec : EqDecision byte := Byte.byte_eq_dec.

Definition uchar (b : byte) : Z := Z.of_N (Byte.to_N b).
Definition schar (b : byte) : Z := swrap 8 (uchar b).
Definition byte_of (z : Z) : byte :=
  match Byte.of_N (Z.to_N (wrap 8 z)) with Some b => b | None => x00 end.

#[global] Program Instance byte_countable : Countable byte :=
  inj_countable Byte.to_N Byte.of_N _.
Next Obligation. intros b. apply Byte.of_to_N. Qed.

Lemma uchar_fits b : fits 8 (uchar b).
Proof.
  unfold uchar, fits. pose proof (Byte.to_N_bounded b). change (2 ^ 8) with 256. lia.
Qed.

Lemma uchar_inj b c : uchar b = uchar c -> b = c.
Proof.
  unfold uchar. intros H. apply N2Z.inj in H. pose proof (Byte.of_to_N b) as Hb.
  rewrite H, Byte.of_to_N in Hb. congruence.
Qed.

Lemma byte_of_uchar b : byte_of (uchar b) = b.
Proof.
  unfold byte_of. rewrite wrap_small by apply uchar_fits.
  unfold uchar. by rewrite N2Z.id, Byte.of_to_N.
Qed.

Lemma uchar_byte_of z : uchar (byte_of z) = wrap 8 z.
Proof.
  unfold byte_of. pose proof (wrap_fits 8 z ltac:(lia)) as [H0 H1].
  change (2 ^ 8) with 256 in H1.
  destruct (Byte.of_N (Z.to_N (wrap 8 z))) as [b|] eqn:E.
  - apply Byte.to_of_N in E. unfold uchar. rewrite E. lia.
  - apply Byte.of_N_None_iff in E. lia.
Qed.

Lemma schar_ascii b : uchar b < 128 -> schar b = uchar b.
Proof.
  intros. unfold schar, swrap. rewrite (wrap_small 8) by apply uchar_fits.
  change (2 ^ (8 - 1)) with 128. destruct (Z.ltb_spec (uchar b) 128); lia.
Qed.

Lemma wrap_schar w b : 0 <= w <= 8 -> wrap w (schar b) = wrap w (uchar b).
Proof.
  intros. unfold schar, swrap. rewrite (wrap_small 8) by apply uchar_fits.
  case_match; [done|]. unfold wrap.
  replace (2 ^ 8) with (2 ^ (8 - w) * 2 ^ w)
    by (rewrite <- Z.pow_add_r by lia; f_equal; lia).
  replace (uchar b - 2 ^ (8 - w) * 2 ^ w) with (uchar b + (- 2 ^ (8 - w)) * 2 ^ w) by ring.
  by apply Z_mod_plus_full.
Qed.

(** ** Little-endian words *)

Fixpoint le_decode (l : list byte) : Z :=
  match l with
  | [] => 0
  | b :: l => uchar b + 256 * le_decode l
  end.

Fixpoint le_encode (n : nat) (z : Z) : list byte :=
  match n with
  | O => []
  | S n => byte_of z :: le_encode n (z / 256)
  end.

Lemma le_decode_fits l : fits (8 * Z.of_nat (length l)) (le_decode l).
Proof.
  unfold fits. induction l as [|b l IH]; simpl le_decode; [simpl; lia|].
  pose proof (uchar_fits b) as [? Hb]. change (2 ^ 8) with 256 in Hb.
  simpl length. rewrite Nat2Z.inj_succ.
  replace (8 * Z.succ (Z.of_nat (length l))) with (8 + 8 * Z.of_nat (length l)) by lia.
  rewrite Z.pow_add_r by lia. change (2 ^ 8) with 256. nia.
Qed.

Lemma le_decode_fits_n w n l : length l = n -> w = 8 * Z.of_nat n -> fits w (le_decode l).
Proof. intros <- ->. apply le_decode_fits. Qed.

Lemma length_le_encode n z : length (le_encode n z) = n.
Proof. revert z. induction n; intros; simpl; f_equal; auto. Qed.

Lemma le_decode_encode n z :
  le_decode (le_encode n z) = wrap (8 * Z.of_nat n) z.
Proof.
  revert z. induction n as [|n IH]; intros z; simpl le_encode; simpl le_decode.
  { unfold wrap. change (2 ^ (8 * Z.of_nat 0)) with 1. by rewrite Z.mod_1_r. }
  rewrite IH, uchar_byte_of. unfold wrap. rewrite Nat2Z.inj_succ.
  replace (8 * Z.succ (Z.of_nat n)) with (8 + 8 * Z.of_nat n) by lia.
  rewrite Z.pow_add_r by lia. change (2 ^ 8) with 256.
  pose proof (pow2_pos (8 * Z.of_nat n) ltac:(lia)).
  by rewrite Z.rem_mul_r by lia.
Qed.

Lemma le_encode_decode l : le_encode (length l) (le_decode l) = l.
Proof.
  induction l as [|b l IH]; simpl; [done|].
  pose proof (uchar_fits b) as [? Hb]. change (2 ^ 8) with 256 in Hb. f_equal.
  - rewrite <- (byte_of_uchar b) at 2. unfold byte_of. do 2 f_equal. f_equal.
    unfold wrap. change (2 ^ 8) with 256. rewrite Z.mul_comm, Z_mod_plus_full. done.
  - replace (_ / 256) with (le_decode l); [done|].
    rewrite Z.mul_comm, Z.div_add by lia. rewrite Z.div_small by lia. lia.
Qed.

(** Bounded load of [n] bytes at [off] from a memory block. *)
Definition load_bytes (mem : list byte) (off n : Z) : outcome (list byte) :=
  if (0 <=? off) && (0 <=? n) && (off + n <=? Z.of_nat (length mem))
  then Ret (take (Z.to_nat n) (drop (Z.to_nat off) mem))
  else Undefined.

Definition load_le (mem : list byte) (off n : Z) : outcome Z :=
  bs ← load_bytes mem off n; mret (le_decode bs).

(** A zeroed block of [n] bytes. *)
Definition calloc (n : Z) : list byte := repeat x00 (Z.to_nat n).

(** [buf[i] = b]. *)
Definition store (buf : list byte) (i : Z) (b : byte) : outcome (list byte) :=
  if (0 <=? i) && (i <? Z.of_nat (length buf)) then Ret (<[Z.to_nat i := b]> buf) else Undefined.

(** [memcpy(buf, bs, length bs)]. *)
Definition store_bytes (buf bs : list byte) : outcome (list byte) :=
  if Nat.leb (length bs) (length buf) then Ret (bs ++ drop (length bs) buf) else Undefined.

(** [memcpy(buf + off, bs, length bs)]. *)
Definition store_at (buf : list byte) (off : Z) (bs : list byte) : outcome (list byte) :=
  if (0 <=? off) && (off + Z.of_nat (length bs) <=? Z.of_nat (length buf))
  then Ret (take (Z.to_nat off) buf ++ bs ++ drop (Z.to_nat off + length bs) buf) else Undefined.

Lemma store_in buf i b :
  0 <= i < Z.of_nat (length buf) -> store buf i b = Ret (<[Z.to_nat i := b]> buf).
Proof.
  intros. unfold store. by rewrite (proj2 (Z.leb_le _ _)), (proj2 (Z.ltb_lt _ _)) by lia.
Qed.

Lemma store_bytes_in buf bs :
  (length bs <= length buf)%nat -> store_bytes buf bs = Ret (bs ++ drop (length bs) buf).
Proof. intros. unfold store_bytes. by rewrite (proj2 (Nat.leb_le _ _)). Qed.

Lemma load_bytes_length mem off n bs :
  load_bytes mem off n = Ret bs -> Z.of_nat (length bs) = n.
Proof.
  unfold load_bytes. case_match eqn:E; [|done]. intros. simplify_eq.
  rewrite !andb_true_iff, !Z.leb_le in E. rewrite length_take, length_drop. lia.
Qed.

Lemma load_le_fits mem off n v :
  load_le mem off n = Ret v -> fits (8 * n) v.
Proof.
  unfold load_le. intros. outcome_inv. subst. apply load_bytes_length in E as <-.
  apply le_decode_fits.
Qed.

Lemma le_decode_app l1 l2 :
  le_decode (l1 ++ l2) = le_decode l1 + 2 ^ (8 * Z.of_nat (length l1)) * le_decode l2.
Proof.
  induction l1 as [|b l1 IH].
  { change (2 ^ _) with 1. cbn [app le_decode]. ring. }
  simpl app. simpl le_decode. rewrite IH. simpl length. rewrite Nat2Z.inj_succ.
  replace (8 * Z.succ (Z.of_nat (length l1))) with (8 + 8 * Z.of_nat (length l1)) by lia.
  rewrite Z.pow_add_r by lia. change (2 ^ 8) with 256. ring.
Qed.

(** Masking a word keeps its first bytes. *)
Lemma le_decode_take n l : wrap (8 * Z.of_nat n) (le_decode l) = le_decode (take n l).
Proof.
  destruct (Nat.le_gt_cases (length l) n).
  - rewrite take_ge by done. apply wrap_small.
    eapply fits_le, le_decode_fits. lia.
  - rewrite <- (take_drop n l) at 1. rewrite le_decode_app, length_take_le by lia.
    unfold wrap. rewrite Z.mul_comm, Z_mod_plus_full. apply wrap_small.
    rewrite <- (length_take_le l n) at 1 by lia. apply le_decode_fits.
Qed.

(** ** Assembling a word with [^=], highest byte first *)

Lemma shiftl_uchar w b n : 0 <= n -> n + 8 <= w -> wshl w (uchar b) n = Z.shiftl (uchar b) n.
Proof.
  intros. apply wrap_small. pose proof (uchar_fits b) as [? ?].
  unfold fits. rewrite Z.shiftl_mul_pow2 by lia. change (2 ^ 8) with 256 in *.
  replace w with (n + 8 + (w - n - 8)) by lia. rewrite !Z.pow_add_r by lia.
  change (2 ^ 8) with 256. pose proof (pow2_pos n). pose proof (pow2_pos (w - n - 8)). nia.
Qed.

(** One more byte below: [D << (n+8) ^ b << n] is [(b + 256 D) << n]. *)
Lemma lxor_byte n d b :
  0 <= n -> Z.lxor (Z.shiftl d (n + 8)) (Z.shiftl (uchar b) n) = Z.shiftl (uchar b + 256 * d) n.
Proof.
  intros. rewrite (Z.add_comm n 8), <- Z.shiftl_shiftl, <- Z.shiftl_lxor by lia.
  f_equal. rewrite Z.lxor_comm, <- Z.add_nocarry_lxor.
  - rewrite Z.shiftl_mul_pow2 by lia. change (2 ^ 8) with 256. lia.
  - apply Z.bits_inj'. intros i Hi. rewrite Z.land_spec, Z.shiftl_spec, Z.bits_0 by lia.
    pose proof (uchar_fits b) as Hb. apply fits_bits in Hb as [_ Hb]; [|lia].
    destruct (Z.ltb_spec i 8).
    + rewrite (Z.testbit_neg_r _ (i - 8)) by lia. apply andb_false_r.
    + by rewrite Hb.
Qed.

Lemma load_le_Ret mem off n :
  0 <= off -> 0 <= n -> off + n <= Z.of_nat (length mem) ->
  load_le mem off n = Ret (le_decode (take (Z.to_nat n) (drop (Z.to_nat off) mem))).
Proof.
  intros. unfold load_le, load_bytes.
  rewrite !(proj2 (Z.leb_le _ _)) by lia. done.
Qed.

Lemma load_le_1 mem off b :
  0 <= off -> mem !! Z.to_nat off = Some b -> load_le mem off 1 = Ret (uchar b).
Proof.
  intros Ho Hb. pose proof (lookup_lt_Some _ _ _ Hb). rewrite load_le_Ret by lia.
  apply drop_S in Hb. rewrite Hb. change (Z.to_nat 1) with 1%nat.
  cbn [take le_decode]. f_equal. rewrite take_0. cbn [le_decode]. lia.
Qed.

(** ** Spans: [n] consecutive bytes of an infinite array *)

Definition span (g : Z -> byte) (off n : Z) : list byte :=
  (fun i => g (off + Z.of_nat i)) <$> seq 0 (Z.to_nat n).

Lemma length_span g off n : length (span g off n) = Z.to_nat n.
Proof. unfold span. by rewrite length_fmap, length_seq. Qed.

Lemma span_app g off n m :
  0 <= n -> 0 <= m -> span g off (n + m) = span g off n ++ span g (off + n) m.
Proof.
  intros. unfold span. rewrite Z2Nat.inj_add, seq_app, fmap_app by lia. f_equal.
  replace (seq (0 + Z.to_nat n) _) with (Nat.add (Z.to_nat n) <$> seq 0 (Z.to_nat m))
    by (rewrite fmap_add_seq; f_equal; lia).
  rewrite <- list_fmap_compose. apply list_fmap_ext. intros i x _. cbn. f_equal. lia.
Qed.

Lemma span_ext g h a b n :
  (forall i, 0 <= i < n -> g (a + i) = h (b + i)) -> span g a n = span h b n.
Proof.
  intros H. unfold span. apply list_fmap_ext. intros i x Hx.
  apply lookup_seq in Hx as [-> Hi]. apply H. lia.
Qed.

Lemma span_const b a n : span (fun _ => b) a n = repeat b (Z.to_nat n).
Proof.
  unfold span. generalize 0%nat. induction (Z.to_nat n) as [|k IH]; intros s; [done|].
  cbn. f_equal. apply IH.
Qed.

#[global] Arguments span _ _ _ : simpl never.
