(* ===== verification/CString.v ===== *)
(** * C strings

    What the sources use of [<string.h>].  A pointer into memory is the list
    of bytes from it to the end of its object; reading past that end is
    [Undefined].  [cstring s] is the string [s] with its terminator. *)

From Stdlib Require Import Strings.Byte.
From S2P Require Import Prelude Bytes.

Definition NUL : byte := x00.

Definition cstring (s : list byte) : list byte := s ++ [NUL].

(** No terminator inside. *)
Definition text (s : list byte) : Prop := NUL ∉ s.

#[global] Instance text_dec s : Decision (text s) := _.

Definition char_at (p : list byte) (i : Z) : outcome byte :=
  if i <? 0 then Undefined else from_option_undef (p !! Z.to_nat i).

(** [strncmp], as the sign-carrying difference of the first bytes that differ. *)
Fixpoint strncmp (p q : list byte) (n : nat) {struct n} : outcome Z :=
  match n with
  | O => Ret 0
  | S n =>
      match p, q with
      | x :: p, y :: q =>
          if decide (x = y) then if decide (x = NUL) then Ret 0 else strncmp p q n
          else Ret (uchar x - uchar y)
      | _, _ => Undefined
      end
  end.

Fixpoint memcmp (p q : list byte) (n : nat) {struct n} : outcome Z :=
  match n with
  | O => Ret 0
  | S n =>
      match p, q with
      | x :: p, y :: q => if decide (x = y) then memcmp p q n else Ret (uchar x - uchar y)
      | _, _ => Undefined
      end
  end.

(** The [n] bytes [strncpy(_, p, n)] writes. *)
Fixpoint strncpy_bytes (p : list byte) (n : nat) {struct n} : outcome (list byte) :=
  match n with
  | O => Ret []
  | S n =>
      match p with
      | [] => Undefined
      | x :: p => if decide (x = NUL) then Ret (repeat NUL (S n))
                  else cons x <$> strncpy_bytes p n
      end
  end.

(** The suffix from the first [c] on. *)
Fixpoint strchr (p : list byte) (c : byte) : outcome (option (list byte)) :=
  match p with
  | [] => Undefined
  | x :: p' => if decide (x = c) then Ret (Some p)
               else if decide (x = NUL) then Ret None else strchr p' c
  end.

(** The string a block starts with. *)
Fixpoint until_nul (s : list byte) : list byte :=
  match s with
  | [] => []
  | x :: s => if decide (x = NUL) then [] else x :: until_nul s
  end.

Fixpoint strlen (p : list byte) : outcome Z :=
  match p with
  | [] => Undefined
  | x :: p => if decide (x = NUL) then Ret 0 else Z.add 1 <$> strlen p
  end.

(** The characters of the copy. *)
Fixpoint strdup (p : list byte) : outcome (list byte) :=
  match p with
  | [] => Undefined
  | x :: p => if decide (x = NUL) then Ret [] else cons x <$> strdup p
  end.

(** ** Facts *)

Lemma text_nil : text [].
Proof. unfold text. set_solver. Qed.

Lemma text_cons x s : text (x :: s) <-> x <> NUL /\ text s.
Proof. unfold text. rewrite not_elem_of_cons. split; intros [? ?]; split; congruence. Qed.

Lemma text_app s t : text (s ++ t) <-> text s /\ text t.
Proof. unfold text. rewrite elem_of_app. tauto. Qed.

Lemma char_at_lookup p i b : 0 <= i -> p !! Z.to_nat i = Some b -> char_at p i = Ret b.
Proof. intros Hi H. unfold char_at. rewrite (proj2 (Z.ltb_ge i 0)) by lia. by rewrite H. Qed.

Lemma uchar_sub_0 x y : uchar x - uchar y = 0 <-> x = y.
Proof. split; [intros; apply uchar_inj; lia|intros ->; lia]. Qed.

Lemma strncpy_text s r n : text s -> length s = n -> strncpy_bytes (s ++ r) n = Ret s.
Proof.
  revert n. induction s as [|x s IH]; intros n Hs <-; [done|]. apply text_cons in Hs as [? ?].
  cbn. rewrite decide_False by done. by rewrite IH.
Qed.

(** Comparing a terminated name [s] with the first [length t] bytes of [t ++ r]. *)
Lemma strncmp_prefix s t u r :
  text s -> text t ->
  exists c, strncmp (s ++ NUL :: u) (t ++ r) (length t) = Ret c /\
    (c = 0 <-> exists v, s = t ++ v).
Proof.
  revert s. induction t as [|y t IH]; intros s Hs Ht; cbn.
  { exists 0. split; [done|]. split; [by exists s|done]. }
  apply text_cons in Ht as [Hy Ht]. destruct s as [|x s]; cbn.
  - exists (uchar NUL - uchar y). rewrite decide_False by congruence. split; [done|].
    rewrite uchar_sub_0. split; [congruence|]. intros [v Hv]. discriminate.
  - apply text_cons in Hs as [Hx Hs]. destruct (decide (x = y)) as [->|Hne].
    + rewrite decide_False by done. destruct (IH s Hs Ht) as (c & Hc & Hiff).
      exists c. split; [done|]. rewrite Hiff. split; intros [v Hv]; exists v; congruence.
    + exists (uchar x - uchar y). split; [done|]. rewrite uchar_sub_0. split; [done|].
      intros [v Hv]. congruence.
Qed.

Lemma memcmp_eq s t r r' :
  length s = length t -> exists c, memcmp (s ++ r) (t ++ r') (length t) = Ret c /\ (c = 0 <-> s = t).
Proof.
  revert s. induction t as [|y t IH]; intros [|x s] Hl; try done; cbn.
  { by exists 0. }
  injection Hl as Hl. destruct (decide (x = y)) as [->|Hne].
  - destruct (IH s Hl) as (c & Hc & Hiff). exists c. split; [done|]. rewrite Hiff. naive_solver.
  - exists (uchar x - uchar y). split; [done|]. rewrite uchar_sub_0. naive_solver.
Qed.

Lemma strchr_text s c r :
  text s -> c <> NUL -> c ∉ s -> strchr (s ++ c :: r) c = Ret (Some (c :: r)).
Proof.
  intros Hs Hc Hn. induction s as [|x s IH]; cbn.
  - by rewrite decide_True.
  - apply text_cons in Hs as [? ?]. apply not_elem_of_cons in Hn as [? ?].
    rewrite !decide_False by done. auto.
Qed.

Lemma strchr_none s c :
  text s -> c <> NUL -> c ∉ s -> strchr (cstring s) c = Ret None.
Proof.
  intros Hs Hc Hn. induction s as [|x s IH]; cbn.
  - rewrite decide_False by congruence. by rewrite decide_True.
  - apply text_cons in Hs as [? ?]. apply not_elem_of_cons in Hn as [? ?].
    rewrite !decide_False by done. auto.
Qed.

Lemma until_nul_text s : text (until_nul s).
Proof.
  induction s as [|x s IH]; cbn; [apply text_nil|].
  destruct (decide (x = NUL)); [apply text_nil|by apply text_cons].
Qed.

Lemma until_nul_app s u : text s -> until_nul (s ++ NUL :: u) = s.
Proof.
  induction s as [|x s IH]; intros H; cbn; [done|].
  apply text_cons in H as [? ?]. rewrite decide_False by done. f_equal. auto.
Qed.

Lemma until_nul_nul s u : until_nul (s ++ NUL :: u) = until_nul s.
Proof. induction s as [|x s IH]; cbn; [done|]. case_decide; [done|]. by rewrite IH. Qed.

(** A string and its terminator written over a larger buffer. *)
Lemma store_string buf bs :
  (length bs < length buf)%nat ->
  (b ← store_bytes buf bs; store b (Z.of_nat (length bs)) NUL)
  = Ret (bs ++ NUL :: drop (S (length bs)) buf).
Proof.
  intros Hl. rewrite store_bytes_in by lia. cbn [mbind outcome_bind].
  rewrite store_in by (rewrite length_app, length_drop; lia). rewrite Nat2Z.id. f_equal.
  destruct (drop (length bs) buf) as [|x r] eqn:E.
  { apply (f_equal length) in E. rewrite length_drop in E. cbn in E. lia. }
  rewrite insert_app_r_alt, Nat.sub_diag by lia. cbn. do 2 f_equal.
  replace (S (length bs)) with (length bs + 1)%nat by lia. by rewrite <- drop_drop, E.
Qed.

Lemma strlen_text s u : text s -> strlen (s ++ NUL :: u) = Ret (Z.of_nat (length s)).
Proof.
  induction s as [|x s IH]; intros H; cbn; [done|].
  apply text_cons in H as [? ?]. rewrite decide_False by done. rewrite IH by done. cbn. f_equal. lia.
Qed.

Lemma strdup_text s u : text s -> strdup (s ++ NUL :: u) = Ret s.
Proof.
  induction s as [|x s IH]; intros H; cbn; [done|].
  apply text_cons in H as [? ?]. rewrite decide_False by done. by rewrite IH.
Qed.
