(* ===== verification/Crc.v ===== *)
(** * CRC hashes of [src/base/c_hash.c]

    The two lookup tables and the three table-driven checksums, against
    bit-at-a-time reference definitions. *)

From S2P Require Import Prelude Bytes.

Definition crc32tab : list Z := [
   0x00000000; 0x77073096; 0xee0e612c; 0x990951ba; 0x076dc419; 0x706af48f;
   0xe963a535; 0x9e6495a3; 0x0edb8832; 0x79dcb8a4; 0xe0d5e91e; 0x97d2d988;
   0x09b64c2b; 0x7eb17cbd; 0xe7b82d07; 0x90bf1d91; 0x1db71064; 0x6ab020f2;
   0xf3b97148; 0x84be41de; 0x1adad47d; 0x6ddde4eb; 0xf4d4b551; 0x83d385c7;
   0x136c9856; 0x646ba8c0; 0xfd62f97a; 0x8a65c9ec; 0x14015c4f; 0x63066cd9;
   0xfa0f3d63; 0x8d080df5; 0x3b6e20c8; 0x4c69105e; 0xd56041e4; 0xa2677172;
   0x3c03e4d1; 0x4b04d447; 0xd20d85fd; 0xa50ab56b; 0x35b5a8fa; 0x42b2986c;
   0xdbbbc9d6; 0xacbcf940; 0x32d86ce3; 0x45df5c75; 0xdcd60dcf; 0xabd13d59;
   0x26d930ac; 0x51de003a; 0xc8d75180; 0xbfd06116; 0x21b4f4b5; 0x56b3c423;
   0xcfba9599; 0xb8bda50f; 0x2802b89e; 0x5f058808; 0xc60cd9b2; 0xb10be924;
   0x2f6f7c87; 0x58684c11; 0xc1611dab; 0xb6662d3d; 0x76dc4190; 0x01db7106;
   0x98d220bc; 0xefd5102a; 0x71b18589; 0x06b6b51f; 0x9fbfe4a5; 0xe8b8d433;
   0x7807c9a2; 0x0f00f934; 0x9609a88e; 0xe10e9818; 0x7f6a0dbb; 0x086d3d2d;
   0x91646c97; 0xe6635c01; 0x6b6b51f4; 0x1c6c6162; 0x856530d8; 0xf262004e;
   0x6c0695ed; 0x1b01a57b; 0x8208f4c1; 0xf50fc457; 0x65b0d9c6; 0x12b7e950;
   0x8bbeb8ea; 0xfcb9887c; 0x62dd1ddf; 0x15da2d49; 0x8cd37cf3; 0xfbd44c65;
   0x4db26158; 0x3ab551ce; 0xa3bc0074; 0xd4bb30e2; 0x4adfa541; 0x3dd895d7;
   0xa4d1c46d; 0xd3d6f4fb; 0x4369e96a; 0x346ed9fc; 0xad678846; 0xda60b8d0;
   0x44042d73; 0x33031de5; 0xaa0a4c5f; 0xdd0d7cc9; 0x5005713c; 0x270241aa;
   0xbe0b1010; 0xc90c2086; 0x5768b525; 0x206f85b3; 0xb966d409; 0xce61e49f;
   0x5edef90e; 0x29d9c998; 0xb0d09822; 0xc7d7a8b4; 0x59b33d17; 0x2eb40d81;
   0xb7bd5c3b; 0xc0ba6cad; 0xedb88320; 0x9abfb3b6; 0x03b6e20c; 0x74b1d29a;
   0xead54739; 0x9dd277af; 0x04db2615; 0x73dc1683; 0xe3630b12; 0x94643b84;
   0x0d6d6a3e; 0x7a6a5aa8; 0xe40ecf0b; 0x9309ff9d; 0x0a00ae27; 0x7d079eb1;
   0xf00f9344; 0x8708a3d2; 0x1e01f268; 0x6906c2fe; 0xf762575d; 0x806567cb;
   0x196c3671; 0x6e6b06e7; 0xfed41b76; 0x89d32be0; 0x10da7a5a; 0x67dd4acc;
   0xf9b9df6f; 0x8ebeeff9; 0x17b7be43; 0x60b08ed5; 0xd6d6a3e8; 0xa1d1937e;
   0x38d8c2c4; 0x4fdff252; 0xd1bb67f1; 0xa6bc5767; 0x3fb506dd; 0x48b2364b;
   0xd80d2bda; 0xaf0a1b4c; 0x36034af6; 0x41047a60; 0xdf60efc3; 0xa867df55;
   0x316e8eef; 0x4669be79; 0xcb61b38c; 0xbc66831a; 0x256fd2a0; 0x5268e236;
   0xcc0c7795; 0xbb0b4703; 0x220216b9; 0x5505262f; 0xc5ba3bbe; 0xb2bd0b28;
   0x2bb45a92; 0x5cb36a04; 0xc2d7ffa7; 0xb5d0cf31; 0x2cd99e8b; 0x5bdeae1d;
   0x9b64c2b0; 0xec63f226; 0x756aa39c; 0x026d930a; 0x9c0906a9; 0xeb0e363f;
   0x72076785; 0x05005713; 0x95bf4a82; 0xe2b87a14; 0x7bb12bae; 0x0cb61b38;
   0x92d28e9b; 0xe5d5be0d; 0x7cdcefb7; 0x0bdbdf21; 0x86d3d2d4; 0xf1d4e242;
   0x68ddb3f8; 0x1fda836e; 0x81be16cd; 0xf6b9265b; 0x6fb077e1; 0x18b74777;
   0x88085ae6; 0xff0f6a70; 0x66063bca; 0x11010b5c; 0x8f659eff; 0xf862ae69;
   0x616bffd3; 0x166ccf45; 0xa00ae278; 0xd70dd2ee; 0x4e048354; 0x3903b3c2;
   0xa7672661; 0xd06016f7; 0x4969474d; 0x3e6e77db; 0xaed16a4a; 0xd9d65adc;
   0x40df0b66; 0x37d83bf0; 0xa9bcae53; 0xdebb9ec5; 0x47b2cf7f; 0x30b5ffe9;
   0xbdbdf21c; 0xcabac28a; 0x53b39330; 0x24b4a3a6; 0xbad03605; 0xcdd70693;
   0x54de5729; 0x23d967bf; 0xb3667a2e; 0xc4614ab8; 0x5d681b02; 0x2a6f2b94;
   0xb40bbe37; 0xc30c8ea1; 0x5a05df1b; 0x2d02ef8d
  ].

Definition crc16tab : list Z := [
   0x0000; 0x1021; 0x2042; 0x3063; 0x4084; 0x50a5; 0x60c6; 0x70e7;
   0x8108; 0x9129; 0xa14a; 0xb16b; 0xc18c; 0xd1ad; 0xe1ce; 0xf1ef;
   0x1231; 0x0210; 0x3273; 0x2252; 0x52b5; 0x4294; 0x72f7; 0x62d6;
   0x9339; 0x8318; 0xb37b; 0xa35a; 0xd3bd; 0xc39c; 0xf3ff; 0xe3de;
   0x2462; 0x3443; 0x0420; 0x1401; 0x64e6; 0x74c7; 0x44a4; 0x5485;
   0xa56a; 0xb54b; 0x8528; 0x9509; 0xe5ee; 0xf5cf; 0xc5ac; 0xd58d;
   0x3653; 0x2672; 0x1611; 0x0630; 0x76d7; 0x66f6; 0x5695; 0x46b4;
   0xb75b; 0xa77a; 0x9719; 0x8738; 0xf7df; 0xe7fe; 0xd79d; 0xc7bc;
   0x48c4; 0x58e5; 0x6886; 0x78a7; 0x0840; 0x1861; 0x2802; 0x3823;
   0xc9cc; 0xd9ed; 0xe98e; 0xf9af; 0x8948; 0x9969; 0xa90a; 0xb92b;
   0x5af5; 0x4ad4; 0x7ab7; 0x6a96; 0x1a71; 0x0a50; 0x3a33; 0x2a12;
   0xdbfd; 0xcbdc; 0xfbbf; 0xeb9e; 0x9b79; 0x8b58; 0xbb3b; 0xab1a;
   0x6ca6; 0x7c87; 0x4ce4; 0x5cc5; 0x2c22; 0x3c03; 0x0c60; 0x1c41;
   0xedae; 0xfd8f; 0xcdec; 0xddcd; 0xad2a; 0xbd0b; 0x8d68; 0x9d49;
   0x7e97; 0x6eb6; 0x5ed5; 0x4ef4; 0x3e13; 0x2e32; 0x1e51; 0x0e70;
   0xff9f; 0xefbe; 0xdfdd; 0xcffc; 0xbf1b; 0xaf3a; 0x9f59; 0x8f78;
   0x9188; 0x81a9; 0xb1ca; 0xa1eb; 0xd10c; 0xc12d; 0xf14e; 0xe16f;
   0x1080; 0x00a1; 0x30c2; 0x20e3; 0x5004; 0x4025; 0x7046; 0x6067;
   0x83b9; 0x9398; 0xa3fb; 0xb3da; 0xc33d; 0xd31c; 0xe37f; 0xf35e;
   0x02b1; 0x1290; 0x22f3; 0x32d2; 0x4235; 0x5214; 0x6277; 0x7256;
   0xb5ea; 0xa5cb; 0x95a8; 0x8589; 0xf56e; 0xe54f; 0xd52c; 0xc50d;
   0x34e2; 0x24c3; 0x14a0; 0x0481; 0x7466; 0x6447; 0x5424; 0x4405;
   0xa7db; 0xb7fa; 0x8799; 0x97b8; 0xe75f; 0xf77e; 0xc71d; 0xd73c;
   0x26d3; 0x36f2; 0x0691; 0x16b0; 0x6657; 0x7676; 0x4615; 0x5634;
   0xd94c; 0xc96d; 0xf90e; 0xe92f; 0x99c8; 0x89e9; 0xb98a; 0xa9ab;
   0x5844; 0x4865; 0x7806; 0x6827; 0x18c0; 0x08e1; 0x3882; 0x28a3;
   0xcb7d; 0xdb5c; 0xeb3f; 0xfb1e; 0x8bf9; 0x9bd8; 0xabbb; 0xbb9a;
   0x4a75; 0x5a54; 0x6a37; 0x7a16; 0x0af1; 0x1ad0; 0x2ab3; 0x3a92;
   0xfd2e; 0xed0f; 0xdd6c; 0xcd4d; 0xbdaa; 0xad8b; 0x9de8; 0x8dc9;
   0x7c26; 0x6c07; 0x5c64; 0x4c45; 0x3ca2; 0x2c83; 0x1ce0; 0x0cc1;
   0xef1f; 0xff3e; 0xcf5d; 0xdf7c; 0xaf9b; 0xbfba; 0x8fd9; 0x9ff8;
   0x6e17; 0x7e36; 0x4e55; 0x5e74; 0x2e93; 0x3eb2; 0x0ed1; 0x1ef0
  ].

Definition tab_at (tab : list Z) (i : Z) : Z := nth (Z.to_nat i) tab 0.

(** [crc = (crc << 8) ^ crc16tab[((crc >> 8) ^ *key++) & 0x00ff]], with
    [*key] a signed [char] converted to [uint32_t]. *)
Definition crc16_step (crc : Z) (b : byte) : Z :=
  ((crc << 8) ⊕ tab_at crc16tab (((crc >> 8) ⊕ u32 (schar b)) .& 0x00ff))%u32.

Definition c_hash_crc16 (key : list byte) : Z := fold_left crc16_step key 0.

(** [crc = (crc >> 8) ^ crc32tab[(crc ^ (uint64_t)key[x]) & 0xff]]. *)
Definition crc32_step (crc : Z) (b : byte) : Z :=
  ((crc >> 8) ⊕ tab_at crc32tab ((crc ⊕ u64 (schar b)) .& 0xff))%u32.

Definition c_hash_crc32 (key : list byte) : Z :=
  Z.land (Z.shiftr (wnot 32 (fold_left crc32_step key (2 ^ 32 - 1))) 16) 0x7fff.

(** [crc = crc32tab[(crc ^ *p++) & 0xFF] ^ (crc >> 8)], [p] unsigned. *)
Definition crc32a_step (crc : Z) (b : byte) : Z :=
  (tab_at crc32tab ((crc ⊕ uchar b) .& 0xFF) ⊕ (crc >> 8))%u32.

Definition c_hash_crc32a (key : list byte) : Z :=
  Z.lxor (fold_left crc32a_step key (wnot 32 0)) (wnot 32 0).

(** ** Bit-at-a-time references *)

Definition crc32_bit (c : Z) : Z :=
  Z.lxor (Z.shiftr c 1) (if Z.testbit c 0 then 0xEDB88320 else 0).
Definition crc32_ref_step (c : Z) (b : byte) : Z :=
  Nat.iter 8 crc32_bit (Z.lxor c (uchar b)).
Definition crc32_ref (key : list byte) : Z :=
  Z.lxor (fold_left crc32_ref_step key (2 ^ 32 - 1)) (2 ^ 32 - 1).

Definition crc16_bit (c : Z) : Z :=
  Z.lxor (wshl 16 c 1) (if Z.testbit c 15 then 0x1021 else 0).
Definition crc16_ref_step (c : Z) (b : byte) : Z :=
  Nat.iter 8 crc16_bit (Z.lxor c (Z.shiftl (uchar b) 8)).
Definition crc16_ref (key : list byte) : Z := fold_left crc16_ref_step key 0.

(** ** Linearity *)

Definition linear (f : Z -> Z) : Prop :=
  forall x y, f (Z.lxor x y) = Z.lxor (f x) (f y).

Lemma linear_iter f n : linear f -> linear (Nat.iter n f).
Proof. intros Hf x y. induction n; simpl; [done|]. by rewrite IHn. Qed.

Lemma lxor_if b c k :
  (if xorb b c then k else 0) = Z.lxor (if b then k else 0) (if c then k else 0).
Proof. destruct b, c; simpl; rewrite ?Z.lxor_0_r, ?Z.lxor_nilpotent; done. Qed.

Lemma lxor_swap a b c d :
  Z.lxor (Z.lxor a b) (Z.lxor c d) = Z.lxor (Z.lxor a c) (Z.lxor b d).
Proof.
  rewrite !Z.lxor_assoc. f_equal. rewrite <- !Z.lxor_assoc. f_equal. apply Z.lxor_comm.
Qed.

Lemma crc32_bit_linear : linear crc32_bit.
Proof.
  intros x y. unfold crc32_bit.
  by rewrite Z.shiftr_lxor, Z.lxor_spec, lxor_if, lxor_swap.
Qed.

Lemma crc16_bit_linear : linear crc16_bit.
Proof.
  intros x y. unfold crc16_bit, wshl.
  by rewrite Z.shiftl_lxor, wrap_lxor, Z.lxor_spec, lxor_if, lxor_swap by lia.
Qed.

(** A word split at bit [n]. *)
Lemma lxor_split n x :
  0 <= n -> x = Z.lxor (Z.shiftl (Z.shiftr x n) n) (wrap n x).
Proof.
  intros. apply Z.bits_inj'. intros i Hi.
  rewrite Z.lxor_spec, Z.shiftl_spec, testbit_wrap by lia.
  destruct (Z.ltb_spec i n).
  - rewrite (Z.testbit_neg_r _ (i - n)) by lia. by rewrite xorb_false_l.
  - rewrite Z.shiftr_spec by lia. replace (i - n + n) with i by lia.
    by rewrite xorb_false_r.
Qed.

Lemma land_ff x : Z.land x 0xff = wrap 8 x.
Proof. unfold wrap. by rewrite <- Z.land_ones. Qed.

(** Every entry of a table satisfies a decidable property. *)
Lemma tab_forall (P : Z -> bool) :
  forallb P (map Z.of_nat (seq 0 256)) = true -> forall i, fits 8 i -> P i = true.
Proof.
  intros Hall i [H0 H1]. change (2 ^ 8) with 256 in H1.
  rewrite forallb_forall in Hall. apply Hall. apply in_map_iff.
  exists (Z.to_nat i). rewrite in_seq. lia.
Qed.

(** The tables hold the bitwise remainders. *)
Lemma crc32tab_bits i : fits 8 i -> tab_at crc32tab i = Nat.iter 8 crc32_bit i.
Proof.
  intros. apply Z.eqb_eq.
  by apply (tab_forall (fun i => tab_at crc32tab i =? Nat.iter 8 crc32_bit i)).
Qed.

Lemma crc16tab_bits i :
  fits 8 i -> tab_at crc16tab i = Nat.iter 8 crc16_bit (Z.shiftl i 8).
Proof.
  intros. apply Z.eqb_eq.
  by apply (tab_forall (fun i => tab_at crc16tab i =? Nat.iter 8 crc16_bit (Z.shiftl i 8))).
Qed.

Lemma crc32tab_fits i : fits 8 i -> fits 32 (tab_at crc32tab i).
Proof.
  intros. apply fitsb_fits. by apply (tab_forall (fun i => fitsb 32 (tab_at crc32tab i))).
Qed.

Lemma crc16tab_fits i : fits 8 i -> fits 16 (tab_at crc16tab i).
Proof.
  intros. apply fitsb_fits. by apply (tab_forall (fun i => fitsb 16 (tab_at crc16tab i))).
Qed.

Lemma uchar_shiftr8 b : Z.shiftr (uchar b) 8 = 0.
Proof.
  pose proof (uchar_fits b) as [? ?]. rewrite Z.shiftr_div_pow2 by lia.
  by apply Z.div_small.
Qed.

(** Eight shifts of a word whose low byte is clear only shift it. *)
Lemma crc32_bit_double z : crc32_bit (2 * z) = z.
Proof.
  unfold crc32_bit. rewrite Z.testbit_even_0, Z.lxor_0_r, Z.shiftr_div_pow2 by lia.
  change (2 ^ 1) with 2. rewrite Z.mul_comm. by apply Z.div_mul.
Qed.

Lemma crc32_iter_shift n z :
  Nat.iter n crc32_bit (Z.shiftl z (Z.of_nat n)) = z.
Proof.
  revert z. induction n as [|n IH]; intros z; [apply Z.shiftl_0_r|].
  rewrite Nat.iter_succ_r.
  replace (Z.shiftl z (Z.of_nat (S n))) with (2 * Z.shiftl z (Z.of_nat n)).
  - by rewrite crc32_bit_double, IH.
  - rewrite !Z.shiftl_mul_pow2, Nat2Z.inj_succ, Z.pow_succ_r by lia. ring.
Qed.

Lemma crc32a_step_ref c b : crc32a_step c b = crc32_ref_step c b.
Proof.
  unfold crc32a_step, crc32_ref_step. set (x := Z.lxor c (uchar b)).
  rewrite (lxor_split 8 x) at 2 by lia.
  rewrite (linear_iter crc32_bit 8 crc32_bit_linear).
  rewrite (crc32_iter_shift 8), land_ff, <- crc32tab_bits by word_range.
  unfold x. rewrite Z.shiftr_lxor, uchar_shiftr8, Z.lxor_0_r. apply Z.lxor_comm.
Qed.

(** Sign extension of the key byte is cut off by the table index. *)
Lemma index_schar w c b :
  8 <= w -> Z.land (Z.lxor c (wrap w (schar b))) 0xff = Z.land (Z.lxor c (uchar b)) 0xff.
Proof.
  intros. rewrite !land_ff, !wrap_lxor by lia. f_equal.
  by rewrite wrap_mod_pow, wrap_schar by lia.
Qed.

Lemma crc32_step_a c b : crc32_step c b = crc32a_step c b.
Proof.
  unfold crc32_step, crc32a_step. rewrite index_schar by lia. apply Z.lxor_comm.
Qed.

Lemma crc32a_step_fits c b : fits 32 c -> fits 32 (crc32a_step c b).
Proof.
  intros. apply fits_lxor; [lia| |word_range].
  apply crc32tab_fits. rewrite land_ff. word_range.
Qed.

Lemma crc32_register key : fits 32 (fold_left crc32a_step key (2 ^ 32 - 1)).
Proof. apply fold_left_inv; [apply crc32a_step_fits|by split]. Qed.

Lemma wnot32_lxor x : fits 32 x -> wnot 32 x = Z.lxor x (2 ^ 32 - 1).
Proof.
  intros Hx. apply Z.bits_inj'. intros i Hi. unfold wnot.
  rewrite testbit_wrap, Z.lxor_spec, Z.lnot_spec by lia.
  change (2 ^ 32 - 1) with (Z.ones 32). destruct (Z.ltb_spec i 32).
  - rewrite Z.ones_spec_low by lia. by destruct (Z.testbit x i).
  - rewrite Z.ones_spec_high by lia.
    apply fits_bits in Hx as [_ Hx]; [|lia]. by rewrite Hx.
Qed.

(** ** CRC-16: only the low half of the register is a CRC *)

Lemma crc16_iter_low x :
  fits 8 x -> Nat.iter 8 crc16_bit x = Z.shiftl x 8.
Proof.
  intros. apply Z.eqb_eq.
  by apply (tab_forall (fun i => Nat.iter 8 crc16_bit i =? Z.shiftl i 8)).
Qed.

Lemma crc16_step_ref c b : u16 (crc16_step c b) = crc16_ref_step (u16 c) b.
Proof.
  unfold crc16_step, crc16_ref_step.
  set (i := wrap 8 (Z.lxor (Z.shiftr c 8) (uchar b))).
  rewrite index_schar, land_ff by lia. fold i.
  assert (Z.lxor (u16 c) (Z.shiftl (uchar b) 8) = Z.lxor (wrap 8 c) (Z.shiftl i 8)) as ->.
  { apply Z.bits_inj'. intros n Hn. unfold i.
    rewrite !Z.lxor_spec, !Z.shiftl_spec, !testbit_wrap by lia.
    destruct (Z.ltb_spec n 8).
    - rewrite !(Z.testbit_neg_r _ (n - 8)) by lia. by destruct (Z.ltb_spec n 16); [|lia].
    - rewrite testbit_wrap, Z.lxor_spec, Z.shiftr_spec by lia.
      replace (n - 8 + 8) with n by lia.
      destruct (Z.ltb_spec n 16), (Z.ltb_spec (n - 8) 8); try lia; simpl; [done|].
      pose proof (uchar_fits b) as Hb. apply fits_bits in Hb as [_ Hb]; [|lia].
      by rewrite Hb by lia. }
  rewrite (linear_iter crc16_bit 8 crc16_bit_linear).
  rewrite crc16_iter_low, <- crc16tab_bits by word_range.
  rewrite wrap_lxor by lia. f_equal.
  - unfold wshl. rewrite wrap_mod_pow by lia. apply Z.bits_inj'. intros n Hn.
    rewrite testbit_wrap, !Z.shiftl_spec by lia. destruct (Z.ltb_spec n 8).
    + rewrite !(Z.testbit_neg_r _ (n - 8)) by lia. by rewrite andb_false_r.
    + rewrite testbit_wrap by lia. f_equal. by zcase.
  - apply wrap_small, crc16tab_fits. unfold i. word_range.
Qed.

(** ** The checksums *)

(** [c_hash_crc32a] computes the reflected CRC-32 of the key (polynomial
    0xEDB88320, all-ones preset and final complement), bit for bit, for every key. *)
Theorem crc32a_is_crc32 key : c_hash_crc32a key = crc32_ref key.
Proof.
  unfold c_hash_crc32a, crc32_ref. change (wnot 32 0) with (2 ^ 32 - 1).
  by rewrite (fold_left_ext _ _ _ _ crc32a_step_ref).
Qed.

(** [c_hash_crc32] is the 15-bit slice [16..30] of [c_hash_crc32a], so it
    always lies in [[0, 0x7fff]] and its signed key bytes do not matter. *)
Theorem crc32_is_slice_of_crc32a key :
  c_hash_crc32 key = Z.land (Z.shiftr (c_hash_crc32a key) 16) 0x7fff /\
  0 <= c_hash_crc32 key <= 0x7fff.
Proof.
  assert (c_hash_crc32 key = Z.land (Z.shiftr (c_hash_crc32a key) 16) 0x7fff) as ->.
  { unfold c_hash_crc32, c_hash_crc32a. change (wnot 32 0) with (2 ^ 32 - 1).
    by rewrite (fold_left_ext _ _ _ _ crc32_step_a), wnot32_lxor by apply crc32_register. }
  split; [done|]. change 0x7fff with (Z.ones 15). rewrite Z.land_ones by lia.
  pose proof (Z.mod_pos_bound (Z.shiftr (c_hash_crc32a key) 16) (2 ^ 15)). 
  change (Z.ones 15) with (2 ^ 15 - 1). lia.
Qed.

(** the low 16 bits of [c_hash_crc16] are the CRC-16/XMODEM (polynomial
    0x1021, zero preset) of the key; the register itself is never cut to 16 bits. *)
Theorem crc16_low_half_is_xmodem key :
  u16 (c_hash_crc16 key) = crc16_ref key.
Proof.
  unfold c_hash_crc16, crc16_ref.
  by rewrite (fold_left_sim u16 crc16_step crc16_ref_step key 0 crc16_step_ref).
Qed.
