(* ===== verification/Fnv.v ===== *)
(** * FNV and one-at-a-time hashes of [src/base/c_hash.c]

    The four FNV loops and Jenkins' one-at-a-time hash.  A key byte is a plain
    [char], sign-extended by the cast of the code; the reference functions take
    the unsigned bytes of the published algorithms. *)

From S2P Require Import Prelude Bytes.

Definition FNV_64_INIT : Z := 0xcbf29ce484222325.
Definition FNV_64_PRIME : Z := 0x100000001b3.
Definition FNV_32_INIT : Z := 2166136261.
Definition FNV_32_PRIME : Z := 16777619.

Definition c_hash_fnv1_64 (key : list byte) : Z :=
  u32 (fold_left (fun hash b => ((hash * FNV_64_PRIME) ⊕ u64 (schar b))%u64) key FNV_64_INIT).

(** Computed on 32 bits throughout, with the 64-bit constants truncated. *)
Definition c_hash_fnv1a_64 (key : list byte) : Z :=
  fold_left (fun hash b => ((hash ⊕ u32 (schar b)) * u32 FNV_64_PRIME)%u32)
    key (u32 FNV_64_INIT).

Definition c_hash_fnv1_32 (key : list byte) : Z :=
  fold_left (fun hash b => ((hash * FNV_32_PRIME) ⊕ u32 (schar b))%u32) key FNV_32_INIT.

Definition c_hash_fnv1a_32 (key : list byte) : Z :=
  fold_left (fun hash b => ((hash ⊕ u32 (schar b)) * FNV_32_PRIME)%u32) key FNV_32_INIT.

Definition one_at_a_time_step (value : Z) (b : byte) : Z :=
  let value := (value + u32 (schar b))%u32 in
  let value := (value + (value << 10))%u32 in
  (value ⊕ (value >> 6))%u32.

Definition c_hash_one_at_a_time (key : list byte) : Z :=
  let value := fold_left one_at_a_time_step key 0 in
  let value := (value + (value << 3))%u32 in
  let value := (value ⊕ (value >> 11))%u32 in
  (value + (value << 15))%u32.

(** ** The published FNV-1 and FNV-1a on [w]-bit words *)

Definition fnv1_ref (w prime init : Z) (key : list byte) : Z :=
  fold_left (fun h b => Z.lxor (wmul w h prime) (uchar b)) key init.
Definition fnv1a_ref (w prime init : Z) (key : list byte) : Z :=
  fold_left (fun h b => wmul w (Z.lxor h (uchar b)) prime) key init.

(** 7-bit keys, on which [char] and [unsigned char] agree. *)
Definition ascii_key (key : list byte) : Prop := Forall (fun b => uchar b < 128) key.

Lemma wrap_schar_ascii w b : 8 <= w -> uchar b < 128 -> wrap w (schar b) = uchar b.
Proof.
  intros. rewrite schar_ascii by done. apply wrap_small.
  eapply fits_le, uchar_fits; lia.
Qed.

Lemma fold_left_ext_Forall {A B} (P : B -> Prop) (f g : A -> B -> A) l a :
  Forall P l -> (forall x y, P y -> f x y = g x y) -> fold_left f l a = fold_left g l a.
Proof.
  intros Hl Hfg. revert a. induction Hl as [|b l Hb Hl IH]; intros a; simpl; [done|].
  by rewrite Hfg, IH.
Qed.

(** Truncation to [w] bits commutes with a wider FNV-1a step. *)
Lemma wrap_wmul w v a b : 0 <= w <= v -> wrap w (wmul v a b) = wmul w (wrap w a) (wrap w b).
Proof.
  intros. unfold wmul. rewrite wrap_mod_pow by done. unfold wrap.
  apply Zmult_mod.
Qed.

(** [c_hash_fnv1a_64], computed on 32-bit words, is the low half of the
    64-bit FNV-1a hash of the (sign-extended) key bytes; on 7-bit keys that is
    the published FNV-1a-64 truncated to 32 bits. *)
Theorem fnv1a_64_is_low_half key :
  c_hash_fnv1a_64 key =
    u32 (fold_left (fun h b => wmul 64 (Z.lxor h (u64 (schar b))) FNV_64_PRIME) key FNV_64_INIT)
  /\ (ascii_key key ->
      c_hash_fnv1a_64 key = u32 (fnv1a_ref 64 FNV_64_PRIME FNV_64_INIT key)).
Proof.
  assert (c_hash_fnv1a_64 key =
    u32 (fold_left (fun h b => wmul 64 (Z.lxor h (u64 (schar b))) FNV_64_PRIME) key FNV_64_INIT))
    as Hlow.
  { symmetry. apply fold_left_sim. intros h b. cbn beta.
    by rewrite wrap_wmul, wrap_lxor, (wrap_mod_pow 32 64) by lia. }
  split; [exact Hlow|]. intros Hk. rewrite Hlow. unfold fnv1a_ref. f_equal.
  apply (fold_left_ext_Forall _ _ _ _ _ Hk). intros h b Hb; cbn beta in Hb.
  by rewrite wrap_schar_ascii by lia.
Qed.

(** on 7-bit keys [c_hash_fnv1_64], [c_hash_fnv1_32] and [c_hash_fnv1a_32]
    are the published FNV-1-64 (truncated), FNV-1-32 and FNV-1a-32. *)
Theorem fnv_standard_on_ascii key :
  ascii_key key ->
  c_hash_fnv1_64 key = u32 (fnv1_ref 64 FNV_64_PRIME FNV_64_INIT key) /\
  c_hash_fnv1_32 key = fnv1_ref 32 FNV_32_PRIME FNV_32_INIT key /\
  c_hash_fnv1a_32 key = fnv1a_ref 32 FNV_32_PRIME FNV_32_INIT key.
Proof.
  intros Hk. split; [|split]; [unfold c_hash_fnv1_64; f_equal| |];
    apply (fold_left_ext_Forall _ _ _ _ _ Hk); intros h b Hb; cbn beta in Hb;
    by rewrite wrap_schar_ascii by lia.
Qed.

Definition fnv_test_key : list byte := map byte_of [99; 104; 117; 110; 107].

Lemma fnv_standard_on_ascii_witness :
  c_hash_fnv1a_32 fnv_test_key = fnv1a_ref 32 FNV_32_PRIME FNV_32_INIT fnv_test_key.
Proof.
  apply (fnv_standard_on_ascii fnv_test_key). unfold ascii_key.
  repeat constructor; vm_compute; reflexivity.
Defined.

Lemma fnv1a_64_is_low_half_witness :
  c_hash_fnv1a_64 fnv_test_key = u32 (fnv1a_ref 64 FNV_64_PRIME FNV_64_INIT fnv_test_key).
Proof.
  apply (fnv1a_64_is_low_half fnv_test_key). unfold ascii_key.
  repeat constructor; vm_compute; reflexivity.
Defined.

(** Bytes from 0x80 up are sign-extended, so on other keys the hashes depart
    from the published ones. *)
Example fnv1a_32_signed_key :
  c_hash_fnv1a_32 [byte_of 0x80] <> fnv1a_ref 32 FNV_32_PRIME FNV_32_INIT [byte_of 0x80].
Proof. by vm_compute. Qed.
