(* ===== verification/Hsieh.v ===== *)
(** * Hsieh's hash and SuperFastHash of [src/base/c_hash.c]

    Both consume four bytes per round of a shared loop, then a tail of up to
    three bytes and the same avalanche.  Loads are bounds-checked, so a read
    past the key would be [Undefined]. *)

From S2P Require Import Prelude Bytes.

(** [get16bits(d)]: two bytes, little end first, on a 32-bit word. *)
Definition get16bits (mem : list byte) (off : Z) : outcome Z :=
  lo ← load_le mem off 1; hi ← load_le mem (off + 1) 1;
  mret ((hi << 8) + lo)%u32.

(** The main loop: [n] rounds from offset [off]; returns the hash and the new
    offset. *)
Fixpoint hsieh_loop (mem : list byte) (n : nat) (hash off : Z) : outcome (Z * Z) :=
  match n with
  | O => mret (hash, off)
  | S n =>
      w ← get16bits mem off;
      let hash := (hash + w)%u32 in
      w2 ← get16bits mem (off + 2);
      let tmp := ((w2 << 11) ⊕ hash)%u32 in
      let hash := ((hash << 16) ⊕ tmp)%u32 in
      let hash := (hash + (hash >> 11))%u32 in
      hsieh_loop mem n hash (off + 4)
  end.

Definition load_schar (mem : list byte) (off : Z) : outcome Z :=
  v ← load_le mem off 1; mret (s8 v).

Definition hsieh_avalanche (hash : Z) : Z :=
  let hash := (hash ⊕ (hash << 3))%u32 in
  let hash := (hash + (hash >> 5))%u32 in
  let hash := (hash ⊕ (hash << 4))%u32 in
  let hash := (hash + (hash >> 17))%u32 in
  let hash := (hash ⊕ (hash << 25))%u32 in
  (hash + (hash >> 6))%u32.

(** The [case 3] and [case 2] arms, common to both functions. *)
Definition hsieh_tail3 (mem : list byte) (hash off : Z) : outcome Z :=
  w ← get16bits mem off;
  let hash := (hash + w)%u32 in
  let hash := (hash ⊕ (hash << 16))%u32 in
  c ← load_schar mem (off + 2);
  let hash := (hash ⊕ (c << 18))%u32 in
  mret (hash + (hash >> 11))%u32.

Definition hsieh_tail2 (mem : list byte) (hash off : Z) : outcome Z :=
  w ← get16bits mem off;
  let hash := (hash + w)%u32 in
  let hash := (hash ⊕ (hash << 11))%u32 in
  mret (hash + (hash >> 17))%u32.

(** [c_hash_hsieh]; [None] is a null [key]. *)
Definition c_hash_hsieh (key : option (list byte)) (key_length : Z) : outcome Z :=
  match key with
  | None => mret 0
  | Some mem =>
      if key_length <=? 0 then mret 0
      else
        let rem := Z.land key_length 3 in
        '(hash, off) ← hsieh_loop mem (Z.to_nat (Z.shiftr key_length 2)) 0 0;
        hash ←
          (if rem =? 3 then hsieh_tail3 mem hash off
           else if rem =? 2 then hsieh_tail2 mem hash off
           else if rem =? 1 then
             c ← load_le mem off 1;
             let hash := (hash + c)%u32 in
             let hash := (hash ⊕ (hash << 10))%u32 in
             mret (hash + (hash >> 1))%u32
           else mret hash);
        mret (hsieh_avalanche hash)
  end.

(** [c_hash_super_fast]: seeded with the length, one-byte tail signed, lengths
    up to 1 rejected. *)
Definition c_hash_super_fast (data : option (list byte)) (len : Z) : outcome Z :=
  match data with
  | None => mret 1
  | Some mem =>
      if len <=? 1 then mret 1
      else
        let rem := Z.land len 3 in
        '(hash, off) ← hsieh_loop mem (Z.to_nat (Z.shiftr len 2)) (u32 len) 0;
        hash ←
          (if rem =? 3 then hsieh_tail3 mem hash off
           else if rem =? 2 then hsieh_tail2 mem hash off
           else if rem =? 1 then
             c ← load_schar mem off;
             let hash := (hash + c)%u32 in
             let hash := (hash ⊕ (hash << 10))%u32 in
             mret (hash + (hash >> 1))%u32
           else mret hash);
        mret (hsieh_avalanche hash)
  end.

(** ** The reads stay inside the key *)

Lemma load_le_ok mem off n :
  0 <= off -> 0 <= n -> off + n <= Z.of_nat (length mem) ->
  exists v, load_le mem off n = Ret v.
Proof.
  intros. unfold load_le, load_bytes.
  rewrite !(proj2 (Z.leb_le _ _)) by lia. simpl. eauto.
Qed.

Lemma get16bits_ok mem off :
  0 <= off -> off + 2 <= Z.of_nat (length mem) -> exists v, get16bits mem off = Ret v.
Proof.
  intros. unfold get16bits.
  destruct (load_le_ok mem off 1) as [? ->]; [lia..|].
  destruct (load_le_ok mem (off + 1) 1) as [? ->]; [lia..|]. simpl. eauto.
Qed.

Lemma hsieh_loop_ok mem n hash off :
  0 <= off -> off + 4 * Z.of_nat n <= Z.of_nat (length mem) ->
  exists hash', hsieh_loop mem n hash off = Ret (hash', off + 4 * Z.of_nat n).
Proof.
  revert hash off. induction n as [|n IH]; intros hash off H0 H1.
  { simpl. eexists. do 2 f_equal. lia. }
  rewrite Nat2Z.inj_succ in *. cbn [hsieh_loop].
  destruct (get16bits_ok mem off) as [w ->]; [lia..|].
  destruct (get16bits_ok mem (off + 2)) as [w2 ->]; [lia..|]. cbn [mbind outcome_bind].
  match goal with |- context [hsieh_loop mem n ?h ?o] => destruct (IH h o) as [h' ->]; [lia..|] end.
  eexists. do 2 f_equal. lia.
Qed.

Lemma hsieh_tail3_ok mem hash off :
  0 <= off -> off + 3 <= Z.of_nat (length mem) -> returns (hsieh_tail3 mem hash off).
Proof.
  intros. unfold hsieh_tail3, load_schar.
  destruct (get16bits_ok mem off) as [w ->]; [lia..|]. cbn [mbind outcome_bind].
  destruct (load_le_ok mem (off + 2) 1) as [c ->]; [lia..|]. eexists. reflexivity.
Qed.

Lemma hsieh_tail2_ok mem hash off :
  0 <= off -> off + 2 <= Z.of_nat (length mem) -> returns (hsieh_tail2 mem hash off).
Proof.
  intros. unfold hsieh_tail2.
  destruct (get16bits_ok mem off) as [w ->]; [lia..|]. eexists. reflexivity.
Qed.

Lemma split_by_four len :
  0 <= len ->
  len = 4 * Z.of_nat (Z.to_nat (Z.shiftr len 2)) + Z.land len 3 /\ 0 <= Z.land len 3 < 4.
Proof.
  intros. rewrite Z.shiftr_div_pow2 by lia. change 3 with (Z.ones 2).
  rewrite Z.land_ones by lia. change (2 ^ 2) with 4.
  pose proof (Z.div_pos len 4). pose proof (Z.mod_pos_bound len 4). 
  rewrite Z2Nat.id by lia. pose proof (Z_div_mod_eq_full len 4). lia.
Qed.

Lemma hsieh_avalanche_fits h : fits 32 (hsieh_avalanche h).
Proof. unfold hsieh_avalanche. word_range. Qed.

Lemma hsieh_total key :
  let len := Z.of_nat (length key) in
  (exists h, c_hash_hsieh (Some key) len = Ret h /\ fits 32 h) /\
  (exists h, c_hash_super_fast (Some key) len = Ret h /\ fits 32 h) /\
  c_hash_hsieh None len = Ret 0 /\ c_hash_super_fast None len = Ret 1.
Proof.
  intros len. destruct (split_by_four len) as [Hlen Hrem]; [lia|].
  assert (forall hash, exists h, hsieh_loop key (Z.to_nat (Z.shiftr len 2)) hash 0
    = Ret (h, len - Z.land len 3)) as Hloop.
  { intros hash. destruct (hsieh_loop_ok key (Z.to_nat (Z.shiftr len 2)) hash 0) as [h Hh];
      [lia..|]. exists h. rewrite Hh. do 2 f_equal. lia. }
  assert (forall h, Z.land len 3 = 3 -> returns (hsieh_tail3 key h (len - Z.land len 3))) as H3.
  { intros. apply hsieh_tail3_ok; lia. }
  assert (forall h, Z.land len 3 = 2 -> returns (hsieh_tail2 key h (len - Z.land len 3))) as H2.
  { intros. apply hsieh_tail2_ok; lia. }
  assert (Z.land len 3 = 1 -> exists c, load_le key (len - Z.land len 3) 1 = Ret c) as H1.
  { intros. apply load_le_ok; lia. }
  unfold c_hash_hsieh, c_hash_super_fast, load_schar. repeat split.
  - destruct (Z.leb_spec len 0); [by exists 0|]. destruct (Hloop 0) as [h ->]. simpl.
    zcase; [destruct (H3 h) as [h' ->]|destruct (H2 h) as [h' ->]|destruct H1 as [c ->]|];
      try done; eexists; (split; [reflexivity|apply hsieh_avalanche_fits]).
  - destruct (Z.leb_spec len 1); [by exists 1|]. destruct (Hloop (u32 len)) as [h ->]. simpl.
    zcase; [destruct (H3 h) as [h' ->]|destruct (H2 h) as [h' ->]|destruct H1 as [c ->]|];
      try done; eexists; (split; [reflexivity|apply hsieh_avalanche_fits]).
Qed.

(** C39: on a non-null key of [len >= 0] bytes both [c_hash_hsieh] and
    [c_hash_super_fast] return a 32-bit value without reading outside the key
    (whatever its length modulo 4), and a null key gives 0 and 1. *)
Theorem hsieh_super_fast_in_bounds key :
  let len := Z.of_nat (length key) in
  (exists h, c_hash_hsieh (Some key) len = Ret h /\ fits 32 h) /\
  (exists h, c_hash_super_fast (Some key) len = Ret h /\ fits 32 h) /\
  c_hash_hsieh None len = Ret 0 /\ c_hash_super_fast None len = Ret 1.
Proof. apply hsieh_total. Qed.
