(* ===== verification/Jenkins.v ===== *)
(** * Jenkins' lookup3 hash of [src/base/c_hash.c]

    [c_hash_jenkins] picks one of three read strategies from the alignment of
    the key's address.  The word strategy loads whole words and may read up to
    three bytes past the key, so memory is a total function from the key's
    first byte on. *)

From S2P Require Import Prelude Bytes.

Section Jenkins.
Context (mem : nat -> byte).

(** [k[i]] for a [uint32_t *], [uint16_t *] and [uint8_t *] at byte offset [k]. *)
Definition rd32 (k i : nat) : Z := le_decode (map mem (seq (k + 4 * i) 4)).
Definition rd16 (k i : nat) : Z := le_decode (map mem (seq (k + 2 * i) 2)).
Definition rd8 (k i : nat) : Z := uchar (mem (k + i)).

Definition regs : Type := Z * Z * Z.

Definition rot (x k : Z) : Z := ((x << k) .| (x >> (32 - k)%Z))%u32.

Definition mix (s : regs) : regs :=
  let '(a, b, c) := s in
  let a := (a - c)%u32 in let a := (a ⊕ rot c 4)%u32 in let c := (c + b)%u32 in
  let b := (b - a)%u32 in let b := (b ⊕ rot a 6)%u32 in let a := (a + c)%u32 in
  let c := (c - b)%u32 in let c := (c ⊕ rot b 8)%u32 in let b := (b + a)%u32 in
  let a := (a - c)%u32 in let a := (a ⊕ rot c 16)%u32 in let c := (c + b)%u32 in
  let b := (b - a)%u32 in let b := (b ⊕ rot a 19)%u32 in let a := (a + c)%u32 in
  let c := (c - b)%u32 in let c := (c ⊕ rot b 4)%u32 in let b := (b + a)%u32 in
  (a, b, c).

Definition final (s : regs) : regs :=
  let '(a, b, c) := s in
  let c := (c ⊕ b)%u32 in let c := (c - rot b 14)%u32 in
  let a := (a ⊕ c)%u32 in let a := (a - rot c 11)%u32 in
  let b := (b ⊕ a)%u32 in let b := (b - rot a 25)%u32 in
  let c := (c ⊕ b)%u32 in let c := (c - rot b 16)%u32 in
  let a := (a ⊕ c)%u32 in let a := (a - rot c 4)%u32 in
  let b := (b ⊕ a)%u32 in let b := (b - rot a 14)%u32 in
  let c := (c ⊕ b)%u32 in let c := (c - rot b 24)%u32 in
  (a, b, c).

(** *** Bodies of the three [while (length > 12)] loops *)

Definition block32 (s : regs) (k : nat) : regs :=
  let '(a, b, c) := s in
  ((a + rd32 k 0)%u32, (b + rd32 k 1)%u32, (c + rd32 k 2)%u32).

Definition block16 (s : regs) (k : nat) : regs :=
  let '(a, b, c) := s in
  ((a + (rd16 k 0 + (rd16 k 1 << 16)))%u32,
   (b + (rd16 k 2 + (rd16 k 3 << 16)))%u32,
   (c + (rd16 k 4 + (rd16 k 5 << 16)))%u32).

Definition block8 (s : regs) (k : nat) : regs :=
  let '(a, b, c) := s in
  ((a + rd8 k 0 + (rd8 k 1 << 8) + (rd8 k 2 << 16) + (rd8 k 3 << 24))%u32,
   (b + rd8 k 4 + (rd8 k 5 << 8) + (rd8 k 6 << 16) + (rd8 k 7 << 24))%u32,
   (c + rd8 k 8 + (rd8 k 9 << 8) + (rd8 k 10 << 16) + (rd8 k 11 << 24))%u32).

(** The loop itself; stops with the remaining length and offset. *)
Fixpoint jenkins_loop (block : regs -> nat -> regs) (fuel : nat) (s : regs)
    (k length : nat) : outcome (regs * nat * nat) :=
  if (12 <? length)%nat then
    match fuel with
    | O => OutOfFuel
    | S fuel => jenkins_loop block fuel (mix (block s k)) (k + 12) (length - 12)
    end
  else mret (s, k, length).

(** *** The three [switch (length)]; [None] is [return c] *)

Definition tail32 (s : regs) (k length : nat) : option regs :=
  let '(a, b, c) := s in
  match length with
  | 12%nat => Some ((a + rd32 k 0)%u32, (b + rd32 k 1)%u32, (c + rd32 k 2)%u32)
  | 11%nat => Some ((a + rd32 k 0)%u32, (b + rd32 k 1)%u32, (c + (rd32 k 2 .& 0xffffff))%u32)
  | 10%nat => Some ((a + rd32 k 0)%u32, (b + rd32 k 1)%u32, (c + (rd32 k 2 .& 0xffff))%u32)
  | 9%nat => Some ((a + rd32 k 0)%u32, (b + rd32 k 1)%u32, (c + (rd32 k 2 .& 0xff))%u32)
  | 8%nat => Some ((a + rd32 k 0)%u32, (b + rd32 k 1)%u32, c)
  | 7%nat => Some ((a + rd32 k 0)%u32, (b + (rd32 k 1 .& 0xffffff))%u32, c)
  | 6%nat => Some ((a + rd32 k 0)%u32, (b + (rd32 k 1 .& 0xffff))%u32, c)
  | 5%nat => Some ((a + rd32 k 0)%u32, (b + (rd32 k 1 .& 0xff))%u32, c)
  | 4%nat => Some ((a + rd32 k 0)%u32, b, c)
  | 3%nat => Some ((a + (rd32 k 0 .& 0xffffff))%u32, b, c)
  | 2%nat => Some ((a + (rd32 k 0 .& 0xffff))%u32, b, c)
  | 1%nat => Some ((a + (rd32 k 0 .& 0xff))%u32, b, c)
  | _ => None
  end.

Definition w16 (k i : nat) : Z := (rd16 k i + (rd16 k (i + 1) << 16))%u32.

Definition tail16 (s : regs) (k length : nat) : option regs :=
  let '(a, b, c) := s in
  match length with
  | 12%nat => Some ((a + w16 k 0)%u32, (b + w16 k 2)%u32, (c + w16 k 4)%u32)
  | 11%nat => Some ((a + w16 k 0)%u32, (b + w16 k 2)%u32,
                    (c + (rd8 k 10 << 16) + rd16 k 4)%u32)
  | 10%nat => Some ((a + w16 k 0)%u32, (b + w16 k 2)%u32, (c + rd16 k 4)%u32)
  | 9%nat => Some ((a + w16 k 0)%u32, (b + w16 k 2)%u32, (c + rd8 k 8)%u32)
  | 8%nat => Some ((a + w16 k 0)%u32, (b + w16 k 2)%u32, c)
  | 7%nat => Some ((a + w16 k 0)%u32, (b + (rd8 k 6 << 16) + rd16 k 2)%u32, c)
  | 6%nat => Some ((a + w16 k 0)%u32, (b + rd16 k 2)%u32, c)
  | 5%nat => Some ((a + w16 k 0)%u32, (b + rd8 k 4)%u32, c)
  | 4%nat => Some ((a + w16 k 0)%u32, b, c)
  | 3%nat => Some ((a + (rd8 k 2 << 16) + rd16 k 0)%u32, b, c)
  | 2%nat => Some ((a + rd16 k 0)%u32, b, c)
  | 1%nat => Some ((a + rd8 k 0)%u32, b, c)
  | _ => None
  end.

(** All arms fall through; [from] is [length], arm [n] runs when [n <= from]. *)
Definition tail8 (s : regs) (k length : nat) : option regs :=
  let '(a, b, c) := s in
  let arm (n : nat) (r v : Z) : Z := if (n <=? length)%nat then (r + v)%u32 else r in
  if (length =? 0)%nat || (12 <? length)%nat then None
  else
    let c := arm 12%nat c (rd8 k 11 << 24)%u32 in
    let c := arm 11%nat c (rd8 k 10 << 16)%u32 in
    let c := arm 10%nat c (rd8 k 9 << 8)%u32 in
    let c := arm 9%nat c (rd8 k 8) in
    let b := arm 8%nat b (rd8 k 7 << 24)%u32 in
    let b := arm 7%nat b (rd8 k 6 << 16)%u32 in
    let b := arm 6%nat b (rd8 k 5 << 8)%u32 in
    let b := arm 5%nat b (rd8 k 4) in
    let a := arm 4%nat a (rd8 k 3 << 24)%u32 in
    let a := arm 3%nat a (rd8 k 2 << 16)%u32 in
    let a := arm 2%nat a (rd8 k 1 << 8)%u32 in
    let a := arm 1%nat a (rd8 k 0) in
    Some (a, b, c).

Definition jenkins_init (length : nat) : regs :=
  let v := (0xdeadbeef + u32 (Z.of_nat length) + 13)%u32 in (v, v, v).

Definition jenkins_finish (s : regs) (o : option regs) : Z :=
  match o with
  | Some s => let '(_, _, c) := final s in c
  | None => let '(_, _, c) := s in c
  end.

(** [c_hash_jenkins(key, length)], the key lying at address [addr]. *)
Definition c_hash_jenkins (addr : Z) (length : nat) : outcome Z :=
  let s := jenkins_init length in
  if Z.land addr 3 =? 0 then
    '(s, k, rest) ← jenkins_loop block32 length s 0 length;
    mret (jenkins_finish s (tail32 s k rest))
  else if Z.land addr 1 =? 0 then
    '(s, k, rest) ← jenkins_loop block16 length s 0 length;
    mret (jenkins_finish s (tail16 s k rest))
  else
    '(s, k, rest) ← jenkins_loop block8 length s 0 length;
    mret (jenkins_finish s (tail8 s k rest)).
End Jenkins.

(** ** Reference: zero-padded little-endian blocks of the key's own bytes *)

Definition jenkins_add (s : regs) (l : list byte) : regs :=
  let '(a, b, c) := s in
  ((a + le_decode (take 4 l))%u32, (b + le_decode (take 4 (drop 4 l)))%u32,
   (c + le_decode (take 4 (drop 8 l)))%u32).

Fixpoint jenkins_ref_loop (fuel : nat) (s : regs) (l : list byte) : Z :=
  match fuel with
  | O => 0
  | S fuel =>
      if (12 <? length l)%nat
      then jenkins_ref_loop fuel (mix (jenkins_add s (take 12 l))) (drop 12 l)
      else match l with
           | [] => let '(_, _, c) := s in c
           | _ => let '(_, _, c) := final (jenkins_add s l) in c
           end
  end.

Definition jenkins_ref (l : list byte) : Z :=
  jenkins_ref_loop (S (length l)) (jenkins_init (length l)) l.

(** ** The three strategies agree *)

Definition regs_fit (s : regs) : Prop :=
  let '(a, b, c) := s in fits 32 a /\ fits 32 b /\ fits 32 c.

Lemma rot_fits x k : fits 32 x -> 0 <= k <= 32 -> fits 32 (rot x k).
Proof.
  intros. apply fits_lor; [lia|apply wshl_fits; lia|]. apply fits_shiftr; [lia|lia|done].
Qed.

Ltac regs_range :=
  lazymatch goal with
  | |- fits _ (rot _ _) => apply rot_fits; [regs_range|lia]
  | |- fits _ (Z.lxor _ _) => apply fits_lxor; [lia|regs_range|regs_range]
  | |- _ => word_range
  end.

Lemma mix_fit s : regs_fit s -> regs_fit (mix s).
Proof.
  destruct s as [[a b] c]. intros (? & ? & ?). unfold mix, regs_fit.
  split; [|split]; regs_range.
Qed.

Lemma jenkins_init_fit n : regs_fit (jenkins_init n).
Proof. repeat split; apply wadd_fits; lia. Qed.

(** A chain of 32-bit additions of shifted bytes adds a little-endian word. *)
Ltac add_chain := cbn [le_decode]; word_ring.

Lemma map_seq_shift {A} (f : nat -> A) k s n :
  map f (seq (k + s) n) = map (fun i => f (k + i)%nat) (seq s n).
Proof.
  revert s. induction n as [|n IH]; intros s; simpl; [done|].
  by rewrite <- Nat.add_succ_r, IH.
Qed.

Lemma triple_eq (a b c a' b' c' : Z) :
  a = a' -> b = b' -> c = c' -> (a, b, c) = (a', b', c').
Proof. congruence. Qed.

Section Agree.
Context (mem : nat -> byte).

Definition bytes_at (k n : nat) : list byte := map mem (seq k n).

Lemma bytes_at_0 k n : bytes_at k n = map (fun i => mem (k + i)%nat) (seq 0 n).
Proof. unfold bytes_at. rewrite <- (Nat.add_0_r k) at 1. apply map_seq_shift. Qed.

Lemma add_nil r : fits 32 r -> r = wadd 32 r (le_decode []).
Proof. intros. simpl. unfold wadd. rewrite Z.add_0_r. by rewrite wrap_small. Qed.

(** Unfolds every load to bytes relative to one base function. *)
Ltac expose k :=
  let m := fresh "m" in
  pose (m := fun i => mem (k + i)%nat);
  unfold rd32, rd16, rd8; rewrite ?map_seq_shift, ?bytes_at_0;
  change (fun i => mem (k + i)%nat) with m;
  repeat match goal with |- context [mem (k + ?i)%nat] =>
    change (mem (k + i)%nat) with (m i) end;
  clearbody m; cbn [seq map Nat.mul Nat.add take drop].

Lemma block32_add s k : block32 mem s k = jenkins_add s (bytes_at k 12).
Proof. destruct s as [[a b] c]. unfold block32, jenkins_add. by expose k. Qed.

Lemma block16_add s k : block16 mem s k = jenkins_add s (bytes_at k 12).
Proof.
  destruct s as [[a b] c]. unfold block16, jenkins_add. expose k.
  apply triple_eq; add_chain.
Qed.

Lemma block8_add s k : block8 mem s k = jenkins_add s (bytes_at k 12).
Proof.
  destruct s as [[a b] c]. unfold block8, jenkins_add. expose k.
  apply triple_eq; add_chain.
Qed.
(** The last [n <= 12] bytes; nothing is added when there are none. *)
Definition tail_spec (s : regs) (k n : nat) : option regs :=
  if (n =? 0)%nat then None else Some (jenkins_add s (bytes_at k n)).

Lemma tail_cases (P : nat -> Prop) :
  P 0%nat -> P 1%nat -> P 2%nat -> P 3%nat -> P 4%nat -> P 5%nat -> P 6%nat -> P 7%nat ->
  P 8%nat -> P 9%nat -> P 10%nat -> P 11%nat -> P 12%nat ->
  forall n, (n <= 12)%nat -> P n.
Proof. intros. do 13 (destruct n as [|n]; [done|]). lia. Qed.

Lemma mask_take n l : Z.land (le_decode l) (Z.ones (8 * Z.of_nat n)) = le_decode (take n l).
Proof. rewrite Z.land_ones by lia. apply le_decode_take. Qed.

Lemma mask8 l : Z.land (le_decode l) 0xff = le_decode (take 1 l).
Proof. apply (mask_take 1). Qed.
Lemma mask16 l : Z.land (le_decode l) 0xffff = le_decode (take 2 l).
Proof. apply (mask_take 2). Qed.
Lemma mask24 l : Z.land (le_decode l) 0xffffff = le_decode (take 3 l).
Proof. apply (mask_take 3). Qed.

Ltac solve_tail k :=
  cbn [tail32 tail16 tail8 tail_spec jenkins_add Nat.eqb Nat.leb Nat.ltb andb orb];
  first
    [ reflexivity
    | apply f_equal; unfold w16; expose k; apply triple_eq;
      first [ reflexivity | by apply add_nil
            | by rewrite ?mask8, ?mask16, ?mask24 | add_chain ] ].

Lemma tail32_spec s k n :
  regs_fit s -> (n <= 12)%nat -> tail32 mem s k n = tail_spec s k n.
Proof.
  destruct s as [[a b] c]. intros (Ha & Hb & Hc). revert n.
  apply tail_cases; solve_tail k.
Qed.

Lemma tail16_spec s k n :
  regs_fit s -> (n <= 12)%nat -> tail16 mem s k n = tail_spec s k n.
Proof.
  destruct s as [[a b] c]. intros (Ha & Hb & Hc). revert n.
  apply tail_cases; solve_tail k.
Qed.

Lemma tail8_spec s k n :
  regs_fit s -> (n <= 12)%nat -> tail8 mem s k n = tail_spec s k n.
Proof.
  destruct s as [[a b] c]. intros (Ha & Hb & Hc). revert n.
  apply tail_cases; solve_tail k.
Qed.
End Agree.

(** ** The whole hash *)

Section Strategy.
Context (mem : nat -> byte)
  (block : regs -> nat -> regs) (tail : regs -> nat -> nat -> option regs).
Hypothesis block_ok : forall s k, block s k = jenkins_add s (bytes_at mem k 12).
Hypothesis tail_ok : forall s k n,
  regs_fit s -> (n <= 12)%nat -> tail s k n = tail_spec mem s k n.

Lemma bytes_at_split k n m :
  bytes_at mem k (n + m) = bytes_at mem k n ++ bytes_at mem (k + n) m.
Proof. unfold bytes_at. by rewrite seq_app, map_app. Qed.

Lemma length_bytes_at k n : length (bytes_at mem k n) = n.
Proof. unfold bytes_at. by rewrite length_map, length_seq. Qed.

Lemma jenkins_loop_ref fuel fuel' s k n :
  regs_fit s -> (n <= fuel)%nat -> (n < fuel')%nat ->
  exists s' k' r, jenkins_loop block fuel s k n = Ret (s', k', r) /\
    jenkins_finish s' (tail s' k' r) = jenkins_ref_loop fuel' s (bytes_at mem k n).
Proof.
  revert fuel' s k n. induction fuel as [|fuel IH]; intros fuel' s k n Hs Hn Hn';
    (destruct fuel' as [|fuel']; [lia|]); cbn [jenkins_loop jenkins_ref_loop];
    rewrite length_bytes_at; destruct (Nat.ltb_spec 12 n); try lia.
  2: { pose proof (bytes_at_split k 12 (n - 12)) as Hsplit.
       replace (12 + (n - 12))%nat with n in Hsplit by lia. rewrite Hsplit.
       rewrite take_app_length', drop_app_length' by (by rewrite length_bytes_at).
       rewrite block_ok. apply IH; [|lia|lia].
       apply mix_fit. destruct s as [[a b] c]. repeat split; apply wadd_fits; lia. }
  all: exists s, k, n; (split; [done|]); rewrite tail_ok by (done || lia);
    unfold tail_spec; by destruct n.
Qed.
End Strategy.

(** C37: [c_hash_jenkins] terminates and returns the same hash on every address,
    i.e. whichever of the word, half-word and byte strategies the alignment
    selects; the hash is that of the key's own bytes cut into zero-padded
    12-byte blocks, so the bytes the word strategy reads past the key have no
    influence. *)
Theorem jenkins_any_alignment mem addr n :
  c_hash_jenkins mem addr n = Ret (jenkins_ref (map mem (seq 0 n))).
Proof.
  unfold c_hash_jenkins, jenkins_ref. rewrite length_map, length_seq.
  change (map mem (seq 0 n)) with (bytes_at mem 0 n).
  pose proof (jenkins_init_fit n) as Hfit.
  destruct (Z.land addr 3 =? 0); [|destruct (Z.land addr 1 =? 0)].
  - destruct (jenkins_loop_ref mem (block32 mem) (tail32 mem) (block32_add mem)
      (tail32_spec mem) n (S n) (jenkins_init n) 0 n) as (s & k & r & -> & <-); auto.
  - destruct (jenkins_loop_ref mem (block16 mem) (tail16 mem) (block16_add mem)
      (tail16_spec mem) n (S n) (jenkins_init n) 0 n) as (s & k & r & -> & <-); auto.
  - destruct (jenkins_loop_ref mem (block8 mem) (tail8 mem) (block8_add mem)
      (tail8_spec mem) n (S n) (jenkins_init n) 0 n) as (s & k & r & -> & <-); auto.
Qed.
