(* ===== verification/Murmur.v ===== *)
(** * MurmurHash2 and MurmurHash3 (x64, 128 bits) of [src/base/c_hash.c] *)

From S2P Require Import Prelude Bytes.

(** ** MurmurHash2 *)

Definition murmur_m : Z := 0x5bd1e995.

Definition murmur_mix (h k : Z) : Z :=
  let k := (k * murmur_m)%u32 in
  let k := (k ⊕ (k >> 24))%u32 in
  let k := (k * murmur_m)%u32 in
  let h := (h * murmur_m)%u32 in
  (h ⊕ k)%u32.

Fixpoint murmur_loop (mem : list byte) (fuel : nat) (h data length : Z) : outcome (Z * Z * Z) :=
  if 4 <=? length then
    match fuel with
    | O => OutOfFuel
    | S fuel =>
        k ← load_le mem data 4;
        murmur_loop mem fuel (murmur_mix h k) (data + 4) (length - 4)
    end
  else mret (h, data, length).

(** The [switch] falls through from [case length]. *)
Definition murmur_tail (mem : list byte) (h data length : Z) : outcome Z :=
  h ← (if length =? 3 then b ← load_le mem (data + 2) 1; mret (h ⊕ (b << 16))%u32 else mret h);
  h ← (if (2 <=? length) && (length <=? 3)
       then b ← load_le mem (data + 1) 1; mret (h ⊕ (b << 8))%u32 else mret h);
  if (1 <=? length) && (length <=? 3)
  then b ← load_le mem data 1; mret ((h ⊕ b) * murmur_m)%u32 else mret h.

Definition murmur_finish (h : Z) : Z :=
  let h := (h ⊕ (h >> 13))%u32 in
  let h := (h * murmur_m)%u32 in
  (h ⊕ (h >> 15))%u32.

Definition c_hash_murmur (key : list byte) (length : Z) : outcome Z :=
  let seed := (0xdeadbeef * u32 length)%u32 in
  let h := (seed ⊕ u32 length)%u32 in
  '(h, data, rest) ← murmur_loop key (Z.to_nat length) h 0 length;
  h ← murmur_tail key h data rest;
  mret (murmur_finish h).

(** Reference: whole words, then the 1 to 3 remaining bytes as one word. *)
Fixpoint murmur_ref_loop (fuel : nat) (h : Z) (l : list byte) : Z :=
  match fuel with
  | O => 0
  | S fuel =>
      if (4 <=? length l)%nat
      then murmur_ref_loop fuel (murmur_mix h (le_decode (take 4 l))) (drop 4 l)
      else match l with
           | [] => h
           | _ => ((h ⊕ le_decode l) * murmur_m)%u32
           end
  end.

Definition murmur_ref (l : list byte) : Z :=
  let n := u32 (Z.of_nat (length l)) in
  murmur_finish (murmur_ref_loop (S (length l)) ((0xdeadbeef * n) ⊕ n)%u32 l).

(** ** MurmurHash3 *)

Definition rotl64 (x r : Z) : Z := ((x << r) .| (x >> (64 - r)%Z))%u64.

Definition fmix64 (k : Z) : Z :=
  let k := (k ⊕ (k >> 33))%u64 in
  let k := (k * 0xff51afd7ed558ccd)%u64 in
  let k := (k ⊕ (k >> 33))%u64 in
  let k := (k * 0xc4ceb9fe1a85ec53)%u64 in
  (k ⊕ (k >> 33))%u64.

Definition murmur3_c1 : Z := 0x87c37b91114253d5.
Definition murmur3_c2 : Z := 0x4cf5ad432745937f.

Definition murmur3_k1 (k1 : Z) : Z :=
  let k1 := (k1 * murmur3_c1)%u64 in let k1 := rotl64 k1 31 in (k1 * murmur3_c2)%u64.
Definition murmur3_k2 (k2 : Z) : Z :=
  let k2 := (k2 * murmur3_c2)%u64 in let k2 := rotl64 k2 33 in (k2 * murmur3_c1)%u64.

Definition murmur3_body (h : Z * Z) (k1 k2 : Z) : Z * Z :=
  let '(h1, h2) := h in
  let h1 := (h1 ⊕ murmur3_k1 k1)%u64 in
  let h1 := rotl64 h1 27 in let h1 := (h1 + h2)%u64 in
  let h1 := (h1 * 5 + 0x52dce729)%u64 in
  let h2 := (h2 ⊕ murmur3_k2 k2)%u64 in
  let h2 := rotl64 h2 31 in let h2 := (h2 + h1)%u64 in
  let h2 := (h2 * 5 + 0x38495ab5)%u64 in
  (h1, h2).

(** [for (i = 0; i < nblocks; i++)], [n] rounds left. *)
Fixpoint murmur3_loop (mem : list byte) (n : nat) (i : Z) (h : Z * Z) : outcome (Z * Z) :=
  match n with
  | O => mret h
  | S n =>
      k1 ← load_le mem (8 * (i * 2 + 0)) 8;
      k2 ← load_le mem (8 * (i * 2 + 1)) 8;
      murmur3_loop mem n (i + 1) (murmur3_body h k1 k2)
  end.

(** [kn ^= (uint64_t)tail[off] << sh], an arm reached when [lo <= len & 15]. *)
Definition murmur3_arm (mem : list byte) (tail rem lo off sh k : Z) : outcome Z :=
  if lo <=? rem then b ← load_le mem (tail + off) 1; mret (k ⊕ (b << sh))%u64 else mret k.

Definition murmur3_tail (mem : list byte) (tail rem : Z) (h : Z * Z) : outcome (Z * Z) :=
  let '(h1, h2) := h in
  k2 ← murmur3_arm mem tail rem 15 14 48 0;
  k2 ← murmur3_arm mem tail rem 14 13 40 k2;
  k2 ← murmur3_arm mem tail rem 13 12 32 k2;
  k2 ← murmur3_arm mem tail rem 12 11 24 k2;
  k2 ← murmur3_arm mem tail rem 11 10 16 k2;
  k2 ← murmur3_arm mem tail rem 10 9 8 k2;
  k2 ← murmur3_arm mem tail rem 9 8 0 k2;
  let h2 := if 9 <=? rem then (h2 ⊕ murmur3_k2 k2)%u64 else h2 in
  k1 ← murmur3_arm mem tail rem 8 7 56 0;
  k1 ← murmur3_arm mem tail rem 7 6 48 k1;
  k1 ← murmur3_arm mem tail rem 6 5 40 k1;
  k1 ← murmur3_arm mem tail rem 5 4 32 k1;
  k1 ← murmur3_arm mem tail rem 4 3 24 k1;
  k1 ← murmur3_arm mem tail rem 3 2 16 k1;
  k1 ← murmur3_arm mem tail rem 2 1 8 k1;
  k1 ← murmur3_arm mem tail rem 1 0 0 k1;
  let h1 := if 1 <=? rem then (h1 ⊕ murmur3_k1 k1)%u64 else h1 in
  mret (h1, h2).

Definition murmur3_finish (len : Z) (h : Z * Z) : Z * Z :=
  let '(h1, h2) := h in
  let h1 := (h1 ⊕ u64 len)%u64 in let h2 := (h2 ⊕ u64 len)%u64 in
  let h1 := (h1 + h2)%u64 in let h2 := (h2 + h1)%u64 in
  let h1 := fmix64 h1 in let h2 := fmix64 h2 in
  let h1 := (h1 + h2)%u64 in let h2 := (h2 + h1)%u64 in
  (h1, h2).

(** [out] receives the pair.  The seed is a [uint32_t]. *)
Definition c_hash_murmurHash3_x64_128 (key : list byte) (len seed : Z) : outcome (Z * Z) :=
  let nblocks := Z.quot len 16 in
  h ← murmur3_loop key (Z.to_nat nblocks) 0 (u32 seed, u32 seed);
  h ← murmur3_tail key (nblocks * 16) (Z.land len 15) h;
  mret (murmur3_finish len h).

(** *** The reference

    MurmurHash3 for 64-bit machines with a 128-bit result, as it was published,
    on integers modulo [2 ^ 64].  It shares nothing with the definitions above:
    its constants, rotations and rounds are its own. *)

Module MurmurHash3.
Definition add64 (x y : Z) : Z := (x + y) mod 2 ^ 64.
Definition mul64 (x y : Z) : Z := (x * y) mod 2 ^ 64.

(** Rotation to the left. *)
Definition rol (x r : Z) : Z := (x * 2 ^ r) mod 2 ^ 64 + x / 2 ^ (64 - r).

Definition C1 : Z := 0x87c37b91114253d5.
Definition C2 : Z := 0x4cf5ad432745937f.

Definition scramble1 (k : Z) : Z := mul64 (rol (mul64 k C1) 31) C2.
Definition scramble2 (k : Z) : Z := mul64 (rol (mul64 k C2) 33) C1.

(** One block of two words. *)
Definition round (h : Z * Z) (k1 k2 : Z) : Z * Z :=
  let a := add64 (mul64 (add64 (rol (Z.lxor h.1 (scramble1 k1)) 27) h.2) 5) 0x52dce729 in
  let b := add64 (mul64 (add64 (rol (Z.lxor h.2 (scramble2 k2)) 31) a) 5) 0x38495ab5 in
  (a, b).

(** Blocks of 16 bytes, then what is left, as if padded with zeroes. *)
Fixpoint absorb (rounds : nat) (h : Z * Z) (l : list byte) : Z * Z :=
  match rounds with
  | O => h
  | S rounds =>
      if (16 <=? length l)%nat
      then absorb rounds (round h (le_decode (take 8 l)) (le_decode (take 8 (drop 8 l)))) (drop 16 l)
      else (Z.lxor h.1 (scramble1 (le_decode (take 8 l))), Z.lxor h.2 (scramble2 (le_decode (drop 8 l))))
  end.

Definition xorshift (x : Z) : Z := Z.lxor x (x / 2 ^ 33).
Definition avalanche (x : Z) : Z :=
  xorshift (mul64 (xorshift (mul64 (xorshift x) 0xff51afd7ed558ccd)) 0xc4ceb9fe1a85ec53).

(** Each half gets the other one. *)
Definition cross (h : Z * Z) : Z * Z := let a := add64 h.1 h.2 in (a, add64 h.2 a).

Definition hash (l : list byte) (seed : Z) : Z * Z :=
  let n := Z.of_nat (length l) mod 2 ^ 64 in
  let h := absorb (S (length l)) (seed mod 2 ^ 32, seed mod 2 ^ 32) l in
  let h := cross (Z.lxor h.1 n, Z.lxor h.2 n) in
  cross (avalanche h.1, avalanche h.2).
End MurmurHash3.

(** ** MurmurHash2 against its reference *)

Lemma drop_drop_Z (l : list byte) (a b : Z) :
  0 <= a -> 0 <= b -> drop (Z.to_nat b) (drop (Z.to_nat a) l) = drop (Z.to_nat (a + b)) l.
Proof. intros. rewrite drop_drop. f_equal. lia. Qed.

(** The tail is one little-endian word of the remaining bytes. *)
Lemma murmur_tail_ref mem h data :
  0 <= data -> (length (drop (Z.to_nat data) mem) <= 3)%nat ->
  murmur_tail mem h data (Z.of_nat (length (drop (Z.to_nat data) mem))) =
  Ret (match drop (Z.to_nat data) mem with
       | [] => h
       | l => ((h ⊕ le_decode l) * murmur_m)%u32
       end).
Proof.
  intros H0 Hlen. unfold murmur_tail.
  assert (forall i b, drop (Z.to_nat data) mem !! i = Some b ->
    load_le mem (data + Z.of_nat i) 1 = Ret (uchar b)) as Hload.
  { intros i b Hb. apply load_le_1; [lia|]. rewrite lookup_drop in Hb.
    by replace (Z.to_nat (data + Z.of_nat i)) with (Z.to_nat data + i)%nat by lia. }
  destruct (drop (Z.to_nat data) mem) as [|b0 [|b1 [|b2 [|]]]]; simpl in Hlen; try lia.
  - done.
  - pose proof (Hload 0%nat b0 eq_refl) as E0. rewrite Z.add_0_r in E0. simpl. rewrite E0. simpl.
    do 3 f_equal. lia.
  - pose proof (Hload 0%nat b0 eq_refl) as E0. rewrite Z.add_0_r in E0.
    pose proof (Hload 1%nat b1 eq_refl) as E1. change (Z.of_nat 1) with 1 in E1.
    simpl. rewrite E1. simpl. rewrite E0. simpl. do 2 f_equal.
    rewrite shiftl_uchar, Z.lxor_assoc by lia. f_equal.
    pose proof (lxor_byte 0 (uchar b1) b0 ltac:(lia)) as Hx.
    rewrite !Z.shiftl_0_r in Hx. change (0 + 8) with 8 in Hx. rewrite Hx. lia.
  - pose proof (Hload 0%nat b0 eq_refl) as E0. rewrite Z.add_0_r in E0.
    pose proof (Hload 1%nat b1 eq_refl) as E1. change (Z.of_nat 1) with 1 in E1.
    pose proof (Hload 2%nat b2 eq_refl) as E2. change (Z.of_nat 2) with 2 in E2.
    simpl. rewrite E2. simpl. rewrite E1. simpl. rewrite E0. simpl. do 2 f_equal.
    rewrite !shiftl_uchar, !Z.lxor_assoc by lia. f_equal. rewrite <- Z.lxor_assoc.
    pose proof (lxor_byte 8 (uchar b2) b1 ltac:(lia)) as Hx. change (8 + 8) with 16 in Hx.
    rewrite Hx. pose proof (lxor_byte 0 (uchar b1 + 256 * uchar b2) b0 ltac:(lia)) as Hy.
    rewrite !Z.shiftl_0_r in Hy. change (0 + 8) with 8 in Hy. rewrite Hy. lia.
Qed.

Lemma murmur_loop_ref mem fuel fuel' h data :
  0 <= data ->
  (length (drop (Z.to_nat data) mem) <= fuel)%nat ->
  (length (drop (Z.to_nat data) mem) < fuel')%nat ->
  exists h' data' rest,
    murmur_loop mem fuel h data (Z.of_nat (length (drop (Z.to_nat data) mem)))
      = Ret (h', data', rest) /\
    murmur_tail mem h' data' rest
      = Ret (murmur_ref_loop fuel' h (drop (Z.to_nat data) mem)).
Proof.
  revert fuel' h data. induction fuel as [|fuel IH]; intros fuel' h data H0 Hn Hn';
    (destruct fuel' as [|fuel']; [lia|]); cbn [murmur_loop murmur_ref_loop];
    set (l := drop (Z.to_nat data) mem) in *;
    destruct (Nat.leb_spec 4 (length l)), (Z.leb_spec 4 (Z.of_nat (length l))); try lia.
  2: { unfold l in *. rewrite length_drop in *. rewrite load_le_Ret by lia.
       cbn [mbind outcome_bind].
       change (drop 4 ?l) with (drop (Z.to_nat 4) l). rewrite drop_drop_Z by lia.
       replace (Z.of_nat (length mem - Z.to_nat data) - 4)
         with (Z.of_nat (length (drop (Z.to_nat (data + 4)) mem))) by (rewrite length_drop; lia).
       apply IH; rewrite ?length_drop; lia. }
  all: exists h, data, (Z.of_nat (length l)); (split; [done|]); unfold l;
    rewrite murmur_tail_ref by (unfold l in *; lia); by destruct (drop (Z.to_nat data) mem).
Qed.

(** [c_hash_murmur] of a key of any length terminates without reading
    outside the key and is MurmurHash2: whole little-endian words, then the
    one to three remaining bytes folded in as one word. *)
Theorem murmur_is_reference key :
  c_hash_murmur key (Z.of_nat (length key)) = Ret (murmur_ref key).
Proof.
  unfold c_hash_murmur, murmur_ref. rewrite Nat2Z.id.
  set (h := (_ ⊕ _)%u32).
  destruct (murmur_loop_ref key (length key) (S (length key)) h 0) as (h' & d & r & E & T);
    rewrite ?drop_0; [lia|lia|lia|].
  change (Z.to_nat 0) with 0%nat in *. rewrite drop_0 in *. by rewrite E; simpl; rewrite T.
Qed.

(** ** MurmurHash3 against its reference *)

(** An arm of the tail [switch] appends one byte below what is already there. *)
Lemma murmur3_arm_skip mem tail rem lo off sh k :
  rem < lo -> murmur3_arm mem tail rem lo off sh k = Ret k.
Proof. intros. unfold murmur3_arm. by zcase. Qed.

Lemma murmur3_arm_take mem tail rem lo off sh d b :
  lo <= rem -> 0 <= tail -> 0 <= off -> 0 <= sh <= 56 ->
  drop (Z.to_nat tail) mem !! Z.to_nat off = Some b ->
  murmur3_arm mem tail rem lo off sh (Z.shiftl d (sh + 8)) =
  Ret (Z.shiftl (le_decode [b] + 256 * d) sh).
Proof.
  intros Hlo Ht Ho Hs Hb. unfold murmur3_arm. zcase.
  rewrite (load_le_1 _ _ b) by
    (lia || (rewrite lookup_drop in Hb; rewrite <- Hb; f_equal; lia)).
  simpl. rewrite shiftl_uchar, lxor_byte by lia. do 2 f_equal. lia.
Qed.

(** The same walk over the key with the code's rounds, which the loops are
    compared with first. *)
Fixpoint murmur3_walk (fuel : nat) (h : Z * Z) (l : list byte) : Z * Z :=
  match fuel with
  | O => h
  | S fuel =>
      if (16 <=? length l)%nat
      then murmur3_walk fuel
             (murmur3_body h (le_decode (take 8 l)) (le_decode (take 8 (drop 8 l))))
             (drop 16 l)
      else ((fst h ⊕ murmur3_k1 (le_decode (take 8 l)))%u64,
            (snd h ⊕ murmur3_k2 (le_decode (drop 8 l)))%u64)
  end.

Lemma murmur3_k_0 : murmur3_k1 0 = 0 /\ murmur3_k2 0 = 0.
Proof. by vm_compute. Qed.

Lemma rotl64_fits x r : 0 <= r <= 64 -> fits 64 x -> fits 64 (rotl64 x r).
Proof. intros. unfold rotl64. word_range. Qed.

Lemma murmur3_body_fits h k1 k2 :
  fits 64 (fst h) -> fits 64 (snd h) ->
  fits 64 (fst (murmur3_body h k1 k2)) /\ fits 64 (snd (murmur3_body h k1 k2)).
Proof. destruct h as [h1 h2]. intros. unfold murmur3_body. simpl. split; word_range. Qed.

(** [fmix64] can be undone, so it loses no information. *)
Definition fmix64_inv (k : Z) : Z :=
  let k := (k ⊕ (k >> 33))%u64 in
  let k := (k * 0x9cb4b2f8129337db)%u64 in
  let k := (k ⊕ (k >> 33))%u64 in
  let k := (k * 0x4f74430c22a54005)%u64 in
  (k ⊕ (k >> 33))%u64.

Lemma xorshift33_involutive k :
  fits 64 k -> let x := Z.lxor k (Z.shiftr k 33) in Z.lxor x (Z.shiftr x 33) = k.
Proof.
  intros Hk. simpl. rewrite Z.shiftr_lxor, Z.shiftr_shiftr by lia.
  replace (Z.shiftr k (33 + 33)) with 0.
  - by rewrite Z.lxor_0_r, Z.lxor_assoc, Z.lxor_nilpotent, Z.lxor_0_r.
  - symmetry. rewrite Z.shiftr_div_pow2 by lia. apply Z.div_small.
    destruct Hk. split; [done|]. eapply Z.lt_trans; [eassumption|reflexivity].
Qed.

Lemma wmul_inverse w k c d :
  0 <= w -> fits w k -> wmul w c d = wrap w 1 -> wmul w (wmul w k c) d = k.
Proof.
  intros Hw Hk Hcd. rewrite <- (wrap_small w k) at 2 by done.
  unfold wmul, wrap in *. rewrite Zmult_mod_idemp_l, <- Z.mul_assoc.
  rewrite <- Zmult_mod_idemp_r, Hcd, Zmult_mod_idemp_r. f_equal. lia.
Qed.

(** [fmix64], the finaliser of MurmurHash3, is a bijection of 64-bit words:
    [fmix64_inv] undoes it. *)
Theorem fmix64_invertible k : fits 64 k -> fmix64_inv (fmix64 k) = k.
Proof.
  intros Hk. unfold fmix64, fmix64_inv.
  set (a := Z.lxor k (Z.shiftr k 33)).
  assert (fits 64 a) by (unfold a; word_range).
  set (b := wmul 64 a 0xff51afd7ed558ccd).
  assert (fits 64 b) by (unfold b; word_range).
  set (c := Z.lxor b (Z.shiftr b 33)).
  assert (fits 64 c) by (unfold c; word_range).
  set (d := wmul 64 c 0xc4ceb9fe1a85ec53).
  assert (fits 64 d) by (unfold d; word_range).
  rewrite (xorshift33_involutive d) by done. unfold d.
  rewrite (wmul_inverse 64 c) by (done || lia). unfold c.
  rewrite (xorshift33_involutive b) by done. unfold b.
  rewrite (wmul_inverse 64 a) by (done || lia).
  by apply xorshift33_involutive.
Qed.

Lemma fmix64_invertible_witness : fmix64_inv (fmix64 12345) = 12345.
Proof. apply (fmix64_invertible 12345). by split. Defined.

Section Tail.
Context (mem : list byte) (tail : Z).
Hypothesis tail_nonneg : 0 <= tail.
Let l := drop (Z.to_nat tail) mem.
Let rem := Z.of_nat (length l).

(** Word of the tail starting at byte [base], from its byte [o] on. *)
Definition part (base o : nat) : Z :=
  Z.shiftl (le_decode (drop o (take 8 (drop base l)))) (8 * Z.of_nat o).

Lemma part_past base o : (8 <= o \/ length l <= base + o)%nat -> part base o = 0.
Proof.
  intros. unfold part. rewrite drop_ge; [apply Z.shiftl_0_l|].
  rewrite length_take, length_drop. lia.
Qed.

Lemma arm_step base o lo off sh :
  lo = Z.of_nat (base + o + 1) -> off = Z.of_nat (base + o) -> sh = 8 * Z.of_nat o ->
  (o < 8)%nat ->
  murmur3_arm mem tail rem lo off sh (part base (S o)) = Ret (part base o).
Proof.
  intros -> -> -> Ho. unfold rem.
  destruct (Nat.lt_ge_cases (base + o) (length l)) as [Hin|Hout].
  - destruct (lookup_lt_is_Some_2 l (base + o) Hin) as [b Hb].
    assert (drop base l !! o = Some b) as Hb' by by rewrite lookup_drop.
    assert (take 8 (drop base l) !! o = Some b) as Hb'' by by rewrite lookup_take_lt.
    unfold part at 1. replace (8 * Z.of_nat (S o)) with (8 * Z.of_nat o + 8) by lia.
    erewrite murmur3_arm_take; [|lia..|]; cycle 1.
    { fold l. rewrite Nat2Z.id. exact Hb. }
    unfold part. rewrite (drop_S _ _ _ Hb''). cbn [le_decode]. do 2 f_equal. lia.
  - rewrite murmur3_arm_skip by lia. by rewrite !part_past by lia.
Qed.

Lemma arm_first base o lo off sh :
  lo = Z.of_nat (base + o + 1) -> off = Z.of_nat (base + o) -> sh = 8 * Z.of_nat o ->
  (o < 8)%nat -> (8 <= S o \/ length l <= base + S o)%nat ->
  murmur3_arm mem tail rem lo off sh 0 = Ret (part base o).
Proof.
  intros. rewrite <- (part_past base (S o)) by lia. by apply arm_step.
Qed.

Ltac arm base o :=
  erewrite (arm_step base o) by (reflexivity || lia); cbn [mbind outcome_bind].

Lemma part_0 base : part base 0 = le_decode (take 8 (drop base l)).
Proof. unfold part. by rewrite Z.shiftl_0_r. Qed.

Lemma murmur3_tail_ref h :
  (length l < 16)%nat ->
  murmur3_tail mem tail rem h =
  Ret (Z.lxor (fst h) (murmur3_k1 (le_decode (take 8 l))),
       Z.lxor (snd h) (murmur3_k2 (le_decode (drop 8 l)))).
Proof.
  destruct h as [h1 h2]. intros Hl. unfold murmur3_tail.
  rewrite (arm_first 8 6 15 14 48) by (reflexivity || lia). cbn [mbind outcome_bind].
  arm 8%nat 5%nat. arm 8%nat 4%nat. arm 8%nat 3%nat.
  arm 8%nat 2%nat. arm 8%nat 1%nat. arm 8%nat 0%nat.
  rewrite (arm_first 0 7 8 7 56) by (reflexivity || lia). cbn [mbind outcome_bind].
  arm 0%nat 6%nat. arm 0%nat 5%nat. arm 0%nat 4%nat. arm 0%nat 3%nat.
  arm 0%nat 2%nat. arm 0%nat 1%nat. arm 0%nat 0%nat.
  rewrite !part_0, drop_0, (take_ge (drop 8 l)) by (rewrite length_drop; lia).
  destruct murmur3_k_0 as [K1 K2]. cbn [fst snd]. repeat f_equal.
  - destruct (Z.leb_spec 1 rem); [done|].
    assert (length l = 0)%nat as Hz by lia. apply nil_length_inv in Hz. rewrite Hz.
    cbn [take le_decode]. by rewrite K1, Z.lxor_0_r.
  - destruct (Z.leb_spec 9 rem); [done|].
    rewrite drop_ge by lia. cbn [le_decode]. by rewrite K2, Z.lxor_0_r.
Qed.
End Tail.

Lemma murmur3_loop_walk mem n fuel i h :
  0 <= i -> (16 * (Z.to_nat i + n) <= length mem < 16 * (Z.to_nat i + n) + 16)%nat ->
  (length mem - 16 * Z.to_nat i < fuel)%nat ->
  exists h', murmur3_loop mem n i h = Ret h' /\
    murmur3_tail mem (16 * (i + Z.of_nat n))
      (Z.of_nat (length (drop (Z.to_nat (16 * (i + Z.of_nat n))) mem))) h' =
    Ret (murmur3_walk fuel h (drop (Z.to_nat (16 * i)) mem)).
Proof.
  revert fuel i h. induction n as [|n IH]; intros fuel i h Hi Hn Hf;
    (destruct fuel as [|fuel]; [lia|]); cbn [murmur3_loop murmur3_walk].
  - exists h. split; [done|]. rewrite Z.add_0_r, murmur3_tail_ref
      by (rewrite ?length_drop; lia).
    destruct (Nat.leb_spec 16 (length (drop (Z.to_nat (16 * i)) mem))) as [H|H]; [|done].
    rewrite length_drop in H. lia.
  - destruct (Nat.leb_spec 16 (length (drop (Z.to_nat (16 * i)) mem))) as [H|H];
      rewrite length_drop in H; [|lia].
    rewrite !load_le_Ret by lia. cbn [mbind outcome_bind].
    change 16%nat with (Z.to_nat 16). change 8%nat with (Z.to_nat 8).
    rewrite !drop_drop_Z by lia.
    replace (8 * (i * 2 + 0)) with (16 * i) by lia.
    replace (8 * (i * 2 + 1)) with (16 * i + 8) by lia.
    replace (16 * i + 16) with (16 * (i + 1)) by lia.
    replace (i + Z.of_nat (S n)) with (i + 1 + Z.of_nat n) by lia.
    apply IH; lia.
Qed.

(** ** The rounds of the code are those of the reference *)

(** The two halves of a rotated word do not overlap. *)
Lemma rotl64_rol x r : 0 <= r <= 64 -> fits 64 x -> rotl64 x r = MurmurHash3.rol x r.
Proof.
  intros Hr Hx. unfold rotl64, MurmurHash3.rol. rewrite <- Z.shiftl_mul_pow2, <- Z.shiftr_div_pow2 by lia.
  change (Z.shiftl x r mod 2 ^ 64) with (wshl 64 x r). set (b := Z.shiftr x (64 - r)).
  assert (Z.land (wshl 64 x r) b = 0) as H0.
  { apply Z.bits_inj'. intros i Hi. unfold b. rewrite Z.land_spec, Z.bits_0, testbit_wshl, Z.shiftr_spec by lia.
    destruct (Z.leb_spec r i); [|by rewrite andb_false_r].
    rewrite (proj2 (proj1 (fits_bits 64 x ltac:(lia)) Hx) (i + (64 - r))) by lia. by rewrite andb_false_r. }
  by rewrite Z.add_nocarry_lxor, Z.lxor_lor.
Qed.

Lemma k1_scramble k : fits 64 k -> murmur3_k1 k = MurmurHash3.scramble1 k.
Proof. intros. unfold murmur3_k1. cbv zeta. rewrite rotl64_rol by (lia || word_range). reflexivity. Qed.

Lemma k2_scramble k : fits 64 k -> murmur3_k2 k = MurmurHash3.scramble2 k.
Proof. intros. unfold murmur3_k2. cbv zeta. rewrite rotl64_rol by (lia || word_range). reflexivity. Qed.

Lemma murmur3_k_fits k : fits 64 (murmur3_k1 k) /\ fits 64 (murmur3_k2 k).
Proof. split; [unfold murmur3_k1|unfold murmur3_k2]; cbv zeta; word_range. Qed.

Lemma body_round h k1 k2 :
  fits 64 h.1 -> fits 64 h.2 -> fits 64 k1 -> fits 64 k2 -> murmur3_body h k1 k2 = MurmurHash3.round h k1 k2.
Proof.
  destruct h as [h1 h2]. cbn [fst snd]. intros H1 H2 Hk1 Hk2. unfold murmur3_body.
  destruct (murmur3_k_fits k1) as [Ha _], (murmur3_k_fits k2) as [_ Hb]. cbv zeta.
  rewrite (rotl64_rol (Z.lxor h1 _)), (rotl64_rol (Z.lxor h2 _)) by (lia || word_range).
  rewrite k1_scramble, k2_scramble by done. reflexivity.
Qed.

Lemma fmix64_avalanche k : fmix64 k = MurmurHash3.avalanche k.
Proof.
  unfold fmix64, MurmurHash3.avalanche, MurmurHash3.xorshift. cbv zeta.
  rewrite !Z.shiftr_div_pow2 by lia. reflexivity.
Qed.

Lemma le_decode_take8 l : (length l <= 8)%nat -> fits 64 (le_decode l).
Proof. intros. eapply fits_le, le_decode_fits. lia. Qed.

Lemma walk_absorb fuel h l :
  fits 64 h.1 -> fits 64 h.2 -> (length l < fuel)%nat -> murmur3_walk fuel h l = MurmurHash3.absorb fuel h l.
Proof.
  revert h l. induction fuel as [|fuel IH]; intros h l H1 H2 Hl; [lia|]. cbn [murmur3_walk MurmurHash3.absorb].
  destruct (Nat.leb_spec 16 (length l)).
  - destruct (murmur3_body_fits h (le_decode (take 8 l)) (le_decode (take 8 (drop 8 l))) H1 H2).
    rewrite IH by (rewrite ?length_drop; done || lia).
    rewrite body_round; [done|done|done|apply le_decode_take8; rewrite length_take; lia..].
  - rewrite k1_scramble, k2_scramble by (apply le_decode_take8; rewrite ?length_take, ?length_drop; lia). done.
Qed.

Lemma finish_cross h n :
  murmur3_finish n h =
  let h := MurmurHash3.cross (Z.lxor h.1 (n mod 2 ^ 64), Z.lxor h.2 (n mod 2 ^ 64)) in
  MurmurHash3.cross (MurmurHash3.avalanche h.1, MurmurHash3.avalanche h.2).
Proof.
  destruct h as [h1 h2]. unfold murmur3_finish, MurmurHash3.cross, MurmurHash3.add64.
  cbv zeta. cbn [fst snd]. by rewrite !fmix64_avalanche.
Qed.

(** C38: [c_hash_murmurHash3_x64_128] of a key of any (int) length reads only the
    key and returns its MurmurHash3 ([MurmurHash3.hash], written from the
    published algorithm and not from this code): two-word blocks, then the tail
    as a zero-padded block, whatever arms of the fall-through [switch] it
    enters. *)
Theorem murmur3_is_reference key seed :
  c_hash_murmurHash3_x64_128 key (Z.of_nat (length key)) seed = Ret (MurmurHash3.hash key seed).
Proof.
  unfold c_hash_murmurHash3_x64_128, MurmurHash3.hash. cbv zeta.
  change (seed mod 2 ^ 32) with (u32 seed).
  set (len := Z.of_nat (length key)).
  rewrite Z.quot_div_nonneg by lia. change 15 with (Z.ones 4).
  rewrite Z.land_ones by lia. change (2 ^ 4) with 16.
  pose proof (Z_div_mod_eq_full len 16). pose proof (Z.mod_pos_bound len 16).
  pose proof (Z.div_pos len 16).
  destruct (murmur3_loop_walk key (Z.to_nat (len / 16)) (S (length key)) 0 (u32 seed, u32 seed))
    as (h & E & T); [lia..|].
  rewrite E. cbn [mbind outcome_bind].
  replace (0 + Z.of_nat (Z.to_nat (len / 16))) with (len / 16) in T by lia.
  rewrite length_drop in T.
  replace (Z.of_nat (length key - Z.to_nat (16 * (len / 16)))) with (len mod 16) in T by lia.
  rewrite (Z.mul_comm (len / 16)), T. change (Z.to_nat (16 * 0)) with 0%nat. rewrite drop_0.
  assert (fits 64 (u32 seed)) by (eapply fits_le, wrap_fits; lia).
  cbn [mbind outcome_bind]. by rewrite walk_absorb, finish_cross by (done || lia).
Qed.

(** Published test vectors: of the empty key, of ["hello"] and of
    ["The quick brown fox jumps over the lazy dog"], seed 0. *)
Example murmur3_vectors :
  MurmurHash3.hash [] 0 = (0, 0) /\
  MurmurHash3.hash (map byte_of [104; 101; 108; 108; 111]) 0 = (0xcbd8a7b341bd9b02, 0x5b1e906a48ae1d19) /\
  MurmurHash3.hash (map byte_of [84; 104; 101; 32; 113; 117; 105; 99; 107; 32; 98; 114; 111; 119; 110; 32; 102; 111; 120; 32;
      106; 117; 109; 112; 115; 32; 111; 118; 101; 114; 32; 116; 104; 101; 32; 108; 97; 122; 121; 32; 100; 111; 103]) 0
  = (0xe34bbc7bbc071b6c, 0x7a433ca9c49a9347).
Proof. vm_compute. split; [|split]; reflexivity. Qed.
