(* ===== verification/GfsHash.v ===== *)
(** * The Davies-Meyer hash [c_hash_gfs] of [src/base/c_hash.c] *)

From S2P Require Import Prelude Bytes.

Definition DM_DELTA : Z := 0x9E3779B9.
Definition DM_FULLROUNDS : nat := 10.
Definition DM_PARTROUNDS : nat := 6.

(** [__pad(len)]. *)
Definition gfs_pad (len : Z) : Z :=
  let pad := (u32 len .| (u32 len << 8))%u32 in (pad .| (pad << 16))%u32.

(** One pass of the [do ... while (--n)] loop; [array] has four words. *)
Definition dm_pass (array : list Z) (s : Z * Z * Z) : Z * Z * Z :=
  let '(sum, b0, b1) := s in
  let a := fun i => nth i array 0 in
  let sum := (sum + DM_DELTA)%u32 in
  let b0 := (b0 + (((b1 << 4) + a 0%nat) ⊕ (b1 + sum) ⊕ ((b1 >> 5) + a 1%nat)))%u32 in
  let b1 := (b1 + (((b0 << 4) + a 2%nat) ⊕ (b0 + sum) ⊕ ((b0 >> 5) + a 3%nat)))%u32 in
  (sum, b0, b1).

Definition dm_round (rounds : nat) (array : list Z) (h : Z * Z) : Z * Z :=
  let '(h0, h1) := h in
  let '(_, b0, b1) := Nat.iter rounds (dm_pass array) (0, h0, h1) in
  ((h0 + b0)%u32, (h1 + b1)%u32).

(** Four words from offset [off]. *)
Definition gfs_quad (msg : list byte) (off : Z) : outcome (list Z) :=
  w0 ← load_le msg off 4; w1 ← load_le msg (off + 4) 4;
  w2 ← load_le msg (off + 8) 4; w3 ← load_le msg (off + 12) 4;
  mret [w0; w1; w2; w3].

(** The loop over full quads; [intmsg] advances by 16 bytes, [full_words] and
    [full_bytes] count down. *)
Fixpoint gfs_quads (msg : list byte) (n : nat) (off full_words full_bytes : Z) (h : Z * Z) :
    outcome (Z * Z * Z * Z * Z) :=
  match n with
  | O => mret (h, off, full_words, full_bytes)
  | S n =>
      array ← gfs_quad msg off;
      gfs_quads msg n (off + 16) (full_words - 4) (full_bytes - 16)
        (dm_round DM_PARTROUNDS array h)
  end.

(** [while (full_bytes) { array[j] <<= 8; array[j] |= msg[len - full_bytes]; ... }] *)
Fixpoint gfs_bytes (msg : list byte) (len : Z) (full_bytes : nat) (w : Z) : outcome Z :=
  match full_bytes with
  | O => mret w
  | S n =>
      c ← load_le msg (len - Z.of_nat full_bytes) 1;
      gfs_bytes msg len n ((w << 8) .| u32 (s8 c))%u32
  end.

(** The last loop, [n] array cells to go. *)
Fixpoint gfs_last (msg : list byte) (len pad : Z) (n : nat) (off full_words full_bytes : Z) :
    outcome (list Z) :=
  match n with
  | O => mret []
  | S n =>
      if negb (full_words =? 0) then
        w ← load_le msg off 4;
        rest ← gfs_last msg len pad n (off + 4) (full_words - 1) (full_bytes - 4);
        mret (w :: rest)
      else
        w ← gfs_bytes msg len (Z.to_nat full_bytes) pad;
        rest ← gfs_last msg len pad n off full_words 0;
        mret (w :: rest)
  end.

Definition gfs_init : Z * Z := (0x9464a485, 0x542e1a94).

Definition c_hash_gfs (msg : list byte) (len : Z) : outcome Z :=
  let pad := gfs_pad len in
  let full_quads := Z.quot len 16 in
  '(h, off, full_words, full_bytes) ←
    gfs_quads msg (Z.to_nat full_quads) 0 (Z.quot len 4) len gfs_init;
  array ← gfs_last msg len pad 4 off full_words full_bytes;
  let '(h0, h1) := dm_round DM_FULLROUNDS array h in
  mret (h0 ⊕ h1)%u32.

(** ** Reference: the message cut into quads; the last block is its whole
    words, then the pad word shifted left by the remaining bytes, then pads *)

Fixpoint words_of (n : nat) (l : list byte) : list Z :=
  match n with
  | O => []
  | S n => le_decode (take 4 l) :: words_of n (drop 4 l)
  end.

Definition gfs_last_ref (pad : Z) (l : list byte) : list Z :=
  let n := (length l / 4)%nat in
  let partial :=
    fold_left (fun w b => ((w << 8) .| u32 (schar b))%u32) (drop (4 * n) l) pad in
  take 4 (words_of n l ++ partial :: replicate 4 pad).

Fixpoint gfs_ref_loop (fuel : nat) (pad : Z) (h : Z * Z) (l : list byte) : Z :=
  match fuel with
  | O => 0
  | S fuel =>
      if (16 <=? length l)%nat
      then gfs_ref_loop fuel pad (dm_round DM_PARTROUNDS (words_of 4 l) h) (drop 16 l)
      else let '(h0, h1) := dm_round DM_FULLROUNDS (gfs_last_ref pad l) h in Z.lxor h0 h1
  end.

Definition gfs_ref (l : list byte) : Z :=
  gfs_ref_loop (S (length l)) (gfs_pad (Z.of_nat (length l))) gfs_init l.

(** ** Correctness *)

Lemma gfs_quad_words msg off :
  0 <= off -> off + 16 <= Z.of_nat (length msg) ->
  gfs_quad msg off = Ret (words_of 4 (drop (Z.to_nat off) msg)).
Proof.
  intros. unfold gfs_quad. rewrite !load_le_Ret by lia. cbn [mbind outcome_bind words_of].
  change (Z.to_nat 4) with 4%nat. rewrite !drop_drop.
  repeat f_equal; lia.
Qed.

Lemma gfs_bytes_ref msg n w :
  (n <= length msg)%nat ->
  gfs_bytes msg (Z.of_nat (length msg)) n w =
  Ret (fold_left (fun w b => ((w << 8) .| u32 (schar b))%u32) (drop (length msg - n) msg) w).
Proof.
  revert w. induction n as [|n IH]; intros w Hn; cbn [gfs_bytes].
  - rewrite Nat.sub_0_r, drop_all. done.
  - destruct (lookup_lt_is_Some_2 msg (length msg - S n)) as [b Hb]; [lia|].
    rewrite (load_le_1 _ _ b) by
      (lia || (rewrite <- Hb; f_equal; lia)).
    cbn [mbind outcome_bind]. rewrite IH by lia. rewrite (drop_S _ _ _ Hb).
    cbn [fold_left]. by replace (S (length msg - S n)) with (length msg - n)%nat by lia.
Qed.

(** The cells after the remaining bytes are plain pads. *)
Lemma gfs_last_pads msg len pad n off :
  gfs_last msg len pad n off 0 0 = Ret (replicate n pad).
Proof. induction n as [|n IH]; simpl; [done|]. by rewrite IH. Qed.

Lemma gfs_last_words msg pad m n k off fb :
  (k < n <= m)%nat -> 0 <= off ->
  fb = Z.of_nat (length msg) - off -> 4 * Z.of_nat k <= fb < 4 * Z.of_nat k + 4 ->
  gfs_last msg (Z.of_nat (length msg)) pad n off (Z.of_nat k) fb =
  Ret (take n (words_of k (drop (Z.to_nat off) msg) ++
    fold_left (fun w b => ((w << 8) .| u32 (schar b))%u32)
      (drop (4 * k) (drop (Z.to_nat off) msg)) pad :: replicate m pad)).
Proof.
  revert n off fb. induction k as [|k IH]; intros n off fb Hk Ho Hfb Hb;
    (destruct n as [|n]; [lia|]); cbn [gfs_last].
  - cbn [Z.of_nat Z.eqb negb]. rewrite gfs_bytes_ref by lia. cbn [mbind outcome_bind].
    rewrite gfs_last_pads. cbn [mbind outcome_bind words_of app take].
    rewrite take_replicate, Nat.min_l by lia. unfold mret, outcome_ret. do 2 f_equal.
    f_equal. rewrite drop_drop. f_equal. lia.
  - destruct (Z.eqb_spec (Z.of_nat (S k)) 0); [lia|]. cbn [negb].
    rewrite load_le_Ret by lia. cbn [mbind outcome_bind].
    replace (Z.of_nat (S k) - 1) with (Z.of_nat k) by lia.
    rewrite IH by lia. cbn [mbind outcome_bind words_of app take].
    change (Z.to_nat 4) with 4%nat. rewrite !drop_drop.
    replace (Z.to_nat (off + 4)) with (Z.to_nat off + 4)%nat by lia.
    by replace (Z.to_nat off + 4 + 4 * k)%nat with (Z.to_nat off + 4 * S k)%nat by lia.
Qed.

Lemma gfs_quads_ref msg n off fw fb h fuel :
  0 <= off ->
  (16 * n <= length msg - Z.to_nat off < 16 * n + 16)%nat ->
  (length msg - Z.to_nat off < fuel)%nat -> (Z.to_nat off <= length msg)%nat ->
  let len := Z.of_nat (length msg) in let pad := gfs_pad len in
  exists h' off', gfs_quads msg n off fw fb h =
    Ret (h', off', fw - 4 * Z.of_nat n, fb - 16 * Z.of_nat n) /\
    off' = off + 16 * Z.of_nat n /\
    gfs_ref_loop fuel pad h (drop (Z.to_nat off) msg) =
    (let '(h0, h1) := dm_round DM_FULLROUNDS
       (gfs_last_ref pad (drop (Z.to_nat off') msg)) h' in Z.lxor h0 h1).
Proof.
  revert off fw fb h fuel.
  induction n as [|n IH]; intros off fw fb h fuel Ho Hn Hf Hle len pad;
    (destruct fuel as [|fuel]; [lia|]); cbn [gfs_quads gfs_ref_loop];
    rewrite length_drop.
  - exists h, off. split; [by rewrite !Z.sub_0_r|]. split; [lia|].
    by destruct (Nat.leb_spec 16 (length msg - Z.to_nat off)); [lia|].
  - destruct (Nat.leb_spec 16 (length msg - Z.to_nat off)); [|lia].
    rewrite gfs_quad_words by lia. cbn [mbind outcome_bind].
    destruct (IH (off + 16) (fw - 4) (fb - 16) (dm_round DM_PARTROUNDS
      (words_of 4 (drop (Z.to_nat off) msg)) h) fuel) as (h' & off' & E & Hoff & R); [lia..|].
    exists h', off'. split; [rewrite E; do 2 f_equal; [f_equal|]; lia|]. split; [lia|]. rewrite drop_drop.
    replace (Z.to_nat off + 16)%nat with (Z.to_nat (off + 16)) by lia. exact R.
Qed.

Lemma dm_pass_fits array s :
  let '(_, b0, b1) := dm_pass array s in fits 32 b0 /\ fits 32 b1.
Proof. destruct s as [[sum b0] b1]. simpl. split; word_range. Qed.

Lemma dm_round_fits rounds array h :
  fits 32 (fst (dm_round rounds array h)) /\ fits 32 (snd (dm_round rounds array h)).
Proof.
  unfold dm_round. destruct h as [h0 h1].
  destruct (Nat.iter rounds (dm_pass array) (0, h0, h1)) as [[? b0] b1].
  simpl. split; word_range.
Qed.

(** for every message (of [int] length) [c_hash_gfs] terminates, reads only the
    message, and returns the 32-bit Davies-Meyer hash of its quads and padded
    last block, so the [full_words]/[full_bytes] bookkeeping is right for every
    length modulo 16. *)
Theorem gfs_is_reference msg :
  c_hash_gfs msg (Z.of_nat (length msg)) = Ret (gfs_ref msg) /\ fits 32 (gfs_ref msg).
Proof.
  set (len := Z.of_nat (length msg)).
  pose proof (Z_div_mod_eq_full len 16). pose proof (Z.mod_pos_bound len 16).
  pose proof (Z.div_pos len 16).
  destruct (gfs_quads_ref msg (Z.to_nat (len / 16)) 0 (len / 4) len gfs_init (S (length msg)))
    as (h & off & E & Hoff & R); [lia..|].
  change (Z.to_nat 0) with 0%nat in R. rewrite drop_0 in R.
  assert (gfs_ref msg = let '(h0, h1) := dm_round DM_FULLROUNDS
    (gfs_last_ref (gfs_pad len) (drop (Z.to_nat off) msg)) h in Z.lxor h0 h1) as -> by exact R.
  split.
  - unfold c_hash_gfs. fold len. rewrite !Z.quot_div_nonneg by lia. rewrite E.
    cbn [mbind outcome_bind].
    set (k := (length (drop (Z.to_nat off) msg) / 4)%nat).
    rewrite Z2Nat.id by lia.
    assert (len / 4 - 4 * (len / 16) = Z.of_nat k) as ->.
    { unfold k. rewrite Nat2Z.inj_div, length_drop.
      replace (Z.of_nat (length msg - Z.to_nat off)) with (len + (- 4 * (len / 16)) * 4) by lia.
      change (Z.of_nat 4) with 4. rewrite Z.div_add by lia. lia. }
    pose proof (Nat.div_mod_eq (length (drop (Z.to_nat off) msg)) 4) as Hk. fold k in Hk.
    pose proof (Nat.mod_upper_bound (length (drop (Z.to_nat off) msg)) 4 ltac:(lia)).
    rewrite length_drop in *.
    unfold len at 1. rewrite (gfs_last_words _ _ 4) by lia. cbn [mbind outcome_bind].
    unfold gfs_last_ref. fold k. by destruct (dm_round _ _ _).
  - pose proof (dm_round_fits DM_FULLROUNDS
      (gfs_last_ref (gfs_pad len) (drop (Z.to_nat off) msg)) h) as [F0 F1].
    destruct (dm_round _ _ _). by apply fits_lxor.
Qed.
