(* ===== verification/Double.v ===== *)
(** * The [double] arithmetic used by the jump hash

    The code computes a bucket with one [double] division, one multiplication
    and a truncating conversion.  The operations are IEEE binary64 as the
    Standard Library specifies it ([SpecFloat]); this file bounds their results
    on the operands that occur. *)

From Stdlib Require Import Floats.SpecFloat.
From S2P Require Import Prelude.

Definition double : Type := spec_float.
Definition dbl_of_Z (z : Z) : double := binary_normalize 53 1024 z 0 false.
Definition dbl_div : double -> double -> double := SFdiv 53 1024.
Definition dbl_mul : double -> double -> double := SFmul 53 1024.

(** Conversion to [int64_t]: truncation; not defined by C out of range. *)
Definition int64_of_dbl (f : double) : outcome Z :=
  match f with
  | S754_zero _ => Ret 0
  | S754_finite s m e =>
      let a := if 0 <=? e then Zpos m * 2 ^ e else Zpos m / 2 ^ (- e) in
      let z := if s then - a else a in
      if (- 2 ^ 63 <=? z) && (z <? 2 ^ 63) then Ret z else Undefined
  | _ => Undefined
  end.

(** ** Rounding a positive number *)

Lemma digits2_bounds p :
  2 ^ (Zpos (digits2_pos p) - 1) <= Zpos p < 2 ^ Zpos (digits2_pos p).
Proof.
  induction p as [p IH|p IH|]; simpl digits2_pos; [| |by vm_compute].
  all: rewrite Pos2Z.inj_succ; replace (Z.succ (Zpos (digits2_pos p)) - 1)
    with (Zpos (digits2_pos p) - 1 + 1) by lia;
    rewrite Z.pow_succ_r, Z.pow_add_r by lia; change (2 ^ 1) with 2; lia.
Qed.

Lemma iter_pos_nat {A} (f : A -> A) p x : SpecFloat.iter_pos f p x = Nat.iter (Pos.to_nat p) f x.
Proof.
  revert x. induction p as [p IH|p IH|]; intros x; simpl SpecFloat.iter_pos.
  - rewrite !IH, Pos2Nat.inj_xI, <- Nat.iter_add.
    replace (S (2 * Pos.to_nat p)) with (Pos.to_nat p + Pos.to_nat p + 1)%nat by lia.
    by rewrite (Nat.iter_add (Pos.to_nat p + Pos.to_nat p) 1).
  - rewrite !IH, Pos2Nat.inj_xO, <- Nat.iter_add. f_equal. lia.
  - done.
Qed.

Definition exact (r : shr_record) : bool := negb (shr_r r) && negb (shr_s r).

Lemma shr_1_spec r :
  0 <= shr_m r ->
  shr_m (shr_1 r) = shr_m r / 2 /\
  exact (shr_1 r) = (shr_m r mod 2 =? 0) && exact r.
Proof.
  destruct r as [[|[p|p|]|] r s]; unfold exact; simpl shr_m; intros; [| | | |lia].
  - split; [done|]. by destruct r, s.
  - simpl. split.
    + rewrite (Pos2Z.inj_xI p), Z.mul_comm, Z.div_add_l by lia. by rewrite Z.add_0_r.
    + rewrite (Pos2Z.inj_xI p). rewrite Z.mul_comm, Z.add_comm, Z_mod_plus_full. by destruct r, s.
  - simpl. split.
    + rewrite (Pos2Z.inj_xO p), Z.mul_comm. by rewrite Z.div_mul.
    + rewrite (Pos2Z.inj_xO p), Z.mul_comm, Z_mod_mult. by destruct r, s.
  - split; [done|]. by destruct r, s.
Qed.

Lemma shr_iter_spec n r :
  0 <= shr_m r ->
  let r' := Nat.iter n shr_1 r in
  shr_m r' = shr_m r / 2 ^ Z.of_nat n /\
  exact r' = (shr_m r mod 2 ^ Z.of_nat n =? 0) && exact r.
Proof.
  intros Hr. cbv zeta. induction n as [|n [IHm IHe]]; rewrite ?Nat.iter_succ.
  { simpl Nat.iter. change (2 ^ Z.of_nat 0) with 1. rewrite Z.div_1_r, Z.mod_1_r. by split. }
  assert (0 < 2 ^ Z.of_nat n) by (apply pow2_pos; lia).
  destruct (shr_1_spec (Nat.iter n shr_1 r)) as [Em Ee].
  { rewrite IHm. apply Z.div_pos; lia. }
  rewrite Em, Ee, IHm, IHe. rewrite Nat2Z.inj_succ, Z.pow_succ_r by lia.
  rewrite (Z.mul_comm 2). split; [by rewrite Z.div_div by lia|].
  rewrite Z.rem_mul_r by lia.
  pose proof (Z.mod_pos_bound (shr_m r) (2 ^ Z.of_nat n) ltac:(lia)).
  pose proof (Z.mod_pos_bound (shr_m r / 2 ^ Z.of_nat n) 2 ltac:(lia)).
  rewrite andb_assoc. f_equal.
  destruct (Z.eqb_spec (shr_m r mod 2 ^ Z.of_nat n) 0) as [E|E];
    destruct (Z.eqb_spec ((shr_m r / 2 ^ Z.of_nat n) mod 2) 0) as [E'|E']; simpl;
    symmetry; first [apply Z.eqb_neq; nia | apply Z.eqb_eq; nia].
Qed.

Lemma exact_of_loc m l : exact (shr_record_of_loc m l) = match l with loc_Exact => true | _ => false end.
Proof. by destruct l as [|[]]. Qed.

Lemma shr_m_of_loc m l : shr_m (shr_record_of_loc m l) = m.
Proof. by destruct l as [|[]]. Qed.

(** Shift by [n] bits, in the way [shr_fexp] does it. *)
Lemma shr_spec m e l n :
  0 <= m ->
  let '(r, e') := shr (shr_record_of_loc m l) e n in
  shr_m r = m / 2 ^ Z.max 0 n /\ e' = e + Z.max 0 n /\
  exact r = (m mod 2 ^ Z.max 0 n =? 0) && match l with loc_Exact => true | _ => false end.
Proof.
  intros Hm. unfold shr. destruct n as [|p|p].
  - simpl. rewrite shr_m_of_loc, exact_of_loc, Z.div_1_r, Z.mod_1_r. repeat split; lia.
  - rewrite iter_pos_nat. replace (Z.max 0 (Zpos p)) with (Zpos p) by lia.
    destruct (shr_iter_spec (Pos.to_nat p) (shr_record_of_loc m l)) as [A B].
    { by rewrite shr_m_of_loc. }
    rewrite A, B, shr_m_of_loc, exact_of_loc, positive_nat_Z. done.
  - replace (Z.max 0 (Zneg p)) with 0 by lia.
    rewrite shr_m_of_loc, exact_of_loc. change (2 ^ 0) with 1.
    rewrite Z.div_1_r, Z.mod_1_r. repeat split; lia.
Qed.

Lemma round_ne_spec r :
  let m := round_nearest_even (shr_m r) (loc_of_shr_record r) in
  m = shr_m r \/ (m = shr_m r + 1 /\ exact r = false).
Proof.
  destruct r as [m [] []]; simpl; auto. destruct (Z.even m); auto.
Qed.

(** Shape of [binary_round_aux] on a positive mantissa of at least 53 bits (or
    an exact one): [m / 2^n], or one more if something was cut off. *)
Lemma fexp_normal k : -1000 <= k -> fexp 53 1024 k = k - 53.
Proof. intros. unfold fexp, emin. lia. Qed.

(** Renormalisation after a carry. *)
Lemma carry_spec m2 e1 :
  0 < m2 <= 2 ^ 53 -> -1000 <= e1 <= 900 ->
  exists m3 e3,
    (let '(r, e') := shr_fexp 53 1024 m2 e1 loc_Exact in
     match shr_m r with
     | Z0 => S754_zero false
     | Zpos m => if e' <=? 1024 - 53 then S754_finite false m e' else S754_infinity false
     | Zneg _ => S754_nan
     end) = S754_finite false m3 e3 /\
    e1 <= e3 <= e1 + 1 /\ Zpos m3 * 2 ^ (e3 - e1) = m2.
Proof.
  intros Hm He. destruct m2 as [|p|p]; try lia. unfold shr_fexp.
  pose proof (digits2_bounds p) as Hp. simpl Zdigits2.
  set (d := Zpos (digits2_pos p)) in *. assert (0 < d) by (unfold d; lia).
  rewrite fexp_normal by lia.
  pose proof (shr_spec (Zpos p) e1 loc_Exact (d + e1 - 53 - e1) ltac:(lia)) as Hs.
  change (shr_record_of_loc (Zpos p) loc_Exact) with
    {| shr_m := Zpos p; shr_r := false; shr_s := false |} in *.
  destruct (shr _ e1 _) as [r e']. destruct Hs as (M & E & _).
  assert (d <= 54) as Hd.
  { destruct (Z.le_gt_cases d 54); [done|].
    assert (2 ^ 54 <= 2 ^ (d - 1)) by (apply Z.pow_le_mono_r; lia). lia. }
  destruct (Z.le_gt_cases d 53).
  - replace (Z.max 0 (d + e1 - 53 - e1)) with 0 in * by lia.
    rewrite Z.pow_0_r, Z.div_1_r in M. rewrite M. exists p, e1. rewrite E, Z.add_0_r.
    destruct (Z.leb_spec e1 (1024 - 53)); [|lia].
    rewrite Z.sub_diag. repeat split; lia.
  - replace (Z.max 0 (d + e1 - 53 - e1)) with 1 in * by lia.
    replace d with 54 in Hp by lia. replace (Zpos p) with (2 ^ 53) in * by lia.
    change (2 ^ 53 / 2 ^ 1) with (Zpos 4503599627370496) in M. rewrite M.
    exists 4503599627370496%positive, (e1 + 1). rewrite E.
    destruct (Z.leb_spec (e1 + 1) (1024 - 53)); [|lia].
    replace (e1 + 1 - e1) with 1 by lia. repeat split; lia.
Qed.

(** Shape of [binary_round_aux] on a positive mantissa of at least 53 bits (or
    an exact one): [m / 2^n], or one more if something was cut off. *)
Lemma round_aux_pos p e l :
  let d := Zpos (digits2_pos p) in
  let n := Z.max 0 (d - 53) in
  -1000 <= e -> d + e <= 800 ->
  exists m2 m3 e3,
    binary_round_aux 53 1024 false (Zpos p) e l = S754_finite false m3 e3 /\
    e + n <= e3 <= e + n + 1 /\ Zpos m3 * 2 ^ (e3 - (e + n)) = m2 /\
    (m2 = Zpos p / 2 ^ n \/
     (m2 = Zpos p / 2 ^ n + 1 /\ (Zpos p mod 2 ^ n <> 0 \/ l <> loc_Exact))).
Proof.
  intros d n He Hd. unfold binary_round_aux.
  pose proof (digits2_bounds p) as Hp. fold d in Hp.
  assert (0 < d) by (unfold d; lia).
  unfold shr_fexp at 1. simpl Zdigits2. fold d. rewrite fexp_normal by lia.
  pose proof (shr_spec (Zpos p) e l (d + e - 53 - e) ltac:(lia)) as Hs.
  destruct (shr _ e _) as [r e1]. destruct Hs as (M & E & X).
  replace (Z.max 0 (d + e - 53 - e)) with n in * by (unfold n; lia).
  pose proof (round_ne_spec r) as Hr. cbv zeta in Hr.
  set (m2 := round_nearest_even _ _) in *.
  assert (0 <= n) by (unfold n; lia). pose proof (pow2_pos n ltac:(lia)).
  assert (0 < Zpos p / 2 ^ n < 2 ^ 53) as Hq.
  { split.
    - apply Z.div_str_pos. split; [done|]. unfold n.
      transitivity (2 ^ (d - 1)); [apply Z.pow_le_mono_r; lia|lia].
    - apply Z.div_lt_upper_bound; [done|]. rewrite <- Z.pow_add_r by lia.
      eapply Z.lt_le_trans; [apply Hp|]. apply Z.pow_le_mono_r; unfold n; lia. }
  destruct (carry_spec m2 e1) as (m3 & e3 & -> & He3 & Hm3).
  { destruct Hr as [->|[-> _]]; rewrite M; lia. }
  { unfold n in *. lia. }
  exists m2, m3, e3. subst e1. split; [done|]. split; [lia|]. split; [done|].
  rewrite M in Hr. destruct Hr as [Hr|[Hr Hx]]; [by left|right]. split; [done|].
  rewrite X in Hx. destruct (Z.eqb_spec (Zpos p mod 2 ^ n) 0); [right|by left].
  by destruct l.
Qed.

(** ** Values, scaled by [2 ^ 300] to stay in [Z] *)

Definition scaled (m : positive) (e : Z) : Z := Zpos m * 2 ^ (e + 300).

(** The quotient by a power of two stays above an integer below 2^53 that is
    under the value. *)
Lemma grid_lower (p : positive) e b n :
  let d := Zpos (digits2_pos p) in
  n = Z.max 0 (d - 53) -> -200 <= e -> 0 <= b < 2 ^ 53 -> b * 2 ^ 300 <= scaled p e ->
  b * 2 ^ 300 <= Zpos p / 2 ^ n * 2 ^ (e + n + 300).
Proof.
  intros d Hn He Hb Hlow. assert (0 <= n) by lia. set (g := e + n).
  pose proof (pow2_pos n ltac:(lia)) as Pn. pose proof (pow2_pos (e + 300) ltac:(lia)) as He300.
  assert (2 ^ (g + 300) = 2 ^ n * 2 ^ (e + 300)) as Hg300.
  { rewrite <- Z.pow_add_r by lia. f_equal. unfold g. lia. }
  pose proof (digits2_bounds p) as Hp. fold d in Hp. unfold scaled in Hlow.
  destruct (Z.le_gt_cases g 0) as [Hg|Hg].
  - assert (2 ^ 300 = 2 ^ (- g) * 2 ^ (g + 300)) as H300.
    { rewrite <- Z.pow_add_r by (unfold g in *; lia). f_equal. lia. }
    assert (b * 2 ^ (- g) <= Zpos p / 2 ^ n).
    { apply Z.div_le_lower_bound; [done|].
      rewrite H300, Hg300 in Hlow. apply (Z.mul_le_mono_pos_r _ _ (2 ^ (e + 300))); [done|]. lia. }
    rewrite H300. rewrite Z.mul_assoc. apply Z.mul_le_mono_nonneg_r; [|lia].
    rewrite Hg300. nia.
  - destruct (Z.eqb_spec n 0) as [Hn0|Hn0].
    + rewrite Hn0 in *. rewrite Z.pow_0_r in *. rewrite Z.div_1_r in *.
      rewrite Hg300. rewrite Z.mul_1_l. nia.
    + assert (2 ^ 52 <= Zpos p / 2 ^ n).
      { apply Z.div_le_lower_bound; [done|]. rewrite <- Z.pow_add_r by lia.
        transitivity (2 ^ (d - 1)); [apply Z.pow_le_mono_r; lia|lia]. }
      assert (2 ^ 301 <= 2 ^ (g + 300)) by (apply Z.pow_le_mono_r; lia).
      change (2 ^ 301) with (2 * 2 ^ 300) in *. change (2 ^ 53) with (2 * 2 ^ 52) in *.
      pose proof (pow2_pos 300). nia.
Qed.

(** Rounding never passes an integer (below 2^53) that is under the value, nor
    one over it that lies on the grid of the result. *)
Lemma round_bounds p e (l : location) b u :
  let d := Zpos (digits2_pos p) in
  let g := e + Z.max 0 (d - 53) in
  -200 <= e -> d + e <= 800 ->
  0 <= b < 2 ^ 53 -> b * 2 ^ 300 <= scaled p e ->
  (exists w, u = w * 2 ^ Z.max 0 g) ->
  scaled p e + (if l then 0 else 2 ^ (e + 300)) <= u * 2 ^ 300 ->
  exists m3 e3,
    binary_round_aux 53 1024 false (Zpos p) e l = S754_finite false m3 e3 /\
    e <= e3 <= g + 1 /\ b * 2 ^ 300 <= scaled m3 e3 <= u * 2 ^ 300.
Proof.
  intros d g He Hd Hb Hlow [w Hw] Hup.
  destruct (round_aux_pos p e l) as (m2 & m3 & e3 & R & He3 & Hm2 & Hm); [lia|lia|].
  fold d in He3, Hm2, Hm. set (n := Z.max 0 (d - 53)) in *. assert (0 <= n) by (unfold n; lia).
  exists m3, e3. split; [done|]. split; [unfold g in *; lia|].
  assert (scaled m3 e3 = m2 * 2 ^ (g + 300)) as ->.
  { unfold scaled. rewrite <- Hm2, <- Z.mul_assoc, <- Z.pow_add_r by (unfold g; lia).
    do 2 f_equal. unfold g. lia. }
  pose proof (pow2_pos n ltac:(lia)) as Hn.
  pose proof (pow2_pos (e + 300) ltac:(lia)) as He300.
  assert (2 ^ (g + 300) = 2 ^ n * 2 ^ (e + 300)) as Hg300.
  { rewrite <- Z.pow_add_r by lia. f_equal. unfold g, n. lia. }
  pose proof (Z_div_mod_eq_full (Zpos p) (2 ^ n)) as Hdiv.
  pose proof (Z.mod_pos_bound (Zpos p) (2 ^ n) Hn) as Hmod.
  pose proof (digits2_bounds p) as Hp. fold d in Hp.
  unfold scaled in *. split.
  - (* lower bound *)
    etransitivity; [apply (grid_lower p e b n); try done; lia|].
    replace (e + n + 300) with (g + 300) by (unfold g, n, d; lia).
    apply Z.mul_le_mono_nonneg_r; [rewrite Hg300; nia|]. destruct Hm as [->|[-> _]]; lia.
  - (* upper bound *)
    set (G := 2 ^ (g + 300)) in *.
    assert (exists v, u * 2 ^ 300 = v * G) as [v Hv].
    { destruct (Z.le_gt_cases g 0) as [Hg|Hg].
      - exists (u * 2 ^ (- g)). unfold G. rewrite <- Z.mul_assoc, <- Z.pow_add_r by lia.
        do 2 f_equal. lia.
      - exists w. unfold G. rewrite Hw, <- Z.mul_assoc, <- Z.pow_add_r by lia.
        do 2 f_equal. lia. }
    rewrite Hv in *. rewrite Hg300 in Hup. apply Z.mul_le_mono_nonneg_r; [unfold G; lia|].
    destruct Hm as [->|[-> Hcut]].
    + assert (0 <= if l then 0 else 2 ^ (e + 300)) by (destruct l; lia).
      assert (Zpos p <= v * 2 ^ n) by nia.
      apply Z.div_le_upper_bound; lia.
    + assert (Zpos p + (if l then 0 else 1) <= v * 2 ^ n) by (destruct l; nia).
      destruct Hcut as [Hcut|Hcut]; destruct l; try done; nia.
Qed.

(** Small integers convert exactly. *)
Lemma dbl_of_Z_exact z :
  0 < z < 2 ^ 32 ->
  exists m e, dbl_of_Z z = S754_finite false m e /\ -52 <= e <= 0 /\ scaled m e = z * 2 ^ 300.
Proof.
  intros Hz. destruct z as [|p|p]; try lia. unfold dbl_of_Z, binary_normalize, binary_round.
  pose proof (digits2_bounds p) as Hp. set (d := Zpos (digits2_pos p)) in *.
  assert (0 < d) by (unfold d; lia).
  assert (d <= 32).
  { destruct (Z.le_gt_cases d 32); [done|].
    assert (2 ^ 32 <= 2 ^ (d - 1)) by (apply Z.pow_le_mono_r; lia). lia. }
  rewrite fexp_normal by lia. unfold shl_align.
  destruct (d + 0 - 53 - 0) as [|q|q] eqn:Eq; try lia.
  assert (Zpos (Pos.iter xO p q) = Zpos p * 2 ^ Zpos q) as Hs.
  { clear. induction q as [|q IH] using Pos.peano_ind.
    - change (2 ^ 1) with 2. simpl. lia.
    - rewrite Pos.iter_succ, Pos2Z.inj_succ, Z.pow_succ_r by lia.
      rewrite (Pos2Z.inj_xO (Pos.iter xO p q)), IH. lia. }
  set (p' := Pos.iter xO p q) in *.
  assert (d + 0 - 53 = - Zpos q) as Hq by lia. rewrite Hq.
  assert (scaled p' (- Zpos q) = Zpos p * 2 ^ 300) as Hv.
  { unfold scaled. rewrite Hs, <- Z.mul_assoc, <- Z.pow_add_r by lia. do 2 f_equal. lia. }
  assert (Zpos (digits2_pos p') = 53) as Hd'.
  { pose proof (digits2_bounds p') as Hb. set (d' := Zpos (digits2_pos p')) in *.
    assert (2 ^ 52 <= Zpos p' < 2 ^ 53) as Hp'.
    { rewrite Hs. replace 52 with (d - 1 + Zpos q) by lia. replace 53 with (d + Zpos q) by lia.
      rewrite !Z.pow_add_r by lia. pose proof (pow2_pos (Zpos q)). nia. }
    destruct (Z.lt_trichotomy d' 53) as [C|[C|C]]; [|done|].
    - assert (2 ^ d' <= 2 ^ 52) by (apply Z.pow_le_mono_r; lia). lia.
    - assert (2 ^ 53 <= 2 ^ (d' - 1)) by (apply Z.pow_le_mono_r; lia). lia. }
  destruct (round_bounds p' (- Zpos q) loc_Exact (Zpos p) (Zpos p)) as (m & e & E & He & Hb).
  - lia.
  - lia.
  - split; [done|]. eapply Z.lt_trans; [apply Hz|reflexivity].
  - lia.
  - rewrite Hd'. replace (Z.max 0 (- Zpos q + Z.max 0 (53 - 53))) with 0 by lia.
    exists (Zpos p). lia.
  - rewrite Hv. lia.
  - exists m, e. split; [exact E|]. rewrite Hd' in He. lia.
Qed.

Lemma new_location_exact n r :
  match new_location n r with loc_Exact => r = 0 | _ => r <> 0 end.
Proof.
  unfold new_location, new_location_even, new_location_odd.
  destruct (Z.even n); destruct (Z.eqb_spec r 0); done.
Qed.

(** Exponent and digits of an integer value. *)
Lemma scaled_digits m e v :
  -52 <= e <= 0 -> 1 <= v <= 2 ^ 31 -> scaled m e = v * 2 ^ 300 ->
  1 <= Zpos (digits2_pos m) + e <= 32.
Proof.
  intros He Hv Hs. unfold scaled in Hs. pose proof (digits2_bounds m) as Hm.
  set (d := Zpos (digits2_pos m)) in *. assert (0 < d) by (unfold d; lia).
  pose proof (pow2_pos (e + 300) ltac:(lia)). pose proof (pow2_pos 300).
  split.
  - destruct (Z.le_gt_cases 1 (d + e)); [done|].
    assert (2 ^ d * 2 ^ (e + 300) <= 2 ^ 300)
      by (rewrite <- Z.pow_add_r by lia; apply Z.pow_le_mono_r; lia). nia.
  - destruct (Z.le_gt_cases (d + e) 32); [done|].
    assert (2 ^ 332 <= 2 ^ (d - 1) * 2 ^ (e + 300))
      by (rewrite <- Z.pow_add_r by lia; apply Z.pow_le_mono_r; lia).
    change (2 ^ 332) with (2 ^ 32 * 2 ^ 300) in *. nia.
Qed.

(** The quotient 2^31 / k on the grid of exponent [e'], between 1 and 2^31. *)
Lemma quotient_bounds m2 e2 k d2 e' :
  1 <= k <= 2 ^ 31 -> -52 <= e2 <= 0 -> scaled m2 e2 = k * 2 ^ 300 ->
  0 < d2 -> e' = -21 - d2 - e2 -> -200 <= e' <= 0 ->
  Zpos m2 * 2 ^ (- e') <= 2 ^ (52 + d2) <= Zpos m2 * 2 ^ (31 - e').
Proof.
  intros Hk He2 Hv Hd2 He' Hr. unfold scaled in Hv.
  pose proof (pow2_pos (e2 + 300) ltac:(lia)) as Pe2.
  split; apply (Z.mul_le_mono_pos_r _ _ (2 ^ (e2 + 300))); try done.
  - assert (Zpos m2 * 2 ^ (e2 + 300) <= 2 ^ (331)) by (change (2 ^ 331) with (2 ^ 31 * 2 ^ 300); nia).
    rewrite <- Z.pow_add_r by lia. transitivity (2 ^ 331 * 2 ^ (- e')).
    + pose proof (pow2_pos (- e') ltac:(lia)). nia.
    + rewrite <- Z.pow_add_r by lia. apply Z.pow_le_mono_r; lia.
  - replace (Zpos m2 * 2 ^ (31 - e') * 2 ^ (e2 + 300))
      with (k * (2 ^ 300 * 2 ^ (31 - e'))) by nia.
    rewrite <- !Z.pow_add_r by lia.
    replace (52 + d2 + (e2 + 300)) with (300 + (31 - e')) by lia.
    pose proof (pow2_pos (300 + (31 - e')) ltac:(lia)). nia.
Qed.

(** Rounding a quotient between 1 and 2^31 stays there. *)
Lemma quotient_rounds (q : positive) (l : location) e' :
  -200 <= e' <= 0 -> 2 ^ (- e') <= Zpos q -> Zpos q + (if l then 0 else 1) <= 2 ^ (31 - e') ->
  exists m e, binary_round_aux 53 1024 false (Zpos q) e' l = S754_finite false m e /\
    e' <= e <= Z.max (e' + 1) (-20) /\ 2 ^ 300 <= scaled m e <= 2 ^ 31 * 2 ^ 300.
Proof.
  intros He Hq1 Hq2. pose proof (digits2_bounds q) as Hdq.
  pose proof (pow2_pos (e' + 300) ltac:(lia)) as Pe'.
  assert (2 ^ 300 = 2 ^ (- e') * 2 ^ (e' + 300)) as H300.
  { rewrite <- Z.pow_add_r by lia. f_equal. lia. }
  assert (Zpos (digits2_pos q) <= 32 - e') as Hdq'.
  { destruct (Z.le_gt_cases (Zpos (digits2_pos q)) (32 - e')); [done|].
    assert (2 ^ (31 - e' + 1) <= 2 ^ (Zpos (digits2_pos q) - 1)) by (apply Z.pow_le_mono_r; lia).
    rewrite Z.pow_add_r in * by lia. change (2 ^ 1) with 2 in *.
    pose proof (pow2_pos (31 - e') ltac:(lia)). destruct l; lia. }
  destruct (round_bounds q e' l 1 (2 ^ 31)) as (m & e & E & Hme & Hb).
  - lia.
  - lia.
  - done.
  - unfold scaled. rewrite H300. nia.
  - exists (2 ^ (31 - Z.max 0 (e' + Z.max 0 (Zpos (digits2_pos q) - 53)))).
    rewrite <- Z.pow_add_r by lia. f_equal. lia.
  - unfold scaled. replace (2 ^ 31 * 2 ^ 300) with (2 ^ (31 - e') * 2 ^ (e' + 300)).
    + destruct l; nia.
    + rewrite <- !Z.pow_add_r by lia. f_equal. lia.
  - exists m, e. split; [exact E|]. split; lia.
Qed.

(** [2 ^ 31 / k] as a [double] stays between 1 and [2 ^ 31]. *)
Lemma dbl_div_bounds k :
  1 <= k <= 2 ^ 31 ->
  exists m e, dbl_div (dbl_of_Z (2 ^ 31)) (dbl_of_Z k) = S754_finite false m e /\
    -53 <= e <= 0 /\ 2 ^ 300 <= scaled m e <= 2 ^ 31 * 2 ^ 300.
Proof.
  intros Hk. destruct (dbl_of_Z_exact k) as (m2 & e2 & -> & He2 & Hv); [lia|].
  pose proof (scaled_digits m2 e2 k He2 Hk Hv) as Hde.
  change (dbl_of_Z (2 ^ 31)) with (S754_finite false 4503599627370496 (-21)).
  unfold dbl_div, SFdiv, SFdiv_core_binary.
  change (Zdigits2 (Zpos 4503599627370496)) with 53.
  change (Zdigits2 (Zpos m2)) with (Zpos (digits2_pos m2)).
  set (d2 := Zpos (digits2_pos m2)) in *.
  assert (0 < d2) by (unfold d2; lia). rewrite fexp_normal by lia.
  set (e' := -21 - d2 - e2).
  replace (Z.min (53 + -21 - (d2 + e2) - 53) (-21 - e2)) with e' by (unfold e'; lia).
  replace (-21 - e2 - e') with d2 by (unfold e'; lia).
  assert (match d2 with Z0 => Zpos 4503599627370496 | Zpos _ => Z.shiftl (Zpos 4503599627370496) d2
          | Zneg _ => 0 end = 2 ^ (52 + d2)) as ->.
  { destruct d2 as [|x|x]; try lia. rewrite Z.shiftl_mul_pow2, Z.pow_add_r by lia. done. }
  destruct (Z.div_eucl (2 ^ (52 + d2)) (Zpos m2)) as [q r] eqn:Eqr.
  pose proof (Z_div_mod (2 ^ (52 + d2)) (Zpos m2) ltac:(lia)) as Hqr. rewrite Eqr in Hqr.
  destruct Hqr as [Hqr Hr].
  destruct (quotient_bounds m2 e2 k d2 e') as [Hlow Hup]; try done; [unfold e'; lia..|].
  assert (0 < 2 ^ (- e')) by (apply pow2_pos; unfold e'; lia).
  assert (2 ^ (- e') <= q) as Hq1 by nia.
  destruct q as [|q|q]; try lia. pose proof (new_location_exact (Zpos m2) r) as Hloc.
  destruct (quotient_rounds q (new_location (Zpos m2) r) e') as (m & e & E & He & Hb).
  - unfold e'; lia.
  - done.
  - destruct (new_location (Zpos m2) r); nia.
  - exists m, e. cbn [xorb]. split; [exact E|]. split; [unfold e' in *; lia|done].
Qed.

(** Truncating a positive value between two integers. *)
Lemma int64_of_dbl_bounds m e b u :
  -200 <= e -> 0 <= b -> u < 2 ^ 63 ->
  b * 2 ^ 300 <= scaled m e <= u * 2 ^ 300 ->
  exists z, int64_of_dbl (S754_finite false m e) = Ret z /\ b <= z <= u.
Proof.
  intros He Hb Hu Hs. unfold int64_of_dbl, scaled in *. pose proof (pow2_pos 300).
  destruct (Z.leb_spec 0 e).
  - rewrite Z.pow_add_r, Z.mul_assoc in Hs by lia.
    assert (b <= Zpos m * 2 ^ e <= u) by nia.
    exists (Zpos m * 2 ^ e). destruct (Z.leb_spec (- 2 ^ 63) (Zpos m * 2 ^ e)); [|lia].
    destruct (Z.ltb_spec (Zpos m * 2 ^ e) (2 ^ 63)); [|lia]. done.
  - assert (2 ^ 300 = 2 ^ (- e) * 2 ^ (e + 300)) as H300
      by (rewrite <- Z.pow_add_r by lia; f_equal; lia).
    pose proof (pow2_pos (- e) ltac:(lia)). pose proof (pow2_pos (e + 300) ltac:(lia)).
    rewrite H300 in Hs.
    assert (b * 2 ^ (- e) <= Zpos m <= u * 2 ^ (- e)) by nia.
    assert (b <= Zpos m / 2 ^ (- e) <= u).
    { split; [apply Z.div_le_lower_bound|apply Z.div_le_upper_bound]; lia. }
    exists (Zpos m / 2 ^ (- e)).
    destruct (Z.leb_spec (- 2 ^ 63) (Zpos m / 2 ^ (- e))); [|lia].
    destruct (Z.ltb_spec (Zpos m / 2 ^ (- e)) (2 ^ 63)); [|lia]. done.
Qed.

(** The next candidate of the jump hash, [(int64_t)(b1 * (2^31 / k))], is
    defined and lies between [b1] and [b1 * 2^31]. *)
Lemma jump_next_bounds b1 k :
  1 <= b1 < 2 ^ 32 -> 1 <= k <= 2 ^ 31 ->
  exists j,
    int64_of_dbl (dbl_mul (dbl_of_Z b1) (dbl_div (dbl_of_Z (2 ^ 31)) (dbl_of_Z k))) = Ret j /\
    b1 <= j <= b1 * 2 ^ 31.
Proof.
  intros Hb Hk. destruct (dbl_div_bounds k Hk) as (m & e & -> & He & Hv).
  destruct (dbl_of_Z_exact b1) as (mb & eb & -> & Heb & Hvb); [lia|].
  unfold dbl_mul, SFmul. set (p := (mb * m)%positive).
  assert (Hp : scaled p (eb + e) * 2 ^ 300 = b1 * 2 ^ 300 * scaled m e).
  { rewrite <- Hvb. unfold scaled, p. rewrite Pos2Z.inj_mul.
    replace (2 ^ (eb + e + 300)) with (2 ^ (eb + e + 300) * 1) by lia.
    transitivity (Zpos mb * Zpos m * (2 ^ (eb + e + 300) * 2 ^ 300)); [ring|].
    transitivity (Zpos mb * Zpos m * (2 ^ (eb + 300) * 2 ^ (e + 300))); [|ring].
    f_equal. rewrite <- !Z.pow_add_r by lia. f_equal. lia. }
  pose proof (pow2_pos 300).
  assert (b1 * 2 ^ 300 <= scaled p (eb + e) <= b1 * 2 ^ 31 * 2 ^ 300) as Hs by nia.
  pose proof (digits2_bounds p) as Hd. set (d := Zpos (digits2_pos p)) in *.
  assert (0 < d) by (unfold d; lia).
  assert (d + (eb + e) <= 64) as Hde.
  { destruct (Z.le_gt_cases (d + (eb + e)) 64); [done|]. unfold scaled in Hs.
    assert (2 ^ 364 <= 2 ^ (d - 1) * 2 ^ (eb + e + 300))
      by (rewrite <- Z.pow_add_r by lia; apply Z.pow_le_mono_r; lia).
    change (2 ^ 364) with (2 ^ 64 * 2 ^ 300) in *.
    pose proof (pow2_pos (eb + e + 300) ltac:(lia)). nia. }
  destruct (round_bounds p (eb + e) loc_Exact b1 (b1 * 2 ^ 31)) as (m3 & e3 & E & He3 & Hb3).
  - lia.
  - fold d. lia.
  - split; [lia|]. transitivity (2 ^ 32); [lia|reflexivity].
  - lia.
  - fold d. exists (b1 * 2 ^ (31 - Z.max 0 (eb + e + Z.max 0 (d - 53)))).
    rewrite <- Z.mul_assoc, <- Z.pow_add_r by lia. do 2 f_equal. lia.
  - lia.
  - cbn [xorb]. rewrite E. apply int64_of_dbl_bounds; lia.
Qed.
