(* ===== verification/JumpHash.v ===== *)
(** * Jump consistent hashing

    [c_hash_jump_consistent] ([src/base/c_hash.c]), [c_hashmap_jump_consistent]
    ([src/base/c_hashmap.c]) and [dict_jump_consistent] ([src/metaserver/dict.c]):
    one loop with three loop conditions. *)

From S2P Require Import Prelude Double.

(** One pass: [b = j; key = key * 2862933555777941757ULL + 1; j = ...]. *)
Definition jump_key (key : Z) : Z := (key * 2862933555777941757 + 1)%u64.

Definition jump_next (key j : Z) : outcome Z :=
  int64_of_dbl (dbl_mul (dbl_of_Z (s64 (j + 1)))
    (dbl_div (dbl_of_Z (2 ^ 31)) (dbl_of_Z (((key >> 33) + 1)%u64)))).

Fixpoint jump_loop (cond : Z -> bool) (fuel : nat) (key b j : Z) : outcome Z :=
  if cond j then
    match fuel with
    | O => OutOfFuel
    | S fuel =>
        let key := jump_key key in
        j' ← jump_next key j;
        jump_loop cond fuel key j j'
    end
  else mret b.

(** [value = (b < 0) ? (~b + 1) : b]. *)
Definition jump_value (b : Z) : Z := if b <? 0 then Z.lnot b + 1 else b.

(** [num_buckets] is an [int32_t], compared as [int64_t]. *)
Definition c_hash_jump_consistent (key num_buckets : Z) : outcome Z :=
  b ← jump_loop (fun j => j <? num_buckets) (Z.to_nat num_buckets) key (-1) 0;
  mret (u32 (jump_value b)).

(** [num_buckets] is a [size_t]; [j] is converted to unsigned by the comparison. *)
Definition c_hashmap_jump_consistent (key num_buckets : Z) : outcome Z :=
  b ← jump_loop (fun j => u64 j <? num_buckets) (Z.to_nat num_buckets) key (-1) 0;
  mret (u64 (jump_value b)).

(** [num_buckets] is a [uint32_t]. *)
Definition dict_jump_consistent (key num_buckets : Z) : outcome Z :=
  b ← jump_loop (fun j => j <? num_buckets) (Z.to_nat num_buckets) key (-1) 0;
  mret (u32 (jump_value b)).

(** ** Progress *)

Lemma jump_key_fits key : fits 64 (jump_key key).
Proof. apply wadd_fits; lia. Qed.

Lemma jump_next_progress key j :
  fits 64 key -> 0 <= j < 2 ^ 32 - 1 ->
  exists j', jump_next key j = Ret j' /\ j + 1 <= j' < 2 ^ 63.
Proof.
  intros Hk Hj. unfold jump_next.
  rewrite (swrap_small 64) by lia.
  assert (0 <= Z.shiftr key 33 < 2 ^ 31) as Hs.
  { rewrite Z.shiftr_div_pow2 by lia. destruct Hk. split; [apply Z.div_pos; lia|].
    apply Z.div_lt_upper_bound; lia. }
  assert (wadd 64 (Z.shiftr key 33) 1 = Z.shiftr key 33 + 1) as ->
    by (apply wrap_small; unfold fits; lia).
  destruct (jump_next_bounds (j + 1) (Z.shiftr key 33 + 1)) as (j' & -> & Hj'); [lia|lia|].
  exists j'. split; [done|]. nia.
Qed.

(** The trajectory of [j] does not depend on the bound. *)
Section Loop.
Context (n : Z) (cond : Z -> bool).
Hypothesis n_range : n < 2 ^ 32.
Hypothesis cond_lt : forall j, 0 <= j < 2 ^ 63 -> cond j = (j <? n).

Lemma jump_loop_total fuel key b j :
  0 <= j < 2 ^ 63 -> n - j <= Z.of_nat fuel -> b < n \/ j < n ->
  exists r, jump_loop cond fuel key b j = Ret r /\ Z.min b j <= r < n.
Proof.
  revert key b j. induction fuel as [|fuel IH]; intros key b j Hj Hf Hb;
    cbn [jump_loop]; rewrite cond_lt by done; destruct (Z.ltb_spec j n); try lia.
  - exists b. split; [done|]. lia.
  - destruct (jump_next_progress (jump_key key) j (jump_key_fits key)) as (j' & -> & Hj');
      [lia|]. cbn [mbind outcome_bind].
    destruct (IH (jump_key key) j j') as (r & -> & Hr); [lia..|].
    exists r. split; [done|]. lia.
  - exists b. split; [done|]. lia.
Qed.
End Loop.

Lemma jump_loop_ext cond1 cond2 fuel key b j :
  (forall j, 0 <= j < 2 ^ 63 -> cond1 j = cond2 j) ->
  (forall j, 0 <= j < 2 ^ 63 -> cond2 j = true -> j < 2 ^ 32 - 1) ->
  0 <= j < 2 ^ 63 ->
  jump_loop cond1 fuel key b j = jump_loop cond2 fuel key b j.
Proof.
  intros Hc Hr. revert key b j. induction fuel as [|fuel IH]; intros key b j Hj;
    cbn [jump_loop]; rewrite Hc by done; destruct (cond2 j) eqn:E; try done.
  destruct (jump_next_progress (jump_key key) j (jump_key_fits key)) as (j' & -> & Hj').
  - pose proof (Hr j Hj E). lia.
  - cbn [mbind outcome_bind]. apply IH. lia.
Qed.

Lemma jump_loop_succ n fuel key b j r :
  n < 2 ^ 32 - 1 -> 0 <= j < 2 ^ 63 ->
  jump_loop (fun j => j <? n) fuel key b j = Ret r ->
  let r' := jump_loop (fun j => j <? n + 1) (S fuel) key b j in r' = Ret r \/ r' = Ret n.
Proof.
  intros Hn. revert key b j. induction fuel as [|fuel IH]; intros key b j Hj Hr r'; unfold r';
    cbn [jump_loop] in Hr; destruct (Z.ltb_spec j n) as [Hlt|Hge]; try discriminate.
  1,3: injection Hr as ->; cbn [jump_loop]; destruct (Z.ltb_spec j (n + 1)); [|by left];
    replace j with n in * by lia;
    destruct (jump_next_progress (jump_key key) n (jump_key_fits key)) as (j' & -> & Hj');
      [lia|]; right; cbn [mbind outcome_bind].
  1: by destruct (Z.ltb_spec j' (n + 1)); [lia|].
  1: { cbn [jump_loop]. by destruct (Z.ltb_spec j' (n + 1)); [lia|]. }
  destruct (jump_next_progress (jump_key key) j (jump_key_fits key)) as (j' & E & Hj'); [lia|].
  rewrite E in Hr. cbn [mbind outcome_bind] in Hr.
  change (jump_loop (fun j => j <? n + 1) (S (S fuel)) key b j) with
    (if j <? n + 1 then j' ← jump_next (jump_key key) j;
       jump_loop (fun j => j <? n + 1) (S fuel) (jump_key key) j j' else mret b).
  destruct (Z.ltb_spec j (n + 1)); [|lia]. rewrite E. apply IH; [lia|done].
Qed.

(** Extra fuel does not change a result. *)
Lemma jump_value_nonneg b : 0 <= b -> jump_value b = b.
Proof. intros. unfold jump_value. by destruct (Z.ltb_spec b 0); [lia|]. Qed.

Lemma jump_total n cond key :
  0 < n < 2 ^ 32 -> (forall j, 0 <= j < 2 ^ 63 -> cond j = (j <? n)) ->
  exists r, jump_loop cond (Z.to_nat n) key (-1) 0 = Ret r /\ 0 <= r < n.
Proof.
  intros Hn Hc.
  (* the first pass sets b to 0 *)
  destruct (Z.to_nat n) as [|fuel] eqn:Ef; [lia|]. cbn [jump_loop]. rewrite Hc by lia.
  destruct (Z.ltb_spec 0 n); [|lia].
  destruct (jump_next_progress (jump_key key) 0 (jump_key_fits key)) as (j' & -> & Hj'); [lia|].
  cbn [mbind outcome_bind].
  destruct (jump_loop_total n cond) with (fuel := fuel) (key := jump_key key) (b := 0) (j := j')
    as (r & -> & Hr); [lia|done|lia|lia|lia|].
  exists r. split; [done|]. lia.
Qed.

(** C23: for every key and every positive bucket count (up to the widest 32-bit one
    for the two maps), the three jump hashes terminate, their floating-point
    step never overflows [int64_t], they agree, and the bucket is in range. *)
Theorem jump_hashes_in_range key n :
  0 < n < 2 ^ 32 ->
  exists r, 0 <= r < n /\
    dict_jump_consistent key n = Ret r /\
    c_hashmap_jump_consistent key n = Ret r /\
    (n < 2 ^ 31 -> c_hash_jump_consistent key n = Ret r).
Proof.
  intros Hn.
  destruct (jump_total n (fun j => j <? n) key) as (r & E & Hr); [done|done|].
  exists r. split; [done|].
  unfold dict_jump_consistent, c_hashmap_jump_consistent, c_hash_jump_consistent.
  rewrite (jump_loop_ext (fun j => u64 j <? n) (fun j => j <? n)).
  - rewrite E. simpl. rewrite jump_value_nonneg, !wrap_small by (unfold fits; lia). done.
  - intros j Hj. by rewrite wrap_small by (unfold fits; lia).
  - intros j Hj Hlt. apply Z.ltb_lt in Hlt. lia.
  - lia.
Qed.

Lemma jump_hashes_in_range_witness :
  exists r, 0 <= r < 10 /\ dict_jump_consistent 42 10 = Ret r /\
    c_hashmap_jump_consistent 42 10 = Ret r /\
    (10 < 2 ^ 31 -> c_hash_jump_consistent 42 10 = Ret r).
Proof. apply (jump_hashes_in_range 42 10). lia. Defined.

(** C24: growing from [n] to [n + 1] buckets moves a key only to the new bucket. *)
Theorem jump_hash_consistent key n r :
  0 < n < 2 ^ 31 - 1 -> c_hash_jump_consistent key n = Ret r ->
  c_hash_jump_consistent key (n + 1) = Ret r \/ c_hash_jump_consistent key (n + 1) = Ret n.
Proof.
  intros Hn Hr. unfold c_hash_jump_consistent in *.
  destruct (jump_total n (fun j => j <? n) key) as (b & E & Hb); [lia|done|].
  rewrite E in Hr. cbn [mbind outcome_bind] in Hr.
  destruct (jump_loop_succ n (Z.to_nat n) key (-1) 0 b) as [E'|E']; [lia|lia|done| |];
    replace (S (Z.to_nat n)) with (Z.to_nat (n + 1)) in E' by lia; rewrite E'.
  - by left.
  - right. cbn [mbind outcome_bind]. rewrite jump_value_nonneg, wrap_small
      by (unfold fits; lia). done.
Qed.

Lemma jump_hash_consistent_witness :
  c_hash_jump_consistent 12345 8 = Ret 1 \/ c_hash_jump_consistent 12345 8 = Ret 7.
Proof. apply (jump_hash_consistent 12345 7 1); [lia|]. vm_compute. reflexivity. Defined.

(** With no bucket at all the loop body never runs and the answer is 1. *)
Example jump_no_buckets key :
  c_hash_jump_consistent key 0 = Ret 1 /\ dict_jump_consistent key 0 = Ret 1.
Proof. by split. Qed.
