(* ===== verification/Layout.v ===== *)
(** * C structure layouts of [src/fuse/types]

    A structure is the list of its members in declaration order; offsets and
    sizes follow the x86-64 rule (a member is aligned to its width, the
    structure to its widest member).  A structure value is the bytes it
    occupies, which is how the code fills it from disk. *)

From S2P Require Import Prelude Bytes.

(** [mem_count] elements of [mem_width] bytes each. *)
Record member := Member { mem_name : string; mem_width : Z; mem_count : Z }.

Definition layout := list member.

Definition u8_ (n : string) : member := Member n 1 1.
Definition le16_ (n : string) : member := Member n 2 1.
Definition le32_ (n : string) : member := Member n 4 1.
Definition le64_ (n : string) : member := Member n 8 1.
Definition ptr_ (n : string) : member := Member n 8 1.
Definition array_ (n : string) (w c : Z) : member := Member n w c.

Definition align_up (x a : Z) : Z := (x + a - 1) / a * a.

(** Offset of each member, from offset [cur] on. *)
Fixpoint place (l : layout) (cur : Z) : list (string * (Z * Z)) :=
  match l with
  | [] => []
  | m :: l =>
      let off := align_up cur (mem_width m) in
      (mem_name m, (off, mem_width m)) :: place l (off + mem_width m * mem_count m)
  end.

Fixpoint end_of (l : layout) (cur : Z) : Z :=
  match l with
  | [] => cur
  | m :: l => end_of l (align_up cur (mem_width m) + mem_width m * mem_count m)
  end.

Definition alignment (l : layout) : Z := foldr (fun m a => Z.max (mem_width m) a) 1 l.
Definition sizeof (l : layout) : Z := align_up (end_of l 0) (alignment l).

Fixpoint assoc {A} (n : string) (l : list (string * A)) : option A :=
  match l with
  | [] => None
  | (k, a) :: l => if String.eqb n k then Some a else assoc n l
  end.

Definition offsetof (l : layout) (n : string) : option Z := fst <$> assoc n (place l 0).

(** Scalar member [n] of the structure stored in [mem]. *)
Definition field (l : layout) (n : string) (mem : list byte) : Z :=
  match assoc n (place l 0) with
  | Some (off, w) => le_decode (take (Z.to_nat w) (drop (Z.to_nat off) mem))
  | None => 0
  end.
#[global] Arguments field _ _ _ : simpl never.

(** ** The structures *)

Local Open Scope string_scope.

Definition ext4_super_block : layout := [
  le32_ "s_inodes_count"; le32_ "s_blocks_count_lo"; le32_ "s_r_blocks_count_lo";
  le32_ "s_free_blocks_count_lo"; le32_ "s_free_inodes_count"; le32_ "s_first_data_block";
  le32_ "s_log_block_size"; le32_ "s_obso_log_frag_size"; le32_ "s_blocks_per_group";
  le32_ "s_obso_frags_per_group"; le32_ "s_inodes_per_group"; le32_ "s_mtime";
  le32_ "s_wtime"; le16_ "s_mnt_count"; le16_ "s_max_mnt_count"; le16_ "s_magic";
  le16_ "s_state"; le16_ "s_errors"; le16_ "s_minor_rev_level"; le32_ "s_lastcheck";
  le32_ "s_checkinterval"; le32_ "s_creator_os"; le32_ "s_rev_level"; le16_ "s_def_resuid";
  le16_ "s_def_resgid"; le32_ "s_first_ino"; le16_ "s_inode_size"; le16_ "s_block_group_nr";
  le32_ "s_feature_compat"; le32_ "s_feature_incompat"; le32_ "s_feature_ro_compat";
  array_ "s_uuid" 1 16; array_ "s_volume_name" 1 16; array_ "s_last_mounted" 1 64;
  le32_ "s_algorithm_usage_bitmap"; u8_ "s_prealloc_blocks"; u8_ "s_prealloc_dir_blocks";
  le16_ "s_reserved_gdt_blocks"; array_ "s_journal_uuid" 1 16; le32_ "s_journal_inum";
  le32_ "s_journal_dev"; le32_ "s_last_orphan"; array_ "s_hash_seed" 4 4;
  u8_ "s_def_hash_version"; u8_ "s_reserved_char_pad"; le16_ "s_desc_size";
  le32_ "s_default_mount_opts"; le32_ "s_first_meta_bg"; le32_ "s_mkfs_time";
  array_ "s_jnl_blocks" 4 17; le32_ "s_blocks_count_hi"; le32_ "s_r_blocks_count_hi";
  le32_ "s_free_blocks_count_hi"; le16_ "s_min_extra_isize"; le16_ "s_want_extra_isize";
  le32_ "s_flags"; le16_ "s_raid_stride"; le16_ "s_mmp_interval"; le64_ "s_mmp_block";
  le32_ "s_raid_stripe_width"; u8_ "s_log_groups_per_flex"; u8_ "s_reserved_char_pad2";
  le16_ "s_reserved_pad"; le64_ "s_kbytes_written"; array_ "s_reserved" 4 160 ].

Definition ext4_group_desc : layout := [
  le32_ "bg_block_bitmap_lo"; le32_ "bg_inode_bitmap_lo"; le32_ "bg_inode_table_lo";
  le16_ "bg_free_blocks_count_lo"; le16_ "bg_free_inodes_count_lo";
  le16_ "bg_used_dirs_count_lo"; le16_ "bg_flags"; array_ "bg_reserved" 4 2;
  le16_ "bg_itable_unused_lo"; le16_ "bg_checksum"; le32_ "bg_block_bitmap_hi";
  le32_ "bg_inode_bitmap_hi"; le32_ "bg_inode_table_hi"; le16_ "bg_free_blocks_count_hi";
  le16_ "bg_free_inodes_count_hi"; le16_ "bg_used_dirs_count_hi";
  le16_ "bg_itable_unused_hi"; array_ "bg_reserved2" 4 3 ].

(** The two unions of the inode are a 4-byte and a 12-byte block of words. *)
Definition ext4_inode : layout := [
  le16_ "i_mode"; le16_ "i_uid"; le32_ "i_size_lo"; le32_ "i_atime"; le32_ "i_ctime";
  le32_ "i_mtime"; le32_ "i_dtime"; le16_ "i_gid"; le16_ "i_links_count";
  le32_ "i_blocks_lo"; le32_ "i_flags"; le32_ "osd1"; array_ "i_block" 4 15;
  le32_ "i_generation"; le32_ "i_file_acl_lo"; le32_ "i_size_high"; le32_ "i_obso_faddr";
  array_ "osd2" 4 3; le16_ "i_extra_isize"; le16_ "i_pad1"; le32_ "i_ctime_extra";
  le32_ "i_mtime_extra"; le32_ "i_atime_extra"; le32_ "i_crtime"; le32_ "i_crtime_extra";
  le32_ "i_version_hi" ].

Definition ext4_extent_header : layout := [
  le16_ "eh_magic"; le16_ "eh_entries"; le16_ "eh_max"; le16_ "eh_depth"; le32_ "eh_generation" ].

Definition ext4_extent : layout := [
  le32_ "ee_block"; le16_ "ee_len"; le16_ "ee_start_hi"; le32_ "ee_start_lo" ].

Definition ext4_extent_idx : layout := [
  le32_ "ei_block"; le32_ "ei_leaf_lo"; le16_ "ei_leaf_hi"; le16_ "ei_unused" ].

Definition EXT4_NAME_LEN : Z := 255.

Definition ext4_dir_entry_2 : layout := [
  le32_ "inode"; le16_ "rec_len"; u8_ "name_len"; u8_ "file_type"; array_ "name" 1 EXT4_NAME_LEN ].

Definition DCACHE_ENTRY_NAME_LEN : Z := 40.

Definition dcache_entry_layout : layout := [
  ptr_ "childs"; ptr_ "siblings"; le32_ "inode"; le16_ "lru_count"; u8_ "user_count";
  array_ "name" 1 DCACHE_ENTRY_NAME_LEN ].

(** ** Facts *)

(** The structure starts and offsets the sources note in comments, the sizes
    the on-disk format fixes, and the [STATIC_ASSERT] of the dcache entry. *)
Definition noted_offsets : list (string * Z) := [
  ("s_inodes_count", 0x00); ("s_free_inodes_count", 0x10); ("s_blocks_per_group", 0x20);
  ("s_wtime", 0x30); ("s_lastcheck", 0x40); ("s_def_resuid", 0x50);
  ("s_feature_incompat", 0x60); ("s_uuid", 0x68); ("s_volume_name", 0x78);
  ("s_last_mounted", 0x88); ("s_algorithm_usage_bitmap", 0xC8); ("s_journal_uuid", 0xD0);
  ("s_journal_inum", 0xE0); ("s_default_mount_opts", 0x100); ("s_blocks_count_hi", 0x150) ].

(** every offset noted in [ext4_super.h] is the one the layout rules give;
    the super block is 1024 bytes, a group descriptor 64, an inode 156, extent
    records 12, a directory entry 264, and a dcache entry fits one 64-byte
    cache line as its [STATIC_ASSERT] demands. *)
Theorem struct_layouts :
  Forall (fun '(n, off) => offsetof ext4_super_block n = Some off) noted_offsets /\
  map sizeof [ext4_super_block; ext4_group_desc; ext4_inode; ext4_extent_header; ext4_extent;
    ext4_extent_idx; ext4_dir_entry_2; dcache_entry_layout]
  = [1024; 64; 156; 12; 12; 12; 264; 64].
Proof. split; [repeat constructor|by vm_compute]. Qed.

(** A scalar member of [w] bytes is a [8 w]-bit word. *)
Lemma field_fits l n mem off w :
  assoc n (place l 0) = Some (off, w) -> 0 <= w ->
  fits (8 * w) (field l n mem).
Proof.
  intros E Hw. unfold field. rewrite E.
  eapply fits_le, le_decode_fits. rewrite length_take. lia.
Qed.
