(* ===== verification/Disk.v ===== *)
(** * Disk access of [src/fuse/disk.c]

    The opened device is a descriptor and an array of bytes.  [pread] follows
    its manual page for a regular file or a block device (a short count at the
    end of the device, [-1] on a negative offset, at most [0x7ffff000] bytes a
    call).  A read into a caller's buffer returns the bytes it stores. *)

From S2P Require Import Prelude Bytes.

Record disk := Disk { disk_fd : Z; dev_size : Z; dev_byte : Z -> byte }.

Definition MAX_RW_COUNT : Z := 0x7ffff000.

(** Bytes [off, off + n) of the device. *)
Definition dev_bytes (d : disk) (off n : Z) : list byte := span (dev_byte d) off n.
#[global] Arguments dev_bytes _ _ _ : simpl never.

Definition pread (d : disk) (size where_ : Z) : Z * list byte :=
  if where_ <? 0 then (-1, [])
  else let n := Z.min (Z.min size MAX_RW_COUNT) (Z.max 0 (dev_size d - where_)) in
       (n, dev_bytes d where_ n).

(** The default build of [pread_wrapper]: its [int] result truncates. *)
Definition pread_wrapper (d : disk) (size where_ : Z) : outcome (Z * list byte) :=
  let '(r, bs) := pread d size where_ in Ret (s32 r, bs).

(** ** The FreeBSD build: whole aligned blocks only *)

Definition PREAD_BLOCK_SIZE : Z := 1024.

(** First, unaligned block: the count and the bytes copied out. *)
Definition freebsd_first (d : disk) (size where_ : Z) : outcome (Z * list byte) :=
  let first_offset := Z.rem where_ PREAD_BLOCK_SIZE in
  if first_offset =? 0 then Ret (0, [])
  else
    let '(pread_ret, block) := pread d PREAD_BLOCK_SIZE (where_ - first_offset) in
    c_assert (s32 pread_ret =? PREAD_BLOCK_SIZE) ;;
    let first_size := Z.min size (PREAD_BLOCK_SIZE - first_offset) in
    bs ← load_bytes block first_offset first_size;
    mret (first_size, bs).

Definition freebsd_mid (d : disk) (size where_ : Z) : outcome (Z * list byte) :=
  let mid_read_size := size / PREAD_BLOCK_SIZE * PREAD_BLOCK_SIZE in
  if mid_read_size =? 0 then Ret (0, [])
  else
    let '(r, bs) := pread d mid_read_size where_ in
    c_assert (u64 (s32 r) =? mid_read_size) ;;
    mret (mid_read_size, bs).

Definition freebsd_last (d : disk) (size where_ : Z) : outcome (list byte) :=
  c_assert (size <? PREAD_BLOCK_SIZE) ;;
  let '(r, block) := pread d PREAD_BLOCK_SIZE where_ in
  c_assert (s32 r =? PREAD_BLOCK_SIZE) ;;
  load_bytes block 0 size.

Definition pread_wrapper_freebsd (d : disk) (size where_ : Z) : outcome (Z * list byte) :=
  let first_offset := Z.rem where_ PREAD_BLOCK_SIZE in
  '(n1, b1) ← freebsd_first d size where_;
  let size := size - n1 in
  let where_ := where_ + n1 in
  if negb (first_offset =? 0) && (size =? 0) then Ret (s32 n1, b1)
  else
    c_assert (Z.rem where_ PREAD_BLOCK_SIZE =? 0) ;;
    '(n2, b2) ← freebsd_mid d size where_;
    let size := size - n2 in
    let where_ := where_ + n2 in
    if (0 <? n2) && (size =? 0) then Ret (s32 (n1 + n2), b1 ++ b2)
    else
      b3 ← freebsd_last d size where_;
      mret (s32 (n1 + n2 + size), b1 ++ b2 ++ b3).

(** ** Operations *)

(** [disk_open]: [fd] is what [open] answered, [errno] its error. *)
Definition disk_open (d : disk) (fd errno : Z) : disk * Z :=
  (Disk fd (dev_size d) (dev_byte d), if fd <? 0 then - errno else 0).

Definition __disk_read (d : disk) (where_ size : Z) : outcome (Z * list byte) :=
  let where_ := s64 where_ in
  let size := u64 size in
  c_assert (0 <=? disk_fd d) ;;
  '(pread_ret, bs) ← pread_wrapper d size where_;
  c_assert (u64 pread_ret =? size) ;;
  mret (s32 pread_ret, bs).

Definition disk_read (d : disk) (where_ size : Z) : outcome (list byte) :=
  snd <$> __disk_read d where_ size.

Definition disk_read_u32 (d : disk) (where_ : Z) : outcome Z :=
  '(n, bs) ← __disk_read d where_ 4;
  c_assert (n =? 4) ;;
  mret (le_decode bs).

Record disk_ctx := DiskCtx { cur : Z; size : Z }.

Definition disk_ctx_create (where_ size len : Z) : outcome disk_ctx :=
  c_assert (negb (size =? 0)) ;;
  mret (DiskCtx where_ (size * len)%u64).

(** Returns the count, the bytes and the advanced context. *)
Definition __disk_ctx_read (d : disk) (ctx : disk_ctx) (n : Z) : outcome (Z * list byte * disk_ctx) :=
  c_assert (negb (size ctx =? 0)) ;;
  let n := if size ctx <? n then size ctx else n in
  '(ret, bs) ← __disk_read d (cur ctx) n;
  mret (ret, bs, DiskCtx (cur ctx + ret) (size ctx - ret)%u64).

(** ** Lemmas *)

Lemma length_dev_bytes d off n : length (dev_bytes d off n) = Z.to_nat n.
Proof. apply length_span. Qed.

Lemma dev_bytes_app d off n m :
  0 <= n -> 0 <= m -> dev_bytes d off (n + m) = dev_bytes d off n ++ dev_bytes d (off + n) m.
Proof. apply span_app. Qed.

Lemma dev_bytes_nil d off : dev_bytes d off 0 = [].
Proof. done. Qed.

Lemma load_dev_bytes d off n a k :
  0 <= a -> 0 <= k -> a + k <= n ->
  load_bytes (dev_bytes d off n) a k = Ret (dev_bytes d (off + a) k).
Proof.
  intros. unfold load_bytes. rewrite length_dev_bytes, !(proj2 (Z.leb_le _ _)) by lia.
  cbn [andb]. f_equal. replace n with (a + (k + (n - a - k))) by lia.
  rewrite !dev_bytes_app by lia.
  rewrite drop_app_length' by (rewrite length_dev_bytes; lia).
  by rewrite take_app_length' by (rewrite length_dev_bytes; lia).
Qed.

Lemma pread_in d size where_ :
  0 <= where_ -> 0 <= size <= MAX_RW_COUNT -> where_ + size <= dev_size d ->
  pread d size where_ = (size, dev_bytes d where_ size).
Proof. intros. unfold pread. zcase. by rewrite !Z.min_l by lia. Qed.

(** ** Whole reads *)

Lemma disk_read_in d where_ size :
  0 <= disk_fd d -> 0 <= where_ -> 0 <= size <= MAX_RW_COUNT ->
  where_ + size <= dev_size d < 2 ^ 63 ->
  __disk_read d where_ size = Ret (size, dev_bytes d where_ size).
Proof.
  intros Hfd Hw Hs Hd. assert (MAX_RW_COUNT < 2 ^ 31) by done.
  unfold __disk_read, pread_wrapper. cbv zeta. rewrite s64_small, (u64_small size) by lia.
  rewrite pread_in, (proj2 (Z.leb_le _ _)) by lia. cbn.
  by rewrite !(s32_small size), (u64_small size), Z.eqb_refl by lia.
Qed.

(** A read that returns has stored the whole range it was asked for. *)
Lemma disk_read_Ret d where_ size r :
  fits 63 where_ -> fits 64 size -> __disk_read d where_ size = Ret r ->
  r = (size, dev_bytes d where_ size) /\ 0 <= disk_fd d /\ size <= MAX_RW_COUNT /\
  (0 < size -> where_ + size <= dev_size d).
Proof.
  intros [Hw0 Hw] [Hs0 Hs]. assert (MAX_RW_COUNT < 2 ^ 31) by done.
  unfold __disk_read, pread_wrapper, pread. cbv zeta.
  rewrite s64_small, (u64_small size) by lia. rewrite (proj2 (Z.ltb_ge where_ 0)) by lia.
  destruct (Z.leb_spec 0 (disk_fd d)); [|discriminate]. cbn.
  set (n := Z.min _ _). assert (0 <= n <= MAX_RW_COUNT /\ n <= size) by (subst n; unfold MAX_RW_COUNT in *; lia).
  rewrite !(s32_small n), (u64_small n) by lia.
  destruct (Z.eqb_spec n size) as [E|]; [|discriminate].
  cbn. intros [= <-]. rewrite E. repeat split; subst n; lia.
Qed.

Lemma disk_read_bytes d where_ size bs :
  fits 63 where_ -> fits 64 size -> disk_read d where_ size = Ret bs ->
  bs = dev_bytes d where_ size.
Proof.
  unfold disk_read. intros ?? H.
  destruct (__disk_read d where_ size) as [p| | |] eqn:E; simplify_eq/=.
  by apply disk_read_Ret in E as [-> _].
Qed.

(** ** The FreeBSD wrapper *)

Section FreeBSD.
Context (d : disk) (blocks : Z).
Hypothesis whole_blocks : dev_size d = blocks * PREAD_BLOCK_SIZE.

Lemma pread_block where_ :
  0 <= where_ < dev_size d -> Z.rem where_ PREAD_BLOCK_SIZE = 0 ->
  pread d PREAD_BLOCK_SIZE where_ = (PREAD_BLOCK_SIZE, dev_bytes d where_ PREAD_BLOCK_SIZE).
Proof.
  intros Hw Hr. unfold PREAD_BLOCK_SIZE in *. rewrite Z.rem_mod_nonneg in Hr by lia.
  apply pread_in; [lia|unfold MAX_RW_COUNT; lia|].
  pose proof (Z.div_mod where_ 1024). nia.
Qed.

Lemma freebsd_first_in size where_ :
  0 <= size -> 0 <= where_ < dev_size d ->
  exists n, freebsd_first d size where_ = Ret (n, dev_bytes d where_ n) /\ 0 <= n <= size /\
    (n = size \/ (where_ + n) mod PREAD_BLOCK_SIZE = 0) /\ (where_ mod PREAD_BLOCK_SIZE = 0 -> n = 0).
Proof.
  intros Hs Hw. unfold freebsd_first, PREAD_BLOCK_SIZE. rewrite Z.rem_mod_nonneg by lia.
  pose proof (Z.div_mod where_ 1024 ltac:(lia)) as Hdm.
  pose proof (Z.mod_pos_bound where_ 1024 ltac:(lia)) as Hm.
  destruct (Z.eqb_spec (where_ mod 1024) 0) as [E|E].
  { exists 0. rewrite Z.add_0_r. repeat split; auto; lia. }
  change 1024 with PREAD_BLOCK_SIZE at 1. rewrite pread_block.
  - cbn. change (s32 PREAD_BLOCK_SIZE) with 1024. change PREAD_BLOCK_SIZE with 1024.
    rewrite Z.eqb_refl. cbn. rewrite load_dev_bytes by lia. cbn.
    exists (Z.min size (1024 - where_ mod 1024)).
    split; [do 3 f_equal; lia|]. split; [lia|]. split; [|done].
    destruct (Z.le_gt_cases size (1024 - where_ mod 1024)); [lia|right].
    rewrite Z.min_r by lia.
    replace (where_ + _) with ((where_ / 1024 + 1) * 1024) by lia. apply Z_mod_mult.
  - lia.
  - unfold PREAD_BLOCK_SIZE. rewrite Z.rem_mod_nonneg by lia.
    replace (where_ - _) with (where_ / 1024 * 1024) by lia. apply Z_mod_mult.
Qed.

Lemma freebsd_mid_in size where_ :
  0 <= size <= MAX_RW_COUNT -> 0 <= where_ -> where_ + size <= dev_size d ->
  let n := size / PREAD_BLOCK_SIZE * PREAD_BLOCK_SIZE in
  freebsd_mid d size where_ = Ret (n, dev_bytes d where_ n).
Proof.
  intros Hs Hw Hd n. pose proof (Z.div_mod size PREAD_BLOCK_SIZE ltac:(done)) as Hdm.
  pose proof (Z.mod_pos_bound size PREAD_BLOCK_SIZE ltac:(done)) as Hm.
  assert (0 <= n <= size) as Hn by (subst n; unfold PREAD_BLOCK_SIZE in *; lia).
  assert (MAX_RW_COUNT < 2 ^ 31) by done.
  unfold freebsd_mid. fold n. destruct (Z.eqb_spec n 0) as [->|]; [done|].
  rewrite pread_in by lia. rewrite s32_small, u64_small by lia. by rewrite Z.eqb_refl.
Qed.

Lemma freebsd_last_in size where_ :
  0 <= size < PREAD_BLOCK_SIZE -> 0 <= where_ < dev_size d ->
  where_ mod PREAD_BLOCK_SIZE = 0 ->
  freebsd_last d size where_ = Ret (dev_bytes d where_ size).
Proof.
  intros Hs Hw Hm. unfold freebsd_last. rewrite (proj2 (Z.ltb_lt _ _)) by lia. cbn.
  rewrite pread_block by (rewrite ?Z.rem_mod_nonneg; unfold PREAD_BLOCK_SIZE in *; lia).
  change (s32 PREAD_BLOCK_SIZE =? PREAD_BLOCK_SIZE) with true. cbn.
  rewrite load_dev_bytes by lia. by rewrite Z.add_0_r.
Qed.
End FreeBSD.

(** C20: the FreeBSD build of [pread_wrapper], which may only ask the device for
    whole aligned 1024-byte blocks, stores and counts exactly what the plain
    [pread] of the other builds does, for every range of at most
    [MAX_RW_COUNT] bytes inside a device of whole blocks, the empty ones before
    its end included. *)
Theorem freebsd_wrapper_agrees d blocks size where_ :
  dev_size d = blocks * PREAD_BLOCK_SIZE ->
  0 <= where_ < dev_size d -> 0 <= size <= MAX_RW_COUNT -> where_ + size <= dev_size d ->
  pread_wrapper_freebsd d size where_ = Ret (size, dev_bytes d where_ size) /\
  pread_wrapper d size where_ = Ret (size, dev_bytes d where_ size).
Proof.
  intros Hb Hw Hs Hd. assert (MAX_RW_COUNT < 2 ^ 31) by done. split.
  2: { unfold pread_wrapper. rewrite pread_in by lia. by rewrite s32_small by lia. }
  unfold pread_wrapper_freebsd. rewrite Z.rem_mod_nonneg by (unfold PREAD_BLOCK_SIZE; lia).
  destruct (freebsd_first_in d blocks Hb size where_) as (n1 & -> & Hn1 & Hal & H0); [lia|lia|].
  cbn [mbind outcome_bind]. cbv zeta.
  destruct (negb _ && _) eqn:E1.
  { rewrite andb_true_iff, Z.eqb_eq in E1. replace n1 with size by lia. by rewrite s32_small by lia. }
  assert ((where_ + n1) mod PREAD_BLOCK_SIZE = 0 /\ where_ + n1 < dev_size d) as [Hal' Hlt].
  { rewrite andb_false_iff, negb_false_iff, Z.eqb_eq, Z.eqb_neq in E1. destruct E1 as [E1|E1]; [|lia].
    specialize (H0 E1). subst n1. rewrite Z.add_0_r. by split; [|lia]. }
  rewrite Z.rem_mod_nonneg, Hal' by (unfold PREAD_BLOCK_SIZE; lia). cbn [c_assert Z.eqb].
  cbn [mbind outcome_bind].
  rewrite freebsd_mid_in by lia. cbn [mbind outcome_bind].
  pose proof (Z.div_mod (size - n1) PREAD_BLOCK_SIZE ltac:(done)) as Hdm.
  pose proof (Z.mod_pos_bound (size - n1) PREAD_BLOCK_SIZE ltac:(done)) as Hm.
  set (n2 := (size - n1) / PREAD_BLOCK_SIZE * PREAD_BLOCK_SIZE) in *.
  assert (0 <= n2 <= size - n1 /\ size - n1 - n2 < PREAD_BLOCK_SIZE) as Hn2
    by (subst n2; unfold PREAD_BLOCK_SIZE in *; lia).
  destruct ((0 <? n2) && _) eqn:E2.
  - rewrite andb_true_iff, Z.eqb_eq in E2. rewrite <- dev_bytes_app by lia.
    replace (n1 + n2) with size by lia. by rewrite s32_small by lia.
  - rewrite andb_false_iff, Z.ltb_ge, Z.eqb_neq in E2. rewrite (freebsd_last_in d blocks Hb).
    + cbn. rewrite <- !dev_bytes_app by lia.
      replace (n1 + n2 + (size - n1 - n2)) with size by lia.
      rewrite s32_small by lia. do 3 f_equal. lia.
    + lia.
    + lia.
    + subst n2. by rewrite Z_mod_plus_full.
Qed.

(** ** Read contexts *)

Lemma disk_ctx_read_in d ctx n :
  0 <= disk_fd d -> 0 <= cur ctx -> 0 < size ctx -> 0 <= n ->
  Z.min n (size ctx) <= MAX_RW_COUNT -> cur ctx + Z.min n (size ctx) <= dev_size d < 2 ^ 63 ->
  size ctx < 2 ^ 64 ->
  let m := Z.min n (size ctx) in
  __disk_ctx_read d ctx n
  = Ret (m, dev_bytes d (cur ctx) m, DiskCtx (cur ctx + m) (size ctx - m)).
Proof.
  intros Hfd Hc Hs Hn Hm Hd H64 m. unfold __disk_ctx_read.
  destruct (Z.eqb_spec (size ctx) 0); [lia|]. cbn.
  replace (if size ctx <? n then size ctx else n) with m by (subst m; zcase).
  rewrite disk_read_in by lia. cbn. unfold wsub. by rewrite u64_small by lia.
Qed.

(** Successive requests on one context. *)
Fixpoint ctx_reads (d : disk) (ctx : disk_ctx) (ns : list Z) : outcome (list byte * disk_ctx) :=
  match ns with
  | [] => Ret ([], ctx)
  | n :: ns =>
      '(_, bs, ctx) ← __disk_ctx_read d ctx n;
      '(bs', ctx) ← ctx_reads d ctx ns;
      mret (bs ++ bs', ctx)
  end.

Definition total (ns : list Z) : Z := foldr Z.add 0 ns.

(** No request is empty, and bytes are left at the start of each one. *)
Fixpoint requests_ok (left : Z) (ns : list Z) : Prop :=
  match ns with
  | [] => True
  | n :: ns => 0 < left /\ 0 < n /\ requests_ok (left - n) ns
  end.

Lemma total_nonneg left ns : requests_ok left ns -> 0 <= total ns.
Proof. revert left. induction ns; simpl; [lia|]. intros ? (? & ? & H%IHns). lia. Qed.

Lemma ctx_reads_in d ns ctx :
  0 <= disk_fd d -> 0 <= cur ctx -> 0 <= size ctx <= MAX_RW_COUNT ->
  cur ctx + size ctx <= dev_size d < 2 ^ 63 -> requests_ok (size ctx) ns ->
  let m := Z.min (total ns) (size ctx) in
  ctx_reads d ctx ns = Ret (dev_bytes d (cur ctx) m, DiskCtx (cur ctx + m) (size ctx - m)).
Proof.
  intros Hfd. assert (MAX_RW_COUNT < 2 ^ 31) by done. revert ctx.
  induction ns as [|n ns IH]; intros [c s] Hc Hs Hd Hok m; simpl in *.
  - subst m. rewrite Z.min_l by lia. by rewrite dev_bytes_nil, Z.add_0_r, Z.sub_0_r.
  - destruct Hok as (Hl & Hn & Hok). pose proof (total_nonneg _ _ Hok).
    rewrite disk_ctx_read_in by (simpl; lia). cbn.
    rewrite IH; simpl; [|lia|lia|lia|].
    + cbn. subst m. set (k := Z.min n s). set (k' := Z.min (total ns) _).
      rewrite <- dev_bytes_app by lia.
      replace (Z.min (n + total ns) s) with (k + k') by lia. do 3 f_equal; lia.
    + destruct ns as [|n' ns]; [done|]. simpl in Hok. destruct Hok as (? & ? & ?).
      replace (s - Z.min n s) with (s - n) by lia. done.
Qed.

(** a disk context is a bounded stream: however the [size * len] bytes it
    was created for are asked for, the answers concatenate to the consecutive
    bytes of the device from [where] on, the last request is cut at the end of
    the context, and the context accounts for exactly what was delivered. *)
Theorem disk_ctx_stream d where_ sz len ns :
  0 <= disk_fd d -> 0 <= where_ -> 0 < sz -> 0 < len -> sz * len <= MAX_RW_COUNT ->
  where_ + sz * len <= dev_size d < 2 ^ 63 -> requests_ok (sz * len) ns ->
  let m := Z.min (total ns) (sz * len) in
  (ctx ← disk_ctx_create where_ sz len; ctx_reads d ctx ns)
  = Ret (dev_bytes d where_ m, DiskCtx (where_ + m) (sz * len - m)).
Proof.
  intros Hfd Hw Hsz Hlen Hm Hd Hok m. assert (MAX_RW_COUNT < 2 ^ 31) by done.
  unfold disk_ctx_create. destruct (Z.eqb_spec sz 0); [lia|]. cbn.
  unfold wmul. rewrite u64_small by nia. by rewrite ctx_reads_in by (simpl; done || nia).
Qed.

(** ** Witnesses *)

(** A device whose byte at [i] is [i mod 256]. *)
Definition sample_disk : disk := Disk 3 4096 byte_of.

Lemma freebsd_wrapper_agrees_witness :
  pread_wrapper_freebsd sample_disk 2500 700 = Ret (2500, dev_bytes sample_disk 700 2500).
Proof.
  refine (proj1 (freebsd_wrapper_agrees sample_disk 4 2500 700 eq_refl _ _ _));
    vm_compute; intuition discriminate.
Defined.

Lemma disk_ctx_stream_witness :
  (ctx ← disk_ctx_create 1024 4 5; ctx_reads sample_disk ctx [7; 6; 50])
  = Ret (dev_bytes sample_disk 1024 20, DiskCtx 1044 0).
Proof. apply (disk_ctx_stream sample_disk 1024 4 5 [7; 6; 50]); vm_compute; intuition discriminate. Defined.
