(* ===== verification/Image.v ===== *)
(** * Small disk images

    Devices given by a few patches of non-zero bytes, and one ext2-formatted
    image with 1 KiB blocks on which the theorems about the file system are
    instantiated. *)

From Stdlib Require Import Strings.Byte Ascii.
From S2P Require Import Prelude Bytes Disk.

Definition patches := list (Z * list byte).

Fixpoint patched (ps : patches) (z : Z) : byte :=
  match ps with
  | [] => x00
  | (off, bs) :: ps =>
      if (off <=? z) && (z <? off + Z.of_nat (length bs))
      then nth (Z.to_nat (z - off)) bs x00
      else patched ps z
  end.

Definition image (sz : Z) (ps : patches) : disk := Disk 3 sz (patched ps).

(** The bytes of a string literal. *)
Fixpoint bytes_of_string (s : string) : list byte :=
  match s with
  | EmptyString => []
  | String.String a s => byte_of_ascii a :: bytes_of_string s
  end.
#[global] Arguments bytes_of_string s%_string.

Definition w16 (z : Z) : list byte := le_encode 2 z.
Definition w32 (z : Z) : list byte := le_encode 4 z.

(** A directory entry of [rec_len] bytes (its padding is left to the zeroes of
    the device). *)
Definition dirent (ino rec_len : Z) (name : string) : list byte :=
  let n := bytes_of_string name in
  w32 ino ++ w16 rec_len ++ byte_of (Z.of_nat (length n)) :: byte_of 0 :: n.

(** Inode [n] (from 1) of the table at block 5: its mode, size, flags and
    [i_block] words. *)
Definition inode_patches (n mode sz flags : Z) (blocks : list byte) : patches :=
  let off := 5 * 1024 + (n - 1) * 128 in
  [ (off, w16 mode ++ w16 0 ++ w32 sz); (off + 0x20, w32 flags); (off + 0x28, blocks) ].

Definition words (l : list Z) : list byte := l ≫= w32.

(** A directory name of 40 bytes, one more than a dentry cache entry holds. *)
Definition long_name : string := "a-directory-name-of-exactly-forty-bytes-".

(** 64 blocks; the group descriptor is in block 2, the inode table in blocks 5
    and 6.  Inode 2 is the root, [/sub] is 12, [/hello] is 13 (direct blocks,
    the second one a hole), [/sub/ext] is 14 (two extents), [/link] is 15,
    11 is the directory [long_name] that also links 14 as [x], and 16 has an extent tree of depth one. *)
Definition sample_patches : patches :=
  [ (1024 + 4, w32 64); (1024 + 0x20, w32 8192); (1024 + 0x28, w32 16);
    (1024 + 0x38, w16 0xEF53); (1024 + 0x58, w16 128);
    (2048 + 8, w32 5) ]
  ++ inode_patches 2 0x41ED 1024 0 (words [10])
  ++ inode_patches 11 0x41ED 1024 0 (words [9])
  ++ inode_patches 12 0x41ED 1024 0 (words [11])
  ++ inode_patches 13 0x81A4 2500 0 (words [12; 0; 14])
  ++ inode_patches 14 0x81A4 4000 0x80000
       (w16 0xf30a ++ w16 2 ++ w16 4 ++ w16 0 ++ w32 0
        ++ w32 0 ++ w16 2 ++ w16 0 ++ w32 20 ++ w32 2 ++ w16 2 ++ w16 0 ++ w32 30)
  ++ inode_patches 16 0x81A4 (13 * 1024) 0x80000
       (w16 0xf30a ++ w16 2 ++ w16 4 ++ w16 1 ++ w32 0
        ++ w32 0 ++ w32 40 ++ w16 0 ++ w16 0 ++ w32 10 ++ w32 41 ++ w16 0 ++ w16 0)
  ++ inode_patches 15 0xA1FF 5 0 (bytes_of_string "hello")
  ++ [ (10 * 1024, dirent 2 12 "."); (10 * 1024 + 12, dirent 2 12 "..");
       (10 * 1024 + 24, dirent 12 12 "sub"); (10 * 1024 + 36, dirent 13 16 "hello");
       (10 * 1024 + 52, dirent 15 16 "link"); (10 * 1024 + 68, dirent 11 956 long_name);
       (9 * 1024, dirent 11 12 "."); (9 * 1024 + 12, dirent 2 12 ".."); (9 * 1024 + 24, dirent 14 1000 "x");
       (11 * 1024, dirent 12 12 "."); (11 * 1024 + 12, dirent 2 12 "..");
       (11 * 1024 + 24, dirent 14 1000 "ext");
       (12 * 1024, bytes_of_string "first block"); (14 * 1024, bytes_of_string "third block");
       (40 * 1024, w16 0xf30a ++ w16 1 ++ w16 84 ++ w16 0 ++ w32 0
                   ++ w32 0 ++ w16 2 ++ w16 0 ++ w32 50);
       (41 * 1024, w16 0xf30a ++ w16 2 ++ w16 84 ++ w16 0 ++ w32 0
                   ++ w32 10 ++ w16 1 ++ w16 0 ++ w32 55 ++ w32 12 ++ w16 1 ++ w16 0 ++ w32 57);
       (20 * 1024, bytes_of_string "extent 0"); (21 * 1024, bytes_of_string "extent 0, block 1");
       (30 * 1024, bytes_of_string "extent 1"); (31 * 1024, bytes_of_string "extent 1, block 1") ].

Definition sample_image : disk := image (64 * 1024) sample_patches.

Example sample_magic : dev_bytes sample_image (1024 + 0x38) 2 = [x53; xef].
Proof. by vm_compute. Qed.
