(* ===== verification/Super.v ===== *)
(** * Super block and group descriptors ([src/fuse/super.c], [super.h])

    [fs] is the static state of the mounted image: the device, the super block
    as read from it and the table of group descriptors.  An entry of the table
    is the bytes read for it (32 or 64 of the 64 allocated; the others are
    never looked at). *)

From S2P Require Import Prelude Bytes Layout Disk Image.

Record fs := Fs { fs_disk : disk; fs_super : list byte; fs_gdesc : list (list byte) }.

Definition super_field (f : fs) (n : string) : Z := field ext4_super_block n (fs_super f).
#[global] Arguments super_field _ _ : simpl never.
Abbreviation s_log_block_size f := (super_field f "s_log_block_size").
Abbreviation s_blocks_count_lo f := (super_field f "s_blocks_count_lo").
Abbreviation s_blocks_per_group f := (super_field f "s_blocks_per_group").
Abbreviation s_inodes_per_group f := (super_field f "s_inodes_per_group").
Abbreviation s_inode_size f := (super_field f "s_inode_size").
Abbreviation s_desc_size f := (super_field f "s_desc_size").

Definition bg_inode_table_lo (gd : list byte) : Z := field ext4_group_desc "bg_inode_table_lo" gd.

Definition GROUP_DESC_MIN_SIZE : Z := 0x20.
Definition BOOT_SECTOR_SIZE : Z := 0x400.

(** [super_block_size()], also known as [BLOCK_SIZE].  The shift is defined
    below 64; [super_fill] evaluates it once before any other use. *)
Definition block_size_shift (f : fs) : Z := (s_log_block_size f + 10)%u32.
Definition super_block_size (f : fs) : Z := u32 (wshl 64 1 (block_size_shift f)).
Abbreviation BLOCK_SIZE := super_block_size.

#[global] Arguments super_block_size _ : simpl never.

Definition BLOCKS2BYTES (f : fs) (blks : Z) : Z := (blks * BLOCK_SIZE f)%u64.

Definition BYTES2BLOCKS (f : fs) (bytes : Z) : Z :=
  (bytes / BLOCK_SIZE f + (if bytes mod BLOCK_SIZE f =? 0 then 0 else 1))%u64.

(** [ALIGN_TO] of [common.h] for a 64-bit [n] and a 32-bit [align]: the mask
    [~(align - 1)] is computed on 32 bits and zero-extended. *)
Definition ALIGN_TO (n align : Z) : Z :=
  if n mod align =? 0 then n
  else (n .& (wnot 32 (align - 1)%u32) + align)%u64.
Definition ALIGN_TO_BLOCKSIZE (f : fs) (n : Z) : Z := ALIGN_TO n (BLOCK_SIZE f).

Definition super_block_group_size (f : fs) : Z := BLOCKS2BYTES f (s_blocks_per_group f).

Definition super_n_block_groups (f : fs) : outcome Z :=
  c_defined (negb (s_blocks_per_group f =? 0)) ;;
  let n := (s_blocks_count_lo f + s_blocks_per_group f - 1)%u32 / s_blocks_per_group f in
  mret (if n =? 0 then 1 else n).

Definition super_group_desc_size (f : fs) : Z :=
  if s_desc_size f =? 0 then GROUP_DESC_MIN_SIZE else sizeof ext4_group_desc.

Definition super_inodes_per_group (f : fs) : Z := s_inodes_per_group f.
Definition super_inode_size (f : fs) : Z := s_inode_size f.

(** The log arguments of [super_fill] are evaluated in any build. *)
Definition super_fill (f : fs) : outcome (fs * Z) :=
  sb ← disk_read (fs_disk f) BOOT_SECTOR_SIZE (sizeof ext4_super_block);
  let f := Fs (fs_disk f) sb (fs_gdesc f) in
  c_defined (block_size_shift f <? 64) ;;
  _ ← super_n_block_groups f;
  mret (f, 0).

Definition super_group_inode_table_offset (f : fs) (inode_num : Z) : outcome Z :=
  c_defined (negb (super_inodes_per_group f =? 0)) ;;
  let n_group := inode_num / super_inodes_per_group f in
  n ← super_n_block_groups f;
  c_assert (n_group <? n) ;;
  gd ← from_option_undef (fs_gdesc f !! Z.to_nat n_group);
  mret (s64 (BLOCKS2BYTES f (bg_inode_table_lo gd))).

(** Position of descriptor [i] on the device. *)
Definition group_desc_offset (f : fs) (i : Z) : Z :=
  s64 (ALIGN_TO_BLOCKSIZE f (BOOT_SECTOR_SIZE + sizeof ext4_super_block)
       + (i * super_group_desc_size f)%u32).

(** The loop of [super_group_fill], [todo] descriptors from [i] on. *)
Fixpoint group_fill_loop (f : fs) (todo : nat) (i : Z) : outcome (list (list byte)) :=
  match todo with
  | O => Ret []
  | S todo =>
      c_defined (negb (BLOCK_SIZE f =? 0)) ;;
      gd ← disk_read (fs_disk f) (group_desc_offset f i) (super_group_desc_size f);
      gds ← group_fill_loop f todo (i + 1);
      mret (gd :: gds)
  end.

Definition super_group_fill (f : fs) : outcome (fs * Z) :=
  n ← super_n_block_groups f;
  gds ← group_fill_loop f (Z.to_nat n) 0;
  mret (Fs (fs_disk f) (fs_super f) gds, 0).

(** ** Geometry *)

(** A super block the code can work with: a block size of at most 2 GiB and
    groups that hold blocks and inodes. *)
Record geometry (f : fs) : Prop := {
  geo_shift : s_log_block_size f <= 21;
  geo_bpg : 0 < s_blocks_per_group f;
  geo_ipg : 0 < s_inodes_per_group f;
  geo_fd : 0 <= disk_fd (fs_disk f);
  geo_dev : dev_size (fs_disk f) < 2 ^ 63 }.

Lemma super_field_fits f n off w :
  assoc n (place ext4_super_block 0) = Some (off, w) -> 0 <= w -> fits (8 * w) (super_field f n).
Proof. apply field_fits. Qed.

Lemma s_log_fits f : fits 32 (s_log_block_size f).
Proof. by eapply (super_field_fits f _ _ 4). Qed.
Lemma s_bpg_fits f : fits 32 (s_blocks_per_group f).
Proof. by eapply (super_field_fits f _ _ 4). Qed.
Lemma s_ipg_fits f : fits 32 (s_inodes_per_group f).
Proof. by eapply (super_field_fits f _ _ 4). Qed.
Lemma s_inode_size_fits f : fits 16 (s_inode_size f).
Proof. by eapply (super_field_fits f _ _ 2). Qed.
#[export] Hint Resolve s_log_fits s_bpg_fits s_ipg_fits s_inode_size_fits : words.

Lemma block_size_pow f :
  s_log_block_size f <= 21 -> BLOCK_SIZE f = 2 ^ (s_log_block_size f + 10).
Proof.
  intros H. pose proof (s_log_fits f) as [H0 _].
  unfold super_block_size, block_size_shift, wadd, wshl.
  rewrite (u32_small (_ + _)) by lia. rewrite Z.shiftl_mul_pow2, Z.mul_1_l by lia.
  assert (2 ^ (s_log_block_size f + 10) < 2 ^ 32) by (apply Z.pow_lt_mono_r; lia).
  pose proof (pow2_pos (s_log_block_size f + 10) ltac:(lia)).
  rewrite u64_small, u32_small; lia.
Qed.

Lemma block_size_range f : geometry f -> 1024 <= BLOCK_SIZE f <= 2 ^ 31.
Proof.
  intros [Hs _ _ _ _]. pose proof (s_log_fits f) as [H0 _]. rewrite block_size_pow by done. split.
  - change 1024 with (2 ^ 10). apply Z.pow_le_mono_r; lia.
  - apply Z.pow_le_mono_r; lia.
Qed.

Lemma group_desc_size_cases f : super_group_desc_size f = 32 \/ super_group_desc_size f = 64.
Proof. unfold super_group_desc_size. destruct (_ =? 0); [left|right]; done. Qed.

(** A member of a structure read from [a] on. *)
Lemma field_dev_bytes d l n a sz off w :
  assoc n (place l 0) = Some (off, w) -> 0 <= off -> 0 <= w -> off + w <= sz ->
  field l n (dev_bytes d a sz) = le_decode (dev_bytes d (a + off) w).
Proof.
  intros E Ho Hw Hsz. unfold field. rewrite E.
  pose proof (load_dev_bytes d a sz off w Ho Hw Hsz) as HL.
  unfold load_bytes in HL. rewrite length_dev_bytes, !(proj2 (Z.leb_le _ _)) in HL by lia.
  simplify_eq/=. by rewrite HL.
Qed.

(** ** [ALIGN_TO] *)

Lemma mask_low k : 0 <= k < 32 -> wnot 32 (2 ^ k - 1)%u32 = 2 ^ 32 - 2 ^ k.
Proof.
  intros Hk. assert (2 ^ k < 2 ^ 32) by (apply Z.pow_lt_mono_r; lia).
  pose proof (pow2_pos k ltac:(lia)). unfold wnot, wsub.
  rewrite (u32_small (2 ^ k - 1)) by lia. unfold Z.lnot. unfold wrap.
  replace (Z.pred (- (2 ^ k - 1))) with (2 ^ 32 - 2 ^ k + (-1) * 2 ^ 32) by lia.
  rewrite Z_mod_plus_full. apply Z.mod_small. lia.
Qed.

Lemma land_mask_low n k :
  0 <= k < 32 -> 0 <= n -> Z.land n (2 ^ 32 - 2 ^ k) = u32 n / 2 ^ k * 2 ^ k.
Proof.
  intros Hk Hn. rewrite <- Z.shiftr_div_pow2, <- Z.shiftl_mul_pow2 by lia.
  replace (2 ^ 32 - 2 ^ k) with (Z.shiftl (Z.ones (32 - k)) k).
  - apply Z.bits_inj'. intros i Hi.
    rewrite Z.land_spec, !Z.shiftl_spec by lia. destruct (Z.ltb_spec i k).
    { rewrite !(Z.testbit_neg_r _ (i - k)) by lia. apply andb_false_r. }
    rewrite Z.shiftr_spec, testbit_wrap, Z.testbit_ones_nonneg by lia.
    replace (i - k + k) with i by lia.
    destruct (Z.ltb_spec (i - k) (32 - k)), (Z.ltb_spec i 32); try lia; by destruct (Z.testbit n i).
  - rewrite Z.shiftl_mul_pow2, Z.ones_equiv by lia.
    replace (2 ^ 32) with (2 ^ (32 - k) * 2 ^ k) by (rewrite <- Z.pow_add_r by lia; f_equal; lia). lia.
Qed.

Lemma align_to_eq n k :
  0 <= k < 32 -> fits 64 n ->
  ALIGN_TO n (2 ^ k) = if n mod 2 ^ k =? 0 then n else u32 n / 2 ^ k * 2 ^ k + 2 ^ k.
Proof.
  intros Hk [Hn _]. unfold ALIGN_TO. destruct (_ =? 0); [done|].
  rewrite mask_low, land_mask_low by lia. apply u64_small.
  pose proof (pow2_pos k ltac:(lia)). assert (2 ^ k < 2 ^ 32) by (apply Z.pow_lt_mono_r; lia).
  pose proof (wrap_fits 32 n ltac:(lia)) as [? ?].
  pose proof (Z.mul_div_le (u32 n) (2 ^ k)). pose proof (Z.div_pos (u32 n) (2 ^ k)). nia.
Qed.

(** [ALIGN_TO] on a 64-bit [n] and a 32-bit power of two rounds [n] up to
    the next multiple as long as [n] is below 4 GiB; above, the 32-bit mask
    drops the high half of an unaligned [n] and the result is at most 4 GiB,
    below [n]. *)
Theorem align_to_rounds_up n k :
  0 <= k < 32 -> fits 64 n ->
  (n < 2 ^ 32 -> ALIGN_TO n (2 ^ k) = (n + 2 ^ k - 1) / 2 ^ k * 2 ^ k) /\
  (2 ^ 32 < n -> n mod 2 ^ k <> 0 -> ALIGN_TO n (2 ^ k) <= 2 ^ 32 < n).
Proof.
  intros Hk Hn. rewrite align_to_eq by done. pose proof (pow2_pos k ltac:(lia)) as Hp.
  pose proof (Z.mod_pos_bound n (2 ^ k) Hp). pose proof (Z.div_mod n (2 ^ k)) as Hdm.
  destruct Hn as [Hn _]. split; intros Hlt.
  - rewrite u32_small by lia. destruct (Z.eqb_spec (n mod 2 ^ k) 0) as [E|E].
    + replace (n + 2 ^ k - 1) with (2 ^ k - 1 + n / 2 ^ k * 2 ^ k) by lia.
      rewrite Z.div_add, (Z.div_small (2 ^ k - 1)) by lia. lia.
    + replace (n + 2 ^ k - 1) with (n mod 2 ^ k - 1 + (n / 2 ^ k + 1) * 2 ^ k) by lia.
      rewrite Z.div_add, (Z.div_small (n mod 2 ^ k - 1)) by lia. lia.
  - intros E%Z.eqb_neq. rewrite E. split; [|done].
    pose proof (wrap_fits 32 n ltac:(lia)) as [_ Hu].
    assert (E32 : 2 ^ 32 = 2 ^ (32 - k) * 2 ^ k) by (rewrite <- Z.pow_add_r by lia; f_equal; lia).
    assert (u32 n / 2 ^ k < 2 ^ (32 - k)) by (apply Z.div_lt_upper_bound; lia). nia.
Qed.

Lemma align_to_rounds_up_witness :
  ALIGN_TO 1500 (2 ^ 10) = 2048 /\ ALIGN_TO (2 ^ 33 + 1) (2 ^ 10) <= 2 ^ 32 < 2 ^ 33 + 1.
Proof.
  split.
  - refine (proj1 (align_to_rounds_up 1500 10 _ _) _); vm_compute; intuition discriminate.
  - refine (proj2 (align_to_rounds_up (2 ^ 33 + 1) 10 _ _) _ _); vm_compute; intuition discriminate.
Defined.

(** ** The descriptor table *)

(** Where the table starts: the block after the super block. *)
Definition group_table_offset (f : fs) : Z := Z.max 2048 (BLOCK_SIZE f).

Lemma group_desc_offset_eq f i :
  geometry f -> 0 <= i -> i * super_group_desc_size f < 2 ^ 32 ->
  group_desc_offset f i = group_table_offset f + i * super_group_desc_size f.
Proof.
  intros G Hi Hb. pose proof (block_size_range f G) as Hr.
  pose proof (geo_shift f G) as Hs. pose proof (s_log_fits f) as [Hl _].
  unfold group_desc_offset, ALIGN_TO_BLOCKSIZE, group_table_offset, wmul.
  change (BOOT_SECTOR_SIZE + sizeof ext4_super_block) with 2048.
  destruct (group_desc_size_cases f) as [Es|Es]; rewrite Es in *;
  (rewrite u32_small by lia;
   rewrite block_size_pow in * by done; rewrite align_to_eq by (done || lia);
   replace (if _ =? 0 then _ else _) with (Z.max 2048 (2 ^ (s_log_block_size f + 10)));
   [apply s64_small; lia|]).
  all: destruct (Z.le_gt_cases (s_log_block_size f) 1).
  1,3: assert (s_log_block_size f = 0 \/ s_log_block_size f = 1) as [->| ->] by lia; done.
  all: assert (4096 <= 2 ^ (s_log_block_size f + 10))
    by (change 4096 with (2 ^ 12); apply Z.pow_le_mono_r; lia).
  all: rewrite Z.mod_small, Z.max_r, (u32_small 2048), Z.div_small by lia; done.
Qed.

Lemma group_fill_loop_spec f todo i :
  geometry f -> 0 <= i ->
  (i + Z.of_nat todo) * super_group_desc_size f < 2 ^ 32 ->
  group_table_offset f + (i + Z.of_nat todo) * super_group_desc_size f <= dev_size (fs_disk f) ->
  group_fill_loop f todo i
  = Ret ((fun j => dev_bytes (fs_disk f)
                     (group_table_offset f + (i + Z.of_nat j) * super_group_desc_size f)
                     (super_group_desc_size f)) <$> seq 0 todo).
Proof.
  intros G. revert i. induction todo as [|todo IH]; intros i Hi Hb Hd; [done|].
  pose proof (block_size_range f G). pose proof (group_desc_size_cases f).
  cbn [group_fill_loop seq]. rewrite group_desc_offset_eq by (done || nia).
  destruct (Z.eqb_spec (BLOCK_SIZE f) 0); [lia|]. cbn.
  unfold disk_read. rewrite disk_read_in;
    [|apply (geo_fd f G)|unfold group_table_offset in *; nia|unfold MAX_RW_COUNT; lia
     |pose proof (geo_dev f G); nia].
  cbn. rewrite IH by nia. cbn. do 2 f_equal.
  - f_equal. lia.
  - rewrite <- seq_shift, <- list_fmap_compose. apply list_fmap_ext.
    intros j x _. cbn. f_equal. lia.
Qed.

Lemma n_block_groups_Ret f :
  geometry f -> exists n, super_n_block_groups f = Ret n /\ 1 <= n < 2 ^ 32.
Proof.
  intros G. pose proof (geo_bpg f G). unfold super_n_block_groups.
  destruct (Z.eqb_spec (s_blocks_per_group f) 0); [lia|]. cbn.
  pose proof (wsub_fits 32 (s_blocks_count_lo f + s_blocks_per_group f)%u32 1 ltac:(lia)) as [H0 H1].
  eexists. split; [done|]. cbv zeta.
  assert (0 <= (s_blocks_count_lo f + s_blocks_per_group f - 1)%u32 / s_blocks_per_group f < 2 ^ 32).
  { split; [apply Z.div_pos; lia|]. apply Z.div_lt_upper_bound; nia. }
  destruct (Z.eqb_spec ((s_blocks_count_lo f + s_blocks_per_group f - 1)%u32 / s_blocks_per_group f) 0); lia.
Qed.

(** on a device that holds the whole table, [super_group_fill] loads one
    descriptor per block group from the block after the super block on, and
    [super_group_inode_table_offset] then sends an inode of group [g] to the
    byte offset of the block that bytes 8-11 of descriptor [g] on the device
    name; an inode past the last group stops the process. *)
Theorem group_table_located f n :
  geometry f -> super_n_block_groups f = Ret n ->
  n * super_group_desc_size f < 2 ^ 32 ->
  group_table_offset f + n * super_group_desc_size f <= dev_size (fs_disk f) ->
  exists f', super_group_fill f = Ret (f', 0) /\
    fs_disk f' = fs_disk f /\ fs_super f' = fs_super f /\ length (fs_gdesc f') = Z.to_nat n /\
    forall ino, 0 <= ino ->
      super_group_inode_table_offset f' ino =
      let g := ino / s_inodes_per_group f in
      if g <? n then
        Ret (le_decode (dev_bytes (fs_disk f)
               (group_table_offset f + g * super_group_desc_size f + 8) 4) * BLOCK_SIZE f)
      else AssertFail.
Proof.
  intros G Hn Hb Hd. pose proof (group_desc_size_cases f) as Hsz.
  destruct (n_block_groups_Ret f G) as (n' & Hn' & Hpos). rewrite Hn' in Hn. injection Hn as ->.
  unfold super_group_fill. rewrite Hn'. cbn [mbind outcome_bind].
  rewrite group_fill_loop_spec by (rewrite ?Z2Nat.id by lia; done || lia).
  cbn. eexists. split; [done|]. cbn. repeat split.
  { by rewrite length_fmap, length_seq. }
  intros ino Hino. pose proof (geo_ipg f G) as Hipg.
  unfold super_group_inode_table_offset, super_inodes_per_group.
  set (f' := Fs _ _ _). change (s_inodes_per_group f') with (s_inodes_per_group f).
  change (super_n_block_groups f') with (super_n_block_groups f). rewrite Hn'.
  destruct (Z.eqb_spec (s_inodes_per_group f) 0); [lia|]. cbn.
  pose proof (Z.div_pos ino (s_inodes_per_group f)) as Hg0.
  destruct (Z.ltb_spec (ino / s_inodes_per_group f) n) as [Hg|]; [|done]. cbn.
  rewrite list_lookup_fmap, lookup_seq_lt by lia. cbn. f_equal.
  rewrite Z2Nat.id by lia. unfold BLOCKS2BYTES, bg_inode_table_lo, wmul.
  rewrite (field_dev_bytes _ _ _ _ _ 8 4) by (done || lia).
  change (BLOCK_SIZE f') with (BLOCK_SIZE f).
  set (a := _ + 8). pose proof (le_decode_fits (dev_bytes (fs_disk f) a 4)) as Ha.
  rewrite length_dev_bytes in Ha. destruct Ha as [Ha0 Ha]. change (2 ^ _) with (2 ^ 32) in Ha.
  pose proof (block_size_range f G) as Hbs.
  rewrite u64_small by nia. apply s64_small. nia.
Qed.

(** The sample image, its super block and its descriptors loaded. *)
Definition sample_boot : outcome (fs * Z) :=
  '(f, _) ← super_fill (Fs sample_image [] []); super_group_fill f.

Definition sample_super : fs := Fs sample_image (dev_bytes sample_image 1024 1024) [].
Definition sample_fs : fs := Fs sample_image (dev_bytes sample_image 1024 1024)
  [dev_bytes sample_image 2048 32].

Example sample_boot_fs :
  (fun r => (fs_super (fst r), fs_gdesc (fst r))) <$> sample_boot
  = Ret (fs_super sample_fs, fs_gdesc sample_fs).
Proof. vm_compute. reflexivity. Qed.

Lemma sample_geometry : geometry sample_super.
Proof. split; vm_compute; intuition discriminate. Qed.

Lemma group_table_located_witness :
  exists f', super_group_fill sample_super = Ret (f', 0) /\
    super_group_inode_table_offset f' 13 = Ret (5 * 1024).
Proof.
  destruct (group_table_located sample_super 1 sample_geometry) as (f' & Hf & _ & _ & _ & H).
  1-3: vm_compute; intuition discriminate.
  exists f'. split; [exact Hf|]. rewrite H by lia. vm_compute. reflexivity.
Defined.
