(* ===== verification/Extents.v ===== *)
(** * Extent trees ([src/fuse/extents.c])

    A node of the tree is a block of memory that starts with a header; the
    memory holding the root is the [i_block] array of the inode, every other
    node is copied from its block.  The output parameter [len] is the second
    component of an answer: [Some] of what the code stores, [None] when it
    stores nothing. *)

From S2P Require Import Prelude Bytes Layout Disk Image Super.

Definition EXT4_EXT_MAGIC : Z := 0xf30a.

Definition eh_magic (eh : list byte) : Z := field ext4_extent_header "eh_magic" eh.
Definition eh_entries (eh : list byte) : Z := field ext4_extent_header "eh_entries" eh.
Definition eh_depth (eh : list byte) : Z := field ext4_extent_header "eh_depth" eh.
Definition ee_block (ee : list byte) : Z := field ext4_extent "ee_block" ee.
Definition ee_len (ee : list byte) : Z := field ext4_extent "ee_len" ee.
Definition ee_start_hi (ee : list byte) : Z := field ext4_extent "ee_start_hi" ee.
Definition ee_start_lo (ee : list byte) : Z := field ext4_extent "ee_start_lo" ee.
Definition ei_block (ei : list byte) : Z := field ext4_extent_idx "ei_block" ei.
Definition ei_leaf_lo (ei : list byte) : Z := field ext4_extent_idx "ei_leaf_lo" ei.
Definition ei_leaf_hi (ei : list byte) : Z := field ext4_extent_idx "ei_leaf_hi" ei.

Definition sizeof_header : Z := sizeof ext4_extent_header.

(** Element [i] of the array of 12-byte records after the header. *)
Definition record_at (mem : list byte) (i : Z) : outcome (list byte) :=
  load_bytes mem (sizeof_header + i * sizeof ext4_extent) (sizeof ext4_extent).

(** The loop of [extent_get_block_from_ees]: [todo] entries from [i] on.  The
    answer is the index, the offset in it and the length left. *)
Fixpoint ees_loop (mem : list byte) (lblock : Z) (todo : nat) (i : Z) : outcome (option (Z * Z * Z)) :=
  match todo with
  | O => Ret None
  | S todo =>
      ee ← record_at mem i;
      c_assert (ee_start_hi ee =? 0) ;;
      if lblock <? (ee_block ee + ee_len ee)%u32
      then Ret (Some (i, (lblock - ee_block ee)%u32, (ee_block ee + ee_len ee - lblock)%u32))
      else ees_loop mem lblock todo (i + 1)
  end.

Definition extent_get_block_from_ees (mem : list byte) (n_ee lblock : Z) : outcome (Z * option Z) :=
  found ← ees_loop mem lblock (Z.to_nat n_ee) 0;
  match found with
  | None => Ret (0, None)
  | Some (block_ext_index, block_ext_offset, len) =>
      ee ← record_at mem block_ext_index;
      mret ((ee_start_lo ee + block_ext_offset)%u32, Some len)
  end.

Definition extent_get_extents_in_block (f : fs) (block : Z) : outcome (list byte) :=
  eh ← disk_read (fs_disk f) (BLOCKS2BYTES f block) sizeof_header;
  let extents_len := u32 (eh_entries eh * sizeof ext4_extent + sizeof_header) in
  disk_read (fs_disk f) (BLOCKS2BYTES f block) extents_len.

(** The index loop of [extent_get_pblock]: the last entry whose first logical
    block is not past [lblock]. *)
Fixpoint idx_loop (mem : list byte) (lblock : Z) (todo : nat) (i : Z)
    (recurse_ei : option (list byte)) : outcome (option (list byte)) :=
  match todo with
  | O => Ret recurse_ei
  | S todo =>
      ei ← record_at mem i;
      c_assert (ei_leaf_hi ei =? 0) ;;
      if lblock <? ei_block ei then Ret recurse_ei
      else idx_loop mem lblock todo (i + 1) (Some ei)
  end.

(** [fuel] bounds the depth of the recursion. *)
Fixpoint extent_get_pblock (fuel : nat) (f : fs) (extents : list byte) (lblock : Z) : outcome (Z * option Z) :=
  match fuel with
  | O => OutOfFuel
  | S fuel =>
      eh ← load_bytes extents 0 sizeof_header;
      c_assert (eh_magic eh =? EXT4_EXT_MAGIC) ;;
      if eh_depth eh =? 0 then extent_get_block_from_ees extents (eh_entries eh) lblock
      else
        recurse_ei ← idx_loop extents lblock (Z.to_nat (eh_entries eh)) 0 None;
        match recurse_ei with
        | None => AssertFail
        | Some ei =>
            leaf_extents ← extent_get_extents_in_block f (ei_leaf_lo ei);
            extent_get_pblock fuel f leaf_extents lblock
        end
  end.

(** ** The tree as a value

    [read_tree] loads the whole tree; it answers [Ret] when every node carries
    the magic number and no entry uses the high half of a block number. *)

Record extent := Extent { x_block : Z; x_len : Z; x_start : Z }.

Inductive etree :=
  | Leaf (es : list extent)
  | Node (ixs : list (Z * etree)).

Definition extent_of (ee : list byte) : extent := Extent (ee_block ee) (ee_len ee) (ee_start_lo ee).

Fixpoint read_leaf (mem : list byte) (todo : nat) (i : Z) : outcome (list extent) :=
  match todo with
  | O => Ret []
  | S todo =>
      ee ← record_at mem i;
      c_assert (ee_start_hi ee =? 0) ;;
      es ← read_leaf mem todo (i + 1);
      mret (extent_of ee :: es)
  end.

Fixpoint read_index (child : Z -> outcome etree) (mem : list byte) (todo : nat) (i : Z) : outcome (list (Z * etree)) :=
  match todo with
  | O => Ret []
  | S todo =>
      ei ← record_at mem i;
      c_assert (ei_leaf_hi ei =? 0) ;;
      t ← child (ei_leaf_lo ei);
      ixs ← read_index child mem todo (i + 1);
      mret ((ei_block ei, t) :: ixs)
  end.

Fixpoint read_tree (fuel : nat) (f : fs) (mem : list byte) : outcome etree :=
  match fuel with
  | O => OutOfFuel
  | S fuel =>
      eh ← load_bytes mem 0 sizeof_header;
      c_assert (eh_magic eh =? EXT4_EXT_MAGIC) ;;
      if eh_depth eh =? 0 then Leaf <$> read_leaf mem (Z.to_nat (eh_entries eh)) 0
      else
        Node <$> read_index (fun b => m ← extent_get_extents_in_block f b; read_tree fuel f m)
                   mem (Z.to_nat (eh_entries eh)) 0
  end.

(** All extents of the tree, and the block a logical block is mapped to. *)
Fixpoint flat (t : etree) : list extent :=
  match t with
  | Leaf es => es
  | Node ixs => concat (map (fun '(_, t) => flat t) ixs)
  end.

Definition covers (l : Z) (e : extent) : bool := (x_block e <=? l) && (l <? x_block e + x_len e).

Definition mapped (es : list extent) (l : Z) : option Z :=
  match List.find (covers l) es with
  | Some e => Some (x_start e + (l - x_block e))
  | None => None
  end.

(** Sorted and disjoint extents within [[lo, hi)], on 32-bit blocks. *)
Fixpoint wf_leaf (lo hi : Z) (es : list extent) : Prop :=
  match es with
  | [] => lo <= hi
  | e :: es => lo <= x_block e /\ 0 < x_len e /\ 0 <= x_start e /\ x_start e + x_len e <= 2 ^ 32 /\
               wf_leaf (x_block e + x_len e) hi es
  end.

Inductive wf_tree : Z -> Z -> etree -> Prop :=
  | wf_Leaf lo hi es : wf_leaf lo hi es -> wf_tree lo hi (Leaf es)
  | wf_Node lo hi ixs : wf_index lo hi ixs -> wf_tree lo hi (Node ixs)
with wf_index : Z -> Z -> list (Z * etree) -> Prop :=
  | wf_last lo k hi t : lo <= k -> wf_tree k hi t -> wf_index lo hi [(k, t)]
  | wf_cons lo k mid hi t ixs :
      lo <= k -> wf_tree k mid t -> wf_index mid hi ixs -> wf_index lo hi ((k, t) :: ixs).

Scheme wf_tree_mut := Induction for wf_tree Sort Prop
  with wf_index_mut := Induction for wf_index Sort Prop.
Combined Scheme wf_mutind from wf_tree_mut, wf_index_mut.

(** ** The walk is a search of the value *)

Fixpoint leaf_search (es : list extent) (l : Z) : Z * option Z :=
  match es with
  | [] => (0, None)
  | e :: es =>
      if l <? (x_block e + x_len e)%u32
      then ((x_start e + (l - x_block e))%u32, Some (x_block e + x_len e - l)%u32)
      else leaf_search es l
  end.

Fixpoint last_before (l : Z) (ixs : list (Z * etree)) (acc : option etree) : option etree :=
  match ixs with
  | [] => acc
  | (k, t) :: ixs => if l <? k then acc else last_before l ixs (Some t)
  end.

Lemma leaf_search_loop mem l todo i es :
  read_leaf mem todo i = Ret es ->
  (found ← ees_loop mem l todo i;
   match found with
   | None => Ret (0, None)
   | Some (j, off, len) => ee ← record_at mem j; mret ((ee_start_lo ee + off)%u32, Some len)
   end) = Ret (leaf_search es l).
Proof.
  revert i es. induction todo as [|todo IH]; intros i es H; simpl in *; [by simplify_eq|].
  destruct (record_at mem i) as [ee| | |] eqn:Eee; try discriminate. simpl in *.
  destruct (ee_start_hi ee =? 0); [simpl in *|discriminate].
  apply bind_Ret in H as (es' & Hes & [= <-]). simpl.
  destruct (l <? _); [|by apply IH]. simpl. by rewrite Eee.
Qed.

(** The subtree the index loop picks, and that it was read from. *)
Lemma idx_search_loop child mem l todo i ixs acc accv :
  read_index child mem todo i = Ret ixs ->
  (forall ei, acc = Some ei -> exists t, accv = Some t /\ child (ei_leaf_lo ei) = Ret t) ->
  (acc = None -> accv = None) ->
  exists r, idx_loop mem l todo i acc = Ret r /\
    match r with
    | None => last_before l ixs accv = None
    | Some ei => exists t, last_before l ixs accv = Some t /\ child (ei_leaf_lo ei) = Ret t
    end.
Proof.
  revert i ixs acc accv. induction todo as [|todo IH]; intros i ixs acc accv H Hs Hn; simpl in *.
  - simplify_eq. exists acc. split; [done|]. simpl. destruct acc; auto.
  - destruct (record_at mem i) as [ei| | |]; try discriminate. simpl in *.
    destruct (ei_leaf_hi ei =? 0); [simpl in *|discriminate].
    apply bind_Ret in H as (t & Ht & H). apply bind_Ret in H as (ixs' & Hixs & [= <-]). simpl.
    destruct (l <? ei_block ei).
    + exists acc. split; [done|]. destruct acc; auto.
    + apply (IH (i + 1) ixs' (Some ei) (Some t)); [done| |done]. intros ? [= <-]. eauto.
Qed.

(** Depth of the leaf a search ends in, as a relation on trees. *)
Inductive search : etree -> Z -> outcome (Z * option Z) -> Prop :=
  | search_leaf es l : search (Leaf es) l (Ret (leaf_search es l))
  | search_none ixs l : last_before l ixs None = None -> search (Node ixs) l AssertFail
  | search_node ixs l t r :
      last_before l ixs None = Some t -> search t l r -> search (Node ixs) l r.

Lemma walk_search fuel f mem t l :
  read_tree fuel f mem = Ret t -> search t l (extent_get_pblock fuel f mem l).
Proof.
  revert mem t. induction fuel as [|fuel IH]; intros mem t H; [done|].
  cbn [read_tree extent_get_pblock] in *.
  destruct (load_bytes mem 0 sizeof_header) as [eh| | |]; try discriminate. simpl in *.
  destruct (eh_magic eh =? _); [simpl in *|discriminate].
  destruct (eh_depth eh =? 0).
  - destruct (read_leaf _ _ _) as [es| | |] eqn:Hes; simplify_eq/=.
    unfold extent_get_block_from_ees. rewrite (leaf_search_loop _ _ _ _ es) by done. constructor.
  - destruct (read_index _ _ _ _) as [ixs| | |] eqn:Hix; simplify_eq/=.
    destruct (idx_search_loop _ _ l _ _ _ None None Hix) as ([ei|] & -> & Hr); [done|done| |].
    + destruct Hr as (t & Hlast & Hchild). apply bind_Ret in Hchild as (m & Hm & Ht).
      simpl. rewrite Hm. simpl. by eapply search_node, IH.
    + by apply search_none.
Qed.

(** ** Searching well-formed trees *)

Lemma wf_leaf_bounds lo hi es :
  wf_leaf lo hi es -> lo <= hi /\ Forall (fun e => lo <= x_block e /\ x_block e + x_len e <= hi /\
    0 < x_len e /\ 0 <= x_start e /\ x_start e + x_len e <= 2 ^ 32) es.
Proof.
  revert lo. induction es as [|e es IH]; intros lo H; simpl in *; [by split|].
  destruct H as (H1 & H2 & H3 & H4 & [H5 H6]%IH). split; [lia|].
  constructor; [lia|]. eapply Forall_impl; [exact H6|]. simpl. lia.
Qed.

Lemma wf_bounds :
  (forall lo hi t, wf_tree lo hi t -> lo <= hi /\
     Forall (fun e => lo <= x_block e /\ x_block e + x_len e <= hi /\
       0 < x_len e /\ 0 <= x_start e /\ x_start e + x_len e <= 2 ^ 32) (flat t)) /\
  (forall lo hi ixs, wf_index lo hi ixs -> lo <= hi /\
     Forall (fun e => lo <= x_block e /\ x_block e + x_len e <= hi /\
       0 < x_len e /\ 0 <= x_start e /\ x_start e + x_len e <= 2 ^ 32) (flat (Node ixs)) /\
     Forall (fun '(k, _) => lo <= k) ixs).
Proof.
  apply wf_mutind; simpl.
  - apply wf_leaf_bounds.
  - tauto.
  - intros lo k hi t Hk _ [Hle HF]. rewrite app_nil_r. repeat split; [lia| |].
    + eapply Forall_impl; [exact HF|]. simpl. lia.
    + by constructor.
  - intros lo k mid hi t ixs Hk _ [Hle HF] _ (Hle2 & HF2 & Hks). repeat split; [lia| |].
    + apply Forall_app. split; (eapply Forall_impl; [eassumption|]; simpl; lia).
    + constructor; [done|]. eapply Forall_impl; [exact Hks|]. intros [? ?]. lia.
Qed.

Definition answer (e : extent) (l : Z) : Z * option Z :=
  (x_start e + (l - x_block e), Some (x_block e + x_len e - l)).

Lemma covers_spec l e : covers l e = true <-> x_block e <= l < x_block e + x_len e.
Proof. unfold covers. rewrite andb_true_iff, Z.leb_le, Z.ltb_lt. lia. Qed.

Lemma leaf_search_covered lo hi es l e :
  wf_leaf lo hi es -> 0 <= lo -> hi < 2 ^ 32 -> In e es -> covers l e = true ->
  leaf_search es l = answer e l.
Proof.
  revert lo. induction es as [|e' es IH]; intros lo H Hlo Hhi He Hc; simpl in *; [done|].
  apply covers_spec in Hc. destruct H as (H1 & H2 & H3 & H4 & H5).
  pose proof (wf_leaf_bounds _ _ _ H5) as [Hle HF]. rewrite List.Forall_forall in HF.
  unfold wadd, wsub. rewrite (u32_small (x_block e' + x_len e')) by lia.
  destruct He as [->|He].
  - rewrite (proj2 (Z.ltb_lt _ _)) by lia. unfold answer.
    rewrite (u32_small (l - x_block e)), !u32_small by lia. done.
  - apply HF in He as Hb. rewrite (proj2 (Z.ltb_ge _ _)) by lia.
    eapply IH; [exact H5|lia|lia|done|]. apply covers_spec. lia.
Qed.

Lemma last_before_stop l lo ixs acc :
  Forall (fun '(k, _) => lo <= k) ixs -> l < lo -> last_before l ixs acc = acc.
Proof.
  intros HF Hl. destruct ixs as [|[k t] ixs]; [done|]. simpl.
  inversion HF as [|? ? Hk]; subst. simpl in Hk. by rewrite (proj2 (Z.ltb_lt _ _)) by lia.
Qed.

Lemma search_mutual l e :
  (forall lo hi t, wf_tree lo hi t -> 0 <= lo -> hi < 2 ^ 32 -> In e (flat t) ->
     covers l e = true -> forall r, search t l r -> r = Ret (answer e l)) /\
  (forall lo hi ixs, wf_index lo hi ixs -> 0 <= lo -> hi < 2 ^ 32 -> In e (flat (Node ixs)) ->
     covers l e = true -> forall acc, exists t, last_before l ixs acc = Some t /\
       forall r, search t l r -> r = Ret (answer e l)).
Proof.
  apply wf_mutind.
  - intros lo hi es Hes Hlo Hhi He Hc r Hr. inversion Hr; subst.
    by erewrite leaf_search_covered.
  - intros lo hi ixs _ IH Hlo Hhi He Hc r Hr. destruct (IH Hlo Hhi He Hc None) as (t & Ht & IHt).
    inversion Hr; subst; [congruence|]. apply IHt. congruence.
  - intros lo k hi t Hk Hwf IH Hlo Hhi He Hc acc. simpl in He. rewrite app_nil_r in He.
    pose proof (proj1 wf_bounds _ _ _ Hwf) as [_ HF]. rewrite List.Forall_forall in HF.
    apply HF in He as Hb. apply covers_spec in Hc as Hc'. simpl.
    rewrite (proj2 (Z.ltb_ge _ _)) by lia. exists t. split; [done|]. apply IH; (done || lia).
  - intros lo k mid hi t ixs Hk Hwf IH Hix IHix Hlo Hhi He Hc acc.
    pose proof (proj1 wf_bounds _ _ _ Hwf) as [Hkm HF]. rewrite List.Forall_forall in HF.
    pose proof (proj2 wf_bounds _ _ _ Hix) as (Hmh & HF2 & Hks). rewrite List.Forall_forall in HF2.
    apply covers_spec in Hc as Hc'. simpl in He. apply in_app_or in He as [He|He]; simpl.
    + apply HF in He as Hb. rewrite (proj2 (Z.ltb_ge _ _)) by lia.
      rewrite (last_before_stop l mid) by (done || lia). exists t. split; [done|].
      apply IH; (done || lia).
    + apply HF2 in He as Hb. rewrite (proj2 (Z.ltb_ge _ _)) by lia. apply IHix; (done || lia).
Qed.

Lemma search_mapped lo hi t l e r :
  wf_tree lo hi t -> 0 <= lo -> hi < 2 ^ 32 -> In e (flat t) -> covers l e = true ->
  search t l r -> r = Ret (answer e l).
Proof. intros. by eapply (proj1 (search_mutual l e)). Qed.

Lemma mapped_inv es l p :
  mapped es l = Some p -> exists e, In e es /\ covers l e = true /\ p = x_start e + (l - x_block e).
Proof.
  unfold mapped. destruct (List.find (covers l) es) as [e|] eqn:E; [|done]. intros [= <-].
  apply List.find_some in E as [? ?]. eauto.
Qed.

Lemma mapped_covered es l e : In e es -> covers l e = true -> exists p, mapped es l = Some p.
Proof.
  intros He Hc. unfold mapped. destruct (List.find (covers l) es) eqn:E; [eauto|].
  by eapply List.find_none in E; [|exact He]; rewrite Hc in E.
Qed.

Lemma pblock_extent fuel f mem t lo hi l p :
  read_tree fuel f mem = Ret t -> wf_tree lo hi t -> 0 <= lo -> hi < 2 ^ 32 ->
  mapped (flat t) l = Some p ->
  exists n, extent_get_pblock fuel f mem l = Ret (p, Some n) /\ 0 < n /\
    forall j, 0 <= j < n -> mapped (flat t) (l + j) = Some (p + j).
Proof.
  intros Ht Hwf Hlo Hhi Hm. apply mapped_inv in Hm as (e & He & Hc & ->).
  apply covers_spec in Hc as Hb. exists (x_block e + x_len e - l). split; [|split; [lia|]].
  - by eapply search_mapped, walk_search.
  - intros j Hj. assert (covers (l + j) e = true) as Hcj by (apply covers_spec; lia).
    destruct (mapped_covered _ _ _ He Hcj) as (p & Hp). rewrite Hp. f_equal.
    apply mapped_inv in Hp as (e' & He' & Hc' & ->).
    pose proof (walk_search _ _ _ _ (l + j) Ht) as Hw.
    pose proof (search_mapped _ _ _ _ _ _ Hwf Hlo Hhi He Hcj Hw) as E1.
    pose proof (search_mapped _ _ _ _ _ _ Hwf Hlo Hhi He' Hc' Hw) as E2.
    rewrite E1 in E2. unfold answer in E2. injection E2. lia.
Qed.

(** C5: walking the index of a well-formed extent tree finds, for every logical
    block some extent of the tree covers, the physical block a search of all
    extents gives, and stores in [len] a length such that the next [len]
    logical blocks, the requested one included, are on consecutive physical
    blocks. *)
Theorem extent_lookup_mapped fuel f mem t lo hi l p :
  read_tree fuel f mem = Ret t -> wf_tree lo hi t -> 0 <= lo -> hi < 2 ^ 32 ->
  mapped (flat t) l = Some p ->
  exists n, extent_get_pblock fuel f mem l = Ret (p, Some n) /\ 0 < n /\
    forall j, 0 <= j < n -> mapped (flat t) (l + j) = Some (p + j).
Proof. apply pblock_extent. Qed.

(** ** Holes *)

Lemma leaf_search_hole lo hi es l :
  wf_leaf lo hi es -> 0 <= lo -> hi < 2 ^ 32 -> 0 <= l < 2 ^ 32 -> mapped es l = None ->
  leaf_search es l =
    match List.find (fun e => l <? x_block e) es with
    | None => (0, None)
    | Some e => (u32 (x_start e - (x_block e - l)), Some (x_block e + x_len e - l))
    end.
Proof.
  revert lo. induction es as [|e es IH]; intros lo H Hlo Hhi Hl Hm; [done|].
  simpl in H. destruct H as (H1 & H2 & H3 & H4 & H5).
  pose proof (wf_leaf_bounds _ _ _ H5) as [Hle _].
  unfold mapped in *. cbn [List.find leaf_search] in *.
  destruct (covers l e) eqn:Hc; [done|].
  assert (~ (x_block e <= l < x_block e + x_len e)) as Hn by (rewrite <- covers_spec; congruence).
  unfold wadd, wsub. rewrite (u32_small (x_block e + x_len e)) by lia.
  destruct (Z.ltb_spec l (x_block e)).
  - rewrite (proj2 (Z.ltb_lt _ _)) by lia. rewrite (u32_small (_ + _ - _)) by lia. f_equal.
    unfold wrap. rewrite Zplus_mod_idemp_r. f_equal. lia.
  - rewrite (proj2 (Z.ltb_ge _ _)) by lia. apply (IH (x_block e + x_len e)); (done || lia).
Qed.

(** Behind the whole tree every block is a hole, and is read as one. *)
Lemma leaf_search_behind lo hi es l :
  wf_leaf lo hi es -> 0 <= lo -> hi < 2 ^ 32 -> hi <= l -> leaf_search es l = (0, None).
Proof.
  revert lo. induction es as [|e es IH]; intros lo H Hlo Hhi Hl; cbn [leaf_search wf_leaf] in *; [done|].
  destruct H as (H1 & H2 & H3 & H4 & H5). pose proof (wf_leaf_bounds _ _ _ H5) as [Hle _].
  unfold wadd. rewrite u32_small, (proj2 (Z.ltb_ge _ _)) by lia. apply (IH (x_block e + x_len e)); (done || lia).
Qed.

Lemma search_behind_mutual l :
  (forall lo hi t, wf_tree lo hi t -> 0 <= lo -> hi < 2 ^ 32 -> hi <= l ->
     forall r, search t l r -> r = Ret (0, None)) /\
  (forall lo hi ixs, wf_index lo hi ixs -> 0 <= lo -> hi < 2 ^ 32 -> hi <= l ->
     forall acc, exists t, last_before l ixs acc = Some t /\ forall r, search t l r -> r = Ret (0, None)).
Proof.
  apply wf_mutind.
  - intros lo hi es Hes Hlo Hhi Hl r Hr. inversion Hr; subst. by erewrite leaf_search_behind.
  - intros lo hi ixs _ IH Hlo Hhi Hl r Hr. destruct (IH Hlo Hhi Hl None) as (t & Ht & IHt).
    inversion Hr; subst; [congruence|]. apply IHt. congruence.
  - intros lo k hi t Hk Hwf IH Hlo Hhi Hl acc. pose proof (proj1 wf_bounds _ _ _ Hwf) as [Hle _]. cbn [last_before].
    rewrite (proj2 (Z.ltb_ge _ _)) by lia. exists t. split; [done|]. apply IH; lia.
  - intros lo k mid hi t ixs Hk Hwf _ Hix IH Hlo Hhi Hl acc.
    pose proof (proj1 wf_bounds _ _ _ Hwf) as [Hle _]. pose proof (proj2 wf_bounds _ _ _ Hix) as (Hmh & _). cbn [last_before].
    rewrite (proj2 (Z.ltb_ge _ _)) by lia. apply IH; lia.
Qed.

Lemma pblock_behind fuel f mem t lo hi l :
  read_tree fuel f mem = Ret t -> wf_tree lo hi t -> 0 <= lo -> hi < 2 ^ 32 -> hi <= l ->
  extent_get_pblock fuel f mem l = Ret (0, None).
Proof. intros Ht Hwf Hlo Hhi Hl. eapply (proj1 (search_behind_mutual l)); eauto using walk_search. Qed.

(** in a leaf (the usual inode), a logical block in no extent reads as a
    hole, answer 0 with [len] untouched, only when every extent lies before
    it.  When an extent follows it, the code answers that extent's start minus
    the distance to it: the block of some other data, not the 0 of a hole. *)
Theorem extent_lookup_hole fuel f mem es lo hi l :
  read_tree fuel f mem = Ret (Leaf es) -> wf_leaf lo hi es -> 0 <= lo -> hi < 2 ^ 32 ->
  0 <= l < 2 ^ 32 -> mapped es l = None ->
  extent_get_pblock fuel f mem l = Ret
    match List.find (fun e => l <? x_block e) es with
    | None => (0, None)
    | Some e => (u32 (x_start e - (x_block e - l)), Some (x_block e + x_len e - l))
    end.
Proof.
  intros Ht Hwf Hlo Hhi Hl Hm. pose proof (walk_search _ _ _ _ l Ht) as Hw.
  inversion Hw as [? ? Hes E| |]; subst. by erewrite leaf_search_hole.
Qed.

(** ** Witnesses *)

(** [i_block] of inode [n] of the sample image. *)
Definition sample_i_block (n : Z) : list byte :=
  dev_bytes sample_image (5 * 1024 + (n - 1) * 128 + 0x28) 60.

Definition sample_tree : etree :=
  Node [(0, Leaf [Extent 0 2 50]); (10, Leaf [Extent 10 1 55; Extent 12 1 57])].

Lemma sample_tree_wf : wf_tree 0 13 sample_tree.
Proof.
  apply wf_Node, (wf_cons _ _ 10); [lia| |apply wf_last; [lia|]];
    constructor; simpl; repeat split; try lia; by vm_compute.
Qed.

Example sample_tree_read : read_tree 2 sample_fs (sample_i_block 16) = Ret sample_tree.
Proof. vm_compute. reflexivity. Qed.

Lemma extent_lookup_mapped_witness :
  exists n, extent_get_pblock 2 sample_fs (sample_i_block 16) 12 = Ret (57, Some n) /\ 0 < n.
Proof.
  destruct (extent_lookup_mapped 2 sample_fs (sample_i_block 16) sample_tree 0 13 12 57
              sample_tree_read sample_tree_wf) as (n & H & Hn & _).
  1-3: vm_compute; intuition congruence.
  exists n. split; [exact H|exact Hn].
Defined.

(** Block 11 of that file is a hole, in a leaf of its own block 56 is read. *)
Definition sample_leaf : list byte := dev_bytes sample_image (41 * 1024) 36.

Example sample_leaf_read :
  read_tree 1 sample_fs sample_leaf = Ret (Leaf [Extent 10 1 55; Extent 12 1 57]).
Proof. vm_compute. reflexivity. Qed.

Lemma sample_leaf_wf : wf_leaf 10 13 [Extent 10 1 55; Extent 12 1 57].
Proof. simpl. repeat split; try lia; by vm_compute. Qed.

Lemma extent_lookup_hole_witness :
  extent_get_pblock 1 sample_fs sample_leaf 11 = Ret (56, Some 2) /\
  extent_get_pblock 1 sample_fs sample_leaf 13 = Ret (0, None).
Proof.
  split.
  - refine (extent_lookup_hole 1 sample_fs sample_leaf _ 10 13 11 sample_leaf_read
              sample_leaf_wf _ _ _ _); vm_compute; intuition congruence.
  - refine (extent_lookup_hole 1 sample_fs sample_leaf _ 10 13 13 sample_leaf_read
              sample_leaf_wf _ _ _ _); vm_compute; intuition congruence.
Defined.
