(* ===== verification/ExtentDepth.v ===== *)
(** * The recursion of [extent_get_pblock] on trees of any content
      ([src/fuse/extents.c])

    [Extents] is about trees that can be read as a whole.  The code goes from
    node to node as long as the depth in the header is not 0, and never
    compares the depths of a node and of the node it found it in. *)

From stdpp Require Import relations.
From S2P Require Import Prelude Bytes Layout Disk Image Super Extents.

(** One level of the recursion: the node it goes on with, [None] at a leaf. *)
Definition next_node (f : fs) (lblock : Z) (extents : list byte) : outcome (option (list byte)) :=
  eh ← load_bytes extents 0 sizeof_header;
  c_assert (eh_magic eh =? EXT4_EXT_MAGIC) ;;
  if eh_depth eh =? 0 then Ret None
  else
    recurse_ei ← idx_loop extents lblock (Z.to_nat (eh_entries eh)) 0 None;
    match recurse_ei with
    | None => AssertFail
    | Some ei => Some <$> extent_get_extents_in_block f (ei_leaf_lo ei)
    end.

Definition node_depth (extents : list byte) : Z :=
  match load_bytes extents 0 sizeof_header with Ret eh => eh_depth eh | _ => 0 end.

Definition descends (f : fs) (lblock : Z) (a b : list byte) : Prop := next_node f lblock a = Ret (Some b).

(** No loop without a bound of its own. *)
Definition bounded {A} (m : outcome A) : Prop := m <> OutOfFuel.

Lemma bounded_bind {A B} (m : outcome A) (k : A -> outcome B) :
  bounded m -> (forall a, bounded (k a)) -> bounded (m ≫= k).
Proof. intros Hm Hk. destruct m; try done. apply Hk. Qed.

Lemma bounded_load_bytes mem off n : bounded (load_bytes mem off n).
Proof. unfold load_bytes. by case_match. Qed.

Lemma bounded_assert b : bounded (c_assert b).
Proof. by destruct b. Qed.

Lemma bounded_ees mem l todo i : bounded (ees_loop mem l todo i).
Proof.
  revert i. induction todo as [|todo IH]; intros i; cbn; [done|].
  apply bounded_bind; [apply bounded_load_bytes|intros ee]. apply bounded_bind; [apply bounded_assert|intros _].
  case_match; [done|apply IH].
Qed.

Lemma bounded_leaf mem n l : bounded (extent_get_block_from_ees mem n l).
Proof.
  apply bounded_bind; [apply bounded_ees|]. intros [[[? ?] ?]|]; [|done].
  apply bounded_bind; [apply bounded_load_bytes|done].
Qed.

Lemma pblock_step n f l a b :
  descends f l a b -> extent_get_pblock (S n) f a l = extent_get_pblock n f b l.
Proof.
  unfold descends, next_node. intros H. cbn [extent_get_pblock].
  destruct (load_bytes a 0 sizeof_header) as [eh| | |]; try done. cbn [mbind outcome_bind] in *.
  destruct (c_assert _); try done. cbn [mbind outcome_bind] in *.
  destruct (eh_depth eh =? 0); [done|].
  destruct (idx_loop _ _ _ _ _) as [[ei|]| | |]; try done. cbn [mbind outcome_bind] in *.
  destruct (extent_get_extents_in_block f (ei_leaf_lo ei)); try done. by injection H as ->.
Qed.

Lemma bounded_idx mem l todo i acc : bounded (idx_loop mem l todo i acc).
Proof.
  revert i acc. induction todo as [|todo IH]; intros i acc; cbn; [done|].
  apply bounded_bind; [apply bounded_load_bytes|intros ei]. apply bounded_bind; [apply bounded_assert|intros _].
  case_match; [done|apply IH].
Qed.

Lemma bounded_disk_read d w n : bounded (disk_read d w n).
Proof.
  assert (bounded (__disk_read d w n)) as H.
  { unfold __disk_read, pread_wrapper. apply bounded_bind; [apply bounded_assert|intros _].
    destruct (pread _ _ _). apply bounded_bind; [done|intros [? ?]]. apply bounded_bind; [apply bounded_assert|done]. }
  unfold disk_read, bounded. by destruct (__disk_read d w n).
Qed.

(** A node that is not followed by another one has been dealt with for good. *)
Lemma pblock_last n f l a :
  (forall b, ~ descends f l a b) ->
  extent_get_pblock (S n) f a l = extent_get_pblock 1 f a l /\ bounded (extent_get_pblock 1 f a l).
Proof.
  unfold descends, next_node. intros H. cbn [extent_get_pblock].
  destruct (load_bytes a 0 sizeof_header) as [eh| | |] eqn:El; try done; [|by apply bounded_load_bytes in El].
  cbn [mbind outcome_bind] in *.
  destruct (c_assert _) eqn:Ea; try done; [|by apply bounded_assert in Ea]. cbn [mbind outcome_bind] in *.
  destruct (eh_depth eh =? 0); [split; [done|apply bounded_leaf]|].
  destruct (idx_loop _ _ _ _ _) as [[ei|]| | |] eqn:Ei; try done; [|by apply bounded_idx in Ei]. cbn [mbind outcome_bind] in *.
  destruct (extent_get_extents_in_block f (ei_leaf_lo ei)) as [b| | |] eqn:Eb; try done; [by destruct (H b)|].
  exfalso. revert Eb. apply bounded_bind; [apply bounded_disk_read|]. intros; apply bounded_disk_read.
Qed.

Lemma node_depth_range mem : 0 <= node_depth mem < 2 ^ 16.
Proof.
  unfold node_depth. destruct (load_bytes mem 0 sizeof_header) as [eh| | |]; try done.
  unfold eh_depth. exact (field_fits ext4_extent_header "eh_depth" eh 6 2 eq_refl ltac:(lia)).
Qed.

Lemma pblock_ends f l n mem :
  (forall a b, rtc (descends f l) mem a -> descends f l a b -> node_depth b < node_depth a) ->
  (Z.to_nat (node_depth mem) <= n)%nat ->
  exists r, bounded r /\ forall fuel, (n < fuel)%nat -> extent_get_pblock fuel f mem l = r.
Proof.
  revert mem. induction n as [|n IH]; intros mem Hd Hn.
  all: assert ({b | descends f l mem b} + {forall b, ~ descends f l mem b}) as [[b Hb]|Hb]
    by (unfold descends; destruct (next_node f l mem) as [[b|]| | |]; [left; by exists b|right..]; done).
  2,4: (exists (extent_get_pblock 1 f mem l); split; [by apply (pblock_last 0)|];
    intros [|fuel] Hf; [lia|by apply pblock_last]).
  all: pose proof (Hd mem b ltac:(constructor) Hb) as Hlt; pose proof (node_depth_range b).
  { lia. }
  destruct (IH b) as (r & Hr & H1); [|lia|].
  { intros x y Hx. apply Hd. by eapply rtc_l. }
  exists r. split; [done|]. intros [|fuel] Hf; [lia|]. rewrite (pblock_step _ _ _ _ b) by done. apply H1. lia.
Qed.

Lemma pblock_cycles f l fuel mem :
  (exists a, rtc (descends f l) mem a /\ tc (descends f l) a a) -> extent_get_pblock fuel f mem l = OutOfFuel.
Proof.
  revert mem. induction fuel as [|fuel IH]; intros mem (a & Ha & Hc); [done|].
  assert (exists b, descends f l mem b /\ rtc (descends f l) b a) as (b & Hb & Hba).
  { destruct Ha as [mem|mem b a Hb Hba]; [|eauto].
    inversion Hc as [? ? Hb|? b ? Hb Hba]; subst; [exists mem; split; [done|constructor]|].
    exists b. split; [done|]. by apply tc_rtc. }
  rewrite (pblock_step _ _ _ _ b) by done. apply IH. eauto.
Qed.

(** C14: the recursion of the extent walk over nodes of any content.  When the
    depth in the headers decreases from each node to the next one on the way to
    a block, as the format says it does, the walk ends -- with an answer, at a
    failed assertion or outside of a node -- within one level more than the
    depth of the root, and never needs more than 65536.  The code relies on
    that and checks it nowhere: when a node leads back to itself, directly or
    through others, the recursion never ends. *)
Theorem extent_recursion_ends f l mem :
  ((forall a b, rtc (descends f l) mem a -> descends f l a b -> node_depth b < node_depth a) ->
   exists r, r <> OutOfFuel /\ forall fuel, node_depth mem < Z.of_nat fuel \/ 2 ^ 16 <= Z.of_nat fuel ->
     extent_get_pblock fuel f mem l = r) /\
  (forall a, rtc (descends f l) mem a -> tc (descends f l) a a -> forall fuel, extent_get_pblock fuel f mem l = OutOfFuel).
Proof.
  pose proof (node_depth_range mem). split.
  - intros Hd. destruct (pblock_ends f l (Z.to_nat (node_depth mem)) mem Hd) as (r & Hr & H1); [done|].
    exists r. split; [done|]. intros fuel Hf. apply H1. lia.
  - intros a Ha Hc fuel. apply pblock_cycles. eauto.
Qed.

(** The index of inode 16 of the sample image, and the same with a leaf that has
    become an index node pointing at itself. *)
Definition cyclic_fs : fs :=
  Fs (image (64 * 1024)
        ((40 * 1024, w16 0xf30a ++ w16 1 ++ w16 84 ++ w16 1 ++ w32 0 ++ w32 0 ++ w32 40 ++ w16 0 ++ w16 0) :: sample_patches))
    (fs_super sample_fs) (fs_gdesc sample_fs).

Definition cyclic_node : list byte := dev_bytes (fs_disk cyclic_fs) (40 * 1024) 24.

Lemma extent_recursion_ends_witness :
  (forall fuel, extent_get_pblock fuel cyclic_fs (sample_i_block 16) 1 = OutOfFuel) /\
  (exists r, r <> OutOfFuel /\ forall fuel, 1 < Z.of_nat fuel -> extent_get_pblock fuel sample_fs (sample_i_block 16) 1 = r).
Proof.
  split.
  - apply (proj2 (extent_recursion_ends cyclic_fs 1 (sample_i_block 16)) cyclic_node).
    + apply rtc_once. vm_compute. reflexivity.
    + apply tc_once. vm_compute. reflexivity.
  - destruct (proj1 (extent_recursion_ends sample_fs 1 (sample_i_block 16))) as (r & Hr & H).
    + assert (descends sample_fs 1 (sample_i_block 16) (dev_bytes sample_image (40 * 1024) 24)) as H1 by (vm_compute; reflexivity).
      assert (next_node sample_fs 1 (dev_bytes sample_image (40 * 1024) 24) = Ret None) as H2 by (vm_compute; reflexivity).
      assert (forall b, descends sample_fs 1 (sample_i_block 16) b -> b = dev_bytes sample_image (40 * 1024) 24) as Hu.
      { unfold descends in *. intros b Hb. rewrite Hb in H1. by injection H1. }
      assert (node_depth (dev_bytes sample_image (40 * 1024) 24) < node_depth (sample_i_block 16)) as H3 by (vm_compute; reflexivity).
      intros a b Ha Hb. destruct Ha as [a|a c a' Hc Ha].
      * apply Hu in Hb as ->. exact H3.
      * apply Hu in Hc as ->. exfalso. destruct Ha as [? | ? ? ? Hc' _]; unfold descends in *; congruence.
    + exists r. split; [exact Hr|]. intros fuel Hf. apply H. left. exact Hf.
Defined.
