(* ===== verification/Inode.v ===== *)
(** * Inodes ([src/fuse/inode.c], [inode.h]): data blocks, lookup by number,
    directory entries

    An inode is the [struct ext4_inode] in memory, 156 bytes.  The path lookup
    of the same source file is in [Path]. *)

From Stdlib Require Import Strings.Byte.
From S2P Require Import Prelude Bytes Layout Disk Image Super Extents.

Definition EXT4_NDIR_BLOCKS : Z := 12.
Definition EXT4_IND_BLOCK : Z := EXT4_NDIR_BLOCKS.
Definition EXT4_DIND_BLOCK : Z := EXT4_IND_BLOCK + 1.
Definition EXT4_TIND_BLOCK : Z := EXT4_DIND_BLOCK + 1.
Definition EXT4_N_BLOCKS : Z := EXT4_TIND_BLOCK + 1.
Definition EXT4_EXTENTS_FL : Z := 0x00080000.

Definition i_mode (i : list byte) : Z := field ext4_inode "i_mode" i.
Definition i_flags (i : list byte) : Z := field ext4_inode "i_flags" i.
Definition i_size_lo (i : list byte) : Z := field ext4_inode "i_size_lo" i.
Definition i_size_high (i : list byte) : Z := field ext4_inode "i_size_high" i.
Definition i_block (i : list byte) : list byte := take 60 (drop 40 i).

Definition inode_get_size (i : list byte) : Z :=
  (u64 (i_size_high i << 32) .| i_size_lo i)%u64.

(** [i->i_block[k]]. *)
Definition i_block_at (i : list byte) (k : Z) : outcome Z := load_le (i_block i) (4 * k) 4.

(** ** Indirect blocks *)

Definition ADDRESSES_IN_IND_BLOCK (f : fs) : Z := BLOCK_SIZE f / 4.
Definition ADDRESSES_IN_DIND_BLOCK (f : fs) : Z :=
  (ADDRESSES_IN_IND_BLOCK f * ADDRESSES_IN_IND_BLOCK f)%u64.
Definition ADDRESSES_IN_TIND_BLOCK (f : fs) : Z :=
  (ADDRESSES_IN_DIND_BLOCK f * ADDRESSES_IN_IND_BLOCK f)%u64.
Definition MAX_IND_BLOCK (f : fs) : Z := (EXT4_NDIR_BLOCKS + ADDRESSES_IN_IND_BLOCK f)%u64.
Definition MAX_DIND_BLOCK (f : fs) : Z := (MAX_IND_BLOCK f + ADDRESSES_IN_DIND_BLOCK f)%u64.
Definition MAX_TIND_BLOCK (f : fs) : Z := (MAX_DIND_BLOCK f + ADDRESSES_IN_TIND_BLOCK f)%u64.

Definition __inode_get_data_pblock_ind (f : fs) (lblock index_block : Z) : outcome Z :=
  c_assert (lblock <? ADDRESSES_IN_IND_BLOCK f) ;;
  disk_read_u32 (fs_disk f) (BLOCKS2BYTES f index_block + lblock * 4)%u64.

Definition __inode_get_data_pblock_dind (f : fs) (lblock dindex_block : Z) : outcome Z :=
  c_assert (lblock <? ADDRESSES_IN_DIND_BLOCK f) ;;
  let index_block_offset_in_dindex := u32 (lblock / ADDRESSES_IN_IND_BLOCK f * 4) in
  let lblock := lblock mod ADDRESSES_IN_IND_BLOCK f in
  index_block ← disk_read_u32 (fs_disk f) (BLOCKS2BYTES f dindex_block + index_block_offset_in_dindex)%u64;
  __inode_get_data_pblock_ind f lblock index_block.

Definition __inode_get_data_pblock_tind (f : fs) (lblock tindex_block : Z) : outcome Z :=
  c_assert (lblock <? ADDRESSES_IN_TIND_BLOCK f) ;;
  let dindex_block_offset_in_tindex := u32 (lblock / ADDRESSES_IN_DIND_BLOCK f * 4) in
  let lblock := lblock mod ADDRESSES_IN_DIND_BLOCK f in
  dindex_block ← disk_read_u32 (fs_disk f) (BLOCKS2BYTES f tindex_block + dindex_block_offset_in_tindex)%u64;
  __inode_get_data_pblock_dind f lblock dindex_block.

#[global] Arguments __inode_get_data_pblock_ind _ _ _ : simpl never.
#[global] Arguments __inode_get_data_pblock_dind _ _ _ : simpl never.
#[global] Arguments __inode_get_data_pblock_tind _ _ _ : simpl never.

(** The physical block and the final value of [*extent_len]. *)
Definition inode_get_data_pblock (fuel : nat) (f : fs) (inode : list byte) (lblock : Z) : outcome (Z * Z) :=
  if negb (Z.land (i_flags inode) EXT4_EXTENTS_FL =? 0) then
    '(p, len) ← extent_get_pblock fuel f (i_block inode) lblock;
    mret (p, default 1 len)
  else
    c_defined (negb (BLOCK_SIZE f =? 0)) ;;
    c_assert (lblock <=? BYTES2BLOCKS f (inode_get_size inode)) ;;
    p ← (if lblock <? EXT4_NDIR_BLOCKS then i_block_at inode lblock
         else if lblock <? MAX_IND_BLOCK f then
           index_block ← i_block_at inode EXT4_IND_BLOCK;
           __inode_get_data_pblock_ind f (lblock - EXT4_NDIR_BLOCKS)%u32 index_block
         else if lblock <? MAX_DIND_BLOCK f then
           dindex_block ← i_block_at inode EXT4_DIND_BLOCK;
           __inode_get_data_pblock_dind f (u32 (lblock - MAX_IND_BLOCK f)) dindex_block
         else if lblock <? MAX_TIND_BLOCK f then
           tindex_block ← i_block_at inode EXT4_TIND_BLOCK;
           __inode_get_data_pblock_tind f (u32 (lblock - MAX_DIND_BLOCK f)) tindex_block
         else AssertFail);
    mret (p, 1).

(** ** Inodes by number *)

Definition ENOENT : Z := 2.

(** [inode] is the caller's structure: bytes the on-disk inode is too short to
    supply keep their value. *)
Definition inode_get_by_number (f : fs) (n : Z) (inode : list byte) : outcome (Z * list byte) :=
  if n =? 0 then Ret (- ENOENT, inode)
  else
    let n := (n - 1)%u32 in
    off ← super_group_inode_table_offset f n;
    let off := s64 (off + (n mod super_inodes_per_group f * super_inode_size f)%u32) in
    bs ← disk_read (fs_disk f) off (Z.min (super_inode_size f) (sizeof ext4_inode));
    mret (0, bs ++ drop (length bs) inode).

(** ** Directory contexts *)

Record inode_dir_ctx := DirCtx { dc_lblock : Z; dc_buf : list byte }.

Definition dir_ctx_update (fuel : nat) (f : fs) (inode : list byte) (lblock : Z) : outcome inode_dir_ctx :=
  '(dir_pblock, _) ← inode_get_data_pblock fuel f inode lblock;
  buf ← disk_read (fs_disk f) (BLOCKS2BYTES f dir_pblock) (BLOCK_SIZE f);
  mret (DirCtx lblock buf).

Definition inode_dir_ctx_reset (fuel : nat) (f : fs) (inode : list byte) : outcome inode_dir_ctx :=
  dir_ctx_update fuel f inode 0.

(** [rounds] bounds the recursion; the answer is a position in the buffer. *)
Fixpoint dentry_get_rec (rounds fuel : nat) (f : fs) (inode : list byte) (offset : Z)
    (ctx : inode_dir_ctx) : outcome (option Z * inode_dir_ctx) :=
  match rounds with
  | O => OutOfFuel
  | S rounds =>
      c_defined (negb (BLOCK_SIZE f =? 0)) ;;
      let lblock := u32 (Z.quot offset (BLOCK_SIZE f)) in
      let blk_offset := u32 (Z.rem offset (BLOCK_SIZE f)) in
      let inode_size := inode_get_size inode in
      let un_offset := u64 offset in
      c_assert (un_offset <=? inode_size) ;;
      if inode_size =? un_offset then Ret (None, ctx)
      else if lblock =? dc_lblock ctx then Ret (Some blk_offset, ctx)
      else
        ctx ← dir_ctx_update fuel f inode lblock;
        dentry_get_rec rounds fuel f inode (s64 un_offset) ctx
  end.

Definition inode_dentry_get (fuel : nat) (f : fs) (inode : list byte) (offset : Z)
    (ctx : inode_dir_ctx) : outcome (option Z * inode_dir_ctx) :=
  dentry_get_rec 2 fuel f inode offset ctx.

(** ** Directory contexts buffer one block, transparently *)

(** The buffer holds the block it is labelled with. *)
Definition coherent (fuel : nat) (f : fs) (inode : list byte) (ctx : inode_dir_ctx) : Prop :=
  dir_ctx_update fuel f inode (dc_lblock ctx) = Ret ctx.

Lemma dir_ctx_update_lblock fuel f inode l ctx :
  dir_ctx_update fuel f inode l = Ret ctx -> dc_lblock ctx = l /\ coherent fuel f inode ctx.
Proof.
  unfold coherent. intros H. assert (dc_lblock ctx = l) as E; [|by rewrite E].
  unfold dir_ctx_update in H. apply bind_Ret in H as ([p len] & _ & H).
  apply bind_Ret in H as (buf & _ & [= <-]). done.
Qed.

Lemma dentry_get_eq fuel f inode offset ctx :
  geometry f -> fits 63 offset -> offset / BLOCK_SIZE f < 2 ^ 32 -> coherent fuel f inode ctx ->
  inode_dentry_get fuel f inode offset ctx =
    (if inode_get_size inode <? offset then AssertFail
     else if inode_get_size inode =? offset then Ret (None, ctx)
     else ctx' ← dir_ctx_update fuel f inode (offset / BLOCK_SIZE f);
          Ret (Some (offset mod BLOCK_SIZE f), ctx')) /\
  (forall r ctx', inode_dentry_get fuel f inode offset ctx = Ret (r, ctx') ->
     coherent fuel f inode ctx').
Proof.
  intros G [Ho0 Ho] Hl Hctx. pose proof (block_size_range f G) as Hb.
  match goal with |- ?L = ?R /\ _ => assert (E : L = R) end.
  - unfold inode_dentry_get. cbn [dentry_get_rec].
    rewrite Z.quot_div_nonneg, Z.rem_mod_nonneg by lia.
    pose proof (Z.mod_pos_bound offset (BLOCK_SIZE f) ltac:(lia)).
    pose proof (Z.div_pos offset (BLOCK_SIZE f) Ho0 ltac:(lia)).
    rewrite (u32_small (_ / _)), (u32_small (_ mod _)), (u64_small offset), (s64_small offset) by lia.
    destruct (Z.eqb_spec (BLOCK_SIZE f) 0); [lia|]. cbn.
    destruct (Z.ltb_spec (inode_get_size inode) offset), (Z.leb_spec offset (inode_get_size inode)); try lia; [done|].
    cbn. destruct (Z.eqb_spec (inode_get_size inode) offset); [done|].
    destruct (Z.eqb_spec (offset / BLOCK_SIZE f) (dc_lblock ctx)) as [->|].
    { by rewrite Hctx. }
    destruct (dir_ctx_update fuel f inode (offset / BLOCK_SIZE f)) as [ctx'| | |] eqn:Eu; try done.
    cbn. rewrite Z.quot_div_nonneg, Z.rem_mod_nonneg by lia.
    rewrite (u32_small (_ / _)), (u32_small (_ mod _)), (u64_small offset) by lia.
    apply dir_ctx_update_lblock in Eu as [-> _]. rewrite Z.eqb_refl.
    rewrite (proj2 (Z.leb_le _ _)), (proj2 (Z.eqb_neq _ _)) by lia. done.
  - split; [exact E|]. intros r ctx' Hr. rewrite E in Hr.
    destruct (_ <? _); [done|]. destruct (_ =? offset); [by simplify_eq|].
    apply bind_Ret in Hr as (c & Hc & [= _ <-]). by apply dir_ctx_update_lblock in Hc as [_ ?].
Qed.

(** C40: a directory context is a transparent one-block buffer.  Whatever block
    it holds, and for every offset whose block number has 32 bits, [inode_dentry_get] answers the end at [offset = size], stops the
    process past it, and otherwise answers offset [offset mod BLOCK_SIZE] of a
    buffer that holds logical block [offset / BLOCK_SIZE]; the context it leaves
    is coherent again. *)
Theorem dentry_get_transparent fuel f inode offset ctx :
  geometry f -> fits 63 offset -> offset / BLOCK_SIZE f < 2 ^ 32 -> coherent fuel f inode ctx ->
  inode_dentry_get fuel f inode offset ctx =
    (if inode_get_size inode <? offset then AssertFail
     else if inode_get_size inode =? offset then Ret (None, ctx)
     else ctx' ← dir_ctx_update fuel f inode (offset / BLOCK_SIZE f);
          Ret (Some (offset mod BLOCK_SIZE f), ctx')) /\
  (forall r ctx', inode_dentry_get fuel f inode offset ctx = Ret (r, ctx') ->
     coherent fuel f inode ctx').
Proof. apply dentry_get_eq. Qed.

(** ** Block maps of ext2/3 inodes are radix trees *)

(** The slot of [i_block] and the indices to follow for logical block [l],
    when an index block holds [A] addresses. *)
Definition radix_path (A l : Z) : option (Z * list Z) :=
  if l <? 12 then Some (l, [])
  else let l1 := l - 12 in
  if l1 <? A then Some (12, [l1])
  else let l2 := l1 - A in
  if l2 <? A * A then Some (13, [l2 / A; l2 mod A])
  else let l3 := l2 - A * A in
  if l3 <? A * A * A then Some (14, [l3 / (A * A); l3 mod (A * A) / A; l3 mod (A * A) mod A])
  else None.

Fixpoint follow (f : fs) (blk : Z) (ds : list Z) : outcome Z :=
  match ds with
  | [] => Ret blk
  | d :: ds => w ← disk_read_u32 (fs_disk f) (blk * BLOCK_SIZE f + 4 * d); follow f w ds
  end.

Definition radix_lookup (f : fs) (inode : list byte) (l : Z) : outcome Z :=
  match radix_path (ADDRESSES_IN_IND_BLOCK f) l with
  | Some (slot, ds) => b ← i_block_at inode slot; follow f b ds
  | None => AssertFail
  end.

Lemma radix_digits A l slot ds :
  0 < A -> 0 <= l -> radix_path A l = Some (slot, ds) -> Forall (fun d => 0 <= d < A) ds.
Proof.
  intros HA Hl. unfold radix_path. cbv zeta.
  repeat match goal with |- context [?a <? ?b] => destruct (Z.ltb_spec a b) end;
    intros [= <- <-].
  - constructor.
  - repeat constructor; lia.
  - repeat constructor; try (apply Z.mod_pos_bound; lia); [apply Z.div_pos; lia|].
    apply Z.div_lt_upper_bound; lia.
  - set (l3 := l - 12 - A - A * A) in *.
    pose proof (Z.mod_pos_bound l3 (A * A) ltac:(nia)).
    repeat constructor; try (apply Z.mod_pos_bound; lia); try (apply Z.div_pos; nia);
      apply Z.div_lt_upper_bound; nia.
Qed.

Lemma disk_read_u32_fits d w v : disk_read_u32 d w = Ret v -> fits 32 v.
Proof.
  unfold disk_read_u32. intros H. apply bind_Ret in H as ([n bs] & Hr & H).
  apply bind_Ret in H as (u & _ & [= <-]).
  unfold __disk_read, pread_wrapper, pread in Hr. change (u64 4) with 4 in Hr.
  outcome_inv. destruct r0 as [pr bs']. apply bind_Ret in Hr as (? & Ha%c_assert_Ret & [= <- <-]).
  destruct (_ <? 0).
  { injection E0 as <- <-. done. }
  injection E0 as <- <-. apply Z.eqb_eq in Ha. pose proof (length_dev_bytes d (s64 w)) as Hlen.
  eapply fits_le, le_decode_fits. rewrite Hlen. unfold MAX_RW_COUNT. lia.
Qed.

Lemma i_block_at_fits i k v : i_block_at i k = Ret v -> fits 32 v.
Proof. apply load_le_fits. Qed.

Section Radix.
Context (f : fs).
Hypothesis G : geometry f.
Hypothesis Hlog : s_log_block_size f <= 6.

Local Abbreviation A := (ADDRESSES_IN_IND_BLOCK f).

Lemma block_size_64k : BLOCK_SIZE f <= 2 ^ 16.
Proof.
  rewrite block_size_pow by lia. pose proof (s_log_fits f) as [? _].
  apply Z.pow_le_mono_r; lia.
Qed.

Lemma addresses_range : 256 <= A <= 2 ^ 14.
Proof.
  pose proof (block_size_range f G). pose proof block_size_64k.
  unfold ADDRESSES_IN_IND_BLOCK. split; [apply Z.div_le_lower_bound; lia|].
  apply Z.div_le_upper_bound; lia.
Qed.

Lemma addresses_eq :
  ADDRESSES_IN_DIND_BLOCK f = A * A /\ ADDRESSES_IN_TIND_BLOCK f = A * A * A /\
  MAX_IND_BLOCK f = 12 + A /\ MAX_DIND_BLOCK f = 12 + A + A * A /\
  MAX_TIND_BLOCK f = 12 + A + A * A + A * A * A.
Proof.
  pose proof addresses_range as Ha.
  assert (0 <= A * A <= 2 ^ 28 /\ 0 <= A * A * A <= 2 ^ 42) by nia.
  unfold MAX_TIND_BLOCK, MAX_DIND_BLOCK, MAX_IND_BLOCK, ADDRESSES_IN_TIND_BLOCK,
    ADDRESSES_IN_DIND_BLOCK, wadd, wmul, EXT4_NDIR_BLOCKS.
  rewrite (u64_small (A * A)) by lia. rewrite (u64_small (A * A * A)) by lia.
  rewrite (u64_small (12 + A)) by lia. rewrite (u64_small (12 + A + A * A)) by lia.
  rewrite u64_small by lia. done.
Qed.

Lemma index_addr b d :
  fits 32 b -> 0 <= d < A -> (BLOCKS2BYTES f b + d * 4)%u64 = b * BLOCK_SIZE f + 4 * d.
Proof.
  intros [? ?] Hd. pose proof addresses_range. pose proof block_size_64k.
  pose proof (block_size_range f G). unfold BLOCKS2BYTES, wadd, wmul.
  rewrite (u64_small (b * _)), (u64_small (d * 4)), u64_small by nia. lia.
Qed.

Lemma ind_follow d b :
  fits 32 b -> 0 <= d < A -> __inode_get_data_pblock_ind f d b = follow f b [d].
Proof.
  intros Hb Hd. unfold __inode_get_data_pblock_ind.
  rewrite (proj2 (Z.ltb_lt _ _)), index_addr by (done || lia). cbn.
  by destruct (disk_read_u32 _ _).
Qed.

Lemma index_addr' b d :
  fits 32 b -> 0 <= d < A -> (BLOCKS2BYTES f b + u32 (d * 4))%u64 = b * BLOCK_SIZE f + 4 * d.
Proof.
  intros Hb Hd. rewrite <- index_addr by done. pose proof addresses_range.
  unfold wmul. by rewrite u32_small, u64_small by lia.
Qed.

Lemma dind_follow l b :
  fits 32 b -> 0 <= l < A * A -> __inode_get_data_pblock_dind f l b = follow f b [l / A; l mod A].
Proof.
  intros Hb Hl. pose proof addresses_range. destruct addresses_eq as (Ed & _).
  unfold __inode_get_data_pblock_dind. rewrite Ed, (proj2 (Z.ltb_lt _ _)) by lia. cbn.
  assert (0 <= l / A < A) by (split; [apply Z.div_pos; lia|apply Z.div_lt_upper_bound; lia]).
  rewrite index_addr' by done.
  destruct (disk_read_u32 _ _) as [w| | |] eqn:E; try done. apply disk_read_u32_fits in E. cbn.
  rewrite ind_follow by (done || apply Z.mod_pos_bound; lia). done.
Qed.

Lemma tind_follow l b :
  fits 32 b -> 0 <= l < A * A * A ->
  __inode_get_data_pblock_tind f l b = follow f b [l / (A * A); l mod (A * A) / A; l mod (A * A) mod A].
Proof.
  intros Hb Hl. pose proof addresses_range. destruct addresses_eq as (Ed & Et & _).
  unfold __inode_get_data_pblock_tind. rewrite Et, Ed, (proj2 (Z.ltb_lt _ _)) by lia. cbn.
  assert (0 <= l / (A * A) < A) by (split; [apply Z.div_pos; nia|apply Z.div_lt_upper_bound; nia]).
  rewrite index_addr' by done.
  destruct (disk_read_u32 _ _) as [w| | |] eqn:E; try done. apply disk_read_u32_fits in E. cbn.
  rewrite dind_follow by (done || apply Z.mod_pos_bound; nia). done.
Qed.
End Radix.

Lemma radix_slot A l slot ds :
  0 <= l -> radix_path A l = Some (slot, ds) -> 0 <= slot < EXT4_N_BLOCKS.
Proof.
  unfold radix_path, EXT4_N_BLOCKS, EXT4_TIND_BLOCK, EXT4_DIND_BLOCK, EXT4_IND_BLOCK, EXT4_NDIR_BLOCKS.
  cbv zeta. intros Hl.
  repeat match goal with |- context [?a <? ?b] => destruct (Z.ltb_spec a b) end; intros [= <- <-]; lia.
Qed.

(** The logical block a path leads to: paths of distinct blocks differ. *)
Definition radix_value (A slot : Z) (ds : list Z) : Z :=
  match ds with
  | [] => slot
  | [d] => 12 + d
  | [d; e] => 12 + A + (d * A + e)
  | d :: e :: g :: _ => 12 + A + A * A + (d * (A * A) + (e * A + g))
  end.

Lemma radix_roundtrip A l slot ds :
  0 < A -> radix_path A l = Some (slot, ds) -> radix_value A slot ds = l.
Proof.
  intros HA. unfold radix_path. cbv zeta.
  repeat match goal with |- context [?a <? ?b] => destruct (Z.ltb_spec a b) end;
    intros [= <- <-]; cbn [radix_value]; try lia.
  - pose proof (Z.div_mod (l - 12 - A) A). lia.
  - set (l3 := l - 12 - A - A * A) in *.
    pose proof (Z.div_mod l3 (A * A)). pose proof (Z.div_mod (l3 mod (A * A)) A). nia.
Qed.

Lemma pblock_radix fuel f inode l :
  geometry f -> s_log_block_size f <= 6 -> fits 32 l ->
  Z.land (i_flags inode) EXT4_EXTENTS_FL = 0 ->
  l <= BYTES2BLOCKS f (inode_get_size inode) ->
  inode_get_data_pblock fuel f inode l = (p ← radix_lookup f inode l; Ret (p, 1)).
Proof.
  intros G Hlog [Hl0 Hl] Hfl Hsz. pose proof (addresses_range f G Hlog) as HA.
  destruct (addresses_eq f G Hlog) as (Ed & Et & E1 & E2 & E3).
  unfold inode_get_data_pblock. rewrite Hfl, E1, E2, E3. cbn [negb Z.eqb].
  pose proof (block_size_range f G).
  rewrite (proj2 (Z.eqb_neq (BLOCK_SIZE f) 0)), (proj2 (Z.leb_le _ _)) by lia. cbn.
  unfold radix_lookup, radix_path, EXT4_NDIR_BLOCKS, EXT4_TIND_BLOCK, EXT4_DIND_BLOCK,
    EXT4_IND_BLOCK, EXT4_NDIR_BLOCKS, wsub. cbv zeta.
  change (12 + 1 + 1) with 14. change (12 + 1) with 13.
  set (A := ADDRESSES_IN_IND_BLOCK f) in *.
  assert (0 <= A * A <= 2 ^ 28 /\ 0 <= A * A * A) by nia.
  destruct (Z.ltb_spec l 12).
  { by destruct (i_block_at inode l). }
  destruct (Z.ltb_spec l (12 + A)), (Z.ltb_spec (l - 12) A); try lia.
  { rewrite u32_small by lia.
    destruct (i_block_at inode 12) as [b| | |] eqn:Eb; try done. apply i_block_at_fits in Eb. cbn -[follow].
    by rewrite (ind_follow f G Hlog) by (done || fold A; lia). }
  destruct (Z.ltb_spec l (12 + A + A * A)), (Z.ltb_spec (l - 12 - A) (A * A)); try lia.
  { rewrite u32_small by lia.
    destruct (i_block_at inode 13) as [b| | |] eqn:Eb; try done. apply i_block_at_fits in Eb. cbn -[follow].
    replace (l - (12 + A)) with (l - 12 - A) by lia.
    by rewrite (dind_follow f G Hlog) by (done || fold A; lia). }
  destruct (Z.ltb_spec l (12 + A + A * A + A * A * A)), (Z.ltb_spec (l - 12 - A - A * A) (A * A * A)); try lia; [|done].
  rewrite u32_small by lia.
  destruct (i_block_at inode 14) as [b| | |] eqn:Eb; try done. apply i_block_at_fits in Eb. cbn -[follow].
  replace (l - (12 + A + A * A)) with (l - 12 - A - A * A) by lia.
  by rewrite (tind_follow f G Hlog) by (done || fold A; lia).
Qed.

(** C6: for an inode that is not extent-mapped and block sizes up to 64 KiB,
    [inode_get_data_pblock] is the lookup of a four-level radix tree: the path
    of a logical block leads from a slot of [i_block] through at most three
    index blocks, each index within its block, distinct logical blocks have
    distinct paths, and the reported extent length is 1. *)
Theorem block_map_radix fuel f inode l :
  geometry f -> s_log_block_size f <= 6 -> fits 32 l ->
  Z.land (i_flags inode) EXT4_EXTENTS_FL = 0 ->
  l <= BYTES2BLOCKS f (inode_get_size inode) ->
  inode_get_data_pblock fuel f inode l = (p ← radix_lookup f inode l; Ret (p, 1)) /\
  (forall slot ds, radix_path (ADDRESSES_IN_IND_BLOCK f) l = Some (slot, ds) ->
     0 <= slot < EXT4_N_BLOCKS /\ Forall (fun d => 0 <= d < ADDRESSES_IN_IND_BLOCK f) ds /\
     radix_value (ADDRESSES_IN_IND_BLOCK f) slot ds = l).
Proof.
  intros G Hlog Hl Hfl Hsz. pose proof (addresses_range f G Hlog) as HA.
  split; [by apply pblock_radix|]. intros slot ds Hp. split; [by eapply radix_slot; [..|exact Hp]; destruct Hl|].
  split; [by eapply radix_digits; [| |exact Hp]; destruct Hl; lia|by apply radix_roundtrip; [lia|]].
Qed.

(** A zero slot of [i_block], the mark of a hole of a whole index block, is
    followed like any other: the answer is a word of block 0. *)
Lemma indirect_hole fuel f inode l :
  geometry f -> s_log_block_size f <= 6 -> Z.land (i_flags inode) EXT4_EXTENTS_FL = 0 ->
  l <= BYTES2BLOCKS f (inode_get_size inode) ->
  12 <= l < 12 + ADDRESSES_IN_IND_BLOCK f -> i_block_at inode 12 = Ret 0 ->
  inode_get_data_pblock fuel f inode l
  = (p ← disk_read_u32 (fs_disk f) (4 * (l - 12)); Ret (p, 1)).
Proof.
  intros G Hlog Hfl Hsz Hl Hb. pose proof (addresses_range f G Hlog).
  pose proof (block_size_range f G). destruct (addresses_eq f G Hlog) as (_ & _ & E1 & _).
  unfold inode_get_data_pblock. rewrite Hfl, E1. cbn [negb Z.eqb].
  rewrite (proj2 (Z.eqb_neq (BLOCK_SIZE f) 0)), (proj2 (Z.leb_le _ _)) by lia. cbn.
  unfold EXT4_NDIR_BLOCKS, EXT4_IND_BLOCK, EXT4_NDIR_BLOCKS, wsub.
  rewrite (proj2 (Z.ltb_ge l 12)), (proj2 (Z.ltb_lt l _)), Hb, u32_small by lia. cbn.
  rewrite (ind_follow f G Hlog) by (done || lia). cbn [follow].
  replace (0 * BLOCK_SIZE f + 4 * (l - 12)) with (4 * (l - 12)) by lia.
  by destruct (disk_read_u32 _ _).
Qed.

(** ** Inodes by number *)

Lemma inode_table_offset_Ret f ino n gd :
  geometry f -> 0 <= ino -> super_n_block_groups f = Ret n ->
  ino / s_inodes_per_group f < n -> fs_gdesc f !! Z.to_nat (ino / s_inodes_per_group f) = Some gd ->
  super_group_inode_table_offset f ino = Ret (bg_inode_table_lo gd * BLOCK_SIZE f).
Proof.
  intros G Hi Hn Hg Hgd. pose proof (geo_ipg f G). unfold super_group_inode_table_offset, super_inodes_per_group.
  rewrite Hn, Hgd, (proj2 (Z.eqb_neq (s_inodes_per_group f) 0)) by lia. cbn.
  rewrite (proj2 (Z.ltb_lt _ _)) by lia. cbn.
  pose proof (block_size_range f G).
  assert (fits 32 (bg_inode_table_lo gd)) as [? ?] by by eapply (field_fits _ _ _ _ 4).
  unfold BLOCKS2BYTES, wmul. rewrite u64_small by nia. f_equal. apply s64_small. nia.
Qed.

(** Byte address of inode [k] in a table that starts at [table]. *)
Definition inode_addr (f : fs) (table k : Z) : Z :=
  table + (k - 1) mod s_inodes_per_group f * s_inode_size f.

(** C19: inode [k] (from 1) is read from its slot in the table of group
    [(k - 1) / inodes_per_group]: as many bytes as the slot and the structure
    both have, the rest of the caller's structure unchanged; inode 0 is
    [-ENOENT].  Slots of different inodes of a group do not overlap. *)
Theorem inode_slot f k n gd old :
  geometry f -> fits 32 k -> super_n_block_groups f = Ret n ->
  s_inodes_per_group f * s_inode_size f < 2 ^ 32 ->
  (0 < k -> (k - 1) / s_inodes_per_group f < n /\
     fs_gdesc f !! Z.to_nat ((k - 1) / s_inodes_per_group f) = Some gd /\
     inode_addr f (bg_inode_table_lo gd * BLOCK_SIZE f) k + s_inode_size f <= dev_size (fs_disk f)) ->
  let len := Z.min (s_inode_size f) 156 in
  let addr := inode_addr f (bg_inode_table_lo gd * BLOCK_SIZE f) in
  inode_get_by_number f k old =
    (if k =? 0 then Ret (- ENOENT, old)
     else Ret (0, dev_bytes (fs_disk f) (addr k) len ++ drop (Z.to_nat len) old)) /\
  (forall k', k < k' -> (k - 1) / s_inodes_per_group f = (k' - 1) / s_inodes_per_group f ->
     addr k + len <= addr k').
Proof.
  intros G [Hk0 Hk] Hn Hw Hgd len addr. pose proof (geo_ipg f G) as Hipg. split.
  - unfold inode_get_by_number. destruct (Z.eqb_spec k 0); [done|].
    destruct Hgd as (Hg & Hgd & Hdev); [lia|]. unfold wsub.
    rewrite (u32_small (k - 1)) by lia.
    erewrite inode_table_offset_Ret by (done || lia). cbn [mbind outcome_bind].
    pose proof (Z.mod_pos_bound (k - 1) _ Hipg). pose proof (s_inode_size_fits f) as [? _].
    pose proof (block_size_range f G). pose proof (geo_dev f G).
    assert (fits 32 (bg_inode_table_lo gd)) as [? ?] by by eapply (field_fits _ _ _ _ 4).
    unfold super_inodes_per_group, super_inode_size, wmul.
    rewrite (u32_small (_ * _)) by nia. subst addr len. unfold inode_addr in *.
    rewrite s64_small by nia. change (sizeof ext4_inode) with 156.
    unfold disk_read. rewrite disk_read_in; [|apply (geo_fd f G)|nia|unfold MAX_RW_COUNT; lia|lia].
    cbn. by rewrite length_dev_bytes.
  - intros k' Hlt E. subst addr len. unfold inode_addr.
    pose proof (Z.div_mod (k - 1) (s_inodes_per_group f)).
    pose proof (Z.div_mod (k' - 1) (s_inodes_per_group f)).
    pose proof (s_inode_size_fits f) as [? _]. nia.
Qed.

(** ** Witnesses *)

(** The structure of inode [k] of the sample image, over a zeroed one. *)
Definition sample_inode (k : Z) : list byte :=
  dev_bytes sample_image (5 * 1024 + (k - 1) * 128) 128 ++ repeat x00 28.

Definition sample_gd : list byte := dev_bytes sample_image 2048 32.

Lemma sample_fs_geometry : geometry sample_fs.
Proof. split; vm_compute; intuition discriminate. Qed.

Lemma inode_slot_witness :
  inode_get_by_number sample_fs 13 (repeat x00 156) = Ret (0, sample_inode 13) /\
  inode_get_by_number sample_fs 0 (repeat x00 156) = Ret (- ENOENT, repeat x00 156).
Proof.
  split.
  - refine (proj1 (inode_slot sample_fs 13 1 sample_gd (repeat x00 156) sample_fs_geometry _ _ _ _));
      vm_compute; intuition discriminate.
  - refine (proj1 (inode_slot sample_fs 0 1 sample_gd (repeat x00 156) sample_fs_geometry _ _ _ _));
      vm_compute; intuition discriminate.
Defined.

Lemma block_map_radix_witness :
  inode_get_data_pblock 1 sample_fs (sample_inode 13) 2 = Ret (14, 1).
Proof.
  etransitivity.
  - refine (proj1 (block_map_radix 1 sample_fs (sample_inode 13) 2 sample_fs_geometry _ _ _ _));
      vm_compute; intuition discriminate.
  - vm_compute. reflexivity.
Defined.

Definition sample_ctx : inode_dir_ctx := DirCtx 0 (dev_bytes sample_image (10 * 1024) 1024).

Lemma dentry_get_transparent_witness :
  inode_dentry_get 1 sample_fs (sample_inode 2) 24 sample_ctx = Ret (Some 24, sample_ctx).
Proof.
  etransitivity.
  - refine (proj1 (dentry_get_transparent 1 sample_fs (sample_inode 2) 24 sample_ctx sample_fs_geometry _ _ _));
      vm_compute; intuition discriminate.
  - vm_compute. reflexivity.
Defined.
