(* ===== verification/Read.v ===== *)
(** * Reading files ([src/fuse/op_read.c])

    [op_read] is proved against [BlockMap], what it needs to know of an
    inode's data blocks; extent-mapped and indirect-mapped inodes are its two
    instances. *)

From Stdlib Require Import Strings.Byte.
From S2P Require Import Prelude Bytes Layout Disk Image Super Extents Inode.

Definition truncate_size (inode : list byte) (size offset : Z) : Z :=
  let inode_size := inode_get_size inode in
  if inode_size <=? offset then 0
  else if inode_size <=? (offset + size)%u64 then (inode_size - offset)%u64
  else size.

(** The count and the bytes stored at the start of the buffer. *)
Definition first_read (fuel : nat) (f : fs) (inode : list byte) (size offset : Z) : outcome (Z * list byte) :=
  c_defined (negb (BLOCK_SIZE f =? 0)) ;;
  let end_lblock := u32 ((offset + (size - 1))%u64 / BLOCK_SIZE f) in
  let start_lblock := u32 (Z.quot offset (BLOCK_SIZE f)) in
  let start_block_off := u32 (Z.rem offset (BLOCK_SIZE f)) in
  if size =? 0 then Ret (0, [])
  else if start_block_off =? 0 then Ret (0, [])
  else
    '(start_pblock, _) ← inode_get_data_pblock fuel f inode start_lblock;
    if start_lblock =? end_lblock then
      bs ← disk_read (fs_disk f) (BLOCKS2BYTES f start_pblock + start_block_off)%u64 size;
      mret (size, bs)
    else
      let size_to_block_end := (ALIGN_TO_BLOCKSIZE f offset - offset)%u64 in
      c_assert ((offset + size_to_block_end)%u64 mod BLOCK_SIZE f =? 0) ;;
      bs ← disk_read (fs_disk f) (BLOCKS2BYTES f start_pblock + start_block_off)%u64 size_to_block_end;
      mret (size_to_block_end, bs).

(** One round of the loop of [op_read] with [left] bytes to go: the bytes
    stored and the [extent_len] to advance by. *)
Definition read_round (fuel : nat) (f : fs) (inode : list byte) (lblock left : Z) : outcome (Z * list byte * Z) :=
  '(pblock, extent_len) ← inode_get_data_pblock fuel f inode lblock;
  if negb (pblock =? 0) then
    read_ctx ← disk_ctx_create (s64 (BLOCKS2BYTES f pblock)) (BLOCK_SIZE f) extent_len;
    '(bytes, data, _) ← __disk_ctx_read (fs_disk f) read_ctx left;
    mret (u64 bytes, data, extent_len)
  else
    let bytes := if BLOCK_SIZE f <? left then BLOCK_SIZE f else left in
    mret (bytes, repeat x00 (Z.to_nat bytes), extent_len).

Fixpoint read_loop (rounds fuel : nat) (f : fs) (inode : list byte) (lblock size ret : Z) : outcome (Z * list byte) :=
  match rounds with
  | O => OutOfFuel
  | S rounds =>
      if ret <? size then
        '(bytes, data, extent_len) ← read_round fuel f inode lblock (size - ret)%u64;
        '(ret, data') ← read_loop rounds fuel f inode (lblock + extent_len)%u32 size (ret + bytes)%u64;
        mret (ret, data ++ data')
      else Ret (ret, [])
  end.

(** [fh] is [fi->fh], [inode] the uninitialised local structure.  The result
    is the [int] returned and the bytes stored in [buf].  Every round of the
    loop stores at least a byte, so [size + 1] rounds are enough. *)
Definition op_read (fuel : nat) (f : fs) (inode : list byte) (fh size offset : Z) : outcome (Z * list byte) :=
  c_assert (0 <=? offset) ;;
  let un_offset := u64 offset in
  '(inode_get_ret, inode) ← inode_get_by_number f (u32 fh) inode;
  if inode_get_ret <? 0 then Ret (inode_get_ret, [])
  else
    let size := truncate_size inode size un_offset in
    '(ret, first) ← first_read fuel f inode size (s64 un_offset);
    let un_offset := (un_offset + ret)%u64 in
    '(ret, rest) ← read_loop (S (Z.to_nat size)) fuel f inode (u32 (un_offset / BLOCK_SIZE f)) size ret;
    c_assert (size =? ret) ;;
    mret (s32 ret, first ++ rest).

(** ** The interface to the block maps

    Logical block [l] of the first [nblocks] is on physical block [bm l], 0
    for a hole; an answer covers a run of consecutive blocks. *)
Class BlockMap (fuel : nat) (f : fs) (inode : list byte) (bm : Z -> Z) (nblocks : Z) : Prop := {
  bm_lookup : forall l, 0 <= l < nblocks -> exists n,
    inode_get_data_pblock fuel f inode l = Ret (bm l, n) /\ 0 < n < 2 ^ 32 /\
    (bm l = 0 -> n = 1) /\
    (bm l <> 0 -> forall j, 0 <= j < n -> l + j < nblocks -> bm (l + j) = bm l + j);
  bm_dev : forall l, 0 <= l < nblocks -> 0 <= bm l /\
    (bm l <> 0 -> (bm l + 1) * BLOCK_SIZE f <= dev_size (fs_disk f));
  bm_blocks : nblocks <= 2 ^ 32 }.

(** Byte [i] of the file. *)
Definition file_byte (f : fs) (bm : Z -> Z) (i : Z) : byte :=
  let p := bm (i / BLOCK_SIZE f) in
  if p =? 0 then x00 else dev_byte (fs_disk f) (p * BLOCK_SIZE f + i mod BLOCK_SIZE f).

Definition file_bytes (f : fs) (bm : Z -> Z) (off n : Z) : list byte := span (file_byte f bm) off n.

(** A range that starts inside a block that is a hole. *)
Definition starts_in_hole (f : fs) (bm : Z -> Z) (off : Z) : bool :=
  negb (off mod BLOCK_SIZE f =? 0) && (bm (off / BLOCK_SIZE f) =? 0).

(** What is stored for the [n] bytes of the file from [off] on: the bytes of the
    file, but where the range starts inside a hole the bytes of block 0 of the
    device up to the end of that block. *)
Definition read_bytes (f : fs) (bm : Z -> Z) (off n : Z) : list byte :=
  if starts_in_hole f bm off then
    let k := Z.min n (BLOCK_SIZE f - off mod BLOCK_SIZE f) in
    dev_bytes (fs_disk f) (off mod BLOCK_SIZE f) k ++ file_bytes f bm (off + k) (n - k)
  else file_bytes f bm off n.

Section Read.
Context (fuel : nat) (f : fs) (inode : list byte) (bm : Z -> Z) (nblocks : Z).
Context {BM : BlockMap fuel f inode bm nblocks}.
Hypothesis G : geometry f.

Local Abbreviation B := (BLOCK_SIZE f).
Local Abbreviation bytes_of := (file_bytes f bm).

Lemma block_pos l i : 0 <= i < B -> (l * B + i) / B = l /\ (l * B + i) mod B = i.
Proof.
  intros. pose proof (block_size_range f G). split.
  - rewrite Z.add_comm, Z.div_add, Z.div_small by lia. lia.
  - rewrite Z.add_comm, Z_mod_plus_full. apply Z.mod_small. lia.
Qed.

(** A run of blocks is contiguous on the device. *)
Lemma run_bytes l n a m :
  0 <= l < nblocks -> bm l <> 0 ->
  (forall j, 0 <= j < n -> l + j < nblocks -> bm (l + j) = bm l + j) ->
  0 <= a -> 0 < m -> a + m <= n * B -> l * B + a + m <= nblocks * B ->
  bytes_of (l * B + a) m = dev_bytes (fs_disk f) (bm l * B + a) m /\
  bm l * B + a + m <= dev_size (fs_disk f).
Proof.
  intros Hl Hp Hrun Ha Hm Hn Hend. pose proof (block_size_range f G).
  destruct (bm_dev l Hl) as [Hp0 _].
  assert (forall i, 0 <= i < a + m -> bm (l + i / B) = bm l + i / B /\ l + i / B < nblocks) as Hbm.
  { intros i Hi. pose proof (Z.div_pos i B).
    pose proof (Z.div_mod i B). pose proof (Z.mod_pos_bound i B).
    assert (l + i / B < nblocks) by nia. split; [apply Hrun; nia|done]. }
  split.
  - apply span_ext. intros i Hi. unfold file_byte.
    pose proof (Z.div_mod (a + i) B). pose proof (Z.mod_pos_bound (a + i) B).
    replace (l * B + a + i) with ((l + (a + i) / B) * B + (a + i) mod B) by lia.
    destruct (block_pos (l + (a + i) / B) ((a + i) mod B)) as [-> ->]; [lia|].
    rewrite (proj1 (Hbm (a + i) ltac:(lia))). pose proof (Z.div_pos (a + i) B).
    rewrite (proj2 (Z.eqb_neq _ _)) by lia. f_equal. lia.
  - destruct (Hbm (a + m - 1)) as [E Hlt]; [lia|]. pose proof (Z.div_pos (a + m - 1) B).
    destruct (bm_dev (l + (a + m - 1) / B)) as [_ Hd]; [lia|]. rewrite E in Hd.
    pose proof (Z.div_mod (a + m - 1) B). pose proof (Z.mod_pos_bound (a + m - 1) B).
    specialize (Hd ltac:(lia)). nia.
Qed.

Lemma hole_bytes l a m :
  0 <= l -> bm l = 0 -> 0 <= a -> 0 <= m -> a + m <= B ->
  bytes_of (l * B + a) m = repeat x00 (Z.to_nat m).
Proof.
  intros Hl Hp Ha Hm Hn. rewrite <- (span_const x00 0). apply span_ext.
  intros i Hi. unfold file_byte. replace (l * B + a + i) with (l * B + (a + i)) by lia.
  destruct (block_pos l (a + i)) as [-> ->]; [lia|]. by rewrite Hp.
Qed.

(** One round from the start of block [l] on. *)
Lemma read_round_in l left :
  0 <= l < nblocks -> 0 < left <= MAX_RW_COUNT -> l * B + left <= nblocks * B ->
  exists n bytes, read_round fuel f inode l left = Ret (bytes, bytes_of (l * B) bytes, n) /\
    0 < n /\ 0 < bytes <= left /\ (bytes = left \/ bytes = n * B).
Proof.
  intros Hl Hleft Hend. pose proof (block_size_range f G) as HB.
  assert (MAX_RW_COUNT < 2 ^ 31) by done. pose proof bm_blocks as Hnb.
  destruct (bm_lookup l Hl) as (n & Hget & Hn & Hhole & Hrun).
  unfold read_round. rewrite Hget. cbn. destruct (Z.eqb_spec (bm l) 0) as [Hp|Hp]; cbn.
  - specialize (Hhole Hp). subst n. exists 1, (Z.min B left).
    replace (if B <? left then B else left) with (Z.min B left) by zcase.
    rewrite <- (Z.add_0_r (l * B)), (hole_bytes l 0) by lia.
    repeat split; lia.
  - specialize (Hrun Hp). destruct (bm_dev l Hl) as [Hp0 Hdev]. specialize (Hdev Hp).
    pose proof (geo_dev f G) as H63.
    set (m := Z.min left (B * n)).
    destruct (run_bytes l n 0 m Hl Hp Hrun) as [Hb Hd]; [lia|lia|lia|lia|].
    rewrite !Z.add_0_r in *. exists n, m. unfold disk_ctx_create, BLOCKS2BYTES, wmul.
    rewrite (u64_small (bm l * B)), (s64_small (bm l * B)) by nia.
    rewrite (proj2 (Z.eqb_neq B 0)) by lia. cbn. rewrite (u64_small (B * n)) by nia.
    rewrite disk_ctx_read_in;
      [|apply (geo_fd f G)|cbn; nia|cbn; nia|lia|cbn; lia|cbn; lia|cbn; nia].
    cbn. fold m. rewrite u64_small, Hb by nia. repeat split; lia.
Qed.

Lemma read_loop_in rounds l size ret :
  0 <= l -> 0 <= ret <= size -> size <= MAX_RW_COUNT -> l * B + (size - ret) <= nblocks * B ->
  (Z.to_nat (size - ret) < rounds)%nat ->
  read_loop rounds fuel f inode (u32 l) size ret = Ret (size, bytes_of (l * B) (size - ret)).
Proof.
  revert l ret. pose proof (block_size_range f G) as HB. pose proof bm_blocks as Hnb.
  assert (MAX_RW_COUNT < 2 ^ 31) by done.
  induction rounds as [|rounds IH]; intros l ret Hl Hret Hsize Hend Hr; [lia|].
  cbn [read_loop]. destruct (Z.ltb_spec ret size) as [Hlt|].
  2: { replace ret with size by lia. by rewrite Z.sub_diag. }
  assert (l < nblocks) by nia. rewrite u32_small by lia. unfold wsub. rewrite u64_small by lia.
  destruct (read_round_in l (size - ret)) as (n & bytes & -> & Hn & Hby & Hfull); [lia|lia|lia|].
  cbn [mbind outcome_bind]. unfold wadd at 2. rewrite u64_small by lia.
  destruct Hfull as [->|E].
  - replace (ret + (size - ret)) with size by lia. destruct rounds as [|rounds]; [lia|].
    cbn. rewrite Z.ltb_irrefl. cbn. by rewrite app_nil_r.
  - unfold wadd. rewrite IH by lia. cbn. f_equal. f_equal.
    replace ((l + n) * B) with (l * B + bytes) by lia.
    unfold file_bytes. rewrite <- span_app by lia. f_equal. lia.
Qed.

Lemma align_block offset :
  0 <= offset < 2 ^ 32 -> offset mod B <> 0 -> ALIGN_TO_BLOCKSIZE f offset = offset / B * B + B.
Proof.
  intros Ho Hm. pose proof (geo_shift f G). pose proof (s_log_fits f) as [? _].
  unfold ALIGN_TO_BLOCKSIZE. rewrite block_size_pow in * by done.
  rewrite align_to_eq by (unfold fits; lia). rewrite u32_small by lia.
  by rewrite (proj2 (Z.eqb_neq _ _)).
Qed.

(** The bytes [first_read] copies. *)
Definition first_bytes (offset k : Z) : list byte :=
  if starts_in_hole f bm offset then dev_bytes (fs_disk f) (offset mod B) k else bytes_of offset k.

Lemma first_bytes_nil offset : first_bytes offset 0 = [].
Proof. unfold first_bytes. by case_match. Qed.

Lemma first_block_read offset k :
  0 <= offset -> offset / B < nblocks -> offset mod B <> 0 -> 0 < k -> offset mod B + k <= B ->
  offset + k <= nblocks * B -> k <= MAX_RW_COUNT -> (starts_in_hole f bm offset = true -> B <= dev_size (fs_disk f)) ->
  disk_read (fs_disk f) (BLOCKS2BYTES f (bm (offset / B)) + offset mod B)%u64 k = Ret (first_bytes offset k).
Proof.
  intros Ho Hl Hm Hk Hkb Hend Hmax Hhole. pose proof (block_size_range f G) as HB. pose proof (geo_dev f G).
  pose proof (Z.div_mod offset B) as Hdm. pose proof (Z.mod_pos_bound offset B) as Hmb. pose proof (Z.div_pos offset B).
  unfold first_bytes, starts_in_hole in *. rewrite (proj2 (Z.eqb_neq (offset mod B) 0)) in * by done. cbn [negb andb] in *.
  unfold disk_read, BLOCKS2BYTES, wmul, wadd. destruct (Z.eqb_spec (bm (offset / B)) 0) as [->|Hp].
  - specialize (Hhole eq_refl). rewrite Z.mul_0_l, (u64_small 0), Z.add_0_l, u64_small by lia.
    by rewrite disk_read_in; [|apply (geo_fd f G)|lia|lia|lia].
  - destruct (bm_dev (offset / B)) as [Hp0 Hdev]; [lia|]. specialize (Hdev Hp).
    destruct (run_bytes (offset / B) 1 (offset mod B) k) as [Hby Hd]; try lia.
    { intros j Hj _. replace j with 0 by lia. by rewrite !Z.add_0_r. }
    replace (offset / B * B + offset mod B) with offset in Hby by lia. rewrite Hby.
    rewrite (u64_small (_ * _)), u64_small by nia.
    by rewrite disk_read_in; [|apply (geo_fd f G)|nia|lia|lia].
Qed.

Lemma first_read_in size offset :
  0 <= offset -> 0 < size <= MAX_RW_COUNT -> offset + size <= nblocks * B ->
  (starts_in_hole f bm offset = true -> B <= dev_size (fs_disk f)) ->
  (offset mod B = 0 \/ offset mod B + size <= B \/ offset < 2 ^ 32) ->
  exists k, first_read fuel f inode size offset = Ret (k, first_bytes offset k) /\
    0 <= k <= size /\ (k = size \/ (offset + k) mod B = 0) /\
    (starts_in_hole f bm offset = true -> k = Z.min size (B - offset mod B)).
Proof.
  intros Ho Hs Hend Hhole Hbig. pose proof (block_size_range f G) as HB.
  assert (MAX_RW_COUNT < 2 ^ 31) by done. pose proof bm_blocks as Hnb. pose proof (geo_dev f G).
  pose proof (Z.div_mod offset B) as Hdm. pose proof (Z.mod_pos_bound offset B) as Hm.
  pose proof (Z.div_pos offset B). pose proof (Z.div_mod (offset + size - 1) B) as Hdm'.
  pose proof (Z.mod_pos_bound (offset + size - 1) B).
  assert (offset + size <= 2 ^ 63) by nia.
  assert (offset / B < nblocks /\ (offset + size - 1) / B < nblocks) as [Hl Hl'] by nia.
  unfold first_read. rewrite Z.quot_div_nonneg, Z.rem_mod_nonneg by lia.
  unfold wadd at 1, wsub at 1. rewrite (u64_small (size - 1)) by lia. rewrite (u64_small (offset + (size - 1))) by lia.
  replace (offset + (size - 1)) with (offset + size - 1) by lia.
  assert (0 <= (offset + size - 1) / B) by (apply Z.div_pos; lia).
  rewrite !u32_small by lia. rewrite (proj2 (Z.eqb_neq B 0)), (proj2 (Z.eqb_neq size 0)) by lia. cbn.
  destruct (Z.eqb_spec (offset mod B) 0) as [E0|E0].
  { exists 0. rewrite Z.add_0_r, first_bytes_nil. unfold starts_in_hole. rewrite E0. repeat split; try lia; done. }
  destruct Hbig as [|Hbig]; [lia|].
  destruct (bm_lookup (offset / B)) as (n & -> & _); [lia|]. cbn.
  assert (forall k, 0 < k -> offset mod B + k <= B -> k <= size ->
    disk_read (fs_disk f) (BLOCKS2BYTES f (bm (offset / B)) + offset mod B)%u64 k = Ret (first_bytes offset k)) as Hrd
    by (intros; apply first_block_read; lia || done).
  destruct (Z.eqb_spec (offset / B) ((offset + size - 1) / B)) as [Es|Es].
  - rewrite <- Es in Hdm'. rewrite Hrd by lia. exists size. repeat split; try lia.
  - assert (B - offset mod B < size).
    { pose proof (Z.div_le_mono offset (offset + size - 1) B).
      assert (B * (offset / B + 1) <= B * ((offset + size - 1) / B))
        by (apply Z.mul_le_mono_nonneg_l; lia). lia. }
    rewrite align_block by lia.
    unfold wsub, wadd. replace (offset / B * B + B - offset) with (B - offset mod B) by lia.
    rewrite (u64_small (B - _)) by lia. rewrite (u64_small (offset + _)) by lia.
    assert ((offset + (B - offset mod B)) mod B = 0) as Hal.
    { replace (offset + (B - offset mod B)) with ((offset / B + 1) * B) by lia. apply Z_mod_mult. }
    rewrite Hal. cbn. unfold wadd in Hrd. rewrite Hrd by lia. cbn.
    exists (B - offset mod B). repeat split; try lia; try (by right).
Qed.
End Read.

Lemma read_loop_done rounds fuel f inode l size :
  read_loop (S rounds) fuel f inode l size size = Ret (size, []).
Proof. cbn. by rewrite Z.ltb_irrefl. Qed.

#[global] Arguments read_loop : simpl never.

(** How much [op_read] delivers. *)
Definition clip (fsize size offset : Z) : Z :=
  if fsize <=? offset then 0 else Z.min size (fsize - offset).

Lemma truncate_size_eq inode size offset :
  0 <= offset -> 0 <= size -> offset + size < 2 ^ 64 ->
  truncate_size inode size offset = clip (inode_get_size inode) size offset.
Proof.
  intros Ho Hs Hb. unfold truncate_size, clip, wadd, wsub. rewrite u64_small by lia.
  destruct (Z.leb_spec (inode_get_size inode) offset); [done|].
  destruct (Z.leb_spec (inode_get_size inode) (offset + size)); [|lia].
  rewrite u64_small by lia. lia.
Qed.

(** The first bytes, and the rest of the file. *)
Lemma read_bytes_split f bm off n k :
  0 <= k <= n -> (starts_in_hole f bm off = true -> k = Z.min n (BLOCK_SIZE f - off mod BLOCK_SIZE f)) ->
  read_bytes f bm off n = first_bytes f bm off k ++ file_bytes f bm (off + k) (n - k).
Proof.
  intros Hk Hh. unfold read_bytes, first_bytes. destruct (starts_in_hole f bm off); [by rewrite Hh|].
  unfold file_bytes. rewrite <- span_app by lia. f_equal. lia.
Qed.

Lemma op_read_bytes fuel f inode0 fh inode bm nblocks size offset :
  BlockMap fuel f inode bm nblocks -> geometry f ->
  inode_get_by_number f fh inode0 = Ret (0, inode) -> fits 32 fh ->
  inode_get_size inode <= nblocks * BLOCK_SIZE f ->
  0 <= offset < 2 ^ 63 -> 0 <= size <= MAX_RW_COUNT ->
  let n := clip (inode_get_size inode) size offset in
  let start := offset mod BLOCK_SIZE f in
  (starts_in_hole f bm offset = true -> BLOCK_SIZE f <= dev_size (fs_disk f)) ->
  (start = 0 \/ start + n <= BLOCK_SIZE f \/ offset < 2 ^ 32) ->
  op_read fuel f inode0 fh size offset = Ret (n, read_bytes f bm offset n).
Proof.
  intros BM G Hino Hfh Hfs Ho Hs n start Hhole Hbig. assert (MAX_RW_COUNT < 2 ^ 31) by done.
  pose proof (block_size_range f G) as HB.
  unfold op_read. rewrite (proj2 (Z.leb_le 0 offset)) by lia. cbn.
  rewrite (u64_small offset), (s64_small offset), (wrap_small 32 fh), Hino by (done || lia). cbn.
  rewrite truncate_size_eq by lia. fold n.
  assert (0 <= n <= size /\ (0 < n -> offset + n <= inode_get_size inode)) as [Hn Hin].
  { subst n. unfold clip. destruct (Z.leb_spec (inode_get_size inode) offset); lia. }
  assert (exists k, first_read fuel f inode n offset = Ret (k, first_bytes f bm offset k) /\
    0 <= k <= n /\ (k = n \/ (offset + k) mod BLOCK_SIZE f = 0) /\
    (starts_in_hole f bm offset = true -> k = Z.min n (BLOCK_SIZE f - offset mod BLOCK_SIZE f)))
    as (k & -> & Hk & Hal & Hkh).
  { destruct (Z.eq_dec n 0) as [->|].
    - exists 0. unfold first_read. rewrite (proj2 (Z.eqb_neq (BLOCK_SIZE f) 0)) by lia. cbn.
      rewrite first_bytes_nil. pose proof (Z.mod_pos_bound offset (BLOCK_SIZE f)). repeat split; lia.
    - eapply first_read_in; (done || lia). }
  rewrite (read_bytes_split f bm offset n k) by done.
  cbn. unfold wadd. rewrite (u64_small (offset + k)) by lia.
  destruct Hal as [->|Hal].
  - rewrite read_loop_done. cbn. rewrite Z.eqb_refl, Z.sub_diag. cbn. by rewrite s32_small by lia.
  - pose proof (Z.div_mod (offset + k) (BLOCK_SIZE f)) as Hdm. rewrite Hal in Hdm.
    destruct (Z.eq_dec k n) as [->|].
    { rewrite read_loop_done. cbn. rewrite Z.eqb_refl, Z.sub_diag. cbn. by rewrite s32_small by lia. }
    rewrite (read_loop_in fuel f inode bm nblocks G); [|apply Z.div_pos; lia|lia..].
    cbn. rewrite Z.eqb_refl. cbn.
    rewrite s32_small by lia. do 3 f_equal. replace (_ / _ * BLOCK_SIZE f) with (offset + k) by lia. done.
Qed.

Lemma read_bytes_file f bm off n :
  off mod BLOCK_SIZE f = 0 \/ bm (off / BLOCK_SIZE f) <> 0 -> starts_in_hole f bm off = false /\ read_bytes f bm off n = file_bytes f bm off n.
Proof.
  intros H. unfold read_bytes. assert (starts_in_hole f bm off = false) as ->; [|done].
  unfold starts_in_hole. rewrite andb_false_iff, negb_false_iff, Z.eqb_eq, Z.eqb_neq. tauto.
Qed.

(** C2: for an inode whose blocks the [BlockMap] interface describes, [op_read]
    returns the number of bytes of the request that lie inside the file and
    stores exactly those bytes of the file, zeroes for holes included, in any
    run structure of the map and without running out of rounds.  Two limits are
    the code's.  Where the request starts inside a block that is a hole, the
    rest of that block is not zeroes but what block 0 of the device holds there
    ([read_bytes]).  And a request that starts inside a block at 4 GiB or above
    and leaves that block is left out, since [ALIGN_TO] loses the high half of
    its offset.

    The map of an indirect-mapped inode is its radix tree, a hole being a zero
    at a leaf ([radix_block_map]); a zero in place of an index block is no hole
    there but followed into block 0, by the code and by the tree alike
    ([indirect_hole]).  Extent-mapped inodes have such a map when their holes are
    behind their extents ([extent_block_map]): for a hole before an extent the
    code finds other data ([extent_lookup_hole]), and nothing is stated here.
    A request is of at most [MAX_RW_COUNT] bytes. *)
Theorem op_read_content fuel f inode0 fh inode bm nblocks size offset :
  BlockMap fuel f inode bm nblocks -> geometry f ->
  inode_get_by_number f fh inode0 = Ret (0, inode) -> fits 32 fh ->
  inode_get_size inode <= nblocks * BLOCK_SIZE f ->
  0 <= offset < 2 ^ 63 -> 0 <= size <= MAX_RW_COUNT ->
  let n := clip (inode_get_size inode) size offset in
  let start := offset mod BLOCK_SIZE f in
  (starts_in_hole f bm offset = true -> BLOCK_SIZE f <= dev_size (fs_disk f)) ->
  (start = 0 \/ start + n <= BLOCK_SIZE f \/ offset < 2 ^ 32) ->
  op_read fuel f inode0 fh size offset = Ret (n, read_bytes f bm offset n).
Proof. apply op_read_bytes. Qed.

(** ** The two instances *)

(** Indirect-mapped: the radix tree reaches every block; a hole is a zero at a
    leaf, while a zero in place of an index block is followed into block 0
    ([indirect_hole]). *)
Lemma radix_block_map fuel f inode bm nblocks :
  geometry f -> s_log_block_size f <= 6 -> Z.land (i_flags inode) EXT4_EXTENTS_FL = 0 ->
  nblocks <= 2 ^ 32 -> nblocks <= BYTES2BLOCKS f (inode_get_size inode) ->
  (forall l, 0 <= l < nblocks -> radix_lookup f inode l = Ret (bm l) /\ 0 <= bm l /\
     (bm l <> 0 -> (bm l + 1) * BLOCK_SIZE f <= dev_size (fs_disk f))) ->
  BlockMap fuel f inode bm nblocks.
Proof.
  intros G Hlog Hfl Hnb Hsz H. split; [|intros l Hl; by apply H|done].
  intros l Hl. destruct (H l Hl) as (Hr & _ & _). exists 1.
  rewrite pblock_radix, Hr by (done || (unfold fits; lia) || lia).
  split; [done|]. split; [lia|]. split; [done|]. intros _ j Hj _.
  replace j with 0 by lia. by rewrite !Z.add_0_r.
Qed.

(** Extent-mapped: a block of the file is in some extent of a well-formed tree,
    or behind the end of the tree, where it is a hole.  (A hole before an extent
    is not read as one, see [extent_lookup_hole].) *)
Lemma extent_block_map fuel f inode t hi bm nblocks :
  Z.land (i_flags inode) EXT4_EXTENTS_FL <> 0 ->
  read_tree fuel f (i_block inode) = Ret t -> wf_tree 0 hi t -> hi < 2 ^ 32 -> nblocks <= 2 ^ 32 ->
  (forall l, 0 <= l < nblocks ->
     (mapped (flat t) l = Some (bm l) /\ 0 < bm l /\ (bm l + 1) * BLOCK_SIZE f <= dev_size (fs_disk f)) \/
     (hi <= l /\ bm l = 0)) ->
  BlockMap fuel f inode bm nblocks.
Proof.
  intros Hfl Ht Hwf Hhi Hnb H. split; [| |done].
  2: { intros l Hl. destruct (H l Hl) as [(_ & ? & ?)|[_ ?]]; (split; [lia|]); [done|lia]. }
  assert (forall l p, mapped (flat t) l = Some p -> l < hi) as Hlt.
  { intros l p (e & He & Hc%covers_spec & _)%mapped_inv.
    pose proof (proj1 wf_bounds _ _ _ Hwf) as [_ HF]. rewrite List.Forall_forall in HF. apply HF in He. lia. }
  intros l Hl. unfold inode_get_data_pblock. rewrite (proj2 (Z.eqb_neq _ _)) by done. cbn [negb].
  destruct (H l Hl) as [(Hm & Hp & _)|[Hh Hz]].
  2: { exists 1. rewrite (pblock_behind fuel f (i_block inode) t 0 hi l), Hz by (done || lia). cbn. by repeat split. }
  destruct (pblock_extent fuel f (i_block inode) t 0 hi l (bm l)) as (n & Hget & Hn & Hrun); [done..|].
  assert (n < 2 ^ 32) as Hn32 by (pose proof (Hlt _ _ (Hrun (n - 1) ltac:(lia))); lia).
  exists n. rewrite Hget. cbn. split; [done|]. split; [lia|]. split; [lia|].
  intros _ j Hj Hlj. specialize (Hrun j Hj). pose proof (Hlt _ _ Hrun).
  destruct (H (l + j)) as [(Hm' & _)|[? _]]; [lia| |lia]. congruence.
Qed.

(** a read that starts inside a block the map reports as a hole does not
    deliver zeroes: [first_read] does not test for block 0 and copies the
    bytes of the device at the same offset of block 0. *)
Theorem first_read_hole fuel f inode bm nblocks size offset :
  BlockMap fuel f inode bm nblocks -> geometry f ->
  0 <= offset -> 0 < size -> offset mod BLOCK_SIZE f + size <= BLOCK_SIZE f ->
  offset / BLOCK_SIZE f < nblocks -> BLOCK_SIZE f <= dev_size (fs_disk f) ->
  offset mod BLOCK_SIZE f <> 0 -> bm (offset / BLOCK_SIZE f) = 0 ->
  BLOCK_SIZE f <= MAX_RW_COUNT ->
  first_read fuel f inode size offset
  = Ret (size, dev_bytes (fs_disk f) (offset mod BLOCK_SIZE f) size).
Proof.
  intros BM G Ho Hs Hblk Hl Hdev Hm Hp Hmax. pose proof (block_size_range f G) as HB.
  pose proof bm_blocks as Hnb. pose proof (geo_dev f G).
  pose proof (Z.div_mod offset (BLOCK_SIZE f)) as Hdm.
  pose proof (Z.mod_pos_bound offset (BLOCK_SIZE f)). pose proof (Z.div_pos offset (BLOCK_SIZE f)).
  assert (offset + size <= 2 ^ 63) by nia.
  assert ((offset + size - 1) / BLOCK_SIZE f = offset / BLOCK_SIZE f) as Hend.
  { symmetry. apply Z.div_unique with (r := offset mod BLOCK_SIZE f + size - 1); lia. }
  unfold first_read. rewrite Z.quot_div_nonneg, Z.rem_mod_nonneg by lia.
  unfold wadd at 1, wsub at 1. rewrite (u64_small (size - 1)), (u64_small (offset + (size - 1))) by lia.
  replace (offset + (size - 1)) with (offset + size - 1) by lia. rewrite Hend, !u32_small by lia.
  rewrite (proj2 (Z.eqb_neq (BLOCK_SIZE f) 0)), (proj2 (Z.eqb_neq size 0)) by lia. cbn.
  rewrite (proj2 (Z.eqb_neq (offset mod _) 0)) by lia.
  destruct (bm_lookup (offset / BLOCK_SIZE f)) as (n & -> & _); [lia|]. cbn.
  rewrite Z.eqb_refl, Hp. unfold BLOCKS2BYTES, wadd, wmul. rewrite Z.mul_0_l, (u64_small 0), Z.add_0_l by lia.
  rewrite u64_small by lia. unfold disk_read.
  by rewrite disk_read_in; [|apply (geo_fd f G)|lia|lia|lia].
Qed.

(** ** Witnesses: [/hello], whose second block is a hole *)

Definition hello_blocks (l : Z) : Z := if l =? 0 then 12 else if l =? 2 then 14 else 0.

Lemma hello_map : BlockMap 1 sample_fs (sample_inode 13) hello_blocks 3.
Proof.
  apply radix_block_map; [apply sample_fs_geometry|vm_compute; intuition discriminate..|].
  intros l Hl. assert (l = 0 \/ l = 1 \/ l = 2) as [-> |[-> | ->]] by lia;
    vm_compute; intuition discriminate.
Qed.

Example hello_inode : inode_get_by_number sample_fs 13 (repeat x00 156) = Ret (0, sample_inode 13).
Proof. vm_compute. reflexivity. Qed.

Lemma op_read_content_witness :
  op_read 1 sample_fs (repeat x00 156) 13 3000 500
  = Ret (2000, file_bytes sample_fs hello_blocks 500 2000) /\
  op_read 1 sample_fs (repeat x00 156) 13 3000 1030
  = Ret (1470, dev_bytes sample_image 6 1018 ++ file_bytes sample_fs hello_blocks 2048 452).
Proof.
  split.
  - refine (op_read_content 1 sample_fs (repeat x00 156) 13 (sample_inode 13) hello_blocks 3 3000 500
            hello_map sample_fs_geometry hello_inode _ _ _ _ _ _); vm_compute; intuition discriminate.
  - refine (op_read_content 1 sample_fs (repeat x00 156) 13 (sample_inode 13) hello_blocks 3 3000 1030
            hello_map sample_fs_geometry hello_inode _ _ _ _ _ _); vm_compute; intuition discriminate.
Defined.

Lemma first_read_hole_witness :
  first_read 1 sample_fs (sample_inode 13) 100 1030 = Ret (100, dev_bytes sample_image 6 100).
Proof.
  refine (first_read_hole 1 sample_fs (sample_inode 13) hello_blocks 3 100 1030
            hello_map sample_fs_geometry _ _ _ _ _ _ _ _); vm_compute; intuition discriminate.
Defined.
