(* ===== verification/Dcache.v ===== *)
(** * The directory entry cache ([src/fuse/dcache.c])

    Entries are heap cells; a pointer is the number of its cell and the static
    [root] is cell 0.  The children of an entry are a circular list through
    [siblings], entered at [childs].  [calloc] takes the next unused cell. *)

From Stdlib Require Import Strings.Byte.
From stdpp Require Import functions.
From S2P Require Import Prelude Bytes CString Layout.

Record dcache_entry := DcacheEntry {
  childs : option nat;
  siblings : option nat;
  inode : Z;
  name : list byte }.

Record dcache := Dcache { entries : gmap nat dcache_entry; next : nat }.

Definition root : nat := 0.

Definition zero_entry : dcache_entry :=
  DcacheEntry None None 0 (repeat NUL (Z.to_nat DCACHE_ENTRY_NAME_LEN)).

(** Static storage before [dcache_init_root]. *)
Definition dcache_start : dcache := Dcache {[ root := zero_entry ]} 1.

Definition entry (d : dcache) (p : nat) : outcome dcache_entry := from_option_undef (entries d !! p).

Definition update (p : nat) (e : dcache_entry) (d : dcache) : dcache :=
  Dcache (<[p := e]> (entries d)) (next d).

Definition set_childs (c : option nat) (e : dcache_entry) : dcache_entry :=
  DcacheEntry c (siblings e) (inode e) (name e).
Definition set_siblings (c : option nat) (e : dcache_entry) : dcache_entry :=
  DcacheEntry (childs e) c (inode e) (name e).

Definition dcache_init_root (d : dcache) (n : Z) : outcome (dcache * Z) :=
  r ← entry d root;
  if negb (inode r =? 0) then Ret (d, -1)
  else Ret (update root (DcacheEntry None (siblings r) n (name r)) d, 0).

(** [name] of a zeroed entry after [strncpy] of [namelen] bytes and the store
    of the terminator. *)
Definition entry_name (nm : list byte) (namelen : Z) : outcome (list byte) :=
  bs ← strncpy_bytes nm (Z.to_nat namelen);
  let buf := bs ++ drop (length bs) (name zero_entry) in
  c_defined (namelen <? DCACHE_ENTRY_NAME_LEN) ;;
  mret (<[Z.to_nat namelen := NUL]> buf).

Definition dcache_insert (d : dcache) (parent : option nat) (nm : list byte) (namelen n : Z)
    : outcome (option nat * dcache) :=
  if DCACHE_ENTRY_NAME_LEN <? namelen + 1 then Ret (None, d)
  else
    r ← entry d root;
    (if parent is None then c_assert (negb (inode r =? 0)) else Ret tt) ;;
    let parent := default root parent in
    let new_entry := next d in
    bs ← entry_name nm namelen;
    p ← entry d parent;
    match childs p with
    | None =>
        let d := Dcache (<[new_entry := DcacheEntry None (Some new_entry) n bs]> (entries d)) (S new_entry) in
        mret (Some new_entry, update parent (set_childs (Some new_entry) p) d)
    | Some c =>
        ce ← entry d c;
        let d := Dcache (<[new_entry := DcacheEntry None (siblings ce) n bs]> (entries d)) (S new_entry) in
        let d := update c (set_siblings (Some new_entry) ce) d in
        p ← entry d parent;
        mret (Some new_entry, update parent (set_childs (Some new_entry) p) d)
    end.

(** [strncmp(iter->name, name, namelen) == 0 && iter->name[namelen] == 0]. *)
Definition entry_matches (e : dcache_entry) (nm : list byte) (namelen : Z) : outcome bool :=
  c ← strncmp (name e) nm (Z.to_nat namelen);
  if negb (c =? 0) then Ret false
  else ch ← char_at (name e) namelen; mret (bool_decide (ch = NUL)).

(** The [do]-[while] over the siblings; [rounds] bounds it. *)
Fixpoint lookup_loop (rounds : nat) (d : dcache) (first iter : nat) (nm : list byte) (namelen : Z)
    : outcome (option nat) :=
  match rounds with
  | O => OutOfFuel
  | S rounds =>
      e ← entry d iter;
      m ← entry_matches e nm namelen;
      if (m : bool) then Ret (Some iter)
      else
        match siblings e with
        | None => Undefined
        | Some iter => if decide (iter = first) then Ret None
                       else lookup_loop rounds d first iter nm namelen
        end
  end.

Definition dcache_lookup (d : dcache) (parent : option nat) (nm : list byte) (namelen : Z)
    : outcome (option nat * dcache) :=
  let parent := default root parent in
  p ← entry d parent;
  match childs p with
  | None => Ret (None, d)
  | Some first =>
      r ← lookup_loop (size (entries d)) d first first nm namelen;
      match r with
      | None => Ret (None, d)
      | Some iter => Ret (Some iter, update parent (set_childs (Some iter) p) d)
      end
  end.

Definition dcache_get_inode (d : dcache) (e : option nat) : outcome Z :=
  e ← entry d (default root e); mret (inode e).

Lemma entry_Ret d p e : entries d !! p = Some e -> entry d p = Ret e.
Proof. unfold entry. by intros ->. Qed.

(** ** Circular lists *)

(** The cells of [cs] are linked in order and the last one to [last]. *)
Fixpoint chain (sib : nat -> option nat) (cs : list nat) (last : nat) : Prop :=
  match cs with
  | [] => True
  | c :: cs => sib c = Some (default last (head cs)) /\ chain sib cs last
  end.

Definition ring (sib : nat -> option nat) (cs : list nat) : Prop :=
  match cs with [] => True | c :: _ => chain sib cs c end.

Lemma head_app_default {A} (xs ys : list A) z :
  default z (head (xs ++ ys)) = default (default z (head ys)) (head xs).
Proof. by destruct xs. Qed.

Lemma chain_app sib xs ys z :
  chain sib (xs ++ ys) z <-> chain sib xs (default z (head ys)) /\ chain sib ys z.
Proof. induction xs as [|x xs IH]; cbn; [tauto|]. rewrite IH, head_app_default. tauto. Qed.

Lemma chain_ext sib sib' cs z :
  (forall c, c ∈ cs -> sib' c = sib c) -> chain sib cs z -> chain sib' cs z.
Proof.
  induction cs as [|c cs IH]; cbn; [done|]. intros H [H1 H2]. split.
  - rewrite H; [done|left].
  - apply IH; [|done]. intros. apply H. by right.
Qed.

(** Entering the ring elsewhere. *)
Lemma ring_rotate sib xs c ys : ring sib (xs ++ c :: ys) -> ring sib (c :: ys ++ xs).
Proof.
  intros H. unfold ring in *. cbn. rewrite chain_app.
  assert (exists h, head (xs ++ [c]) = Some h /\ chain sib (xs ++ c :: ys) h) as (h & Hh & Hc).
  { destruct xs; cbn in *; eauto. }
  apply chain_app in Hc as [Hx [Hc Hy]].
  assert (h = default c (head xs)) as -> by (destruct xs; cbn in *; congruence).
  rewrite head_app_default. done.
Qed.

(** A cell linked in after the head. *)
Lemma ring_insert sib sib' c cs n :
  ring sib (c :: cs) -> NoDup (c :: cs) -> n ∉ c :: cs ->
  sib' n = sib c -> sib' c = Some n -> (forall x, x ∈ cs -> sib' x = sib x) ->
  ring sib' (n :: cs ++ [c]).
Proof.
  intros [Hc Hcs] Hnd Hn E1 E2 E3. unfold ring. cbn [chain]. rewrite chain_app. cbn.
  split; [|split; [by eapply chain_ext|done]].
  rewrite E1, Hc, head_app_default. done.
Qed.

Lemma length_le_size {A} (m : gmap nat A) l :
  NoDup l -> (forall x, x ∈ l -> is_Some (m !! x)) -> (length l <= size m)%nat.
Proof.
  intros Hnd H. rewrite <- size_dom. rewrite <- (size_list_to_set (C := gset nat) l Hnd).
  apply subseteq_size. intros x Hx. apply elem_of_dom, H. set_solver.
Qed.

(** ** The invariant

    [kids p] lists the children of [p] in the order the ring is walked. *)

(** The name and the inode number an entry stands for. *)
Definition label (d : dcache) (c : nat) : option (list byte * Z) :=
  (fun e => (until_nul (name e), inode e)) <$> entries d !! c.

Definition sib (d : dcache) (c : nat) : option nat := entries d !! c ≫= siblings.

Record dc_inv (d : dcache) (kids : nat -> list nat) : Prop := {
  inv_root : is_Some (entries d !! root);
  inv_heads p e : entries d !! p = Some e -> childs e = head (kids p);
  inv_ring p : ring (sib d) (kids p);
  inv_kids p c : c ∈ kids p -> is_Some (entries d !! c) /\ is_Some (entries d !! p);
  inv_nodup p : NoDup (kids p);
  inv_disjoint p q c : c ∈ kids p -> c ∈ kids q -> p = q;
  inv_fresh c : is_Some (entries d !! c) -> (c < next d)%nat;
  inv_names c e : entries d !! c = Some e ->
    Z.of_nat (length (name e)) = DCACHE_ENTRY_NAME_LEN /\
    exists u, name e = until_nul (name e) ++ NUL :: u }.

(** ** Lookup *)

Lemma entry_matches_text e tok rest u :
  name e = until_nul (name e) ++ NUL :: u -> text tok ->
  entry_matches e (tok ++ rest) (Z.of_nat (length tok))
  = Ret (bool_decide (until_nul (name e) = tok)).
Proof.
  intros Hu Ht. unfold entry_matches. rewrite Nat2Z.id. rewrite Hu at 1.
  destruct (strncmp_prefix (until_nul (name e)) tok u rest) as (x & -> & Hx);
    [apply until_nul_text|done|]. cbn.
  destruct (Z.eqb_spec x 0) as [E|E]; cbn.
  - apply Hx in E as [v Hv]. rewrite Hu, Hv at 1. rewrite <- app_assoc.
    destruct v as [|y v].
    + rewrite app_nil_r in Hv. rewrite (char_at_lookup _ _ NUL); [|lia|].
      * cbn. by rewrite !bool_decide_true.
      * rewrite Nat2Z.id, lookup_app_r, Nat.sub_diag by lia. done.
    + rewrite (char_at_lookup _ _ y); [|lia|].
      * cbn. pose proof (until_nul_text (name e)) as Htx. rewrite Hv in Htx.
        apply text_app in Htx as [_ [Hy _]%text_cons].
        rewrite !bool_decide_false; [done| |done].
        rewrite Hv. intros E%(f_equal length). rewrite length_app in E. cbn in E. lia.
      * rewrite Nat2Z.id, lookup_app_r, Nat.sub_diag by lia. done.
  - rewrite bool_decide_false; [done|]. intros E'. apply E, Hx. exists []. by rewrite app_nil_r.
Qed.

Lemma entry_matches_spec d c e tok rest kids :
  dc_inv d kids -> entries d !! c = Some e -> text tok ->
  entry_matches e (tok ++ rest) (Z.of_nat (length tok))
  = Ret (bool_decide (until_nul (name e) = tok)).
Proof. intros I He Ht. destruct (inv_names _ _ I c e He) as [_ [u Hu]]. by apply (entry_matches_text _ _ _ u). Qed.

Definition has_name (d : dcache) (tok : list byte) (c : nat) : Prop :=
  fst <$> label d c = Some tok.

Lemma has_name_entry d tok c e :
  entries d !! c = Some e -> has_name d tok c <-> until_nul (name e) = tok.
Proof. intros He. unfold has_name, label. rewrite He. cbn. naive_solver. Qed.

Lemma lookup_loop_spec d kids first tok rest rounds c cs :
  dc_inv d kids -> text tok ->
  (forall x, x ∈ c :: cs -> is_Some (entries d !! x)) ->
  chain (sib d) (c :: cs) first -> first ∉ cs -> (length (c :: cs) <= rounds)%nat ->
  exists r, lookup_loop rounds d first c (tok ++ rest) (Z.of_nat (length tok)) = Ret r /\
    match r with
    | Some x => x ∈ c :: cs /\ has_name d tok x
    | None => forall x, x ∈ c :: cs -> ~ has_name d tok x
    end.
Proof.
  intros I Ht. revert c cs. induction rounds as [|rounds IH]; intros c cs Hin Hch Hf Hr; [cbn in Hr; lia|].
  destruct (Hin c ltac:(left)) as [e He]. cbn [lookup_loop]. unfold entry. rewrite He. cbn.
  rewrite (entry_matches_spec _ _ _ _ _ _ I He Ht). cbn.
  destruct (bool_decide_reflect (until_nul (name e) = tok)) as [Hm|Hm].
  { exists (Some c). split; [done|]. split; [left|]. by eapply has_name_entry. }
  destruct Hch as [Hsib Hch]. unfold sib in Hsib. rewrite He in Hsib. cbn in Hsib. rewrite Hsib.
  assert (~ has_name d tok c) as Hnc by (by rewrite has_name_entry).
  destruct cs as [|c' cs]; cbn [head default].
  - rewrite decide_True by done. exists None. split; [done|]. set_solver.
  - rewrite decide_False by set_solver. destruct (IH c' cs) as (r & Hr' & Hspec).
    + set_solver.
    + done.
    + set_solver.
    + cbn in *. lia.
    + exists r. split; [done|]. destruct r; set_solver.
Qed.

(** ** Updates of an entry *)

Lemma label_update d p e e' q :
  entries d !! p = Some e -> name e' = name e -> inode e' = inode e ->
  label (update p e' d) q = label d q.
Proof.
  intros He En Ei. unfold label, update. cbn. destruct (decide (q = p)) as [->|].
  - rewrite lookup_insert_eq, He. cbn. by rewrite En, Ei.
  - by rewrite lookup_insert_ne.
Qed.

Lemma sib_update d p e e' q :
  entries d !! p = Some e -> siblings e' = siblings e -> sib (update p e' d) q = sib d q.
Proof.
  intros He Es. unfold sib, update. cbn. destruct (decide (q = p)) as [->|].
  - rewrite lookup_insert_eq, He. done.
  - by rewrite lookup_insert_ne.
Qed.

Lemma ring_ext s s' cs : (forall c, c ∈ cs -> s' c = s c) -> ring s cs -> ring s' cs.
Proof. destruct cs; [done|]. apply chain_ext. Qed.

(** Re-entering the ring of [p] at another of its cells. *)
Lemma rotate_inv d kids p e xs c ys :
  dc_inv d kids -> entries d !! p = Some e -> kids p = xs ++ c :: ys ->
  dc_inv (update p (set_childs (Some c) e) d) (<[p := c :: ys ++ xs]> kids).
Proof.
  intros I He Hk. set (d' := update _ _ _). set (kids' := <[p := _]> kids).
  assert (forall q, kids' q ≡ₚ kids q) as HP.
  { intros q. unfold kids'. destruct (decide (p = q)) as [<-|].
    - rewrite fn_lookup_insert, Hk. by rewrite <- Permutation_middle, Permutation_app_comm.
    - by rewrite fn_lookup_insert_ne. }
  assert (forall q, is_Some (entries d' !! q) <-> is_Some (entries d !! q)) as Hdom.
  { intros q. unfold d'. cbn. rewrite lookup_insert_is_Some. split; [|destruct (decide (p = q)); eauto].
    intros [<-|[_ ?]]; eauto. }
  split.
  - apply Hdom, (inv_root _ _ I).
  - intros q e' Hq. unfold kids', d' in *. cbn in Hq. destruct (decide (p = q)) as [<-|].
    + rewrite lookup_insert_eq in Hq. injection Hq as <-. by rewrite fn_lookup_insert.
    + rewrite lookup_insert_ne in Hq by done. rewrite fn_lookup_insert_ne by done.
      by apply (inv_heads _ _ I).
  - intros q. apply (ring_ext (sib d)); [intros; by apply (sib_update d p e)|].
    unfold kids'. destruct (decide (p = q)) as [<-|].
    + rewrite fn_lookup_insert. apply ring_rotate. rewrite <- Hk. apply (inv_ring _ _ I).
    + rewrite fn_lookup_insert_ne by done. apply (inv_ring _ _ I).
  - intros q x. rewrite HP, !Hdom. apply (inv_kids _ _ I).
  - intros q. rewrite HP. apply (inv_nodup _ _ I).
  - intros q q' x. rewrite !HP. apply (inv_disjoint _ _ I).
  - intros x. rewrite Hdom. apply (inv_fresh _ _ I).
  - intros x e' Hx. unfold d' in Hx. cbn in Hx. destruct (decide (p = x)) as [<-|].
    + rewrite lookup_insert_eq in Hx. injection Hx as <-. by apply (inv_names _ _ I p e).
    + rewrite lookup_insert_ne in Hx by done. by apply (inv_names _ _ I x).
Qed.

Lemma lookup_refines d kids parent tok rest :
  dc_inv d kids -> is_Some (entries d !! default root parent) -> text tok ->
  exists r d' kids', dcache_lookup d parent (tok ++ rest) (Z.of_nat (length tok)) = Ret (r, d') /\
    dc_inv d' kids' /\ (forall q, kids' q ≡ₚ kids q) /\ (forall q, label d' q = label d q) /\
    match r with
    | Some c => c ∈ kids (default root parent) /\ has_name d tok c
    | None => forall c, c ∈ kids (default root parent) -> ~ has_name d tok c
    end.
Proof.
  intros I [e He] Ht. set (p := default root parent) in *.
  unfold dcache_lookup, entry. fold p. rewrite He. cbn.
  pose proof (inv_heads _ _ I p e He) as Hh. rewrite Hh.
  destruct (kids p) as [|c cs] eqn:Hk; cbn.
  { exists None, d, kids. do 4 (split; [done|]). intros c Hc. inversion Hc. }
  pose proof (inv_ring _ _ I p) as Hr. pose proof (inv_nodup _ _ I p) as Hnd. rewrite Hk in Hr, Hnd.
  assert (forall x, x ∈ c :: cs -> is_Some (entries d !! x)) as Hin.
  { intros x Hx. rewrite <- Hk in Hx. by apply (inv_kids _ _ I) in Hx as [? _]. }
  destruct (lookup_loop_spec d kids c tok rest (size (entries d)) c cs) as (r & -> & Hspec);
    [done|done|done|exact Hr|by apply NoDup_cons in Hnd as [? _]|by apply length_le_size|].
  cbn. destruct r as [x|].
  - destruct Hspec as [Hx Hn]. apply list_elem_of_split in Hx as Hs. destruct Hs as (xs & ys & Hs).
    eexists _, _, _. split; [done|]. split; [by eapply (rotate_inv d kids p e xs x ys); [| |congruence]|].
    split; [|split; [intros; by apply (label_update d p e)|done]].
    intros q. destruct (decide (p = q)) as [<-|].
    + rewrite fn_lookup_insert, Hk, Hs. by rewrite <- Permutation_middle, Permutation_app_comm.
    + by rewrite fn_lookup_insert_ne.
  - exists None, d, kids. do 4 (split; [done|]). exact Hspec.
Qed.

(** C8: on a well-formed cache, [dcache_lookup] of one path component stays in
    bounds and terminates; it answers a child of the parent with exactly that
    name, or NULL only when no child has it, whatever follows the component in
    the path; names, inode numbers and the set of children of every entry are
    unchanged (the ring is only entered elsewhere). *)
Theorem dcache_lookup_refines d kids parent tok rest :
  dc_inv d kids -> is_Some (entries d !! default root parent) -> text tok ->
  exists r d' kids', dcache_lookup d parent (tok ++ rest) (Z.of_nat (length tok)) = Ret (r, d') /\
    dc_inv d' kids' /\ (forall q, kids' q ≡ₚ kids q) /\ (forall q, label d' q = label d q) /\
    match r with
    | Some c => c ∈ kids (default root parent) /\ has_name d tok c
    | None => forall c, c ∈ kids (default root parent) -> ~ has_name d tok c
    end.
Proof. apply lookup_refines. Qed.

(** ** Insertion *)

Definition ring_add (n : nat) (cs : list nat) : list nat :=
  match cs with [] => [n] | c :: cs => n :: cs ++ [c] end.

Lemma ring_add_perm n cs : ring_add n cs ≡ₚ n :: cs.
Proof. destruct cs as [|c cs]; [done|]. cbn. by rewrite Permutation_app_comm. Qed.

(** What an insertion of [n] under [p] does to the cells. *)
Record inserted (d d' : dcache) (p n : nat) (cs : list nat) (tok : list byte) (ino : Z) : Prop := {
  ins_dom q : is_Some (entries d' !! q) <-> q = n \/ is_Some (entries d !! q);
  ins_next : next d' = S n;
  ins_childs q e : entries d' !! q = Some e ->
    childs e = if decide (q = p) then Some n else if decide (q = n) then None else entries d !! q ≫= childs;
  ins_sib q : sib d' q =
    if decide (q = n) then match cs with [] => Some n | c :: _ => sib d c end
    else if decide (head cs = Some q) then Some n else sib d q;
  ins_label q : label d' q = if decide (q = n) then Some (tok, ino) else label d q;
  ins_names q e : entries d' !! q = Some e -> q <> n -> exists e0, entries d !! q = Some e0 /\ name e = name e0;
  ins_name e : entries d' !! n = Some e -> name e = tok ++ NUL :: repeat NUL (39 - length tok) }.

(** The rings after an insertion: the parent's ring has grown by the new
    entry, the new entry has no children, the others are as before. *)
Lemma inserted_kids d kids p q :
  let n := next d in
  dc_inv d kids -> is_Some (entries d !! p) ->
  (is_Some (entries d !! q) -> q <> n) /\ n ∉ kids q /\ kids n = [] /\
  <[p := ring_add n (kids p)]> kids q = (if decide (q = p) then ring_add n (kids p) else kids q) /\
  (forall x, x ∈ <[p := ring_add n (kids p)]> kids q <-> (q = p /\ x = n) \/ x ∈ kids q).
Proof.
  intros n I Hp.
  assert (forall q, is_Some (entries d !! q) -> q <> n) as Hold.
  { intros r Hq%(inv_fresh _ _ I) ->. unfold n in Hq. lia. }
  assert (<[p := ring_add n (kids p)]> kids q = (if decide (q = p) then ring_add n (kids p) else kids q)) as Hk.
  { destruct (decide (q = p)) as [->|]; [by rewrite fn_lookup_insert|by rewrite fn_lookup_insert_ne]. }
  split; [apply Hold|]. split; [intros [H _]%(inv_kids _ _ I); by apply Hold in H|]. split; [|split; [done|]].
  - destruct (kids n) as [|c cs] eqn:E; [done|]. destruct (inv_kids _ _ I n c) as [_ H].
    + rewrite E. left.
    + by apply Hold in H.
  - intros x. rewrite Hk. destruct (decide (q = p)) as [->|]; [|naive_solver].
    rewrite ring_add_perm, elem_of_cons. naive_solver.
Qed.

Lemma inserted_ring d d' kids p tok ino q :
  dc_inv d kids -> is_Some (entries d !! p) ->
  inserted d d' p (next d) (kids p) tok ino ->
  ring (sib d') (<[p := ring_add (next d) (kids p)]> kids q).
Proof.
  intros I Hp F.
  destruct (inserted_kids d kids p q I Hp) as (_ & Hnk & _ & Hk & _). rewrite Hk.
  pose proof (inv_ring _ _ I) as Hr. pose proof (inv_nodup _ _ I p) as Hnd.
  pose proof (ins_sib _ _ _ _ _ _ _ F) as Hsib. destruct (decide (q = p)) as [->|Hqp].
  - specialize (Hr p). destruct (kids p) as [|c cs] eqn:E; cbn [ring_add].
    { cbn. split; [|done]. by rewrite Hsib, decide_True. }
    assert (c <> next d) by (intros ->; apply Hnk; left).
    apply (ring_insert (sib d)); [done|done|apply Hnk|..].
    + by rewrite Hsib, decide_True.
    + by rewrite Hsib, decide_False, decide_True.
    + intros x Hx. apply NoDup_cons in Hnd as [Hc _]. rewrite Hsib, !decide_False; [done|set_solver|].
      intros ->. apply Hnk. by right.
  - apply (ring_ext (sib d)); [|done]. intros c Hc. rewrite Hsib, !decide_False; [done| |].
    + intros Hh. apply Hqp, (inv_disjoint _ _ I q p c); [done|].
      destruct (kids p); simplify_eq/=. left.
    + intros ->. by apply Hnk.
Qed.

Lemma inserted_inv d d' kids p tok ino :
  dc_inv d kids -> is_Some (entries d !! p) -> text tok -> (length tok <= 39)%nat ->
  inserted d d' p (next d) (kids p) tok ino ->
  dc_inv d' (<[p := ring_add (next d) (kids p)]> kids).
Proof.
  intros I Hp Ht Hlen F. set (n := next d) in *. set (kids' := <[p := _]> kids).
  pose proof (fun q => inserted_kids d kids p q I Hp) as K. cbv zeta in K. fold n kids' in K.
  assert (forall q x, x ∈ kids' q <-> (q = p /\ x = n) \/ x ∈ kids q) as Hin by (intros q; apply K).
  split.
  - apply (ins_dom _ _ _ _ _ _ _ F). right. apply (inv_root _ _ I).
  - intros q e He. destruct (K q) as (_ & _ & Hkn & Hk & _).
    rewrite (ins_childs _ _ _ _ _ _ _ F q e He), Hk.
    destruct (decide (q = p)); [by destruct (kids p)|].
    destruct (decide (q = n)) as [->|Hqn]; [by rewrite Hkn|].
    destruct (entries d !! q) as [e0|] eqn:E0; [by apply (inv_heads _ _ I)|].
    assert (is_Some (entries d' !! q)) as [|[? ?]]%(ins_dom _ _ _ _ _ _ _ F) by eauto; congruence.
  - intros q. by eapply inserted_ring.
  - intros q x [[-> ->]|[? ?]%(inv_kids _ _ I)]%Hin; rewrite !(ins_dom _ _ _ _ _ _ _ F); auto.
  - intros q. destruct (K q) as (_ & Hnk & _ & Hk & _). rewrite Hk.
    destruct (decide (q = p)) as [->|]; [|apply (inv_nodup _ _ I)].
    rewrite ring_add_perm. apply NoDup_cons. split; [apply Hnk|apply (inv_nodup _ _ I)].
  - intros q q' x. rewrite !Hin. pose proof (fun q => proj1 (proj2 (K q))) as Hnk.
    intros [[-> ->]|H1] [[-> E]|H2]; try done; try congruence.
    + by apply Hnk in H2.
    + subst. by apply Hnk in H1.
    + by apply (inv_disjoint _ _ I q q' x).
  - intros x. rewrite (ins_dom _ _ _ _ _ _ _ F), (ins_next _ _ _ _ _ _ _ F).
    intros [->|H%(inv_fresh _ _ I)]; [lia|]. unfold n. lia.
  - intros x e He. destruct (decide (x = n)) as [->|Hne].
    + rewrite (ins_name _ _ _ _ _ _ _ F e He). split.
      * rewrite length_app. cbn. rewrite repeat_length. unfold DCACHE_ENTRY_NAME_LEN. lia.
      * rewrite until_nul_app by done. eauto.
    + destruct (ins_names _ _ _ _ _ _ _ F x e He Hne) as (e0 & He0 & ->).
      by apply (inv_names _ _ I x).
Qed.

Lemma entry_name_eq tok rest :
  text tok -> (length tok <= 39)%nat ->
  entry_name (tok ++ rest) (Z.of_nat (length tok)) = Ret (tok ++ NUL :: repeat NUL (39 - length tok)).
Proof.
  intros Ht Hl. unfold entry_name, DCACHE_ENTRY_NAME_LEN. rewrite Nat2Z.id, strncpy_text by done. cbn -[repeat].
  rewrite (proj2 (Z.ltb_lt _ _)) by lia. cbn -[repeat]. f_equal.
  assert (drop (length tok) (repeat NUL 40) = NUL :: repeat NUL (39 - length tok)) as E.
  { rewrite drop_repeat. by replace (40 - length tok)%nat with (S (39 - length tok)) by lia. }
  change (Z.to_nat DCACHE_ENTRY_NAME_LEN) with 40%nat. rewrite E.
  by rewrite insert_app_r_alt, Nat.sub_diag by lia.
Qed.

Ltac cell_cases :=
  repeat match goal with
  | H : context [<[?i := _]> _ !! ?j] |- _ => rewrite lookup_insert in H
  | |- context [<[?i := _]> _ !! ?j] => rewrite lookup_insert
  | H : context [decide (?i = ?j :> nat)] |- _ => destruct (decide (i = j)); subst
  | |- context [decide (?i = ?j :> nat)] => destruct (decide (i = j)); subst
  end; simplify_eq/=; try done.

Lemma inserted_first d p pe tok ino :
  text tok -> entries d !! p = Some pe -> entries d !! next d = None -> childs pe = None ->
  let n := next d in
  let e := DcacheEntry None (Some n) ino (tok ++ NUL :: repeat NUL (39 - length tok)) in
  inserted d (update p (set_childs (Some n) pe) (Dcache (<[n := e]> (entries d)) (S n))) p n [] tok ino.
Proof.
  intros Ht Hp Hn Hc n e. assert (n <> p) by (unfold n; congruence).
  split; unfold update, sib, label; cbn.
  - intros q. rewrite !lookup_insert_is_Some'. split; [intros [<-|[<-|?]]|intros [->|?]]; eauto.
  - done.
  - intros q e' He. cell_cases. by rewrite He.
  - intros q. cell_cases; by rewrite ?Hp.
  - intros q. cell_cases; by rewrite ?Hp, ?until_nul_app.
  - intros q e' He Hq. cell_cases; eauto.
  - intros e' He. cell_cases.
Qed.

Lemma inserted_next d p pe c ce cs pe' tok ino :
  text tok -> entries d !! p = Some pe -> entries d !! next d = None -> entries d !! c = Some ce ->
  let n := next d in
  let e := DcacheEntry None (siblings ce) ino (tok ++ NUL :: repeat NUL (39 - length tok)) in
  let m := <[c := set_siblings (Some n) ce]> (<[n := e]> (entries d)) in
  m !! p = Some pe' ->
  inserted d (update p (set_childs (Some n) pe') (Dcache m (S n))) p n (c :: cs) tok ino.
Proof.
  intros Ht Hp Hn Hc n e m Hm. assert (n <> p) by (unfold n; congruence).
  assert (n <> c) by (unfold n; congruence).
  assert (name pe' = name pe /\ inode pe' = inode pe /\
          siblings pe' = if decide (c = p) then Some n else siblings pe) as (En & Ei & Es).
  { unfold m in Hm. cell_cases. }
  split; unfold update, sib, label; cbn.
  - intros q. unfold m. rewrite !lookup_insert_is_Some'.
    split; [intros [<-|[<-|[<-|?]]]|intros [->|?]]; eauto.
  - done.
  - intros q e' He. unfold m in *. cell_cases; by rewrite ?He, ?Hc.
  - intros q. destruct (decide (Some c = Some q)) as [E|E]; simplify_eq; unfold m in *; cell_cases;
      by rewrite ?Hc, ?Hp.
  - intros q. unfold m in *. cell_cases; by rewrite ?Hp, ?Hc, ?En, ?Ei, ?until_nul_app.
  - intros q e' He Hq. unfold m in *. cell_cases; eauto.
  - intros e' He. unfold m in *. cell_cases.
Qed.

Lemma insert_refines d kids parent tok rest ino :
  dc_inv d kids -> is_Some (entries d !! default root parent) -> text tok -> (length tok <= 39)%nat ->
  (parent = None -> fmap snd (label d root) <> Some 0) ->
  exists d', let n := next d in let p := default root parent in
    dcache_insert d parent (tok ++ rest) (Z.of_nat (length tok)) ino = Ret (Some n, d') /\
    dc_inv d' (<[p := ring_add n (kids p)]> kids) /\ kids n = [] /\ entries d !! n = None /\
    is_Some (entries d' !! n) /\
    (forall q, is_Some (entries d !! q) -> is_Some (entries d' !! q)) /\
    (forall q, label d' q = if decide (q = n) then Some (tok, ino) else label d q).
Proof.
  intros I [pe Hp] Ht Hlen Hroot. set (p := default root parent) in *.
  destruct (inv_root _ _ I) as [re Hre].
  assert (entries d !! next d = None) as Hn.
  { apply eq_None_not_Some. intros H%(inv_fresh _ _ I). lia. }
  assert (kids (next d) = []) as Hkn.
  { destruct (kids (next d)) as [|c cs] eqn:E; [done|].
    destruct (inv_kids _ _ I (next d) c) as [_ [? ?]]; [rewrite E; left|congruence]. }
  assert (exists d', dcache_insert d parent (tok ++ rest) (Z.of_nat (length tok)) ino = Ret (Some (next d), d') /\
    inserted d d' p (next d) (kids p) tok ino) as (d' & Hd & F).
  { unfold dcache_insert. rewrite (proj2 (Z.ltb_ge _ _)) by (unfold DCACHE_ENTRY_NAME_LEN; lia).
    rewrite (entry_Ret _ _ _ Hre). cbn [mbind outcome_bind].
    assert ((if parent is None then c_assert (negb (inode re =? 0)) else Ret tt) = Ret tt) as ->.
    { destruct parent; [done|]. unfold label in Hroot. rewrite Hre in Hroot. cbn in Hroot.
      destruct (Z.eqb_spec (inode re) 0); [|done]. by destruct Hroot; [|f_equal]. }
    cbn [mbind outcome_bind]. fold p. rewrite entry_name_eq by done. cbn [mbind outcome_bind].
    rewrite (entry_Ret _ _ _ Hp). cbn [mbind outcome_bind].
    pose proof (inv_heads _ _ I p pe Hp) as Hh. destruct (childs pe) as [c|] eqn:Ec.
    - destruct (kids p) as [|c' cs] eqn:Hk; simplify_eq/=.
      destruct (inv_kids _ _ I p c') as [[ce Hc] _]; [rewrite Hk; left|].
      rewrite (entry_Ret _ _ _ Hc). cbn [mbind outcome_bind].
      match goal with |- context [entry ?m p] => assert (is_Some (entries m !! p)) as [pe' Hpe'] end.
      { cbn. rewrite !lookup_insert_is_Some'. eauto. }
      rewrite (entry_Ret _ _ _ Hpe'). cbn. eexists. split; [done|]. by eapply inserted_next.
    - destruct (kids p) as [|c' cs] eqn:Hk; simplify_eq/=.
      eexists. split; [done|]. by eapply inserted_first. }
  exists d'. cbv zeta. split; [done|]. split; [by eapply inserted_inv|]. do 2 (split; [done|]).
  split; [apply (ins_dom _ _ _ _ _ _ _ F); by left|].
  split; [intros q Hq; apply (ins_dom _ _ _ _ _ _ _ F); by right|apply (ins_label _ _ _ _ _ _ _ F)].
Qed.

(** C7: inserting a component of at most 39 bytes makes a fresh entry a child
    of the parent (the root when it is NULL), with exactly that name and inode
    number and no children; every other entry keeps its name, number and set
    of children, and the cache stays well formed.  A longer component is
    refused: NULL is returned and nothing changes. *)
Theorem dcache_insert_refines d kids parent tok rest ino :
  dc_inv d kids -> is_Some (entries d !! default root parent) -> text tok ->
  (parent = None -> fmap snd (label d root) <> Some 0) ->
  let r := dcache_insert d parent (tok ++ rest) (Z.of_nat (length tok)) ino in
  ((39 < length tok)%nat -> r = Ret (None, d)) /\
  ((length tok <= 39)%nat -> exists c d' kids', r = Ret (Some c, d') /\
     dc_inv d' kids' /\ entries d !! c = None /\ kids' c = [] /\
     (forall q, kids' q ≡ₚ if decide (q = default root parent) then c :: kids q else kids q) /\
     (forall q, label d' q = if decide (q = c) then Some (tok, ino) else label d q)).
Proof.
  intros I Hp Ht Hroot r. split.
  - intros Hlen. unfold r, dcache_insert, DCACHE_ENTRY_NAME_LEN. by rewrite (proj2 (Z.ltb_lt _ _)) by lia.
  - intros Hlen. destruct (insert_refines d kids parent tok rest ino) as (d' & Hd & I' & Hk & Hn & _ & _ & Hl);
      [done..|]. eexists _, d', _. split; [exact Hd|]. split; [exact I'|]. split; [done|].
    assert (next d <> default root parent) as Hne by (intros E; rewrite <- E, Hn in Hp; by destruct Hp).
    split; [by rewrite fn_lookup_insert_ne by done|]. split; [|done].
    intros q. destruct (decide (q = default root parent)) as [->|].
    + rewrite fn_lookup_insert. apply ring_add_perm.
    + by rewrite fn_lookup_insert_ne.
Qed.

Lemma single_root_inv e n :
  childs e = None -> name e = name zero_entry -> (0 < n)%nat ->
  dc_inv (Dcache {[ root := e ]} n) (fun _ => []).
Proof.
  intros Hc Hn Hpos. set (d := Dcache _ n).
  assert (forall q e', entries d !! q = Some e' -> q = root /\ e' = e) as Hd.
  { intros q e' H. by apply (lookup_singleton_Some root q e e') in H as [<- <-]. }
  split.
  - exists e. by apply lookup_singleton_Some.
  - intros p e' [_ ->]%Hd. done.
  - done.
  - intros p c Hx. inversion Hx.
  - intros. constructor.
  - intros p q c Hx. inversion Hx.
  - intros c [e' [-> _]%Hd]. done.
  - intros c e' [_ ->]%Hd. rewrite Hn. split; [done|]. by exists (repeat NUL 39).
Qed.

(** [dcache_init_root] on zeroed static storage; a second one is refused. *)
Lemma init_root_spec n :
  n <> 0 -> exists d, dcache_init_root dcache_start n = Ret (d, 0) /\
    dc_inv d (fun _ => []) /\ label d root = Some ([], n) /\
    (forall m, dcache_init_root d m = Ret (d, -1)).
Proof.
  intros Hn. set (e := DcacheEntry None None n (name zero_entry)).
  exists (Dcache {[ root := e ]} 1). split; [reflexivity|]. split; [apply single_root_inv; (done || lia)|].
  split; [reflexivity|]. intros m. unfold dcache_init_root.
  rewrite (entry_Ret _ root e) by reflexivity. cbn [mbind outcome_bind inode e].
  by rewrite (proj2 (Z.eqb_neq n 0)).
Qed.

(** ** Witnesses: a cache holding [/sub] *)

Definition tok_sub : list byte := [x73; x75; x62].

Definition one_child : outcome (option nat * dcache) :=
  '(d, _) ← dcache_init_root dcache_start 2; dcache_insert d None (cstring tok_sub) 3 12.

Lemma dcache_insert_refines_witness :
  exists c d' kids', one_child = Ret (Some c, d') /\ dc_inv d' kids' /\
    label d' c = Some (tok_sub, 12).
Proof.
  destruct (init_root_spec 2) as (d & Hd & I & Hl & _); [done|].
  destruct (dcache_insert_refines d (fun _ => []) None tok_sub [NUL] 12 I) as [_ H].
  - apply (inv_root _ _ I).
  - vm_compute. set_solver.
  - by rewrite Hl.
  - destruct H as (c & d' & kids' & Hr & I' & _ & _ & _ & Hlab); [cbn; lia|].
    exists c, d', kids'. split; [unfold one_child; rewrite Hd; exact Hr|].
    split; [exact I'|]. rewrite Hlab. by rewrite decide_True.
Defined.

Lemma dcache_lookup_refines_witness :
  exists r d' d kids, dc_inv d kids /\ dcache_lookup d None (cstring tok_sub) 3 = Ret (r, d').
Proof.
  destruct (init_root_spec 2) as (d & Hd & I & Hl & _); [done|].
  destruct (dcache_lookup_refines d (fun _ => []) None tok_sub [NUL] I) as (r & d' & _ & Hr & _).
  - apply (inv_root _ _ I).
  - vm_compute. set_solver.
  - exists r, d', d, (fun _ => []). split; [exact I|exact Hr].
Defined.

Example lookup_found :
  (fun r => fst r) <$> ('(_, d) ← one_child; dcache_lookup d None (cstring tok_sub) 3) = Ret (Some 1%nat).
Proof. vm_compute. reflexivity. Qed.
