(* ===== verification/Path.v ===== *)
(** * Path lookup ([src/fuse/inode.c], second half)

    A pointer into the path is the list of bytes from it to the terminator,
    included. *)

From Stdlib Require Import Strings.Byte.
From stdpp Require Import functions.
From S2P Require Import Prelude Bytes CString Layout Disk Image Super Extents Inode Dcache.

Definition ROOT_INODE_N : Z := 2.
Definition SLASH : byte := x2f.
Definition IS_PATH_SEPARATOR (c : byte) : bool := bool_decide (c = SLASH).

Definition S_ISDIR (mode : Z) : bool := Z.land mode 0xF000 =? 0x4000.

(** The [uint8_t] counter wraps, so [rounds] can be spent for good. *)
Fixpoint token_len_loop (rounds : nat) (path : list byte) (len : Z) : outcome Z :=
  match rounds with
  | O => OutOfFuel
  | S rounds =>
      c ← char_at path len;
      if negb (bool_decide (c = SLASH)) && negb (bool_decide (c = NUL))
      then token_len_loop rounds path (u8 (len + 1))
      else Ret len
  end.

(** Within 256 rounds the counter has stopped or comes back to 0. *)
Definition get_path_token_len (path : list byte) : outcome Z := token_len_loop 256 path 0.

(** The loop of [get_cached_inode_num]: the advanced path, the deepest cached
    entry and the cache (lookups re-enter rings). *)
Fixpoint cached_loop (rounds : nat) (d : dcache) (path : list byte) (next : option nat)
    : outcome (list byte * option nat * dcache) :=
  match rounds with
  | O => OutOfFuel
  | S rounds =>
      c ← char_at path 0;
      let path := if bool_decide (c = SLASH) then drop 1 path else path in
      path_len ← get_path_token_len path;
      let ret := next in
      if path_len =? 0 then Ret (path, ret, d)
      else
        '(next, d) ← dcache_lookup d ret path path_len;
        match next with
        | None => Ret (path, ret, d)
        | Some _ => cached_loop rounds d (drop (Z.to_nat path_len) path) next
        end
  end.

Definition get_cached_inode_num (rounds : nat) (d : dcache) (path : list byte)
    : outcome (list byte * option nat * dcache) := cached_loop rounds d path None.

Fixpoint skip_trailing_backslash (path : list byte) : outcome (list byte) :=
  match path with
  | [] => Undefined
  | c :: path' => if IS_PATH_SEPARATOR c then skip_trailing_backslash path' else Ret path
  end.

(** The inner loop: the inode number of the entry named by the first
    [path_len] bytes of [path]. *)
Fixpoint dir_search (rounds fuel : nat) (f : fs) (ino : list byte) (offset : Z) (dctx : inode_dir_ctx)
    (path : list byte) (path_len : Z) : outcome (option Z) :=
  match rounds with
  | O => OutOfFuel
  | S rounds =>
      '(dentry, dctx) ← inode_dentry_get fuel f ino offset dctx;
      match dentry with
      | None => Ret None
      | Some pos =>
          let buf := dc_buf dctx in
          rec_len ← load_le buf (pos + 4) 2;
          let offset := (offset + rec_len)%u32 in
          n ← load_le buf pos 4;
          if n =? 0 then dir_search rounds fuel f ino offset dctx path path_len
          else
            name_len ← load_le buf (pos + 6) 1;
            if negb (path_len =? name_len) then dir_search rounds fuel f ino offset dctx path path_len
            else
              c ← memcmp path (drop (Z.to_nat (pos + 8)) buf) (Z.to_nat name_len);
              if negb (c =? 0) then dir_search rounds fuel f ino offset dctx path path_len
              else Ret (Some n)
      end
  end.

(** The outer loop of [inode_get_idx_by_path]. *)
Fixpoint path_loop (rounds drounds fuel : nat) (f : fs) (path : list byte) (inode_idx : Z)
    (dc_entry : option nat) (d : dcache) (ino : list byte) : outcome (Z * dcache) :=
  match rounds with
  | O => OutOfFuel
  | S rounds =>
      path ← skip_trailing_backslash path;
      path_len ← get_path_token_len path;
      if path_len =? 0 then Ret (inode_idx, d)
      else
        '(_, ino) ← inode_get_by_number f inode_idx ino;
        dctx ← inode_dir_ctx_reset fuel f ino;
        found ← dir_search drounds fuel f ino 0 dctx path path_len;
        match found with
        | None => Ret (0, d)
        | Some n =>
            '(dc_entry, d) ← (if S_ISDIR (i_mode ino) then dcache_insert d dc_entry path path_len n
                              else Ret (dc_entry, d));
            next ← strchr path SLASH;
            match next with
            | None => Ret (n, d)
            | Some path => path_loop rounds drounds fuel f path n dc_entry d ino
            end
        end
  end.

(** [rounds] bounds the loops over the path, [drounds] the one over a directory,
    [fuel] the depth of extent trees; [ino] is the uninitialised local inode. *)
Definition inode_get_idx_by_path (rounds drounds fuel : nat) (f : fs) (ino : list byte) (d : dcache)
    (path : list byte) : outcome (Z * dcache) :=
  c ← char_at path 0;
  c_assert (IS_PATH_SEPARATOR c) ;;
  '(path, dc_entry, d) ← get_cached_inode_num rounds d path;
  inode_idx ← dcache_get_inode d dc_entry;
  path_loop rounds drounds fuel f path inode_idx dc_entry d ino.

(** [ino] is the caller's structure. *)
Definition inode_get_by_path (rounds drounds fuel : nat) (f : fs) (local ino : list byte) (d : dcache)
    (path : list byte) : outcome (Z * list byte * dcache) :=
  '(n, d) ← inode_get_idx_by_path rounds drounds fuel f local d path;
  '(r, ino) ← inode_get_by_number f n ino;
  mret (r, ino, d).

Definition inode_init (d : dcache) : outcome (dcache * Z) := dcache_init_root d ROOT_INODE_N.

(** ** Components of a path *)

Definition flush (cur : list byte) (l : list (list byte)) : list (list byte) :=
  match cur with [] => l | _ => cur :: l end.

Fixpoint tokens_from (cur p : list byte) : list (list byte) :=
  match p with
  | [] => flush cur []
  | x :: p => if decide (x = SLASH) then flush cur (tokens_from [] p) else tokens_from (cur ++ [x]) p
  end.

(** The non-empty components of [p]. *)
Definition tokens (p : list byte) : list (list byte) := tokens_from [] p.

#[global] Arguments tokens : simpl never.

(** A component: no separator, no terminator, a length FUSE accepts. *)
Definition component (t : list byte) : Prop :=
  t <> [] /\ SLASH ∉ t /\ text t /\ (length t <= 255)%nat.

(** [p] starts with [t], which ends there or at a separator. *)
Definition ends (r : list byte) : Prop := r = [] \/ exists r', r = SLASH :: r'.

Lemma tokens_slash p : tokens (SLASH :: p) = tokens p.
Proof. unfold tokens. cbn [tokens_from]. by rewrite decide_True. Qed.

Lemma tokens_app t r : SLASH ∉ t -> t <> [] -> ends r -> tokens (t ++ r) = t :: tokens r.
Proof.
  intros Hs Hne Hr. assert (forall cur, tokens_from cur (t ++ r) = tokens_from (cur ++ t) r) as E.
  { clear Hne. induction t as [|x t IH]; intros cur; cbn; [by rewrite app_nil_r|].
    apply not_elem_of_cons in Hs as [? ?]. rewrite decide_False by congruence.
    rewrite IH by done. by rewrite <- app_assoc. }
  unfold tokens. rewrite E. cbn. destruct t as [|x t]; [done|].
  destruct Hr as [->|[r' ->]]; [done|]. cbn [tokens_from]. by rewrite !decide_True.
Qed.

(** Every path is separators, then nothing or a component. *)
Lemma split_token p :
  exists t r, p = t ++ r /\ SLASH ∉ t /\ ends r.
Proof.
  induction p as [|x p (t & r & -> & Hs & Hr)].
  - exists [], []. split; [done|]. split; [set_solver|by left].
  - destruct (decide (x = SLASH)) as [->|].
    + exists [], (SLASH :: t ++ r). split; [done|]. split; [set_solver|right; eauto].
    + exists (x :: t), r. split; [done|]. split; [set_solver|done].
Qed.

(** ** The length of a component *)

Lemma cstring_app t r : cstring (t ++ r) = t ++ cstring r.
Proof. unfold cstring. by rewrite app_assoc. Qed.

Lemma token_char t r i :
  SLASH ∉ t -> text t -> (i < length t)%nat ->
  exists c, char_at (cstring (t ++ r)) (Z.of_nat i) = Ret c /\ c <> SLASH /\ c <> NUL.
Proof.
  intros Hs Ht Hi. apply lookup_lt_is_Some in Hi as [c Hc]. exists c.
  apply list_elem_of_lookup_2 in Hc as Hin. split; [|split; intros ->; done].
  apply char_at_lookup; [lia|]. rewrite Nat2Z.id, cstring_app. by apply lookup_app_l_Some.
Qed.

Lemma token_stop t r :
  ends r -> exists c, char_at (cstring (t ++ r)) (Z.of_nat (length t)) = Ret c /\ (c = SLASH \/ c = NUL).
Proof.
  intros Hr. exists (match r with [] => NUL | _ => SLASH end).
  split; [|destruct r; auto]. apply char_at_lookup; [lia|].
  rewrite Nat2Z.id, cstring_app, lookup_app_r, Nat.sub_diag by lia.
  by destruct Hr as [->|[r' ->]].
Qed.

Lemma token_len_from t r i rounds :
  SLASH ∉ t -> text t -> (length t <= 255)%nat -> ends r ->
  (i <= length t)%nat -> (length t - i < rounds)%nat ->
  token_len_loop rounds (cstring (t ++ r)) (Z.of_nat i) = Ret (Z.of_nat (length t)).
Proof.
  intros Hs Ht Hl Hr. revert i. induction rounds as [|rounds IH]; intros i Hi Hrd; [lia|].
  cbn [token_len_loop]. destruct (decide (i = length t)) as [->|].
  - destruct (token_stop t r Hr) as (c & -> & [-> | ->]); done.
  - destruct (token_char t r i) as (c & -> & Hc1 & Hc2); [done|done|lia|]. cbn [mbind outcome_bind].
    rewrite !bool_decide_false by done. cbn [negb andb].
    rewrite (wrap_small 8) by (unfold fits; lia). replace (Z.of_nat i + 1) with (Z.of_nat (S i)) by lia.
    apply IH; lia.
Qed.

Lemma token_len t r :
  SLASH ∉ t -> text t -> (length t <= 255)%nat -> ends r ->
  get_path_token_len (cstring (t ++ r)) = Ret (Z.of_nat (length t)).
Proof. intros. apply (token_len_from t r 0); (done || lia). Qed.

(** on a component of at most 255 bytes, the name limit of FUSE,
    [get_path_token_len] returns its length; on a longer one its 8-bit counter
    wraps around before it meets the end and the loop never stops. *)
Theorem token_len_u8 t r :
  SLASH ∉ t -> text t -> ends r ->
  ((length t <= 255)%nat -> get_path_token_len (cstring (t ++ r)) = Ret (Z.of_nat (length t))) /\
  ((255 < length t)%nat -> forall rounds, token_len_loop rounds (cstring (t ++ r)) 0 = OutOfFuel).
Proof.
  intros Hs Ht Hr. split; [intros; by apply token_len|]. intros Hl rounds.
  assert (forall i, (i < 256)%nat -> token_len_loop rounds (cstring (t ++ r)) (Z.of_nat i) = OutOfFuel) as H;
    [|by apply (H 0%nat); lia].
  induction rounds as [|rounds IH]; intros i Hi; [done|]. cbn [token_len_loop].
  destruct (token_char t r i) as (c & -> & Hc1 & Hc2); [done|done|lia|]. cbn [mbind outcome_bind].
  rewrite !bool_decide_false by done. cbn [negb andb].
  pose proof (wrap_fits 8 (Z.of_nat i + 1) ltac:(lia)) as [H0 H1]. change (2 ^ 8) with 256 in H1.
  rewrite <- (Z2Nat.id (u8 _)) by done. apply IH. lia.
Qed.

(** ** Separators *)

Lemma skip_spec p :
  text p -> exists t r, skip_trailing_backslash (cstring p) = Ret (cstring (t ++ r)) /\
    SLASH ∉ t /\ ends r /\ (t = [] -> r = []) /\ tokens p = tokens (t ++ r) /\
    text (t ++ r) /\ (length (t ++ r) <= length p)%nat.
Proof.
  induction p as [|x p IH]; intros Ht.
  - exists [], []. split; [done|]. split; [set_solver|]. split; [by left|]. done.
  - apply text_cons in Ht as [Hx Ht]. destruct (decide (x = SLASH)) as [->|Hne].
    + destruct (IH Ht) as (t & r & Hs & H1 & H2 & H3 & H4 & H5 & H6).
      exists t, r. rewrite tokens_slash. cbn in *. repeat split; try done. lia.
    + destruct (split_token p) as (t & r & -> & Hs & Hr). exists (x :: t), r.
      cbn [cstring app skip_trailing_backslash]. unfold IS_PATH_SEPARATOR.
      rewrite bool_decide_false by done. split; [done|]. split; [set_solver|].
      split; [done|]. split; [done|]. split; [done|].
      split; [by apply text_cons|done].
Qed.

Lemma strchr_ends t r :
  SLASH ∉ t -> text (t ++ r) -> ends r ->
  strchr (cstring (t ++ r)) SLASH = Ret (match r with [] => None | _ => Some (cstring r) end).
Proof.
  intros Hs [Ht Hr]%text_app [->|[r' ->]].
  - rewrite app_nil_r. by apply strchr_none.
  - rewrite cstring_app. cbn [cstring app]. by apply strchr_text.
Qed.

(** ** Directories as lists *)

(** A directory entry: inode number (0 when unused), name, offset of the next. *)
Record dentry := Dentry { de_ino : Z; de_name : list byte; de_next : Z }.

(** The entries of a directory from an offset on: a chain of records, each
    inside the buffer of its block, that ends at the size of the directory. *)
Inductive dir_from (fuel : nat) (f : fs) (ino : list byte) : Z -> list dentry -> Prop :=
  | dir_end : dir_from fuel f ino (inode_get_size ino) []
  | dir_entry off ctx rec_len n nm es :
      let buf := dc_buf ctx in
      let pos := off mod BLOCK_SIZE f in
      0 <= off < inode_get_size ino ->
      dir_ctx_update fuel f ino (off / BLOCK_SIZE f) = Ret ctx ->
      load_le buf (pos + 4) 2 = Ret rec_len -> 0 < rec_len ->
      load_le buf pos 4 = Ret n ->
      load_le buf (pos + 6) 1 = Ret (Z.of_nat (length nm)) ->
      load_bytes buf (pos + 8) (Z.of_nat (length nm)) = Ret nm ->
      dir_from fuel f ino (off + rec_len) es ->
      dir_from fuel f ino off (Dentry n nm (off + rec_len) :: es).

Lemma dir_from_le fuel f ino off es : dir_from fuel f ino off es -> off <= inode_get_size ino.
Proof. destruct 1; lia. Qed.

(** First entry in use with that name. *)
Fixpoint find_entry (es : list dentry) (t : list byte) : option Z :=
  match es with
  | [] => None
  | Dentry n nm _ :: es => if decide (n <> 0 /\ nm = t) then Some n else find_entry es t
  end.

Lemma find_entry_nonzero es t k : find_entry es t = Some k -> k <> 0.
Proof. induction es as [|[n nm nx] es IH]; cbn; [done|]. case_decide; [naive_solver|done]. Qed.

Lemma memcmp_component t r nm buf pos :
  length nm = length t -> 0 <= pos -> load_bytes buf pos (Z.of_nat (length nm)) = Ret nm ->
  exists c, memcmp (t ++ r) (drop (Z.to_nat pos) buf) (length nm) = Ret c /\ (c = 0 <-> nm = t).
Proof.
  intros Hl Hpos Hld. unfold load_bytes in Hld. case_match; [|done]. injection Hld as Hnm.
  rewrite Nat2Z.id in Hnm.
  destruct (memcmp_eq t nm r (drop (length nm) (drop (Z.to_nat pos) buf))) as (c & Hc & Hiff); [done|].
  exists c. split; [|rewrite Hiff; split; congruence].
  rewrite <- Hc. f_equal. rewrite <- (take_drop (length nm) (drop (Z.to_nat pos) buf)) at 1.
  by rewrite Hnm.
Qed.

Lemma dir_search_spec fuel f ino t r off es ctx rounds :
  geometry f -> inode_get_size ino < 2 ^ 32 -> 0 <= off ->
  dir_from fuel f ino off es -> coherent fuel f ino ctx -> (length es < rounds)%nat ->
  dir_search rounds fuel f ino off ctx (t ++ r) (Z.of_nat (length t)) = Ret (find_entry es t).
Proof.
  intros G Hsz Hoff Hd. revert ctx rounds. pose proof (block_size_range f G) as HB.
  induction Hd as [|off c rec_len n nm es buf pos Ho Hu Hrec Hrl Hn Hnl Hnm Hd IH];
    intros ctx rounds Hctx Hr; (destruct rounds as [|rounds]; [cbn in Hr; lia|]); cbn [dir_search find_entry].
  - assert (fits 63 (inode_get_size ino)) by (split; lia).
    rewrite (proj1 (dentry_get_eq fuel f ino (inode_get_size ino) ctx G ltac:(done)
      ltac:(apply Z.div_lt_upper_bound; nia) Hctx)).
    by rewrite Z.ltb_irrefl, Z.eqb_refl.
  - assert (fits 63 off) by (split; lia).
    rewrite (proj1 (dentry_get_eq fuel f ino off ctx G ltac:(done)
      ltac:(apply Z.div_lt_upper_bound; nia) Hctx)).
    rewrite (proj2 (Z.ltb_ge _ _)), (proj2 (Z.eqb_neq _ _)), Hu by lia. cbn [mbind outcome_bind].
    fold pos buf. rewrite Hrec, Hn. cbn [mbind outcome_bind].
    pose proof (dir_from_le _ _ _ _ _ Hd). unfold wadd. rewrite (u32_small (off + rec_len)) by lia.
    apply dir_ctx_update_lblock in Hu as [_ Hc].
    assert (dir_search rounds fuel f ino (off + rec_len) c (t ++ r) (Z.of_nat (length t)) =
      Ret (find_entry es t)) as IH' by (apply IH; [lia|done|cbn in Hr; lia]).
    assert (0 <= pos) by (apply Z.mod_pos_bound; lia).
    destruct (Z.eqb_spec n 0) as [->|Hn0]; [by rewrite decide_False by naive_solver|].
    rewrite Hnl. cbn [mbind outcome_bind].
    destruct (Z.eqb_spec (Z.of_nat (length t)) (Z.of_nat (length nm))) as [El|El]; cbn [negb].
    2: { rewrite decide_False; [done|]. intros [_ ->]. lia. }
    rewrite Nat2Z.id.
    destruct (memcmp_component t r nm buf (pos + 8)) as (x & -> & Hx); [lia|lia|done|].
    cbn [mbind outcome_bind]. destruct (Z.eqb_spec x 0) as [E|E]; cbn [negb].
    + rewrite decide_True; [done|]. split; [done|by apply Hx].
    + rewrite decide_False; [done|]. intros [_ ?]. by apply E, Hx.
Qed.

(** ** The directory tree

    [dirs k] lists the directory with inode number [k], [None] when inode [k]
    is not one.  This is what path lookup needs to know of an image. *)
Class DirTree (fuel : nat) (f : fs) (dirs : Z -> option (list dentry)) (width : nat) : Prop := {
  dirs_inode k es old : dirs k = Some es -> length old = 156%nat -> exists ino,
    inode_get_by_number f k old = Ret (0, ino) /\ length ino = 156%nat /\
    S_ISDIR (i_mode ino) = true /\ inode_get_size ino < 2 ^ 32 /\
    (exists ctx, inode_dir_ctx_reset fuel f ino = Ret ctx) /\ dir_from fuel f ino 0 es;
  dirs_width k es : dirs k = Some es -> (length es < width)%nat }.

(** Specification of lookup: [Some 0] when a component is missing, [None] when
    a component that is not a directory is walked through. *)
Fixpoint resolve (dirs : Z -> option (list dentry)) (k : Z) (ts : list (list byte)) : option Z :=
  match ts with
  | [] => Some k
  | t :: ts =>
      match dirs k with
      | None => None
      | Some es => match find_entry es t with None => Some 0 | Some k => resolve dirs k ts end
      end
  end.

(** Every cached entry is the directory entry of its parent's inode. *)
Record cache_ok (dirs : Z -> option (list dentry)) (d : dcache) (kids : nat -> list nat) : Prop := {
  cache_inv : dc_inv d kids;
  cache_root : fmap snd (label d root) = Some ROOT_INODE_N;
  cache_child p c kp nm kc : c ∈ kids p -> fmap snd (label d p) = Some kp -> label d c = Some (nm, kc) ->
    exists es, dirs kp = Some es /\ find_entry es nm = Some kc }.

Section Lookup.
Context (fuel : nat) (f : fs) (dirs : Z -> option (list dentry)) (width : nat).
Context {T : DirTree fuel f dirs width}.
Hypothesis G : geometry f.

(** The pointer [next], NULL standing for the root, has inode number [k]. *)
Definition points (d : dcache) (next : option nat) (k : Z) : Prop :=
  fmap snd (label d (default root next)) = Some k.

Lemma points_entry d next k : points d next k -> is_Some (entries d !! default root next).
Proof. unfold points, label. destruct (entries d !! default root next); [eauto|done]. Qed.

Lemma lookup_ok d kids next k t rest :
  cache_ok dirs d kids -> points d next k -> text t ->
  exists r d' kids', dcache_lookup d next (t ++ rest) (Z.of_nat (length t)) = Ret (r, d') /\
    cache_ok dirs d' kids' /\ points d' next k /\
    match r with
    | None => True
    | Some c => exists es kc, points d' (Some c) kc /\ dirs k = Some es /\ find_entry es t = Some kc
    end.
Proof.
  intros [I Hroot Hch] Hp Ht.
  destruct (lookup_refines d kids next t rest I (points_entry _ _ _ Hp) Ht)
    as (r & d' & kids' & Hr & I' & Hk & Hl & Hres).
  exists r, d', kids'. split; [exact Hr|]. split; [|split; [unfold points; by rewrite Hl|]].
  - split; [done|by rewrite Hl|]. intros p c kp nm kc. rewrite Hk, !Hl. apply Hch.
  - destruct r as [c|]; [|done]. destruct Hres as [Hc Hn].
    unfold has_name in Hn. destruct (label d c) as [[nm kc]|] eqn:El; simplify_eq/=.
    destruct (Hch _ _ _ _ _ Hc Hp El) as (es & ? & ?).
    exists es, kc. unfold points. rewrite Hl. cbn. by rewrite El.
Qed.

Lemma cached_loop_spec rounds d kids p next k r :
  cache_ok dirs d kids -> points d next k -> text p ->
  Forall (fun t => (length t <= 255)%nat) (tokens p) ->
  resolve dirs k (tokens p) = Some r -> (length p < rounds)%nat ->
  exists p' ret d' kids' k', cached_loop rounds d (cstring p) next = Ret (cstring p', ret, d') /\
    cache_ok dirs d' kids' /\ points d' ret k' /\ text p' /\ (length p' <= length p)%nat /\
    resolve dirs k' (tokens p') = Some r /\ exists pre, tokens p = pre ++ tokens p'.
Proof.
  revert d kids p next k. induction rounds as [|rounds IH];
    intros d kids p next k Hok Hp Ht Hlen Hres Hr; [lia|]. cbn [cached_loop].
  assert (exists q, (c ← char_at (cstring p) 0; Ret (if bool_decide (c = SLASH) then drop 1 (cstring p) else cstring p))
            = Ret (cstring q) /\ text q /\ (length q <= length p)%nat /\ tokens q = tokens p) as (q & Hq & Htq & Hlq & Etq).
  { destruct p as [|x p]; [by exists []|]. change (char_at (cstring (x :: p)) 0) with (Ret x).
    cbn [mbind outcome_bind]. apply text_cons in Ht as Ht'. destruct Ht' as [_ Ht'].
    destruct (bool_decide_reflect (x = SLASH)) as [->|].
    - exists p. rewrite tokens_slash. split; [done|]. split; [done|]. split; [cbn; lia|done].
    - exists (x :: p). split; [done|]. split; [done|]. split; [cbn; lia|done]. }
  destruct (char_at (cstring p) 0) as [c| | |]; try discriminate. cbn [mbind outcome_bind] in *.
  injection Hq as Hq. rewrite Hq. rewrite <- Etq in *. clear Etq Hq.
  destruct (split_token q) as (t & rest & -> & Hs & He). apply text_app in Htq as Htt. destruct Htt as [Htt _].
  assert (t <> [] -> tokens (t ++ rest) = t :: tokens rest) as Etok by (intros; by apply tokens_app).
  assert ((length t <= 255)%nat) as Hl255.
  { destruct t as [|x t]; [cbn; lia|]. rewrite Etok in Hlen by done. by inversion Hlen. }
  rewrite token_len by done. cbn [mbind outcome_bind].
  destruct (Z.eqb_spec (Z.of_nat (length t)) 0) as [E0|E0].
  { exists (t ++ rest), next, d, kids, k. do 4 (split; [done|]). split; [done|]. split; [done|]. by exists []. }
  assert (t <> []) as Hne by (intros ->; done). specialize (Etok Hne).
  rewrite cstring_app.
  destruct (lookup_ok d kids next k t (cstring rest) Hok Hp Htt) as (res & d' & kids' & -> & Hok' & Hp' & Hc).
  cbn [mbind outcome_bind]. destruct res as [c'|].
  - destruct Hc as (es & kc & Hpc & Hdir & Hfind). rewrite Nat2Z.id, drop_app_length.
    rewrite Etok in Hlen, Hres. cbn [resolve] in Hres. rewrite Hdir, Hfind in Hres.
    apply text_app in Htq as [_ Htr]. rewrite length_app in Hlq.
    assert (0 < length t)%nat by lia.
    destruct (IH d' kids' rest (Some c') kc) as (p' & ret & d'' & kids'' & k' & Hl & H1 & H2 & H3 & H4 & H5 & pre & H6);
      [done|done|done|by inversion Hlen|done|lia|].
    exists p', ret, d'', kids'', k'. split; [exact Hl|]. do 3 (split; [done|]).
    split; [lia|]. split; [done|]. exists (t :: pre). rewrite Etok, H6. done.
  - exists (t ++ rest), next, d', kids', k. rewrite cstring_app. do 4 (split; [done|]). split; [done|].
    split; [done|]. by exists [].
Qed.

Lemma insert_ok d kids next k t rest n es :
  cache_ok dirs d kids -> points d next k -> text t -> (length t <= 39)%nat ->
  dirs k = Some es -> find_entry es t = Some n ->
  exists c d' kids', dcache_insert d next (t ++ rest) (Z.of_nat (length t)) n = Ret (Some c, d') /\
    cache_ok dirs d' kids' /\ points d' (Some c) n.
Proof.
  intros [I Hroot Hch] Hp Ht Hl Hdir Hfind.
  destruct (insert_refines d kids next t rest n I (points_entry _ _ _ Hp) Ht Hl)
    as (d' & Hd & I' & Hkn & Hn & _ & _ & Hlab); [by rewrite Hroot|].
  eexists _, d', _. split; [exact Hd|]. split; [|unfold points; cbn; by rewrite Hlab, decide_True].
  assert (forall q, is_Some (entries d !! q) -> q <> Dcache.next d) as Hold by (intros q [? ?] ->; congruence).
  split; [exact I'| |].
  - rewrite Hlab, decide_False; [done|]. apply Hold, (inv_root _ _ I).
  - intros p c kp nm kc Hc. rewrite !Hlab. destruct (decide (p = default root next)) as [->|Hpn].
    + rewrite fn_lookup_insert, ring_add_perm, elem_of_cons in Hc.
      rewrite (decide_False (P := default root next = Dcache.next d)) by (apply Hold; by eapply points_entry).
      destruct Hc as [->|Hc].
      * rewrite decide_True by done. intros Hkp [= <- <-]. unfold points in Hp. simplify_eq. eauto.
      * rewrite decide_False by (apply Hold; by apply (inv_kids _ _ I) in Hc as [? _]). by apply Hch.
    + rewrite fn_lookup_insert_ne in Hc by done. apply (inv_kids _ _ I) in Hc as Hin. destruct Hin as [H1 H2].
      rewrite !decide_False by (by apply Hold). by apply Hch.
Qed.

Lemma insert_any d kids next k t rest n es :
  cache_ok dirs d kids -> points d next k -> text t ->
  dirs k = Some es -> find_entry es t = Some n ->
  exists c d' kids', dcache_insert d next (t ++ rest) (Z.of_nat (length t)) n = Ret (c, d') /\
    cache_ok dirs d' kids' /\ ((length t <= 39)%nat -> points d' c n).
Proof.
  intros Hok Hp Ht Hdir Hf. destruct (le_lt_dec (length t) 39) as [Hl|Hl].
  - destruct (insert_ok d kids next k t rest n es) as (c & d' & kids' & ? & ? & ?); [done..|].
    by exists (Some c), d', kids'.
  - exists None, d, kids. unfold dcache_insert, DCACHE_ENTRY_NAME_LEN.
    rewrite (proj2 (Z.ltb_lt _ _)) by lia. split; [done|]. split; [done|]. lia.
Qed.

Lemma path_loop_spec rounds d kids p k next ino r :
  cache_ok dirs d kids -> text p -> Forall (fun t => (length t <= 255)%nat) (tokens p) ->
  Forall (fun t => (length t <= 39)%nat) (removelast (tokens p)) ->
  resolve dirs k (tokens p) = Some r -> (tokens p = [] \/ points d next k) ->
  length ino = 156%nat -> (length p < rounds)%nat ->
  exists d' kids', path_loop rounds width fuel f (cstring p) k next d ino = Ret (r, d') /\
    cache_ok dirs d' kids'.
Proof.
  revert d kids p k next ino. induction rounds as [|rounds IH];
    intros d kids p k next ino Hok Ht H255 H39 Hres Hp Hino Hr; [lia|]. cbn [path_loop].
  destruct (skip_spec p Ht) as (t & r' & -> & Hs & He & Hnil & Etok & Htx & Hlen).
  cbn [mbind outcome_bind]. apply text_app in Htx as Htt. destruct Htt as [Htt Htr].
  destruct t as [|x t].
  { specialize (Hnil eq_refl). subst r'. rewrite Etok in Hres. change (Some k = Some r) in Hres.
    simplify_eq. exists d, kids. split; [reflexivity|done]. }
  remember (x :: t) as t0 eqn:Ex. assert (t0 <> []) as Hne by (by subst). clear Ex x t. rename t0 into t.
  rewrite (tokens_app t r') in Etok by done. rewrite Etok in *.
  inversion H255 as [|? ? Hl255 H255']; subst. rewrite token_len by done. cbn [mbind outcome_bind].
  rewrite (proj2 (Z.eqb_neq _ _)) by (destruct t; cbn; [done|lia]).
  destruct Hp as [|Hp]; [done|]. cbn [resolve] in Hres. destruct (dirs k) as [es|] eqn:Hdir; [|done].
  destruct (dirs_inode k es ino Hdir Hino) as (i & -> & Hi & Hisdir & Hsz & (ctx & Hctx) & Hfrom).
  cbn [mbind outcome_bind]. rewrite Hctx. cbn [mbind outcome_bind]. rewrite cstring_app.
  rewrite (dir_search_spec fuel f i t (cstring r') 0 es ctx width G Hsz);
    [|lia|done|by apply dir_ctx_update_lblock in Hctx as [_ ?]|by eapply dirs_width].
  cbn [mbind outcome_bind]. destruct (find_entry es t) as [n|] eqn:Hf.
  2: { simplify_eq. eauto. }
  rewrite Hisdir.
  destruct (insert_any d kids next k t (cstring r') n es) as (c & d' & kids' & -> & Hok' & Hpc); [done..|].
  cbn [mbind outcome_bind]. rewrite <- cstring_app, strchr_ends by done. cbn [mbind outcome_bind].
  destruct He as [->|[r0 ->]]; [change (Some n = Some r) in Hres; simplify_eq; eauto|].
  eapply (IH d' kids' (SLASH :: r0) n c i); try done.
  - destruct (tokens (SLASH :: r0)) eqn:E; [constructor|]. by inversion H39.
  - destruct (tokens (SLASH :: r0)) eqn:E; [by left|]. right. apply Hpc. by inversion H39.
  - rewrite length_app in Hlen. destruct t; [done|]. cbn in *. lia.
Qed.

(** The components FUSE can send and the cache can hold on the way. *)
Definition path_ok (p : list byte) : Prop :=
  head p = Some SLASH /\ text p /\ Forall (fun t => (length t <= 255)%nat) (tokens p) /\
  Forall (fun t => (length t <= 39)%nat) (removelast (tokens p)).

Lemma idx_by_path_spec rounds d kids p ino r :
  cache_ok dirs d kids -> path_ok p -> resolve dirs ROOT_INODE_N (tokens p) = Some r ->
  length ino = 156%nat -> (length p < rounds)%nat ->
  exists d' kids', inode_get_idx_by_path rounds width fuel f ino d (cstring p) = Ret (r, d') /\
    cache_ok dirs d' kids'.
Proof.
  intros Hok (Hh & Ht & H255 & H39) Hres Hino Hr. unfold inode_get_idx_by_path.
  destruct p as [|x p]; [done|]. cbn in Hh. injection Hh as ->.
  change (char_at (cstring (SLASH :: p)) 0) with (Ret SLASH). cbn [mbind outcome_bind].
  change (c_assert (IS_PATH_SEPARATOR SLASH)) with (Ret tt). cbn [mbind outcome_bind].
  destruct (cached_loop_spec rounds d kids (SLASH :: p) None ROOT_INODE_N r)
    as (p' & ret & d' & kids' & k' & Hc & Hok' & Hp' & Ht' & Hl' & Hres' & pre & Epre);
    [done|apply (cache_root _ _ _ Hok)|done..|].
  unfold get_cached_inode_num. rewrite Hc. cbn [mbind outcome_bind].
  assert (dcache_get_inode d' ret = Ret k') as ->.
  { unfold dcache_get_inode. unfold points, label in Hp'.
    destruct (entries d' !! default root ret) as [e|] eqn:E; simplify_eq/=.
    by rewrite (entry_Ret _ _ _ E). }
  cbn [mbind outcome_bind]. rewrite Epre in *. eapply path_loop_spec; try done.
  - by apply Forall_app in H255 as [_ ?].
  - destruct (tokens p') as [|t ts]; [constructor|].
    rewrite removelast_app in H39 by done. by apply Forall_app in H39 as [_ ?].
  - by right.
  - lia.
Qed.
End Lookup.

#[global] Instance path_ok_dec p : Decision (path_ok p).
Proof. unfold path_ok. apply _. Defined.

(** C3: the path lookup of an absolute path agrees with resolving its
    components one directory listing after the other from inode 2, whatever
    earlier lookups left in the dentry cache: 0 for a missing component,
    else the inode number.  The cache it leaves is again consistent with the
    image, so any sequence of lookups is right.  (Components before the last
    have at most 39 bytes, the size of a cache entry.) *)
Theorem path_lookup_correct fuel f dirs width rounds d kids p ino r :
  DirTree fuel f dirs width -> geometry f ->
  cache_ok dirs d kids -> path_ok p -> resolve dirs ROOT_INODE_N (tokens p) = Some r ->
  length ino = 156%nat -> (length p < rounds)%nat ->
  exists d' kids', inode_get_idx_by_path rounds width fuel f ino d (cstring p) = Ret (r, d') /\
    cache_ok dirs d' kids'.
Proof. intros T G. by apply idx_by_path_spec. Qed.

(** ** Witnesses *)

(** Listing a directory. *)
Fixpoint dir_list (rounds fuel : nat) (f : fs) (ino : list byte) (off : Z) : outcome (list dentry) :=
  match rounds with
  | O => OutOfFuel
  | S rounds =>
      if off =? inode_get_size ino then Ret []
      else
        c_defined ((0 <=? off) && (off <? inode_get_size ino)) ;;
        ctx ← dir_ctx_update fuel f ino (off / BLOCK_SIZE f);
        let buf := dc_buf ctx in
        let pos := off mod BLOCK_SIZE f in
        rec_len ← load_le buf (pos + 4) 2;
        c_defined (0 <? rec_len) ;;
        n ← load_le buf pos 4;
        l ← load_le buf (pos + 6) 1;
        nm ← load_bytes buf (pos + 8) l;
        es ← dir_list rounds fuel f ino (off + rec_len);
        mret (Dentry n nm (off + rec_len) :: es)
  end.

Lemma dir_list_from rounds fuel f ino off es :
  dir_list rounds fuel f ino off = Ret es -> dir_from fuel f ino off es.
Proof.
  revert off es. induction rounds as [|rounds IH]; intros off es H; [done|]. cbn [dir_list] in H.
  destruct (Z.eqb_spec off (inode_get_size ino)) as [->|]; [simplify_eq; constructor|].
  outcome_inv. apply andb_true_iff in E as [?%Z.leb_le ?%Z.ltb_lt]. apply Z.ltb_lt in E2.
  pose proof (load_bytes_length _ _ _ _ E5) as Hl. subst.
  eapply dir_entry; eauto; congruence.
Qed.

(** What directory reading looks at. *)
Lemma dir_from_ext fuel f i j off es :
  i_flags i = i_flags j -> inode_get_size i = inode_get_size j -> i_block i = i_block j ->
  dir_from fuel f i off es -> dir_from fuel f j off es.
Proof.
  intros Hf Hs Hb H. assert (forall l, dir_ctx_update fuel f j l = dir_ctx_update fuel f i l) as Hu.
  { intros l. unfold dir_ctx_update, inode_get_data_pblock, i_block_at. by rewrite Hf, Hs, Hb. }
  induction H as [|off ctx rl n nm es buf pos ?]; [rewrite Hs; constructor|].
  apply (dir_entry _ _ _ off ctx rl n nm es); [by rewrite <- Hs|by rewrite Hu|done..].
Qed.

Lemma field_prefix l n a b off w :
  assoc n (place l 0) = Some (off, w) -> 0 <= off -> 0 <= w -> off + w <= Z.of_nat (length a) ->
  field l n (a ++ b) = field l n a.
Proof.
  intros E Ho Hw Hl. unfold field. rewrite E. rewrite drop_app_le by lia.
  by rewrite take_app_le by (rewrite length_drop; lia).
Qed.

Lemma inode_prefix a b :
  length a = 128%nat ->
  i_mode (a ++ b) = i_mode a /\ i_flags (a ++ b) = i_flags a /\
  inode_get_size (a ++ b) = inode_get_size a /\ i_block (a ++ b) = i_block a.
Proof.
  intros Hl. unfold inode_get_size, i_mode, i_flags, i_size_high, i_size_lo, i_block.
  rewrite (field_prefix _ "i_mode" a b 0 2), (field_prefix _ "i_flags" a b 32 4),
    (field_prefix _ "i_size_high" a b 108 4), (field_prefix _ "i_size_lo" a b 4 4)
    by (reflexivity || lia).
  repeat split. rewrite drop_app_le, take_app_le; [done| |lia]. rewrite length_drop. lia.
Qed.

Definition sample_dirs (k : Z) : option (list dentry) :=
  if bool_decide (k ∈ [2; 11; 12]) then
    match dir_list 8 1 sample_fs (sample_inode k) 0 with Ret es => Some es | _ => None end
  else None.

#[global] Instance sample_tree_ok : DirTree 1 sample_fs sample_dirs 8.
Proof.
  split.
  - intros k es old Hk Hlen. unfold sample_dirs in Hk. case_bool_decide as Hin; [|done].
    set (a := dev_bytes sample_image (5 * 1024 + (k - 1) * 128) 128).
    assert (length a = 128%nat) as Ha by apply length_dev_bytes.
    destruct (dir_list _ _ _ _ _) as [es'| | |] eqn:Hl; [|done..]. injection Hk as ->.
    apply dir_list_from in Hl. unfold sample_inode in Hl. fold a in Hl.
    exists (a ++ drop 128 old). destruct (inode_prefix a (drop 128 old) Ha) as (Em & Ef & Es & Eb).
    destruct (inode_prefix a (repeat x00 28) Ha) as (_ & Ef' & Es' & Eb').
    assert (dir_ctx_update 1 sample_fs (a ++ drop 128 old) 0 = dir_ctx_update 1 sample_fs a 0) as Hu.
    { unfold dir_ctx_update, inode_get_data_pblock, i_block_at. by rewrite Ef, Es, Eb. }
    unfold inode_dir_ctx_reset. rewrite Hu, Em, Es.
    assert (dir_from 1 sample_fs (a ++ drop 128 old) 0 es) by (eapply dir_from_ext; [..|exact Hl]; congruence).
    rewrite length_app, length_drop, Ha, Hlen.
    unfold a. clear - Hin H. rewrite !elem_of_cons in Hin.
    destruct Hin as [->|[->|[->|Hin]]]; [..|inversion Hin].
    all: split; [vm_compute; reflexivity|]; split; [done|]; split; [vm_compute; reflexivity|].
    all: split; [vm_compute; reflexivity|]; split; [eexists; vm_compute; reflexivity|exact H].
  - intros k es Hk. unfold sample_dirs in Hk. case_bool_decide as Hin; [|done].
    rewrite !elem_of_cons in Hin. destruct Hin as [->|[->|[->|Hin]]]; [..|inversion Hin];
      vm_compute in Hk; injection Hk as <-; vm_compute; lia.
Qed.

Lemma fresh_cache_ok dirs :
  exists d kids, dcache_init_root dcache_start ROOT_INODE_N = Ret (d, 0) /\ cache_ok dirs d kids.
Proof.
  destruct (init_root_spec ROOT_INODE_N) as (d & Hd & I & Hl & _); [done|].
  exists d, (fun _ => []). split; [exact Hd|]. split; [exact I|by rewrite Hl|].
  intros p c kp nm kc Hc. inversion Hc.
Qed.

(** [/sub/ext], on the sample image and a fresh cache. *)
Definition path_sub_ext : list byte := bytes_of_string "/sub/ext".

Lemma path_lookup_correct_witness :
  exists d d' kids', inode_init dcache_start = Ret (d, 0) /\
    inode_get_idx_by_path 9 8 1 sample_fs (repeat x00 156) d (cstring path_sub_ext) = Ret (14, d') /\
    cache_ok sample_dirs d' kids'.
Proof.
  destruct (fresh_cache_ok sample_dirs) as (d & kids & Hd & Hok).
  destruct (path_lookup_correct 1 sample_fs sample_dirs 8 9 d kids path_sub_ext (repeat x00 156) 14
    sample_tree_ok sample_fs_geometry Hok) as (d' & kids' & Hr & Hok').
  - split; [reflexivity|]. split; [vm_compute; set_solver|].
    split; vm_compute; repeat constructor.
  - vm_compute. reflexivity.
  - reflexivity.
  - vm_compute. lia.
  - exists d, d', kids'. split; [exact Hd|]. split; [exact Hr|exact Hok'].
Defined.

(** Looks up the paths one after the other, from a fresh cache. *)
Definition lookups (ps : list string) : outcome (list Z) :=
  '(d, _) ← inode_init dcache_start;
  (fix go (ps : list string) (d : dcache) : outcome (list Z) :=
     match ps with
     | [] => Ret []
     | p :: ps =>
         '(n, d) ← inode_get_idx_by_path 60 10 1 sample_fs (repeat x00 156) d (cstring (bytes_of_string p));
         ns ← go ps d;
         mret (n :: ns)
     end) ps d.

(** below a directory whose name is longer than 39 bytes the cache goes
    wrong.  The refused insertion leaves a NULL parent, which stands for the
    root: after [/long/x] has been looked up, [/x], a name the root directory
    does not have (it was answered 0 before), is answered with the inode of
    [/long/x]. *)
Theorem long_name_pollutes_root :
  resolve sample_dirs ROOT_INODE_N (tokens (bytes_of_string "/x")) = Some 0 /\
  lookups ["/x"; ("/" ++ long_name ++ "/x"); "/x"]%string = Ret [0; 14; 14].
Proof. split; vm_compute; reflexivity. Qed.

Lemma token_len_u8_witness :
  get_path_token_len (cstring path_sub_ext) = Ret 0 /\
  get_path_token_len (cstring (drop 1 path_sub_ext)) = Ret 3 /\
  token_len_loop 300 (cstring (repeat x61 256)) 0 = OutOfFuel.
Proof.
  split; [|split].
  - refine (proj1 (token_len_u8 [] path_sub_ext _ _ _) _); [vm_decide|vm_decide|right; eexists; reflexivity|vm_compute; lia].
  - refine (proj1 (token_len_u8 (take 3 (drop 1 path_sub_ext)) (drop 4 path_sub_ext) _ _ _) _);
      [vm_decide|vm_decide|right; eexists; reflexivity|vm_compute; lia].
  - rewrite <- (app_nil_r (repeat x61 256)). refine (proj2 (token_len_u8 (repeat x61 256) [] _ _ _) _ 300%nat);
      [vm_decide|vm_decide|by left|vm_compute; lia].
Defined.
