(* ===== verification/Ops.v ===== *)
(** * FUSE operations ([src/fuse/op_getattr.c], [op_open.c], [op_readlink.c],
    [op_readdir.c], [op_init.c])

    Local structures the code leaves uninitialised are arguments: [local] is
    the inode of [inode_get_idx_by_path], [ino] the one of the operation.
    Reading is in [Read]. *)

From Stdlib Require Import Strings.Byte.
From S2P Require Import Prelude Bytes CString Layout Disk Image Super Extents Inode Read Dcache Path.

Definition EACCES : Z := 13.
Definition EINVAL : Z := 22.

(** ** [op_init] *)

(** [fs] and [dcache] are static storage; a failed step calls [abort]. *)
Definition op_init (f : fs) (d : dcache) : outcome (fs * dcache) :=
  '(f, r) ← super_fill f;
  c_assert (r =? 0) ;;
  '(f, r) ← super_group_fill f;
  c_assert (r =? 0) ;;
  '(d, r) ← inode_init d;
  c_assert (r =? 0) ;;
  mret (f, d).

(** ** [op_getattr] *)

Record stat := Stat {
  st_mode : Z; st_nlink : Z; st_size : Z; st_blocks : Z; st_uid : Z; st_gid : Z;
  st_atime : Z; st_mtime : Z; st_ctime : Z }.

Definition zero_stat : stat := Stat 0 0 0 0 0 0 0 0 0.

(** [0222], the write permissions. *)
Definition write_bits : Z := 0x92.

Definition stat_of (i : list byte) : stat :=
  Stat (Z.land (i_mode i) (wnot 32 write_bits)) (field ext4_inode "i_links_count" i)
    (s64 (inode_get_size i)) (field ext4_inode "i_blocks_lo" i)
    (field ext4_inode "i_uid" i) (field ext4_inode "i_gid" i) (field ext4_inode "i_atime" i)
    (field ext4_inode "i_mtime" i) (field ext4_inode "i_ctime" i).

Definition op_getattr (rounds drounds fuel : nat) (f : fs) (local ino : list byte) (d : dcache)
    (path : list byte) : outcome (Z * stat * dcache) :=
  '(ret, ino, d) ← inode_get_by_path rounds drounds fuel f local ino d path;
  if ret <? 0 then Ret (ret, zero_stat, d) else Ret (0, stat_of ino, d).

(** ** [op_open] *)

(** The result and, when it is 0, the file handle stored in [fi->fh]. *)
Definition op_open (rounds drounds fuel : nat) (f : fs) (local : list byte) (d : dcache)
    (path : list byte) (flags : Z) : outcome (Z * option Z * dcache) :=
  if negb (Z.land flags 3 =? 0) then Ret (- EACCES, None, d)
  else
    '(n, d) ← inode_get_idx_by_path rounds drounds fuel f local d path;
    mret (0, Some n, d).

(** ** [op_readlink] *)

Definition S_ISLNK (mode : Z) : bool := Z.land mode 0xF000 =? 0xA000.

(** The buffer after the call and the value returned. *)
Definition get_link_dest (fuel : nat) (f : fs) (ino buf : list byte) (bufsize : Z) : outcome (Z * list byte) :=
  let inode_size := inode_get_size ino in
  buf ← (if inode_size <=? 60 then
           bs ← load_bytes (i_block ino) 0 inode_size;
           store_bytes buf bs
         else
           '(pblock, _) ← inode_get_data_pblock fuel f ino 0;
           block_data ← disk_read (fs_disk f) (BLOCKS2BYTES f pblock) (BLOCK_SIZE f);
           bs ← strncpy_bytes block_data (Z.to_nat (bufsize - 1)%u64);
           store_bytes buf bs);
  buf ← store buf inode_size NUL;
  mret (s32 (inode_size + 1)%u64, buf).

(** The result of the lookup is ignored. *)
Definition op_readlink (rounds drounds fuel : nat) (f : fs) (local ino : list byte) (d : dcache)
    (path buf : list byte) (bufsize : Z) : outcome (Z * list byte * dcache) :=
  '(_, ino, d) ← inode_get_by_path rounds drounds fuel f local ino d path;
  if negb (S_ISLNK (i_mode ino)) then Ret (- EINVAL, buf, d)
  else
    '(_, buf) ← get_link_dest fuel f ino buf bufsize;
    mret (0, buf, d).

(** ** [op_readdir] *)

(** [s] is the 255-byte local buffer, the entry is at [pos] of [buf]. *)
Definition get_printable_name (s buf : list byte) (pos : Z) : outcome (list byte) :=
  name_len ← load_le buf (pos + 6) 1;
  bs ← load_bytes buf (pos + 8) name_len;
  s ← store_bytes s bs;
  store s name_len NUL.

Section Readdir.
(** The [filler] callback of FUSE acts on a state [A] and gets the name and
    the offset of the next entry; a non-zero answer means the buffer is full. *)
Context {A : Type} (filler : A -> list byte -> Z -> A * Z).

Fixpoint readdir_loop (rounds fuel : nat) (f : fs) (ino : list byte) (offset : Z)
    (dctx : inode_dir_ctx) (name_buf : list byte) (acc : A) : outcome A :=
  match rounds with
  | O => OutOfFuel
  | S rounds =>
      '(dentry, dctx) ← inode_dentry_get fuel f ino offset dctx;
      match dentry with
      | None => Ret acc
      | Some pos =>
          let buf := dc_buf dctx in
          rec_len ← load_le buf (pos + 4) 2;
          let offset := s64 (offset + rec_len) in
          n ← load_le buf pos 4;
          if n =? 0 then readdir_loop rounds fuel f ino offset dctx name_buf acc
          else
            name_buf ← get_printable_name name_buf buf pos;
            c ← char_at name_buf 0;
            if bool_decide (c = NUL) then readdir_loop rounds fuel f ino offset dctx name_buf acc
            else
              let '(acc, r) := filler acc (until_nul name_buf) offset in
              if negb (r =? 0) then Ret acc
              else readdir_loop rounds fuel f ino offset dctx name_buf acc
      end
  end.

Definition op_readdir (rounds drounds fuel : nat) (f : fs) (local ino name_buf : list byte) (d : dcache)
    (path : list byte) (offset : Z) (acc : A) : outcome (Z * A * dcache) :=
  '(ret, ino, d) ← inode_get_by_path rounds drounds fuel f local ino d path;
  if ret <? 0 then Ret (ret, acc, d)
  else
    dctx ← inode_dir_ctx_reset fuel f ino;
    acc ← readdir_loop drounds fuel f ino offset dctx name_buf acc;
    mret (0, acc, d).

(** What a listing must deliver: the entries in use, in order, up to the
    first one the callback refuses. *)
Fixpoint emit (es : list dentry) (acc : A) : A :=
  match es with
  | [] => acc
  | e :: es =>
      if (de_ino e =? 0) || bool_decide (until_nul (de_name e) = []) then emit es acc
      else
        let '(acc, r) := filler acc (until_nul (de_name e)) (de_next e) in
        if negb (r =? 0) then acc else emit es acc
  end.

(** The offset from which the entries after [es] are listed. *)
Definition resume (es : list dentry) : Z := match last es with None => 0 | Some e => de_next e end.
End Readdir.

(** a name of at most 254 bytes is copied into the 255-byte local buffer and
    terminated there, so that the callback sees exactly that name; the longest
    name the format allows, 255 bytes, makes the store of the terminator run
    past the end of the buffer. *)
Theorem printable_name_bounds s buf pos nm :
  length s = 255%nat -> 0 <= pos -> (length nm <= 255)%nat ->
  load_le buf (pos + 6) 1 = Ret (Z.of_nat (length nm)) ->
  load_bytes buf (pos + 8) (Z.of_nat (length nm)) = Ret nm ->
  get_printable_name s buf pos =
    (if Nat.leb (length nm) 254 then Ret (nm ++ NUL :: drop (S (length nm)) s) else Undefined).
Proof.
  intros Hs Hpos Hl Hn Hb. unfold get_printable_name. rewrite Hn. cbn [mbind outcome_bind].
  rewrite Hb. cbn [mbind outcome_bind]. destruct (Nat.leb_spec (length nm) 254).
  - apply store_string. lia.
  - rewrite store_bytes_in by lia. cbn [mbind outcome_bind]. unfold store.
    rewrite length_app, length_drop. rewrite (proj2 (Z.ltb_ge _ _)) by lia. by rewrite andb_false_r.
Qed.

(** ** Operations on a path that resolves *)

Section OnPath.
Context (fuel : nat) (f : fs) (dirs : Z -> option (list dentry)) (width rounds : nat).
Context (d : dcache) (kids : nat -> list nat) (p local : list byte) (k : Z).
Context {T : DirTree fuel f dirs width}.
Hypothesis G : geometry f.
Hypothesis Hok : cache_ok dirs d kids.
Hypothesis Hp : path_ok p.
Hypothesis Hk : resolve dirs ROOT_INODE_N (tokens p) = Some k.
Hypothesis Hlocal : length local = 156%nat.
Hypothesis Hrounds : (length p < rounds)%nat.

(** The lookup every operation starts with. *)
Lemma by_path ino :
  exists d' kids', cache_ok dirs d' kids' /\
    inode_get_by_path rounds width fuel f local ino d (cstring p)
    = ('(r, i) ← inode_get_by_number f k ino; Ret (r, i, d')).
Proof.
  destruct (idx_by_path_spec fuel f dirs width G rounds d kids p local k) as (d' & kids' & H & Hok'); [done..|].
  exists d', kids'. split; [done|]. unfold inode_get_by_path. by rewrite H.
Qed.

Lemma write_bits_cleared m : Z.land (Z.land m (wnot 32 write_bits)) write_bits = 0.
Proof. rewrite <- Z.land_assoc. change (Z.land (wnot 32 write_bits) write_bits) with 0. apply Z.land_0_r. Qed.

(** [op_getattr] of a path answers [-ENOENT] and a zeroed structure when a
    component is missing, and otherwise the attributes of the inode the path
    resolves to, without any write permission; the dentry cache stays
    consistent. *)
Theorem getattr_correct ino i :
  (k <> 0 -> inode_get_by_number f k ino = Ret (0, i)) ->
  (exists d' kids', cache_ok dirs d' kids' /\
     op_getattr rounds width fuel f local ino d (cstring p)
     = Ret (if k =? 0 then (- ENOENT, zero_stat, d') else (0, stat_of i, d'))) /\
  Z.land (st_mode (stat_of i)) write_bits = 0.
Proof.
  intros Hi. split; [|apply write_bits_cleared].
  destruct (by_path ino) as (d' & kids' & Hok' & H). exists d', kids'. split; [done|].
  unfold op_getattr. rewrite H. destruct (Z.eqb_spec k 0) as [E|E].
  - unfold inode_get_by_number. by rewrite (proj2 (Z.eqb_eq _ _) E).
  - by rewrite Hi.
Qed.

(** [op_open] refuses any access mode but read-only before it looks the
    path up, and otherwise hands out the inode number of the path as the
    file handle (0, which [op_read] answers with [-ENOENT], when the path
    does not exist). *)
Theorem open_read_only flags :
  (Z.land flags 3 <> 0 -> op_open rounds width fuel f local d (cstring p) flags = Ret (- EACCES, None, d)) /\
  (Z.land flags 3 = 0 -> exists d' kids', cache_ok dirs d' kids' /\
     op_open rounds width fuel f local d (cstring p) flags = Ret (0, Some k, d') /\
     (k = 0 -> forall ino size offset, 0 <= offset ->
        op_read fuel f ino k size offset = Ret (- ENOENT, []))).
Proof.
  split; intros Hfl; unfold op_open.
  - by rewrite (proj2 (Z.eqb_neq _ _)).
  - rewrite (proj2 (Z.eqb_eq _ _) Hfl). cbn [negb].
    destruct (idx_by_path_spec fuel f dirs width G rounds d kids p local k) as (d' & kids' & -> & Hok'); [done..|].
    exists d', kids'. split; [done|]. split; [done|]. intros -> ino size offset Ho.
    unfold op_read. by rewrite (proj2 (Z.leb_le _ _)) by done.
Qed.

(** [op_readlink] ignores the result of the lookup.  For a path that does
    not exist it never answers [-ENOENT]: the outcome is decided by whatever
    the uninitialised structure on the stack holds, [-EINVAL] when it is not
    a symbolic link, and success with the target of that stale inode when it
    is. *)
Theorem readlink_ignores_missing ino buf bufsize :
  k = 0 ->
  exists d' kids', cache_ok dirs d' kids' /\
    op_readlink rounds width fuel f local ino d (cstring p) buf bufsize
    = if S_ISLNK (i_mode ino)
      then '(_, buf) ← get_link_dest fuel f ino buf bufsize; Ret (0, buf, d')
      else Ret (- EINVAL, buf, d').
Proof.
  intros E. destruct (by_path ino) as (d' & kids' & Hok' & H). exists d', kids'. split; [done|].
  unfold op_readlink. rewrite H. unfold inode_get_by_number. rewrite (proj2 (Z.eqb_eq _ _) E).
  cbn [mbind outcome_bind]. by destruct (S_ISLNK (i_mode ino)).
Qed.
End OnPath.

(** ** Symbolic links *)

Lemma strncpy_padded s u n :
  text s -> (length s <= n)%nat -> strncpy_bytes (s ++ NUL :: u) n = Ret (s ++ repeat NUL (n - length s)).
Proof.
  revert n. induction s as [|x s IH]; intros n Hs Hl; cbn [app length].
  - destruct n; [done|]. cbn. by rewrite decide_True.
  - apply text_cons in Hs as [Hx Hs]. cbn in Hl. destruct n as [|n]; [lia|]. cbn.
    rewrite decide_False by done. by rewrite IH by (done || lia).
Qed.

(** What the inode stores as its target: inside the inode up to 60 bytes, else
    a terminated string in its first block. *)
Definition link_target (fuel : nat) (f : fs) (ino t : list byte) : Prop :=
  text t /\ inode_get_size ino = Z.of_nat (length t) /\
  if inode_get_size ino <=? 60 then t = take (length t) (i_block ino)
  else exists pblock len u, inode_get_data_pblock fuel f ino 0 = Ret (pblock, len) /\
         disk_read (fs_disk f) (BLOCKS2BYTES f pblock) (BLOCK_SIZE f) = Ret (t ++ NUL :: u).

Lemma link_dest_ok fuel f ino t buf :
  link_target fuel f ino t -> length (i_block ino) = 60%nat ->
  (length t < length buf)%nat -> Z.of_nat (length buf) < 2 ^ 31 ->
  exists buf', get_link_dest fuel f ino buf (Z.of_nat (length buf))
    = Ret (Z.of_nat (length t) + 1, buf') /\ until_nul buf' = t /\ length buf' = length buf.
Proof.
  intros (Ht & Hsz & Hst) Hib Hl Hb. unfold get_link_dest. rewrite Hsz in *.
  assert (s32 (Z.of_nat (length t) + 1)%u64 = Z.of_nat (length t) + 1) as Hret.
  { unfold wadd. rewrite u64_small by lia. apply s32_small. lia. }
  destruct (Z.leb_spec (Z.of_nat (length t)) 60) as [H60|H60].
  - unfold load_bytes. rewrite Hib, !(proj2 (Z.leb_le _ _)) by lia. cbn [andb mbind outcome_bind].
    rewrite Nat2Z.id, drop_0, <- Hst. exists (t ++ NUL :: drop (S (length t)) buf).
    pose proof (store_string buf t Hl) as Hss.
    destruct (store_bytes buf t) as [b| | |]; try discriminate. cbn [mbind outcome_bind] in *.
    rewrite Hss. cbn [mbind outcome_bind]. rewrite Hret. split; [done|].
    split; [by apply until_nul_app|]. rewrite length_app. cbn. rewrite length_drop. lia.
  - destruct Hst as (pblock & len & u & -> & Hrd). cbn [mbind outcome_bind]. rewrite Hrd.
    cbn [mbind outcome_bind]. unfold wsub. rewrite u64_small by lia.
    rewrite strncpy_padded by (done || lia). cbn [mbind outcome_bind].
    rewrite store_bytes_in by (rewrite length_app, repeat_length; lia). cbn [mbind outcome_bind].
    rewrite store_in by (repeat rewrite ?length_app, ?length_drop, ?repeat_length; lia).
    cbn [mbind outcome_bind]. rewrite Hret. eexists. split; [done|].
    rewrite Nat2Z.id, <- app_assoc. split.
    + rewrite insert_app_r_alt, Nat.sub_diag by lia.
      destruct (repeat _ _ ++ _) as [|x r] eqn:E.
      * apply (f_equal length) in E. repeat rewrite ?length_app, ?length_drop, ?repeat_length in E. cbn in E. lia.
      * cbn. by apply until_nul_app.
    + repeat rewrite ?length_insert, ?length_app, ?length_drop, ?repeat_length. lia.
Qed.

(** for a symbolic link whose target is shorter than the caller's buffer,
    [get_link_dest] leaves exactly the target, terminated, in the buffer,
    whether the target is stored in the inode or in a block of its own, and
    returns its size with the terminator. *)
Theorem link_dest_correct fuel f ino t buf :
  link_target fuel f ino t -> length (i_block ino) = 60%nat ->
  (length t < length buf)%nat -> Z.of_nat (length buf) < 2 ^ 31 ->
  exists buf', get_link_dest fuel f ino buf (Z.of_nat (length buf))
    = Ret (Z.of_nat (length t) + 1, buf') /\ until_nul buf' = t /\ length buf' = length buf.
Proof. apply link_dest_ok. Qed.

(** ** Listing a directory *)

Lemma printable_name s buf pos nm :
  length s = 255%nat -> (length nm <= 254)%nat ->
  load_le buf (pos + 6) 1 = Ret (Z.of_nat (length nm)) ->
  load_bytes buf (pos + 8) (Z.of_nat (length nm)) = Ret nm ->
  get_printable_name s buf pos = Ret (nm ++ NUL :: drop (S (length nm)) s).
Proof.
  intros Hs Hl Hn Hb. unfold get_printable_name. rewrite Hn. cbn [mbind outcome_bind].
  rewrite Hb. apply store_string. lia.
Qed.

Lemma dir_from_resume fuel f ino off es1 es2 :
  dir_from fuel f ino off (es1 ++ es2) -> 0 <= off ->
  let o := match last es1 with None => off | Some e => de_next e end in
  dir_from fuel f ino o es2 /\ 0 <= o.
Proof.
  revert off. induction es1 as [|e es1 IH]; intros off H Ho; [done|].
  inversion H; subst. destruct (IH (off + rec_len)) as [Hr1 Hr2]; [done|lia|].
  destruct es1 as [|e' es1]; [done|]. rewrite last_cons_cons.
  destruct (last (e' :: es1)) eqn:E; [done|]. by apply last_None in E.
Qed.

Section ReaddirSpec.
Context {A : Type} (filler : A -> list byte -> Z -> A * Z).

Lemma readdir_loop_in fuel f ino off es ctx name_buf acc rounds :
  geometry f -> inode_get_size ino < 2 ^ 32 -> 0 <= off ->
  dir_from fuel f ino off es -> coherent fuel f ino ctx ->
  Forall (fun e => (length (de_name e) <= 254)%nat) es -> length name_buf = 255%nat ->
  (length es < rounds)%nat ->
  readdir_loop filler rounds fuel f ino off ctx name_buf acc = Ret (emit filler es acc).
Proof.
  intros G Hsz Hoff Hd. revert ctx name_buf acc rounds. pose proof (block_size_range f G) as HB.
  induction Hd as [|off c rec_len n nm es buf pos Ho Hu Hrec Hrl Hn Hnl Hnm Hd IH];
    intros ctx name_buf acc rounds Hctx Hns Hnb Hr;
    (destruct rounds as [|rounds]; [cbn in Hr; lia|]); cbn [readdir_loop emit].
  - assert (fits 63 (inode_get_size ino)) by (split; lia).
    rewrite (proj1 (dentry_get_eq fuel f ino (inode_get_size ino) ctx G ltac:(done)
      ltac:(apply Z.div_lt_upper_bound; nia) Hctx)).
    by rewrite Z.ltb_irrefl, Z.eqb_refl.
  - assert (fits 63 off) by (split; lia).
    rewrite (proj1 (dentry_get_eq fuel f ino off ctx G ltac:(done)
      ltac:(apply Z.div_lt_upper_bound; nia) Hctx)).
    rewrite (proj2 (Z.ltb_ge _ _)), (proj2 (Z.eqb_neq _ _)), Hu by lia. cbn [mbind outcome_bind].
    fold pos buf. rewrite Hrec, Hn. cbn [mbind outcome_bind de_ino de_name de_next].
    pose proof (dir_from_le _ _ _ _ _ Hd). rewrite (s64_small (off + rec_len)) by lia.
    apply dir_ctx_update_lblock in Hu as [_ Hc].
    inversion Hns as [|? ? Hlen Hns']; subst. cbn in Hlen, Hr.
    destruct (Z.eqb_spec n 0) as [->|Hn0]; cbn [orb]; [apply IH; (done || lia)|].
    rewrite (printable_name name_buf buf pos nm) by done. cbn [mbind outcome_bind].
    set (nb := nm ++ _). assert (length nb = 255%nat) as Hnb'.
    { unfold nb. rewrite length_app. cbn. rewrite length_drop. lia. }
    assert (until_nul nb = until_nul nm) as -> by apply until_nul_nul.
    assert (exists ch, char_at nb 0 = Ret ch /\ (ch = NUL <-> until_nul nm = [])) as (ch & -> & Hch).
    { unfold nb. destruct nm as [|x nm]; cbn; [by exists NUL|]. exists x. split; [done|].
      case_decide; naive_solver. }
    cbn [mbind outcome_bind].
    destruct (bool_decide_reflect (ch = NUL)) as [E|E].
    { rewrite bool_decide_true by tauto. apply IH; (done || lia). }
    rewrite bool_decide_false by tauto. destruct (filler acc (until_nul nm) (off + rec_len)) as [acc' r].
    destruct (negb (r =? 0)); [done|]. apply IH; (done || lia).
Qed.

Lemma readdir_ok fuel f dirs width rounds d kids p local ino name_buf k es1 es2 acc :
  DirTree fuel f dirs width -> geometry f -> cache_ok dirs d kids -> path_ok p ->
  resolve dirs ROOT_INODE_N (tokens p) = Some k -> dirs k = Some (es1 ++ es2) ->
  length local = 156%nat -> length ino = 156%nat -> length name_buf = 255%nat ->
  (length p < rounds)%nat -> Forall (fun e => (length (de_name e) <= 254)%nat) es2 ->
  exists d' kids', cache_ok dirs d' kids' /\
    op_readdir filler rounds width fuel f local ino name_buf d (cstring p) (resume es1) acc
    = Ret (0, emit filler es2 acc, d').
Proof.
  intros T G Hok Hp Hk Hdir Hlocal Hino Hnb Hr Hn.
  destruct (by_path fuel f dirs width rounds d kids p local k G Hok Hp Hk Hlocal Hr ino)
    as (d' & kids' & Hok' & H).
  exists d', kids'. split; [done|]. unfold op_readdir. rewrite H.
  destruct (dirs_inode k (es1 ++ es2) ino Hdir Hino) as (i & -> & _ & _ & Hsz & (ctx & Hctx) & Hfrom).
  cbn [mbind outcome_bind]. change (0 <? 0) with false. cbv iota. rewrite Hctx. cbn [mbind outcome_bind].
  apply dir_ctx_update_lblock in Hctx as [_ Hc]. apply dir_from_resume in Hfrom as [Hf Ho]; [|done].
  assert (length es2 < width)%nat.
  { pose proof (dirs_width k _ Hdir) as Hw. rewrite length_app in Hw. lia. }
  unfold resume. by rewrite (readdir_loop_in fuel f i _ es2).
Qed.

(** C17: [op_readdir] of a directory hands the callback every entry in use, in
    order, with its exact name and the offset of the entry after it, until
    the callback refuses one; restarted at an offset it has handed out, it
    goes on with the entries after that one, neither repeating nor skipping
    any (names of at most 254 bytes). *)
Theorem readdir_lists fuel f dirs width rounds d kids p local ino name_buf k es1 es2 acc :
  DirTree fuel f dirs width -> geometry f -> cache_ok dirs d kids -> path_ok p ->
  resolve dirs ROOT_INODE_N (tokens p) = Some k -> dirs k = Some (es1 ++ es2) ->
  length local = 156%nat -> length ino = 156%nat -> length name_buf = 255%nat ->
  (length p < rounds)%nat -> Forall (fun e => (length (de_name e) <= 254)%nat) es2 ->
  exists d' kids', cache_ok dirs d' kids' /\
    op_readdir filler rounds width fuel f local ino name_buf d (cstring p) (resume es1) acc
    = Ret (0, emit filler es2 acc, d').
Proof. apply readdir_ok. Qed.
End ReaddirSpec.

(** ** Witnesses *)

Example op_init_sample :
  (fun r => (fs_super (fst r), fs_gdesc (fst r), label (snd r) root)) <$> op_init (Fs sample_image [] []) dcache_start
  = Ret (fs_super sample_fs, fs_gdesc sample_fs, Some ([], ROOT_INODE_N)).
Proof. vm_compute. reflexivity. Qed.

Definition garbage : list byte := repeat x00 156.


Lemma getattr_correct_witness :
  exists d d' kids', inode_init dcache_start = Ret (d, 0) /\ cache_ok sample_dirs d' kids' /\
    op_getattr 7 8 1 sample_fs garbage garbage d (cstring (bytes_of_string "/hello"))
    = Ret (0, stat_of (sample_inode 13), d').
Proof.
  destruct (fresh_cache_ok sample_dirs) as (d & kids & Hd & Hok).
  destruct (getattr_correct 1 sample_fs sample_dirs 8 7 d kids (bytes_of_string "/hello") garbage 13)
    with (ino := garbage) (i := sample_inode 13) as [(d' & kids' & Hok' & H) _].
  - exact sample_fs_geometry.
  - exact Hok.
  - vm_decide.
  - vm_compute. reflexivity.
  - reflexivity.
  - vm_compute. lia.
  - intros _. vm_compute. reflexivity.
  - exists d, d', kids'. split; [exact Hd|]. split; [exact Hok'|exact H].
Defined.

Lemma open_read_only_witness :
  exists d, inode_init dcache_start = Ret (d, 0) /\
    op_open 7 8 1 sample_fs garbage d (cstring (bytes_of_string "/hello")) 1 = Ret (- EACCES, None, d) /\
    exists d', op_open 7 8 1 sample_fs garbage d (cstring (bytes_of_string "/hello")) 0 = Ret (0, Some 13, d').
Proof.
  destruct (fresh_cache_ok sample_dirs) as (d & kids & Hd & Hok).
  assert (forall fl, _) as H by
    (refine (open_read_only 1 sample_fs sample_dirs 8 7 d kids (bytes_of_string "/hello") garbage 13
       sample_fs_geometry Hok _ _ _ _);
     [vm_decide|vm_compute; reflexivity|reflexivity|vm_compute; lia]).
  exists d. split; [exact Hd|]. split; [apply (proj1 (H 1)); discriminate|].
  destruct (proj2 (H 0) eq_refl) as (d' & _ & _ & H' & _). exists d'. exact H'.
Defined.

(** A stale structure that holds a link answers for a missing path. *)
Lemma readlink_ignores_missing_witness :
  exists d d', inode_init dcache_start = Ret (d, 0) /\
    op_readlink 9 8 1 sample_fs garbage (sample_inode 15) d (cstring (bytes_of_string "/missing")) (repeat x00 8) 8
    = Ret (0, bytes_of_string "hello" ++ repeat x00 3, d').
Proof.
  destruct (fresh_cache_ok sample_dirs) as (d & kids & Hd & Hok).
  destruct (readlink_ignores_missing 1 sample_fs sample_dirs 8 9 d kids (bytes_of_string "/missing") garbage 0)
    with (ino := sample_inode 15) (buf := repeat x00 8) (bufsize := 8) as (d' & _ & _ & H).
  - exact sample_fs_geometry.
  - exact Hok.
  - vm_decide.
  - vm_compute. reflexivity.
  - reflexivity.
  - vm_compute. lia.
  - reflexivity.
  - exists d, d'. split; [exact Hd|]. etransitivity; [exact H|]. vm_compute. reflexivity.
Defined.

Lemma link_dest_correct_witness :
  exists buf', get_link_dest 1 sample_fs (sample_inode 15) (repeat x00 8) 8 = Ret (6, buf') /\
    until_nul buf' = bytes_of_string "hello".
Proof.
  destruct (link_dest_correct 1 sample_fs (sample_inode 15) (bytes_of_string "hello") (repeat x00 8))
    as (buf' & H & Hu & _).
  - split; [vm_decide|]. split; vm_compute; reflexivity.
  - vm_compute. reflexivity.
  - vm_compute. lia.
  - vm_compute. reflexivity.
  - exists buf'. split; [exact H|exact Hu].
Defined.

Lemma printable_name_bounds_witness :
  get_printable_name (repeat x00 255) (dev_bytes sample_image (10 * 1024) 1024) 24
  = Ret (bytes_of_string "sub" ++ repeat x00 252).
Proof.
  etransitivity; [apply (printable_name_bounds _ _ 24 (bytes_of_string "sub")); vm_compute; try reflexivity; try lia; discriminate|].
  vm_compute. reflexivity.
Defined.

(** A callback that collects names and offsets. *)
Definition collect (acc : list (list byte * Z)) (nm : list byte) (off : Z) : list (list byte * Z) * Z :=
  (acc ++ [(nm, off)], 0).

(** The root directory from its second entry on. *)
Lemma readdir_lists_witness :
  exists d d' e es, inode_init dcache_start = Ret (d, 0) /\ sample_dirs 2 = Some (e :: es) /\
    op_readdir collect 2 8 1 sample_fs garbage garbage (repeat x00 255) d (cstring [SLASH]) (de_next e) []
    = Ret (0, emit collect es [], d').
Proof.
  destruct (fresh_cache_ok sample_dirs) as (d & kids & Hd & Hok).
  destruct (sample_dirs 2) as [[|e es]|] eqn:E; [vm_compute in E; discriminate| |vm_compute in E; discriminate].
  destruct (readdir_lists collect 1 sample_fs sample_dirs 8 2 d kids [SLASH] garbage garbage (repeat x00 255) 2 [e] es [])
    as (d' & kids' & _ & H).
  - exact sample_tree_ok.
  - exact sample_fs_geometry.
  - exact Hok.
  - vm_decide.
  - reflexivity.
  - exact E.
  - reflexivity.
  - reflexivity.
  - reflexivity.
  - cbn. lia.
  - vm_compute in E. injection E as <- <-. vm_compute. repeat constructor; lia.
  - exists d, d', e, es. split; [exact Hd|]. split; [reflexivity|exact H].
Defined.
