(* ===== verification/Malformed.v ===== *)
(** * Directories of any content ([src/fuse/inode.c], [op_readdir.c])

    The theorems of [Path] and [Ops] are about directories that are chains of
    records.  The code checks nothing of that: it trusts the [rec_len] of every
    record.  Here the directory holds any bytes at all, and the two loops over
    directory entries are compared with a plain walk over the records, which
    tells from the content whether a loop answers, aborts the process, reads
    outside of its buffer or never ends. *)

From Stdlib Require Import Strings.Byte Strings.String.
From S2P Require Import Prelude Bytes CString Layout Disk Image Super Extents Inode Dcache Path Ops.

(** ** Walking over records *)

Section Walk.
Context {St R : Type} (visit : St -> Z -> outcome (R + St * Z)) (at_end : St -> R) (size : Z).

(** The loop without buffers: [visit] answers, or goes on behind a record. *)
Fixpoint scan (n : nat) (s : St) (off : Z) : outcome R :=
  match n with
  | O => OutOfFuel
  | S n =>
      if size <? off then AssertFail
      else if size =? off then Ret (at_end s)
      else
        x ← visit s off;
        match x with
        | inl r => Ret r
        | inr (s, len) => scan n s (off + len)
        end
  end.

Inductive verdict := Answers (r : R) | Aborts | Crashes | Hangs.

(** How the walk from an offset ends. *)
Inductive walk : St -> Z -> verdict -> Prop :=
  | walk_end s : walk s size (Answers (at_end s))
  | walk_past s off : size < off -> walk s off Aborts
  | walk_wild s off : off < size -> visit s off = Undefined -> walk s off Crashes
  | walk_answer s off r : off < size -> visit s off = Ret (inl r) -> walk s off (Answers r)
  | walk_next s off s' len v :
      off < size -> visit s off = Ret (inr (s', len)) -> 0 < len -> walk s' (off + len) v -> walk s off v
  | walk_stuck s off (I : St -> Prop) :
      off < size -> I s -> (forall s, I s -> exists s', visit s off = Ret (inr (s', 0)) /\ I s') ->
      walk s off Hangs.

Definition meaning (v : verdict) : outcome R :=
  match v with Answers r => Ret r | Aborts => AssertFail | Crashes => Undefined | Hangs => OutOfFuel end.

Lemma scan_step n s off : off < size ->
  scan (S n) s off = (x ← visit s off; match x with inl r => Ret r | inr (s, len) => scan n s (off + len) end).
Proof. intros H. cbn [scan]. by rewrite (proj2 (Z.ltb_ge _ _)), (proj2 (Z.eqb_neq _ _)) by lia. Qed.

Lemma scan_stuck n s off (I : St -> Prop) :
  off < size -> I s -> (forall s, I s -> exists s', visit s off = Ret (inr (s', 0)) /\ I s') ->
  scan n s off = OutOfFuel.
Proof.
  intros Ho Hs H. revert s Hs. induction n as [|n IH]; intros s Hs; [done|]. rewrite scan_step by done.
  destruct (H s Hs) as (s' & -> & Hs'). cbn [mbind outcome_bind]. rewrite Z.add_0_r. by apply IH.
Qed.

(** Enough rounds give what the walk says; a walk that hangs does so for any
    number of rounds. *)
Lemma scan_walk s off v n :
  walk s off v -> (Z.to_nat (size - off) < n)%nat \/ v = Hangs -> scan n s off = meaning v.
Proof.
  intros W. revert n. induction W as [s|s off Ho|s off Ho Hv|s off r Ho Hv|s off s' len v Ho Hv Hl W IH|s off I Ho Hs Hst];
    intros [|n] Hn; try (by apply scan_stuck with I); try (destruct Hn as [Hn|Hn]; [lia|by subst]).
  - cbn [scan]. by rewrite Z.ltb_irrefl, Z.eqb_refl.
  - cbn [scan]. by rewrite (proj2 (Z.ltb_lt _ _)).
  - by rewrite scan_step, Hv by done.
  - by rewrite scan_step, Hv by done.
  - rewrite scan_step, Hv by done. cbn [mbind outcome_bind]. apply IH. destruct Hn; [left; lia|by right].
Qed.

(** Every walk ends in one of the four ways, when the visits do no worse than
    read outside of a buffer and it can be told of a record without length
    whether it is left. *)
Lemma walk_total s off :
  (forall s off, 0 <= off < size -> visit s off = Undefined \/ returns (visit s off)) ->
  (forall s off s' len, visit s off = Ret (inr (s', len)) -> 0 <= len) ->
  (forall s off s', off < size -> visit s off = Ret (inr (s', 0)) -> exists v, walk s off v) ->
  0 <= off -> exists v, walk s off v.
Proof.
  intros Hret Hlen Hzero. remember (Z.to_nat (size - off)) as n eqn:En. assert (Z.to_nat (size - off) <= n)%nat as Hn by lia.
  clear En. revert s off Hn. induction n as [|n IH]; intros s off Hn Hoff.
  - destruct (Z.eq_dec off size) as [->|]; [exists (Answers (at_end s)); constructor|]. exists Aborts. constructor. lia.
  - destruct (Z.lt_trichotomy off size) as [Ho|[->|Ho]]; [|exists (Answers (at_end s)); constructor|exists Aborts; by constructor].
    destruct (Hret s off ltac:(lia)) as [E|[[r|[s' len]] E]]; [exists Crashes; by constructor|exists (Answers r); by constructor|].
    pose proof (Hlen s off s' len E). destruct (Z.eq_dec len 0) as [->|]; [by eapply Hzero|].
    destruct (IH s' (off + len)) as [v W]; [lia..|]. exists v. by apply walk_next with s' len; [..|lia|].
Qed.
End Walk.

Arguments Answers {R} _.
Arguments Aborts {R}.
Arguments Crashes {R}.
Arguments Hangs {R}.

(** ** The records of a directory *)

Section Directory.
Context (fuel : nat) (f : fs) (ino : list byte).

(** The block and the position of the record at an offset, its inode number
    and its length. *)
Definition record_head (off : Z) : outcome (list byte * Z * Z * Z) :=
  ctx ← dir_ctx_update fuel f ino (off / BLOCK_SIZE f);
  let pos := off mod BLOCK_SIZE f in
  rec_len ← load_le (dc_buf ctx) (pos + 4) 2;
  n ← load_le (dc_buf ctx) pos 4;
  mret (dc_buf ctx, pos, n, rec_len).

(** Looking for a name: a record answers or is left behind. *)
Definition visit_search (path : list byte) (path_len : Z) (s : unit) (off : Z) : outcome (option Z + unit * Z) :=
  '(buf, pos, n, rec_len) ← record_head off;
  if n =? 0 then Ret (inr (s, rec_len))
  else
    name_len ← load_le buf (pos + 6) 1;
    if negb (path_len =? name_len) then Ret (inr (s, rec_len))
    else
      c ← memcmp path (drop (Z.to_nat (pos + 8)) buf) (Z.to_nat name_len);
      if negb (c =? 0) then Ret (inr (s, rec_len)) else Ret (inl (Some n)).

(** Listing: a record in use with a name is handed to the callback. *)
Definition visit_list {A} (filler : A -> list byte -> Z -> A * Z) (acc : A) (off : Z) : outcome (A + A * Z) :=
  '(buf, pos, n, rec_len) ← record_head off;
  if n =? 0 then Ret (inr (acc, rec_len))
  else
    name_len ← load_le buf (pos + 6) 1;
    nm ← load_bytes buf (pos + 8) name_len;
    c_defined (name_len <=? 254) ;;
    if bool_decide (until_nul nm = []) then Ret (inr (acc, rec_len))
    else
      let '(acc, r) := filler acc (until_nul nm) (off + rec_len) in
      if negb (r =? 0) then Ret (inl acc) else Ret (inr (acc, rec_len)).

(** The blocks of the directory, and its first one in any case, can be read;
    nothing is asked of their content. *)
Definition readable : Prop :=
  forall l, l = 0 \/ 0 <= l /\ l * BLOCK_SIZE f < inode_get_size ino -> returns (dir_ctx_update fuel f ino l).

(** Small enough for 32-bit offsets not to wrap. *)
Definition small_dir : Prop := inode_get_size ino + 2 ^ 16 <= 2 ^ 32.

(** No worse than an access outside of a buffer. *)
Definition mild {A} (m : outcome A) : Prop := m = Undefined \/ returns m.

Lemma mild_Ret {A} (a : A) : mild (Ret a).
Proof. right. by exists a. Qed.

Lemma mild_bind {A B} (m : outcome A) (k : A -> outcome B) : mild m -> (forall a, mild (k a)) -> mild (m ≫= k).
Proof. intros [->|[a ->]] Hk; [by left|]. apply Hk. Qed.

Lemma mild_load_bytes mem off n : mild (load_bytes mem off n).
Proof. unfold load_bytes. case_match; [apply mild_Ret|by left]. Qed.

Lemma mild_load_le mem off n : mild (load_le mem off n).
Proof. apply mild_bind; [apply mild_load_bytes|intros bs; apply mild_Ret]. Qed.

Lemma mild_memcmp p q n : mild (memcmp p q n).
Proof.
  revert p q. induction n as [|n IH]; intros p q; [apply mild_Ret|].
  destruct p as [|x p], q as [|y q]; cbn; try by left. case_decide; [apply IH|apply mild_Ret].
Qed.

Hypothesis G : geometry f.

Lemma mild_head off : readable -> 0 <= off < inode_get_size ino -> mild (record_head off).
Proof.
  intros Hr Ho. pose proof (block_size_range f G). apply mild_bind.
  - right. apply Hr. right. split; [apply Z.div_pos; lia|].
    pose proof (Z.mul_div_le off (BLOCK_SIZE f) ltac:(lia)). lia.
  - intros ctx. apply mild_bind; [apply mild_load_le|intros rec_len].
    apply mild_bind; [apply mild_load_le|intros n]. apply mild_Ret.
Qed.

Lemma mild_search path len s off : readable -> 0 <= off < inode_get_size ino -> mild (visit_search path len s off).
Proof.
  intros Hr Ho. apply mild_bind; [by apply mild_head|]. intros [[[buf pos] n] rec_len].
  case_match; [apply mild_Ret|]. apply mild_bind; [apply mild_load_le|intros name_len].
  case_match; [apply mild_Ret|]. apply mild_bind; [apply mild_memcmp|intros c]. case_match; apply mild_Ret.
Qed.

Lemma mild_list {A} (filler : A -> list byte -> Z -> A * Z) acc off :
  readable -> 0 <= off < inode_get_size ino -> mild (visit_list filler acc off).
Proof.
  intros Hr Ho. apply mild_bind; [by apply mild_head|]. intros [[[buf pos] n] rec_len].
  case_match; [apply mild_Ret|]. apply mild_bind; [apply mild_load_le|intros name_len].
  apply mild_bind; [apply mild_load_bytes|intros nm].
  apply mild_bind; [unfold c_defined; case_match; [apply mild_Ret|by left]|intros _].
  case_match; [apply mild_Ret|]. destruct (filler _ _ _) as [acc' r]. case_match; apply mild_Ret.
Qed.

(** The length a visit goes on by is the 16-bit field of the record. *)
Lemma head_len off buf pos n rec_len : record_head off = Ret (buf, pos, n, rec_len) -> 0 <= rec_len < 2 ^ 16.
Proof. unfold record_head. intros H. outcome_inv. simplify_eq. exact (load_le_fits _ _ 2 _ E0). Qed.

Lemma search_len path len s off s' l : visit_search path len s off = Ret (inr (s', l)) -> s' = s /\ 0 <= l < 2 ^ 16.
Proof.
  unfold visit_search. intros H. apply bind_Ret in H as ([[[buf pos] n] rec_len] & Hh & H). apply head_len in Hh.
  repeat (case_match; try (apply bind_Ret in H as (? & _ & H))); simplify_eq; try done.
Qed.

Lemma list_len {A} (filler : A -> list byte -> Z -> A * Z) acc off acc' l :
  visit_list filler acc off = Ret (inr (acc', l)) -> 0 <= l < 2 ^ 16.
Proof.
  unfold visit_list. intros H. apply bind_Ret in H as ([[[buf pos] n] rec_len] & Hh & H). apply head_len in Hh.
  destruct (n =? 0); [by simplify_eq|]. outcome_inv. case_match; [by simplify_eq|].
  destruct (filler _ _ _). case_match; by simplify_eq.
Qed.

(** ** The loops of the code are walks *)

(** [inode_dentry_get] before the end of the directory. *)
Lemma dentry_get_before ctx off :
  coherent fuel f ino ctx -> 0 <= off < 2 ^ 32 ->
  inode_dentry_get fuel f ino off ctx =
    (if inode_get_size ino <? off then AssertFail
     else if inode_get_size ino =? off then Ret (None, ctx)
     else c ← dir_ctx_update fuel f ino (off / BLOCK_SIZE f); Ret (Some (off mod BLOCK_SIZE f), c)).
Proof.
  intros Hctx Ho. pose proof (block_size_range f G).
  apply (dentry_get_eq fuel f ino off ctx G); [split; lia|apply Z.div_lt_upper_bound; nia|done].
Qed.

Lemma dir_search_scan path len ctx off n :
  small_dir -> coherent fuel f ino ctx -> 0 <= off < 2 ^ 32 ->
  dir_search n fuel f ino off ctx path len
  = scan (visit_search path len) (fun _ => None) (inode_get_size ino) n tt off.
Proof.
  unfold small_dir. intros Hs. revert ctx off. induction n as [|n IH]; intros ctx off Hctx Ho; [done|].
  cbn [dir_search scan]. rewrite dentry_get_before by done.
  destruct (Z.ltb_spec (inode_get_size ino) off); [done|].
  destruct (Z.eqb_spec (inode_get_size ino) off); [done|].
  unfold visit_search, record_head.
  destruct (dir_ctx_update fuel f ino (off / BLOCK_SIZE f)) as [c| | |] eqn:Eu; try done.
  apply dir_ctx_update_lblock in Eu as [_ Hc]. cbn [mbind outcome_bind].
  destruct (load_le (dc_buf c) (off mod BLOCK_SIZE f + 4) 2) as [rec_len| | |] eqn:El; try done.
  apply load_le_fits in El as [Hl0 Hl]. change (8 * 2) with 16 in Hl. cbn [mbind outcome_bind].
  destruct (load_le (dc_buf c) (off mod BLOCK_SIZE f) 4) as [k| | |]; try done. cbn [mbind outcome_bind mret outcome_ret].
  unfold wadd. rewrite (u32_small (off + rec_len)) by lia.
  assert (dir_search n fuel f ino (off + rec_len) c path len =
    scan (visit_search path len) (fun _ => None) (inode_get_size ino) n tt (off + rec_len)) as E by (apply IH; [done|lia]).
  destruct (k =? 0); [exact E|].
  destruct (load_le (dc_buf c) (off mod BLOCK_SIZE f + 6) 1) as [nl| | |]; try done. cbn [mbind outcome_bind].
  destruct (negb (len =? nl)); [exact E|].
  destruct (memcmp path _ _) as [x| | |]; try done. cbn [mbind outcome_bind]. by destruct (negb (x =? 0)).
Qed.

(** The local buffer takes the names that fit, terminated. *)
Lemma printable s buf pos nl :
  length s = 255%nat -> load_le buf (pos + 6) 1 = Ret nl ->
  get_printable_name s buf pos =
    (nm ← load_bytes buf (pos + 8) nl; c_defined (nl <=? 254) ;; Ret (nm ++ NUL :: drop (S (length nm)) s)).
Proof.
  intros Hs Hn. unfold get_printable_name. rewrite Hn. cbn [mbind outcome_bind].
  apply load_le_fits in Hn as [H0 H1]. change (8 * 1) with 8 in H1.
  destruct (load_bytes buf (pos + 8) nl) as [nm| | |] eqn:E; try done. cbn [mbind outcome_bind].
  apply load_bytes_length in E. destruct (Z.leb_spec nl 254) as [Hl|Hl]; cbn [c_defined mbind outcome_bind].
  - rewrite <- E. apply store_string. lia.
  - rewrite store_bytes_in by lia. cbn [mbind outcome_bind]. unfold store.
    rewrite length_app, length_drop. rewrite (proj2 (Z.ltb_ge _ _)) by lia. by rewrite andb_false_r.
Qed.

Lemma first_of_name nm s :
  exists c, char_at (nm ++ NUL :: s) 0 = Ret c /\ bool_decide (c = NUL) = bool_decide (until_nul nm = []).
Proof.
  destruct nm as [|x nm]; [by exists NUL|]. exists x. split; [done|]. apply bool_decide_ext. cbn.
  case_decide; naive_solver.
Qed.

Lemma readdir_loop_scan {A} (filler : A -> list byte -> Z -> A * Z) ctx name_buf acc off n :
  small_dir -> coherent fuel f ino ctx -> 0 <= off < 2 ^ 32 -> length name_buf = 255%nat ->
  readdir_loop filler n fuel f ino off ctx name_buf acc
  = scan (visit_list filler) (fun acc => acc) (inode_get_size ino) n acc off.
Proof.
  unfold small_dir. intros Hs. revert ctx name_buf acc off. induction n as [|n IH]; intros ctx name_buf acc off Hctx Ho Hb; [done|].
  cbn [readdir_loop scan]. rewrite dentry_get_before by done.
  destruct (Z.ltb_spec (inode_get_size ino) off); [done|].
  destruct (Z.eqb_spec (inode_get_size ino) off); [done|].
  unfold visit_list, record_head.
  destruct (dir_ctx_update fuel f ino (off / BLOCK_SIZE f)) as [c| | |] eqn:Eu; try done.
  apply dir_ctx_update_lblock in Eu as [_ Hc]. cbn [mbind outcome_bind].
  destruct (load_le (dc_buf c) (off mod BLOCK_SIZE f + 4) 2) as [rec_len| | |] eqn:El; try done.
  apply load_le_fits in El as [Hl0 Hl]. change (8 * 2) with 16 in Hl. cbn [mbind outcome_bind].
  destruct (load_le (dc_buf c) (off mod BLOCK_SIZE f) 4) as [k| | |]; try done. cbn [mbind outcome_bind mret outcome_ret].
  rewrite (s64_small (off + rec_len)) by lia.
  assert (forall nb acc, length nb = 255%nat -> readdir_loop filler n fuel f ino (off + rec_len) c nb acc =
    scan (visit_list filler) (fun acc => acc) (inode_get_size ino) n acc (off + rec_len)) as E by (intros; apply IH; [done|lia|done]).
  destruct (k =? 0); [by apply E|].
  destruct (load_le (dc_buf c) (off mod BLOCK_SIZE f + 6) 1) as [nl| | |] eqn:En;
    try (by unfold get_printable_name; rewrite En).
  rewrite (printable name_buf _ _ nl) by done. cbn [mbind outcome_bind].
  destruct (load_bytes (dc_buf c) (off mod BLOCK_SIZE f + 8) nl) as [nm| | |] eqn:Enm; try done. cbn [mbind outcome_bind].
  apply load_bytes_length in Enm. destruct (Z.leb_spec nl 254); cbn [c_defined mbind outcome_bind]; [|done].
  destruct (first_of_name nm (drop (S (length nm)) name_buf)) as (ch & -> & Hch). cbn [mbind outcome_bind]. rewrite Hch.
  assert (length (nm ++ NUL :: drop (S (length nm)) name_buf) = 255%nat) as Hb'.
  { rewrite length_app. cbn. rewrite length_drop. lia. }
  destruct (bool_decide (until_nul nm = [])); cbn [mbind outcome_bind]; [rewrite E by exact Hb'; reflexivity|]. rewrite until_nul_nul.
  destruct (filler acc _ _) as [acc' r]. destruct (negb (r =? 0)); cbn [mbind outcome_bind]; [done|]. rewrite E by exact Hb'; reflexivity.
Qed.

(** ** Every walk ends somehow *)

Lemma search_total path len :
  readable -> exists v, walk (visit_search path len) (fun _ => None) (inode_get_size ino) tt 0 v.
Proof.
  intros Hr. apply walk_total; [| | |done].
  - intros s off Ho. by apply mild_search.
  - intros s off s' l [_ H]%search_len. lia.
  - intros s off s' Ho E. exists Hangs. apply walk_stuck with (fun s' => s' = s); [done|done|].
    intros ? ->. exists s. split; [|done]. by pose proof (search_len _ _ _ _ _ _ E) as [-> _].
Qed.

(** A record without length that was left once is left again, by a callback
    that never refuses. *)
Lemma list_again {A} (filler : A -> list byte -> Z -> A * Z) acc acc1 off l :
  (forall acc nm o, (filler acc nm o).2 = 0) ->
  visit_list filler acc off = Ret (inr (acc1, l)) -> exists acc2, visit_list filler acc1 off = Ret (inr (acc2, l)).
Proof.
  intros Hf. unfold visit_list. destruct (record_head off) as [[[[buf pos] n] rec_len]| | |]; try done. cbn [mbind outcome_bind].
  destruct (n =? 0); [intros [= _ ->]; eauto|].
  destruct (load_le buf (pos + 6) 1) as [nl| | |]; try done. cbn [mbind outcome_bind].
  destruct (load_bytes buf (pos + 8) nl) as [nm| | |]; try done. cbn [mbind outcome_bind].
  destruct (c_defined (nl <=? 254)); try done. cbn [mbind outcome_bind].
  destruct (bool_decide _); [intros [= _ ->]; eauto|].
  pose proof (Hf acc1 (until_nul nm) (off + rec_len)) as H1. destruct (filler acc1 _ _) as [acc2 r2].
  destruct (filler acc _ _) as [acc' r]. cbn in H1. subst r2. cbn.
  destruct (negb (r =? 0)); [done|]. intros [= _ ->]. by exists acc2.
Qed.

Lemma list_total {A} (filler : A -> list byte -> Z -> A * Z) acc off :
  readable -> (forall acc nm o, (filler acc nm o).2 = 0) -> 0 <= off ->
  exists v, walk (visit_list filler) (fun acc => acc) (inode_get_size ino) acc off v.
Proof.
  intros Hr Hf Ho. apply walk_total; [| | |done].
  - intros a o H. by apply mild_list.
  - intros a o a' l H%list_len. lia.
  - intros a o a' H E. exists Hangs.
    apply walk_stuck with (fun a => exists a', visit_list filler a o = Ret (inr (a', 0))); [done|eauto|].
    intros a1 [a2 E2]. exists a2. split; [done|]. by apply (list_again filler a1).
Qed.
End Directory.

(** ** The root directory of a file system just mounted *)

Lemma fresh_root d : inode_init dcache_start = Ret (d, 0) ->
  dc_inv d (fun _ => []) /\ fmap snd (label d root) = Some ROOT_INODE_N /\
  exists e, entries d !! root = Some e /\ childs e = None.
Proof.
  intros H. destruct (init_root_spec ROOT_INODE_N) as (d' & Hd & I & Hl & _); [done|].
  unfold inode_init in H. rewrite H in Hd. injection Hd as <-. split; [done|]. split; [by rewrite Hl|].
  destruct (inv_root _ _ I) as [e He]. exists e. split; [done|]. by apply (inv_heads _ _ I root e).
Qed.

(** The cache knows nothing but the root. *)
Lemma fresh_cached rounds d t :
  inode_init dcache_start = Ret (d, 0) -> t = [] \/ component t ->
  get_cached_inode_num (S rounds) d (cstring (SLASH :: t)) = Ret (cstring t, None, d).
Proof.
  intros (_ & _ & e & He & Hc)%fresh_root Ht. unfold get_cached_inode_num. cbn [cached_loop].
  change (char_at (cstring (SLASH :: t)) 0) with (Ret SLASH). cbn [mbind outcome_bind].
  rewrite bool_decide_true by done. change (drop 1 (cstring (SLASH :: t))) with (cstring t).
  destruct Ht as [->|(Hne & Hs & Htx & Hl)]; [done|].
  rewrite <- (app_nil_r t) at 1. rewrite token_len by (done || by left). cbn [mbind outcome_bind].
  rewrite (proj2 (Z.eqb_neq _ _)) by (destruct t; cbn; [done|lia]).
  unfold dcache_lookup. cbn [default]. rewrite (entry_Ret d root e) by done. cbn [mbind outcome_bind]. by rewrite Hc.
Qed.

Lemma root_number d : inode_init dcache_start = Ret (d, 0) -> dcache_get_inode d None = Ret ROOT_INODE_N.
Proof.
  intros (_ & Hl & e & He & _)%fresh_root. unfold dcache_get_inode, label in *. cbn [default]. rewrite He in Hl.
  rewrite (entry_Ret d root e) by done. cbn [mbind outcome_bind mret outcome_ret]. cbn in Hl. by injection Hl as ->.
Qed.

(** What a lookup of one component in the root directory does, when the
    directory has been read and searched. *)
Lemma root_lookup rounds drounds fuel f local i d t ctx :
  inode_init dcache_start = Ret (d, 0) -> component t ->
  inode_get_by_number f ROOT_INODE_N local = Ret (0, i) -> inode_dir_ctx_reset fuel f i = Ret ctx ->
  fst <$> inode_get_idx_by_path (S rounds) drounds fuel f local d (cstring (SLASH :: t))
  = default 0 <$> dir_search drounds fuel f i 0 ctx (cstring t) (Z.of_nat (length t)).
Proof.
  intros Hd Ht Hi Hctx. unfold inode_get_idx_by_path.
  change (char_at (cstring (SLASH :: t)) 0) with (Ret SLASH). cbn [mbind outcome_bind].
  change (c_assert (IS_PATH_SEPARATOR SLASH)) with (Ret tt). cbn [mbind outcome_bind].
  rewrite fresh_cached by (done || by right). cbn [mbind outcome_bind]. rewrite root_number by done.
  cbn [mbind outcome_bind path_loop]. destruct Ht as (Hne & Hs & Htx & Hl).
  assert (skip_trailing_backslash (cstring t) = Ret (cstring t)) as ->.
  { destruct t as [|x t]; [done|]. cbn. unfold IS_PATH_SEPARATOR. rewrite bool_decide_false; [done|]. set_solver. }
  cbn [mbind outcome_bind]. rewrite <- (app_nil_r t) at 1. rewrite token_len by (done || by left). cbn [mbind outcome_bind].
  rewrite (proj2 (Z.eqb_neq _ _)) by (destruct t; cbn; [done|lia]). rewrite Hi. cbn [mbind outcome_bind].
  rewrite Hctx. cbn [mbind outcome_bind].
  destruct (dir_search drounds fuel f i 0 ctx (cstring t) _) as [[n|]| | |]; try done. cbn [mbind outcome_bind].
  assert (exists c d', (if S_ISDIR (i_mode i) then dcache_insert d None (cstring t) (Z.of_nat (length t)) n
    else Ret (None, d)) = Ret (c, d')) as (c & d' & ->).
  { destruct (S_ISDIR _); [|eauto]. destruct (fresh_root d Hd) as (I & Hroot & e & He & _).
    destruct (le_lt_dec (length t) 39) as [H39|H39].
    - destruct (insert_refines d (fun _ => []) None t [NUL] n I) as (d' & H & _); [by eexists|done|done|by rewrite Hroot|eauto].
    - unfold dcache_insert, DCACHE_ENTRY_NAME_LEN. rewrite (proj2 (Z.ltb_lt _ _)) by lia. eauto. }
  cbn [mbind outcome_bind]. rewrite <- (app_nil_r t), strchr_ends by (done || by (rewrite ?app_nil_r) || by left). done.
Qed.

(** ** Properties *)

(** C10: a root directory of any content.  Looking up a name below it on a file
    system just mounted does exactly what a walk over the records says: it
    answers the inode number of the first record in use with that name or 0 at
    the end; it aborts the process when a record reaches past the end of the
    directory; it reads outside of its buffer when a record or a name crosses
    the end of its block; and at a record of length 0 that is not the one
    looked for it never returns.  One of the four always happens, within one
    round for each byte of the directory in the first three cases. *)
Theorem lookup_any_root fuel f local i d t :
  geometry f -> inode_init dcache_start = Ret (d, 0) ->
  inode_get_by_number f ROOT_INODE_N local = Ret (0, i) ->
  readable fuel f i -> small_dir i -> component t ->
  exists v,
    walk (visit_search fuel f i (cstring t) (Z.of_nat (length t))) (fun _ => None) (inode_get_size i) tt 0 v /\
    forall rounds drounds, (Z.to_nat (inode_get_size i) < drounds)%nat \/ v = Hangs ->
      fst <$> inode_get_idx_by_path (S rounds) drounds fuel f local d (cstring (SLASH :: t)) = default 0 <$> meaning v.
Proof.
  intros G Hd Hi Hr Hs Ht.
  destruct (search_total fuel f i G (cstring t) (Z.of_nat (length t)) Hr) as [v W]. exists v. split; [exact W|].
  intros rounds drounds Hn. destruct (Hr 0) as [ctx Hctx]; [by left|].
  rewrite (root_lookup rounds drounds fuel f local i d t ctx) by done. apply dir_ctx_update_lblock in Hctx as [_ Hc].
  rewrite dir_search_scan by (done || lia).
  by rewrite (scan_walk _ _ _ _ _ _ drounds W) by (by rewrite Z.sub_0_r).
Qed.

(** C11: listing a root directory of any content from any offset, on a file
    system just mounted, does what a walk over the records says: names of up to
    254 bytes of records in use go to the callback until it refuses one; the
    process aborts at an offset past the end, and memory outside of a buffer is
    accessed when a record or a name does not fit.  With a callback that takes
    everything, one of these or an endless loop always happens -- the latter at
    the first record of length 0, in use or not. *)
Theorem readdir_any_root {A} (filler : A -> list byte -> Z -> A * Z) fuel f local ino name_buf i d off acc :
  geometry f -> inode_init dcache_start = Ret (d, 0) ->
  inode_get_by_number f ROOT_INODE_N ino = Ret (0, i) ->
  readable fuel f i -> small_dir i -> 0 <= off < 2 ^ 32 -> length name_buf = 255%nat ->
  let walks := walk (visit_list fuel f i filler) (fun acc => acc) (inode_get_size i) acc off in
  (forall v rounds drounds, walks v -> (Z.to_nat (inode_get_size i - off) < drounds)%nat \/ v = Hangs ->
     fst <$> op_readdir filler (S rounds) drounds fuel f local ino name_buf d (cstring [SLASH]) off acc
     = pair 0 <$> meaning v) /\
  ((forall acc nm o, (filler acc nm o).2 = 0) -> exists v, walks v).
Proof.
  intros G Hd Hi Hr Hs Ho Hnb walks. split; [|intros Hf; apply list_total; (done || lia)].
  intros v rounds drounds W Hn. unfold op_readdir, inode_get_by_path, inode_get_idx_by_path.
  change (char_at (cstring [SLASH]) 0) with (Ret SLASH). cbn [mbind outcome_bind].
  change (c_assert (IS_PATH_SEPARATOR SLASH)) with (Ret tt). cbn [mbind outcome_bind].
  rewrite fresh_cached by (done || by left). cbn [mbind outcome_bind]. rewrite root_number by done.
  cbn [mbind outcome_bind]. change (path_loop (S rounds) drounds fuel f (cstring []) ROOT_INODE_N None d local)
    with (Ret (ROOT_INODE_N, d)). cbn [mbind outcome_bind]. rewrite Hi. cbn [mbind outcome_bind mret outcome_ret].
  change (0 <? 0) with false. cbv iota. destruct (Hr 0) as [ctx Hctx]; [by left|].
  unfold inode_dir_ctx_reset. rewrite Hctx. apply dir_ctx_update_lblock in Hctx as [_ Hc]. cbn [mbind outcome_bind].
  rewrite readdir_loop_scan by done. rewrite (scan_walk _ _ _ _ _ _ drounds W Hn). by destruct v.
Qed.

(** ** Witnesses: the sample image with a length in its root directory changed *)

Definition with_rec_len (off len : Z) : fs :=
  Fs (image (64 * 1024) ((10 * 1024 + off + 4, w16 len) :: sample_patches)) (fs_super sample_fs) (fs_gdesc sample_fs).

Lemma with_rec_len_geometry off len : geometry (with_rec_len off len).
Proof. split; vm_compute; intuition discriminate. Qed.

Lemma sample_root_small : small_dir (sample_inode 2).
Proof. vm_compute. discriminate. Qed.

Lemma root_size : inode_get_size (sample_inode 2) = 1024.
Proof. vm_compute. reflexivity. Qed.

Lemma root_rounds : (Z.to_nat (inode_get_size (sample_inode 2)) < 1025)%nat.
Proof. rewrite root_size. lia. Qed.

Lemma one_block off len l :
  l = 0 \/ 0 <= l /\ l * BLOCK_SIZE (with_rec_len off len) < inode_get_size (sample_inode 2) -> l = 0.
Proof.
  assert (BLOCK_SIZE (with_rec_len off len) = 1024) as -> by (vm_compute; reflexivity).
  rewrite root_size.
  intros [?|[H0 H]]; [done|lia].
Qed.

(** The record of [sub] has no length: a lookup of [hello], behind it, hangs.
    With a length of 2000 it aborts. *)
Lemma lookup_any_root_witness :
  exists d, inode_init dcache_start = Ret (d, 0) /\
    (forall rounds drounds,
       fst <$> inode_get_idx_by_path (S rounds) drounds 1 (with_rec_len 24 0) garbage d (cstring (bytes_of_string "/hello")) = OutOfFuel) /\
    (forall rounds,
       fst <$> inode_get_idx_by_path (S rounds) 1025 1 (with_rec_len 24 2000) garbage d (cstring (bytes_of_string "/hello")) = AssertFail).
Proof.
  destruct (init_root_spec ROOT_INODE_N) as (d & Hd & _); [done|]. exists d. split; [exact Hd|].
  assert (component (bytes_of_string "hello")) as Ht by (split; [done|]; split; [vm_decide|]; split; [vm_decide|vm_compute; lia]).
  split.
  - destruct (lookup_any_root 1 (with_rec_len 24 0) garbage (sample_inode 2) d (bytes_of_string "hello")) as (v & W & H).
    + apply with_rec_len_geometry.
    + exact Hd.
    + vm_compute. reflexivity.
    + intros l Hl. rewrite (one_block _ _ l Hl). eexists. vm_compute. reflexivity.
    + exact sample_root_small.
    + exact Ht.
    + assert (v = Hangs) as ->; [|intros rounds drounds; exact (H rounds drounds (or_intror eq_refl))].
      injection Hd as <-. specialize (H 1%nat 1025%nat (or_introl root_rounds)). vm_compute in H.
      by destruct v.
  - destruct (lookup_any_root 1 (with_rec_len 24 2000) garbage (sample_inode 2) d (bytes_of_string "hello")) as (v & W & H).
    + apply with_rec_len_geometry.
    + exact Hd.
    + vm_compute. reflexivity.
    + intros l Hl. rewrite (one_block _ _ l Hl). eexists. vm_compute. reflexivity.
    + exact sample_root_small.
    + exact Ht.
    + assert (v = Aborts) as ->; [|intros rounds; exact (H rounds 1025%nat (or_introl root_rounds))].
      injection Hd as <-. specialize (H 1%nat 1025%nat (or_introl root_rounds)). vm_compute in H.
      by destruct v.
Defined.

(** Listing that directory with a callback that takes every name never ends. *)
Lemma readdir_any_root_witness :
  exists d, inode_init dcache_start = Ret (d, 0) /\ forall rounds drounds,
    fst <$> op_readdir collect (S rounds) drounds 1 (with_rec_len 24 0) garbage garbage (repeat x00 255) d (cstring [SLASH]) 0 []
    = OutOfFuel.
Proof.
  destruct (init_root_spec ROOT_INODE_N) as (d & Hd & _); [done|]. exists d. split; [exact Hd|].
  destruct (readdir_any_root collect 1 (with_rec_len 24 0) garbage garbage (repeat x00 255) (sample_inode 2) d 0 []) as [H Hv].
  - apply with_rec_len_geometry.
  - exact Hd.
  - vm_compute. reflexivity.
  - intros l Hl. rewrite (one_block _ _ l Hl). eexists. vm_compute. reflexivity.
  - exact sample_root_small.
  - lia.
  - reflexivity.
  - assert (Z.to_nat (inode_get_size (sample_inode 2) - 0) < 1025)%nat as Hlt by (rewrite Z.sub_0_r; exact root_rounds).
    destruct (Hv ltac:(done)) as [v W].
    assert (v = Hangs) as ->; [|intros rounds drounds; exact (H Hangs rounds drounds W (or_intror eq_refl))].
    injection Hd as <-. specialize (H v 1%nat 1025%nat W (or_introl Hlt)). vm_compute in H.
    by destruct v.
Defined.
