(* ===== verification/Format.v ===== *)
(** * Formatted output

    The conversions of [printf] the sources use, as functions to the
    characters produced, and the truncation of [snprintf]. *)

From Stdlib Require Import Strings.Byte Strings.String.
From S2P Require Import Prelude Bytes CString.

(** A string literal. *)
Definition lit (s : string) : list byte := list_byte_of_string s.

(** The string [snprintf(_, n, ...)] leaves, when [s] is the full output. *)
Definition snprintf (n : nat) (s : list byte) : list byte := take (n - 1) s.

(** Decimal digits of a number, least significant first. *)
Fixpoint digits (fuel : nat) (n : Z) : list byte :=
  match fuel with
  | O => []
  | S fuel => byte_of (48 + n mod 10) :: (if n <? 10 then [] else digits fuel (n / 10))
  end.

(** [%d] of an [int]. *)
Definition decimal (n : Z) : list byte :=
  if n <? 0 then lit "-" ++ rev (digits 10 (- n)) else rev (digits 10 n).

(** A field of width [w] filled on the left, as in [%7s] and [%03d]. *)
Definition pad (c : byte) (w : nat) (s : list byte) : list byte := repeat c (w - length s) ++ s.

(** [atoi] of a string: blanks, a sign, digits up to the first other character. *)
Fixpoint leading_number (acc : Z) (s : list byte) : Z :=
  match s with
  | [] => acc
  | b :: s => if (48 <=? uchar b) && (uchar b <=? 57) then leading_number (10 * acc + (uchar b - 48)) s else acc
  end.

Fixpoint skip_blanks (s : list byte) : list byte :=
  match s with
  | [] => []
  | b :: s' => if (uchar b =? 32) || ((9 <=? uchar b) && (uchar b <=? 13)) then skip_blanks s' else s
  end.

Definition atoi (s : list byte) : Z :=
  match skip_blanks s with
  | x2d :: s => - leading_number 0 s
  | x2b :: s => leading_number 0 s
  | s => leading_number 0 s
  end.

(** ** Facts *)

Lemma length_snprintf n s : (0 < n)%nat -> (length (snprintf n s) < n)%nat.
Proof. intros. unfold snprintf. rewrite length_take. lia. Qed.

Lemma snprintf_fits n s : (length s < n)%nat -> snprintf n s = s.
Proof. intros. unfold snprintf. rewrite take_ge; [done|lia]. Qed.

Fixpoint digits_value (l : list byte) : Z :=
  match l with [] => 0 | b :: l => uchar b - 48 + 10 * digits_value l end.

Lemma digits_value_eq fuel n : 0 <= n < 10 ^ Z.of_nat fuel -> digits_value (digits fuel n) = n.
Proof.
  revert n. induction fuel as [|fuel IH]; intros n Hn; [cbn in *; lia|].
  cbn [digits digits_value]. rewrite uchar_byte_of.
  pose proof (Z.mod_pos_bound n 10 ltac:(lia)) as Hm.
  assert (u8 (48 + n mod 10) = 48 + n mod 10) as -> by (apply wrap_small; unfold fits; lia).
  rewrite Nat2Z.inj_succ, Z.pow_succ_r in Hn by lia.
  destruct (Z.ltb_spec n 10) as [Hlt|Hge].
  - cbn [digits_value]. rewrite Z.mod_small by lia. lia.
  - rewrite IH; [|split; [apply Z.div_pos; lia|apply Z.div_lt_upper_bound; lia]].
    pose proof (Z.div_mod n 10). lia.
Qed.

Lemma length_digits fuel n : (length (digits fuel n) <= fuel)%nat.
Proof.
  revert n. induction fuel as [|fuel IH]; intros n; cbn; [done|].
  destruct (n <? 10); cbn; [lia|]. specialize (IH (n / 10)). lia.
Qed.

Lemma length_decimal n : (length (decimal n) <= 11)%nat.
Proof.
  unfold decimal. pose proof (length_digits 10 (- n)). pose proof (length_digits 10 n).
  destruct (n <? 0); rewrite ?length_app, length_rev; [change (length (lit "-")) with 1%nat|]; lia.
Qed.

Lemma decimal_inj i j : 0 <= i < 2 ^ 31 -> 0 <= j < 2 ^ 31 -> decimal i = decimal j -> i = j.
Proof.
  intros Hi Hj. unfold decimal. rewrite !(proj2 (Z.ltb_ge _ _)) by lia.
  intros H%(f_equal (@rev byte)). rewrite !rev_involutive in H.
  rewrite <- (digits_value_eq 10 i), <- (digits_value_eq 10 j) by (change (10 ^ Z.of_nat 10) with 10000000000; lia).
  by rewrite H.
Qed.
