(* ===== verification/Utils.v ===== *)
(** * Utilities of [src/base/utils.c]

    [string_split] (used by the chunk server on the address of the metadata
    server), [is_digit] and [gen_uuid].  [rand_r] belongs to the C library and
    is a parameter: a function from a seed to a number and the next seed. *)

From Stdlib Require Import Strings.Byte Strings.String.
From S2P Require Import Prelude Bytes CString Format.

Definition STRING_SPLIT_MAX_COUNT : Z := 4096.

(** ** [string_split] *)

(** The first loop: positions [i, i + todo) with the current piece starting at
    [k]; [tmp] holds the blocks of [tmp[0 .. j)]. *)
Fixpoint split_loop (buf : list byte) (delimit : byte) (todo : nat) (i k : Z) (tmp : list (list byte))
    : outcome (Z * list (list byte)) :=
  match todo with
  | O => mret (k, tmp)
  | S todo =>
      c ← char_at buf i;
      if bool_decide (c = delimit) then
        c_defined (Z.of_nat (length tmp) <? STRING_SPLIT_MAX_COUNT) ;;
        piece ← strncpy_bytes (drop (Z.to_nat k) buf) (Z.to_nat (i - k));
        block ← store_bytes (calloc (i - k + 1)) piece;
        block ← store block i NUL;
        split_loop buf delimit todo (i + 1) (i + 1) (tmp ++ [block])
      else split_loop buf delimit todo (i + 1) k tmp
  end.

(** The piece after the last delimiter. *)
Definition split_rest (buf : list byte) (len k : Z) (tmp : list (list byte)) : outcome (list (list byte)) :=
  if (0 <? Z.of_nat (length tmp)) && (k <? len) then
    c_defined (Z.of_nat (length tmp) <? STRING_SPLIT_MAX_COUNT) ;;
    piece ← strncpy_bytes (drop (Z.to_nat k) buf) (Z.to_nat (len - k));
    block ← store_bytes (calloc (len - k + 1)) piece;
    mret (tmp ++ [block])
  else mret tmp.

(** [ptr_result[i] = strdup(tmp[i])] for every piece. *)
Fixpoint strdup_all (tmp : list (list byte)) : outcome (list (list byte)) :=
  match tmp with
  | [] => mret []
  | b :: tmp => s ← strdup b; l ← strdup_all tmp; mret (s :: l)
  end.

(** The result and, when they are set, the strings of [*ptr] ([*count] is their
    number). *)
Definition string_split (buf : option (list byte)) (delimit : byte) (ptr : bool)
    : outcome (Z * option (list (list byte))) :=
  match buf, ptr with
  | Some buf, true =>
      len ← strlen buf;
      '(k, tmp) ← split_loop buf delimit (Z.to_nat len) 0 0 [];
      tmp ← split_rest buf len k tmp;
      match tmp with
      | [] => mret (0, None)
      | _ => l ← strdup_all tmp; mret (0, Some l)
      end
  | _, _ => mret (-1, None)
  end.

(** The test program of the file: what it prints. *)
Definition utils_main : outcome (list byte) :=
  '(ret, ptr) ← string_split (Some (cstring (lit "127.0.0.1:9090"))) (byte_of 58) true;
  let count := match ptr with Some l => Z.of_nat (length l) | None => 0 end in
  mret (lit "count=" ++ decimal count ++ [byte_of 10]).

Example utils_main_output : utils_main = Ret (lit "count=2" ++ [byte_of 10]).
Proof. vm_compute. reflexivity. Qed.

(** ** [is_digit] *)

(** [isdigit] of a (signed) [char]. *)
Definition isdigit (b : byte) : bool := (48 <=? schar b) && (schar b <=? 57).

Fixpoint digit_loop (buf : list byte) (todo : nat) (i : Z) : outcome bool :=
  match todo with
  | O => mret true
  | S todo => c ← char_at buf i; if isdigit c then digit_loop buf todo (i + 1) else mret false
  end.

Definition is_digit (buf : option (list byte)) (n : Z) : outcome bool :=
  match buf with
  | None => mret false
  | Some buf => if n <=? 0 then mret false else digit_loop buf (Z.to_nat n) 0
  end.

(** ** [gen_uuid] *)

Definition runes : list byte := map byte_of
  [113; 119; 101; 114; 116; 121; 117; 105; 111; 112; 97; 115; 100; 102; 103; 104; 106; 107; 108;
   122; 120; 99; 118; 98; 110; 109; 48; 57; 56; 55; 54; 53; 52; 51; 50; 49].

Definition uuid_seed : Z := 0x19610910.

Section Uuid.
Context (rand_r : Z -> Z * Z).

Fixpoint uuid_loop (todo : nat) (i seed : Z) (buf : list byte) : outcome (list byte) :=
  match todo with
  | O => mret buf
  | S todo =>
      let '(r, seed) := rand_r seed in
      len ← strlen (cstring runes);
      c ← char_at (cstring runes) (u64 r mod len);
      buf ← store buf i c;
      uuid_loop todo (i + 1) seed buf
  end.

Definition gen_uuid (buf : option (list byte)) (n : Z) : outcome (Z * option (list byte)) :=
  match buf with
  | Some b => if 0 <? n then b ← uuid_loop (Z.to_nat n) 0 uuid_seed b; mret (0, Some b) else mret (-1, Some b)
  | None => mret (-1, None)
  end.
End Uuid.

(** ** Splitting *)

(** The pieces of a string between delimiters, of which there is at least one. *)
Fixpoint pieces (d : byte) (cur s : list byte) : list (list byte) :=
  match s with
  | [] => [cur]
  | c :: s => if bool_decide (c = d) then cur :: pieces d [] s else pieces d (cur ++ [c]) s
  end.

Definition split_on (d : byte) (s : list byte) : list (list byte) := pieces d [] s.

Lemma pieces_none d cur s : d ∉ s -> pieces d cur s = [cur ++ s].
Proof.
  revert cur. induction s as [|c s IH]; intros cur H; cbn; [by rewrite app_nil_r|].
  apply not_elem_of_cons in H as [? ?]. rewrite bool_decide_false by congruence.
  rewrite IH by done. by rewrite <- app_assoc.
Qed.

Lemma pieces_some d cur a b : d ∉ a -> pieces d cur (a ++ d :: b) = (cur ++ a) :: split_on d b.
Proof.
  revert cur. induction a as [|c a IH]; intros cur H; cbn.
  - by rewrite bool_decide_true, app_nil_r.
  - apply not_elem_of_cons in H as [? ?]. rewrite bool_decide_false by congruence.
    rewrite IH by done. by rewrite <- app_assoc.
Qed.

Lemma pieces_cons d cur s : exists x l, pieces d cur s = x :: l.
Proof. revert cur. induction s as [|c s IH]; intros cur; cbn; [|case_match]; eauto. Qed.

Lemma split_loop_skip pre s r d m k tmp :
  d ∉ s ->
  split_loop (pre ++ s ++ r) d (length s + m) (Z.of_nat (length pre)) k tmp
  = split_loop (pre ++ s ++ r) d m (Z.of_nat (length (pre ++ s))) k tmp.
Proof.
  revert pre. induction s as [|c s IH]; intros pre H; [by rewrite app_nil_r|].
  apply not_elem_of_cons in H as [? ?]. cbn [length Nat.add split_loop].
  rewrite (char_at_lookup _ _ c); [|lia|].
  2:{ rewrite Nat2Z.id. rewrite lookup_app_r, Nat.sub_diag by lia. done. }
  cbn [mbind outcome_bind]. rewrite bool_decide_false by congruence.
  specialize (IH (pre ++ [c])). rewrite <- !app_assoc in IH. cbn [app] in IH.
  replace (Z.of_nat (length (pre ++ [c]))) with (Z.of_nat (length pre) + 1) in IH
    by (rewrite length_app; cbn; lia).
  apply IH. done.
Qed.

Lemma char_at_app pre c r : char_at (pre ++ c :: r) (Z.of_nat (length pre)) = Ret c.
Proof.
  apply char_at_lookup; [lia|]. rewrite Nat2Z.id, lookup_app_r, Nat.sub_diag by lia. done.
Qed.

(** The first delimiter: a terminated copy of what is before it. *)
Lemma split_loop_first a r d m :
  text a -> split_loop (a ++ d :: r) d (S m) (Z.of_nat (length a)) 0 []
  = split_loop (a ++ d :: r) d m (Z.of_nat (length a) + 1) (Z.of_nat (length a) + 1) [a ++ [NUL]].
Proof.
  intros Ha. cbn [split_loop]. rewrite char_at_app. cbn [mbind outcome_bind].
  rewrite bool_decide_true by done. cbn [length]. change (c_defined _) with (Ret tt). cbn [mbind outcome_bind].
  rewrite Z.sub_0_r, drop_0, Nat2Z.id, strncpy_text by done. cbn [mbind outcome_bind].
  assert (length (calloc (Z.of_nat (length a) + 1)) = S (length a)) as Hc
    by (unfold calloc; rewrite repeat_length; lia).
  pose proof (store_string (calloc (Z.of_nat (length a) + 1)) a ltac:(lia)) as Hs.
  destruct (store_bytes _ a) as [b| | |]; try discriminate Hs. cbn [mbind outcome_bind] in *.
  rewrite Hs. cbn [mbind outcome_bind app]. rewrite drop_ge by lia. done.
Qed.

(** Any later one: the terminator goes past the end of the block. *)
Lemma split_loop_second buf d m pre r k tmp :
  buf = pre ++ d :: r -> text (drop (Z.to_nat k) pre) -> 0 < k <= Z.of_nat (length pre) ->
  split_loop buf d (S m) (Z.of_nat (length pre)) k tmp = Undefined.
Proof.
  intros -> Hp Hk. cbn [split_loop]. rewrite char_at_app. cbn [mbind outcome_bind].
  rewrite bool_decide_true by done. destruct (c_defined _) as [u| | |] eqn:Ed; try done;
    [|unfold c_defined in Ed; by case_match|unfold c_defined in Ed; by case_match].
  cbn [mbind outcome_bind]. rewrite drop_app_le by lia.
  rewrite strncpy_text by (done || rewrite length_drop; lia). cbn [mbind outcome_bind].
  assert (length (calloc (Z.of_nat (length pre) - k + 1)) = S (length pre - Z.to_nat k)) as Hc
    by (unfold calloc; rewrite repeat_length; lia).
  rewrite store_bytes_in by (rewrite Hc, length_drop; lia). cbn [mbind outcome_bind].
  unfold store. rewrite length_app, !length_drop, Hc.
  rewrite (proj2 (Z.ltb_ge _ _)) by lia. by rewrite andb_false_r.
Qed.

Lemma split_rest_spec pre r a :
  text r ->
  split_rest (pre ++ r ++ [NUL]) (Z.of_nat (length pre) + Z.of_nat (length r)) (Z.of_nat (length pre)) [a ++ [NUL]]
  = Ret (match r with [] => [a ++ [NUL]] | _ => [a ++ [NUL]; r ++ [NUL]] end).
Proof.
  intros Hr. unfold split_rest. change (0 <? Z.of_nat (length [a ++ [NUL]])) with true.
  change (c_defined _) with (Ret tt). cbn [andb mbind outcome_bind].
  destruct r as [|x r]; [by rewrite (proj2 (Z.ltb_ge _ _)) by (cbn; lia)|].
  rewrite (proj2 (Z.ltb_lt _ _)) by (cbn; lia).
  replace (Z.of_nat (length pre) + Z.of_nat (length (x :: r)) - Z.of_nat (length pre))
    with (Z.of_nat (length (x :: r))) by lia.
  rewrite !Nat2Z.id, drop_app_length, strncpy_text by done. cbn [mbind outcome_bind].
  assert (calloc (Z.of_nat (length (x :: r)) + 1) = calloc (Z.of_nat (length (x :: r))) ++ [NUL]) as Ec.
  { unfold calloc. rewrite <- (repeat_app x00 _ 1). f_equal. lia. }
  assert (length (calloc (Z.of_nat (length (x :: r)))) = length (x :: r)) as El
    by (unfold calloc; rewrite repeat_length; lia).
  rewrite Ec, store_bytes_in by (rewrite length_app, El; lia). cbn [mbind outcome_bind].
  by rewrite drop_app_le, drop_ge by lia.
Qed.

Lemma split_pieces s d :
  text s -> d <> NUL ->
  string_split (Some (cstring s)) d true =
    match split_on d s with
    | [_] => Ret (0, None)
    | [a; []] => Ret (0, Some [a])
    | [a; b] => Ret (0, Some [a; b])
    | _ => Undefined
    end.
Proof.
  intros Hs Hd. unfold string_split, cstring. rewrite strlen_text by done. cbn [mbind outcome_bind].
  rewrite Nat2Z.id. unfold split_on. destruct (decide (d ∈ s)) as [Hin|Hn].
  2:{ rewrite pieces_none by done. pose proof (split_loop_skip [] s [NUL] d 0 0 [] Hn) as E.
      cbn [app length] in E. change (Z.of_nat 0) with 0 in E. rewrite Nat.add_0_r in E. rewrite E. done. }
  apply list_elem_of_split_l in Hin as (a & r & -> & Ha).
  rewrite pieces_some by done. cbn [app]. apply text_app in Hs as [Hta [_ Htr]%text_cons].
  pose proof (split_loop_skip [] a (d :: r ++ [NUL]) d (S (length r)) 0 [] Ha) as E.
  cbn [app length] in E. change (Z.of_nat 0) with 0 in E.
  rewrite <- app_assoc. cbn [app]. rewrite length_app. cbn [length]. rewrite E, split_loop_first by done. clear E.
  set (pre := a ++ [d]).
  assert (forall t, a ++ d :: t = pre ++ t) as Epre by (intros; unfold pre; by rewrite <- app_assoc).
  assert (Z.of_nat (length a) + 1 = Z.of_nat (length pre)) as Elen by (unfold pre; rewrite length_app; cbn; lia).
  rewrite Epre, Elen. unfold split_on. destruct (decide (d ∈ r)) as [Hin|Hn].
  - apply list_elem_of_split_l in Hin as (b & t & -> & Hb). apply text_app in Htr as [Htb _].
    rewrite pieces_some by done. rewrite <- app_assoc. cbn [app]. rewrite length_app. cbn [length].
    rewrite split_loop_skip by done.
    rewrite (split_loop_second _ d (length t) (pre ++ b) (t ++ [NUL])).
    + cbn [mbind outcome_bind app]. destruct (pieces_cons d [] t) as (x & l & Ex). unfold split_on. rewrite Ex.
      by destruct b.
    + by rewrite <- app_assoc.
    + rewrite Nat2Z.id, drop_app_length. done.
    + rewrite length_app. unfold pre. rewrite length_app. cbn. lia.
  - rewrite pieces_none by done. pose proof (split_loop_skip pre r [NUL] d 0) as E.
    rewrite Nat.add_0_r in E. rewrite E by done. cbn [split_loop mret outcome_ret mbind outcome_bind app].
    replace (Z.of_nat (length a + S (length r))) with (Z.of_nat (length pre) + Z.of_nat (length r)) by lia.
    rewrite (split_rest_spec pre r) by done. cbn [mbind outcome_bind strdup_all].
    destruct r as [|x r]; cbn [strdup_all]; rewrite !strdup_text by done; reflexivity.
Qed.

Lemma split_two a b d :
  text (a ++ d :: b) -> d <> NUL -> d ∉ a -> d ∉ b ->
  string_split (Some (cstring (a ++ d :: b))) d true = Ret (0, Some (match b with [] => [a] | _ => [a; b] end)).
Proof.
  intros Ht Hd Ha Hb. rewrite split_pieces by done. unfold split_on.
  rewrite pieces_some by done. cbn [app]. unfold split_on. rewrite pieces_none by done. by destruct b.
Qed.

(** C36: [string_split] of a string with no delimiter answers 0 and sets nothing;
    with exactly one it answers what is before it and, unless empty, what is
    after it; with two or more it writes a terminator past the end of a heap
    block. *)
Theorem string_split_pieces s d :
  text s -> d <> NUL ->
  string_split (Some (cstring s)) d true =
    match split_on d s with
    | [_] => Ret (0, None)
    | [a; []] => Ret (0, Some [a])
    | [a; b] => Ret (0, Some [a; b])
    | _ => Undefined
    end.
Proof. apply split_pieces. Qed.

Definition address : list byte := map byte_of [49; 50; 55; 46; 48; 46; 48; 46; 49; 58; 57; 48; 57; 48].

Lemma string_split_pieces_witness :
  string_split (Some (cstring address)) (byte_of 58) true
  = Ret (0, Some [take 9 address; drop 10 address]).
Proof. apply (string_split_pieces address (byte_of 58)); vm_decide. Defined.

(** ** Digits *)

Lemma digit_loop_spec pre s r :
  digit_loop (pre ++ s ++ r) (length s) (Z.of_nat (length pre)) = Ret (forallb isdigit s).
Proof.
  revert pre. induction s as [|c s IH]; intros pre; [done|]. cbn [length digit_loop forallb].
  rewrite <- app_comm_cons, char_at_app. cbn [mbind outcome_bind]. destruct (isdigit c); [|done].
  specialize (IH (pre ++ [c])). rewrite <- app_assoc in IH.
  replace (Z.of_nat (length (pre ++ [c]))) with (Z.of_nat (length pre) + 1) in IH
    by (rewrite length_app; cbn; lia).
  exact IH.
Qed.

(** [is_digit] reads only the first [n] characters and accepts exactly the non-empty
    runs of digits. *)
Lemma is_digit_spec s r :
  is_digit (Some (s ++ r)) (Z.of_nat (length s))
  = Ret (negb (bool_decide (s = [])) && forallb isdigit s).
Proof.
  unfold is_digit. destruct s as [|c s]; [done|].
  rewrite (proj2 (Z.leb_gt _ _)) by (cbn; lia). rewrite Nat2Z.id.
  exact (digit_loop_spec [] (c :: s) r).
Qed.

(** ** The generated identifier *)

Section UuidSpec.
Context (rand_r : Z -> Z * Z).

(** The seed of the [k]-th call of [rand_r], and the character it selects. *)
Fixpoint seed_at (k : nat) : Z := match k with O => uuid_seed | S k => (rand_r (seed_at k)).2 end.

Definition uuid_char (k : nat) : byte :=
  nth (Z.to_nat (u64 (rand_r (seed_at k)).1 mod 36)) runes NUL.

Lemma runes_text : text runes.
Proof. vm_decide. Qed.

Lemma uuid_char_rune k : uuid_char k ∈ runes.
Proof.
  unfold uuid_char. apply list_elem_of_In, nth_In. change (length runes) with 36%nat.
  pose proof (Z.mod_pos_bound (u64 (rand_r (seed_at k)).1) 36). lia.
Qed.

Lemma uuid_loop_spec todo k buf :
  (k + todo <= length buf)%nat ->
  uuid_loop rand_r todo (Z.of_nat k) (seed_at k) buf
  = Ret (take k buf ++ map uuid_char (seq k todo) ++ drop (k + todo) buf).
Proof.
  revert k buf. induction todo as [|todo IH]; intros k buf Hl; cbn [uuid_loop].
  { cbn. by rewrite Nat.add_0_r, take_drop. }
  destruct (rand_r (seed_at k)) as [r s] eqn:Er. unfold cstring. rewrite strlen_text by apply runes_text.
  cbn [mbind outcome_bind]. change (Z.of_nat (length runes)) with 36.
  pose proof (Z.mod_pos_bound (u64 r) 36) as Hm.
  rewrite (char_at_lookup _ _ (uuid_char k)); [|lia|].
  2:{ unfold uuid_char. rewrite Er. cbn [fst]. rewrite lookup_app_l by (change (length runes) with 36%nat; lia).
      rewrite nth_lookup. destruct (lookup_lt_is_Some_2 runes (Z.to_nat (u64 r mod 36))) as [c ->]; [|done].
      change (length runes) with 36%nat. lia. }
  cbn [mbind outcome_bind]. rewrite store_in by lia. cbn [mbind outcome_bind]. rewrite Nat2Z.id.
  assert (s = seed_at (S k)) as -> by (cbn; by rewrite Er).
  replace (Z.of_nat k + 1) with (Z.of_nat (S k)) by lia.
  rewrite IH by (rewrite length_insert; lia). f_equal. cbn [seq map].
  rewrite (take_S_r _ _ (uuid_char k)) by (apply list_lookup_insert_eq; lia).
  rewrite take_insert_ge by lia. rewrite <- app_assoc. cbn [app].
  rewrite drop_insert_lt by lia. by replace (S k + todo)%nat with (k + S todo)%nat by lia.
Qed.
End UuidSpec.

(** [gen_uuid] starts from a constant seed on every call, so whatever [rand_r] is,
    all identifiers of a length are the same: the first [n] characters of one
    fixed sequence of runes, written over the first [n] bytes of the buffer. *)
Theorem gen_uuid_constant rand_r :
  exists f : nat -> byte, (forall k, f k ∈ runes) /\
    forall buf n, 0 < n <= Z.of_nat (length buf) ->
      gen_uuid rand_r (Some buf) n
      = Ret (0, Some (map f (seq 0 (Z.to_nat n)) ++ drop (Z.to_nat n) buf)).
Proof.
  exists (uuid_char rand_r). split; [apply uuid_char_rune|]. intros buf n Hn. unfold gen_uuid.
  rewrite (proj2 (Z.ltb_lt _ _)) by lia.
  pose proof (uuid_loop_spec rand_r (Z.to_nat n) 0 buf ltac:(lia)) as H.
  cbn [seed_at] in H. change (Z.of_nat 0) with 0 in H. by rewrite H.
Qed.

Lemma gen_uuid_constant_witness :
  exists f : nat -> byte,
    gen_uuid (fun s => (s, s + 1)) (Some (calloc 8)) 5 = Ret (0, Some (map f (seq 0 5) ++ calloc 3)).
Proof.
  destruct (gen_uuid_constant (fun s => (s, s + 1))) as (f & _ & H). exists f.
  exact (H (calloc 8) 5 ltac:(vm_compute; split; congruence)).
Defined.
