(* ===== verification/Chain.v ===== *)
(** * Buckets of singly linked cells

    The heap shape shared by [dict_t] ([src/metaserver/dict.c]) and
    [c_hashmap_t] ([src/base/c_hashmap.c]): an array of list heads and cells
    with a [next] pointer.  A pointer is the number of its cell; a freed cell
    is no longer in the heap, so that following a dangling pointer is
    [Undefined]. *)

From S2P Require Import Prelude.

Record cell (A : Type) := Cell { nxt : option nat; payload : A }.
Arguments Cell {A} nxt payload.
Arguments nxt {A} c.
Arguments payload {A} c.

Lemma NoDup_app_remove_mid {A} (l1 l2 : list A) x : NoDup (l1 ++ x :: l2) -> NoDup (l1 ++ l2).
Proof. rewrite <- Permutation_middle. by intros [_ ?]%NoDup_cons. Qed.

Section Chain.
Context {A : Type}.

Abbreviation heap := (gmap nat (cell A)).

Definition load_cell (m : heap) (c : nat) : outcome (cell A) := from_option_undef (m !! c).

(** Walks from [cur] to the first cell [matches] accepts; also answers the cell
    before it ([prev] when it is the first one). *)
Fixpoint find_loop (matches : A -> outcome bool) (rounds : nat) (m : heap) (cur prev : option nat)
    : outcome (option nat * option nat) :=
  match cur with
  | None => Ret (None, prev)
  | Some c =>
      match rounds with
      | O => OutOfFuel
      | S rounds =>
          ce ← load_cell m c;
          b ← matches (payload ce);
          if (b : bool) then Ret (Some c, prev)
          else find_loop matches rounds m (nxt ce) (Some c)
      end
  end.

(** Visits every cell from [cur] on. *)
Fixpoint walk {B : Type} (visit : B -> A -> B) (rounds : nat) (m : heap) (cur : option nat) (acc : B) : outcome B :=
  match cur with
  | None => Ret acc
  | Some c =>
      match rounds with
      | O => OutOfFuel
      | S rounds => ce ← load_cell m c; walk visit rounds m (nxt ce) (visit acc (payload ce))
      end
  end.

(** Frees every cell from [cur] on, reading [next] before each [free]. *)
Fixpoint free_chain (rounds : nat) (m : heap) (cur : option nat) : outcome (heap * list (nat * A)) :=
  match cur with
  | None => Ret (m, [])
  | Some c =>
      match rounds with
      | O => OutOfFuel
      | S rounds =>
          ce ← load_cell m c;
          '(m, l) ← free_chain rounds (delete c m) (nxt ce);
          mret (m, (c, payload ce) :: l)
      end
  end.

(** [prev->next = dst->next] or [ptr[index] = dst->next], then [free(dst)]. *)
Definition unlink (buckets : list (option nat)) (m : heap) (index : nat) (prev : option nat) (dst : nat)
    : outcome (list (option nat) * heap) :=
  ce ← load_cell m dst;
  match prev with
  | None => Ret (<[index := nxt ce]> buckets, delete dst m)
  | Some p =>
      pe ← load_cell m p;
      Ret (buckets, delete dst (<[p := Cell (nxt ce) (payload pe)]> m))
  end.

Arguments find_loop _ !rounds _ !cur _.
Arguments walk _ _ !rounds _ !cur _.
Arguments free_chain !rounds _ !cur.

(** ** Lists of cells *)

(** From [p] on there are exactly the cells and payloads of [l]. *)
Fixpoint seg (m : heap) (p : option nat) (l : list (nat * A)) : Prop :=
  match l with
  | [] => p = None
  | (c, a) :: l => p = Some c /\ exists nx, m !! c = Some (Cell nx a) /\ seg m nx l
  end.

Lemma seg_ext m m' p l :
  (forall c, c ∈ l.*1 -> m' !! c = m !! c) -> seg m p l -> seg m' p l.
Proof.
  revert p. induction l as [|[c a] l IH]; intros p H Hs; [done|]. cbn in Hs |- *.
  destruct Hs as [-> (nx & Hc & Hl)]. split; [done|]. exists nx. split.
  - rewrite H; [done|]. cbn. left.
  - apply IH; [|done]. intros x Hx. apply H. cbn. by right.
Qed.

Lemma seg_in m p l c a : seg m p l -> (c, a) ∈ l -> exists nx, m !! c = Some (Cell nx a).
Proof.
  revert p. induction l as [|[c' a'] l IH]; intros p Hs Hin; [by inversion Hin|].
  destruct Hs as [-> (nx & Hc & Hl)]. apply elem_of_cons in Hin as [[= <- <-]|Hin]; eauto.
Qed.

Lemma seg_app m p l1 c a l2 :
  seg m p (l1 ++ (c, a) :: l2) -> exists nx, m !! c = Some (Cell nx a) /\ seg m nx l2.
Proof.
  revert p. induction l1 as [|[c' a'] l1 IH]; intros p; cbn.
  - intros [_ (nx & ? & ?)]. eauto.
  - intros [_ (nx & _ & Hs)]. eauto.
Qed.

(** The answer of the walk: the first payload accepted, and the cell before. *)
Definition found (f : A -> bool) (l : list (nat * A)) (prev : option nat) (r : option nat * option nat) : Prop :=
  match r.1 with
  | None => Forall (fun x => f x.2 = false) l
  | Some c => exists l1 a l2, l = l1 ++ (c, a) :: l2 /\ f a = true /\
      Forall (fun x => f x.2 = false) l1 /\
      r.2 = match last l1 with None => prev | Some x => Some x.1 end
  end.

Lemma find_spec matches f m p l prev rounds :
  (forall c a, (c, a) ∈ l -> matches a = Ret (f a)) -> seg m p l -> (length l <= rounds)%nat ->
  exists r, find_loop matches rounds m p prev = Ret r /\ found f l prev r.
Proof.
  revert p prev rounds. induction l as [|[c a] l IH]; intros p prev rounds Hm Hs Hr.
  - cbn in Hs. subst p. exists (None, prev). split; [by destruct rounds|]. constructor.
  - destruct Hs as [-> (nx & Hc & Hs)]. destruct rounds as [|rounds]; [cbn in Hr; lia|].
    cbn [find_loop]. unfold load_cell. rewrite Hc. cbn. rewrite (Hm c a) by left. cbn.
    destruct (f a) eqn:Ef.
    + exists (Some c, prev). split; [done|]. exists [], a, l. repeat split; done.
    + destruct (IH nx (Some c) rounds) as ([r pv] & H & Hf); [|done|cbn in Hr; lia|].
      { intros c' a' Hin. eapply Hm. by right. }
      exists (r, pv). split; [done|]. unfold found in *. cbn in *. destruct r as [c'|].
      * destruct Hf as (l1 & a' & l2 & -> & Hfa & Hl1 & Hpv). exists ((c, a) :: l1), a', l2.
        split; [done|]. split; [done|]. split; [by constructor|].
        rewrite Hpv. destruct l1 as [|x l1]; [done|]. rewrite last_cons_cons.
        destruct (last (x :: l1)) eqn:E; [done|]. by apply last_None in E.
      * by constructor.
Qed.

Lemma found_find f l prev r :
  found f l prev r -> r.1 = fst <$> List.find (fun x => f x.2) l.
Proof.
  unfold found. destruct r as [[c|] pv]; cbn.
  - intros (l1 & a & l2 & -> & Hf & Hl1 & _). induction Hl1 as [|x l1 Hx Hl1 IH]; cbn.
    + by rewrite Hf.
    + by rewrite Hx.
  - intros H. induction H as [|x l Hx Hl IH]; cbn; [done|]. by rewrite Hx.
Qed.

Lemma walk_spec {B} (visit : B -> A -> B) m p l acc rounds :
  seg m p l -> (length l <= rounds)%nat ->
  walk visit rounds m p acc = Ret (fold_left visit l.*2 acc).
Proof.
  revert p acc rounds. induction l as [|[c a] l IH]; intros p acc rounds Hs Hr.
  - cbn in Hs. subst p. by destruct rounds.
  - destruct Hs as [-> (nx & Hc & Hs)]. destruct rounds as [|rounds]; [cbn in Hr; lia|].
    cbn [walk]. unfold load_cell. rewrite Hc. cbn. apply IH; [done|cbn in Hr; lia].
Qed.

Lemma free_chain_spec m p l rounds :
  seg m p l -> NoDup l.*1 -> (length l <= rounds)%nat ->
  exists m', free_chain rounds m p = Ret (m', l) /\
    (forall c, m' !! c = if decide (c ∈ l.*1) then None else m !! c).
Proof.
  revert m p rounds. induction l as [|[c a] l IH]; intros m p rounds Hs Hnd Hr.
  - cbn in Hs. subst p. exists m. split; [by destruct rounds|]. intros c.
    rewrite decide_False; [done|]. cbn. intros H. inversion H.
  - destruct Hs as [-> (nx & Hc & Hs)]. destruct rounds as [|rounds]; [cbn in Hr; lia|].
    cbn in Hnd. apply NoDup_cons in Hnd as [Hn Hnd].
    destruct (IH (delete c m) nx rounds) as (m' & Hm & Hl); [|done|cbn in Hr; lia|].
    { eapply seg_ext; [|exact Hs]. intros x Hx. rewrite lookup_delete_ne; [done|]. by intros ->. }
    exists m'. split.
    + cbn [free_chain]. unfold load_cell. rewrite Hc. cbn. by rewrite Hm.
    + intros x. rewrite Hl. cbn. destruct (decide (x = c)) as [->|Hne].
      * rewrite decide_False by done. rewrite lookup_delete_eq.
        rewrite decide_True; [done|]. left.
      * rewrite lookup_delete_ne by congruence. destruct (decide (x ∈ l.*1)) as [Hx|Hx].
        { rewrite decide_True; [done|]. by right. }
        rewrite decide_False; [done|]. by intros [?|?]%elem_of_cons.
Qed.

(** ** The table: one list of cells per bucket *)

Record chains (buckets : list (option nat)) (m : heap) (fresh : nat) (ls : list (list (nat * A))) : Prop := {
  ch_length : length ls = length buckets;
  ch_seg i p l : buckets !! i = Some p -> ls !! i = Some l -> seg m p l;
  ch_nodup i l : ls !! i = Some l -> NoDup l.*1;
  ch_disjoint i j l l' c : ls !! i = Some l -> ls !! j = Some l' -> c ∈ l.*1 -> c ∈ l'.*1 -> i = j;
  ch_fresh c : is_Some (m !! c) -> (c < fresh)%nat }.

Lemma chains_bucket b m n ls i :
  chains b m n ls -> (i < length b)%nat ->
  exists p l, b !! i = Some p /\ ls !! i = Some l /\ seg m p l.
Proof.
  intros C Hi. destruct (lookup_lt_is_Some_2 b i Hi) as [p Hp].
  destruct (lookup_lt_is_Some_2 ls i) as [l Hl]; [by rewrite (ch_length _ _ _ _ C)|].
  exists p, l. split; [done|]. split; [done|]. by eapply ch_seg.
Qed.

Lemma seg_dom m p l c : seg m p l -> c ∈ l.*1 -> is_Some (m !! c).
Proof.
  intros Hs Hc. apply list_elem_of_fmap in Hc as ([c' a] & -> & Hin).
  destruct (seg_in _ _ _ _ _ Hs Hin) as [nx ?]. eauto.
Qed.

Lemma chains_rounds b m n ls i l :
  chains b m n ls -> (i < length b)%nat -> ls !! i = Some l -> (length l <= size m)%nat.
Proof.
  intros C Hi Hl. destruct (chains_bucket _ _ _ _ _ C Hi) as (p & l' & _ & Hl' & Hs). simplify_eq.
  rewrite <- (length_fmap fst l), <- size_dom.
  rewrite <- (size_list_to_set (C := gset nat) l.*1) by (by eapply ch_nodup).
  apply subseteq_size. intros x Hx. apply elem_of_dom. eapply seg_dom; [done|]. set_solver.
Qed.

Lemma chains_cell b m n ls i l c :
  chains b m n ls -> ls !! i = Some l -> c ∈ l.*1 -> is_Some (m !! c).
Proof.
  intros C Hl Hc. apply lookup_lt_Some in Hl as Hi. rewrite (ch_length _ _ _ _ C) in Hi.
  destruct (chains_bucket _ _ _ _ _ C Hi) as (p & l' & _ & Hl' & Hs). simplify_eq.
  by eapply seg_dom.
Qed.

(** A new cell at the head of bucket [i]. *)
Lemma chains_push b m n ls i p l a :
  chains b m n ls -> b !! i = Some p -> ls !! i = Some l ->
  chains (<[i := Some n]> b) (<[n := Cell p a]> m) (S n) (<[i := (n, a) :: l]> ls).
Proof.
  intros C Hp Hl.
  assert (forall j l' c, ls !! j = Some l' -> c ∈ l'.*1 -> c <> n) as Hold.
  { intros j l' c Hj Hc ->. pose proof (ch_fresh _ _ _ _ C n (chains_cell _ _ _ _ _ _ _ C Hj Hc)). lia. }
  assert (forall q l' c, ls !! q = Some l' -> c ∈ l'.*1 -> <[n := Cell p a]> m !! c = m !! c) as Hfr.
  { intros q l' c Hq Hc. rewrite lookup_insert_ne; [done|]. intros <-. by apply (Hold q l' n). }
  apply lookup_lt_Some in Hp as Hlt. apply lookup_lt_Some in Hl as Hlt'.
  split.
  - rewrite !length_insert. apply (ch_length _ _ _ _ C).
  - intros j q l' Hq Hj. destruct (decide (i = j)) as [<-|].
    + rewrite list_lookup_insert_eq in Hq by done. rewrite list_lookup_insert_eq in Hj by done.
      simplify_eq. cbn. split; [done|]. exists p. rewrite lookup_insert_eq. split; [done|].
      eapply seg_ext; [|by eapply ch_seg]. intros c Hc. by eapply Hfr.
    + rewrite list_lookup_insert_ne in Hq by done. rewrite list_lookup_insert_ne in Hj by done.
      eapply seg_ext; [|by eapply ch_seg]. intros c Hc. by eapply Hfr.
  - intros j l' Hj. destruct (decide (i = j)) as [<-|].
    + rewrite list_lookup_insert_eq in Hj by done. simplify_eq. cbn. apply NoDup_cons.
      split; [|by eapply ch_nodup]. intros Hn. by apply (Hold i l n).
    + rewrite list_lookup_insert_ne in Hj by done. by eapply ch_nodup.
  - assert (forall j l' c, <[i := (n, a) :: l]> ls !! j = Some l' -> c ∈ l'.*1 ->
      (j = i /\ c = n) \/ (exists l0, ls !! j = Some l0 /\ c ∈ l0.*1)) as Hcase.
    { intros j l' c Hj Hc. destruct (decide (i = j)) as [<-|].
      - rewrite list_lookup_insert_eq in Hj by done. simplify_eq. cbn in Hc.
        apply elem_of_cons in Hc as [->|Hc]; eauto.
      - rewrite list_lookup_insert_ne in Hj by done. eauto. }
    intros j k l1 l2 c Hj Hk H1 H2.
    destruct (Hcase _ _ _ Hj H1) as [[-> ->]|(l3 & Hl3 & Hc3)],
             (Hcase _ _ _ Hk H2) as [[-> E]|(l4 & Hl4 & Hc4)]; try done.
    + by destruct (Hold _ _ _ Hl4 Hc4).
    + subst c. by destruct (Hold _ _ _ Hl3 Hc3).
    + by eapply ch_disjoint.
  - intros c Hc. apply lookup_insert_is_Some' in Hc as [<-|Hc]; [lia|].
    pose proof (ch_fresh _ _ _ _ C c Hc). lia.
Qed.

(** ** Unlinking *)

Lemma seg_relink m q l1 p pa c a l2 :
  seg m q (l1 ++ (p, pa) :: (c, a) :: l2) -> NoDup (l1 ++ (p, pa) :: (c, a) :: l2).*1 ->
  exists nx pn, m !! c = Some (Cell nx a) /\ m !! p = Some (Cell pn pa) /\
    seg (delete c (<[p := Cell nx pa]> m)) q (l1 ++ (p, pa) :: l2).
Proof.
  revert q. induction l1 as [|[x xa] l1 IH]; intros q Hs Hnd.
  - cbn in Hs, Hnd. destruct Hs as [-> (nc & Hp & -> & nx & Hc & Hs)].
    apply NoDup_cons in Hnd as [Hpn Hnd]. apply NoDup_cons in Hnd as [Hcn _].
    rewrite not_elem_of_cons in Hpn. destruct Hpn as [Hpc Hpn].
    exists nx, (Some c). split; [done|]. split; [done|]. cbn. split; [done|]. exists nx.
    rewrite lookup_delete_ne, lookup_insert_eq by done. split; [done|].
    eapply seg_ext; [|exact Hs]. intros y Hy.
    rewrite lookup_delete_ne, lookup_insert_ne; [done| |]; by intros ->.
  - cbn in Hs. destruct Hs as [-> (nx' & Hx & Hs)]. cbn in Hnd. apply NoDup_cons in Hnd as [Hxn Hnd].
    destruct (IH nx' Hs Hnd) as (nx & pn & Hc & Hp & Hs'). exists nx, pn.
    split; [done|]. split; [done|]. cbn. split; [done|]. exists nx'. split; [|done].
    rewrite fmap_app, elem_of_app in Hxn. cbn in Hxn. rewrite !elem_of_cons in Hxn.
    rewrite lookup_delete_ne, lookup_insert_ne; [done| |]; intros <-; tauto.
Qed.

(** What unlinking one cell does to its own chain and to the rest of the store. *)
Lemma unlink_bucket b m i p l1 c a l2 :
  b !! i = Some p -> seg m p (l1 ++ (c, a) :: l2) -> NoDup (l1 ++ (c, a) :: l2).*1 ->
  exists b' m', unlink b m i (match last l1 with None => None | Some x => Some x.1 end) c = Ret (b', m') /\
    length b' = length b /\ (forall j, j <> i -> b' !! j = b !! j) /\
    (forall p', b' !! i = Some p' -> seg m' p' (l1 ++ l2)) /\
    (forall x, x ∉ (l1 ++ (c, a) :: l2).*1 -> m' !! x = m !! x) /\
    (forall x, is_Some (m' !! x) -> is_Some (m !! x) /\ x <> c).
Proof.
  intros Hp Hs Hnd. apply lookup_lt_Some in Hp as Hi.
  destruct l1 as [|z l1 _] using rev_ind.
  - cbn in Hs. destruct Hs as [-> (nx & Hc & Hs)]. exists (<[i := nx]> b), (delete c m).
    cbn. unfold unlink, load_cell. rewrite Hc. cbn. split; [done|]. split; [by rewrite length_insert|].
    cbn in Hnd. apply NoDup_cons in Hnd as [Hcn _]. split; [|split; [|split]].
    + intros j Hj. by rewrite list_lookup_insert_ne.
    + intros p'. rewrite list_lookup_insert_eq by done. intros [= <-].
      eapply seg_ext; [|exact Hs]. intros y Hy. rewrite lookup_delete_ne; [done|]. by intros ->.
    + intros x Hx. cbn in Hx. apply not_elem_of_cons in Hx as [? _]. by rewrite lookup_delete_ne.
    + intros x. rewrite lookup_delete_is_Some. intros [? ?]. split; [done|congruence].
  - destruct z as [pc pa]. rewrite last_snoc. rewrite <- app_assoc in Hs, Hnd. cbn in Hs, Hnd.
    destruct (seg_relink _ _ _ _ _ _ _ _ Hs Hnd) as (nx & pn & Hc & Hpc & Hs').
    exists b, (delete c (<[pc := Cell nx pa]> m)).
    unfold unlink, load_cell. rewrite Hc. cbn. rewrite Hpc. cbn. do 3 (split; [done|]). split; [|split].
    + intros p' Hp'. assert (p' = p) as -> by congruence. by rewrite <- app_assoc.
    + intros x Hx. rewrite <- app_assoc, fmap_app in Hx. cbn in Hx. rewrite elem_of_app, !elem_of_cons in Hx.
      rewrite lookup_delete_ne, lookup_insert_ne; [done| |]; intros <-; tauto.
    + intros x. rewrite lookup_delete_is_Some, lookup_insert_is_Some'.
      intros [? [<-|?]]; split; try done; try congruence; rewrite Hpc; eauto.
Qed.

Lemma chains_unlink b m n ls i l1 c a l2 :
  chains b m n ls -> ls !! i = Some (l1 ++ (c, a) :: l2) ->
  exists b' m', unlink b m i (match last l1 with None => None | Some x => Some x.1 end) c = Ret (b', m') /\
    chains b' m' n (<[i := l1 ++ l2]> ls) /\ length b' = length b /\
    (forall x, is_Some (m' !! x) -> is_Some (m !! x) /\ x <> c).
Proof.
  intros C Hl. apply lookup_lt_Some in Hl as Hi. pose proof Hi as Hi'. rewrite (ch_length _ _ _ _ C) in Hi.
  destruct (chains_bucket _ _ _ _ _ C Hi) as (p & l' & Hp & Hl' & Hs). rewrite Hl in Hl'. injection Hl' as <-.
  pose proof (ch_nodup _ _ _ _ C i _ Hl) as Hnd.
  destruct (unlink_bucket b m i p l1 c a l2) as (b' & m' & Hu & Hlen & Hb & Hseg & Hm & Hdom); try done.
  exists b', m'. split; [done|]. split; [|done].
  assert (forall j l, <[i := l1 ++ l2]> ls !! j = Some l ->
    exists l0, ls !! j = Some l0 /\ (l.*1 ⊆ l0.*1) /\ (j = i -> l = l1 ++ l2)) as Hsub.
  { intros j l Hj. destruct (decide (i = j)) as [<-|].
    - rewrite list_lookup_insert_eq in Hj by done. simplify_eq. eexists. split; [done|]. split; [|done].
      rewrite !fmap_app. cbn. set_solver.
    - rewrite list_lookup_insert_ne in Hj by done. exists l. done. }
  split.
  - rewrite length_insert, Hlen. apply (ch_length _ _ _ _ C).
  - intros j q l Hq Hj. destruct (decide (i = j)) as [<-|Hne].
    + rewrite list_lookup_insert_eq in Hj by done. simplify_eq. by apply Hseg.
    + rewrite list_lookup_insert_ne in Hj by done. rewrite Hb in Hq by done.
      eapply seg_ext; [|by eapply ch_seg]. intros x Hx. apply Hm. intros Hx'.
      by apply Hne, (ch_disjoint _ _ _ _ C i j _ _ x Hl Hj).
  - intros j l Hj. destruct (decide (i = j)) as [<-|Hne].
    + rewrite list_lookup_insert_eq in Hj by done. injection Hj as <-.
      rewrite fmap_app in Hnd |- *. cbn in Hnd. by apply NoDup_app_remove_mid in Hnd.
    + rewrite list_lookup_insert_ne in Hj by done. by eapply ch_nodup.
  - intros j k l l' x Hj Hk Hx Hx'.
    destruct (Hsub _ _ Hj) as (l0 & Hl0 & S0 & _), (Hsub _ _ Hk) as (l0' & Hl0' & S0' & _).
    eapply (ch_disjoint _ _ _ _ C); eauto.
  - intros x Hx. apply (ch_fresh _ _ _ _ C), Hdom, Hx.
Qed.
End Chain.

Arguments find_loop {A} _ !rounds _ !cur _.
Arguments walk {A B} _ !rounds _ !cur _.
Arguments free_chain {A} !rounds _ !cur.
