(* ===== verification/Os.v ===== *)
(** * Files and threads

    What [src/chunkserver/chunk.c] uses of the operating system: files opened
    with [O_RDWR | O_CREAT | O_APPEND], [lseek], [read], [write], [close] and
    joinable threads.  How much one call transfers is up to the system: the
    oracle [transfer] gives, for the [t]-th call, the number of bytes it may
    transfer at most, or a negative number when it fails.  [calls] records how
    many bytes each call asked for. *)

From Stdlib Require Import Strings.Byte.
From S2P Require Import Prelude Bytes.

Record ofile := OFile { of_name : list byte; of_pos : Z }.

Record os := Os {
  files : gmap (list byte) (list byte);
  fds : gmap Z ofile;
  next_fd : Z;
  joinable : gset nat;
  next_thd : nat;
  calls : list Z }.

(** How many calls of [read] and [write] there have been; [calls] lists the
    counts they asked for. *)
Definition ticks (o : os) : nat := length (calls o).

Definition set_file (o : os) (fd : Z) (f : ofile) (data : list byte) (n : Z) : os :=
  Os (<[of_name f := data]> (files o)) (<[fd := f]> (fds o)) (next_fd o) (joinable o) (next_thd o) (calls o ++ [n]).

Definition tick (o : os) (n : Z) : os :=
  Os (files o) (fds o) (next_fd o) (joinable o) (next_thd o) (calls o ++ [n]).

Section Os.
Context (can_open : list byte -> bool) (transfer : nat -> Z).

(** [open(name, O_RDWR | O_CREAT | O_APPEND, 0644)]. *)
Definition sys_open (o : os) (name : list byte) : Z * os :=
  if can_open name then
    (next_fd o, Os (<[name := default [] (files o !! name)]> (files o)) (<[next_fd o := OFile name 0]> (fds o))
                  (next_fd o + 1) (joinable o) (next_thd o) (calls o))
  else (-1, o).

Definition sys_close (o : os) (fd : Z) : os :=
  Os (files o) (delete fd (fds o)) (next_fd o) (joinable o) (next_thd o) (calls o).

(** [lseek(fd, off, SEEK_CUR)]; the callers ignore the result. *)
Definition sys_lseek_cur (o : os) (fd off : Z) : os :=
  match fds o !! fd with
  | None => o
  | Some f =>
      if (0 <=? of_pos f + off) && (of_pos f + off <? 2 ^ 63) then
        Os (files o) (<[fd := OFile (of_name f) (of_pos f + off)]> (fds o)) (next_fd o) (joinable o) (next_thd o) (calls o)
      else o
  end.

(** [write(fd, mem + off, n)]: appends. *)
Definition sys_write (o : os) (fd : Z) (mem : list byte) (off n : Z) : outcome (Z * os) :=
  match fds o !! fd with
  | None => mret (-1, tick o n)
  | Some f =>
      if transfer (ticks o) <? 0 then mret (-1, tick o n)
      else
        bs ← load_bytes mem off n;
        let m := Z.min n (transfer (ticks o)) in
        let data := default [] (files o !! of_name f) in
        mret (m, set_file o fd (OFile (of_name f) (Z.of_nat (length data) + m)) (data ++ take (Z.to_nat m) bs) n)
  end.

(** [read(fd, mem + off, n)]. *)
Definition sys_read (o : os) (fd : Z) (mem : list byte) (off n : Z) : outcome (Z * list byte * os) :=
  match fds o !! fd with
  | None => mret (-1, mem, tick o n)
  | Some f =>
      if transfer (ticks o) <? 0 then mret (-1, mem, tick o n)
      else
        let data := default [] (files o !! of_name f) in
        let m := Z.max 0 (Z.min (Z.min n (transfer (ticks o))) (Z.of_nat (length data) - of_pos f)) in
        mem ← store_at mem off (take (Z.to_nat m) (drop (Z.to_nat (of_pos f)) data));
        mret (m, mem, set_file o fd (OFile (of_name f) (of_pos f + m)) data n)
  end.

(** [pthread_create] of a function that returns at once. *)
Definition thread_create (o : os) : nat * os :=
  (next_thd o, Os (files o) (fds o) (next_fd o) ({[ next_thd o ]} ∪ joinable o) (S (next_thd o)) (calls o)).

Definition thread_join (o : os) (t : nat) : outcome os :=
  if decide (t ∈ joinable o) then
    mret (Os (files o) (fds o) (next_fd o) (joinable o ∖ {[ t ]}) (next_thd o) (calls o))
  else Undefined.
End Os.
