(* ===== verification/Chunk.v ===== *)
(** * Chunks ([src/chunkserver/chunk.c])

    A chunk is a file [<id>.chunk] with an open descriptor.  [calloc] and
    [pthread_create] succeed. *)

From Stdlib Require Import Strings.Byte.
From S2P Require Import Prelude Bytes CString Format Os.

Definition CHUNK_OP_LEN : Z := 65535.

(** [min] on [int]s. *)
Definition min (a b : Z) : Z := if a <? b then a else b.

Record chunk_t := Chunk {
  chunk_id : Z;
  offset : Z;
  fd : Z;
  thd : nat;
  total : Z }.

Definition zero_chunk : chunk_t := Chunk 0 0 0 0 0.

(** [snprintf(buf, 64, "%d.chunk", id)] of a non-negative [int]. *)
Definition chunk_name (id : Z) : list byte :=
  snprintf 64 (decimal id ++ lit ".chunk").

Section Chunk.
Context (can_open : list byte -> bool) (transfer : nat -> Z).

(** [blk] is the memory of the structure, [None] for a null pointer; [total]
    keeps what it holds. *)
Definition chunk_init (o : os) (blk : option chunk_t) (id : Z) : outcome (Z * option chunk_t * os) :=
  match blk with
  | None => mret (-1, None, o)
  | Some b =>
      if 0 <=? id then
        let '(fd, o) := sys_open can_open o (chunk_name id) in
        c_assert (negb (fd =? -1)) ;;
        let '(t, o) := thread_create o in
        mret (0, Some (Chunk id 0 fd t (total b)), o)
      else mret (-1, blk, o)
  end.

Definition chunk_alloc (o : os) (id : Z) : outcome (option chunk_t * os) :=
  '(r, ck, o) ← chunk_init o (Some zero_chunk) id;
  mret (if r =? 0 then ck else None, o).

(** The test [w_sz < 0] of an unsigned variable is never true. *)
Fixpoint write_loop (rounds : nat) (o : os) (blk : chunk_t) (buf : list byte) (len total : Z) : outcome (Z * os) :=
  if total <? len then
    match rounds with
    | O => OutOfFuel
    | S rounds =>
        let batch_size := u64 (min (s32 (len - total)%u64) CHUNK_OP_LEN) in
        '(bytes, o) ← sys_write transfer o (fd blk) buf total batch_size;
        write_loop rounds o blk buf len (total + bytes)%u64
    end
  else mret (s64 total, o).

Definition chunk_write (rounds : nat) (o : os) (blk : chunk_t) (buf : list byte) (pos len : Z) : outcome (Z * os) :=
  write_loop rounds (sys_lseek_cur o (fd blk) (s64 pos)) blk buf len 0.

Fixpoint read_loop (rounds : nat) (o : os) (blk : chunk_t) (buf : list byte) (len total : Z)
    : outcome (Z * list byte * os) :=
  if total <? len then
    match rounds with
    | O => OutOfFuel
    | S rounds =>
        let batch_size := u64 (min (s32 (len - total)%u64) CHUNK_OP_LEN) in
        '(bytes, buf, o) ← sys_read transfer o (fd blk) buf total batch_size;
        read_loop rounds o blk buf len (total + bytes)%u64
    end
  else mret (s64 total, buf, o).

Definition chunk_read (rounds : nat) (o : os) (blk : chunk_t) (buf : list byte) (pos len : Z)
    : outcome (Z * list byte * os) :=
  read_loop rounds (sys_lseek_cur o (fd blk) (s64 pos)) blk buf len 0.

Definition chunk_deinit (o : os) (blk : option chunk_t) : outcome (option chunk_t * os) :=
  match blk with
  | None => mret (None, o)
  | Some b =>
      o ← thread_join o (thd b);
      mret (Some (Chunk (chunk_id b) (offset b) (-1) (thd b) (total b)), sys_close o (fd b))
  end.

(** [chunk_deinit], then the structure is freed. *)
Definition chunk_destroy (o : os) (ck : option chunk_t) : outcome os :=
  '(_, o) ← chunk_deinit o ck; mret o.
End Chunk.

(** ** The transfer loops *)

Section Loops.
Context (transfer : nat -> Z).

(** The size of one batch, when less than 2 GiB are left. *)
Lemma batch_eq len total :
  0 <= total < len -> len < 2 ^ 31 ->
  u64 (min (s32 (len - total)%u64) CHUNK_OP_LEN) = Z.min (len - total) CHUNK_OP_LEN.
Proof.
  intros. unfold wsub. fold (u64 (len - total)). rewrite (u64_small (len - total)) by lia. rewrite s32_small by lia.
  unfold min, CHUNK_OP_LEN. destruct (Z.ltb_spec (len - total) 65535); rewrite u64_small; lia.
Qed.

Lemma take_add_drop {A} (l : list A) n m k :
  0 <= n -> 0 <= m -> Z.to_nat (n + m) = k -> take k l = take (Z.to_nat n) l ++ take (Z.to_nat m) (drop (Z.to_nat n) l).
Proof. intros ? ? <-. rewrite Z2Nat.inj_add by done. apply take_drop_app. Qed.

Lemma write_loop_ok rounds o blk buf len total f data :
  (forall t, 0 < transfer t) -> fds o !! fd blk = Some f -> files o !! of_name f = Some data ->
  0 <= total <= len -> len <= Z.of_nat (length buf) -> len < 2 ^ 31 -> len - total <= Z.of_nat rounds ->
  exists o' p, write_loop transfer rounds o blk buf len total = Ret (len, o') /\
    files o' = <[of_name f := data ++ take (Z.to_nat (len - total)) (drop (Z.to_nat total) buf)]> (files o) /\
    fds o' = <[fd blk := OFile (of_name f) p]> (fds o) /\
    p = (if total <? len then Z.of_nat (length data) + (len - total) else of_pos f) /\
    exists cs, calls o' = calls o ++ cs /\ Forall (fun n => 0 < n <= CHUNK_OP_LEN) cs.
Proof.
  intros Ht. revert o total f data. induction rounds as [|rounds IH]; intros o total f data Hf Hd Hr Hb Hl Hn;
    cbn [write_loop]; destruct (Z.ltb_spec total len) as [Hlt|Hge]; try lia.
  1, 3: assert (total = len) as -> by lia; exists o, (of_pos f); rewrite Z.sub_diag; cbn [Z.to_nat take];
    rewrite app_nil_r, !insert_id by (done || by destruct f); rewrite s64_small by lia;
    repeat (split; [done|]); exists []; by rewrite app_nil_r.
  rewrite batch_eq by lia. unfold sys_write. rewrite Hf. specialize (Ht (ticks o)) as Hk.
  rewrite (proj2 (Z.ltb_ge _ _)) by lia. unfold CHUNK_OP_LEN.
  set (n := Z.min (len - total) 65535). set (m := Z.min n (transfer (ticks o))).
  assert (1 <= m <= len - total) as Hm by (unfold m, n; lia).
  unfold load_bytes. rewrite !(proj2 (Z.leb_le _ _)) by (unfold n; lia). cbn [andb mbind outcome_bind mret outcome_ret].
  assert (take (Z.to_nat m) (take (Z.to_nat n) (drop (Z.to_nat total) buf)) = take (Z.to_nat m) (drop (Z.to_nat total) buf)) as ->.
  { rewrite take_take. f_equal. unfold m. lia. }
  rewrite Hd. cbn [from_option id]. unfold wadd. fold (u64 (total + m)). rewrite u64_small by lia.
  destruct (IH (set_file o (fd blk) (OFile (of_name f) (Z.of_nat (length data) + m))
                  (data ++ take (Z.to_nat m) (drop (Z.to_nat total) buf)) n) (total + m)
              (OFile (of_name f) (Z.of_nat (length data) + m)) (data ++ take (Z.to_nat m) (drop (Z.to_nat total) buf)))
    as (o' & p & -> & Hfiles & Hfds & Hp & cs & Hcs & Hall); try (cbn; rewrite lookup_insert_eq; done); try lia.
  exists o', p. split; [done|]. cbn in Hfiles, Hfds, Hp, Hcs.
  rewrite insert_insert_eq in Hfiles. rewrite insert_insert_eq in Hfds.
  split; [|split; [done|split]].
  - rewrite Hfiles, <- app_assoc. do 2 f_equal.
    rewrite (take_add_drop (drop (Z.to_nat total) buf) m (len - (total + m)) (Z.to_nat (len - total))) by lia.
    rewrite drop_drop. do 3 f_equal. lia.
  - rewrite length_app, length_take, length_drop in Hp. destruct (Z.ltb_spec (total + m) len); lia.
  - exists (n :: cs). split; [by rewrite Hcs, <- app_assoc|]. constructor; [unfold n, CHUNK_OP_LEN; lia|done].
Qed.

Lemma store_at_in buf off bs :
  0 <= off -> off + Z.of_nat (length bs) <= Z.of_nat (length buf) ->
  store_at buf off bs = Ret (take (Z.to_nat off) buf ++ bs ++ drop (Z.to_nat off + length bs) buf).
Proof. intros. unfold store_at. by rewrite !(proj2 (Z.leb_le _ _)) by lia. Qed.

Lemma read_loop_ok rounds o blk buf len total f data :
  (forall t, 0 < transfer t) -> fds o !! fd blk = Some f -> files o !! of_name f = Some data ->
  0 <= total <= len -> len <= Z.of_nat (length buf) -> len < 2 ^ 31 -> len - total <= Z.of_nat rounds ->
  0 <= of_pos f -> of_pos f + (len - total) <= Z.of_nat (length data) ->
  exists o', read_loop transfer rounds o blk buf len total
    = Ret (len, take (Z.to_nat total) buf ++ take (Z.to_nat (len - total)) (drop (Z.to_nat (of_pos f)) data)
                ++ drop (Z.to_nat len) buf, o') /\
    files o' = files o /\ fds o' = <[fd blk := OFile (of_name f) (of_pos f + (len - total))]> (fds o).
Proof.
  intros Ht. revert o total f buf. induction rounds as [|rounds IH]; intros o total f buf Hf Hd Hr Hb Hl Hn Hp Hdl;
    cbn [read_loop]; destruct (Z.ltb_spec total len) as [Hlt|Hge]; try lia.
  1, 3: assert (total = len) as -> by lia; exists o; rewrite Z.sub_diag, Z.add_0_r;
    change (Z.to_nat 0) with 0%nat; rewrite take_0; cbn [app]; rewrite take_drop, s64_small by lia; split; [done|]; split; [done|];
    rewrite insert_id; [done|by destruct f].
  rewrite batch_eq by lia. unfold sys_read. rewrite Hf. specialize (Ht (ticks o)) as Hk.
  rewrite (proj2 (Z.ltb_ge _ _)) by lia. unfold CHUNK_OP_LEN. rewrite Hd. cbn [from_option id].
  set (m := Z.max 0 _). assert (1 <= m <= len - total) as Hm by (unfold m; lia).
  set (bs := take (Z.to_nat m) (drop (Z.to_nat (of_pos f)) data)).
  assert (length bs = Z.to_nat m) as Hbs by (unfold bs; rewrite length_take, length_drop; lia).
  rewrite store_at_in by lia. cbn [mbind outcome_bind mret outcome_ret].
  unfold wadd. fold (u64 (total + m)). rewrite u64_small by lia.
  set (buf' := take (Z.to_nat total) buf ++ bs ++ drop (Z.to_nat total + length bs) buf).
  assert (length buf' = length buf) as Hbuf'.
  { unfold buf'. rewrite !length_app, length_take, length_drop. lia. }
  destruct (IH (set_file o (fd blk) (OFile (of_name f) (of_pos f + m)) data (Z.min (len - total) 65535)) (total + m)
              (OFile (of_name f) (of_pos f + m)) buf') as (o' & -> & Hfiles & Hfds);
    try (cbn; rewrite lookup_insert_eq; done); cbn [of_pos]; try lia.
  exists o'. cbn in Hfiles, Hfds. rewrite insert_insert_eq in Hfds. rewrite insert_id in Hfiles by done.
  split; [|split; [done|]].
  - do 2 f_equal. f_equal.
    assert (length (take (Z.to_nat total) buf ++ bs) = Z.to_nat (total + m)) as Hlen
      by (rewrite length_app, length_take; lia).
    assert (buf' = (take (Z.to_nat total) buf ++ bs) ++ drop (Z.to_nat total + length bs) buf) as ->
      by (unfold buf'; by rewrite app_assoc).
    rewrite (take_app_length' _ _ (Z.to_nat (total + m))) by lia.
    rewrite (drop_app_ge _ _ (Z.to_nat len)) by lia.
    rewrite drop_drop, Hlen, <- app_assoc. f_equal. cbn [of_pos].
    rewrite (take_add_drop (drop (Z.to_nat (of_pos f)) data) m (len - (total + m)) (Z.to_nat (len - total))) by lia.
    fold bs. rewrite <- app_assoc. f_equal. rewrite drop_drop. f_equal.
    + do 2 f_equal. lia.
    + f_equal. lia.
  - rewrite Hfds. do 2 f_equal. lia.
Qed.
End Loops.

(** ** Properties *)

(** The chunk's descriptor is open on [name], which holds [data], at offset [p]. *)
Definition opened (o : os) (blk : chunk_t) (name data : list byte) (p : Z) : Prop :=
  fds o !! fd blk = Some (OFile name p) /\ files o !! name = Some data /\ 0 <= p.

Lemma lseek_opened o blk name data p off :
  opened o blk name data p -> 0 <= p + off < 2 ^ 63 ->
  opened (sys_lseek_cur o (fd blk) off) blk name data (p + off) /\
  files (sys_lseek_cur o (fd blk) off) = files o.
Proof.
  intros (Hf & Hd & Hp) Hr. unfold sys_lseek_cur. rewrite Hf. cbn [of_pos of_name].
  rewrite (proj2 (Z.leb_le _ _)), (proj2 (Z.ltb_lt _ _)) by lia. cbn [andb].
  split; [|done]. split; [cbn; by rewrite lookup_insert_eq|]. split; [done|lia].
Qed.

Lemma lseek_any o blk name data p off :
  opened o blk name data p ->
  exists q, opened (sys_lseek_cur o (fd blk) off) blk name data q /\
  files (sys_lseek_cur o (fd blk) off) = files o.
Proof.
  intros H. destruct (decide (0 <= p + off < 2 ^ 63)) as [Hr|Hr].
  - exists (p + off). by apply lseek_opened.
  - exists p. unfold sys_lseek_cur. destruct H as (Hf & Hd & Hp). rewrite Hf. cbn [of_pos].
    destruct ((0 <=? p + off) && (p + off <? 2 ^ 63)) eqn:E; [|done].
    rewrite andb_true_iff, Z.leb_le, Z.ltb_lt in E. lia.
Qed.

Lemma lseek_calls o fd off : calls (sys_lseek_cur o fd off) = calls o.
Proof. unfold sys_lseek_cur. by repeat case_match. Qed.

Lemma read_loop_hangs transfer rounds o blk buf len total name data p :
  (forall t, 0 <= transfer t) -> opened o blk name data p ->
  0 <= total < len -> len <= Z.of_nat (length buf) -> len < 2 ^ 31 ->
  Z.of_nat (length data) < p + (len - total) ->
  read_loop transfer rounds o blk buf len total = OutOfFuel.
Proof.
  intros Ht. revert o buf total p. induction rounds as [|rounds IH]; intros o buf total p (Hf & Hd & Hp) Hr Hb Hl Hend;
    cbn [read_loop]; rewrite (proj2 (Z.ltb_lt _ _)) by lia; [done|].
  rewrite batch_eq by lia. unfold sys_read. rewrite Hf. specialize (Ht (ticks o)) as Hk.
  rewrite (proj2 (Z.ltb_ge _ _)) by lia. unfold CHUNK_OP_LEN. cbn [of_name of_pos]. rewrite Hd. cbn [from_option id].
  set (m := Z.max 0 _). assert (0 <= m < len - total) as Hm by (unfold m; lia).
  set (bs := take (Z.to_nat m) (drop (Z.to_nat p) data)).
  assert (Z.of_nat (length bs) <= m) as Hbs by (unfold bs; rewrite length_take; lia).
  rewrite store_at_in by lia. cbn [mbind outcome_bind mret outcome_ret].
  unfold wadd. fold (u64 (total + m)). rewrite u64_small by lia.
  apply (IH _ _ _ (p + m)); try lia.
  - split; [cbn; by rewrite lookup_insert_eq|]. split; [cbn; by rewrite lookup_insert_eq|lia].
  - rewrite !length_app, length_take, length_drop. lia.
Qed.

(** C22: [chunk_write] of a buffer of less than 2 GiB, on a system where every
    [write] stores at least a byte, however it cuts the transfers: the call
    terminates within one round per byte, answers its length and leaves the
    buffer appended to the file; it asks for at most [CHUNK_OP_LEN] bytes each
    time; [pos] has no influence, since the file was opened with [O_APPEND].
    (For a [write] that fails see [first_write_fails].) *)
Theorem chunk_write_appends transfer rounds o blk name data p buf pos len :
  (forall t, 0 < transfer t) -> opened o blk name data p ->
  0 <= len <= Z.of_nat (length buf) -> len < 2 ^ 31 -> len <= Z.of_nat rounds ->
  exists o', chunk_write transfer rounds o blk buf pos len = Ret (len, o') /\
    files o' = <[name := data ++ take (Z.to_nat len) buf]> (files o) /\
    exists cs, calls o' = calls o ++ cs /\ Forall (fun n => 0 < n <= CHUNK_OP_LEN) cs.
Proof.
  intros Ht Ho Hlen Hl Hr. unfold chunk_write.
  destruct (lseek_any _ _ _ _ _ (s64 pos) Ho) as (q & (Hf & Hd & _) & Hfiles).
  destruct (write_loop_ok transfer rounds _ blk buf len 0 (OFile name q) data Ht Hf Hd)
    as (o' & p' & -> & Hf' & _ & _ & cs & Hcs & Hall); try lia.
  exists o'. split; [done|]. split; [rewrite Hf', Hfiles; cbn [of_name]; by rewrite Z.sub_0_r, drop_0|].
  exists cs. split; [by rewrite Hcs, lseek_calls|done].
Qed.

(** [chunk_read] reads at [pos] relative to where the last transfer ended: when
    the file has [len] bytes from there on, they are stored in the buffer and
    [len] is answered; when it has fewer, the call never returns. *)
Theorem chunk_read_relative transfer rounds o blk name data p buf pos len :
  (forall t, 0 < transfer t) -> opened o blk name data p ->
  0 < len <= Z.of_nat (length buf) -> len < 2 ^ 31 -> fits 62 pos -> p < 2 ^ 62 -> len <= Z.of_nat rounds ->
  if p + pos + len <=? Z.of_nat (length data) then
    exists o', chunk_read transfer rounds o blk buf pos len
      = Ret (len, take (Z.to_nat len) (drop (Z.to_nat (p + pos)) data) ++ drop (Z.to_nat len) buf, o') /\
      opened o' blk name data (p + pos + len)
  else forall rounds', chunk_read transfer rounds' o blk buf pos len = OutOfFuel.
Proof.
  intros Ht Ho Hlen Hl Hpos Hp Hr. unfold fits in Hpos. unfold chunk_read.
  pose proof Ho as (_ & _ & Hp0). rewrite s64_small by lia.
  destruct (lseek_opened o blk name data p pos Ho ltac:(lia)) as ((Hf & Hd & _) & Hfiles).
  destruct (Z.leb_spec (p + pos + len) (Z.of_nat (length data))) as [Hin|Hout].
  - destruct (read_loop_ok transfer rounds _ blk buf len 0 (OFile name (p + pos)) data Ht Hf Hd)
      as (o' & -> & Hf' & Hfd); cbn [of_pos]; try lia.
    exists o'. rewrite Z.sub_0_r in *. cbn [Z.to_nat take app of_pos]. split; [done|].
    split; [rewrite Hfd; apply lookup_insert_eq|]. split; [by rewrite Hf'|lia].
  - intros rounds'. apply (read_loop_hangs _ _ _ _ _ _ _ name data (p + pos)); try lia; [|].
    + intros t. specialize (Ht t). lia.
    + split; [done|]. split; [done|lia].
Qed.

(** what has been written to a chunk cannot be read back through it: after a
    [chunk_write] the descriptor is at the end of the file, so a [chunk_read]
    at any [pos >= 0] never returns. *)
Theorem chunk_read_back_hangs transfer rounds rounds' o o' blk name data p wbuf wpos wlen rbuf pos len :
  (forall t, 0 < transfer t) -> opened o blk name data p ->
  0 < wlen <= Z.of_nat (length wbuf) -> wlen < 2 ^ 31 -> wlen <= Z.of_nat rounds ->
  chunk_write transfer rounds o blk wbuf wpos wlen = Ret (wlen, o') ->
  0 < len <= Z.of_nat (length rbuf) -> len < 2 ^ 31 -> fits 62 pos -> Z.of_nat (length data) < 2 ^ 61 ->
  chunk_read transfer rounds' o' blk rbuf pos len = OutOfFuel.
Proof.
  intros Ht Ho Hw Hw' Hr Hcall Hlen Hl Hpos Hdata. unfold fits in Hpos. unfold chunk_write in Hcall.
  destruct (lseek_any _ _ _ _ _ (s64 wpos) Ho) as (q & (Hf & Hd & _) & Hfiles).
  destruct (write_loop_ok transfer rounds _ blk wbuf wlen 0 (OFile name q) data Ht Hf Hd)
    as (o2 & p' & Hw2 & Hf' & Hfd & Hp' & _); try lia.
  rewrite Hw2 in Hcall. injection Hcall as <-. cbn [of_name of_pos] in *.
  rewrite (proj2 (Z.ltb_lt _ _)) in Hp' by lia.
  set (data' := data ++ take (Z.to_nat wlen) wbuf).
  assert (Z.of_nat (length data') = p') as Hlen'.
  { unfold data'. rewrite length_app, length_take. lia. }
  assert (opened o2 blk name data' p') as Ho2.
  { split; [by rewrite Hfd, lookup_insert_eq|]. split; [|lia].
    rewrite Hf', Z.sub_0_r, drop_0. apply lookup_insert_eq. }
  unfold chunk_read. rewrite s64_small by lia.
  destruct (lseek_opened o2 blk name data' p' pos Ho2 ltac:(lia)) as (Ho3 & _).
  apply (read_loop_hangs _ _ _ _ _ _ _ name data' (p' + pos)); try lia; [|done].
  intros t. specialize (Ht t). lia.
Qed.

(** An error of the first [write] is answered as -1 all the same: the unsigned
    total wraps around and ends the loop. *)
Lemma first_write_fails transfer rounds o blk buf len :
  transfer (ticks o) < 0 -> 0 < len < 2 ^ 31 -> (0 < rounds)%nat ->
  exists o', write_loop transfer (S rounds) o blk buf len 0 = Ret (-1, o').
Proof.
  intros Ht Hl Hr. cbn [write_loop]. rewrite (proj2 (Z.ltb_lt _ _)) by lia. unfold sys_write.
  assert (forall r o, write_loop transfer r o blk buf len (0 + -1)%u64 = Ret (-1, o)) as He.
  { intros r o2. change ((0 + -1)%u64) with (2 ^ 64 - 1).
    destruct r; cbn [write_loop]; rewrite (proj2 (Z.ltb_ge _ _)) by lia; reflexivity. }
  destruct (fds o !! fd blk); [rewrite (proj2 (Z.ltb_lt _ _)) by lia|]; cbn [mbind outcome_bind mret outcome_ret];
    rewrite He; eauto.
Qed.

(** ** Names *)

(** Different chunks have different files. *)
Lemma chunk_name_inj i j : 0 <= i < 2 ^ 31 -> 0 <= j < 2 ^ 31 -> chunk_name i = chunk_name j -> i = j.
Proof.
  intros Hi Hj. unfold chunk_name.
  rewrite !snprintf_fits by (rewrite length_app; pose proof (length_decimal i); pose proof (length_decimal j); cbn; lia).
  intros H%app_inv_tail. by apply decimal_inj in H; [|lia|lia].
Qed.

(** [chunk_init] opens the chunk's own file (created empty when missing) and
    keeps every other file and descriptor; [chunk_deinit] of the result joins
    its thread and closes exactly that descriptor.  Chunks with different ids
    have different files. *)
Theorem chunk_init_deinit can_open o b id :
  0 <= id < 2 ^ 31 -> can_open (chunk_name id) = true -> fds o !! next_fd o = None -> 0 <= next_fd o ->
  next_thd o ∉ joinable o ->
  exists blk o', chunk_init can_open o (Some b) id = Ret (0, Some blk, o') /\
    opened o' blk (chunk_name id) (default [] (files o !! chunk_name id)) 0 /\
    (forall name, name <> chunk_name id -> files o' !! name = files o !! name) /\
    (exists blk' o2, chunk_deinit o' (Some blk) = Ret (Some blk', o2) /\
       fds o2 = fds o /\ joinable o2 = joinable o /\ fd blk' = -1) /\
    (forall id', 0 <= id' < 2 ^ 31 -> id' <> id -> chunk_name id' <> chunk_name id).
Proof.
  intros Hid Hopen Hfd Hnext Ht. unfold chunk_init, sys_open. rewrite (proj2 (Z.leb_le _ _)), Hopen by lia.
  assert (next_fd o =? -1 = false) as -> by (apply Z.eqb_neq; lia). cbn.
  eexists _, _. split; [reflexivity|]. split; [|split; [|split]].
  - split; [cbn; by rewrite lookup_insert_eq|]. split; [cbn; by rewrite lookup_insert_eq|lia].
  - intros name Hn. cbn. by rewrite lookup_insert_ne.
  - unfold chunk_deinit, thread_join. cbn [thd joinable]. rewrite decide_True by set_solver.
    eexists _, _. split; [reflexivity|]. cbn. split; [by rewrite delete_insert_id|]. split; [set_solver|done].
  - intros id' Hid' Hne E. apply Hne. by apply chunk_name_inj.
Qed.

(** A second [chunk_deinit] joins a thread that is gone. *)
Lemma chunk_deinit_twice o blk blk' o' :
  chunk_deinit o (Some blk) = Ret (Some blk', o') -> chunk_deinit o' (Some blk') = Undefined.
Proof.
  unfold chunk_deinit, thread_join. case_decide; [|done]. cbn. intros [= <- <-]. cbn.
  rewrite decide_False by set_solver. done.
Qed.

(** ** Witnesses *)

Definition sample_name : list byte := [x61].
Definition sample_os : os := Os {[ sample_name := [x62; x63] ]} {[ 3 := OFile sample_name 0 ]} 4 ∅ 0 [].
Definition sample_chunk : chunk_t := Chunk 0 0 3 0 0.
Definition three (t : nat) : Z := 3.
Definition sample_buf : list byte := [x64; x65; x66; x67; x68].

Lemma sample_opened : opened sample_os sample_chunk sample_name [x62; x63] 0.
Proof. split; [reflexivity|]. split; [reflexivity|lia]. Qed.

Lemma chunk_write_appends_witness :
  exists o', chunk_write three 5 sample_os sample_chunk sample_buf 7 5 = Ret (5, o') /\
    files o' = <[sample_name := [x62; x63] ++ sample_buf]> (files sample_os) /\
    exists cs, calls o' = calls sample_os ++ cs /\ Forall (fun n => 0 < n <= CHUNK_OP_LEN) cs.
Proof.
  apply (chunk_write_appends three 5 sample_os sample_chunk sample_name [x62; x63] 0 sample_buf 7 5);
    [intros t; unfold three; lia|exact sample_opened|cbn; lia|lia|lia].
Defined.

Lemma chunk_read_relative_witness :
  exists o', chunk_read three 2 sample_os sample_chunk (calloc 2) 0 2 = Ret (2, [x62; x63], o').
Proof.
  destruct (chunk_read_relative three 2 sample_os sample_chunk sample_name [x62; x63] 0 (calloc 2) 0 2)
    as (o' & H & _); [intros t; unfold three; lia|exact sample_opened|vm_decide|lia|vm_decide|lia|lia|].
  exists o'. exact H.
Defined.

Lemma sample_written : exists o', chunk_write three 5 sample_os sample_chunk sample_buf 0 5 = Ret (5, o').
Proof.
  destruct (write_loop_ok three 5 (sys_lseek_cur sample_os 3 0) sample_chunk sample_buf 5 0 (OFile sample_name 0) [x62; x63])
    as (o' & p & H & _); [intros t; unfold three; lia|reflexivity|reflexivity|lia|cbn; lia|lia|lia|].
  exists o'. exact H.
Qed.

Lemma chunk_read_back_hangs_witness :
  exists o', chunk_write three 5 sample_os sample_chunk sample_buf 0 5 = Ret (5, o') /\
    chunk_read three 100 o' sample_chunk (calloc 5) 0 5 = OutOfFuel.
Proof.
  destruct sample_written as (o' & E). exists o'. split; [exact E|].
  apply (chunk_read_back_hangs three 5 100 sample_os o' sample_chunk sample_name [x62; x63] 0 sample_buf 0 5
    (calloc 5) 0 5); try exact E; try exact sample_opened; try (intros t; unfold three; lia); vm_decide.
Defined.

Lemma chunk_init_deinit_witness :
  exists blk o', chunk_init (fun _ => true) sample_os (Some zero_chunk) 12 = Ret (0, Some blk, o') /\
    opened o' blk (chunk_name 12) [] 0.
Proof.
  destruct (chunk_init_deinit (fun _ => true) sample_os zero_chunk 12) as (blk & o' & H & Ho & _);
    [lia|reflexivity|reflexivity|cbn; lia|vm_decide|].
  exists blk, o'. split; [exact H|exact Ho].
Defined.
