(* ===== verification/Dict.v ===== *)
(** * The dictionary of [src/metaserver/dict.c]

    A fixed array of buckets of linked pairs, keyed by C strings and hashed
    with jump consistent hashing.  Values are pointers, 0 for NULL; [strdup]
    and [calloc] succeed. *)

From Stdlib Require Import Strings.Byte.
From S2P Require Import Prelude Bytes CString Hsieh JumpHash Chain.

Abbreviation pair := (list byte * Z)%type.

Record dict_t := Dict {
  max_count : Z;
  count : Z;
  member_count : list Z;
  members : list (option nat);
  pairs : gmap nat (cell pair);
  unused : nat }.

(** The same code as [c_hash_hsieh] of [src/base/c_hash.c]. *)
Definition dict_default_hash_fn : list byte -> outcome Z :=
  fun key => c_hash_hsieh (Some key) (Z.of_nat (length key)).

Definition dict_init (max : Z) : dict_t :=
  Dict max 0 (repeat 0 (Z.to_nat max)) (repeat None (Z.to_nat max)) ∅ 0.

Section Dict.
(** The callback [d->hash_fn]. *)
Context (hash_fn : list byte -> outcome Z).

(** [strncmp(cur->key, key, key_len) == 0]. *)
Definition key_matches (key : list byte) (p : pair) : outcome bool :=
  c ← strncmp (cstring p.1) (cstring key) (length key); mret (c =? 0).

(** The index, the pair found and the one before it. *)
Definition dict_find (d : dict_t) (key : list byte) : outcome (nat * option nat * option nat) :=
  hash ← hash_fn key;
  index ← dict_jump_consistent hash (u32 (max_count d));
  let index := Z.to_nat index in
  n ← from_option_undef (member_count d !! index);
  if 0 <? n then
    head ← from_option_undef (members d !! index);
    '(data, prev) ← find_loop (key_matches key) (S (size (pairs d))) (pairs d) head None;
    mret (index, data, prev)
  else mret (index, None, None).

(** [__sync_fetch_and_add(&d->member_count[index], delta)], likewise [count]. *)
Definition add_counts (d : dict_t) (index : nat) (delta : Z) : dict_t :=
  Dict (max_count d) (wadd 32 (count d) delta)
    (alter (fun n => wadd 32 n delta) index (member_count d)) (members d) (pairs d) (unused d).

(** The new pair, whose [val] the C code returns the address of, or NULL. *)
Definition dict_put (d : dict_t) (key : list byte) (val : Z) : outcome (option nat * dict_t) :=
  '(index, data, _) ← dict_find d key;
  match data with
  | Some _ => mret (None, d)
  | None =>
      head ← from_option_undef (members d !! index);
      let data := unused d in
      let next := match head with None => None | Some _ => head end in
      let d := Dict (max_count d) (count d) (member_count d) (<[index := Some data]> (members d))
                 (<[data := Cell next (key, val)]> (pairs d)) (S data) in
      mret (Some data, add_counts d index 1)
  end.

Definition dict_get (d : dict_t) (key : list byte) : outcome Z :=
  '(_, dp, _) ← dict_find d key;
  match dp with
  | None => mret 0
  | Some c => ce ← load_cell (pairs d) c; mret (payload ce).2
  end.

(** The result and the values passed to [fn] ([fn] given when [free_val]). *)
Definition dict_del (d : dict_t) (key : list byte) (free_val : bool) : outcome (Z * list Z * dict_t) :=
  '(index, dp, prev) ← dict_find d key;
  match dp with
  | None => mret (-1, [], d)
  | Some c =>
      ce ← load_cell (pairs d) c;
      '(ms, ps) ← unlink (members d) (pairs d) index prev c;
      let d := Dict (max_count d) (count d) (member_count d) ms ps (unused d) in
      mret (0, if free_val then [(payload ce).2] else [], add_counts d index (-1))
  end.

(** [dict_dump] over buckets [i, i + todo): the callback sees every pair. *)
Fixpoint dump_loop {B : Type} (cb : B -> pair -> B) (d : dict_t) (todo i : nat) (acc : B) : outcome B :=
  match todo with
  | O => Ret acc
  | S todo =>
      n ← from_option_undef (member_count d !! i);
      acc ← (if 0 <? n then head ← from_option_undef (members d !! i);
                             walk cb (S (size (pairs d))) (pairs d) head acc
             else Ret acc);
      dump_loop cb d todo (S i) acc
  end.

Definition dict_dump {B : Type} (cb : B -> pair -> B) (d : dict_t) (acc : B) : outcome B :=
  dump_loop cb d (Z.to_nat (max_count d)) 0 acc.

(** [dict_deinit] frees every pair and passes the addresses of the [val]
    members, not the values, to [free_cb]; [members] keeps its pointers. *)
Fixpoint deinit_loop (d : dict_t) (todo i : nat) : outcome (dict_t * list nat) :=
  match todo with
  | O => Ret (d, [])
  | S todo =>
      n ← from_option_undef (member_count d !! i);
      '(d, freed) ← (if 0 <? n then
          head ← from_option_undef (members d !! i);
          '(ps, l) ← free_chain (S (size (pairs d))) (pairs d) head;
          mret (add_counts (Dict (max_count d) (count d) (member_count d) (members d) ps (unused d)) i
                  (- Z.of_nat (length l)), l.*1)
        else Ret (d, []));
      '(d, freed') ← deinit_loop d todo (S i);
      mret (d, freed ++ freed')
  end.

Definition dict_deinit (d : dict_t) : outcome (dict_t * list nat) :=
  deinit_loop d (Z.to_nat (max_count d)) 0.

(** [calloc] and [dict_init] succeed. *)
Definition dict_create (max : Z) : option dict_t := Some (dict_init max).

(** The pairs freed; the table itself is freed with them. *)
Definition dict_destroy (d : option dict_t) : outcome (list nat) :=
  match d with
  | None => mret []
  | Some d => '(_, freed) ← dict_deinit d; mret freed
  end.

(** ** The abstract map *)

Hypothesis hash_ok : forall key, exists h, hash_fn key = Ret h /\ fits 32 h.

(** Bucket of a key in a table of [n] buckets. *)
Definition bucket_of (n : Z) (key : list byte) : outcome Z :=
  hash ← hash_fn key; dict_jump_consistent hash n.

Lemma bucket_in_range n key : 0 < n < 2 ^ 32 -> exists i, bucket_of n key = Ret i /\ 0 <= i < n.
Proof.
  intros Hn. unfold bucket_of. destruct (hash_ok key) as (h & -> & _). cbn.
  destruct (jump_total n (fun j => j <? n) h) as (r & E & Hr); [done|done|].
  exists r. unfold dict_jump_consistent. rewrite E. cbn.
  rewrite jump_value_nonneg, u32_small by lia. done.
Qed.

Definition contents (ls : list (list (nat * pair))) : list pair := (concat ls).*2.

(** [d] is well formed and its buckets hold the pairs of [ls]. *)
Record dict_ok (d : dict_t) (ls : list (list (nat * pair))) : Prop := {
  ok_chains : chains (members d) (pairs d) (unused d) ls;
  ok_max : 0 < max_count d < 2 ^ 32 /\ length (members d) = Z.to_nat (max_count d);
  ok_counts i l : ls !! i = Some l -> member_count d !! i = Some (Z.of_nat (length l));
  ok_count : count d = Z.of_nat (length (contents ls)) /\ count d < 2 ^ 32;
  ok_keys i l x : ls !! i = Some l -> x ∈ l ->
    text x.2.1 /\ bucket_of (max_count d) x.2.1 = Ret (Z.of_nat i);
  ok_nodup : NoDup (contents ls).*1 }.

(** The dictionary stands for the finite map [m]. *)
Definition represents (d : dict_t) (m : gmap (list byte) Z) : Prop :=
  exists ls, dict_ok d ls /\ m = list_to_map (contents ls).

(** No other key of the same bucket starts with [key]. *)
Definition prefix_safe (d : dict_t) (m : gmap (list byte) Z) (key : list byte) : Prop :=
  forall key', is_Some (m !! key') -> key `prefix_of` key' ->
    bucket_of (max_count d) key' = bucket_of (max_count d) key -> key' = key.

Definition starts (key : list byte) (p : pair) : bool := bool_decide (key `prefix_of` p.1).

Lemma key_matches_spec key p :
  text key -> text p.1 -> key_matches key p = Ret (starts key p).
Proof.
  intros Hk Hp. unfold key_matches, starts, cstring.
  destruct (strncmp_prefix p.1 key [] [NUL] Hp Hk) as (c & -> & Hc). cbn. f_equal.
  destruct (bool_decide_reflect (key `prefix_of` p.1)) as [H|H].
  - apply Z.eqb_eq, Hc. exact H.
  - apply Z.eqb_neq. intros E. apply H, Hc, E.
Qed.

Lemma dict_find_spec d ls key :
  dict_ok d ls -> text key ->
  exists i l r, bucket_of (max_count d) key = Ret (Z.of_nat i) /\ ls !! i = Some l /\
    (i < length (members d))%nat /\
    dict_find d key = Ret (i, r.1, r.2) /\ found (starts key) l None r.
Proof.
  intros O Hk. destruct (ok_max _ _ O) as [Hmax Hlen].
  destruct (bucket_in_range (max_count d) key Hmax) as (i & Hi & Hr).
  assert (Z.to_nat i < length (members d))%nat as Hlt by lia.
  destruct (chains_bucket _ _ _ _ _ (ok_chains _ _ O) Hlt) as (p & l & Hp & Hl & Hs).
  assert (exists r, dict_find d key = Ret (Z.to_nat i, r.1, r.2) /\ found (starts key) l None r) as (r & Hf & Hfo).
  { unfold dict_find. unfold bucket_of in Hi.
    destruct (hash_fn key) as [h| | |]; try discriminate. cbn in *. rewrite u32_small, Hi by lia. cbn.
    rewrite (ok_counts _ _ O _ _ Hl). cbn. destruct (Z.ltb_spec 0 (Z.of_nat (length l))) as [Hpos|Hz].
    - rewrite Hp. cbn.
      destruct (find_spec (key_matches key) (starts key) (pairs d) p l None (S (size (pairs d))))
        as (r & -> & Hfo); [|done|by apply Nat.le_le_succ_r; eapply chains_rounds; [apply O| |]|].
      { intros c x Hin. apply key_matches_spec; [done|]. by apply (ok_keys _ _ O _ _ (c, x) Hl Hin). }
      exists r. destruct r. done.
    - exists (None, None). split; [done|]. destruct l; [constructor|cbn in Hz; lia]. }
  exists (Z.to_nat i), l, r. rewrite Z2Nat.id by lia. done.
Qed.

(** ** Contents under the updates *)

Lemma concat_insert {X} (ls : list (list X)) i l x :
  ls !! i = Some l -> concat (<[i := x :: l]> ls) ≡ₚ x :: concat ls.
Proof.
  revert i. induction ls as [|l' ls IH]; intros [|i] H; simplify_eq/=; [done|].
  rewrite IH by done. by rewrite Permutation_middle.
Qed.

Lemma contents_push ls i l c p :
  ls !! i = Some l -> contents (<[i := (c, p) :: l]> ls) ≡ₚ p :: contents ls.
Proof. intros H. unfold contents. by rewrite (concat_insert _ _ _ _ H). Qed.

Lemma contents_unlink ls i l1 c p l2 :
  ls !! i = Some (l1 ++ (c, p) :: l2) -> contents ls ≡ₚ p :: contents (<[i := l1 ++ l2]> ls).
Proof.
  intros H. rewrite <- (contents_push (<[i := l1 ++ l2]> ls) i (l1 ++ l2) c p).
  - rewrite list_insert_insert_eq. unfold contents.
    rewrite <- (list_insert_id ls i (l1 ++ (c, p) :: l2) H) at 1. apply fmap_Permutation.
    apply lookup_lt_Some in H. clear -H. revert i H.
    induction ls as [|l' ls IH]; intros [|i] H; cbn in *; try lia.
    + by rewrite <- Permutation_middle.
    + rewrite IH by lia. done.
  - apply list_lookup_insert_eq. by apply lookup_lt_Some in H.
Qed.

Lemma elem_of_concat {X} (ls : list (list X)) x :
  x ∈ concat ls <-> exists i l, ls !! i = Some l /\ x ∈ l.
Proof.
  rewrite list_elem_of_In, in_concat. split.
  - intros (l & Hl%list_elem_of_In & Hx%list_elem_of_In). apply list_elem_of_lookup in Hl as [i ?]. eauto.
  - intros (i & l & Hl & Hx). exists l. rewrite <- !list_elem_of_In. split; [|done].
    by eapply list_elem_of_lookup_2.
Qed.

Lemma contents_elem ls p : p ∈ contents ls <-> exists i l c, ls !! i = Some l /\ (c, p) ∈ l.
Proof.
  unfold contents. rewrite list_elem_of_fmap. split.
  - intros ([c p'] & -> & (i & l & ? & ?)%elem_of_concat). eauto.
  - intros (i & l & c & Hl & Hin). exists (c, p). split; [done|]. apply elem_of_concat. eauto.
Qed.

Lemma map_contents ls k v :
  NoDup (contents ls).*1 -> (list_to_map (contents ls) : gmap (list byte) Z) !! k = Some v <-> (k, v) ∈ contents ls.
Proof. intros. symmetry. by apply elem_of_list_to_map. Qed.

(** What the walk of bucket [i] finds is what the map holds. *)
Lemma found_map d ls key i l r :
  dict_ok d ls -> bucket_of (max_count d) key = Ret (Z.of_nat i) -> ls !! i = Some l ->
  prefix_safe d (list_to_map (contents ls)) key -> found (starts key) l None r ->
  match r.1 with
  | None => (list_to_map (contents ls) : gmap (list byte) Z) !! key = None
  | Some c => exists l1 v l2, l = l1 ++ (c, (key, v)) :: l2 /\
      r.2 = (match last l1 with None => None | Some x => Some x.1 end) /\
      (list_to_map (contents ls) : gmap (list byte) Z) !! key = Some v
  end.
Proof.
  intros O Hb Hl Hsafe Hf. unfold found in Hf. destruct r as [[c|] pv]; cbn in *.
  - destruct Hf as (l1 & [k v] & l2 & -> & Hst & _ & Hpv).
    assert ((c, (k, v)) ∈ l1 ++ (c, (k, v)) :: l2) as Hin by (apply elem_of_app; right; left).
    assert ((list_to_map (contents ls) : gmap (list byte) Z) !! k = Some v) as Hm.
    { apply map_contents; [apply O|]. apply contents_elem. eauto. }
    destruct (ok_keys _ _ O _ _ _ Hl Hin) as [_ Hbk]. cbn in Hbk.
    assert (k = key) as ->.
    { apply Hsafe; [eauto|by apply bool_decide_eq_true in Hst|congruence]. }
    eauto 10.
  - destruct (list_to_map (contents ls) !! key) as [v|] eqn:Hm; [|done].
    apply map_contents in Hm; [|apply O]. apply contents_elem in Hm as (j & l' & c & Hl' & Hin).
    destruct (ok_keys _ _ O _ _ _ Hl' Hin) as [_ Hbk]. cbn in Hbk. rewrite Hb in Hbk.
    assert (i = j) as <- by (injection Hbk; lia). simplify_eq.
    rewrite Forall_forall in Hf. specialize (Hf _ Hin). cbn in Hf.
    unfold starts in Hf. cbn in Hf. by rewrite bool_decide_true in Hf.
Qed.

Lemma contents_length_size ls :
  NoDup (contents ls).*1 -> size (list_to_map (contents ls) : gmap (list byte) Z) = length (contents ls).
Proof.
  intros Hnd. generalize (contents ls) Hnd. clear. intros l. induction l as [|[k v] l IH]; intros Hnd.
  - apply map_size_empty.
  - cbn in *. apply NoDup_cons in Hnd as [Hk Hnd]. rewrite map_size_insert_None.
    + by rewrite IH.
    + by apply not_elem_of_list_to_map.
Qed.

(** Counting one pair more or less in bucket [i]. *)
Lemma counts_alter (mc : list Z) (ls : list (list (nat * pair))) i l l' delta :
  (forall j l, ls !! j = Some l -> mc !! j = Some (Z.of_nat (length l))) ->
  ls !! i = Some l -> Z.of_nat (length l') = Z.of_nat (length l) + delta ->
  Z.of_nat (length l') < 2 ^ 32 ->
  forall j l0, <[i := l']> ls !! j = Some l0 ->
    alter (fun n => wadd 32 n delta) i mc !! j = Some (Z.of_nat (length l0)).
Proof.
  intros Hc Hl Hlen Hb j l0 Hj. destruct (decide (i = j)) as [<-|].
  - rewrite list_lookup_insert_eq in Hj by (by eapply lookup_lt_Some). injection Hj as <-.
    rewrite list_lookup_alter_eq, (Hc _ _ Hl). cbn. f_equal. unfold wadd.
    rewrite <- Hlen. apply u32_small. lia.
  - rewrite list_lookup_insert_ne in Hj by done. rewrite list_lookup_alter_ne by done. by apply Hc.
Qed.

Lemma length_bucket ls i l : ls !! i = Some l -> (length l <= length (contents ls))%nat.
Proof.
  unfold contents. rewrite length_fmap. revert i.
  induction ls as [|l' ls IH]; intros [|i] H; simplify_eq/=; rewrite length_app; [lia|].
  apply IH in H. lia.
Qed.

Lemma put_refines d m key val :
  represents d m -> text key -> prefix_safe d m key -> Z.of_nat (size m) < 2 ^ 32 - 1 ->
  match m !! key with
  | Some _ => dict_put d key val = Ret (None, d)
  | None => exists c d', dict_put d key val = Ret (Some c, d') /\ represents d' (<[key := val]> m)
  end.
Proof.
  intros (ls & O & ->) Hk Hsafe Hsz.
  destruct (dict_find_spec d ls key O Hk) as (i & l & r & Hb & Hl & Hi & Hf & Hfo).
  pose proof (found_map _ _ _ _ _ _ O Hb Hl Hsafe Hfo) as Hr.
  unfold dict_put. rewrite Hf. cbn. destruct r as [[c|] pv]; cbn in *.
  { destruct Hr as (l1 & v & l2 & -> & _ & ->). done. }
  rewrite Hr. destruct (lookup_lt_is_Some_2 (members d) i Hi) as [p Hp]. rewrite Hp. cbn.
  eexists _, _. split; [done|]. rewrite contents_length_size in Hsz by apply O.
  exists (<[i := (unused d, (key, val)) :: l]> ls).
  pose proof (contents_push ls i l (unused d) (key, val) Hl) as HP.
  assert (key ∉ (contents ls).*1) as Hnew.
  { intros ([k v] & -> & Hin)%list_elem_of_fmap. apply map_contents in Hin; [|apply O]. cbn in Hr. congruence. }
  assert (NoDup (contents (<[i := (unused d, (key, val)) :: l]> ls)).*1) as Hnd.
  { rewrite HP. cbn. apply NoDup_cons. split; [done|apply O]. }
  split.
  - destruct (ok_max _ _ O) as [Hmax Hlen]. destruct (ok_count _ _ O) as [Hc Hc'].
    split; cbn [max_count count member_count members pairs unused add_counts].
    + replace (match p with None => None | Some _ => p end) with p by (by destruct p).
      by apply chains_push; [apply O| |].
    + by rewrite length_insert.
    + apply (counts_alter _ ls i l); [apply (ok_counts _ _ O)|done|cbn; lia|].
      pose proof (length_bucket _ _ _ Hl). cbn. lia.
    + rewrite HP. cbn. unfold wadd. rewrite u32_small by lia. lia.
    + intros j l' x Hj Hin. destruct (decide (i = j)) as [<-|].
      * rewrite list_lookup_insert_eq in Hj by (by eapply lookup_lt_Some). injection Hj as <-.
        apply elem_of_cons in Hin as [->|Hin]; [done|]. by eapply (ok_keys _ _ O).
      * rewrite list_lookup_insert_ne in Hj by done. by eapply (ok_keys _ _ O).
    + done.
  - by rewrite (list_to_map_proper _ _ Hnd HP).
Qed.

Lemma get_refines d m key :
  represents d m -> text key -> prefix_safe d m key -> dict_get d key = Ret (default 0 (m !! key)).
Proof.
  intros (ls & O & ->) Hk Hsafe.
  destruct (dict_find_spec d ls key O Hk) as (i & l & r & Hb & Hl & Hi & Hf & Hfo).
  pose proof (found_map _ _ _ _ _ _ O Hb Hl Hsafe Hfo) as Hr.
  unfold dict_get. rewrite Hf. cbn. destruct r as [[c|] pv]; cbn in *; [|by rewrite Hr].
  destruct Hr as (l1 & v & l2 & -> & _ & ->).
  destruct (chains_bucket _ _ _ _ _ (ok_chains _ _ O) Hi) as (p & l' & _ & Hl' & Hs).
  rewrite Hl in Hl'. injection Hl' as <-. apply seg_app in Hs as (nx & Hc & _).
  unfold load_cell. by rewrite Hc.
Qed.

Lemma del_refines d m key free_val :
  represents d m -> text key -> prefix_safe d m key ->
  match m !! key with
  | None => dict_del d key free_val = Ret (-1, [], d)
  | Some v => exists d', dict_del d key free_val = Ret (0, if free_val then [v] else [], d') /\
      represents d' (delete key m)
  end.
Proof.
  intros (ls & O & ->) Hk Hsafe.
  destruct (dict_find_spec d ls key O Hk) as (i & l & r & Hb & Hl & Hi & Hf & Hfo).
  pose proof (found_map _ _ _ _ _ _ O Hb Hl Hsafe Hfo) as Hr.
  unfold dict_del. rewrite Hf. cbn. destruct r as [[c|] pv]; cbn in *; [|by rewrite Hr].
  destruct Hr as (l1 & v & l2 & -> & -> & Hm). rewrite Hm.
  destruct (chains_bucket _ _ _ _ _ (ok_chains _ _ O) Hi) as (p & l' & _ & Hl' & Hs).
  rewrite Hl in Hl'. injection Hl' as <-. apply seg_app in Hs as (nx & Hc & _).
  replace (load_cell (pairs d) c) with (Ret (Cell nx (key, v))) by (unfold load_cell; by rewrite Hc).
  cbn [mbind outcome_bind payload].
  destruct (chains_unlink _ _ _ _ _ _ _ _ _ (ok_chains _ _ O) Hl) as (b' & m' & -> & C' & Hlb & _). cbn.
  eexists. split; [done|]. exists (<[i := l1 ++ l2]> ls).
  pose proof (contents_unlink _ _ _ _ _ _ Hl) as HP. pose proof (ok_nodup _ _ O) as Hnd.
  destruct (ok_max _ _ O) as [Hmax Hlen]. destruct (ok_count _ _ O) as [Hcn Hcn'].
  assert (NoDup ((key, v) :: contents (<[i := l1 ++ l2]> ls)).*1) as Hnd' by (by rewrite <- HP).
  apply Permutation_length in HP as Hlen'. cbn in Hlen', Hnd'. apply NoDup_cons in Hnd' as Hnd2.
  split.
  - split; cbn [max_count count member_count members pairs unused add_counts]; [done|by rewrite Hlb| | | |tauto].
    + apply (counts_alter _ ls i (l1 ++ (c, (key, v)) :: l2)); [apply (ok_counts _ _ O)|done| |].
      * rewrite !length_app. cbn. lia.
      * pose proof (length_bucket _ _ _ Hl) as Hb'. rewrite length_app in *. cbn in Hb'. lia.
    + unfold wadd. rewrite u32_small by lia. lia.
    + intros j l' x Hj Hin. destruct (decide (i = j)) as [<-|].
      * rewrite list_lookup_insert_eq in Hj by (by eapply lookup_lt_Some). injection Hj as <-.
        eapply (ok_keys _ _ O); [exact Hl|]. rewrite elem_of_app in *. rewrite elem_of_cons. tauto.
      * rewrite list_lookup_insert_ne in Hj by done. by eapply (ok_keys _ _ O).
  - rewrite (list_to_map_proper (contents ls) ((key, v) :: contents (<[i := l1 ++ l2]> ls))) by done.
    cbn. rewrite delete_insert_id; [done|]. apply not_elem_of_list_to_map, Hnd2.
Qed.

(** ** Creation and traversals *)

Lemma concat_nils {X} n : concat (repeat (@nil X) n) = [].
Proof. induction n; [done|]. done. Qed.

Lemma lookup_repeat {X} (x : X) n i y : repeat x n !! i = Some y -> y = x /\ (i < n)%nat.
Proof.
  intros H. split; [|apply lookup_lt_Some in H; by rewrite repeat_length in H].
  apply list_elem_of_lookup_2, list_elem_of_In, repeat_spec in H. done.
Qed.

Lemma lookup_repeat_lt {X} (x : X) n i : (i < n)%nat -> repeat x n !! i = Some x.
Proof. revert i. induction n as [|n IH]; intros [|i] H; [lia|lia|done|]. apply IH. lia. Qed.

Lemma init_represents n : 0 < n < 2 ^ 32 -> represents (dict_init n) ∅.
Proof.
  intros Hn. exists (repeat [] (Z.to_nat n)). unfold contents. rewrite concat_nils. split; [|done].
  split; unfold contents; rewrite ?concat_nils; cbn; try done.
  - split.
    + by rewrite !repeat_length.
    + intros i p l [-> _]%lookup_repeat [-> _]%lookup_repeat. done.
    + intros i l [-> _]%lookup_repeat. constructor.
    + intros i j l l' c [-> _]%lookup_repeat _ Hc. inversion Hc.
    + intros c [? H]. by rewrite lookup_empty in H.
  - by rewrite repeat_length.
  - intros i l [-> Hi]%lookup_repeat. cbn. by apply lookup_repeat_lt.
  - intros i l x [-> _]%lookup_repeat Hx. inversion Hx.
  - constructor.
Qed.

Lemma dump_loop_spec {B : Type} (cb : B -> pair -> B) d ls todo i acc :
  dict_ok d ls -> (i + todo = length ls)%nat ->
  dump_loop cb d todo i acc = Ret (fold_left cb (contents (drop i ls)) acc).
Proof.
  intros O. revert i acc. induction todo as [|todo IH]; intros i acc Hi.
  - rewrite drop_ge by lia. done.
  - destruct (lookup_lt_is_Some_2 ls i) as [l Hl]; [lia|].
    pose proof (ch_length _ _ _ _ (ok_chains _ _ O)) as Hlen.
    destruct (chains_bucket _ _ _ _ i (ok_chains _ _ O)) as (p & l' & Hp & Hl' & Hs); [lia|].
    rewrite Hl in Hl'. injection Hl' as <-.
    cbn [dump_loop]. rewrite (ok_counts _ _ O _ _ Hl). cbn [from_option_undef mbind outcome_bind].
    rewrite (drop_S _ _ _ Hl). unfold contents in *. cbn [concat]. rewrite fmap_app, fold_left_app.
    destruct (Z.ltb_spec 0 (Z.of_nat (length l))).
    + rewrite Hp. cbn [from_option_undef mbind outcome_bind].
      pose proof (chains_rounds _ _ _ _ i l (ok_chains _ _ O) ltac:(lia) Hl).
      rewrite (walk_spec _ _ _ l) by (done || lia).
      cbn [mbind outcome_bind]. apply IH. lia.
    + destruct l; [|cbn in *; lia]. cbn. apply IH. lia.
Qed.
End Dict.

(** ** Properties *)

Lemma default_hash_ok key : exists h, dict_default_hash_fn key = Ret h /\ fits 32 h.
Proof. destruct (hsieh_total key) as [H _]. exact H. Qed.

(** C18: for any hash function, the dictionary refines a finite map from C strings
    to values, on keys no other key of their bucket starts with: [dict_get]
    answers the binding or NULL, [dict_put] adds a binding and refuses to
    overwrite one, [dict_del] removes the binding, passes its value to the
    callback and answers -1 when there is none.  A fresh table is the empty
    map. *)
Theorem dict_refines_map hash_fn d m key val free_val :
  (forall key, exists h, hash_fn key = Ret h /\ fits 32 h) ->
  represents hash_fn d m -> text key -> prefix_safe hash_fn d m key -> Z.of_nat (size m) < 2 ^ 32 - 1 ->
  dict_get hash_fn d key = Ret (default 0 (m !! key)) /\
  match m !! key with
  | Some v =>
      dict_put hash_fn d key val = Ret (None, d) /\
      (exists d', dict_del hash_fn d key free_val = Ret (0, if free_val then [v] else [], d') /\
         represents hash_fn d' (delete key m))
  | None =>
      (exists c d', dict_put hash_fn d key val = Ret (Some c, d') /\
         represents hash_fn d' (<[key := val]> m)) /\
      dict_del hash_fn d key free_val = Ret (-1, [], d)
  end /\
  (forall n, 0 < n < 2 ^ 32 -> represents hash_fn (dict_init n) ∅).
Proof.
  intros Hh R Hk Hs Hsz. split; [by apply get_refines|]. split; [|by apply init_represents].
  pose proof (put_refines hash_fn Hh d m key val R Hk Hs Hsz) as Hp.
  pose proof (del_refines hash_fn Hh d m key free_val R Hk Hs) as Hd.
  by destruct (m !! key).
Qed.

Lemma prefix_safe_empty hash_fn d key : prefix_safe hash_fn d ∅ key.
Proof. intros k [v H]. rewrite lookup_empty in H. discriminate H. Qed.

Lemma prefix_safe_singleton hash_fn d key v : prefix_safe hash_fn d (<[key := v]> ∅) key.
Proof.
  intros k [v' H] _ _. apply lookup_insert_Some in H as [[E _]|[_ H]]; [by symmetry|].
  rewrite lookup_empty in H. discriminate H.
Qed.

Definition key_a : list byte := [x61].
Definition key_abc : list byte := [x61; x62; x63].

Lemma dict_refines_map_witness :
  exists c d, dict_put dict_default_hash_fn (dict_init 8) key_a 7 = Ret (Some c, d) /\
    dict_get dict_default_hash_fn d key_a = Ret 7 /\
    exists d', dict_del dict_default_hash_fn d key_a true = Ret (0, [7], d').
Proof.
  assert (represents dict_default_hash_fn (dict_init 8) ∅) as R0 by (apply init_represents; lia).
  assert (text key_a) as Ht by vm_decide.
  destruct (dict_refines_map dict_default_hash_fn (dict_init 8) ∅ key_a 7 true default_hash_ok R0 Ht
    (prefix_safe_empty _ _ _) eq_refl) as (_ & [(c & d & Hput & R) _] & _).
  destruct (dict_refines_map dict_default_hash_fn d (<[key_a := 7]> ∅) key_a 7 true default_hash_ok R Ht
    (prefix_safe_singleton _ _ _ _) eq_refl) as (Hget & Hrest & _).
  rewrite lookup_insert_eq in Hget, Hrest. destruct Hrest as (_ & d' & Hdel & _).
  exists c, d. split; [exact Hput|]. split; [exact Hget|]. exists d'. exact Hdel.
Defined.

(** [dict_dump] shows the callback every binding of the map exactly once. *)
Theorem dict_dump_visits {B : Type} (cb : B -> pair -> B) hash_fn d m acc :
  represents hash_fn d m -> exists l, dict_dump cb d acc = Ret (fold_left cb l acc) /\ l ≡ₚ map_to_list m.
Proof.
  intros (ls & O & ->). exists (contents ls). split.
  - unfold dict_dump. rewrite (dump_loop_spec hash_fn cb d ls _ 0); [done|done|].
    destruct (ok_max _ _ _ O) as [_ Hl]. pose proof (ch_length _ _ _ _ (ok_chains _ _ _ O)). lia.
  - symmetry. apply map_to_list_to_map, (ok_nodup _ _ _ O).
Qed.

Definition sum_values (acc : Z) (p : pair) : Z := acc + p.2.

Lemma dict_dump_visits_witness :
  exists l, dict_dump sum_values (dict_init 8) 5 = Ret (fold_left sum_values l 5) /\ l ≡ₚ [].
Proof.
  destruct (dict_dump_visits sum_values dict_default_hash_fn (dict_init 8) ∅ 5) as (l & H1 & H2).
  - apply (init_represents dict_default_hash_fn 8). done.
  - exists l. split; [exact H1|]. by rewrite map_to_list_empty in H2.
Defined.

(** keys are compared with [strncmp] over the length of the key looked for, so
    a key is taken for a longer key of its bucket that starts with it: whether
    or not [key] is bound, as soon as its bucket holds such a key, [dict_get]
    answers the value of one of them and [dict_put] is refused. *)
Theorem dict_prefix_capture hash_fn d m key longer w val :
  (forall key, exists h, hash_fn key = Ret h /\ fits 32 h) ->
  represents hash_fn d m -> text key -> m !! longer = Some w -> key `prefix_of` longer ->
  bucket_of hash_fn (max_count d) longer = bucket_of hash_fn (max_count d) key ->
  exists key' v, m !! key' = Some v /\ key `prefix_of` key' /\
    dict_get hash_fn d key = Ret v /\ dict_put hash_fn d key val = Ret (None, d).
Proof.
  intros Hh (ls & O & ->) Hk Hw Hpre Hbk.
  destruct (dict_find_spec hash_fn Hh d ls key O Hk) as (i & l & r & Hb & Hl & Hi & Hf & Hfo).
  apply map_contents in Hw; [|apply O]. apply contents_elem in Hw as (j & l' & c & Hl' & Hin).
  destruct (ok_keys _ _ _ O _ _ _ Hl' Hin) as [_ Hbj]. cbn in Hbj. rewrite Hbk, Hb in Hbj.
  assert (i = j) as <- by (injection Hbj; lia). rewrite Hl in Hl'. injection Hl' as <-.
  unfold dict_get, dict_put. rewrite Hf. unfold found in Hfo. destruct r as [[c'|] pv]; cbn in *.
  - destruct Hfo as (l1 & [k v] & l2 & -> & Hst & _). apply bool_decide_eq_true in Hst. cbn in Hst.
    exists k, v. split.
    { apply map_contents; [apply O|]. apply contents_elem. exists i, (l1 ++ (c', (k, v)) :: l2), c'.
      split; [done|]. apply elem_of_app. right. left. }
    split; [done|]. split; [|done].
    destruct (chains_bucket _ _ _ _ _ (ok_chains _ _ _ O) Hi) as (p & l0 & _ & Hl0 & Hs).
    rewrite Hl in Hl0. injection Hl0 as <-. apply seg_app in Hs as (nx & Hc & _).
    unfold load_cell. by rewrite Hc.
  - rewrite Forall_forall in Hfo. specialize (Hfo _ Hin). unfold starts in Hfo. cbn in Hfo.
    by rewrite bool_decide_true in Hfo.
Qed.

Lemma dict_prefix_capture_witness :
  exists c d, dict_put dict_default_hash_fn (dict_init 1) key_abc 7 = Ret (Some c, d) /\
    exists key' v, ({[ key_abc := 7 ]} : gmap (list byte) Z) !! key' = Some v /\ key_a `prefix_of` key' /\
      dict_get dict_default_hash_fn d key_a = Ret v /\ dict_put dict_default_hash_fn d key_a 8 = Ret (None, d).
Proof.
  destruct (put_refines dict_default_hash_fn default_hash_ok (dict_init 1) ∅ key_abc 7) as (c & d & Hput & R).
  - apply (init_represents dict_default_hash_fn 1). done.
  - vm_decide.
  - apply prefix_safe_empty.
  - reflexivity.
  - exists c, d. split; [exact Hput|].
    apply (dict_prefix_capture dict_default_hash_fn d {[ key_abc := 7 ]} key_a key_abc 7 8 default_hash_ok).
    + exact R.
    + vm_decide.
    + apply lookup_singleton_eq.
    + by exists [x62; x63].
    + assert (max_count d = 1) as ->.
      { vm_compute in Hput. injection Hput as _ <-. reflexivity. }
      vm_compute. reflexivity.
Defined.

(** [dict_deinit] frees the pairs but leaves the bucket heads pointing at them.
    A table used again after it links new pairs in front of freed ones, and
    the next walk past them reads freed memory. *)
Theorem dict_deinit_dangles :
  ('(_, d) ← dict_put dict_default_hash_fn (dict_init 1) key_a 7;
   '(d, freed) ← dict_deinit d;
   mret (freed, count d, members d)) = Ret ([0%nat], 0, [Some 0%nat]) /\
  ('(_, d) ← dict_put dict_default_hash_fn (dict_init 1) key_a 7;
   '(d, _) ← dict_deinit d;
   '(_, d) ← dict_put dict_default_hash_fn d key_abc 8;
   dict_get dict_default_hash_fn d [x62]) = Undefined.
Proof. split; vm_compute; reflexivity. Qed.
