(* ===== verification/Hashmap.v ===== *)
(** * The hash map of [src/base/c_hashmap.c]

    Buckets of linked pairs over the cells of [Chain], hashed with jump
    consistent hashing.  Keys and values are blocks of memory, [None] for a
    null pointer; the callbacks are functions on the bytes behind the pointers
    they are given, [None] when unset.  [calloc] succeeds. *)

From Stdlib Require Import Strings.Byte.
From S2P Require Import Prelude Bytes CString JumpHash Chain.

Definition hash_fn : Type := list byte -> Z -> outcome Z.
Definition cmp_fn : Type := list byte -> list byte -> Z -> outcome Z.

(** [key] and [val] of a pair; [next] is the link of its cell. *)
Abbreviation c_member_pair_t := (list byte * list byte)%type.

Record c_hashmap_t := Hashmap {
  max_count : Z;
  cur_count : Z;
  ptr : list (option nat);
  hash_cb : option hash_fn;
  cmp_cb : option cmp_fn;
  key_free_cb : bool;
  val_free_cb : bool;
  pairs : gmap nat (cell c_member_pair_t);
  unused : nat }.

(** [calloc(1, sizeof(c_hashmap_t))]. *)
Definition zero_map : c_hashmap_t := Hashmap 0 0 [] None None false false ∅ 0.

Definition set_table (d : c_hashmap_t) (n : Z) (ps : list (option nat)) (m : gmap nat (cell c_member_pair_t))
    (fresh : nat) : c_hashmap_t :=
  Hashmap (max_count d) n ps (hash_cb d) (cmp_cb d) (key_free_cb d) (val_free_cb d) m fresh.

(** Both copies read from [key], the second one [val_sz] bytes of it. *)
Definition c_member_pair_alloc (key : option (list byte)) (key_sz : Z) (val : option (list byte)) (val_sz : Z)
    : outcome (option c_member_pair_t) :=
  match key, val with
  | Some k, Some _ =>
      if (0 <? key_sz) && (0 <? val_sz) then
        kb ← load_bytes k 0 key_sz; vb ← load_bytes k 0 val_sz; mret (Some (kb, vb))
      else mret None
  | _, _ => mret None
  end.

Definition c_hashmap_get_index (d : c_hashmap_t) (key : option (list byte)) (key_sz : Z) : outcome nat :=
  cb ← from_option_undef (hash_cb d);
  k ← from_option_undef key;
  hash_key ← cb k key_sz;
  index ← c_hashmap_jump_consistent (u32 hash_key) (max_count d);
  mret (Z.to_nat (u32 index)).

(** [d->cmp_cb(tmp->key, key, key_sz) == 0]. *)
Definition pair_matches (d : c_hashmap_t) (key : option (list byte)) (key_sz : Z) (p : c_member_pair_t) : outcome bool :=
  cb ← from_option_undef (cmp_cb d);
  k ← from_option_undef key;
  r ← cb p.1 k key_sz;
  mret (r =? 0).

(** The loop of [c_hashmap_search] and of [c_hashmap_del]: the pair found and
    the one before it. *)
Definition search_bucket (d : c_hashmap_t) (index : nat) (key : option (list byte)) (key_sz : Z)
    : outcome (option nat * option nat) :=
  head ← from_option_undef (ptr d !! index);
  find_loop (pair_matches d key key_sz) (S (size (pairs d))) (pairs d) head None.

Definition c_hashmap_search (d : c_hashmap_t) (index : nat) (key : option (list byte)) (key_sz : Z)
    : outcome (option nat) :=
  '(dst, _) ← search_bucket d index key key_sz; mret dst.

Definition c_hashmap_set_free_cb (d : option c_hashmap_t) (key_free val_free : bool) : option c_hashmap_t :=
  match d with
  | None => None
  | Some d => Some (Hashmap (max_count d) (cur_count d) (ptr d) (hash_cb d) (cmp_cb d) key_free val_free
                      (pairs d) (unused d))
  end.

(** The blocks passed to the two callbacks. *)
Definition c_member_pair_free (d : c_hashmap_t) (p : c_member_pair_t) : list (list byte) :=
  (if key_free_cb d then [p.1] else []) ++ (if val_free_cb d then [p.2] else []).

(** [max_count] is left as it is. *)
Definition c_hashmap_init (d : option c_hashmap_t) (count : Z) (hash : option hash_fn) (cmp : option cmp_fn)
    : Z * option c_hashmap_t :=
  match d, hash, cmp with
  | Some d, Some _, Some _ =>
      if 0 <? count then
        (0, Some (Hashmap (max_count d) 0 (repeat None (Z.to_nat count)) hash cmp false false (pairs d) (unused d)))
      else (-1, Some d)
  | _, _, _ => (-1, d)
  end.

Definition c_hashmap_alloc (count : Z) (hash : option hash_fn) (cmp : option cmp_fn) : option c_hashmap_t :=
  match hash, cmp with
  | Some _, Some _ =>
      if 0 <? count then
        let '(r, d) := c_hashmap_init (Some zero_map) count hash cmp in
        if r =? 0 then d else None
      else None
  | _, _ => None
  end.

(** The pair's copies are dropped for two zeroed blocks of
    [sizeof(char * ) * key_sz] and [sizeof(char * ) * value_sz] bytes. *)
Definition c_hashmap_put (d : option c_hashmap_t) (key : option (list byte)) (key_sz : Z)
    (value : option (list byte)) (value_sz : Z) : outcome (Z * option c_hashmap_t) :=
  match d, key, value with
  | Some m, Some _, Some _ =>
      if (0 <? key_sz) && (0 <? value_sz) && (cur_count m <? max_count m) then
        let key_data := calloc (8 * key_sz)%u64 in
        let value_data := calloc (8 * value_sz)%u64 in
        pair ← c_member_pair_alloc key key_sz value value_sz;
        _ ← from_option_undef pair;
        index ← c_hashmap_get_index m key key_sz;
        head ← from_option_undef (ptr m !! index);
        let next := match head with None => None | Some _ => head end in
        mret (0, Some (set_table m (cur_count m + 1)%u64 (<[index := Some (unused m)]> (ptr m))
                         (<[unused m := Cell next (key_data, value_data)]> (pairs m)) (S (unused m))))
      else mret (-1, d)
  | _, _, _ => mret (-1, d)
  end.

(** The bytes behind the pointer answered. *)
Definition c_hashmap_get (d : option c_hashmap_t) (key : option (list byte)) (key_sz : Z) : outcome (option (list byte)) :=
  match d with
  | None => mret None
  | Some m =>
      if 0 <? cur_count m then
        index ← c_hashmap_get_index m key key_sz;
        head ← from_option_undef (ptr m !! index);
        match head with
        | None => mret None
        | Some _ =>
            dst ← c_hashmap_search m index key key_sz;
            match dst with
            | None => mret None
            | Some c => ce ← load_cell (pairs m) c; mret (Some (payload ce).2)
            end
        end
      else mret None
  end.

(** The result, the blocks passed to the free callbacks and the new state. *)
Definition c_hashmap_del (d : option c_hashmap_t) (key : option (list byte)) (key_sz : Z)
    : outcome (Z * list (list byte) * option c_hashmap_t) :=
  match d, key with
  | Some m, Some _ =>
      index ← c_hashmap_get_index m key key_sz;
      head ← from_option_undef (ptr m !! index);
      match head with
      | None => mret (0, [], d)
      | Some _ =>
          '(dst, prev) ← search_bucket m index key key_sz;
          match dst with
          | None => mret (0, [], d)
          | Some c =>
              ce ← load_cell (pairs m) c;
              '(ps, hp) ← unlink (ptr m) (pairs m) index prev c;
              mret (0, c_member_pair_free m (payload ce),
                    Some (set_table m (cur_count m - 1)%u64 ps hp (unused m)))
          end
      end
  | _, _ => mret (-1, [], d)
  end.

Fixpoint traverse_loop {B : Type} (cb : B -> c_member_pair_t -> B) (m : c_hashmap_t) (todo i : nat) (acc : B) : outcome B :=
  match todo with
  | O => mret acc
  | S todo =>
      head ← from_option_undef (ptr m !! i);
      acc ← walk cb (S (size (pairs m))) (pairs m) head acc;
      traverse_loop cb m todo (S i) acc
  end.

Definition c_hashmap_traverse {B : Type} (d : option c_hashmap_t) (cb : B -> c_member_pair_t -> B) (acc : B) : outcome (Z * B) :=
  match d with
  | None => mret (-1, acc)
  | Some m =>
      if 0 <? cur_count m then
        acc ← traverse_loop cb m (Z.to_nat (max_count m)) 0 acc; mret (0, acc)
      else mret (-1, acc)
  end.

(** [ptr] and [cur_count] keep their values. *)
Fixpoint deinit_loop (m : c_hashmap_t) (todo i : nat) : outcome (c_hashmap_t * list (list byte)) :=
  match todo with
  | O => mret (m, [])
  | S todo =>
      head ← from_option_undef (ptr m !! i);
      '(hp, l) ← free_chain (S (size (pairs m))) (pairs m) head;
      '(m, freed) ← deinit_loop (set_table m (cur_count m) (ptr m) hp (unused m)) todo (S i);
      mret (m, (l.*2 ≫= c_member_pair_free m) ++ freed)
  end.

Definition c_hashmap_deinit (d : option c_hashmap_t) : outcome (Z * list (list byte) * option c_hashmap_t) :=
  match d with
  | None => mret (-1, [], None)
  | Some m =>
      if 0 <? cur_count m then
        '(m, freed) ← deinit_loop m (Z.to_nat (max_count m)) 0; mret (0, freed, Some m)
      else mret (-1, [], d)
  end.

(** Whether the map itself is freed, and the blocks given to the callbacks. *)
Definition c_hashmap_destroy (d : option c_hashmap_t) : outcome (bool * list (list byte)) :=
  '(r, freed, _) ← c_hashmap_deinit d; mret (negb (r =? -1), freed).

Definition c_hashmap_count (d : option c_hashmap_t) : Z :=
  match d with Some m => cur_count m | None => u64 (-1) end.

Definition c_hashmap_empty (d : option c_hashmap_t) : outcome bool :=
  m ← from_option_undef d; mret (if cur_count m <=? 0 then false else true).

(** ** Invariant

    The callbacks return on the keys the caller uses ([key_ok]), compared with
    blocks of at least eight zeroes, the only ones a map ever holds. *)

Definition blank (p : c_member_pair_t) : Prop :=
  exists n m, p = (calloc n, calloc m) /\ 8 <= n.

Section Hashmap.
Context (hash : hash_fn) (cmp : cmp_fn) (key_ok : list byte -> Z -> Prop).
Hypothesis hash_returns : forall k n, key_ok k n -> exists h, hash k n = Ret h.
Hypothesis cmp_returns : forall m k n, 8 <= m -> key_ok k n -> exists r, cmp (calloc m) k n = Ret r.

(** [d] is well formed and its buckets hold the pairs of [ls].  Nothing relates
    [max_count] to the number of buckets but what the caller has stored there:
    it is 0 in a map made by [c_hashmap_alloc], whose keys then all go to
    bucket 1. *)
Record hm_ok (d : c_hashmap_t) (ls : list (list (nat * c_member_pair_t))) : Prop := {
  hm_chains : chains (ptr d) (pairs d) (unused d) ls;
  hm_cbs : hash_cb d = Some hash /\ cmp_cb d = Some cmp;
  hm_max : 0 <= max_count d <= Z.of_nat (length (ptr d)) /\ max_count d < 2 ^ 32;
  hm_buckets : max_count d = 0 -> (2 <= length (ptr d))%nat;
  hm_count : cur_count d = Z.of_nat (length (concat ls)) /\ cur_count d <= max_count d;
  hm_blank i l x : ls !! i = Some l -> x ∈ l -> blank x.2 }.

Definition matches (key : list byte) (key_sz : Z) (p : c_member_pair_t) : bool :=
  match cmp p.1 key key_sz with Ret r => r =? 0 | _ => false end.

Lemma index_in_range d ls key key_sz :
  hm_ok d ls -> key_ok key key_sz ->
  exists i, c_hashmap_get_index d (Some key) key_sz = Ret i /\ (i < length (ptr d))%nat.
Proof.
  intros O Hk. destruct (hm_cbs _ _ O) as [Hh _]. destruct (hm_max _ _ O) as [Hm Hm'].
  destruct (hash_returns _ _ Hk) as (h & Eh). unfold c_hashmap_get_index. rewrite Hh. cbn. rewrite Eh. cbn.
  destruct (decide (max_count d = 0)) as [E0|Hne].
  { pose proof (hm_buckets _ _ O E0). rewrite E0. exists 1%nat. split; [reflexivity|lia]. }
  destruct (jump_total (max_count d) (fun j => u64 j <? max_count d) (u32 h)) as (r & E & Hr); [lia| |].
  { intros j Hj. by rewrite u64_small by lia. }
  unfold c_hashmap_jump_consistent. rewrite E. cbn.
  rewrite jump_value_nonneg, u64_small, u32_small by lia. exists (Z.to_nat r). split; [done|lia].
Qed.

Lemma matches_spec d ls i l c p key key_sz :
  hm_ok d ls -> ls !! i = Some l -> (c, p) ∈ l -> key_ok key key_sz ->
  pair_matches d (Some key) key_sz p = Ret (matches key key_sz p).
Proof.
  intros O Hl Hin Hk. destruct (hm_cbs _ _ O) as [_ Hc].
  destruct (hm_blank _ _ O _ _ _ Hl Hin) as (n & m & E & Hn). cbn in E. subst p.
  unfold pair_matches, matches. rewrite Hc. cbn.
  by destruct (cmp_returns n key key_sz Hn Hk) as (r & ->).
Qed.

Lemma search_spec d ls i l key key_sz :
  hm_ok d ls -> ls !! i = Some l -> key_ok key key_sz ->
  exists r, search_bucket d i (Some key) key_sz = Ret r /\ found (matches key key_sz) l None r.
Proof.
  intros O Hl Hk. pose proof (hm_chains _ _ O) as C. apply lookup_lt_Some in Hl as Hi.
  rewrite (ch_length _ _ _ _ C) in Hi.
  destruct (chains_bucket _ _ _ _ _ C Hi) as (p & l' & Hp & Hl' & Hs). rewrite Hl in Hl'. injection Hl' as <-.
  unfold search_bucket. rewrite Hp. cbn [from_option_undef mbind outcome_bind].
  apply find_spec; [|done|].
  - intros c a Hin. by eapply matches_spec.
  - pose proof (chains_rounds _ _ _ _ _ _ C Hi Hl). lia.
Qed.

(** The head of a bucket, and whether the bucket is empty. *)
Lemma head_spec d ls i :
  hm_ok d ls -> (i < length (ptr d))%nat ->
  exists p l, ptr d !! i = Some p /\ ls !! i = Some l /\ (p = None -> l = []).
Proof.
  intros O Hi.
  destruct (chains_bucket _ _ _ _ i (hm_chains _ _ O)) as (p & l & Hp & Hl & Hs); [lia|].
  exists p, l. split; [done|]. split; [done|]. intros ->. destruct l as [|[c a] l]; [done|].
  cbn in Hs. by destruct Hs.
Qed.

Lemma concat_push {X} (ls : list (list X)) i l x :
  ls !! i = Some l -> length (concat (<[i := x :: l]> ls)) = S (length (concat ls)).
Proof.
  revert i. induction ls as [|l' ls IH]; intros [|i] H; simplify_eq/=; [done|].
  rewrite !length_app, IH by done. lia.
Qed.

Lemma concat_unlink {X} (ls : list (list X)) i l1 x l2 :
  ls !! i = Some (l1 ++ x :: l2) -> length (concat ls) = S (length (concat (<[i := l1 ++ l2]> ls))).
Proof.
  revert i. induction ls as [|l' ls IH]; intros [|i] H; simplify_eq/=; rewrite !length_app.
  - cbn. lia.
  - rewrite (IH i) by done. lia.
Qed.

(** ** The operations *)

Definition put_ok (key : list byte) (key_sz : Z) (value_sz : Z) : Prop :=
  key_ok key key_sz /\ key_sz <= Z.of_nat (length key) /\ value_sz <= Z.of_nat (length key) /\
  Z.of_nat (length key) < 2 ^ 61.

Lemma pair_alloc_ok key key_sz value value_sz :
  0 < key_sz -> 0 < value_sz -> put_ok key key_sz value_sz ->
  exists p, c_member_pair_alloc (Some key) key_sz (Some value) value_sz = Ret (Some p).
Proof.
  intros Hk Hv (_ & ? & ? & _). unfold c_member_pair_alloc, load_bytes.
  rewrite !(proj2 (Z.ltb_lt _ _)) by lia. rewrite !(proj2 (Z.leb_le _ _)) by lia. cbn. eauto.
Qed.

Lemma put_spec d ls key key_sz value value_sz :
  hm_ok d ls -> put_ok key key_sz value_sz ->
  if (0 <? key_sz) && (0 <? value_sz) && (cur_count d <? max_count d) then
    exists i l d', c_hashmap_get_index d (Some key) key_sz = Ret i /\ ls !! i = Some l /\
      c_hashmap_put (Some d) (Some key) key_sz (Some value) value_sz = Ret (0, Some d') /\
      hm_ok d' (<[i := (unused d, (calloc (8 * key_sz), calloc (8 * value_sz))) :: l]> ls) /\
      max_count d' = max_count d
  else c_hashmap_put (Some d) (Some key) key_sz (Some value) value_sz = Ret (-1, Some d).
Proof.
  intros O Hok. unfold c_hashmap_put.
  destruct ((0 <? key_sz) && (0 <? value_sz) && (cur_count d <? max_count d)) eqn:E; [|done].
  rewrite !andb_true_iff, !Z.ltb_lt in E. destruct E as [[Hks Hvs] Hc].
  destruct (pair_alloc_ok key key_sz value value_sz Hks Hvs Hok) as (p & ->).
  destruct Hok as (Hk & Hlen & Hlen' & Hlen'').
  destruct (index_in_range _ _ _ _ O Hk) as (i & Hi & Hlt).
  destruct (head_spec _ _ _ O Hlt) as (q & l & Hq & Hl & _).
  exists i, l. eexists. split; [done|]. split; [done|].
  cbn [mbind outcome_bind from_option_undef]. rewrite Hi. cbn [mbind outcome_bind]. rewrite Hq. cbn.
  split; [done|]. split; [|done].
  replace (match q with Some _ => q | None => None end) with q by (by destruct q).
  unfold wmul, wadd. fold (u64 (8 * key_sz)) (u64 (8 * value_sz)) (u64 (cur_count d + 1)).
  destruct (hm_max _ _ O), (hm_count _ _ O). rewrite !u64_small by lia.
  split; cbn [set_table max_count cur_count ptr hash_cb cmp_cb pairs unused].
  - by apply chains_push; [apply O| |].
  - apply O.
  - by rewrite length_insert.
  - rewrite length_insert. apply O.
  - rewrite (concat_push _ _ _ _ Hl). lia.
  - intros j l' x Hj Hin. destruct (decide (i = j)) as [<-|].
    + rewrite list_lookup_insert_eq in Hj by (by eapply lookup_lt_Some). injection Hj as <-.
      apply elem_of_cons in Hin as [->|Hin]; [|by eapply (hm_blank _ _ O)].
      exists (8 * key_sz), (8 * value_sz). split; [done|lia].
    + rewrite list_lookup_insert_ne in Hj by done. by eapply (hm_blank _ _ O).
Qed.

(** Nothing but a zeroed block ever comes back. *)
Lemma get_spec d ls key key_sz :
  hm_ok d ls -> key_ok key key_sz ->
  exists r, c_hashmap_get (Some d) (Some key) key_sz = Ret r /\
    match r with None => True | Some v => Forall (eq x00) v end.
Proof.
  intros O Hk. unfold c_hashmap_get. destruct (Z.ltb_spec 0 (cur_count d)); [|by exists None].
  destruct (index_in_range _ _ _ _ O Hk) as (i & -> & Hlt).
  destruct (head_spec _ _ _ O Hlt) as (q & l & Hq & Hl & He). cbn. rewrite Hq. cbn.
  destruct q as [q|]; [|by exists None].
  unfold c_hashmap_search. destruct (search_spec _ _ _ _ _ _ O Hl Hk) as ([[c|] pv] & -> & Hf).
  - cbn in Hf |- *. destruct Hf as (l1 & p & l2 & -> & _ & _ & _).
    destruct (hm_max _ _ O).
    destruct (chains_bucket _ _ _ _ i (hm_chains _ _ O)) as (q' & l' & _ & Hl' & Hs); [lia|].
    rewrite Hl in Hl'. injection Hl' as <-. apply seg_app in Hs as (nx & Hc & _).
    unfold load_cell. rewrite Hc. cbn. eexists. split; [done|]. cbn.
    destruct (hm_blank _ _ O _ _ (c, p) Hl) as (n & m & E & _); [apply elem_of_app; right; left|].
    cbn in E. subst p. apply Forall_forall. intros x Hx%list_elem_of_In%repeat_spec. done.
  - by exists None.
Qed.

Lemma del_spec d ls key key_sz :
  hm_ok d ls -> key_ok key key_sz ->
  exists i l, c_hashmap_get_index d (Some key) key_sz = Ret i /\ ls !! i = Some l /\
    match List.find (fun x => matches key key_sz x.2) l with
    | None => c_hashmap_del (Some d) (Some key) key_sz = Ret (0, [], Some d)
    | Some x => exists l1 l2 d', l = l1 ++ x :: l2 /\
        c_hashmap_del (Some d) (Some key) key_sz = Ret (0, c_member_pair_free d x.2, Some d') /\
        hm_ok d' (<[i := l1 ++ l2]> ls) /\ max_count d' = max_count d
    end.
Proof.
  intros O Hk. destruct (index_in_range _ _ _ _ O Hk) as (i & Hi & Hlt).
  destruct (head_spec _ _ _ O Hlt) as (q & l & Hq & Hl & He). exists i, l.
  split; [done|]. split; [done|]. unfold c_hashmap_del. rewrite Hi. cbn. rewrite Hq. cbn.
  destruct q as [q|]; [|by rewrite He].
  destruct (search_spec _ _ _ _ _ _ O Hl Hk) as ([[c|] pv] & -> & Hf).
  - pose proof (found_find _ _ _ _ Hf) as Hff. destruct Hf as (l1 & p & l2 & -> & Hm & Hl1 & Hpv).
    cbn in Hpv, Hff |- *. subst pv.
    assert (List.find (fun x => matches key key_sz x.2) (l1 ++ (c, p) :: l2) = Some (c, p)) as ->.
    { clear -Hm Hl1. induction Hl1 as [|x l1 Hx Hl1 IH]; cbn; [by rewrite Hm|by rewrite Hx]. }
    exists l1, l2. destruct (chains_unlink _ _ _ _ _ _ _ _ _ (hm_chains _ _ O) Hl) as (b' & m' & Hu & C' & Hb & _).
    destruct (hm_max _ _ O), (hm_count _ _ O) as [Hn Hn'].
    destruct (chains_bucket _ _ _ _ i (hm_chains _ _ O)) as (q' & l' & _ & Hl' & Hs); [lia|].
    rewrite Hl in Hl'. injection Hl' as <-. apply seg_app in Hs as (nx & Hc & _).
    unfold load_cell. rewrite Hc. cbn. rewrite Hu. cbn. eexists. split; [done|]. split; [done|].
    split; [|done]. pose proof (concat_unlink _ _ _ _ _ Hl) as Hcu.
    split; cbn [set_table max_count cur_count ptr hash_cb cmp_cb pairs unused].
    + done.
    + apply O.
    + by rewrite Hb.
    + rewrite Hb. apply O.
    + unfold wsub. fold (u64 (cur_count d - 1)). rewrite u64_small by lia. lia.
    + intros j l' x Hj Hin. destruct (decide (i = j)) as [<-|].
      * rewrite list_lookup_insert_eq in Hj by (by eapply lookup_lt_Some). injection Hj as <-.
        eapply (hm_blank _ _ O); [exact Hl|]. rewrite elem_of_app in *. rewrite elem_of_cons. tauto.
      * rewrite list_lookup_insert_ne in Hj by done. by eapply (hm_blank _ _ O).
  - pose proof (found_find _ _ _ _ Hf) as Hff. cbn in Hff |- *.
    by destruct (List.find _ l).
Qed.

(** ** Sequences of operations *)

Inductive op :=
  | OpPut (key : list byte) (key_sz : Z) (value : list byte) (value_sz : Z)
  | OpDel (key : list byte) (key_sz : Z)
  | OpSetFree (key_free val_free : bool).

Definition op_ok (o : op) : Prop :=
  match o with
  | OpPut key key_sz _ value_sz => put_ok key key_sz value_sz
  | OpDel key key_sz => key_ok key key_sz
  | OpSetFree _ _ => True
  end.

Definition run_op (d : option c_hashmap_t) (o : op) : outcome (option c_hashmap_t) :=
  match o with
  | OpPut key key_sz value value_sz =>
      '(_, d) ← c_hashmap_put d (Some key) key_sz (Some value) value_sz; mret d
  | OpDel key key_sz => '(_, _, d) ← c_hashmap_del d (Some key) key_sz; mret d
  | OpSetFree k v => mret (c_hashmap_set_free_cb d k v)
  end.

Fixpoint run (d : option c_hashmap_t) (ops : list op) : outcome (option c_hashmap_t) :=
  match ops with [] => mret d | o :: ops => d ← run_op d o; run d ops end.

Lemma run_op_spec d ls o :
  hm_ok d ls -> op_ok o ->
  exists d' ls', run_op (Some d) o = Ret (Some d') /\ hm_ok d' ls' /\ max_count d' = max_count d.
Proof.
  intros O Ho. destruct o as [key ksz value vsz|key ksz|k v]; cbn [run_op op_ok] in *.
  - pose proof (put_spec d ls key ksz value vsz O Ho) as H.
    destruct ((0 <? ksz) && (0 <? vsz) && (cur_count d <? max_count d)).
    + destruct H as (i & l & d' & _ & _ & -> & O' & Hm). cbn. eauto.
    + rewrite H. cbn. eauto.
  - destruct (del_spec d ls key ksz O Ho) as (i & l & _ & _ & H). destruct (List.find _ l).
    + destruct H as (l1 & l2 & d' & _ & -> & O' & Hm). cbn. eauto.
    + rewrite H. cbn. eauto.
  - exists (Hashmap (max_count d) (cur_count d) (ptr d) (hash_cb d) (cmp_cb d) k v (pairs d) (unused d)), ls.
    split; [done|]. split; [|done]. destruct O. by split.
Qed.

Lemma run_spec d ls ops :
  hm_ok d ls -> Forall op_ok ops ->
  exists d' ls', run (Some d) ops = Ret (Some d') /\ hm_ok d' ls' /\ max_count d' = max_count d.
Proof.
  intros O Hops. revert d ls O. induction Hops as [|o ops Ho Hops IH]; intros d ls O; cbn; [eauto|].
  destruct (run_op_spec d ls o O Ho) as (d' & ls' & -> & O' & Hm). cbn.
  destruct (IH d' ls' O') as (d2 & ls2 & -> & O2 & Hm2). exists d2, ls2. by rewrite Hm2.
Qed.

(** A structure to initialise: what [c_hashmap_init] relies on and does not set.
    [zero_map], which [c_hashmap_alloc] hands it, is one for two buckets or
    more. *)
Definition initialisable (d0 : c_hashmap_t) (n : Z) : Prop :=
  pairs d0 = ∅ /\ 0 <= max_count d0 <= n /\ (max_count d0 = 0 -> 2 <= n).

Lemma init_ok n d0 d :
  0 < n < 2 ^ 32 -> initialisable d0 n -> c_hashmap_init (Some d0) n (Some hash) (Some cmp) = (0, Some d) ->
  hm_ok d (repeat [] (Z.to_nat n)) /\ max_count d = max_count d0.
Proof.
  intros Hn (Hp & Hm & H2). unfold c_hashmap_init. rewrite (proj2 (Z.ltb_lt _ _)) by lia. intros [= <-]. split; [|done].
  assert (concat (repeat (@nil (nat * c_member_pair_t)) (Z.to_nat n)) = []) as E
    by (generalize (Z.to_nat n) as k; induction k; done).
  assert (forall i l, repeat (@nil (nat * c_member_pair_t)) (Z.to_nat n) !! i = Some l -> l = []) as Hnil.
  { intros i l H. by apply list_elem_of_lookup_2, list_elem_of_In, repeat_spec in H. }
  split; cbn [max_count cur_count ptr hash_cb cmp_cb pairs unused]; rewrite ?repeat_length.
  - split.
    + by rewrite !repeat_length.
    + intros i p l Hq ->%Hnil. by apply list_elem_of_lookup_2, list_elem_of_In, repeat_spec in Hq.
    + intros i l ->%Hnil. constructor.
    + intros i j l l' c ->%Hnil _ Hc. inversion Hc.
    + intros c [? H]. by rewrite Hp, lookup_empty in H.
  - done.
  - lia.
  - intros E0. specialize (H2 E0). lia.
  - rewrite E. cbn. lia.
  - intros i l x ->%Hnil Hx. inversion Hx.
Qed.

End Hashmap.

(** ** Traversal and destruction *)

Section Deinit.
Context (hash : hash_fn) (cmp : cmp_fn).

Lemma traverse_spec {B : Type} (cb : B -> c_member_pair_t -> B) d ls todo i acc :
  hm_ok hash cmp d ls -> (i + todo = length ls)%nat ->
  traverse_loop cb d todo i acc = Ret (fold_left cb (concat (drop i ls)).*2 acc).
Proof.
  intros O. revert i acc. induction todo as [|todo IH]; intros i acc Hi; cbn [traverse_loop].
  - rewrite drop_ge by lia. done.
  - pose proof (ch_length _ _ _ _ (hm_chains _ _ _ _ O)) as Hlen.
    destruct (chains_bucket _ _ _ _ i (hm_chains _ _ _ _ O)) as (p & l & Hp & Hl & Hs); [lia|].
    rewrite Hp. cbn [from_option_undef mbind outcome_bind].
    pose proof (chains_rounds _ _ _ _ i l (hm_chains _ _ _ _ O) ltac:(lia) Hl).
    rewrite (walk_spec _ _ _ l) by (done || lia). cbn [mbind outcome_bind].
    rewrite IH by lia. rewrite (drop_S _ _ _ Hl). cbn [concat]. by rewrite fmap_app, fold_left_app.
Qed.

(** The buckets from [i] on are still in the heap. *)
Record remaining (d : c_hashmap_t) (ls : list (list (nat * c_member_pair_t))) (i : nat) : Prop := {
  rem_length : length ls = length (ptr d);
  rem_seg j p l : (i <= j)%nat -> ptr d !! j = Some p -> ls !! j = Some l -> seg (pairs d) p l;
  rem_nodup j l : ls !! j = Some l -> NoDup l.*1;
  rem_disjoint j k l l' c : ls !! j = Some l -> ls !! k = Some l' -> c ∈ l.*1 -> c ∈ l'.*1 -> j = k }.

Lemma remaining_rounds d ls i p l :
  remaining d ls i -> ptr d !! i = Some p -> ls !! i = Some l -> (length l <= size (pairs d))%nat.
Proof.
  intros R Hp Hl. pose proof (rem_seg _ _ _ R i p l ltac:(lia) Hp Hl) as Hs.
  rewrite <- (length_fmap fst l), <- size_dom.
  rewrite <- (size_list_to_set (C := gset nat) l.*1) by (by eapply rem_nodup).
  apply subseteq_size. intros x Hx. apply elem_of_dom. eapply seg_dom; [done|]. set_solver.
Qed.

Lemma deinit_loop_spec d ls todo i :
  remaining d ls i -> (i + todo = length ls)%nat ->
  exists d', deinit_loop d todo i = Ret (d', (concat (drop i ls)).*2 ≫= c_member_pair_free d) /\
    (forall c, pairs d' !! c = if decide (c ∈ (concat (drop i ls)).*1) then None else pairs d !! c) /\
    key_free_cb d' = key_free_cb d /\ val_free_cb d' = val_free_cb d.
Proof.
  revert d i. induction todo as [|todo IH]; intros d i R Hi; cbn [deinit_loop].
  { rewrite drop_ge by lia. exists d. split; [done|]. split; [|done]. intros c. rewrite decide_False; [done|].
    intros H. inversion H. }
  destruct (lookup_lt_is_Some_2 ls i) as [l Hl]; [lia|].
  destruct (lookup_lt_is_Some_2 (ptr d) i) as [p Hp]; [rewrite <- (rem_length _ _ _ R); lia|].
  rewrite Hp. cbn [from_option_undef mbind outcome_bind].
  pose proof (remaining_rounds _ _ _ _ _ R Hp Hl) as Hr.
  destruct (free_chain_spec (pairs d) p l (S (size (pairs d)))) as (hp & Hf & Hhp);
    [eapply rem_seg; eauto|by eapply rem_nodup|lia|].
  rewrite Hf. cbn [mbind outcome_bind].
  destruct (IH (set_table d (cur_count d) (ptr d) hp (unused d)) (S i)) as (d' & -> & Hd' & Hk & Hv); [|lia|].
  { split; cbn.
    - apply R.
    - intros j q l' Hj Hq Hl'. eapply seg_ext; [|apply (rem_seg _ _ _ R j q l'); [lia|done|done]].
      intros c Hc. rewrite Hhp. rewrite decide_False; [done|]. intros Hc'.
      pose proof (rem_disjoint _ _ _ R _ _ _ _ _ Hl Hl' Hc' Hc). lia.
    - apply R.
    - apply R. }
  cbn [mbind outcome_bind]. exists d'. rewrite (drop_S _ _ _ Hl). cbn [concat].
  rewrite !fmap_app, bind_app. cbn in Hk, Hv. split; [|split; [|done]].
  - unfold c_member_pair_free in *. cbn in *. by rewrite Hk, Hv.
  - intros c. rewrite Hd'. cbn. rewrite Hhp.
    pose proof (elem_of_app l.*1 (concat (drop (S i) ls)).*1 c) as Happ.
    repeat case_decide; tauto || done.
Qed.

Lemma ok_remaining d ls : hm_ok hash cmp d ls -> remaining d ls 0.
Proof.
  intros O. pose proof (hm_chains _ _ _ _ O) as C.
  split; [apply C|intros; by eapply (ch_seg _ _ _ _ C)|apply C|apply C].
Qed.
End Deinit.

(** ** Properties *)

Lemma fresh_map_rejects n hash cmp d key key_sz value value_sz h :
  c_hashmap_alloc n (Some hash) (Some cmp) = Some d -> hash key key_sz = Ret h ->
  c_hashmap_put (Some d) (Some key) key_sz (Some value) value_sz = Ret (-1, Some d) /\
  c_hashmap_get (Some d) (Some key) key_sz = Ret None /\
  c_hashmap_del (Some d) (Some key) key_sz = (if n =? 1 then Undefined else Ret (0, [], Some d)) /\
  c_hashmap_destroy (Some d) = Ret (false, []).
Proof.
  unfold c_hashmap_alloc, c_hashmap_init. destruct (Z.ltb_spec 0 n); [|done]. intros [= <-] Hh.
  split; [|split; [|split]]; try reflexivity.
  - cbn. by rewrite andb_false_r.
  - unfold c_hashmap_del, c_hashmap_get_index. cbn. rewrite Hh. cbn.
    change (u32 (u64 (jump_value (-1)))) with 1.
    destruct (Z.eqb_spec n 1) as [->|Hn]; [reflexivity|].
    assert (exists m, Z.to_nat n = S (S m)) as [m ->] by (exists (Z.to_nat n - 2)%nat; lia).
    reflexivity.
Qed.

(** a map made by [c_hashmap_alloc] can never hold anything: its [max_count]
    stays 0, so [c_hashmap_put] answers -1 and [c_hashmap_get] NULL for every
    key, [c_hashmap_destroy] does not free it, and [c_hashmap_del] looks into
    bucket 1, which a map of one bucket does not have. *)
Theorem hashmap_alloc_rejects n hash cmp d key key_sz value value_sz h :
  c_hashmap_alloc n (Some hash) (Some cmp) = Some d -> hash key key_sz = Ret h ->
  c_hashmap_put (Some d) (Some key) key_sz (Some value) value_sz = Ret (-1, Some d) /\
  c_hashmap_get (Some d) (Some key) key_sz = Ret None /\
  c_hashmap_del (Some d) (Some key) key_sz = (if n =? 1 then Undefined else Ret (0, [], Some d)) /\
  c_hashmap_destroy (Some d) = Ret (false, []).
Proof. apply fresh_map_rejects. Qed.

(** C35: a map after any puts and deletions, whose callbacks can read the keys --
    one made by [c_hashmap_alloc] with two buckets or more, or a structure of the
    caller's given to [c_hashmap_init] with some [max_count] of at most the
    number of buckets.  The value of a put is not longer than the memory behind
    its key, from which it is copied ([put_reads_past_key]).  No operation leaves the table; [max_count] is what it
    was ([0] after [c_hashmap_alloc], so that such a map holds nothing); the
    chains are well formed, [cur_count] is exactly the number of pairs on them
    and at most [max_count], and the key and the value of every pair are
    zeroes ([hm_ok]).  From there a put with room adds one pair to the bucket of
    its key, a deletion removes the first pair there that compares equal or
    changes nothing, and [c_hashmap_get] of any key answers NULL or zeroes. *)
Theorem hashmap_keeps_no_data hash cmp (key_ok : list byte -> Z -> Prop) n d0 d ops :
  (forall k m, key_ok k m -> exists h, hash k m = Ret h) ->
  (forall m k sz, 8 <= m -> key_ok k sz -> exists r, cmp (calloc m) k sz = Ret r) ->
  0 < n < 2 ^ 32 -> initialisable d0 n -> c_hashmap_init (Some d0) n (Some hash) (Some cmp) = (0, Some d) ->
  Forall (op_ok key_ok) ops ->
  exists d' ls, run (Some d) ops = Ret (Some d') /\ hm_ok hash cmp d' ls /\ max_count d' = max_count d0 /\
    forall key key_sz, key_ok key key_sz -> exists i l,
      c_hashmap_get_index d' (Some key) key_sz = Ret i /\ ls !! i = Some l /\
      (exists r, c_hashmap_get (Some d') (Some key) key_sz = Ret r /\
         match r with None => True | Some v => Forall (eq x00) v end) /\
      match List.find (fun x => matches cmp key key_sz x.2) l with
      | None => c_hashmap_del (Some d') (Some key) key_sz = Ret (0, [], Some d')
      | Some x => exists l1 l2 d2, l = l1 ++ x :: l2 /\
          c_hashmap_del (Some d') (Some key) key_sz = Ret (0, c_member_pair_free d' x.2, Some d2) /\
          hm_ok hash cmp d2 (<[i := l1 ++ l2]> ls)
      end /\
      forall value value_sz, put_ok key_ok key key_sz value_sz ->
        if (0 <? key_sz) && (0 <? value_sz) && (cur_count d' <? max_count d0) then
          exists c v d2, c_hashmap_put (Some d') (Some key) key_sz (Some value) value_sz = Ret (0, Some d2) /\
            hm_ok hash cmp d2 (<[i := (c, v) :: l]> ls)
        else c_hashmap_put (Some d') (Some key) key_sz (Some value) value_sz = Ret (-1, Some d').
Proof.
  intros Hh Hc Hn H0 Hi Hops. destruct (init_ok hash cmp n d0 d Hn H0 Hi) as [O Hm].
  destruct (run_spec hash cmp key_ok Hh Hc d _ ops O Hops) as (d' & ls & Hr & O' & Hm'). rewrite Hm in Hm'.
  exists d', ls. split; [done|]. split; [done|]. split; [done|]. intros key key_sz Hk.
  destruct (del_spec hash cmp key_ok Hh Hc d' ls key key_sz O' Hk) as (i & l & Hix & Hl & Hdel). exists i, l.
  split; [done|]. split; [done|]. split; [by apply (get_spec hash cmp key_ok Hh Hc d' ls)|]. split.
  - destruct (List.find _ l); [|done]. destruct Hdel as (l1 & l2 & d2 & -> & E & O2 & _). by exists l1, l2, d2.
  - intros value value_sz Hp. pose proof (put_spec hash cmp key_ok Hh d' ls key key_sz value value_sz O' Hp) as Hput.
    rewrite Hm' in Hput. destruct ((0 <? key_sz) && _ && _); [|done].
    destruct Hput as (i' & l' & d2 & Hix' & Hl' & E & O2 & _). assert (i' = i) as -> by congruence.
    assert (l' = l) as -> by congruence. by exists (unused d'), (calloc (8 * key_sz), calloc (8 * value_sz)), d2.
Qed.

(** [c_hashmap_deinit] of a map in use frees every pair exactly once and hands
    its blocks to the callbacks in bucket order, the order in which
    [c_hashmap_traverse] shows them; of an empty map it answers -1, and
    [c_hashmap_destroy] then keeps the map itself. *)
Theorem hashmap_deinit_frees hash cmp d ls :
  hm_ok hash cmp d ls -> max_count d = Z.of_nat (length (ptr d)) ->
  if cur_count d =? 0 then c_hashmap_destroy (Some d) = Ret (false, [])
  else exists d', c_hashmap_deinit (Some d) = Ret (0, (concat ls).*2 ≫= c_member_pair_free d, Some d') /\
    (forall c, pairs d' !! c = if decide (c ∈ (concat ls).*1) then None else pairs d !! c) /\
    forall {B : Type} (cb : B -> c_member_pair_t -> B) acc,
      c_hashmap_traverse (Some d) cb acc = Ret (0, fold_left cb (concat ls).*2 acc).
Proof.
  intros O Hmax. pose proof (hm_chains _ _ _ _ O) as C. pose proof (ch_length _ _ _ _ C) as Hlen.
  destruct (hm_count _ _ _ _ O) as [Hn _].
  unfold c_hashmap_destroy, c_hashmap_deinit, c_hashmap_traverse.
  destruct (Z.eqb_spec (cur_count d) 0) as [->|Hz]; [reflexivity|].
  rewrite (proj2 (Z.ltb_lt _ _)) by lia.
  destruct (deinit_loop_spec d ls (Z.to_nat (max_count d)) 0) as (d' & -> & Hd' & _);
    [by eapply ok_remaining|lia|].
  rewrite drop_0 in *. exists d'. split; [done|]. split; [done|]. intros B cb acc.
  rewrite (traverse_spec hash cmp cb d ls) by (done || lia). by rewrite drop_0.
Qed.

(** The value is copied out of the key: more bytes of value than the key's block
    has are a read past that block. *)
Lemma put_reads_past_key d key key_sz value value_sz :
  0 < key_sz <= Z.of_nat (length key) -> Z.of_nat (length key) < value_sz -> cur_count d < max_count d ->
  c_hashmap_put (Some d) (Some key) key_sz (Some value) value_sz = Undefined.
Proof.
  intros. unfold c_hashmap_put, c_member_pair_alloc, load_bytes.
  rewrite !(proj2 (Z.ltb_lt _ _)) by lia. cbn.
  rewrite (proj2 (Z.leb_gt (0 + value_sz) _)), !(proj2 (Z.leb_le _ _)) by lia. reflexivity.
Qed.

(** [c_hashmap_empty] answers the opposite of its name. *)
Lemma empty_inverted d : c_hashmap_empty (Some d) = Ret (negb (cur_count d <=? 0)).
Proof. unfold c_hashmap_empty. cbn. by destruct (cur_count d <=? 0). Qed.

(** ** Witnesses *)

Definition sample_hash : hash_fn := fun k n => l ← load_bytes k 0 n; mret (le_decode l).
Definition sample_cmp : cmp_fn := fun a b n => x ← load_le a 0 1; y ← load_le b 0 1; mret (x - y).
Definition sample_key_ok (k : list byte) (n : Z) : Prop := 0 < n <= Z.of_nat (length k).

Lemma sample_hash_returns k n : sample_key_ok k n -> exists h, sample_hash k n = Ret h.
Proof.
  intros [? ?]. unfold sample_hash, load_bytes. rewrite !(proj2 (Z.leb_le _ _)) by lia. cbn. eauto.
Qed.

Lemma sample_cmp_returns m k n : 8 <= m -> sample_key_ok k n -> exists r, sample_cmp (calloc m) k n = Ret r.
Proof.
  intros ? [? ?]. unfold sample_cmp, load_le, load_bytes, calloc.
  rewrite repeat_length. rewrite !(proj2 (Z.leb_le _ _)) by lia. cbn. eauto.
Qed.

Definition sample_map : c_hashmap_t :=
  Hashmap 4 0 (repeat None 4) (Some sample_hash) (Some sample_cmp) false false ∅ 0.

Lemma hashmap_alloc_rejects_witness :
  exists d, c_hashmap_alloc 10 (Some sample_hash) (Some sample_cmp) = Some d /\
    c_hashmap_put (Some d) (Some [x61]) 1 (Some [x62]) 1 = Ret (-1, Some d).
Proof.
  eexists. split; [reflexivity|].
  refine (proj1 (hashmap_alloc_rejects 10 sample_hash sample_cmp _ [x61] 1 [x62] 1 97 _ _)); reflexivity.
Defined.

Definition sample_ops : list op := [OpPut [x61; x62] 2 [x63] 1; OpPut [x00] 1 [x63] 1; OpDel [x61] 1].

(** A map of the caller's, and one made by [c_hashmap_alloc]. *)
Definition prepared : c_hashmap_t := Hashmap 4 0 [] None None false false ∅ 0.

Lemma hashmap_keeps_no_data_witness :
  (exists d, run (Some sample_map) sample_ops = Ret (Some d) /\ max_count d = 4) /\
  exists d0 d ls, c_hashmap_alloc 10 (Some sample_hash) (Some sample_cmp) = Some d0 /\
    run (Some d0) sample_ops = Ret (Some d) /\ hm_ok sample_hash sample_cmp d ls.
Proof.
  assert (Forall (op_ok sample_key_ok) sample_ops) as Hops by (repeat constructor; cbn; unfold sample_key_ok; cbn; lia).
  split.
  - destruct (hashmap_keeps_no_data sample_hash sample_cmp sample_key_ok 4 prepared sample_map sample_ops
      sample_hash_returns sample_cmp_returns) as (d & ls & Hr & _ & Hm & _);
      [lia|split; [reflexivity|cbn; lia]|reflexivity|exact Hops|exact (ex_intro _ d (conj Hr Hm))].
  - destruct (hashmap_keeps_no_data sample_hash sample_cmp sample_key_ok 10 zero_map
      (set_table (Hashmap 0 0 (repeat None 10) (Some sample_hash) (Some sample_cmp) false false ∅ 0) 0 (repeat None 10) ∅ 0)
      sample_ops sample_hash_returns sample_cmp_returns) as (d & ls & Hr & O & _);
      [lia|split; [reflexivity|cbn; lia]|reflexivity|exact Hops|].
    eexists _, d, ls. split; [reflexivity|]. split; [exact Hr|exact O].
Defined.

Lemma hashmap_deinit_frees_witness :
  exists d, c_hashmap_put (Some sample_map) (Some [x61; x62]) 2 (Some [x63]) 1 = Ret (0, Some d) /\
    exists d', c_hashmap_deinit (Some d) = Ret (0, [], Some d').
Proof.
  destruct (init_ok sample_hash sample_cmp 4 prepared sample_map) as [O _]; [lia|split; [reflexivity|cbn; lia]|reflexivity|].
  pose proof (put_spec sample_hash sample_cmp sample_key_ok sample_hash_returns sample_map _
    [x61; x62] 2 [x63] 1 O) as Hp.
  destruct Hp as (i & l & d & Hi & Hl & Hput & O' & Hm).
  { repeat split; cbn; lia. }
  exists d. split; [exact Hput|]. vm_compute in Hput. injection Hput as <-.
  pose proof (hashmap_deinit_frees _ _ _ _ O' eq_refl) as (d' & Hd' & _).
  exists d'. rewrite Hd'. vm_compute in Hi. injection Hi as <-. vm_compute in Hl. injection Hl as <-. reflexivity.
Defined.
