(* ===== verification/Wt.v ===== *)
(** * The WiredTiger interface

    WiredTiger is not part of the repository.  [WiredTiger] lists the calls
    [src/metaserver/kv_db.c] makes on an abstract state of the library, and
    [WiredTigerSpec] what the code relies on, in terms of a view of that state:
    tables of ordered key/value pairs and cursors over them.  A call may fail
    with any non-zero result.  [Mem] is an instance kept in memory. *)

From Stdlib Require Import Strings.Byte.
From S2P Require Import Prelude Bytes.

Abbreviation uri := (list byte).
Abbreviation item := (list byte).

Class WiredTiger (W : Type) := {
  open_session : W -> Z * nat * W;
  session_create : W -> nat -> uri -> Z * W;
  session_drop : W -> nat -> uri -> Z * W;
  session_close : W -> nat -> Z * W;
  open_cursor : W -> nat -> uri -> Z * nat * W;
  set_key : W -> nat -> item -> W;
  set_value : W -> nat -> item -> W;
  cursor_insert : W -> nat -> Z * W;
  cursor_search : W -> nat -> Z * W;
  cursor_remove : W -> nat -> Z * W;
  cursor_get_value : W -> nat -> item;
  cursor_close : W -> nat -> Z * W }.

Record cursor := Cursor { c_uri : uri; c_key : option item; c_value : option item }.

Record wt_view := View { tables : gmap uri (gmap item item); cursors : gmap nat cursor }.

(** The table of cursor [c] holds [t], and [c] has the key and value given. *)
Definition on_table (v : wt_view) (c : nat) (u : uri) (k x : option item) (t : gmap item item) : Prop :=
  cursors v !! c = Some (Cursor u k x) /\ tables v !! u = Some t.

(** Whatever key and value the cursor is left with. *)
Definition moved (v v' : wt_view) (c : nat) (u : uri) (t : gmap item item) : Prop :=
  tables v' = <[u := t]> (tables v) /\ exists k x, cursors v' = <[c := Cursor u k x]> (cursors v).

Class WiredTigerSpec (W : Type) `{WiredTiger W} := {
  view : W -> wt_view;
  set_key_law w c u k x t key :
    on_table (view w) c u k x t ->
    view (set_key w c key) = View (tables (view w)) (<[c := Cursor u (Some key) x]> (cursors (view w)));
  set_value_law w c u k x t val :
    on_table (view w) c u k x t ->
    view (set_value w c val) = View (tables (view w)) (<[c := Cursor u k (Some val)]> (cursors (view w)));
  insert_law w c u k x t r w' :
    on_table (view w) c u (Some k) (Some x) t -> cursor_insert w c = (r, w') ->
    moved (view w) (view w') c u (if r =? 0 then <[k := x]> t else t);
  search_law w c u k x t r w' :
    on_table (view w) c u (Some k) x t -> cursor_search w c = (r, w') ->
    moved (view w) (view w') c u t /\
    (r = 0 -> exists y, t !! k = Some y /\ cursor_get_value w' c = y);
  remove_law w c u k x t r w' :
    on_table (view w) c u (Some k) x t -> cursor_remove w c = (r, w') ->
    moved (view w) (view w') c u (if r =? 0 then delete k t else t);
  session_law w r s w' : open_session w = (r, s, w') -> view w' = view w;
  create_law w s u r w' : session_create w s u = (r, w') ->
    view w' = if r =? 0 then View (<[u := default ∅ (tables (view w) !! u)]> (tables (view w))) (cursors (view w))
              else view w;
  open_cursor_law w s u r c w' : open_cursor w s u = (r, c, w') -> is_Some (tables (view w) !! u) ->
    if r =? 0 then
      cursors (view w) !! c = None /\
      view w' = View (tables (view w)) (<[c := Cursor u None None]> (cursors (view w)))
    else view w' = view w }.

(** ** An instance *)

Module Mem.

Record mem := M { m_tables : gmap uri (gmap item item); m_cursors : gmap nat cursor; m_next : nat }.

Definition with_cursor (w : mem) (c : nat) (f : cursor -> cursor) : mem :=
  M (m_tables w) (alter f c (m_cursors w)) (m_next w).

Definition WT_NOTFOUND : Z := -31803.

Definition fresh_cursor (w : mem) : nat := fresh (dom (m_cursors w) : gset nat).

Lemma fresh_cursor_none w : m_cursors w !! fresh_cursor w = None.
Proof. apply not_elem_of_dom. exact (is_fresh (dom (m_cursors w) : gset nat)). Qed.

#[export] Instance mem_wt : WiredTiger mem := {
  open_session w := (0, m_next w, M (m_tables w) (m_cursors w) (S (m_next w)));
  session_create w _ u := (0, M (<[u := default ∅ (m_tables w !! u)]> (m_tables w)) (m_cursors w) (m_next w));
  session_drop w _ u := (0, M (delete u (m_tables w)) (m_cursors w) (m_next w));
  session_close w _ := (0, w);
  open_cursor w _ u := (0, fresh_cursor w, M (m_tables w) (<[fresh_cursor w := Cursor u None None]> (m_cursors w)) (m_next w));
  set_key w c key := with_cursor w c (fun x => Cursor (c_uri x) (Some key) (c_value x));
  set_value w c val := with_cursor w c (fun x => Cursor (c_uri x) (c_key x) (Some val));
  cursor_insert w c :=
    match m_cursors w !! c with
    | Some (Cursor u (Some k) (Some x)) => (0, M (alter (insert k x) u (m_tables w)) (m_cursors w) (m_next w))
    | _ => (22, w)
    end;
  cursor_search w c :=
    match m_cursors w !! c with
    | Some (Cursor u (Some k) _) =>
        match m_tables w !! u ≫= lookup k with
        | Some x => (0, with_cursor w c (fun _ => Cursor u (Some k) (Some x)))
        | None => (WT_NOTFOUND, w)
        end
    | _ => (22, w)
    end;
  cursor_remove w c :=
    match m_cursors w !! c with
    | Some (Cursor u (Some k) _) =>
        match m_tables w !! u ≫= lookup k with
        | Some _ => (0, M (alter (delete k) u (m_tables w)) (m_cursors w) (m_next w))
        | None => (WT_NOTFOUND, w)
        end
    | _ => (22, w)
    end;
  cursor_get_value w c := match m_cursors w !! c with Some (Cursor _ _ (Some x)) => x | _ => [] end;
  cursor_close w c := (0, M (m_tables w) (delete c (m_cursors w)) (m_next w)) }.

Lemma alter_insert_eq {K A} `{Countable K} (f : A -> A) (m : gmap K A) i x :
  m !! i = Some x -> alter f i m = <[i := f x]> m.
Proof.
  intros Hi. apply map_eq. intros j. destruct (decide (i = j)) as [<-|].
  - by rewrite lookup_alter_eq, lookup_insert_eq, Hi.
  - by rewrite lookup_alter_ne, lookup_insert_ne.
Qed.

#[export] Instance mem_spec : WiredTigerSpec mem.
Proof.
  refine {| view := fun w => View (m_tables w) (m_cursors w) |}.
  - intros w c u k x t key [Hc _]. cbn in *. by rewrite (alter_insert_eq _ _ _ _ Hc).
  - intros w c u k x t val [Hc _]. cbn in *. by rewrite (alter_insert_eq _ _ _ _ Hc).
  - intros w c u k x t r w' [Hc Ht]. cbn in *. rewrite Hc. intros [= <- <-]. split; cbn.
    + by rewrite (alter_insert_eq _ _ _ _ Ht).
    + exists (Some k), (Some x). by rewrite insert_id.
  - intros w c u k x t r w' [Hc Ht]. cbn in *. rewrite Hc, Ht. cbn. destruct (t !! k) as [y|] eqn:E; intros [= <- <-].
    + split; [split; cbn; [by rewrite insert_id|]|].
      * exists (Some k), (Some y). by rewrite (alter_insert_eq _ _ _ _ Hc).
      * intros _. exists y. split; [done|]. cbn. by rewrite (alter_insert_eq _ _ _ _ Hc), lookup_insert_eq.
    + split; [|done]. split; [by rewrite insert_id|]. exists (Some k), x. by rewrite insert_id.
  - intros w c u k x t r w' [Hc Ht]. cbn in *. rewrite Hc, Ht. cbn. destruct (t !! k) as [y|] eqn:E; intros [= <- <-];
      (split; cbn; [|exists (Some k), x; by rewrite insert_id]).
    + by rewrite (alter_insert_eq _ _ _ _ Ht).
    + by rewrite insert_id.
  - cbn. by intros w r s w' [= <- <- <-].
  - cbn. by intros w s u r w' [= <- <-].
  - cbn [open_cursor mem_wt]. intros w s u r c w' [= <- <- <-] _. cbn. split; [|done].
    apply fresh_cursor_none.
Defined.
End Mem.
