(* ===== verification/KvDb.v ===== *)
(** * The metadata database ([src/metaserver/kv_db.c])

    Schemas are WiredTiger tables, found by name through the dictionary of
    [Dict].  A [kv_schema_t *] is the key of its structure in [schemas], 0 for
    NULL; memory the code leaves uninitialised is [None]. *)

From Stdlib Require Import Strings.Byte.
From S2P Require Import Prelude Bytes CString Chain Dict Wt.

Definition SCHEMA_LIMIT : Z := 1024.

Record kv_schema_t := Schema {
  s_session : nat;
  s_cursor : option nat;
  s_uri : uri;
  s_name : list byte }.

Record kv_db_t (W : Type) := Db {
  database_name : list byte;
  database_dir : list byte;
  schema_ctx : dict_t;
  conn : option W;
  schemas : gmap Z kv_schema_t;
  next_schema : Z }.
Arguments Db {W} _ _ _ _ _ _.
Arguments database_name {W} _.
Arguments database_dir {W} _.
Arguments schema_ctx {W} _.
Arguments conn {W} _.
Arguments schemas {W} _.
Arguments next_schema {W} _.

(** [snprintf(schema_buf, 256, "table:%s", name)]. *)
Definition table_uri (name : list byte) : uri :=
  take 255 (map byte_of [116; 97; 98; 108; 101; 58] ++ name).

Section KvDb.
Context {W : Type} `{!WiredTiger W}.
(** [hash_fnv1_64], of a header outside the repository. *)
Context (hash_fn : list byte -> outcome Z).

Definition set_conn (db : kv_db_t W) (w : W) : kv_db_t W :=
  Db (database_name db) (database_dir db) (schema_ctx db) (Some w) (schemas db) (next_schema db).

Definition set_ctx (db : kv_db_t W) (d : dict_t) : kv_db_t W :=
  Db (database_name db) (database_dir db) d (conn db) (schemas db) (next_schema db).

Definition schema_at (db : kv_db_t W) (p : Z) : outcome kv_schema_t := from_option_undef (schemas db !! p).

(** [path_ok]: the directory is there or could be made; [opened]: the result of
    [wiredtiger_open]. *)
Definition kv_db_alloc (name dir : option (list byte)) (path_ok : bool) (opened : Z * W)
    : outcome (option (kv_db_t W)) :=
  match name, dir with
  | Some name, Some dir =>
      if path_ok then
        c_assert (negb (opened.1 =? -1)) ;;
        mret (Some (Db name dir (dict_init SCHEMA_LIMIT) (if opened.1 =? 0 then Some opened.2 else None) ∅ 1))
      else mret None
  | _, _ => mret None
  end.

Definition kv_db_fetch_schema (db : option (kv_db_t W)) (name : option (list byte)) : outcome Z :=
  match db, name with
  | Some db, Some name => dict_get hash_fn (schema_ctx db) name
  | _, _ => mret 0
  end.

Definition kv_db_register_schema (db : kv_db_t W) (p : Z) : outcome (Z * kv_db_t W) :=
  if p =? 0 then mret (-1, db)
  else
    s ← schema_at db p;
    '(r, d) ← dict_put hash_fn (schema_ctx db) (s_name s) p;
    mret (match r with Some _ => 0 | None => -1 end, set_ctx db d).

Definition kv_db_unregister_schema (db : kv_db_t W) (p : Z) : outcome (kv_db_t W) :=
  if p =? 0 then mret db
  else
    s ← schema_at db p;
    '(_, _, d) ← dict_del hash_fn (schema_ctx db) (s_name s) false;
    mret (set_ctx db d).

(** [ctx] is the database, [None] for a null pointer.  The other assertions reject
    the result -1 only; the result of the registration is ignored. *)
Definition kv_schema_alloc (name : list byte) (ctx : option (kv_db_t W)) (is_force_drop : bool) : outcome (Z * kv_db_t W) :=
  c_assert (if ctx then true else false) ;;
  db ← from_option_undef ctx;
  w ← from_option_undef (conn db);
  let '(r, s, w) := open_session w in
  c_assert (negb (r =? -1)) ;;
  s ← (if r =? 0 then mret s else Undefined);
  let schema_buf := table_uri name in
  w ← (if is_force_drop : bool then
         let '(r, w) := session_drop w s schema_buf in c_assert (negb (r =? -1)) ;; mret w
       else mret w);
  let '(r, w) := session_create w s schema_buf in
  c_assert (negb (r =? -1)) ;;
  let '(r, c, w) := open_cursor w s schema_buf in
  c_assert (negb (r =? -1)) ;;
  let p := next_schema db in
  let schema := Schema s (if r =? 0 then Some c else None) schema_buf name in
  let db := Db (database_name db) (database_dir db) (schema_ctx db) (Some w) (<[p := schema]> (schemas db)) (p + 1) in
  '(_, db) ← kv_db_register_schema db p;
  mret (p, db).

Definition kv_schema_destroy (db : kv_db_t W) (p : Z) : outcome (kv_db_t W) :=
  if p =? 0 then mret db
  else
    s ← schema_at db p;
    db ← kv_db_unregister_schema db p;
    w ← from_option_undef (conn db);
    c ← from_option_undef (s_cursor s);
    let '(_, w) := cursor_close w c in
    let '(_, w) := session_drop w (s_session s) (s_uri s) in
    let '(_, w) := session_close w (s_session s) in
    mret (Db (database_name db) (database_dir db) (schema_ctx db) (Some w) (delete p (schemas db)) (next_schema db)).

Definition kv_db_set (db : kv_db_t W) (name : list byte) (key val : item) : outcome (Z * kv_db_t W) :=
  p ← dict_get hash_fn (schema_ctx db) name;
  if p =? 0 then mret (-1, db)
  else
    s ← schema_at db p;
    c ← from_option_undef (s_cursor s);
    w ← from_option_undef (conn db);
    let w := set_key w c key in
    let w := set_value w c val in
    let '(r, w) := cursor_insert w c in
    mret (r, set_conn db w).

Definition kv_db_search (db : kv_db_t W) (name : list byte) (key : item) : outcome (Z * kv_db_t W) :=
  p ← dict_get hash_fn (schema_ctx db) name;
  if p =? 0 then mret (-1, db)
  else
    s ← schema_at db p;
    c ← from_option_undef (s_cursor s);
    w ← from_option_undef (conn db);
    let w := set_key w c key in
    let '(r, w) := cursor_search w c in
    mret (r, set_conn db w).

(** The value; its size is the length of the list. *)
Definition kv_db_get (db : kv_db_t W) (name : list byte) (key : item) : outcome (option item * kv_db_t W) :=
  p ← dict_get hash_fn (schema_ctx db) name;
  if p =? 0 then mret (None, db)
  else
    s ← schema_at db p;
    c ← from_option_undef (s_cursor s);
    w ← from_option_undef (conn db);
    let w := set_key w c key in
    let '(r, w) := cursor_search w c in
    if r =? 0 then mret (Some (cursor_get_value w c), set_conn db w)
    else mret (None, set_conn db w).

(** The schema is used without a test for NULL. *)
Definition kv_db_del (db : kv_db_t W) (name : list byte) (key : item) : outcome (Z * kv_db_t W) :=
  p ← dict_get hash_fn (schema_ctx db) name;
  s ← schema_at db p;
  c ← from_option_undef (s_cursor s);
  w ← from_option_undef (conn db);
  let w := set_key w c key in
  let '(r, w) := cursor_remove w c in
  mret (r, set_conn db w).

(** [dict_deinit] passes the address of the member that holds the pointer, not
    the pointer, to [kv_schema_free_cb], which reads a schema there. *)
Definition kv_db_destroy (db : option (kv_db_t W)) : outcome unit :=
  match db with
  | None => mret tt
  | Some db =>
      '(_, freed) ← dict_deinit (schema_ctx db);
      match freed with [] => mret tt | _ => Undefined end
  end.
End KvDb.

(** ** The abstract database: a map of tables *)

Section Spec.
Context {W : Type} `{!WiredTiger W} `{!WiredTigerSpec W}.
Context (hash_fn : list byte -> outcome Z).
Hypothesis hash_ok : forall key, exists h, hash_fn key = Ret h /\ fits 32 h.

Abbreviation database := (gmap (list byte) (gmap item item)).

(** [ptrs] is what the dictionary holds, [w] the state of WiredTiger. *)
Record db_ok (db : kv_db_t W) (w : W) (ptrs : gmap (list byte) Z) (m : database) : Prop := {
  db_conn : conn db = Some w;
  db_dict : represents hash_fn (schema_ctx db) ptrs;
  db_schema name p : ptrs !! name = Some p -> p <> 0 /\ (length name <= 249)%nat /\
    exists s c t k x, schemas db !! p = Some s /\ s_cursor s = Some c /\ m !! name = Some t /\
      on_table (view w) c (table_uri name) k x t;
  db_dom name : ptrs !! name = None -> m !! name = None;
  db_fresh : 0 < next_schema db /\ forall p, is_Some (schemas db !! p) -> 0 < p < next_schema db;
  db_apart n1 n2 p1 p2 s1 s2 c : ptrs !! n1 = Some p1 -> ptrs !! n2 = Some p2 ->
    schemas db !! p1 = Some s1 -> schemas db !! p2 = Some s2 ->
    s_cursor s1 = Some c -> s_cursor s2 = Some c -> n1 = n2;
  db_named name p s : ptrs !! name = Some p -> schemas db !! p = Some s -> s_uri s = table_uri name /\ s_name s = name }.

Lemma table_uri_inj n1 n2 :
  (length n1 <= 249)%nat -> (length n2 <= 249)%nat -> table_uri n1 = table_uri n2 -> n1 = n2.
Proof.
  intros H1 H2. unfold table_uri. rewrite !take_ge by (rewrite length_app; cbn; lia). apply app_inv_head.
Qed.

Lemma moved_trans v1 v2 v3 c u t t' : moved v1 v2 c u t -> moved v2 v3 c u t' -> moved v1 v3 c u t'.
Proof.
  intros (T1 & k1 & x1 & C1) (T2 & k2 & x2 & C2). split.
  - by rewrite T2, T1, insert_insert_eq.
  - exists k2, x2. by rewrite C2, C1, insert_insert_eq.
Qed.

Lemma keyed w c u k x t key :
  on_table (view w) c u k x t ->
  moved (view w) (view (set_key w c key)) c u t /\ on_table (view (set_key w c key)) c u (Some key) x t.
Proof.
  intros H. pose proof (set_key_law _ _ _ _ _ _ key H) as E. destruct H as [Hc Ht]. rewrite E. split.
  - split; cbn; [by rewrite insert_id|eauto].
  - split; cbn; [by rewrite lookup_insert_eq|done].
Qed.

Lemma valued w c u k x t val :
  on_table (view w) c u k x t ->
  moved (view w) (view (set_value w c val)) c u t /\ on_table (view (set_value w c val)) c u k (Some val) t.
Proof.
  intros H. pose proof (set_value_law _ _ _ _ _ _ val H) as E. destruct H as [Hc Ht]. rewrite E. split.
  - split; cbn; [by rewrite insert_id|eauto].
  - split; cbn; [by rewrite lookup_insert_eq|done].
Qed.

(** A call that moved the cursor of [name] only. *)
Lemma moved_ok db w ptrs m name p s c t w' t' :
  db_ok db w ptrs m -> ptrs !! name = Some p -> schemas db !! p = Some s -> s_cursor s = Some c ->
  m !! name = Some t -> moved (view w) (view w') c (table_uri name) t' ->
  db_ok (set_conn db w') w' ptrs (<[name := t']> m).
Proof.
  intros O Hp Hs Hc Ht (T & k & x & C). split; cbn.
  - done.
  - apply O.
  - intros n q Hq. destruct (db_schema _ _ _ _ O n q Hq) as (Hnz & Hl & s2 & c2 & t2 & k2 & x2 & Hs2 & Hc2 & Ht2 & Hon).
    split; [done|]. split; [done|]. destruct (decide (n = name)) as [->|Hne].
    + assert (q = p) as -> by congruence. exists s, c, t', k, x. rewrite lookup_insert_eq.
      split; [done|]. split; [done|]. split; [done|]. split; [by rewrite C, lookup_insert_eq|by rewrite T, lookup_insert_eq].
    + destruct Hon as [Hcu Htb]. destruct (db_schema _ _ _ _ O _ _ Hp) as (_ & Hln & _).
      assert (c2 <> c) as Hcc by (intros ->; apply Hne; by eapply (db_apart _ _ _ _ O)).
      exists s2, c2, t2, k2, x2. rewrite lookup_insert_ne by congruence.
      split; [done|]. split; [done|]. split; [done|]. split.
      * by rewrite C, lookup_insert_ne.
      * rewrite T, lookup_insert_ne; [done|]. intros E. apply Hne. symmetry. by apply table_uri_inj.
  - intros n Hn. rewrite lookup_insert_ne by congruence. by apply (db_dom _ _ _ _ O).
  - apply O.
  - apply O.
  - apply O.
Qed.

(** The schema the dictionary finds under [name]. *)
Lemma fetched db w ptrs m name :
  db_ok db w ptrs m -> text name -> prefix_safe hash_fn (schema_ctx db) ptrs name ->
  match m !! name with
  | None => dict_get hash_fn (schema_ctx db) name = Ret 0
  | Some t => exists p s c k x, dict_get hash_fn (schema_ctx db) name = Ret p /\ p <> 0 /\ ptrs !! name = Some p /\
      schemas db !! p = Some s /\ s_cursor s = Some c /\ on_table (view w) c (table_uri name) k x t
  end.
Proof.
  intros O Ht Hs. pose proof (get_refines hash_fn hash_ok _ _ _ (db_dict _ _ _ _ O) Ht Hs) as Hg.
  destruct (ptrs !! name) as [p|] eqn:Hp.
  - destruct (db_schema _ _ _ _ O _ _ Hp) as (Hnz & _ & s & c & t & k & x & H1 & H2 & -> & H4).
    exists p, s, c, k, x. done.
  - by rewrite (db_dom _ _ _ _ O _ Hp).
Qed.

(** Engines that do not fail. *)
Definition inserts_succeed : Prop := forall w c u k x t,
  on_table (view w) c u (Some k) (Some x) t -> (cursor_insert w c).1 = 0.

Definition reads_succeed : Prop := forall w c u k x t,
  on_table (view w) c u (Some k) x t -> is_Some (t !! k) -> (cursor_search w c).1 = 0.

Definition removals_succeed : Prop := forall w c u k x t,
  on_table (view w) c u (Some k) x t -> is_Some (t !! k) -> (cursor_remove w c).1 = 0.

Lemma set_refines db w ptrs m name key val :
  db_ok db w ptrs m -> text name -> prefix_safe hash_fn (schema_ctx db) ptrs name ->
  match m !! name with
  | None => kv_db_set hash_fn db name key val = Ret (-1, db)
  | Some t => exists r db' w', kv_db_set hash_fn db name key val = Ret (r, db') /\
      db_ok db' w' ptrs (<[name := if r =? 0 then <[key := val]> t else t]> m) /\ schema_ctx db' = schema_ctx db /\
      (inserts_succeed -> r = 0)
  end.
Proof.
  intros O Ht Hs. pose proof (fetched db w ptrs m name O Ht Hs) as Hf. unfold kv_db_set.
  destruct (m !! name) as [t|] eqn:Hm; [|by rewrite Hf].
  destruct Hf as (p & s & c & k & x & -> & Hnz & Hp & Hsc & Hc & Hon). cbn [mbind outcome_bind].
  rewrite (proj2 (Z.eqb_neq _ _)) by done. unfold schema_at. rewrite Hsc. cbn [from_option_undef mbind outcome_bind].
  rewrite Hc. cbn [from_option_undef mbind outcome_bind]. rewrite (db_conn _ _ _ _ O). cbn [from_option_undef mbind outcome_bind].
  destruct (keyed _ _ _ _ _ _ key Hon) as [M1 H1]. destruct (valued _ _ _ _ _ _ val H1) as [M2 H2].
  destruct (cursor_insert _ c) as [r w'] eqn:E. pose proof (insert_law _ _ _ _ _ _ _ _ H2 E) as M3.
  exists r, (set_conn db w'), w'. split; [done|].
  split; [eapply moved_ok; eauto; eapply moved_trans; [|eapply moved_trans]; eauto|]. split; [done|].
  intros Hsucc. pose proof (Hsucc _ _ _ _ _ _ H2) as Hr. by rewrite E in Hr.
Qed.

Lemma get_refines_table db w ptrs m name key :
  db_ok db w ptrs m -> text name -> prefix_safe hash_fn (schema_ctx db) ptrs name ->
  match m !! name with
  | None => kv_db_get hash_fn db name key = Ret (None, db) /\ kv_db_search hash_fn db name key = Ret (-1, db)
  | Some t => exists r db' w', kv_db_get hash_fn db name key = Ret (r, db') /\ db_ok db' w' ptrs m /\
      schema_ctx db' = schema_ctx db /\ (forall y, r = Some y -> t !! key = Some y) /\
      (exists r', kv_db_search hash_fn db name key = Ret (r', db') /\ (r' = 0 <-> is_Some r)) /\
      (reads_succeed -> is_Some (t !! key) -> is_Some r)
  end.
Proof.
  intros O Ht Hs. pose proof (fetched db w ptrs m name O Ht Hs) as Hf. unfold kv_db_get, kv_db_search.
  destruct (m !! name) as [t|] eqn:Hm; [|by rewrite Hf].
  destruct Hf as (p & s & c & k & x & -> & Hnz & Hp & Hsc & Hc & Hon). cbn [mbind outcome_bind].
  rewrite (proj2 (Z.eqb_neq _ _)) by done. unfold schema_at. rewrite Hsc. cbn [from_option_undef mbind outcome_bind].
  rewrite Hc. cbn [from_option_undef mbind outcome_bind]. rewrite (db_conn _ _ _ _ O). cbn [from_option_undef mbind outcome_bind].
  destruct (keyed _ _ _ _ _ _ key Hon) as [M1 H1].
  destruct (cursor_search _ c) as [r w'] eqn:E. destruct (search_law _ _ _ _ _ _ _ _ H1 E) as [M2 Hr].
  assert (db_ok (set_conn db w') w' ptrs m) as O'.
  { rewrite <- (insert_id m name t) by done. eapply moved_ok; eauto. eapply moved_trans; eauto. }
  destruct (Z.eqb_spec r 0) as [->|Hne].
  - destruct (Hr eq_refl) as (y & Hy & Hv). eexists _, _, w'. split; [done|]. split; [done|]. split; [done|].
    split; [intros y' [= <-]; congruence|]. split; [exists 0; split; [done|]; split; eauto|eauto].
  - eexists _, _, w'. split; [done|]. split; [done|]. split; [done|]. split; [done|].
    split; [exists r; split; [done|]; split; [done|]; intros [y Hy]; discriminate|].
    intros Hsucc Hk. pose proof (Hsucc _ _ _ _ _ _ H1 Hk) as Hz. by rewrite E in Hz.
Qed.

Lemma del_refines_table db w ptrs m name key :
  db_ok db w ptrs m -> text name -> prefix_safe hash_fn (schema_ctx db) ptrs name ->
  match m !! name with
  | None => kv_db_del hash_fn db name key = Undefined
  | Some t => exists r db' w', kv_db_del hash_fn db name key = Ret (r, db') /\
      db_ok db' w' ptrs (<[name := if r =? 0 then delete key t else t]> m) /\ schema_ctx db' = schema_ctx db /\
      (removals_succeed -> is_Some (t !! key) -> r = 0)
  end.
Proof.
  intros O Ht Hs.
  assert (schemas db !! 0 = None) as H0.
  { destruct (db_fresh _ _ _ _ O) as [_ H]. destruct (schemas db !! 0) eqn:E; [|done].
    pose proof (H 0 (ex_intro _ _ E)). lia. }
  pose proof (fetched db w ptrs m name O Ht Hs) as Hf. unfold kv_db_del, schema_at.
  destruct (m !! name) as [t|] eqn:Hm; [|rewrite Hf; cbn; by rewrite H0].
  destruct Hf as (p & s & c & k & x & -> & Hnz & Hp & Hsc & Hc & Hon). cbn [mbind outcome_bind].
  rewrite Hsc. cbn [from_option_undef mbind outcome_bind].
  rewrite Hc. cbn [from_option_undef mbind outcome_bind]. rewrite (db_conn _ _ _ _ O). cbn [from_option_undef mbind outcome_bind].
  destruct (keyed _ _ _ _ _ _ key Hon) as [M1 H1].
  destruct (cursor_remove _ c) as [r w'] eqn:E. pose proof (remove_law _ _ _ _ _ _ _ _ H1 E) as M2.
  exists r, (set_conn db w'), w'. split; [done|]. split; [eapply moved_ok; eauto; eapply moved_trans; eauto|]. split; [done|].
  intros Hsucc Hk. pose proof (Hsucc _ _ _ _ _ _ H1 Hk) as Hr. by rewrite E in Hr.
Qed.

(** No call of the creation of a schema fails. *)
Definition creation_succeeds : Prop :=
  (forall w r s w', open_session w = (r, s, w') -> r = 0) /\
  (forall w s u r w', session_create w s u = (r, w') -> r = 0) /\
  (forall w s u r c w', open_cursor w s u = (r, c, w') -> r = 0).

(** A new table and cursor change nothing for the schemas there are. *)
Lemma opened_ok (db : kv_db_t W) w ptrs m d p name s c v :
  db_ok db w ptrs m -> ptrs !! name = None -> 0 < p -> (forall q, is_Some (schemas db !! q) -> 0 < q < p) ->
  (length name <= 249)%nat -> cursors (view w) !! c = None -> view v =
    View (<[table_uri name := default ∅ (tables (view w) !! table_uri name)]> (tables (view w)))
         (<[c := Cursor (table_uri name) None None]> (cursors (view w))) ->
  represents hash_fn d (<[name := p]> ptrs) ->
  db_ok (Db (database_name db) (database_dir db) d (Some v) (<[p := Schema s (Some c) (table_uri name) name]> (schemas db)) (p + 1))
    v (<[name := p]> ptrs) (<[name := default ∅ (tables (view w) !! table_uri name)]> m).
Proof.
  intros O Hnew Hp Hfresh Hlen Hc Hv Hd.
  assert (forall n q, ptrs !! n = Some q -> q <> p) as Hold.
  { intros n q Hq ->. destruct (db_schema _ _ _ _ O _ _ Hq) as (_ & _ & s2 & _ & _ & _ & _ & Hs2 & _).
    pose proof (Hfresh p (ex_intro _ _ Hs2)). lia. }
  assert (forall n q s2 c2, ptrs !! n = Some q -> schemas db !! q = Some s2 -> s_cursor s2 = Some c2 -> c2 <> c) as Hcur.
  { intros n q s2 c2 Hq Hs2 Hc2 ->. destruct (db_schema _ _ _ _ O _ _ Hq) as (_ & _ & s3 & c3 & t3 & k3 & x3 & H1 & H2 & _ & [H3 _]).
    assert (c3 = c) as -> by congruence. congruence. }
  split; cbn.
  - done.
  - done.
  - intros n q Hq. apply lookup_insert_Some in Hq as [[<- <-]|[Hne Hq]].
    + split; [lia|]. split; [done|]. eexists _, c, _, None, None. rewrite !lookup_insert_eq.
      split; [done|]. split; [done|]. split; [done|]. rewrite Hv. split; cbn; by rewrite lookup_insert_eq.
    + destruct (db_schema _ _ _ _ O n q Hq) as (Hnz & Hl & s2 & c2 & t2 & k2 & x2 & Hs2 & Hc2 & Ht2 & [Hcu Htb]).
      split; [done|]. split; [done|]. exists s2, c2, t2, k2, x2.
      rewrite !lookup_insert_ne by (by (done || apply not_eq_sym; eapply Hold)).
      split; [done|]. split; [done|]. split; [done|]. rewrite Hv. split; cbn.
      * rewrite lookup_insert_ne; [done|]. apply not_eq_sym. by eapply Hcur.
      * rewrite lookup_insert_ne; [done|]. intros E. by apply Hne, table_uri_inj.
  - intros n Hn. apply lookup_insert_None in Hn as [Hn Hne]. rewrite lookup_insert_ne by done. by apply (db_dom _ _ _ _ O).
  - split; [lia|]. intros q Hq. apply lookup_insert_is_Some' in Hq as [<-|Hq]; [lia|]. apply Hfresh in Hq. lia.
  - intros n1 n2 p1 p2 s1 s2 c' Hn1 Hn2 Hs1 Hs2 H1 H2.
    apply lookup_insert_Some in Hn1 as [[<- <-]|[Hne1 Hn1]]; apply lookup_insert_Some in Hn2 as [[<- <-]|[Hne2 Hn2]]; [done| | |].
    + rewrite lookup_insert_eq in Hs1. injection Hs1 as <-. cbn in H1. injection H1 as <-.
      rewrite lookup_insert_ne in Hs2 by (apply not_eq_sym; by eapply Hold). by destruct (Hcur _ _ _ _ Hn2 Hs2 H2).
    + rewrite lookup_insert_eq in Hs2. injection Hs2 as <-. cbn in H2. injection H2 as <-.
      rewrite lookup_insert_ne in Hs1 by (apply not_eq_sym; by eapply Hold). by destruct (Hcur _ _ _ _ Hn1 Hs1 H1).
    + rewrite lookup_insert_ne in Hs1 by (apply not_eq_sym; by eapply Hold).
      rewrite lookup_insert_ne in Hs2 by (apply not_eq_sym; by eapply Hold). by eapply (db_apart _ _ _ _ O).
  - intros n q s2 Hq Hs2. apply lookup_insert_Some in Hq as [[<- <-]|[Hne Hq]].
    + rewrite lookup_insert_eq in Hs2. by injection Hs2 as <-.
    + rewrite lookup_insert_ne in Hs2 by (apply not_eq_sym; by eapply Hold). by eapply (db_named _ _ _ _ O).
Qed.

Lemma alloc_refines (db : kv_db_t W) w ptrs m name :
  db_ok db w ptrs m -> creation_succeeds -> text name -> (length name <= 249)%nat ->
  prefix_safe hash_fn (schema_ctx db) ptrs name -> ptrs !! name = None -> Z.of_nat (size ptrs) < 2 ^ 32 - 1 ->
  exists p db' w', kv_schema_alloc hash_fn name (Some db) false = Ret (p, db') /\ p <> 0 /\
    db_ok db' w' (<[name := p]> ptrs) (<[name := default ∅ (tables (view w) !! table_uri name)]> m).
Proof.
  intros O (Hs & Hc & Ho) Ht Hlen Hsafe Hnew Hsz. destruct (db_fresh _ _ _ _ O) as [Hn Hfr].
  unfold kv_schema_alloc. cbn [c_assert from_option_undef mbind outcome_bind]. rewrite (db_conn _ _ _ _ O). cbn [from_option_undef mbind outcome_bind].
  destruct (open_session w) as [[r s] w1] eqn:E1. pose proof (Hs _ _ _ _ E1) as ->. apply session_law in E1.
  cbn [Z.eqb negb c_assert mbind outcome_bind mret outcome_ret].
  destruct (session_create w1 s (table_uri name)) as [r w2] eqn:E2. pose proof (Hc _ _ _ _ _ E2) as ->.
  apply create_law in E2. cbn [Z.eqb negb c_assert mbind outcome_bind] in E2 |- *. rewrite E1 in E2.
  destruct (open_cursor w2 s (table_uri name)) as [[r c] w3] eqn:E3. pose proof (Ho _ _ _ _ _ _ E3) as ->.
  apply open_cursor_law in E3; [|rewrite E2; cbn; rewrite lookup_insert_eq; eauto].
  cbn [Z.eqb negb c_assert mbind outcome_bind] in E3 |- *. rewrite E2 in E3. cbn in E3. destruct E3 as [Hfresh E3].
  unfold kv_db_register_schema. cbn [schema_ctx schemas]. rewrite (proj2 (Z.eqb_neq _ _)) by lia.
  unfold schema_at. cbn [schemas]. rewrite lookup_insert_eq. cbn [from_option_undef mbind outcome_bind s_name].
  pose proof (put_refines hash_fn hash_ok _ _ name (next_schema db) (db_dict _ _ _ _ O) Ht Hsafe Hsz) as Hput.
  rewrite Hnew in Hput. destruct Hput as (cc & d' & Hput & Hd'). unfold set_ctx. cbn [schema_ctx]. rewrite Hput.
  cbn [mbind outcome_bind mret outcome_ret]. eexists _, _, w3. split; [reflexivity|]. split; [lia|].
  cbn [set_ctx database_name database_dir schema_ctx conn schemas next_schema].
  by apply opened_ok.
Qed.

Lemma kv_db_alloc_ok name dir w :
  exists db, kv_db_alloc (Some name) (Some dir) true (0, w) = Ret (Some db) /\ db_ok db w ∅ ∅.
Proof.
  eexists. split; [reflexivity|]. split; cbn.
  - done.
  - apply (init_represents hash_fn). unfold SCHEMA_LIMIT. lia.
  - intros n p H. rewrite lookup_empty in H. discriminate.
  - intros n _. apply lookup_empty.
  - split; [lia|]. intros p [x H]. rewrite lookup_empty in H. discriminate.
  - intros n1 n2 p1 p2 s1 s2 c H. rewrite lookup_empty in H. discriminate.
  - intros n p s H. rewrite lookup_empty in H. discriminate.
Qed.
End Spec.

(** ** Properties *)

(** C9: over any WiredTiger that keeps its contract, the database refines a map
    from schema names to tables: [kv_db_fetch_schema] finds the schema of a
    registered name, [kv_db_set] binds the key when the insertion succeeds,
    [kv_db_get] answers only the value bound to the key and agrees with
    [kv_db_search], [kv_db_del] removes the key; other tables never change.
    A name that is not registered is answered with -1 and NULL, except by
    [kv_db_del], which dereferences a null schema; a null database or name has
    no schema.  This is for a name that no registered name of the same bucket
    extends ([prefix_safe]): the dictionary takes such a name for the longer
    one, and the operations then work on its table
    ([prefix_writes_to_other_table]). *)
Theorem kv_db_refines_tables {W : Type} `{!WiredTiger W} `{!WiredTigerSpec W} hash_fn (db : kv_db_t W) w ptrs m name key val :
  (forall key, exists h, hash_fn key = Ret h /\ fits 32 h) ->
  db_ok hash_fn db w ptrs m -> text name -> prefix_safe hash_fn (schema_ctx db) ptrs name ->
  match m !! name with
  | Some t =>
      (exists p s, kv_db_fetch_schema hash_fn (Some db) (Some name) = Ret p /\ p <> 0 /\ ptrs !! name = Some p /\
         schemas db !! p = Some s /\ s_uri s = table_uri name /\ s_name s = name) /\
      (exists r db' w', kv_db_set hash_fn db name key val = Ret (r, db') /\
         db_ok hash_fn db' w' ptrs (<[name := if r =? 0 then <[key := val]> t else t]> m)) /\
      (exists r r' db' w', kv_db_get hash_fn db name key = Ret (r, db') /\ db_ok hash_fn db' w' ptrs m /\
         (forall y, r = Some y -> t !! key = Some y) /\
         kv_db_search hash_fn db name key = Ret (r', db') /\ (r' = 0 <-> is_Some r)) /\
      (exists r db' w', kv_db_del hash_fn db name key = Ret (r, db') /\
         db_ok hash_fn db' w' ptrs (<[name := if r =? 0 then delete key t else t]> m))
  | None =>
      kv_db_fetch_schema hash_fn (Some db) (Some name) = Ret 0 /\
      kv_db_set hash_fn db name key val = Ret (-1, db) /\ kv_db_get hash_fn db name key = Ret (None, db) /\
      kv_db_search hash_fn db name key = Ret (-1, db) /\ kv_db_del hash_fn db name key = Undefined
  end /\
  kv_db_fetch_schema hash_fn (W := W) None (Some name) = Ret 0 /\ kv_db_fetch_schema hash_fn (Some db) None = Ret 0.
Proof.
  intros Hh O Ht Hs.
  pose proof (set_refines hash_fn Hh db w ptrs m name key val O Ht Hs) as H1.
  pose proof (get_refines_table hash_fn Hh db w ptrs m name key O Ht Hs) as H2.
  pose proof (del_refines_table hash_fn Hh db w ptrs m name key O Ht Hs) as H3.
  pose proof (fetched hash_fn Hh db w ptrs m name O Ht Hs) as H0. split; [|done].
  destruct (m !! name) as [t|]; [|tauto].
  destruct H1 as (r1 & db1 & w1 & E1 & O1 & _), H2 as (r2 & db2 & w2 & E2 & O2 & _ & Hy & (r2' & E2' & Hr) & _),
    H3 as (r3 & db3 & w3 & E3 & O3 & _).
  destruct H0 as (p & s & c & k & x & Hg & Hnz & Hp & Hsc & _). destruct (db_named _ _ _ _ _ O name p s Hp Hsc) as [Hu Hn].
  split; [by exists p, s|]. split; [by exists r1, db1, w1|]. split; [by exists r2, r2', db2, w2|by exists r3, db3, w3].
Qed.

(** [kv_schema_alloc] of a new name, when no call of WiredTiger fails, opens
    the table of that name with whatever it held before, registers it, and
    leaves every other schema as it was. *)
Theorem kv_schema_alloc_registers {W : Type} `{!WiredTiger W} `{!WiredTigerSpec W} hash_fn (db : kv_db_t W) w ptrs m name :
  (forall key, exists h, hash_fn key = Ret h /\ fits 32 h) ->
  db_ok hash_fn db w ptrs m -> creation_succeeds (W := W) -> text name -> (length name <= 249)%nat ->
  prefix_safe hash_fn (schema_ctx db) ptrs name -> ptrs !! name = None -> Z.of_nat (size ptrs) < 2 ^ 32 - 1 ->
  exists p db' w', kv_schema_alloc hash_fn name (Some db) false = Ret (p, db') /\ p <> 0 /\
    db_ok hash_fn db' w' (<[name := p]> ptrs) (<[name := default ∅ (tables (view w) !! table_uri name)]> m).
Proof. intros Hh. exact (alloc_refines hash_fn Hh db w ptrs m name). Qed.

(** ** An example in memory *)

Import Wt.Mem.

Definition mem0 : mem := M ∅ ∅ 0.

Lemma mem_creation : creation_succeeds (W := mem).
Proof. split; [|split]; cbn; intros; congruence. Qed.

Definition users : list byte := map byte_of [117; 115; 101; 114; 115].

Lemma kv_schema_alloc_registers_witness :
  exists db p db' w', kv_db_alloc (Some [x61]) (Some [x62]) true (0, mem0) = Ret (Some db) /\
    kv_schema_alloc dict_default_hash_fn users (Some db) false = Ret (p, db') /\
    db_ok dict_default_hash_fn db' w' {[ users := p ]} {[ users := ∅ ]}.
Proof.
  destruct (kv_db_alloc_ok dict_default_hash_fn [x61] [x62] mem0) as (db & Hdb & O).
  destruct (kv_schema_alloc_registers dict_default_hash_fn db mem0 ∅ ∅ users default_hash_ok O mem_creation)
    as (p & db' & w' & Ha & _ & O'); [vm_decide|cbn; lia|apply prefix_safe_empty|reflexivity|reflexivity|].
  exists db, p, db', w'. split; [exact Hdb|]. split; [exact Ha|]. exact O'.
Defined.

Lemma kv_db_refines_tables_witness :
  exists db p w, db_ok dict_default_hash_fn db w {[ users := p ]} {[ users := ∅ ]} /\
    exists r db' w', kv_db_set dict_default_hash_fn db users [x6b] [x76] = Ret (r, db') /\
      db_ok dict_default_hash_fn db' w' {[ users := p ]}
        (<[users := if r =? 0 then <[[x6b] := [x76]]> ∅ else ∅]> {[ users := ∅ ]}).
Proof.
  destruct (kv_db_alloc_ok dict_default_hash_fn [x61] [x62] mem0) as (db & _ & O).
  destruct (alloc_refines dict_default_hash_fn default_hash_ok db mem0 ∅ ∅ users O mem_creation)
    as (p & db' & w' & _ & _ & O'); [vm_decide|cbn; lia|apply prefix_safe_empty|reflexivity|reflexivity|].
  exists db', p, w'. split; [exact O'|].
  pose proof (kv_db_refines_tables dict_default_hash_fn db' w' {[ users := p ]} {[ users := ∅ ]} users [x6b] [x76]
    default_hash_ok O') as H.
  refine (proj1 (proj2 (proj1 (H _ _)))); [vm_decide|apply prefix_safe_singleton].
Defined.

(** A schema name that is a prefix of a registered one of its bucket is taken
    for it: the pair set on [user] goes to the table of [users]. *)
Example prefix_writes_to_other_table (h := fun _ : list byte => Ret 0) :
  (db ← kv_db_alloc (Some [x61]) (Some [x62]) true (0, mem0);
   db ← from_option_undef db;
   '(_, db) ← kv_schema_alloc h users (Some db) false;
   '(r, db) ← kv_db_set h db (take 4 users) [x6b] [x76];
   '(v, _) ← kv_db_get h db users [x6b];
   mret (r, v)) = Ret (0, Some [x76]).
Proof. vm_compute. reflexivity. Qed.

(** [kv_db_destroy] of a database that has a schema. *)
Example destroy_reads_wild (h := fun _ : list byte => Ret 0) :
  (db ← kv_db_alloc (Some [x61]) (Some [x62]) true (0, mem0);
   db ← from_option_undef db;
   '(_, db) ← kv_schema_alloc h users (Some db) false;
   kv_db_destroy (Some db)) = Undefined.
Proof. vm_compute. reflexivity. Qed.
