(* ===== verification/SchemaMeta.v ===== *)
(** * Schema records and their cache ([src/metaserver/schmea_meta.c])

    A record is kept twice: its bytes in a table of the database of [KvDb],
    and a pointer to it in a dictionary of [Dict].  Loading the cache is in
    [Scan], the JSON dump in [SchemaDump]. *)

From Stdlib Require Import Strings.Byte.
From S2P Require Import Prelude Bytes CString Chain Dict Wt KvDb.

Record schema_meta_rec_t := Rec { kv_count : Z; bytes : Z; is_active : bool; bitmap : Z }.

(** Copies from the second argument to the first, except the bitmap. *)
Definition schmea_meta_rec_swap (src dst : schema_meta_rec_t) : schema_meta_rec_t :=
  Rec (kv_count dst) (bytes dst) (is_active dst) (bitmap src).

(** [memset] clears the bitmap pointer too. *)
Definition schmea_meta_rec_assign (key_count : Z) (active : bool) (n : Z) : Z * schema_meta_rec_t :=
  (0, Rec key_count n active 0).

Section SchemaMeta.
Context {W : Type} `{!WiredTiger W}.
(** Hash functions of the schemas' dictionary and of the cache. *)
Context (hash_fn cache_hash : list byte -> outcome Z).

Definition schmea_meta_rec_fetch (meta_schema_name key : list byte) (db : kv_db_t W) : outcome (option item * kv_db_t W) :=
  kv_db_get hash_fn db meta_schema_name key.

Definition schmea_meta_rec_save (schema_name key : list byte) (val : item) (db : kv_db_t W) : outcome (Z * kv_db_t W) :=
  kv_db_set hash_fn db schema_name key val.

(** [ptr] is the address of the record, [val] its bytes. *)
Definition schmea_cache_add (cache : dict_t) (db : kv_db_t W) (schema_name key : list byte) (ptr : Z) (val : item)
    : outcome (Z * dict_t * kv_db_t W) :=
  '(ret, db) ← kv_db_set hash_fn db schema_name key val;
  if negb (ret =? 0) then mret (-1, cache, db)
  else
    '(p, cache) ← dict_put cache_hash cache key ptr;
    mret (match p with None => -1 | Some _ => 0 end, cache, db).

(** The result, the records freed, the cache and the database. *)
Definition schmea_cache_del (cache : dict_t) (db : kv_db_t W) (schema_name key : list byte)
    : outcome (Z * list Z * dict_t * kv_db_t W) :=
  '(ret, db) ← kv_db_del hash_fn db schema_name key;
  if negb (ret =? 0) then mret (ret, [], cache, db)
  else
    '(_, freed, cache) ← dict_del cache_hash cache key true;
    mret (0, freed, cache, db).
End SchemaMeta.

Section Spec.
Context {W : Type} `{!WiredTiger W} `{!WiredTigerSpec W}.
Context (hash_fn cache_hash : list byte -> outcome Z).
Hypothesis hash_ok : forall key, exists h, hash_fn key = Ret h /\ fits 32 h.
Hypothesis cache_hash_ok : forall key, exists h, cache_hash key = Ret h /\ fits 32 h.

Lemma cache_add_refines cache cm db w ptrs m t name key ptr val :
  db_ok hash_fn db w ptrs m -> text name -> prefix_safe hash_fn (schema_ctx db) ptrs name -> m !! name = Some t ->
  represents cache_hash cache cm -> text key -> prefix_safe cache_hash cache cm key ->
  Z.of_nat (size cm) < 2 ^ 32 - 1 ->
  exists r cache' db' w' t', schmea_cache_add hash_fn cache_hash cache db name key ptr val = Ret (r, cache', db') /\
    db_ok hash_fn db' w' ptrs (<[name := t']> m) /\
    ((t' = t /\ r = -1 /\ cache' = cache) \/
     (t' = <[key := val]> t /\
      match cm !! key with
      | None => r = 0 /\ represents cache_hash cache' (<[key := ptr]> cm)
      | Some _ => r = -1 /\ cache' = cache
      end)).
Proof.
  intros O Hn Hs Hm R Hk Hks Hsz. unfold schmea_cache_add.
  pose proof (set_refines hash_fn hash_ok db w ptrs m name key val O Hn Hs) as H. rewrite Hm in H.
  destruct H as (r & db' & w' & -> & O' & _). cbn [mbind outcome_bind].
  destruct (Z.eqb_spec r 0) as [->|Hne]; cbn [negb].
  - pose proof (put_refines cache_hash cache_hash_ok cache cm key ptr R Hk Hks Hsz) as Hp.
    destruct (cm !! key) as [q|].
    + rewrite Hp. cbn. eexists _, _, _, w', _. split; [reflexivity|]. split; [exact O'|]. right. done.
    + destruct Hp as (c & cache' & -> & R'). cbn. eexists _, _, _, w', _. split; [reflexivity|].
      split; [exact O'|]. right. done.
  - eexists _, _, _, w', t. split; [reflexivity|]. split; [exact O'|]. left. done.
Qed.

Lemma cache_del_refines cache cm db w ptrs m t name key :
  db_ok hash_fn db w ptrs m -> text name -> prefix_safe hash_fn (schema_ctx db) ptrs name -> m !! name = Some t ->
  represents cache_hash cache cm -> text key -> prefix_safe cache_hash cache cm key ->
  exists r freed cache' db' w' t', schmea_cache_del hash_fn cache_hash cache db name key = Ret (r, freed, cache', db') /\
    db_ok hash_fn db' w' ptrs (<[name := t']> m) /\
    if r =? 0 then t' = delete key t /\ represents cache_hash cache' (delete key cm) /\
                   freed = (match cm !! key with Some p => [p] | None => [] end)
    else t' = t /\ cache' = cache /\ freed = [].
Proof.
  intros O Hn Hs Hm R Hk Hks. unfold schmea_cache_del.
  pose proof (del_refines_table hash_fn hash_ok db w ptrs m name key O Hn Hs) as H. rewrite Hm in H.
  destruct H as (r & db' & w' & -> & O' & _). cbn [mbind outcome_bind].
  destruct (Z.eqb_spec r 0) as [->|Hne]; cbn [negb].
  - pose proof (del_refines cache_hash cache_hash_ok cache cm key true R Hk Hks) as Hp.
    destruct (cm !! key) as [q|] eqn:Hq.
    + destruct Hp as (cache' & -> & R'). cbn [mbind outcome_bind mret outcome_ret].
      eexists _, _, _, _, w', _. split; [reflexivity|]. split; [exact O'|]. done.
    + rewrite Hp. cbn [mbind outcome_bind mret outcome_ret]. eexists _, _, _, _, w', _. split; [reflexivity|].
      split; [exact O'|]. cbn. split; [done|]. split; [by rewrite delete_id|done].
  - eexists _, _, _, _, w', t. split; [reflexivity|]. split; [exact O'|].
    by rewrite (proj2 (Z.eqb_neq _ _)).
Qed.
End Spec.

(** ** The cache as an image of its table *)

(** [heap] is the memory of the records: the cache has a record for every key of
    the table and for no other, with the bytes the table has, and no two keys
    share one. *)
Record image (heap : gmap Z item) (cm : gmap (list byte) Z) (t : gmap item item) : Prop := {
  im_record key p : cm !! key = Some p -> exists v, heap !! p = Some v /\ t !! key = Some v;
  im_dom key : cm !! key = None -> t !! key = None;
  im_apart k1 k2 p : cm !! k1 = Some p -> cm !! k2 = Some p -> k1 = k2 }.

Lemma image_insert heap cm t key p v :
  image heap cm t -> heap !! p = Some v -> (forall k, cm !! k <> Some p) ->
  image heap (<[key := p]> cm) (<[key := v]> t).
Proof.
  intros [Hr Hd Ha] Hp Hf. split.
  - intros k q [[<- <-]|[Hne Hq]]%lookup_insert_Some; [exists v; by rewrite lookup_insert_eq|].
    destruct (Hr k q Hq) as (x & Hx & Ht). exists x. by rewrite lookup_insert_ne.
  - intros k [Hk Hne]%lookup_insert_None. rewrite lookup_insert_ne by done. by apply Hd.
  - intros k1 k2 q H1 H2. apply lookup_insert_Some in H1 as [[<- <-]|[_ H1]], H2 as [[<- E]|[_ H2]]; [done|..].
    + by destruct (Hf k2).
    + subst q. by destruct (Hf k1).
    + by apply (Ha k1 k2 q).
Qed.

(** Removing a key with its record. *)
Lemma image_delete heap cm t key :
  image heap cm t ->
  image (match cm !! key with Some p => delete p heap | None => heap end) (delete key cm) (delete key t).
Proof.
  intros [Hr Hd Ha]. split.
  - intros k q [Hne Hq]%lookup_delete_Some. destruct (Hr k q Hq) as (v & Hv & Ht). exists v.
    rewrite lookup_delete_ne by done. split; [|done]. destruct (cm !! key) as [p|] eqn:Hp; [|done].
    rewrite lookup_delete_ne; [done|]. intros ->. by apply Hne, (Ha key k q).
  - intros k [->|Hk]%lookup_delete_None; [apply lookup_delete_eq|]. rewrite lookup_delete_None. right. by apply Hd.
  - intros k1 k2 q [_ H1]%lookup_delete_Some [_ H2]%lookup_delete_Some. by eapply Ha.
Qed.

(** Overwriting the row of a cached key. *)
Lemma image_overwrite heap cm t key p old v :
  image heap cm t -> cm !! key = Some p -> heap !! p = Some old -> image heap cm (<[key := v]> t) <-> v = old.
Proof.
  intros [Hr Hd Ha] Hp Ho. split.
  - intros [Hr' _ _]. destruct (Hr' key p Hp) as (x & Hx & Ht). rewrite lookup_insert_eq in Ht. congruence.
  - intros ->. destruct (Hr key p Hp) as (x & Hx & Ht). rewrite insert_id by congruence. by split.
Qed.

(** ** Properties *)

(** C25: the schema cache and the metadata table it is written through to.  When
    the cache is an [image] of the table, [schmea_cache_add] of a record at a
    new address under a new key and [schmea_cache_del] of any key keep it one:
    when the table accepts the change they answer 0, the first having bound the
    key in both, the second having removed it from both and freed the record;
    when the table refuses the change the answer is not 0 and nothing has
    changed.  The exception is a key that is cached already: the table is
    overwritten, the cache keeps its old record and the answer is -1, so that
    the cache is an image no longer, unless the two records are equal.

    Names and keys that others of the same bucket extend are left out
    ([prefix_safe]), as in the components below, and the cache has less than
    [2 ^ 32 - 1] entries. *)
Theorem schema_cache_follows_table {W : Type} `{!WiredTiger W} `{!WiredTigerSpec W} hash_fn cache_hash cache cm
    (db : kv_db_t W) w ptrs m t heap name key ptr val :
  (forall key, exists h, hash_fn key = Ret h /\ fits 32 h) -> (forall key, exists h, cache_hash key = Ret h /\ fits 32 h) ->
  db_ok hash_fn db w ptrs m -> text name -> prefix_safe hash_fn (schema_ctx db) ptrs name -> m !! name = Some t ->
  represents cache_hash cache cm -> text key -> prefix_safe cache_hash cache cm key ->
  Z.of_nat (size cm) < 2 ^ 32 - 1 -> image heap cm t ->
  (heap !! ptr = Some val -> (forall k, cm !! k <> Some ptr) ->
   exists r cache' cm' db' w' t', schmea_cache_add hash_fn cache_hash cache db name key ptr val = Ret (r, cache', db') /\
     db_ok hash_fn db' w' ptrs (<[name := t']> m) /\ represents cache_hash cache' cm' /\
     ((r = 0 /\ cm !! key = None /\ cm' = <[key := ptr]> cm /\ t' = <[key := val]> t /\ image heap cm' t') \/
      (r = -1 /\ cm' = cm /\ t' = t) \/
      (r = -1 /\ cm' = cm /\ t' = <[key := val]> t /\
       exists p old, cm !! key = Some p /\ heap !! p = Some old /\ (image heap cm' t' <-> val = old)))) /\
  (exists r freed cache' cm' db' w' t', schmea_cache_del hash_fn cache_hash cache db name key = Ret (r, freed, cache', db') /\
     db_ok hash_fn db' w' ptrs (<[name := t']> m) /\ represents cache_hash cache' cm' /\
     if r =? 0 then t' = delete key t /\ cm' = delete key cm /\ freed = (match cm !! key with Some p => [p] | None => [] end) /\
                    image (foldr delete heap freed) cm' t'
     else t' = t /\ cm' = cm /\ freed = []).
Proof.
  intros Hh Hc O Hn Hs Hm R Hk Hks Hsz I. split.
  - intros Hptr Hfresh. destruct (cache_add_refines hash_fn cache_hash Hh Hc cache cm db w ptrs m t name key ptr val)
      as (r & cache' & db' & w' & t' & E & O' & [(-> & -> & ->)|[-> H]]); try done.
    { exists (-1), cache, cm, db', w', t. split; [done|]. split; [done|]. split; [done|]. right. by left. }
    destruct (cm !! key) as [p|] eqn:Hp; destruct H as [-> H].
    + subst cache'. exists (-1), cache, cm, db', w', (<[key := val]> t). split; [done|]. split; [done|]. split; [done|].
      right. right. split; [done|]. split; [done|]. split; [done|]. destruct (im_record _ _ _ I key p Hp) as (old & Ho & _).
      exists p, old. split; [done|]. split; [done|]. by eapply image_overwrite.
    + exists 0, cache', (<[key := ptr]> cm), db', w', (<[key := val]> t). split; [done|]. split; [done|]. split; [done|].
      left. repeat (split; [done|]). by apply image_insert.
  - destruct (cache_del_refines hash_fn cache_hash Hh Hc cache cm db w ptrs m t name key)
      as (r & freed & cache' & db' & w' & t' & E & O' & H); try done.
    destruct (r =? 0) eqn:Er; destruct H as (-> & H & ->).
    + exists r, (match cm !! key with Some p => [p] | None => [] end), cache', (delete key cm), db', w', (delete key t).
      rewrite Er. repeat (split; [done|]). pose proof (image_delete heap cm t key I) as I'. by destruct (cm !! key).
    + subst cache'. exists r, [], cache, cm, db', w', t. by rewrite Er.
Qed.

Import Wt.Mem.

(** A record of [x6b] at address 5, for an empty cache of an empty table. *)
Lemma schema_cache_follows_table_witness :
  exists db p w, db_ok dict_default_hash_fn db w {[ users := p ]} {[ users := ∅ ]} /\
    exists r cache' cm' db' w' t',
      schmea_cache_add dict_default_hash_fn dict_default_hash_fn (dict_init 8) db users [x6b] 5 [x76] = Ret (r, cache', db') /\
      db_ok dict_default_hash_fn db' w' {[ users := p ]} (<[users := t']> {[ users := ∅ ]}) /\
      represents dict_default_hash_fn cache' cm'.
Proof.
  destruct (kv_db_alloc_ok dict_default_hash_fn [x61] [x62] mem0) as (db & _ & O).
  destruct (alloc_refines dict_default_hash_fn default_hash_ok db mem0 ∅ ∅ users O mem_creation)
    as (p & db' & w' & _ & _ & O'); [vm_decide|cbn; lia|apply prefix_safe_empty|reflexivity|reflexivity|].
  assert (represents dict_default_hash_fn (dict_init 8) ∅) as R by (apply init_represents; lia).
  exists db', p, w'. split; [exact O'|].
  destruct (schema_cache_follows_table dict_default_hash_fn dict_default_hash_fn (dict_init 8) ∅ db' w'
    {[ users := p ]} {[ users := ∅ ]} ∅ {[ 5 := [x76] ]} users [x6b] 5 [x76] default_hash_ok default_hash_ok O')
    as [H _].
  - vm_decide.
  - apply prefix_safe_singleton.
  - reflexivity.
  - exact R.
  - vm_decide.
  - apply prefix_safe_empty.
  - reflexivity.
  - split; intros *; [discriminate|reflexivity|discriminate].
  - destruct H as (r & cache' & cm' & db2 & w2 & t2 & H1 & H2 & H3 & _); [reflexivity|discriminate|].
    exists r, cache', cm', db2, w2, t2. split; [exact H1|]. split; [exact H2|exact H3].
Defined.
