(* ===== verification/SchemaDump.v ===== *)
(** * Printing a metadata record
      ([schmea_meta_rec_dump] of [src/metaserver/schmea_meta.c])

    The JSON library is not part of the repository: [Jansson] has the calls the
    function makes, [JanssonSpec] their documented behaviour as far as objects
    of integers go.  [json_integer] takes a signed 64-bit number. *)

From Stdlib Require Import Strings.Byte Strings.String.
From stdpp Require Import countable.
From S2P Require Import Prelude Bytes Format SchemaMeta.

Class Jansson (J T : Type) := {
  json_object : J;
  json_integer : Z -> J;
  json_object_set : J -> list byte -> J -> J;
  json_dumps : J -> Z -> T }.

(** [int_at o key]: the integer under [key], by [json_object_get] and
    [json_integer_value]. *)
Class JanssonSpec (J T : Type) `{!Jansson J T} := {
  is_object : J -> Prop;
  int_at : J -> list byte -> option Z;
  json_loads : T -> option J;
  object_law : is_object json_object;
  set_object_law o k v : is_object o -> is_object (json_object_set o k v);
  int_at_empty k : int_at json_object k = None;
  int_at_set o k z : is_object o -> - 2 ^ 63 <= z < 2 ^ 63 -> int_at (json_object_set o k (json_integer z)) k = Some z;
  int_at_set_ne o k k' v : is_object o -> k <> k' -> int_at (json_object_set o k v) k' = int_at o k';
  loads_dumps o : is_object o -> exists o', json_loads (json_dumps o 0) = Some o' /\ is_object o' /\ forall k, int_at o' k = int_at o k }.

Section Dump.
Context {J T : Type} `{!Jansson J T}.

(** The conversions to [json_int_t]. *)
Definition schmea_meta_rec_dump (rec : schema_meta_rec_t) : T :=
  let obj := json_object in
  let obj := json_object_set obj (lit "kv_count") (json_integer (s64 (kv_count rec))) in
  let obj := json_object_set obj (lit "total_bytes") (json_integer (s64 (bytes rec))) in
  let active := if is_active rec then 1 else 0 in
  let obj := json_object_set obj (lit "is_active") (json_integer active) in
  json_dumps obj 0.

Context `{!JanssonSpec J T}.

(** Reading a record back from its text; the bitmap is not in it. *)
Definition rec_parse (txt : T) : option schema_meta_rec_t :=
  o ← json_loads txt;
  n ← int_at o (lit "kv_count");
  b ← int_at o (lit "total_bytes");
  a ← int_at o (lit "is_active");
  Some (Rec n b (negb (a =? 0)) 0).

Lemma dump_parse rec :
  rec_parse (schmea_meta_rec_dump rec) = Some (Rec (s64 (kv_count rec)) (s64 (bytes rec)) (is_active rec) 0).
Proof.
  unfold schmea_meta_rec_dump. assert (forall z, - 2 ^ 63 <= s64 z < 2 ^ 63) as Hs.
  { intros z. unfold swrap. pose proof (wrap_fits 64 z ltac:(lia)) as [H0 H1].
    destruct (Z.ltb_spec (wrap 64 z) (2 ^ (64 - 1))); lia. }
  set (o1 := json_object_set json_object _ _). set (o2 := json_object_set o1 _ _). set (o3 := json_object_set o2 _ _).
  assert (is_object o1) as H1 by (apply set_object_law, object_law).
  assert (is_object o2) as H2 by (by apply set_object_law).
  assert (is_object o3) as H3 by (by apply set_object_law).
  destruct (loads_dumps o3 H3) as (o & Hl & _ & Ho). unfold rec_parse. rewrite Hl. cbn [mbind option_bind]. rewrite !Ho.
  unfold o3. rewrite int_at_set by (try done; destruct (is_active rec); lia).
  rewrite !int_at_set_ne by (done || vm_decide). unfold o2. rewrite int_at_set by done.
  rewrite int_at_set_ne by (done || vm_decide). unfold o1. rewrite int_at_set by (apply object_law || apply Hs).
  cbn. by destruct (is_active rec).
Qed.
End Dump.

(** ** Properties *)

(** C30: the text of a record reads back as the record without its bitmap, as
    long as its byte count is below 2^63; a larger one is printed as a
    negative number, so that no record with such a count is recovered. *)
Theorem rec_dump_roundtrip {J T : Type} `{!Jansson J T, !JanssonSpec J T} rec :
  fits 32 (kv_count rec) -> fits 64 (bytes rec) ->
  rec_parse (J := J) (schmea_meta_rec_dump (J := J) (T := T) rec) =
    Some (schmea_meta_rec_swap (Rec 0 0 false 0) (Rec (kv_count rec) (if bytes rec <? 2 ^ 63 then bytes rec else bytes rec - 2 ^ 64) (is_active rec) 0)).
Proof.
  intros [Hk Hk'] [Hb Hb']. rewrite dump_parse. unfold schmea_meta_rec_swap. cbn.
  rewrite (s64_small (kv_count rec)) by lia. unfold swrap. rewrite (wrap_small 64 (bytes rec)) by done. done.
Qed.

(** ** An instance: objects of integers, numbered *)

Module JsonExample.
Definition json : Type := Z + gmap (list byte) Z.

#[export] Instance json_ops : Jansson json positive := {
  json_object := inr ∅;
  json_integer z := inl z;
  json_object_set o k v :=
    match o, v with
    | inr m, inl z => inr (<[k := z]> m)
    | inr m, inr _ => inr (delete k m)
    | inl z, _ => inl z
    end;
  json_dumps o _ := encode o }.

#[export] Instance json_spec : JanssonSpec json positive.
Proof.
  refine {| is_object := fun o : json => if o is inr _ then True else False;
            int_at := fun o k => match o with inr m => m !! k | inl _ => None end;
            json_loads := decode |}.
  - done.
  - by intros [z|m] k [v|v].
  - intros k. apply lookup_empty.
  - intros [z|m] k x Ho _; [done|]. apply lookup_insert_eq.
  - intros [z|m] k k' [v|v] Ho Hne; try done; [by apply lookup_insert_ne|by apply lookup_delete_ne].
  - intros o Ho. exists o. split; [apply decode_encode|done].
Defined.
End JsonExample.
Import JsonExample.

Lemma rec_dump_roundtrip_witness :
  rec_parse (J := json) (schmea_meta_rec_dump (J := json) (T := positive) (Rec 7 9 true 4096)) = Some (Rec 7 9 true 0).
Proof. apply (rec_dump_roundtrip (J := json) (T := positive) (Rec 7 9 true 4096)); vm_decide. Defined.
