(* ===== verification/Scan.v ===== *)
(** * Scanning a table and loading the schema cache
      ([kv_schmea_search] of [src/metaserver/kv_db.c], [schema_cache_load] of
      [src/metaserver/schmea_meta.c])

    A scan walks a table with a cursor of its own while its callback uses the
    database.  [WiredTigerScan] adds the two calls that takes to the interface
    of [Wt].  The scan stores a terminator behind the key, inside memory of
    the storage engine: [room] says whether the engine's buffer has a byte to
    spare there.  The cache and its records, members of the database in the
    source, are kept beside it. *)

From Stdlib Require Import Strings.Byte.
From S2P Require Import Prelude Bytes CString Format Chain Dict Wt KvDb SchemaMeta.

Class WiredTigerScan (W : Type) := {
  cursor_next : W -> nat -> Z * W;
  cursor_get_key : W -> nat -> Z * item }.

(** [upcoming w c] are the records cursor [c] has still to visit. *)
Class WiredTigerScanSpec (W : Type) `{!WiredTiger W, !WiredTigerSpec W, !WiredTigerScan W} := {
  upcoming : W -> nat -> list (item * item);
  next_law w c r w' : cursor_next w c = (r, w') ->
    tables (view w') = tables (view w) /\
    (forall c', c' <> c -> cursors (view w') !! c' = cursors (view w) !! c') /\
    (is_Some (cursors (view w) !! c) -> is_Some (cursors (view w') !! c)) /\
    match upcoming w c with
    | [] => r <> 0
    | (k, x) :: l => r = 0 -> upcoming w' c = l /\ cursor_get_value w' c = x /\
                     forall r' k', cursor_get_key w' c = (r', k') -> r' = 0 -> k' = k
    end;
  scan_close_law w c r w' : cursor_close w c = (r, w') ->
    tables (view w') = tables (view w) /\ forall c', c' <> c -> cursors (view w') !! c' = cursors (view w) !! c';
  upcoming_open w s u c w' t : open_cursor w s u = (0, c, w') -> tables (view w) !! u = Some t ->
    upcoming w' c ≡ₚ map_to_list t /\
    forall c', is_Some (cursors (view w) !! c') -> upcoming w' c' = upcoming w c';
  upcoming_session w r s w' c : open_session w = (r, s, w') -> upcoming w' c = upcoming w c;
  upcoming_create w s u r w' c : session_create w s u = (r, w') -> upcoming w' c = upcoming w c;
  upcoming_key w c k c' : c' <> c -> upcoming (set_key w c k) c' = upcoming w c';
  upcoming_search w c r w' c' : cursor_search w c = (r, w') -> c' <> c -> upcoming w' c' = upcoming w c' }.

(** ["sys_schema_meta"] and the size of the cache. *)
Definition SYS_SCHEMA_META_TABLE_NAME : list byte := lit "sys_schema_meta".
Definition SCHEMA_MAX_SIZE : Z := 65535.

Section Scan.
Context {W : Type} `{!WiredTiger W, !WiredTigerScan W}.
Context (hash_fn : list byte -> outcome Z) (room : bool).

Section Search.
Context {X : Type}.
Abbreviation state := (kv_db_t W * X)%type.
Context (cb : state -> list byte -> item -> outcome (Z * state)).

(** The loop over the cursor [c].  The callback gets the memory behind the key:
    the key and the terminator. *)
Fixpoint scan_loop (rounds : nat) (st : state) (c : nat) (dst : option (list byte * Z)) : outcome (Z * state) :=
  match rounds with
  | O => OutOfFuel
  | S rounds =>
      w ← from_option_undef (conn st.1);
      let '(ret, w) := cursor_next w c in
      if negb (ret =? 0) then
        let '(_, w) := cursor_close w c in mret (-1, (set_conn st.1 w, st.2))
      else
        let '(ret, key) := cursor_get_key w c in
        let st := (set_conn st.1 w, st.2) in
        if negb (ret =? 0) then mret (-1, st)
        else
          let val := cursor_get_value w c in
          c_defined room ;;
          let key_str := cstring key in
          found ← match dst with
            | Some (dst_key, dst_key_sz) =>
                if 0 <? dst_key_sz then r ← memcmp key_str dst_key (Z.to_nat dst_key_sz); mret (negb (r =? 0))
                else mret false
            | None => mret false
            end;
          if (found : bool) then
            let '(_, w) := cursor_close w c in cb (set_conn st.1 w, st.2) key_str val
          else '(_, st) ← cb st key_str val; scan_loop rounds st c dst
  end.

(** [dst]: the key to stop at and its length, [None] for a null pointer.  A
    cursor that cannot be opened is a null pointer. *)
Definition kv_schmea_search (rounds : nat) (st : state) (p : Z) (dst : option (list byte * Z)) : outcome (Z * state) :=
  s ← schema_at st.1 p;
  w ← from_option_undef (conn st.1);
  let '(r, c, w) := open_cursor w (s_session s) (s_uri s) in
  c_defined (r =? 0) ;;
  scan_loop rounds (set_conn st.1 w, st.2) c dst.
End Search.

(** The cache, the records allocated, by address, and the next address. *)
Record cache_state := CacheState { c_cache : dict_t; c_recs : gmap Z schema_meta_rec_t; c_next : Z }.

(** The members of the record whose bytes are [v]. *)
Definition rec_load (v : item) : outcome (Z * bool * Z) :=
  n ← load_le v 0 4; b ← load_le v 8 8; a ← load_le v 16 1; mret (n, negb (a =? 0), b).

(** The cache was made without a hash function and has the default one. *)
Definition schema_cache_load_cb (st : kv_db_t W * cache_state) (key : list byte) (val : item)
    : outcome (Z * (kv_db_t W * cache_state)) :=
  let '(db, cs) := st in
  name ← strdup key;
  '(_, db) ← kv_schema_alloc hash_fn name (Some db) false;
  '(prev_meta, db) ← schmea_meta_rec_fetch hash_fn SYS_SCHEMA_META_TABLE_NAME name db;
  let new_meta := c_next cs in
  prev ← from_option_undef prev_meta;
  '(n, active, b) ← rec_load prev;
  let '(_, rec) := schmea_meta_rec_assign n active b in
  '(_, cache) ← dict_put dict_default_hash_fn (c_cache cs) name new_meta;
  mret (0, (db, CacheState cache (<[new_meta := rec]> (c_recs cs)) (new_meta + 1))).

Definition schema_cache_load (rounds : nat) (meta_name : list byte) (db : kv_db_t W)
    : outcome (Z * (kv_db_t W * cache_state)) :=
  meta ← kv_db_fetch_schema hash_fn (Some db) (Some meta_name);
  let cs := CacheState (dict_init SCHEMA_MAX_SIZE) ∅ 1 in
  '(_, st) ← kv_schmea_search schema_cache_load_cb rounds (db, cs) meta None;
  mret (0, st).
End Scan.

(** ** Cursors no schema owns *)

Section Spec.
Context {W : Type} `{!WiredTiger W, !WiredTigerSpec W, !WiredTigerScan W, !WiredTigerScanSpec W}.
Context (hash_fn : list byte -> outcome Z).
Hypothesis hash_ok : forall key, exists h, hash_fn key = Ret h /\ fits 32 h.

Abbreviation database := (gmap (list byte) (gmap item item)).

Definition free_cursor (db : kv_db_t W) (ptrs : gmap (list byte) Z) (c : nat) : Prop :=
  forall name p s, ptrs !! name = Some p -> schemas db !! p = Some s -> s_cursor s <> Some c.

(** A call that moved only cursor [c]. *)
Lemma free_ok (db : kv_db_t W) (w : W) (ptrs : gmap (list byte) Z) (m : database) (c : nat) (w' : W) :
  db_ok hash_fn db w ptrs m -> free_cursor db ptrs c -> tables (view w') = tables (view w) ->
  (forall c', c' <> c -> cursors (view w') !! c' = cursors (view w) !! c') ->
  db_ok hash_fn (set_conn db w') w' ptrs m.
Proof.
  intros O Hf Ht Hc. split; cbn; [done|apply O| |apply O|apply O|apply O|apply O].
  intros name p Hp. destruct (db_schema _ _ _ _ _ O _ _ Hp) as (Hnz & Hl & s & c2 & t & k & x & H1 & H2 & H3 & [H4 H5]).
  split; [done|]. split; [done|]. exists s, c2, t, k, x. do 3 (split; [done|]). split; [|by rewrite Ht].
  rewrite Hc; [done|]. intros ->. by apply (Hf name p s).
Qed.

(** A scan reaches the end of its table. *)
Definition scans_succeed : Prop := forall w c r w',
  cursor_next w c = (r, w') -> upcoming w c <> [] -> r = 0 /\ (cursor_get_key w' c).1 = 0.

Lemma get_present (db : kv_db_t W) (w : W) (ptrs : gmap (list byte) Z) (m : database) name key t y c :
  db_ok hash_fn db w ptrs m -> text name -> prefix_safe hash_fn (schema_ctx db) ptrs name ->
  m !! name = Some t -> t !! key = Some y -> reads_succeed -> free_cursor db ptrs c ->
  exists db' w', kv_db_get hash_fn db name key = Ret (Some y, db') /\ db_ok hash_fn db' w' ptrs m /\
    upcoming w' c = upcoming w c /\ cursors (view w') !! c = cursors (view w) !! c /\
    schemas db' = schemas db /\ schema_ctx db' = schema_ctx db.
Proof.
  intros O Hn Hs Hm Hy Hrd Hfree. pose proof (fetched hash_fn hash_ok db w ptrs m name O Hn Hs) as Hf. rewrite Hm in Hf.
  destruct Hf as (p & s & cs & k & x & E & Hnz & Hp & Hsc & Hc & Hon). unfold kv_db_get. rewrite E. cbn [mbind outcome_bind].
  rewrite (proj2 (Z.eqb_neq _ _)) by done. unfold schema_at. rewrite Hsc. cbn [from_option_undef mbind outcome_bind].
  rewrite Hc. cbn [from_option_undef mbind outcome_bind]. rewrite (db_conn _ _ _ _ _ O). cbn [from_option_undef mbind outcome_bind].
  destruct (keyed _ _ _ _ _ _ key Hon) as [M1 H1].
  destruct (cursor_search _ cs) as [r w'] eqn:Es. destruct (search_law _ _ _ _ _ _ _ _ H1 Es) as [M2 Hr].
  pose proof (Hrd _ _ _ _ _ _ H1 (ex_intro _ _ Hy)) as Hr0. rewrite Es in Hr0. cbn in Hr0. subst r.
  destruct (Hr eq_refl) as (y' & Hy' & Hv). assert (y' = y) as -> by congruence.
  assert (c <> cs) as Hne by (intros ->; by apply (Hfree name p s)).
  exists (set_conn db w'), w'. rewrite Hv. split; [done|]. split; [|split; [|split; [|done]]].
  - rewrite <- (insert_id m name t) by done. eapply moved_ok; eauto. eapply moved_trans; eauto.
  - by rewrite (upcoming_search _ _ _ _ c Es Hne), upcoming_key by done.
  - destruct M1 as (_ & k1 & x1 & C1), M2 as (_ & k2 & x2 & C2). by rewrite C2, C1, !lookup_insert_ne.
Qed.

(** What a creation that succeeded has done. *)
Lemma alloc_steps (db : kv_db_t W) (w : W) name p db' :
  conn db = Some w -> next_schema db <> 0 -> creation_succeeds (W := W) -> kv_schema_alloc hash_fn name (Some db) false = Ret (p, db') ->
  exists s c w1 w2 w3 d, open_session w = (0, s, w1) /\ session_create w1 s (table_uri name) = (0, w2) /\
    open_cursor w2 s (table_uri name) = (0, c, w3) /\ p = next_schema db /\
    db' = Db (database_name db) (database_dir db) d (Some w3)
            (<[p := Schema s (Some c) (table_uri name) name]> (schemas db)) (p + 1).
Proof.
  intros Hconn Hnext (Hs & Hc & Ho) Ha. unfold kv_schema_alloc in Ha. cbn [c_assert from_option_undef mbind outcome_bind] in Ha.
  rewrite Hconn in Ha. cbn [from_option_undef mbind outcome_bind] in Ha.
  destruct (open_session w) as [[r s] w1] eqn:E1. pose proof (Hs _ _ _ _ E1) as ->.
  cbn [Z.eqb negb c_assert mbind outcome_bind mret outcome_ret] in Ha.
  destruct (session_create w1 s (table_uri name)) as [r w2] eqn:E2. pose proof (Hc _ _ _ _ _ E2) as ->.
  cbn [Z.eqb negb c_assert mbind outcome_bind] in Ha.
  destruct (open_cursor w2 s (table_uri name)) as [[r c] w3] eqn:E3. pose proof (Ho _ _ _ _ _ _ E3) as ->.
  cbn [Z.eqb negb c_assert mbind outcome_bind] in Ha.
  unfold kv_db_register_schema in Ha. cbn [schema_ctx schemas] in Ha.
  rewrite (proj2 (Z.eqb_neq (next_schema db) 0)) in Ha by done.
  unfold schema_at in Ha. cbn [schemas] in Ha. rewrite lookup_insert_eq in Ha. cbn [from_option_undef mbind outcome_bind s_name] in Ha.
  destruct (dict_put _ _ _ _) as [[rp d]| | |]; try discriminate Ha. cbn in Ha. injection Ha as <- <-.
  exists s, c, w1, w2, w3, d. done.
Qed.

(** Creating a schema leaves the cursor of a scan alone. *)
Lemma alloc_frame (db : kv_db_t W) (w : W) (ptrs : gmap (list byte) Z) (m : database) name p db' c :
  db_ok hash_fn db w ptrs m -> creation_succeeds (W := W) -> kv_schema_alloc hash_fn name (Some db) false = Ret (p, db') ->
  is_Some (cursors (view w) !! c) -> free_cursor db ptrs c -> ptrs !! name = None ->
  exists w', conn db' = Some w' /\ upcoming w' c = upcoming w c /\ is_Some (cursors (view w') !! c) /\
    free_cursor db' (<[name := p]> ptrs) c.
Proof.
  intros O Hcr Ha Hcur Hfree Hnew. destruct (db_fresh _ _ _ _ _ O) as [Hnext Hdom].
  destruct (alloc_steps db w name p db' (db_conn _ _ _ _ _ O) ltac:(lia) Hcr Ha)
    as (s & c2 & w1 & w2 & w3 & d & E1 & E2 & E3 & -> & ->).
  pose proof (session_law _ _ _ _ E1) as V1. pose proof (create_law _ _ _ _ _ E2) as V2. cbn in V2. rewrite V1 in V2.
  assert (tables (view w2) !! table_uri name = Some (default ∅ (tables (view w) !! table_uri name))) as Ht2
    by (rewrite V2; cbn; apply lookup_insert_eq).
  assert (cursors (view w2) = cursors (view w)) as Hc2 by (by rewrite V2).
  pose proof (open_cursor_law _ _ _ _ _ _ E3 (ex_intro _ _ Ht2)) as [Hfresh V3].
  destruct (upcoming_open _ _ _ _ _ _ E3 Ht2) as [_ Hup]. rewrite Hc2 in Hfresh, Hup, V3.
  assert (c2 <> c) as Hne by (intros ->; rewrite Hfresh in Hcur; by destruct Hcur).
  exists w3. split; [done|]. split; [|split].
  - rewrite Hup by done. by rewrite (upcoming_create _ _ _ _ _ c E2), (upcoming_session _ _ _ _ c E1).
  - rewrite V3. cbn. by rewrite lookup_insert_ne.
  - intros n q s2 Hn Hs2. cbn in Hs2. apply lookup_insert_Some in Hn as [[<- <-]|[Hnn Hn]].
    + rewrite lookup_insert_eq in Hs2. injection Hs2 as <-. cbn. congruence.
    + destruct (db_schema _ _ _ _ _ O _ _ Hn) as (_ & _ & s3 & _ & _ & _ & _ & Hs3 & _).
      pose proof (Hdom q (ex_intro _ _ Hs3)). rewrite lookup_insert_ne in Hs2 by lia. by apply (Hfree n q s2).
Qed.

(** ** Loading the cache *)

(** No name of a set starts with another one. *)
Definition apart (N : list byte -> Prop) : Prop := forall a b, N a -> N b -> a `prefix_of` b -> a = b.

Lemma apart_safe (N : list byte -> Prop) (h : list byte -> outcome Z) (d : dict_t) (mm : gmap (list byte) Z) key :
  apart N -> N key -> (forall name, is_Some (mm !! name) -> N name) -> prefix_safe h d mm key.
Proof. intros Ha Hk Hd key' Hkey' Hp _. symmetry. apply Ha; auto. Qed.

Section Load.
Context (ptrs : gmap (list byte) Z) (t : gmap item item).

(** The names there are before and after, and what is asked of them. *)
Definition known (name : list byte) : Prop := is_Some (ptrs !! name) \/ is_Some (t !! name).

(** A metadata table of [known] names that can be loaded. *)
Record loadable : Prop := {
  lo_apart : apart known;
  lo_meta : is_Some (ptrs !! SYS_SCHEMA_META_TABLE_NAME);
  lo_names k v : t !! k = Some v -> text k /\ (length k <= 249)%nat /\ ptrs !! k = None /\ returns (rec_load v);
  lo_size : Z.of_nat (size ptrs) + Z.of_nat (size t) < 2 ^ 32 - 1 }.

(** After the records [done] of the scan. *)
Record loaded (done : list (item * item)) (db : kv_db_t W) (cs : cache_state) (w : W)
    (ptrs' : gmap (list byte) Z) (m' : database) (cm : gmap (list byte) Z) : Prop := {
  ld_ok : db_ok hash_fn db w ptrs' m';
  ld_meta : m' !! SYS_SCHEMA_META_TABLE_NAME = Some t;
  ld_dom name : is_Some (ptrs' !! name) <-> is_Some (ptrs !! name) \/ name ∈ done.*1;
  ld_size : size ptrs' = (size ptrs + length done)%nat /\ size cm = length done;
  ld_cache : represents dict_default_hash_fn (c_cache cs) cm;
  ld_keys name : is_Some (cm !! name) <-> name ∈ done.*1;
  ld_recs k v : (k, v) ∈ done -> exists q r, cm !! k = Some q /\ c_recs cs !! q = Some r /\
    rec_load v = Ret (kv_count r, is_active r, bytes r) /\ bitmap r = 0;
  ld_next q : is_Some (c_recs cs !! q) -> q < c_next cs;
  ld_in : Forall (fun kv => t !! kv.1 = Some kv.2) done }.

(** The scanning cursor during the scan. *)
Definition scanning (db : kv_db_t W) (w : W) (ptrs' : gmap (list byte) Z) (c : nat) (rest : list (item * item)) : Prop :=
  upcoming w c = rest /\ is_Some (cursors (view w) !! c) /\ free_cursor db ptrs' c.

Hypothesis L : loadable.
Hypothesis Hcreate : creation_succeeds (W := W).
Hypothesis Hreads : reads_succeed.

Lemma known_done done name : Forall (fun kv => t !! kv.1 = Some kv.2) done -> name ∈ done.*1 -> known name.
Proof.
  intros H Hn. apply list_elem_of_fmap in Hn as ([k v] & -> & Hin). right. rewrite Forall_forall in H.
  rewrite (H _ Hin). eauto.
Qed.

(** The state after one record. *)
Lemma loaded_snoc done db cs w ptrs' m' cm k v p db' w' m2 cache n a b :
  loaded done db cs w ptrs' m' cm -> t !! k = Some v -> k ∉ done.*1 ->
  db_ok hash_fn db' w' (<[k := p]> ptrs') m2 -> m2 !! SYS_SCHEMA_META_TABLE_NAME = Some t ->
  represents dict_default_hash_fn cache (<[k := c_next cs]> cm) -> rec_load v = Ret (n, a, b) ->
  loaded (done ++ [(k, v)]) db' (CacheState cache (<[c_next cs := Rec n b a 0]> (c_recs cs)) (c_next cs + 1)) w'
    (<[k := p]> ptrs') m2 (<[k := c_next cs]> cm).
Proof.
  intros D Hk Hnew O Hm R Hrec. destruct (lo_names L k v Hk) as (_ & _ & Hnone & _).
  assert (ptrs' !! k = None) as Hp.
  { apply eq_None_not_Some. rewrite (ld_dom _ _ _ _ _ _ _ D), Hnone. intros [[? ?]|?]; done. }
  assert (cm !! k = None) as Hc by (apply eq_None_not_Some; by rewrite (ld_keys _ _ _ _ _ _ _ D)).
  split; cbn [c_cache c_recs c_next]; try done.
  - intros name. rewrite lookup_insert_is_Some', (ld_dom _ _ _ _ _ _ _ D), fmap_app. cbn.
    rewrite elem_of_app, list_elem_of_singleton. naive_solver.
  - rewrite !map_size_insert_None, length_app by done. destruct (ld_size _ _ _ _ _ _ _ D). cbn. lia.
  - intros name. rewrite lookup_insert_is_Some', (ld_keys _ _ _ _ _ _ _ D), fmap_app. cbn.
    rewrite elem_of_app, list_elem_of_singleton. naive_solver.
  - intros k2 v2 Hin. apply elem_of_app in Hin as [Hin|Hin%list_elem_of_singleton].
    + destruct (ld_recs _ _ _ _ _ _ _ D k2 v2 Hin) as (q & r & H1 & H2 & H3).
      exists q, r. rewrite lookup_insert_ne. 2: { intros <-. apply Hnew, list_elem_of_fmap. by exists (k, v2). }
      split; [done|]. rewrite lookup_insert_ne; [done|]. pose proof (ld_next _ _ _ _ _ _ _ D q (ex_intro _ _ H2)). lia.
    + injection Hin as -> ->. exists (c_next cs), (Rec n b a 0). by rewrite !lookup_insert_eq.
  - intros q. rewrite lookup_insert_is_Some'. intros [<-|H%(ld_next _ _ _ _ _ _ _ D)]; lia.
  - apply Forall_app. split; [apply D|]. by repeat constructor.
Qed.

Lemma load_one done rest db cs w ptrs' m' cm c k v :
  loaded done db cs w ptrs' m' cm -> scanning db w ptrs' c rest -> t !! k = Some v -> k ∉ done.*1 ->
  (length done <= size t)%nat ->
  exists db' cs' w' ptrs2 m2 cm2, schema_cache_load_cb hash_fn (db, cs) (cstring k) v = Ret (0, (db', cs')) /\
    loaded (done ++ [(k, v)]) db' cs' w' ptrs2 m2 cm2 /\ scanning db' w' ptrs2 c rest.
Proof.
  intros D (Hup & Hcur & Hfree) Hk Hnew Hlen. destruct (lo_names L k v Hk) as (Htext & Hl & Hnone & (((n & a) & b) & Hrec)).
  destruct (ld_size _ _ _ _ _ _ _ D) as [Hsz1 Hsz2]. pose proof (lo_size L).
  assert (known k) as Hkk by (right; eauto). assert (known SYS_SCHEMA_META_TABLE_NAME) as Hks by (left; apply (lo_meta L)).
  assert (forall name, is_Some (ptrs' !! name) -> known name) as Hp.
  { intros name Hn. apply (ld_dom _ _ _ _ _ _ _ D) in Hn as [Hn|Hn]; [by left|]. eapply known_done; [apply D|done]. }
  assert (ptrs' !! k = None) as Hnone'.
  { apply eq_None_not_Some. rewrite (ld_dom _ _ _ _ _ _ _ D), Hnone. intros [[? ?]|?]; done. }
  destruct (alloc_refines hash_fn hash_ok db w ptrs' m' k) as (p & db1 & w1 & Ha & _ & O1);
    [apply D|done|done|done|by apply (apart_safe known); [apply (lo_apart L)|..]|done|lia|].
  destruct (alloc_frame db w ptrs' m' k p db1 c) as (w1' & Hw1 & Hup1 & Hcur1 & Hfree1); try done; [apply D|].
  rewrite (db_conn _ _ _ _ _ O1) in Hw1. injection Hw1 as <-.
  assert (k <> SYS_SCHEMA_META_TABLE_NAME) as Hks' by (intros ->; destruct (lo_meta L) as [? E]; congruence).
  destruct (get_present db1 w1 (<[k := p]> ptrs') _ SYS_SCHEMA_META_TABLE_NAME k t v c O1)
    as (db2 & w2 & Hg & O2 & Hup2 & Hcur2 & Hs2 & _); try done; [vm_decide| |rewrite lookup_insert_ne by done; apply D|].
  { apply (apart_safe known); [apply (lo_apart L)|done|]. intros name [<-|Hn]%lookup_insert_is_Some'; auto. }
  assert (cm !! k = None) as Hcm by (apply eq_None_not_Some; by rewrite (ld_keys _ _ _ _ _ _ _ D)).
  pose proof (put_refines dict_default_hash_fn default_hash_ok (c_cache cs) cm k (c_next cs) (ld_cache _ _ _ _ _ _ _ D) Htext) as Hput.
  rewrite Hcm in Hput. destruct Hput as (cc & cache & Hput & R).
  { apply (apart_safe known); [apply (lo_apart L)|done|]. intros name Hn%(ld_keys _ _ _ _ _ _ _ D). eapply known_done; [apply D|done]. }
  { lia. }
  unfold schema_cache_load_cb. rewrite (strdup_text k [] Htext : strdup (cstring k) = _). cbn [mbind outcome_bind].
  rewrite Ha. cbn [mbind outcome_bind]. unfold schmea_meta_rec_fetch. rewrite Hg. cbn [mbind outcome_bind from_option_undef].
  rewrite Hrec. cbn [mbind outcome_bind schmea_meta_rec_assign]. rewrite Hput. cbn [mbind outcome_bind mret outcome_ret].
  eexists _, _, w2, _, _, _. split; [reflexivity|]. split.
  - eapply loaded_snoc; try done. rewrite lookup_insert_ne by done. apply D.
  - split; [by rewrite Hup2, Hup1|]. split; [by rewrite Hcur2|]. intros nm q s Hq Hsc. rewrite Hs2 in Hsc. by apply (Hfree1 nm q s).
Qed.

Lemma loaded_conn done db cs w ptrs' m' cm w2 :
  loaded done db cs w ptrs' m' cm -> db_ok hash_fn (set_conn db w2) w2 ptrs' m' ->
  loaded done (set_conn db w2) cs w2 ptrs' m' cm.
Proof. intros [] O. by split. Qed.

(** The whole scan. *)
Lemma load_all done rest db cs w ptrs' m' cm c rounds :
  scans_succeed -> loaded done db cs w ptrs' m' cm -> scanning db w ptrs' c rest ->
  Forall (fun kv => t !! kv.1 = Some kv.2) rest -> NoDup (done.*1 ++ rest.*1) ->
  (length done + length rest <= size t)%nat -> (length rest < rounds)%nat ->
  exists db' cs' w' ptrs2 m2 cm2,
    scan_loop true (schema_cache_load_cb hash_fn) rounds (db, cs) c None = Ret (-1, (db', cs')) /\
    loaded (done ++ rest) db' cs' w' ptrs2 m2 cm2.
Proof.
  intros Hscan. revert done db cs w ptrs' m' cm rounds.
  induction rest as [|[k v] rest IH]; intros done db cs w ptrs' m' cm rounds D (Hup & Hcur & Hfree) Hin Hnd Hlen Hr;
    (destruct rounds as [|rounds]; [cbn in Hr; lia|]); cbn [scan_loop fst snd];
    rewrite (db_conn _ _ _ _ _ (ld_ok _ _ _ _ _ _ _ D)); cbn [from_option_undef mbind outcome_bind];
    destruct (cursor_next w c) as [r w1] eqn:En; destruct (next_law _ _ _ _ En) as (Ht1 & Hc1 & Hs1 & Hn); rewrite Hup in Hn.
  - rewrite (proj2 (Z.eqb_neq _ _)) by done. cbn [negb]. destruct (cursor_close w1 c) as [r2 w2] eqn:Ec.
    destruct (scan_close_law _ _ _ _ Ec) as [Ht2 Hc2]. eexists _, _, w2, ptrs', m', cm. split; [reflexivity|].
    rewrite app_nil_r. apply loaded_conn with w; [done|]. eapply free_ok; [apply D|done|congruence|].
    intros c' Hne. by rewrite Hc2, Hc1.
  - destruct (Hscan _ _ _ _ En) as [-> Hk0]; [by rewrite Hup|]. destruct (Hn eq_refl) as (Hup1 & Hval & Hkey).
    change (negb (0 =? 0)) with false. cbv iota. destruct (cursor_get_key w1 c) as [r' k'] eqn:Ek. cbn in Hk0. subst r'.
    rewrite (Hkey 0 k') by done. change (negb (0 =? 0)) with false. cbn [c_defined mbind outcome_bind mret outcome_ret]. cbv iota.
    rewrite Hval. apply Forall_cons in Hin as [Hk Hin]. cbn in Hk. cbn [fmap list_fmap fst] in Hnd.
    assert (k ∉ done.*1) as Hnew by (intros ?; apply NoDup_app in Hnd as (_ & Hd & _); apply (Hd k); [done|left]).
    assert (loaded done (set_conn db w1) cs w1 ptrs' m' cm) as D1.
    { apply loaded_conn with w; [done|]. eapply free_ok; [apply D|done|done|done]. }
    destruct (load_one done rest (set_conn db w1) cs w1 ptrs' m' cm c k v D1)
      as (db2 & cs2 & w2 & ptrs2 & m2 & cm2 & -> & D2 & S2); [by split; [|split; [apply Hs1|]]|done|done|cbn in Hlen; lia|].
    cbn [mbind outcome_bind].
    destruct (IH (done ++ [(k, v)]) db2 cs2 w2 ptrs2 m2 cm2 rounds D2 S2 Hin) as (db3 & cs3 & w3 & ptrs3 & m3 & cm3 & -> & D3).
    + rewrite fmap_app, <- app_assoc. done.
    + rewrite length_app. cbn in *. lia.
    + cbn in Hr. lia.
    + eexists _, _, w3, ptrs3, m3, cm3. split; [reflexivity|]. by rewrite <- app_assoc in D3.
Qed.
End Load.

(** ** The cursor of the scan *)

Section Opened.
Context (db : kv_db_t W) (w : W) (ptrs : gmap (list byte) Z) (m : database) (t : gmap item item) (name : list byte) (p : Z) (s : kv_schema_t).
Context (c : nat) (w1 : W).
Hypothesis O : db_ok hash_fn db w ptrs m.
Hypothesis Hm : m !! name = Some t.
Hypothesis Hp : ptrs !! name = Some p.
Hypothesis Hs : schemas db !! p = Some s.
Hypothesis Huri : s_uri s = table_uri name.
Hypothesis Hopen : open_cursor w (s_session s) (s_uri s) = (0, c, w1).

Lemma opened_table : tables (view w) !! s_uri s = Some t.
Proof.
  destruct (db_schema _ _ _ _ _ O _ _ Hp) as (_ & _ & s' & c' & t' & k & x & _ & _ & Ht & [_ Htab]). congruence.
Qed.

(** It belongs to no schema, and the database is as it was. *)
Lemma opened_cursor :
  db_ok hash_fn (set_conn db w1) w1 ptrs m /\ is_Some (cursors (view w1) !! c) /\ free_cursor (set_conn db w1) ptrs c.
Proof.
  destruct (open_cursor_law _ _ _ _ _ _ Hopen (ex_intro _ _ opened_table)) as [Hfresh V]. cbn in V.
  assert (free_cursor db ptrs c) as Hfree.
  { intros n q s2 Hn Hs2 E. destruct (db_schema _ _ _ _ _ O _ _ Hn) as (_ & _ & s3 & c3 & ? & ? & ? & H1 & H2 & _ & [H3 _]).
    assert (c3 = c) as -> by congruence. congruence. }
  split; [|split; [by rewrite V; cbn; rewrite lookup_insert_eq; eauto|exact Hfree]].
  eapply free_ok; [exact O|exact Hfree|by rewrite V|]. intros c2 Hne. rewrite V. cbn. by rewrite lookup_insert_ne.
Qed.

(** It visits each record of the table once. *)
Lemma opened_visits :
  Forall (fun kv => t !! kv.1 = Some kv.2) (upcoming w1 c) /\ NoDup (upcoming w1 c).*1 /\
  length (upcoming w1 c) = size t /\ (forall n, n ∈ (upcoming w1 c).*1 <-> n ∈ dom t) /\
  (forall k v, t !! k = Some v -> (k, v) ∈ upcoming w1 c).
Proof.
  destruct (upcoming_open _ _ _ _ _ _ Hopen opened_table) as [Hup _].
  split; [|split; [|split; [|split]]].
  - rewrite Hup. apply Forall_forall. intros [a b] Hab. by apply elem_of_map_to_list in Hab.
  - rewrite Hup. apply NoDup_fst_map_to_list.
  - rewrite Hup. apply length_map_to_list.
  - intros n. rewrite Hup, elem_of_dom. split.
    + intros ([a b] & -> & Hab)%list_elem_of_fmap. apply elem_of_map_to_list in Hab. cbn. eauto.
    + intros [v Hv]. apply list_elem_of_fmap. exists (n, v). split; [done|]. by apply elem_of_map_to_list.
  - intros k v Hkv. rewrite Hup. by apply elem_of_map_to_list.
Qed.

(** The search up to its loop. *)
Lemma search_opens {X : Type} (cb : kv_db_t W * X -> list byte -> item -> outcome (Z * (kv_db_t W * X))) room rounds (x : X) :
  kv_schmea_search room cb rounds (db, x) p None = scan_loop room cb rounds (set_conn db w1, x) c None.
Proof.
  unfold kv_schmea_search, schema_at. cbn [fst snd]. rewrite Hs. cbn [from_option_undef mbind outcome_bind].
  rewrite (db_conn _ _ _ _ _ O). cbn [from_option_undef mbind outcome_bind]. by rewrite Hopen.
Qed.
End Opened.

(** Before the first record. *)
Lemma loaded_nil (ptrs : gmap (list byte) Z) (t : gmap item item) (db : kv_db_t W) (w : W) (m : database) :
  db_ok hash_fn db w ptrs m -> m !! SYS_SCHEMA_META_TABLE_NAME = Some t ->
  loaded ptrs t [] db (CacheState (dict_init SCHEMA_MAX_SIZE) ∅ 1) w ptrs m ∅.
Proof.
  intros O Hm. split; cbn [c_cache c_recs c_next]; try done.
  - intros n. cbn. rewrite elem_of_nil. tauto.
  - apply (init_represents dict_default_hash_fn). unfold SCHEMA_MAX_SIZE. lia.
  - intros n. rewrite lookup_empty, elem_of_nil. split; [by intros [? ?]|done].
  - intros a b Hab. by apply elem_of_nil in Hab.
  - intros q [? Hq]. by rewrite lookup_empty in Hq.
Qed.

(** Without the spare byte the scan stops at its first record. *)
Lemma scan_no_room {X : Type} (cb : kv_db_t W * X -> list byte -> item -> outcome (Z * (kv_db_t W * X))) db w x c rounds :
  scans_succeed -> conn db = Some w -> upcoming w c <> [] ->
  scan_loop false cb (S rounds) (db, x) c None = Undefined.
Proof.
  intros Hscan Hw Hne. cbn [scan_loop fst snd]. rewrite Hw. cbn [from_option_undef mbind outcome_bind].
  destruct (cursor_next w c) as [r w2] eqn:En. destruct (Hscan _ _ _ _ En Hne) as [-> Hk].
  change (negb (0 =? 0)) with false. cbv iota. destruct (cursor_get_key w2 c) as [r' k']. cbn in Hk. by subst r'.
Qed.
End Spec.

(** ** Properties *)

(** C26: when the storage engine fails no call and its buffers have a spare byte,
    [schema_cache_load] answers 0 and leaves exactly one cache entry for each
    record of the metadata table, holding the counts of that record with the
    bitmap cleared, and exactly one registered schema for each; the metadata
    table is as it was.  Without the spare byte, the first record of the scan
    is a store past the end of the engine's memory. *)
Theorem schema_cache_loaded {W : Type} `{!WiredTiger W, !WiredTigerSpec W, !WiredTigerScan W, !WiredTigerScanSpec W}
    (hash_fn : list byte -> outcome Z) (db : kv_db_t W) (w : W) (ptrs : gmap (list byte) Z) (m : gmap (list byte) (gmap item item))
    (t : gmap item item) (p : Z) (s : kv_schema_t) (rounds : nat) :
  (forall key, exists h, hash_fn key = Ret h /\ fits 32 h) ->
  db_ok hash_fn db w ptrs m -> loadable ptrs t -> m !! SYS_SCHEMA_META_TABLE_NAME = Some t ->
  ptrs !! SYS_SCHEMA_META_TABLE_NAME = Some p -> schemas db !! p = Some s ->
  s_uri s = table_uri SYS_SCHEMA_META_TABLE_NAME ->
  creation_succeeds (W := W) -> reads_succeed (W := W) -> scans_succeed (W := W) -> (size t < rounds)%nat ->
  (exists db' cs w' ptrs' m' cm,
     schema_cache_load hash_fn true rounds SYS_SCHEMA_META_TABLE_NAME db = Ret (0, (db', cs)) /\
     db_ok hash_fn db' w' ptrs' m' /\ represents dict_default_hash_fn (c_cache cs) cm /\
     dom ptrs' = dom ptrs ∪ dom t /\ dom cm = dom t /\ m' !! SYS_SCHEMA_META_TABLE_NAME = Some t /\
     forall k v, t !! k = Some v -> exists q r, cm !! k = Some q /\ c_recs cs !! q = Some r /\
       rec_load v = Ret (kv_count r, is_active r, bytes r) /\ bitmap r = 0) /\
  (t <> ∅ -> schema_cache_load hash_fn false rounds SYS_SCHEMA_META_TABLE_NAME db = Undefined).
Proof.
  intros Hh O L Hm Hp Hs Huri Hcreate Hreads Hscan Hr.
  assert (dict_get hash_fn (schema_ctx db) SYS_SCHEMA_META_TABLE_NAME = Ret p) as Hget.
  { rewrite (get_refines hash_fn Hh _ _ _ (db_dict _ _ _ _ _ O)), Hp; [done|vm_decide|].
    apply (apart_safe (known ptrs t)); [apply (lo_apart _ _ L)|left; eauto|]. intros n Hn. by left. }
  destruct (open_cursor w (s_session s) (s_uri s)) as [[r c] w1] eqn:Eo.
  destruct Hcreate as (Hc1 & Hc2 & Hc3). pose proof (Hc3 _ _ _ _ _ _ Eo) as ->.
  destruct (opened_cursor hash_fn db w ptrs m t _ p s c w1 O Hm Hp Huri Eo) as (O1 & Hcur & Hfree).
  destruct (opened_visits hash_fn db w ptrs m t _ p s c w1 O Hm Hp Huri Eo) as (Hin & Hnd & Hlen & Hdom & Hall).
  unfold schema_cache_load, kv_db_fetch_schema. rewrite Hget. cbn [mbind outcome_bind].
  rewrite !(search_opens hash_fn db w ptrs m p s c w1 O Hs Eo). split.
  - destruct (load_all hash_fn Hh ptrs t L (conj Hc1 (conj Hc2 Hc3)) Hreads [] (upcoming w1 c) (set_conn db w1)
      (CacheState (dict_init SCHEMA_MAX_SIZE) ∅ 1) w1 ptrs m ∅ c rounds Hscan (loaded_nil hash_fn ptrs t _ _ _ O1 Hm))
      as (db' & cs & w' & ptrs' & m' & cm & -> & D); [done|done|done|cbn; lia|lia|].
    exists db', cs, w', ptrs', m', cm. cbn [app] in D. split; [done|]. split; [apply D|]. split; [apply D|].
    split; [|split; [|split; [apply D|]]].
    + apply set_eq. intros n. by rewrite elem_of_union, !elem_of_dom, (ld_dom _ _ _ _ _ _ _ _ _ _ D), Hdom, elem_of_dom.
    + apply set_eq. intros n. rewrite <- Hdom, elem_of_dom. apply (ld_keys _ _ _ _ _ _ _ _ _ _ D).
    + intros a b Hab. apply (ld_recs _ _ _ _ _ _ _ _ _ _ D). by apply Hall.
  - intros Hne. destruct rounds as [|rounds]; [lia|]. rewrite (scan_no_room _ _ w1); try done.
    intros E. rewrite E in Hlen. cbn in Hlen. symmetry in Hlen. by apply map_size_empty_iff in Hlen.
Qed.

(** ** An example in memory *)

Module ScanMem.
Import Wt.Mem.

(** The memory of [Wt.Mem], and what each cursor has still to visit. *)
Definition smem : Type := mem * gmap nat (list (item * item)).

Definition lift1 {A} (l : gmap nat (list (item * item))) (r : A * mem) : A * smem := (r.1, (r.2, l)).

Definition todo (w : smem) (c : nat) : list (item * item) :=
  match m_cursors w.1 !! c with Some _ => default [] (w.2 !! c) | None => [] end.

#[export] Instance smem_wt : WiredTiger smem := {
  open_session w := lift1 w.2 (open_session w.1);
  session_create w s u := lift1 w.2 (session_create w.1 s u);
  session_drop w s u := lift1 w.2 (session_drop w.1 s u);
  session_close w s := lift1 w.2 (session_close w.1 s);
  open_cursor w s u :=
    let r := open_cursor w.1 s u in
    lift1 (<[r.1.2 := map_to_list (default ∅ (m_tables w.1 !! u))]> w.2) r;
  set_key w c k := (set_key w.1 c k, w.2);
  set_value w c x := (set_value w.1 c x, w.2);
  cursor_insert w c := lift1 w.2 (cursor_insert w.1 c);
  cursor_search w c := lift1 w.2 (cursor_search w.1 c);
  cursor_remove w c := lift1 w.2 (cursor_remove w.1 c);
  cursor_get_value w c := cursor_get_value w.1 c;
  cursor_close w c := lift1 w.2 (cursor_close w.1 c) }.

#[export] Instance smem_spec : WiredTigerSpec smem.
Proof.
  refine {| view := fun w : smem => view w.1 |}.
  - intros w. apply set_key_law.
  - intros w. apply set_value_law.
  - intros w c u k x t r w' H [= <- <-]. eapply insert_law; [exact H|apply surjective_pairing].
  - intros w c u k x t r w' H [= <- <-]. exact (search_law w.1 c u k x t _ _ H (surjective_pairing _)).
  - intros w c u k x t r w' H [= <- <-]. eapply remove_law; [exact H|apply surjective_pairing].
  - by intros w r s w' [= <- <- <-].
  - by intros w s u r w' [= <- <-].
  - intros w s u r c w' [= <- <- <-] H. eapply (open_cursor_law w.1 s u 0); [reflexivity|exact H].
Defined.

#[export] Instance smem_scan : WiredTigerScan smem := {
  cursor_next w c :=
    match m_cursors w.1 !! c, todo w c with
    | Some x, (k, v) :: l =>
        (0, (with_cursor w.1 c (fun x => Cursor (c_uri x) (Some k) (Some v)), <[c := l]> w.2))
    | _, _ => (WT_NOTFOUND, w)
    end;
  cursor_get_key w c :=
    match m_cursors w.1 !! c with Some (Cursor _ (Some k) _) => (0, k) | _ => (22, []) end }.

Lemma todo_with_cursor (w : mem) l c f c' : todo (with_cursor w c f, l) c' = todo (w, l) c'.
Proof.
  unfold todo, with_cursor. cbn. destruct (decide (c = c')) as [<-|Hne].
  - rewrite lookup_alter_eq. by destruct (m_cursors w !! c).
  - by rewrite lookup_alter_ne.
Qed.

Lemma next_cases (w : smem) c :
  match todo w c with
  | [] => cursor_next w c = (WT_NOTFOUND, w)
  | (k, v) :: l => exists x, m_cursors w.1 !! c = Some x /\ cursor_next w c =
      (0, (with_cursor w.1 c (fun x => Cursor (c_uri x) (Some k) (Some v)), <[c := l]> w.2))
  end.
Proof.
  cbn. destruct (todo w c) as [|[k v] l] eqn:E; unfold todo in E; destruct (m_cursors w.1 !! c) as [x|]; try done. by exists x.
Qed.

Lemma smem_next (w : smem) c r w' : cursor_next w c = (r, w') ->
  tables (view w') = tables (view w) /\
  (forall c', c' <> c -> cursors (view w') !! c' = cursors (view w) !! c') /\
  (is_Some (cursors (view w) !! c) -> is_Some (cursors (view w') !! c)) /\
  match todo w c with
  | [] => r <> 0
  | (k, x) :: l => r = 0 -> todo w' c = l /\ cursor_get_value w' c = x /\
                   forall r' k', cursor_get_key w' c = (r', k') -> r' = 0 -> k' = k
  end.
Proof.
  intros E. pose proof (next_cases w c) as H. destruct (todo w c) as [|[k v] l].
  - rewrite H in E. injection E as <- <-. done.
  - destruct H as (x & Hx & H). rewrite H in E. injection E as <- <-. cbn.
    split; [done|]. split; [intros c' Hne; by rewrite lookup_alter_ne|].
    split; [intros _; rewrite lookup_alter_eq, Hx; eauto|]. intros _. unfold todo. cbn.
    rewrite lookup_alter_eq, Hx, lookup_insert_eq. cbn. split; [done|]. split; [done|]. by intros r' k' [= _ <-].
Qed.

#[export] Instance smem_scan_spec : WiredTigerScanSpec smem.
Proof.
  refine {| upcoming := todo |}.
  - exact smem_next.
  - intros w c r w' [= _ <-]. split; [done|]. intros c' Hne. cbn. by rewrite lookup_delete_ne.
  - intros w s u c w' t [= <- <-] Ht. cbn in Ht. split.
    + unfold todo. cbn. by rewrite !lookup_insert_eq, Ht.
    + intros c' [x Hx]. cbn in Hx. assert (fresh_cursor w.1 <> c') as Hne.
      { intros <-. rewrite fresh_cursor_none in Hx. done. }
      unfold todo. cbn. by rewrite !lookup_insert_ne.
  - by intros w r s w' c [= _ _ <-].
  - by intros w s u r w' c [= _ <-].
  - intros w c k c' _. apply todo_with_cursor.
  - intros w c r w' c' [= _ <-] _. cbn [cursor_search mem_wt].
    destruct (m_cursors w.1 !! c) as [[u [k|] x]|]; try done. destruct (m_tables w.1 !! u ≫= lookup k); [|done].
    apply todo_with_cursor.
Defined.

Lemma smem_creation : creation_succeeds (W := smem).
Proof.
  split; [|split].
  - by intros w r s w' [= <- _ _].
  - by intros w s u r w' [= <- _].
  - by intros w s u r c w' [= <- _ _].
Qed.

Lemma smem_reads : reads_succeed (W := smem).
Proof. intros w c u k x t [Hc Ht] [y Hy]. cbn in *. by rewrite Hc, Ht; cbn; rewrite Hy. Qed.

Lemma smem_scans : scans_succeed (W := smem).
Proof.
  intros w c r w' E Hne. pose proof (next_cases w c) as H. cbn in Hne. destruct (todo w c) as [|[k v] l]; [done|].
  destruct H as (x & Hx & H). rewrite H in E. injection E as <- <-. cbn. by rewrite lookup_alter_eq, Hx.
Qed.
End ScanMem.

Import ScanMem.

Definition docs : list byte := lit "docs".

(** 7 keys, 9 bytes, active. *)
Definition docs_rec : item := map byte_of ([7; 0; 0; 0; 0; 0; 0; 0; 9; 0; 0; 0; 0; 0; 0; 0; 1] ++ replicate 7 0).

Definition meta_table : gmap item item := {[ docs := docs_rec ]}.

Definition smem0 : smem := (Wt.Mem.M {[ table_uri SYS_SCHEMA_META_TABLE_NAME := meta_table ]} ∅ 0, ∅).

Lemma docs_loadable p : loadable {[ SYS_SCHEMA_META_TABLE_NAME := p ]} meta_table.
Proof.
  assert (forall n, known {[ SYS_SCHEMA_META_TABLE_NAME := p ]} meta_table n -> n = SYS_SCHEMA_META_TABLE_NAME \/ n = docs) as K.
  { intros n [[x H]|[x H]]; unfold meta_table in H; apply lookup_singleton_Some in H as [<- _]; tauto. }
  split.
  - intros a b [-> | ->]%K [-> | ->]%K; (reflexivity || (intros H; exfalso; revert H; vm_compute; intros [l Hl]; discriminate Hl)).
  - rewrite lookup_singleton_eq. eauto.
  - intros k v H. unfold meta_table in H. apply lookup_singleton_Some in H as [<- <-]. split; [vm_decide|]. split; [cbn; lia|]. split; [reflexivity|]. by eexists.
  - unfold meta_table. rewrite !map_size_singleton. lia.
Qed.

Lemma schema_cache_loaded_witness :
  exists db p db' cs w' ptrs' m' (cm : gmap (list byte) Z) q,
    kv_schema_alloc dict_default_hash_fn SYS_SCHEMA_META_TABLE_NAME
      (Some (Db [x61] [x62] (dict_init SCHEMA_LIMIT) (Some smem0) ∅ 1)) false = Ret (p, db) /\
    schema_cache_load dict_default_hash_fn true 2 SYS_SCHEMA_META_TABLE_NAME db = Ret (0, (db', cs)) /\
    db_ok dict_default_hash_fn db' w' ptrs' m' /\ cm !! docs = Some q /\ c_recs cs !! q = Some (Rec 7 9 true 0).
Proof.
  destruct (kv_db_alloc_ok dict_default_hash_fn [x61] [x62] smem0) as (db0 & Hdb0 & O0). injection Hdb0 as <-.
  destruct (alloc_refines dict_default_hash_fn default_hash_ok _ smem0 ∅ ∅ SYS_SCHEMA_META_TABLE_NAME O0 smem_creation)
    as (p & db & w & Ha & _ & O); [vm_decide|cbn; lia|apply prefix_safe_empty|reflexivity|reflexivity|].
  destruct (alloc_steps dict_default_hash_fn (Db [x61] [x62] (dict_init SCHEMA_LIMIT) (Some smem0) ∅ 1) smem0 _ p db
      eq_refl ltac:(discriminate) smem_creation Ha)
    as (s & c & w1 & w2 & w3 & d & _ & _ & _ & _ & Edb).
  destruct (schema_cache_loaded dict_default_hash_fn db w {[ SYS_SCHEMA_META_TABLE_NAME := p ]} _ meta_table p
    (Schema s (Some c) (table_uri SYS_SCHEMA_META_TABLE_NAME) SYS_SCHEMA_META_TABLE_NAME) 2
    default_hash_ok O (docs_loadable p)) as [(db' & cs & w' & ptrs' & m' & cm & Hl & O' & _ & _ & _ & _ & Hrec) _].
  - rewrite lookup_insert_eq. done.
  - apply lookup_singleton_eq.
  - rewrite Edb. cbn. apply lookup_insert_eq.
  - reflexivity.
  - exact smem_creation.
  - exact smem_reads.
  - exact smem_scans.
  - vm_decide.
  - destruct (Hrec docs docs_rec) as (q & r & Hq & Hr & Hload & Hb); [apply lookup_singleton_eq|].
    exists db, p, db', cs, w', ptrs', m', cm, q. split; [exact Ha|]. split; [exact Hl|]. split; [exact O'|]. split; [exact Hq|].
    rewrite Hr. f_equal. vm_compute in Hload. injection Hload as E1 E2 E3. destruct r. cbn in *. congruence.
Defined.

(** A scan for the key [b] of a table that holds [a] only finds [a]. *)
Example scan_stops_at_other_key :
  let w := (Wt.Mem.M {[ table_uri [x74] := {[ [x61] := [x31] ]} ]} ∅ 0, ∅) : smem in
  let db := Db [] [] (dict_init 8) (Some w) {[ 1 := Schema 0 None (table_uri [x74]) [x74] ]} 2 in
  let record := fun (st : kv_db_t smem * list (list byte)) key (_ : item) => mret (0, (st.1, st.2 ++ [key])) in
  ('(r, st) ← kv_schmea_search true record 5 (db, []) 1 (Some ([x62; x00], 1)); mret (r, st.2))
  = Ret (0, [cstring [x61]]).
Proof. vm_compute. reflexivity. Qed.
