(* ===== verification/KvTest.v ===== *)
(** * The demonstration program of the metadata database
      ([src/metaserver/kv_db_test.c])

    The program makes three schemas and sets, gets and deletes a structure in
    each.  What it prints is a list of lines. *)

From Stdlib Require Import Strings.Byte Strings.String.
From S2P Require Import Prelude Bytes CString Format Chain Dict Wt KvDb Scan.

(** [demo_t]: an [int], 256 characters, an [int]. *)
Record demo_t := Demo { demo_id : Z; demo_name : list byte; demo_ver : Z }.

Definition demo_store (x : demo_t) : item :=
  le_encode 4 (demo_id x) ++ take 256 (demo_name x ++ calloc 256) ++ le_encode 4 (demo_ver x).

(** What the program reads of a structure at an address. *)
Definition demo_load (v : item) : outcome demo_t :=
  i ← load_le v 0 4;
  name ← strdup (drop 4 v);
  ver ← load_le v 260 4;
  mret (Demo (s32 i) name (s32 ver)).

Definition demo_line (verb : list byte) (x : demo_t) : list byte :=
  verb ++ lit " demo_t info :id=" ++ decimal (demo_id x) ++ lit ",name=" ++ demo_name x ++ lit ",ver=" ++ decimal (demo_ver x)
    ++ [byte_of 10].

Definition schemas_meta : list (list byte) := [lit "entries"; lit "docs"; lit "state"].

Definition demo_key (i : Z) : list byte := snprintf 256 (lit "test" ++ lit "-" ++ decimal i).

Definition demo_inst (i : Z) : demo_t := Demo i (lit "abcd") (i + 1).

Section Main.
Context {W : Type} `{!WiredTiger W}.
Context (hash_fn : list byte -> outcome Z).

Fixpoint demo_loop (names : list (list byte)) (i : Z) (db : option (kv_db_t W)) (out : list (list byte))
    : outcome (list (list byte) * option (kv_db_t W)) :=
  match names with
  | [] => mret (out, db)
  | schema_name :: names =>
      '(_, db) ← kv_schema_alloc hash_fn schema_name db false;
      let inst := demo_inst i in
      let out := out ++ [demo_line (lit "set") inst] in
      let key := demo_key i in
      '(_, db) ← kv_db_set hash_fn db schema_name key (demo_store inst);
      '(inst2, db) ← kv_db_get hash_fn db schema_name key;
      v ← from_option_undef inst2;
      inst2 ← demo_load v;
      let out := out ++ [demo_line (lit "get") inst2] in
      '(_, db) ← kv_db_del hash_fn db schema_name key;
      demo_loop names (i + 1) (Some db) out
  end.

Definition usage (prog : list byte) : list byte := lit "usage:" ++ prog ++ lit " {db_name} {db_path}" ++ [byte_of 10].

(** [path_ok] and [opened] are as for [kv_db_alloc].  A database that cannot be made is a null pointer. *)
Definition kv_test_main (argv : list (list byte)) (path_ok : bool) (opened : Z * W)
    : outcome (Z * list (list byte) * option (kv_db_t W)) :=
  match argv with
  | [_; name; dir] =>
      db ← kv_db_alloc (Some name) (Some dir) path_ok opened;
      '(out, db) ← demo_loop schemas_meta 0 db [];
      mret (0, out, db)
  | _ => prog ← from_option_undef (head argv); mret (-1, [usage prog], None)
  end.
End Main.

(** ** The round trip of the structure *)

Lemma demo_roundtrip i ver name :
  - 2 ^ 31 <= i < 2 ^ 31 -> - 2 ^ 31 <= ver < 2 ^ 31 -> text name -> (length name < 256)%nat ->
  demo_load (demo_store (Demo i name ver)) = Ret (Demo i name ver).
Proof.
  intros Hi Hv Ht Hl. unfold demo_load, demo_store. cbn [demo_id demo_name demo_ver].
  assert (take 256 (name ++ calloc 256) = name ++ NUL :: calloc (255 - Z.of_nat (length name))) as ->.
  { rewrite take_app_ge by lia. f_equal. unfold calloc. rewrite take_repeat.
    replace ((256 - length name) `min` Z.to_nat 256)%nat with (S (255 - length name)) by lia. cbn [repeat]. do 2 f_equal. lia. }
  set (pad := calloc _). assert (length pad = (255 - length name)%nat) as Hp by (unfold pad, calloc; rewrite repeat_length; lia).
  assert (forall z, length (le_encode 4 z) = 4%nat) as Hle by (intros; apply length_le_encode).
  assert (forall z, - 2 ^ 31 <= z < 2 ^ 31 -> s32 (le_decode (le_encode 4 z)) = z) as Hs.
  { intros z Hz. rewrite le_decode_encode. unfold swrap. rewrite wrap_wrap by lia. fold (s32 z). apply s32_small. lia. }
  assert (forall z u, length (le_encode 4 z ++ u) = (4 + length u)%nat) as Hla by (intros; by rewrite length_app, Hle).
  rewrite <- app_assoc. rewrite (load_le_Ret _ 0 4) by (rewrite ?Hla; lia).
  rewrite drop_0, take_app_length' by (by rewrite Hle). cbn [mbind outcome_bind].
  rewrite drop_app_length' by (by rewrite Hle). rewrite <- app_comm_cons, strdup_text by done. cbn [mbind outcome_bind].
  rewrite (load_le_Ret _ 260 4) by (rewrite ?Hla, ?length_app; cbn [length]; rewrite ?length_app, ?Hle; lia).
  cbn [mbind outcome_bind]. rewrite app_comm_cons, !app_assoc.
  rewrite drop_app_length' by (rewrite !length_app, Hle; cbn [length]; lia).
  rewrite take_ge by (by rewrite Hle). by rewrite !Hs.
Qed.

Lemma demo_inst_roundtrip i : 0 <= i -> i + 1 < 2 ^ 31 -> demo_load (demo_store (demo_inst i)) = Ret (demo_inst i).
Proof. intros. apply demo_roundtrip; [lia|lia|vm_decide|cbn; lia]. Qed.

(** ** The loop over the schemas *)

Fixpoint demo_lines (i : Z) (n : nat) : list (list byte) :=
  match n with
  | O => []
  | S n => demo_line (lit "set") (demo_inst i) :: demo_line (lit "get") (demo_inst i) :: demo_lines (i + 1) n
  end.

Section Loop.
Context {W : Type} `{!WiredTiger W, !WiredTigerSpec W}.
Context (hash_fn : list byte -> outcome Z).
Hypothesis hash_ok : forall key, exists h, hash_fn key = Ret h /\ fits 32 h.
Hypothesis Hcreate : creation_succeeds (W := W).
Hypothesis Hins : inserts_succeed (W := W).
Hypothesis Hread : reads_succeed (W := W).
Hypothesis Hrem : removals_succeed (W := W).

(** What is set is got, and deleted again. *)
Lemma set_get_del (db : kv_db_t W) w ptrs m name key val t :
  db_ok hash_fn db w ptrs m -> text name -> m !! name = Some t ->
  (forall d : kv_db_t W, schema_ctx d = schema_ctx db -> prefix_safe hash_fn (schema_ctx d) ptrs name) ->
  exists db1 db2 db3 w3, kv_db_set hash_fn db name key val = Ret (0, db1) /\
    kv_db_get hash_fn db1 name key = Ret (Some val, db2) /\ kv_db_del hash_fn db2 name key = Ret (0, db3) /\
    db_ok hash_fn db3 w3 ptrs (<[name := delete key t]> m).
Proof.
  intros O Ht Hm Hs.
  pose proof (set_refines hash_fn hash_ok db w ptrs m name key val O Ht (Hs db eq_refl)) as H1. rewrite Hm in H1.
  destruct H1 as (r1 & db1 & w1 & E1 & O1 & X1 & S1). rewrite (S1 Hins) in E1, O1. cbn [Z.eqb] in O1.
  pose proof (get_refines_table hash_fn hash_ok db1 w1 ptrs _ name key O1 Ht (Hs db1 X1)) as H2. rewrite lookup_insert_eq in H2.
  destruct H2 as (r2 & db2 & w2 & E2 & O2 & X2 & Hy & _ & S2).
  assert (<[key := val]> t !! key = Some val) as Hv by apply lookup_insert_eq.
  destruct (S2 Hread ltac:(eauto)) as [y ->]. specialize (Hy y eq_refl). rewrite Hv in Hy. injection Hy as <-.
  pose proof (del_refines_table hash_fn hash_ok db2 w2 ptrs _ name key O2 Ht (Hs db2 ltac:(congruence))) as H3.
  rewrite lookup_insert_eq in H3. destruct H3 as (r3 & db3 & w3 & E3 & O3 & _ & S3).
  rewrite (S3 Hrem ltac:(eauto)) in E3, O3. cbn [Z.eqb] in O3.
  rewrite insert_insert_eq, delete_insert_eq in O3. by exists db1, db2, db3, w3.
Qed.

Lemma demo_loop_ok names i (db : kv_db_t W) w ptrs m out :
  db_ok hash_fn db w ptrs m -> NoDup names -> 0 <= i -> i + Z.of_nat (length names) < 2 ^ 31 ->
  Forall (fun n => text n /\ (length n <= 249)%nat /\ ptrs !! n = None) names ->
  apart (fun n => is_Some (ptrs !! n) \/ n ∈ names) -> Z.of_nat (size ptrs) + Z.of_nat (length names) < 2 ^ 32 - 1 ->
  exists db' w' ptrs' m', demo_loop hash_fn names i (Some db) out = Ret (out ++ demo_lines i (length names), Some db') /\
    db_ok hash_fn db' w' ptrs' m' /\ (forall n, is_Some (ptrs' !! n) <-> is_Some (ptrs !! n) \/ n ∈ names) /\
    (forall j n, names !! j = Some n -> exists t, m' !! n = Some t /\ t !! demo_key (i + Z.of_nat j) = None) /\
    (forall n, n ∉ names -> m' !! n = m !! n).
Proof.
  revert i db w ptrs m out. induction names as [|name names IH]; intros i db w ptrs m out O Hnd Hi Hlt Hall Hap Hsz.
  { exists db, w, ptrs, m. cbn. rewrite app_nil_r. split; [done|]. split; [done|]. split; [|split; [done|done]].
    intros n. rewrite elem_of_nil. tauto. }
  apply NoDup_cons in Hnd as [Hnin Hnd]. apply Forall_cons in Hall as [(Ht & Hl & Hnew) Hall]. cbn [length] in *.
  assert (forall d (mm : gmap (list byte) Z), (forall n, is_Some (mm !! n) -> is_Some (ptrs !! n) \/ n ∈ name :: names) ->
    prefix_safe hash_fn d mm name) as Hps.
  { intros d mm Hmm. apply (apart_safe (fun n => is_Some (ptrs !! n) \/ n ∈ name :: names)); [done|right; left|done]. }
  destruct (alloc_refines hash_fn hash_ok db w ptrs m name O Hcreate Ht Hl) as (p & db0 & w0 & E0 & _ & O0);
    [apply Hps; auto|done|lia|].
  assert (forall n, is_Some (<[name := p]> ptrs !! n) -> is_Some (ptrs !! n) \/ n ∈ name :: names) as Hdom.
  { intros n [<-|?]%lookup_insert_is_Some'; [right; left|by left]. }
  destruct (set_get_del db0 w0 _ _ name (demo_key i) (demo_store (demo_inst i)) _ O0 Ht (lookup_insert_eq _ _ _))
    as (db1 & db2 & db3 & w3 & E1 & E2 & E3 & O3); [intros; by apply Hps|].
  rewrite insert_insert_eq in O3. cbn [demo_loop]. rewrite E0. cbn [mbind outcome_bind]. rewrite E1. cbn [mbind outcome_bind].
  rewrite E2. cbn [mbind outcome_bind from_option_undef].
  rewrite demo_inst_roundtrip by lia. cbn [mbind outcome_bind]. rewrite E3. cbn [mbind outcome_bind].
  destruct (IH (i + 1) db3 w3 _ _ ((out ++ [demo_line (lit "set") (demo_inst i)]) ++ [demo_line (lit "get") (demo_inst i)]) O3 Hnd)
    as (db' & w' & ptrs' & m' & E & O' & Hd & Hk & Hrest); [lia|lia| | | |].
  - eapply Forall_impl; [apply Forall_and; split; [exact Hall|apply Forall_forall; exact (fun x Hx => Hx)]|].
    cbn. intros n [(? & ? & ?) Hn]. split; [done|]. split; [done|]. rewrite lookup_insert_ne; [done|]. by intros <-.
  - intros a b Ha Hb. apply Hap.
    + destruct Ha as [Ha%Hdom|?]; [done|right; by right].
    + destruct Hb as [Hb%Hdom|?]; [done|right; by right].
  - rewrite map_size_insert_None by done. lia.
  - exists db', w', ptrs', m'. split; [rewrite E; by rewrite <- !app_assoc|]. split; [done|]. split; [|split].
    + intros n. rewrite Hd, lookup_insert_is_Some', elem_of_cons. naive_solver.
    + intros [|j] n Hn; cbn in Hn.
      * injection Hn as <-. rewrite Hrest by done. rewrite lookup_insert_eq. eexists. split; [done|].
        rewrite Z.add_0_r. apply lookup_delete_eq.
      * destruct (Hk j n Hn) as (t & Ht' & Hkey). exists t. split; [done|]. by replace (i + Z.of_nat (S j)) with (i + 1 + Z.of_nat j) by lia.
    + intros n Hn. apply not_elem_of_cons in Hn as [Hne Hn]. rewrite Hrest by done. by rewrite lookup_insert_ne by congruence.
Qed.
End Loop.

Lemma schemas_meta_apart : apart (fun n => is_Some ((∅ : gmap (list byte) Z) !! n) \/ n ∈ schemas_meta).
Proof.
  assert (Forall (fun a => Forall (fun b => a `prefix_of` b -> a = b) schemas_meta) schemas_meta) as H by vm_decide.
  intros a b [Ha|Ha] [Hb|Hb]; try (rewrite lookup_empty in *; by destruct Ha || by destruct Hb).
  rewrite Forall_forall in H. specialize (H a Ha). rewrite Forall_forall in H. by apply H.
Qed.

(** ** Properties *)

(** C29: over any storage engine whose calls do not fail, the program reads back
    from each of its three schemas the structure it has stored there (the
    lines it prints for [get] are those for [set]), returns 0, and leaves the
    three schemas registered without the keys it used.  Called without its two
    arguments it prints how to call it; when the database directory cannot be
    made, the null database fails the assertion of [kv_schema_alloc]. *)
Theorem kv_test_roundtrip {W : Type} `{!WiredTiger W, !WiredTigerSpec W} (hash_fn : list byte -> outcome Z) prog name dir (w : W) :
  (forall key, exists h, hash_fn key = Ret h /\ fits 32 h) ->
  creation_succeeds (W := W) -> inserts_succeed (W := W) -> reads_succeed (W := W) -> removals_succeed (W := W) ->
  (exists db w' ptrs m, kv_test_main hash_fn [prog; name; dir] true (0, w) = Ret (0, demo_lines 0 3, Some db) /\
     db_ok hash_fn db w' ptrs m /\ (forall n, is_Some (ptrs !! n) <-> n ∈ schemas_meta) /\
     forall j n, schemas_meta !! j = Some n -> exists t, m !! n = Some t /\ t !! demo_key (Z.of_nat j) = None) /\
  kv_test_main hash_fn [prog; name; dir] false (0, w) = AssertFail /\
  (forall args, length args <> 2%nat -> kv_test_main hash_fn (prog :: args) true (0, w) = Ret (-1, [usage prog], None)).
Proof.
  intros Hh Hc Hi Hr Hd. split; [|split; [done|]].
  - destruct (kv_db_alloc_ok hash_fn name dir w) as (db & Hdb & O). unfold kv_test_main. rewrite Hdb.
    cbn [mbind outcome_bind from_option_undef].
    destruct (demo_loop_ok hash_fn Hh Hc Hi Hr Hd schemas_meta 0 db w ∅ ∅ [] O) as (db' & w' & ptrs & m & -> & O' & Hp & Hk & _);
      [vm_decide|lia|vm_decide|vm_decide|apply schemas_meta_apart|vm_decide|].
    exists db', w', ptrs, m. split; [done|]. split; [done|]. split; [|exact Hk].
    intros n. rewrite Hp. split; [intros [[x Hx]|?]; [by rewrite lookup_empty in Hx|done]|by right].
  - intros [|a [|b [|c argv]]] Hl; done.
Qed.

(** ** Witness: the engine of [Wt.Mem] *)

Import Wt.Mem.

Lemma mem_inserts : inserts_succeed (W := mem).
Proof. intros w c u k x t [Hc Ht]. cbn in *. by rewrite Hc. Qed.

Lemma mem_reads : reads_succeed (W := mem).
Proof. intros w c u k x t [Hc Ht] [y Hy]. cbn in *. by rewrite Hc, Ht; cbn; rewrite Hy. Qed.

Lemma mem_removals : removals_succeed (W := mem).
Proof. intros w c u k x t [Hc Ht] [y Hy]. cbn in *. by rewrite Hc, Ht; cbn; rewrite Hy. Qed.

Lemma kv_test_roundtrip_witness :
  exists db, kv_test_main dict_default_hash_fn [lit "kv"; [x61]; [x62]] true (0, mem0) = Ret (0, demo_lines 0 3, Some db).
Proof.
  destruct (kv_test_roundtrip dict_default_hash_fn (lit "kv") [x61] [x62] mem0 default_hash_ok mem_creation mem_inserts mem_reads mem_removals)
    as [(db & w & ptrs & m & H & _) _].
  exists db. exact H.
Defined.

Example demo_output :
  demo_lines 0 1 = [lit "set demo_t info :id=0,name=abcd,ver=1" ++ [byte_of 10]; lit "get demo_t info :id=0,name=abcd,ver=1" ++ [byte_of 10]].
Proof. vm_compute. reflexivity. Qed.
