(* ===== verification/NetSock.v ===== *)
(** * The connection dispatcher ([src/base/net_sock.c])

    A main loop accepts connections and hands them in turn to worker threads
    over pipes; workers echo what they read.  libuv is not part of the
    repository: its callbacks are the steps of the system, in any order, with
    the status and the result of [uv_accept] chosen by the step.  Connections
    are numbered by the caller of the step. *)

From Stdlib Require Import Strings.Byte Sorted.
From S2P Require Import Prelude Bytes.

Record net_sock_thread_t := Thread {
  notify_receive_fd : Z;
  t_counter : Z;
  id : Z;
  clients : list nat }.

(** [pipe !! i] holds the connections on their way to thread [i]. *)
Record net_sock_t := Sock {
  addr : list byte;
  backlog : Z;
  port : Z;
  counter : Z;
  num_threads : Z;
  threads : list net_sock_thread_t;
  pipe : list (list nat);
  round_robin_counter : Z }.

Definition zero_thread : net_sock_thread_t := Thread 0 0 0 [].

(** ["0.0.0.0"]. *)
Definition any_addr : list byte := map byte_of [48; 46; 48; 46; 48; 46; 48].

(** ** Creation *)

(** The loop over the threads: [pairs] are the results of [socketpair], [None]
    for a failure.  Whether it ran to its end, and the threads. *)
Fixpoint init_loop (pairs : list (option (Z * Z))) (todo : list net_sock_thread_t) (done : list net_sock_thread_t)
    : bool * list net_sock_thread_t :=
  match todo with
  | [] => (true, done)
  | t :: todo =>
      match pairs with
      | Some (_, fd1) :: pairs => init_loop pairs todo (done ++ [Thread fd1 (t_counter t) (id t) (clients t)])
      | _ => (false, done ++ t :: todo)
      end
  end.

(** The result, the structure, and whether it is listening. *)
Definition net_sock_init (sk : net_sock_t) (a : option (list byte)) (prt blog num : Z) (pairs : list (option (Z * Z)))
    : Z * net_sock_t * bool :=
  let tmp_addr := default any_addr a in
  let '(b, ths) := init_loop pairs (repeat zero_thread (Z.to_nat num)) [] in
  (if b then 0 else -1,
   Sock tmp_addr blog prt (counter sk) num ths (repeat [] (Z.to_nat num)) (round_robin_counter sk), b).

Definition net_sock_create (a : option (list byte)) (prt blog num : Z) (pairs : list (option (Z * Z))) : net_sock_t :=
  let '(_, sk, _) := net_sock_init (Sock [] 0 0 0 0 [] [] 0) a prt blog num pairs in sk.

(** The ids given to the threads before they start. *)
Definition net_sock_run (sk : net_sock_t) : net_sock_t :=
  Sock (addr sk) (backlog sk) (port sk) (counter sk) (num_threads sk)
    (imap (fun i t => Thread (notify_receive_fd t) (t_counter t) (Z.of_nat i) (clients t)) (threads sk))
    (pipe sk) (round_robin_counter sk).

(** What is stopped and joined by [net_sock_deinit]: the threads, in order; then
    the array is freed and the main loop told to stop. *)
Definition net_sock_deinit (sk : option net_sock_t) : list Z :=
  match sk with
  | None => []
  | Some sk => id <$> take (Z.to_nat (num_threads sk)) (threads sk)
  end.

(** The structures allocated by [net_sock_create], by address.  A pointer that
    is not in the map is dangling; the pointer itself is not reset. *)
Abbreviation sock_heap := (gmap nat net_sock_t).

Definition net_sock_destroy (h : sock_heap) (p : option nat) : outcome (list Z * sock_heap) :=
  match p with
  | None => mret ([], h)
  | Some p => sk ← from_option_undef (h !! p); mret (net_sock_deinit (Some sk), delete p h)
  end.

(** ** Callbacks *)

Definition set_state (sk : net_sock_t) (n : Z) (ths : list net_sock_thread_t) (ps : list (list nat)) (rr : Z) : net_sock_t :=
  Sock (addr sk) (backlog sk) (port sk) n (num_threads sk) ths ps rr.

Definition main_new_connection_cb (sk : net_sock_t) (status accepted : Z) (client : nat) : outcome net_sock_t :=
  if status =? -1 then mret sk
  else
    let n := (counter sk + 1)%u64 in
    if accepted =? 0 then
      c_defined (negb (num_threads sk =? 0)) ;;
      let index := Z.to_nat (s32 (round_robin_counter sk mod u64 (num_threads sk))) in
      p ← from_option_undef (pipe sk !! index);
      mret (set_state sk n (threads sk) (<[index := p ++ [client]]> (pipe sk)) (round_robin_counter sk + 1)%u64)
    else mret (set_state sk n (threads sk) (pipe sk) (round_robin_counter sk)).

(** On thread [i]; a connection whose [uv_accept] fails is closed. *)
Definition thread_new_connection_cb (sk : net_sock_t) (i : nat) (nread accepted : Z) : outcome net_sock_t :=
  if nread <? 0 then mret sk
  else
    p ← from_option_undef (pipe sk !! i);
    skt ← from_option_undef (threads sk !! i);
    match p with
    | [] => mret sk
    | client :: p =>
        let skt := if accepted =? 0
          then Thread (notify_receive_fd skt) (t_counter skt + 1)%u64 (id skt) (clients skt ++ [client]) else skt in
        mret (set_state sk (counter sk) (<[i := skt]> (threads sk)) (<[i := p]> (pipe sk)) (round_robin_counter sk))
    end.

(** What happens to a buffer that was read into. *)
Inductive read_action :=
  | WriteBack (data : list byte)
  | CloseClient
  | FreeBuffer.

(** The buffer of a write is freed by [write_cb] when the write ends. *)
Definition read_cb (buf : list byte) (nread : Z) : list read_action :=
  if 0 <? nread then [WriteBack (take (Z.to_nat nread) buf)]
  else (if nread <? 0 then [CloseClient] else []) ++ [FreeBuffer].

(** One round of the reporting thread: total, success, failure. *)
Definition net_handle_metric (sk : net_sock_t) : Z * Z * Z :=
  let success := fold_left (fun s t => (s + t_counter t)%u64) (threads sk) 0 in
  (counter sk, success, (counter sk - success)%u64).

(** ** The system *)

Inductive event :=
  | Connection (status accepted : Z) (client : nat)
  | Handover (i : nat) (nread accepted : Z).

Definition handle (sk : net_sock_t) (e : event) : outcome net_sock_t :=
  match e with
  | Connection status accepted client => main_new_connection_cb sk status accepted client
  | Handover i nread accepted => thread_new_connection_cb sk i nread accepted
  end.

(** Steps of a running system: thread events come from its threads, and the
    [k]-th connection accepted by the main loop is called [k]. *)
Inductive step : net_sock_t -> net_sock_t -> Prop :=
  | step_event sk e sk' :
      match e with
      | Connection _ _ client => Z.of_nat client = round_robin_counter sk
      | Handover i _ _ => (i < length (threads sk))%nat
      end ->
      handle sk e = Ret sk' -> step sk sk'.

(** ** Invariant *)

(** After at most [k] steps with [n] threads. *)
Record sock_ok (n : nat) (k : Z) (sk : net_sock_t) : Prop := {
  sk_num : num_threads sk = Z.of_nat n /\ (0 < n)%nat /\ Z.of_nat n < 2 ^ 31;
  sk_len : length (threads sk) = n /\ length (pipe sk) = n;
  sk_own i t p : threads sk !! i = Some t -> pipe sk !! i = Some p ->
    Forall (fun c => (c mod n = i)%nat /\ Z.of_nat c < round_robin_counter sk) (clients t ++ p) /\
    StronglySorted lt (clients t ++ p);
  sk_counter i t : threads sk !! i = Some t -> t_counter t = Z.of_nat (length (clients t));
  sk_total : Z.of_nat (length (concat (pipe sk)) + length (concat (clients <$> threads sk))) <= round_robin_counter sk
    /\ round_robin_counter sk <= counter sk <= k }.

Lemma sorted_snoc (l : list nat) x : StronglySorted lt l -> Forall (fun y => (y < x)%nat) l -> StronglySorted lt (l ++ [x]).
Proof.
  induction l as [|y l IH]; intros Hs Hf; cbn; [repeat constructor|].
  apply Forall_cons in Hf as [Hy Hf]. apply StronglySorted_inv in Hs as [Hs Hl]. constructor; [by apply IH|].
  apply Forall_app. split; [done|]. by constructor.
Qed.

Lemma sorted_remove (l1 : list nat) x l2 : StronglySorted lt (l1 ++ x :: l2) -> StronglySorted lt (l1 ++ l2).
Proof.
  induction l1 as [|y l1 IH]; cbn; intros Hs.
  - by apply StronglySorted_inv in Hs as [? _].
  - apply StronglySorted_inv in Hs as [Hs Hf]. constructor; [by apply IH|].
    apply Forall_app in Hf as [? [_ ?]%Forall_cons]. by apply Forall_app.
Qed.

Lemma rr_index n k sk :
  sock_ok n k sk -> 0 <= round_robin_counter sk ->
  Z.to_nat (s32 (round_robin_counter sk mod u64 (num_threads sk))) = (Z.to_nat (round_robin_counter sk) mod n)%nat.
Proof.
  intros O Hrr. destruct (sk_num _ _ _ O) as (-> & Hn & Hn'). rewrite u64_small by lia.
  pose proof (Z.mod_pos_bound (round_robin_counter sk) (Z.of_nat n) ltac:(lia)).
  rewrite s32_small by lia. rewrite <- (Z2Nat.id (round_robin_counter sk)) at 1 by lia.
  by rewrite <- Nat2Z.inj_mod, Nat2Z.id.
Qed.

Lemma connection_ok n k sk status accepted client :
  sock_ok n k sk -> k + 1 < 2 ^ 64 -> Z.of_nat client = round_robin_counter sk ->
  exists sk', main_new_connection_cb sk status accepted client = Ret sk' /\ sock_ok n (k + 1) sk'.
Proof.
  intros O Hk Hc. destruct (sk_num _ _ _ O) as (Hnum & Hn & Hn'). destruct (sk_len _ _ _ O) as [Hlt Hlp].
  destruct (sk_total _ _ _ O) as [Htot Hcnt]. unfold main_new_connection_cb.
  destruct (Z.eqb_spec status (-1)) as [_|_].
  { exists sk. split; [done|]. destruct O. split; try done. lia. }
  assert ((counter sk + 1)%u64 = counter sk + 1) as Hcu by (apply u64_small; lia). rewrite Hcu.
  destruct (Z.eqb_spec accepted 0) as [_|_].
  2:{ eexists. split; [reflexivity|]. destruct O. split; cbn; try done. lia. }
  rewrite Hnum. assert (Z.of_nat n =? 0 = false) as -> by (apply Z.eqb_neq; lia). cbn [negb c_defined mbind outcome_bind].
  rewrite <- Hnum, (rr_index _ _ _ O) by lia.
  assert (Z.to_nat (round_robin_counter sk) = client) as -> by lia.
  pose proof (Nat.mod_upper_bound client n ltac:(lia)) as Hb.
  destruct (lookup_lt_is_Some_2 (pipe sk) (client mod n)) as [p Hp]; [lia|]. rewrite Hp.
  cbn [from_option_undef mbind outcome_bind].
  assert ((round_robin_counter sk + 1)%u64 = round_robin_counter sk + 1) as -> by (apply u64_small; lia).
  eexists. split; [reflexivity|]. split; cbn [set_state num_threads threads pipe round_robin_counter counter].
  - done.
  - by rewrite length_insert.
  - intros i t q Ht Hq. destruct (decide (client mod n = i)%nat) as [<-|Hne].
    + rewrite list_lookup_insert_eq in Hq by lia. injection Hq as <-.
      destruct (sk_own _ _ _ O _ _ _ Ht Hp) as [Hf Hs]. rewrite app_assoc. split.
      * apply Forall_app. split; [|constructor; [split; [done|lia]|constructor]].
        eapply Forall_impl; [exact Hf|]. cbn. intros c [? ?]. split; [done|lia].
      * apply sorted_snoc; [done|]. eapply Forall_impl; [exact Hf|]. cbn. intros c [_ ?]. lia.
    + rewrite list_lookup_insert_ne in Hq by done. destruct (sk_own _ _ _ O _ _ _ Ht Hq) as [Hf Hs].
      split; [|done]. eapply Forall_impl; [exact Hf|]. cbn. intros c [? ?]. split; [done|lia].
  - apply O.
  - pose proof (length_concat_insert _ _ _ (p ++ [client]) Hp) as E. rewrite length_app in E. cbn in E. lia.
Qed.

Lemma handover_ok n k sk i nread accepted :
  sock_ok n k sk -> k < 2 ^ 64 -> (i < n)%nat ->
  exists sk', thread_new_connection_cb sk i nread accepted = Ret sk' /\ sock_ok n k sk'.
Proof.
  intros O Hk Hi. destruct (sk_len _ _ _ O) as [Hlt Hlp]. destruct (sk_total _ _ _ O) as [Htot Hcnt].
  unfold thread_new_connection_cb. destruct (nread <? 0); [by exists sk|].
  destruct (lookup_lt_is_Some_2 (pipe sk) i) as [p Hp]; [lia|].
  destruct (lookup_lt_is_Some_2 (threads sk) i) as [t Ht]; [lia|].
  rewrite Hp, Ht. cbn [from_option_undef mbind outcome_bind]. destruct p as [|client p]; [by exists sk|].
  destruct (sk_own _ _ _ O _ _ _ Ht Hp) as [Hf Hs].
  assert ((clients <$> threads sk) !! i = Some (clients t)) as Hct by (by rewrite list_lookup_fmap, Ht).
  pose proof (length_concat_insert _ _ _ p Hp) as Ep. cbn [length] in Ep.
  set (t' := if accepted =? 0 then _ else t). eexists. split; [reflexivity|].
  assert (exists l, clients t' = clients t ++ l /\ (length l <= 1)%nat /\ (l = [] \/ l = [client]) /\
    t_counter t' = Z.of_nat (length (clients t'))) as (l & El & Hl & Hl' & Ec).
  { pose proof (sk_counter _ _ _ O _ _ Ht) as Hc. unfold t'. destruct (accepted =? 0).
    - exists [client]. cbn. split; [done|]. split; [lia|]. split; [by right|]. rewrite length_app, Hc. cbn.
      pose proof (length_concat_insert _ _ _ [] Hct) as E. cbn in E.
      unfold wadd. rewrite wrap_small; unfold fits; lia.
    - exists []. rewrite app_nil_r. split; [done|]. split; [cbn; lia|]. split; [by left|done]. }
  split; cbn [set_state num_threads threads pipe round_robin_counter counter].
  - apply O.
  - by rewrite !length_insert.
  - intros j t2 q Ht2 Hq. destruct (decide (i = j)) as [<-|Hne].
    + rewrite list_lookup_insert_eq in Ht2 by lia. rewrite list_lookup_insert_eq in Hq by lia.
      injection Ht2 as <-. injection Hq as <-. rewrite El. destruct Hl' as [->| ->].
      * rewrite app_nil_r. split; [|by eapply sorted_remove].
        apply Forall_app in Hf as [? [_ ?]%Forall_cons]. by apply Forall_app.
      * by rewrite <- app_assoc.
    + rewrite list_lookup_insert_ne in Ht2 by done. rewrite list_lookup_insert_ne in Hq by done.
      by apply (sk_own _ _ _ O).
  - intros j t2 Ht2. destruct (decide (i = j)) as [<-|Hne].
    + rewrite list_lookup_insert_eq in Ht2 by lia. by injection Ht2 as <-.
    + rewrite list_lookup_insert_ne in Ht2 by done. by apply (sk_counter _ _ _ O j).
  - rewrite list_fmap_insert. pose proof (length_concat_insert _ _ _ (clients t') Hct) as E.
    rewrite El, length_app in E. rewrite El. lia.
Qed.

Lemma step_ok n k sk sk' : sock_ok n k sk -> k + 1 < 2 ^ 64 -> step sk sk' -> sock_ok n (k + 1) sk'.
Proof.
  intros O Hk H. inversion H as [sk0 e sk1 Hv Hh]; subst. destruct e as [status accepted client|i nread accepted]; cbn in Hh.
  - destruct (connection_ok n k sk status accepted client O Hk Hv) as (sk2 & E & O'). congruence.
  - destruct (sk_len _ _ _ O) as [Hl _].
    destruct (handover_ok n k sk i nread accepted O) as (sk2 & E & O'); [lia|lia|].
    assert (sk2 = sk') as -> by congruence. destruct O'. split; try done. lia.
Qed.

Lemma nsteps_ok n m k sk sk' :
  sock_ok n k sk -> nsteps step m sk sk' -> k + Z.of_nat m < 2 ^ 64 -> sock_ok n (k + Z.of_nat m) sk'.
Proof.
  intros O H. revert k O. induction H as [sk|m sk sk1 sk' Hst Hs IH]; intros k O Hk.
  - by rewrite Z.add_0_r.
  - replace (k + Z.of_nat (S m)) with (k + 1 + Z.of_nat m) in * by lia. apply IH; [|lia].
    eapply step_ok; [done| |done]. lia.
Qed.

Lemma init_loop_ok pairs num dn :
  Forall is_Some pairs -> (num <= length pairs)%nat -> Forall (fun t => clients t = [] /\ t_counter t = 0) dn ->
  exists ths, init_loop pairs (repeat zero_thread num) dn = (true, ths) /\ length ths = (length dn + num)%nat /\
    Forall (fun t => clients t = [] /\ t_counter t = 0) ths.
Proof.
  revert pairs dn. induction num as [|num IH]; intros pairs dn Hp Hl Hd; cbn.
  - exists dn. split; [destruct pairs; reflexivity|]. split; [lia|done].
  - destruct pairs as [|q pairs]; [cbn in Hl; lia|]. apply Forall_cons in Hp as [[[f1 f2] ->] Hp]. cbn in Hl.
    destruct (IH pairs (dn ++ [Thread f2 0 0 []]) Hp ltac:(lia)) as (ths & E & Hlen & Hf).
    + apply Forall_app. split; [done|]. by repeat constructor.
    + exists ths. split; [exact E|]. rewrite length_app in Hlen. cbn in Hlen. split; [lia|done].
Qed.

Lemma concat_all_nil {A} (ls : list (list A)) : Forall (fun l => l = []) ls -> concat ls = [].
Proof. induction 1 as [|l ls -> _ IH]; cbn; [done|]. by rewrite IH. Qed.

Lemma start_ok a prt blog n pairs :
  (0 < n)%nat -> Z.of_nat n < 2 ^ 31 -> (n <= length pairs)%nat -> Forall is_Some pairs ->
  sock_ok n 0 (net_sock_run (net_sock_create a prt blog (Z.of_nat n) pairs)).
Proof.
  intros Hn Hn' Hl Hp. unfold net_sock_create, net_sock_init. rewrite Nat2Z.id.
  destruct (init_loop_ok pairs n [] Hp Hl) as (ths & -> & Hlen & Hf); [constructor|]. cbn in Hlen.
  set (ths' := imap (fun i t => Thread (notify_receive_fd t) (t_counter t) (Z.of_nat i) (clients t)) ths).
  assert (forall i t, ths' !! i = Some t -> clients t = [] /\ t_counter t = 0) as Hths.
  { intros i t Ht. unfold ths' in Ht. rewrite list_lookup_imap in Ht. apply fmap_Some in Ht as (t0 & Ht0 & ->).
    rewrite Forall_lookup in Hf. exact (Hf i _ Ht0). }
  assert (forall i q, repeat (@nil nat) n !! i = Some q -> q = []) as Hq.
  { intros i q H. by apply list_elem_of_lookup_2, list_elem_of_In, repeat_spec in H. }
  split; cbn; fold ths'.
  - done.
  - unfold ths'. by rewrite length_imap, repeat_length.
  - intros i t q Ht ->%Hq. destruct (Hths _ _ Ht) as [-> _]. split; constructor.
  - intros i t Ht. by destruct (Hths _ _ Ht) as [-> ->].
  - rewrite !concat_all_nil; [done| |].
    + apply Forall_lookup. intros i l Hi. rewrite list_lookup_fmap in Hi. apply fmap_Some in Hi as (t & Ht & ->).
      by destruct (Hths _ _ Ht).
    + apply Forall_lookup. apply Hq.
Qed.

Lemma success_sum n k sk :
  sock_ok n k sk -> k < 2 ^ 64 ->
  fold_left (fun s t => (s + t_counter t)%u64) (threads sk) 0 = Z.of_nat (length (concat (clients <$> threads sk))).
Proof.
  intros O Hk. destruct (sk_total _ _ _ O) as [Htot Hcnt].
  assert (forall ths s, (forall i t, ths !! i = Some t -> t_counter t = Z.of_nat (length (clients t))) -> 0 <= s ->
    s + Z.of_nat (length (concat (clients <$> ths))) < 2 ^ 64 ->
    fold_left (fun s t => (s + t_counter t)%u64) ths s = s + Z.of_nat (length (concat (clients <$> ths)))) as H.
  { induction ths as [|t ths IH]; intros s Hc Hs Hb; cbn; [lia|]. cbn in Hb. rewrite length_app in *.
    rewrite (Hc 0%nat t eq_refl). rewrite IH; [|intros i t' Ht'; by apply (Hc (S i))| |];
      unfold wadd; rewrite wrap_small; unfold fits; lia. }
  rewrite H; [lia|apply (sk_counter _ _ _ O)|lia|lia].
Qed.

(** C16: in every reachable state of a dispatcher with [n] threads, whatever the
    order in which the main loop and the threads run and whichever calls of
    libuv fail: every connection a thread has or is about to get has a number
    congruent to the thread's modulo [n], each thread gets them in the order
    of their arrival and none twice; the counters count, so the failures
    reported are the connections not yet or never taken; and no further event
    can make the system crash. *)
Theorem round_robin_reachable a prt blog n pairs m sk :
  (0 < n)%nat -> Z.of_nat n < 2 ^ 31 -> (n <= length pairs)%nat -> Forall is_Some pairs ->
  nsteps step m (net_sock_run (net_sock_create a prt blog (Z.of_nat n) pairs)) sk -> Z.of_nat m + 1 < 2 ^ 64 ->
  (forall i t p, threads sk !! i = Some t -> pipe sk !! i = Some p ->
     Forall (fun c => (c mod n = i)%nat) (clients t ++ p) /\ StronglySorted lt (clients t ++ p)) /\
  (let '(total, success, failure) := net_handle_metric sk in
     success = Z.of_nat (length (concat (clients <$> threads sk))) /\
     failure = total - success /\ Z.of_nat (length (concat (pipe sk))) <= failure) /\
  (forall status accepted client, Z.of_nat client = round_robin_counter sk ->
     returns (handle sk (Connection status accepted client))) /\
  (forall i nread accepted, (i < n)%nat -> returns (handle sk (Handover i nread accepted))).
Proof.
  intros Hn Hn' Hl Hp Hs Hm.
  pose proof (nsteps_ok n m 0 _ sk (start_ok a prt blog n pairs Hn Hn' Hl Hp) Hs ltac:(lia)) as O.
  destruct (sk_total _ _ _ O) as [Htot Hcnt]. split; [|split; [|split]].
  - intros i t p Ht Hq. destruct (sk_own _ _ _ O _ _ _ Ht Hq) as [Hf Hst]. split; [|done].
    eapply Forall_impl; [exact Hf|]. by intros c [? _].
  - unfold net_handle_metric. rewrite (success_sum _ _ _ O) by lia. split; [done|].
    unfold wsub. rewrite wrap_small; unfold fits; lia.
  - intros status accepted client Hc. destruct (connection_ok _ _ _ status accepted client O) as (sk' & E & _); [lia|done|].
    by exists sk'.
  - intros i nread accepted Hi. destruct (handover_ok _ _ _ i nread accepted O) as (sk' & E & _); [lia|done|].
    by exists sk'.
Qed.

Definition two_pairs : list (option (Z * Z)) := [Some (5, 6); Some (7, 8)].

Definition two_start : net_sock_t := net_sock_run (net_sock_create None 9090 128 2 two_pairs).

(** Two connections, the first handed over by the first thread in between. *)
Definition two_end : outcome net_sock_t :=
  sk1 ← handle two_start (Connection 0 0 0);
  sk2 ← handle sk1 (Handover 0 1 0);
  handle sk2 (Connection 0 0 1).

Lemma two_reachable : exists sk, two_end = Ret sk /\ nsteps step 3 two_start sk.
Proof.
  eexists. split; [vm_compute; reflexivity|].
  eapply nsteps_l; [apply (step_event _ (Connection 0 0 0)); [reflexivity|vm_compute; reflexivity]|].
  eapply nsteps_l; [apply (step_event _ (Handover 0 1 0)); [vm_compute; lia|vm_compute; reflexivity]|].
  eapply nsteps_l; [apply (step_event _ (Connection 0 0 1)); [reflexivity|vm_compute; reflexivity]|].
  apply nsteps_O.
Qed.

Lemma round_robin_reachable_witness :
  exists sk, nsteps step 3 two_start sk /\
    (clients <$> threads sk, pipe sk) = ([[0%nat]; []], [[]; [1%nat]]) /\
    returns (handle sk (Handover 1 0 0)).
Proof.
  destruct two_reachable as (sk & E & Hs). exists sk. split; [exact Hs|]. split.
  - vm_compute in E. injection E as <-. reflexivity.
  - refine (proj2 (proj2 (proj2 (round_robin_reachable None 9090 128 2 two_pairs 3 sk _ _ _ _ Hs _))) 1%nat 0 0 _);
      try (vm_compute; lia); try (cbn; lia). repeat constructor; by eexists.
Defined.
