(* ===== verification/Echo.v ===== *)
(** * The connections of a worker thread ([src/base/net_sock.c])

    What [NetSock] leaves out of a thread: its loop is made by
    [net_sock_thread_init] and stopped by [net_sock_thread_deinit], sequences
    of calls of libuv; and each of its connections sends back what it reads.
    For a read libuv asks [alloc_buffer] for a buffer, fills it and calls
    [read_cb] of [NetSock]; a finished write is reported to [write_cb].
    Buffers and write requests are blocks with numbers, so that a block freed
    twice, or never, shows. *)

From Stdlib Require Import Strings.Byte.
From stdpp Require Import relations.
From S2P Require Import Prelude Bytes NetSock.

(** ** The loop of a thread *)

Inductive uv_call :=
  | UvLoopInit
  | UvPipeInit (ipc : bool)
  | UvPipeOpen (fd : Z)
  | UvReadStart
  | UvRun
  | UvStop
  | UvLoopClose
  | PthreadJoin (id : Z).

Definition net_sock_thread_init (skt : net_sock_thread_t) : list uv_call :=
  [UvLoopInit; UvPipeInit true; UvPipeOpen (notify_receive_fd skt); UvReadStart; UvRun].

Definition net_sock_thread_deinit (skt : option net_sock_thread_t) : list uv_call :=
  match skt with
  | None => []
  | Some skt => [UvStop; UvLoopClose; PthreadJoin (id skt)]
  end.

(** ** A connection *)

(** [blocks]: the buffers allocated; [reqs]: the write requests in flight, with
    their buffers; [sent]: what was handed to [uv_write], in order. *)
Record conn := Conn {
  blocks : gset nat;
  reqs : gmap nat nat;
  sent : list byte;
  closed : bool;
  fresh_id : nat }.

Definition conn_start : conn := Conn ∅ ∅ [] false 0.

Definition free_block (s : conn) (b : nat) : outcome conn :=
  if decide (b ∈ blocks s) then mret (Conn (blocks s ∖ {[ b ]}) (reqs s) (sent s) (closed s) (fresh_id s)) else Undefined.

(** The buffer and its length. *)
Definition alloc_buffer (s : conn) (suggested_size : Z) : nat * Z * conn :=
  (fresh_id s, suggested_size, Conn ({[ fresh_id s ]} ∪ blocks s) (reqs s) (sent s) (closed s) (S (fresh_id s))).

Definition free_write_req (s : conn) (req : nat) : outcome conn :=
  buf ← from_option_undef (reqs s !! req);
  s ← free_block s buf;
  mret (Conn (blocks s) (delete req (reqs s)) (sent s) (closed s) (fresh_id s)).

Definition write_cb (s : conn) (req : nat) (status : Z) : outcome conn := free_write_req s req.

(** What [read_cb] asks for. *)
Definition act (buf : nat) (s : conn) (a : read_action) : outcome conn :=
  match a with
  | WriteBack data =>
      mret (Conn (blocks s) (<[fresh_id s := buf]> (reqs s)) (sent s ++ data) (closed s) (S (fresh_id s)))
  | CloseClient => mret (Conn (blocks s) (reqs s) (sent s) true (fresh_id s))
  | FreeBuffer => free_block s buf
  end.

Fixpoint acts (buf : nat) (s : conn) (l : list read_action) : outcome conn :=
  match l with
  | [] => mret s
  | a :: l => s ← act buf s a; acts buf s l
  end.

(** One read of [nread] bytes into a buffer that then holds [data]. *)
Definition read_event (s : conn) (suggested_size : Z) (data : list byte) (nread : Z) : outcome conn :=
  let '(buf, len, s) := alloc_buffer s suggested_size in
  acts buf s (read_cb data nread).

(** libuv reads only from an open connection and reports each write once. *)
Inductive conn_step : list byte * conn -> list byte * conn -> Prop :=
  | step_read s size data nread got s' :
      closed s = false -> read_event s size data nread = Ret s' ->
      conn_step (got, s) (got ++ (if 0 <? nread then take (Z.to_nat nread) data else []), s')
  | step_written s req buf status got s' :
      reqs s !! req = Some buf -> write_cb s req status = Ret s' -> conn_step (got, s) (got, s').

(** ** Every buffer is freed once *)

(** The live buffers are those of the writes in flight, each of one write;
    [got] is what was read. *)
Record conn_ok (got : list byte) (s : conn) : Prop := {
  co_blocks b : b ∈ blocks s <-> exists r, reqs s !! r = Some b;
  co_inj r1 r2 b : reqs s !! r1 = Some b -> reqs s !! r2 = Some b -> r1 = r2;
  co_fresh : (forall b, b ∈ blocks s -> (b < fresh_id s)%nat) /\ forall r, is_Some (reqs s !! r) -> (r < fresh_id s)%nat;
  co_sent : sent s = got }.

Lemma read_event_ok got s size data nread :
  conn_ok got s -> exists s', read_event s size data nread = Ret s' /\
    conn_ok (got ++ if 0 <? nread then take (Z.to_nat nread) data else []) s' /\ closed s' = closed s || (nread <? 0).
Proof.
  intros O. destruct (co_fresh _ _ O) as [Hb Hr]. set (n := fresh_id s) in *.
  assert (n ∉ blocks s) as Hn by (intros H%Hb; lia).
  unfold read_event, alloc_buffer, read_cb. fold n. destruct (Z.ltb_spec 0 nread) as [Hpos|Hneg].
  - eexists. split; [reflexivity|]. cbn [act closed blocks reqs fresh_id sent]. split.
    + assert (reqs s !! S n = None) as HSn by (apply eq_None_not_Some; intros H%Hr; lia).
      split; cbn.
      * intros b. rewrite elem_of_union, elem_of_singleton, (co_blocks _ _ O). split.
        -- intros [->|[r Hr']]; [exists (S n); apply lookup_insert_eq|]. exists r. rewrite lookup_insert_ne; [done|]. intros <-. by rewrite HSn in Hr'.
        -- intros [r [[<- <-]|[_ Hr']]%lookup_insert_Some]; [by left|right; eauto].
      * intros r1 r2 b [[<- <-]|[H1 E1]]%lookup_insert_Some [[<- E]|[H2 E2]]%lookup_insert_Some; [done| | |].
        -- destruct Hn. apply (co_blocks _ _ O). eauto.
        -- subst. destruct Hn. apply (co_blocks _ _ O). eauto.
        -- by apply (co_inj _ _ O r1 r2 b).
      * split; [intros b; rewrite elem_of_union, elem_of_singleton; intros [->|H%Hb]; lia|].
        intros r [<-|H%Hr]%lookup_insert_is_Some'; lia.
      * by rewrite (co_sent _ _ O).
    + rewrite (proj2 (Z.ltb_ge nread 0)) by lia. by rewrite orb_false_r.
  - assert (({[n]} ∪ blocks s) ∖ {[n]} = blocks s) as E by set_solver.
    assert (n ∈ {[n]} ∪ blocks s) as Hin by set_solver.
    rewrite app_nil_r. destruct (nread <? 0); cbn [app acts act mbind outcome_bind mret outcome_ret];
      unfold free_block; cbn [blocks reqs sent closed fresh_id]; rewrite decide_True by exact Hin; rewrite E;
      (eexists; split; [reflexivity|]; split; [|by rewrite ?orb_true_r, ?orb_false_r]).
    all: destruct O; split; cbn; try done; split; intros ? H; [apply Hb in H|apply Hr in H]; lia.
Qed.

Lemma write_cb_ok got s req buf status :
  conn_ok got s -> reqs s !! req = Some buf -> exists s', write_cb s req status = Ret s' /\ conn_ok got s' /\
    reqs s' = delete req (reqs s) /\ closed s' = closed s.
Proof.
  intros O Hreq. unfold write_cb, free_write_req. rewrite Hreq. cbn [from_option_undef mbind outcome_bind]. unfold free_block.
  rewrite decide_True by (apply (co_blocks _ _ O); eauto). cbn [mbind outcome_bind mret outcome_ret blocks reqs sent closed fresh_id].
  eexists. split; [reflexivity|]. split; [|done]. destruct (co_fresh _ _ O) as [Hb Hr]. split; cbn.
  - intros b. rewrite elem_of_difference, elem_of_singleton, (co_blocks _ _ O). split.
    + intros [[r Hr'] Hne]. exists r. rewrite lookup_delete_ne by congruence. done.
    + intros [r [Hne Hr']%lookup_delete_Some]. split; [eauto|]. intros ->. apply Hne. by apply (co_inj _ _ O req r buf).
  - intros r1 r2 b [_ H1]%lookup_delete_Some [_ H2]%lookup_delete_Some. by apply (co_inj _ _ O r1 r2 b).
  - split; [intros b [H _]%elem_of_difference; auto|]. intros r [? [_ H]%lookup_delete_Some]. apply Hr. eauto.
  - apply (co_sent _ _ O).
Qed.

Lemma conn_reachable got s : rtc conn_step ([], conn_start) (got, s) -> conn_ok got s.
Proof.
  assert (conn_ok [] conn_start) as O0.
  { split; cbn; [|intros r1 r2 b H; by rewrite lookup_empty in H|split; [set_solver|intros r [? H]; by rewrite lookup_empty in H]|done].
    intros b. split; [set_solver|]. intros [r H]. by rewrite lookup_empty in H. }
  intros R. remember ([], conn_start) as c0. assert (conn_ok c0.1 c0.2) as O by (by subst). clear Heqc0 O0.
  remember (got, s) as c1. replace got with c1.1 by (by subst). replace s with c1.2 by (by subst). clear Heqc1 got s.
  induction R as [c|c c1 c2 Hs _ IH]; [done|]. apply IH. destruct Hs as [s size data nread got s' _ E|s req buf status got s' Hreq E]; cbn [fst snd] in *.
  - destruct (read_event_ok got s size data nread O) as (s2 & E2 & O2 & _). rewrite E2 in E. by injection E as <-.
  - destruct (write_cb_ok got s req buf status O Hreq) as (s2 & E2 & O2 & _). rewrite E2 in E. by injection E as <-.
Qed.

(** ** Properties *)

(** C32: on a connection in any reachable state, exactly the bytes read were
    handed back for writing, in order; the buffers allocated are those of the
    writes in flight, one each, so none is left when all have been reported;
    and no further read or report of a write in flight frees a block twice. *)
Theorem echo_buffers_freed got s :
  rtc conn_step ([], conn_start) (got, s) ->
  sent s = got /\ (reqs s = ∅ -> blocks s = ∅) /\
  (forall b, b ∈ blocks s <-> exists r, reqs s !! r = Some b) /\
  (forall r1 r2 b, reqs s !! r1 = Some b -> reqs s !! r2 = Some b -> r1 = r2) /\
  (forall size data nread, returns (read_event s size data nread)) /\
  (forall req status, is_Some (reqs s !! req) <-> returns (write_cb s req status)).
Proof.
  intros R. apply conn_reachable in R as O. split; [apply O|]. split; [|split; [apply O|split; [apply O|split]]].
  - intros E. apply set_eq. intros b. rewrite (co_blocks _ _ O), E. split; [|set_solver].
    intros [r H]. by rewrite lookup_empty in H.
  - intros size data nread. destruct (read_event_ok got s size data nread O) as (s' & E & _). by exists s'.
  - intros req status. split.
    + intros [buf H]. destruct (write_cb_ok got s req buf status O H) as (s' & E & _). by exists s'.
    + intros [s' E]. unfold write_cb, free_write_req in E. destruct (reqs s !! req); [eauto|done].
Qed.

(** Three bytes and two bytes are read, the second write ends first, then the
    connection fails. *)
Definition echo_end : outcome conn :=
  s ← read_event conn_start 64 [x61; x62; x63] 3;
  s ← read_event s 64 [x64; x65] 2;
  s ← write_cb s 3 0;
  read_event s 64 [] (-104).

Lemma echo_buffers_freed_witness :
  exists s, echo_end = Ret s /\ sent s = [x61; x62; x63; x64; x65] /\ closed s = true /\
    returns (write_cb s 1 0) /\ ~ returns (write_cb s 3 0).
Proof.
  eexists. split; [vm_compute; reflexivity|]. match goal with |- sent ?s = _ /\ _ => set (e := s) end.
  assert (rtc conn_step ([], conn_start) ([x61; x62; x63; x64; x65], e)) as R.
  { eapply rtc_l; [apply (step_read _ 64 [x61; x62; x63] 3); [reflexivity|vm_compute; reflexivity]|].
    eapply rtc_l; [apply (step_read _ 64 [x64; x65] 2); [reflexivity|vm_compute; reflexivity]|].
    eapply rtc_l; [eapply (step_written _ 3%nat _ 0); [reflexivity|vm_compute; reflexivity]|].
    eapply rtc_l; [apply (step_read _ 64 [] (-104)); [reflexivity|vm_compute; reflexivity]|]. apply rtc_refl. }
  destruct (echo_buffers_freed _ e R) as (Hsent & _ & _ & _ & _ & Hw).
  split; [exact Hsent|]. split; [reflexivity|]. split.
  - apply Hw. by eexists.
  - rewrite <- Hw. intros [? H]. discriminate H.
Defined.
