(* ===== verification/CLog.v ===== *)
(** * The log of [src/base/c_log.c]

    [g_log] is the state; what the functions ask of the system is an event of
    a trace.  The results of system calls are arguments: [opened] is what
    [open] answers, [date] and [usec] the local time as [strftime] prints it
    and its microseconds, [text] what [vsnprintf] would print without a limit
    ([None] when it fails).  The mutex has no effect on a sequential run. *)

From Stdlib Require Import Strings.Byte Strings.String.
From S2P Require Import Prelude Bytes CString Format.

(** Levels and kinds of [c_log.h]. *)
Definition LOG_ERR : Z := 0.
Definition LOG_WARNING : Z := 1.
Definition LOG_INFO : Z := 2.
Definition LOG_DEBUG : Z := 3.
Definition C_LOG_FILE : Z := 3.

Definition LOG_BUF_SIZE : nat := 1024.
Definition LOG_TIME_SIZE : nat := 32.
Definition LOG_LEVEL_SIZE : nat := 32.
Definition LOG_PNAME_SIZE : nat := 32.
Definition LOG_TEXT_SIZE : nat := 256.

Record c_log_t := CLog {
  log_file : option (list byte);
  log_fd : Z;
  log_level : Z;
  is_init : bool }.


Inductive effect :=
  | Opened (file : list byte) (fd : Z)
  | Written (fd : Z) (data : list byte)
  | Closed (fd : Z).

Definition c_log_init (g : c_log_t) (type : Z) (file : option (list byte)) (opened : Z)
    : outcome (Z * c_log_t * list effect) :=
  if negb (is_init g) then
    '(g, fx) ← match file with
      | Some path =>
          if type =? C_LOG_FILE then
            name ← strdup path;
            c_assert (negb (opened =? -1)) ;;
            mret (CLog (Some name) opened (log_level g) (is_init g), [Opened name opened])
          else mret (g, [])
      | None => mret (g, [])
      end;
    let fd := if log_fd g <? 0 then type else log_fd g in
    mret (0, CLog (log_file g) fd LOG_INFO (is_init g), fx)
  else mret (-1, g, []).

Definition c_log_set_level (g : c_log_t) (level : Z) : c_log_t :=
  if is_init g then CLog (log_file g) (log_fd g) level (is_init g) else g.


(** ** One record *)

Definition c_log_get_time (len : nat) (date : list byte) (usec : Z) (flag_name : Z) : list byte :=
  let date_ms := snprintf 32 (pad x30 3 (decimal (Z.quot usec 1000))) in
  if flag_name =? 0 then snprintf len (lit "[" ++ date ++ lit "." ++ date_ms ++ lit "]")
  else snprintf len (date ++ lit "_" ++ date_ms ++ lit ".log").

Definition c_log_level_str : list (list byte) := [lit "ERR"; lit "WARN"; lit "INFO"; lit "DEBUG"].

Definition ESC : list byte := [x1b].

(** The colour macros: [BOLD] for the level, plain for the message. *)
Definition B_RED (s : list byte) : list byte := ESC ++ lit "[1;31m" ++ s ++ ESC ++ lit "[0m".
Definition B_GREEN (s : list byte) : list byte := ESC ++ lit "[1;32m" ++ s ++ ESC ++ lit "[0m".
Definition B_YELLOW (s : list byte) : list byte := ESC ++ lit "[1;33m" ++ s ++ ESC ++ lit "[0m".
Definition B_WHITE (s : list byte) : list byte := ESC ++ lit "[1;37m" ++ s ++ ESC ++ lit "[0m".
Definition RED (s : list byte) : list byte := ESC ++ lit "[31m" ++ s ++ ESC ++ lit "[0m".
Definition GREEN (s : list byte) : list byte := ESC ++ lit "[32m" ++ s ++ ESC ++ lit "[0m".
Definition YELLOW (s : list byte) : list byte := ESC ++ lit "[33m" ++ s ++ ESC ++ lit "[0m".
Definition WHITE (s : list byte) : list byte := ESC ++ lit "[37m" ++ s ++ ESC ++ lit "[0m".

(** The switch over the level: the decorations of level and message. *)
Definition colours (lvl : Z) : (list byte -> list byte) * (list byte -> list byte) :=
  if lvl =? LOG_ERR then (B_RED, RED)
  else if lvl =? LOG_WARNING then (B_YELLOW, YELLOW)
  else if lvl =? LOG_INFO then (B_GREEN, GREEN)
  else if lvl =? LOG_DEBUG then (B_WHITE, WHITE)
  else (id, id).

(** [c_log_level_str[lvl]] is read in every arm of the switch. *)
Definition c_log_write (g : c_log_t) (lvl : Z) (file : list byte) (line : Z) (func msg : list byte)
    (date : list byte) (usec pid : Z) : outcome (Z * list effect) :=
  name ← (if lvl <? 0 then Undefined else from_option_undef (c_log_level_str !! Z.to_nat lvl));
  let s_time := c_log_get_time LOG_TIME_SIZE date usec 0 in
  let s_lvl := snprintf LOG_LEVEL_SIZE ((colours lvl).1 (lit "[" ++ pad x20 7 name ++ lit "]")) in
  let s_msg := snprintf LOG_BUF_SIZE ((colours lvl).2 msg) in
  let s_pid := snprintf LOG_PNAME_SIZE (lit "[pid:" ++ decimal pid ++ lit "]") in
  let s_file := snprintf LOG_TEXT_SIZE
    (lit "[" ++ file ++ lit ":" ++ pad x20 3 (decimal line) ++ lit ": " ++ func ++ lit "] " ++ [x0a]) in
  mret (0, [Written (log_fd g) (s_time ++ s_pid ++ s_lvl ++ s_file ++ s_msg)]).

Definition c_log_print (g : c_log_t) (lvl : Z) (file : list byte) (line : Z) (func : list byte)
    (text : option (list byte)) (date : list byte) (usec pid : Z) : outcome (Z * c_log_t * list effect) :=
  '(g, fx) ← (if negb (is_init g) then
                let g := c_log_set_level g lvl in
                '(_, g, fx) ← c_log_init g 0 None (-1);
                mret (g, fx)
              else mret (g, []));
  if (lvl <? LOG_ERR) || (LOG_DEBUG <? lvl) then mret (-1, g, fx)
  else
    match text with
    | None => mret (-1, g, fx)
    | Some text =>
        '(ret, out) ← c_log_write g lvl file line func (snprintf LOG_BUF_SIZE text) date usec pid;
        mret (ret, g, fx ++ out)
    end.

(** ** The log as a sequence of calls *)




(** ** What is logged *)









Lemma level_name lvl : 0 <= lvl <= 3 -> exists name, c_log_level_str !! Z.to_nat lvl = Some name /\ (length name <= 5)%nat.
Proof.
  intros H. assert (lvl = 0 \/ lvl = 1 \/ lvl = 2 \/ lvl = 3) as [-> | [-> | [-> | ->]]] by lia;
    eexists; (split; [reflexivity|cbn; lia]).
Qed.










Lemma write_bounded g lvl file line func msg date usec pid :
  0 <= lvl <= 3 ->
  exists data, c_log_write g lvl file line func msg date usec pid = Ret (0, [Written (log_fd g) data]) /\
    (length data <= 1371)%nat.
Proof.
  intros Hl. unfold c_log_write. destruct (level_name lvl Hl) as (name & -> & _).
  rewrite (proj2 (Z.ltb_ge _ _)) by lia. cbn [from_option_undef mbind outcome_bind mret outcome_ret].
  eexists. split; [reflexivity|]. unfold c_log_get_time. rewrite Z.eqb_refl, !length_app.
  unfold LOG_BUF_SIZE, LOG_TEXT_SIZE, LOG_LEVEL_SIZE, LOG_PNAME_SIZE, LOG_TIME_SIZE, snprintf.
  rewrite !length_take. lia.
Qed.

(** whatever the level and the lengths of the fields, [c_log_print] returns
    (the table of level names is only read within its bounds) and writes at
    most one record, of at most 1371 bytes. *)
Theorem log_print_bounded g lvl file line func text date usec pid :
  exists r g' fx, c_log_print g lvl file line func text date usec pid = Ret (r, g', fx) /\
    (fx = [] \/ exists data, fx = [Written (log_fd g') data] /\ (length data <= 1371)%nat).
Proof.
  unfold c_log_print, c_log_set_level, c_log_init.
  destruct (is_init g) eqn:Ei; rewrite ?Ei; cbn [negb mbind outcome_bind mret outcome_ret].
  all: destruct ((lvl <? LOG_ERR) || (LOG_DEBUG <? lvl)) eqn:E; [by eauto 8|].
  all: apply orb_false_iff in E as [E1%Z.ltb_ge E2%Z.ltb_ge]; unfold LOG_ERR, LOG_DEBUG in *.
  all: destruct text as [text|]; [|by eauto 8].
  all: match goal with |- context [c_log_write ?g0 _ _ _ _ ?m _ _ _] =>
    destruct (write_bounded g0 lvl file line func m date usec pid) as (data & -> & Hd); [lia|] end.
  all: cbn; eauto 10.
Qed.

(** ** Witnesses *)


