(* ===== verification/Logging.v ===== *)
(** * The log of the FUSE program ([src/fuse/logging.c], [logging.h])

    [logfile] is the text written so far, [None] while no file is open; the
    message is the text [vfprintf] prints.  The mutex has no effect on a
    sequential run; [LoggingThreads] has several threads. *)

From Stdlib Require Import Strings.Byte Strings.String.
From S2P Require Import Prelude Bytes CString Format.

Definition LOG_DEBUG : Z := 7.
Definition DEFAULT_LOG_LEVEL : Z := LOG_DEBUG.
Definition DEFAULT_LOG_FILE : option (list byte) := None.

Record logging := Logging { loglevel : Z; logfile : option (list byte) }.

(** Static storage as it is initialised. *)
Definition logging_start : logging := Logging DEFAULT_LOG_LEVEL None.

Definition loglevel_str : list (list byte) :=
  [lit "[emerg]"; lit "[alert]"; lit "[crit] "; lit "[err]  "; lit "[warn] "; lit "[notic]"; lit "[info] "; lit "[debug]"].

Definition __LOG (g : logging) (level : Z) (func : list byte) (line : Z) (text : list byte) : outcome logging :=
  match logfile g with
  | None => mret g
  | Some out =>
      if level <? 0 then mret g
      else if loglevel g <? level then mret g
      else
        name ← from_option_undef (loglevel_str !! Z.to_nat level);
        mret (Logging (loglevel g)
          (Some (out ++ name ++ lit "[" ++ func ++ lit ":" ++ decimal line ++ lit "] " ++ text ++ [x0a])))
  end.

Definition logging_setlevel (g : logging) (new_level : Z) : logging := Logging new_level (logfile g).

(** [opened]: whether [fopen(path, "w")] succeeds. *)
Definition logging_open (g : logging) (path : option (list byte)) (opened : bool) : Z * logging :=
  match path with
  | None => (0, g)
  | Some _ => if opened then (0, Logging (loglevel g) (Some [])) else (-1, Logging (loglevel g) None)
  end.

(** ** What a sequence of messages leaves in the file *)

Record message := Message { m_level : Z; m_func : list byte; m_line : Z; m_text : list byte }.

Fixpoint log_all (g : logging) (ms : list message) : outcome logging :=
  match ms with
  | [] => mret g
  | m :: ms => g ← __LOG g (m_level m) (m_func m) (m_line m) (m_text m); log_all g ms
  end.

(** The line of a message. *)
Definition line_of (m : message) : list byte :=
  default [] (loglevel_str !! Z.to_nat (m_level m)) ++ lit "[" ++ m_func m ++ lit ":" ++ decimal (m_line m) ++ lit "] "
    ++ m_text m ++ [x0a].

Definition enabled (level : Z) (m : message) : bool := (0 <=? m_level m) && (m_level m <=? level).

Lemma log_line g m out :
  logfile g = Some out -> loglevel g <= LOG_DEBUG ->
  __LOG g (m_level m) (m_func m) (m_line m) (m_text m)
  = Ret (Logging (loglevel g) (Some (out ++ if enabled (loglevel g) m then line_of m else []))).
Proof.
  intros Hout Hl. unfold __LOG, enabled, line_of, LOG_DEBUG in *. rewrite Hout. destruct g as [lv lf]; cbn in *.
  destruct (Z.ltb_spec (m_level m) 0), (Z.leb_spec 0 (m_level m)); try lia.
  { cbn. rewrite app_nil_r. by subst. }
  destruct (Z.ltb_spec lv (m_level m)), (Z.leb_spec (m_level m) lv); try lia; cbn.
  { rewrite app_nil_r. by subst. }
  destruct (lookup_lt_is_Some_2 loglevel_str (Z.to_nat (m_level m))) as [name ->]; [cbn; lia|]. done.
Qed.

(** after [logging_open] of a path that can be opened, the file holds one line
    for every message whose level is enabled, in order, and nothing else;
    with no path, or a path that cannot be opened, logging is silent; and a
    level above the last one makes the next message of level 8 read past the
    table of level names. *)
Theorem log_lines g path level ms func line text :
  (level <= LOG_DEBUG ->
    let '(r, g') := logging_open (logging_setlevel g level) (Some path) true in
    r = 0 /\ log_all g' ms = Ret (Logging level (Some (concat (line_of <$> filter (fun m => enabled level m = true) ms))))) /\
  (let '(r, g') := logging_open g (Some path) false in r = -1 /\ log_all g' ms = Ret g') /\
  (logfile g = None -> logging_open g None true = (0, g) /\ log_all g ms = Ret g) /\
  (LOG_DEBUG < level -> logfile g <> None -> __LOG (logging_setlevel g level) 8 func line text = Undefined).
Proof.
  assert (forall h, logfile h = None -> log_all h ms = Ret h) as Hsilent.
  { intros h Hh. induction ms as [|m ms' IH]; [done|]. cbn [log_all]. unfold __LOG. by rewrite Hh. }
  split; [|split; [|split]].
  - intros Hl. cbn. split; [done|].
    assert (forall out, log_all (Logging level (Some out)) ms
      = Ret (Logging level (Some (out ++ concat (line_of <$> filter (fun m => enabled level m = true) ms))))) as H;
      [|apply (H [])].
    clear Hsilent. induction ms as [|m ms' IH]; intros out; [cbn; by rewrite app_nil_r|]. cbn [log_all].
    rewrite (log_line _ _ out) by done. cbn [mbind outcome_bind loglevel]. rewrite IH, <- app_assoc.
    rewrite filter_cons. destruct (enabled level m); [rewrite decide_True by done|rewrite decide_False by done]; done.
  - cbn. split; [done|]. by apply Hsilent.
  - intros Hg. split; [done|]. by apply Hsilent.
  - intros Hl Hg. unfold __LOG, logging_setlevel, LOG_DEBUG in *. cbn. destruct (logfile g); [|done].
    by rewrite (proj2 (Z.ltb_ge level 8)) by lia.
Qed.

Lemma log_lines_witness :
  log_all (snd (logging_open (logging_setlevel logging_start 4) (Some (lit "log")) true))
    [Message 3 (lit "main") 10 (lit "no disk"); Message 7 (lit "main") 11 (lit "detail")]
  = Ret (Logging 4 (Some (lit "[err]  [main:10] no disk" ++ [x0a]))).
Proof.
  refine (proj2 (proj1 (log_lines logging_start (lit "log") 4
    [Message 3 (lit "main") 10 (lit "no disk"); Message 7 (lit "main") 11 (lit "detail")] [] 0 []) _)).
  unfold LOG_DEBUG. lia.
Defined.
