(* ===== verification/Main.v ===== *)
(** * Start-up of the FUSE program ([src/fuse/fuse-main.c])

    [libfuse] is a parameter: [fuse_opt_parse] calls back [e4f_opt_proc] for
    the arguments it does not handle itself, [fuse_main] serves the device
    that has been opened.  [open_dev path] is the device behind a path with
    the descriptor and the [errno] of opening it. *)

From Stdlib Require Import Strings.Byte Strings.String.
From S2P Require Import Prelude Bytes CString Format Layout Disk Image Super Logging.

Definition FUSE_OPT_KEY_OPT : Z := -1.
Definition FUSE_OPT_KEY_NONOPT : Z := -2.
Definition EXIT_FAILURE : Z := 1.

Record e4f := E4f { e_disk : option (list byte); e_logfile : option (list byte) }.

Definition opt_proc : Type := e4f -> list byte -> Z -> outcome (Z * e4f).

Definition e4f_opt_proc : opt_proc := fun e arg key =>
  if key =? FUSE_OPT_KEY_OPT then mret (1, e)
  else if key =? FUSE_OPT_KEY_NONOPT then
    match e_disk e with
    | None => path ← strdup arg; mret (0, E4f (Some path) (e_logfile e))
    | Some _ => mret (1, e)
    end
  else AssertFail.

Section Main.
Context (fuse_opt_parse : opt_proc -> e4f -> list (list byte) -> outcome (Z * e4f * list (list byte))).
Context (fuse_main : disk -> list (list byte) -> Z).
Context (open_dev : list byte -> disk * Z * Z).

(** The exit code, and the device and arguments handed to [fuse_main], if
    any.  [sig_ok]: installing the signal handler; [log_opened]: opening the
    log file. *)
Definition main (argv : list (list byte)) (sig_ok log_opened : bool) : outcome (Z * option (disk * list (list byte))) :=
  if negb sig_ok then mret (EXIT_FAILURE, None)
  else
    '(r, e, args) ← fuse_opt_parse e4f_opt_proc (E4f None DEFAULT_LOG_FILE) argv;
    if r =? -1 then mret (EXIT_FAILURE, None)
    else
      match e_disk e with
      | None => mret (1, None)
      | Some path =>
          let '(r, _) := logging_open logging_start (e_logfile e) log_opened in
          if r <? 0 then mret (EXIT_FAILURE, None)
          else
            let '(dev, fd, errno) := open_dev path in
            let '(dev, r) := disk_open dev fd errno in
            if r <? 0 then mret (EXIT_FAILURE, None)
            else
              off ← from_option_undef (offsetof ext4_super_block "s_magic");
              '(n, bs) ← __disk_read dev (BOOT_SECTOR_SIZE + off) 2;
              if n <? 0 then mret (EXIT_FAILURE, None)
              else if negb (le_decode bs =? 0xEF53) then mret (EXIT_FAILURE, None)
              else mret (fuse_main dev args, Some (dev, args))
      end.

(** What [libfuse] documents of [fuse_opt_parse]: the name of the program is
    kept, arguments that do not start with a dash are given to the callback
    one after the other, and are kept when it answers 1, dropped when it
    answers 0. *)
Fixpoint nonoptions (proc : opt_proc) (e : e4f) (args kept : list (list byte)) : outcome (Z * e4f * list (list byte)) :=
  match args with
  | [] => mret (0, e, kept)
  | a :: args =>
      '(r, e) ← proc e a FUSE_OPT_KEY_NONOPT;
      if r =? -1 then mret (-1, e, kept)
      else nonoptions proc e args (if r =? 1 then kept ++ [a] else kept)
  end.

Definition nonoption (a : list byte) : Prop := exists x s, a = cstring (x :: s) /\ x <> x2d /\ text (x :: s).

Definition parses_nonoptions : Prop := forall proc e prog args,
  Forall nonoption args -> fuse_opt_parse proc e (prog :: args) = nonoptions proc e args [prog].

Lemma magic_offset : offsetof ext4_super_block "s_magic" = Some 0x38.
Proof. reflexivity. Qed.

Lemma nonoptions_rest e path args kept :
  e_disk e = Some path -> nonoptions e4f_opt_proc e args kept = Ret (0, e, kept ++ args).
Proof.
  intros H. revert kept. induction args as [|a args IH]; intros kept; cbn [nonoptions]; [by rewrite app_nil_r|].
  assert (e4f_opt_proc e a FUSE_OPT_KEY_NONOPT = Ret (1, e)) as -> by (cbn; by rewrite H).
  cbn. by rewrite IH, <- app_assoc.
Qed.

(** A read past the end of the device fails the assertion on its length. *)
Lemma short_read d where_ size :
  0 <= disk_fd d -> 0 <= where_ < 2 ^ 63 -> 0 < size <= MAX_RW_COUNT -> 0 <= dev_size d < where_ + size ->
  __disk_read d where_ size = AssertFail.
Proof.
  intros Hfd Hw Hs Hd. destruct (__disk_read d where_ size) as [r| | |] eqn:E; [|done|exfalso..].
  { apply disk_read_Ret in E as (_ & _ & _ & H); [specialize (H ltac:(lia)); lia|unfold fits; lia|unfold fits, MAX_RW_COUNT in *; lia]. }
  all: revert E; unfold __disk_read, pread_wrapper; destruct (pread _ _ _) as [n bs]; rewrite (proj2 (Z.leb_le _ _)) by done;
    cbn [c_assert mbind outcome_bind]; by destruct (u64 (s32 n) =? u64 size).
Qed.

(** C21: [main] for arguments that are not options, the first of which names a
    device.  It serves that device, with the device dropped from the arguments,
    exactly when the handler of segmentation faults can be installed, the device
    can be opened, and bytes 1080 and 1081 of it are the magic number [0xEF53].
    When the device is too short to have these bytes the process aborts at the
    assertion of [__disk_read], so that the test of its result in [main] is
    never true; in every other case, and without any argument, the exit code
    is 1 and nothing is mounted. *)
Theorem main_mounts prog path args sig_ok log_opened dev fd errno :
  parses_nonoptions -> text path -> nonoption (cstring path) -> Forall nonoption args ->
  open_dev path = (dev, fd, errno) -> (fd < 0 -> 0 < errno) -> 0 <= dev_size dev < 2 ^ 63 ->
  main [prog] sig_ok log_opened = Ret (1, None) /\
  main (prog :: cstring path :: args) sig_ok log_opened
  = if negb (sig_ok && (0 <=? fd)) then Ret (1, None)
    else if dev_size dev <? 1082 then AssertFail
    else if bool_decide (dev_bytes dev 1080 2 = [x53; xef])
    then let served := Disk fd (dev_size dev) (dev_byte dev) in Ret (fuse_main served (prog :: args), Some (served, prog :: args))
    else Ret (1, None).
Proof.
  intros Hparse Ht Hp Hargs Hdev Herr Hsz. split; unfold main; (destruct sig_ok; cbn [negb andb]; [|done]).
  { by rewrite Hparse by constructor. }
  rewrite Hparse by (by constructor). cbn [nonoptions].
  assert (e4f_opt_proc (E4f None DEFAULT_LOG_FILE) (cstring path) FUSE_OPT_KEY_NONOPT
    = Ret (0, E4f (Some path) DEFAULT_LOG_FILE)) as -> by (cbn; unfold cstring; by rewrite strdup_text).
  cbn [mbind outcome_bind]. change (0 =? -1) with false. change (0 =? 1) with false. cbv iota.
  rewrite (nonoptions_rest _ path) by done. cbn [mbind outcome_bind e_disk e_logfile DEFAULT_LOG_FILE logging_open].
  change (0 =? -1) with false. change (0 <? 0) with false. cbv iota. rewrite Hdev, magic_offset. unfold disk_open.
  destruct (Z.ltb_spec fd 0) as [Hneg|Hpos]; destruct (Z.leb_spec 0 fd); try lia; cbv iota.
  { assert (- errno <? 0 = true) as -> by (apply Z.ltb_lt; lia). done. }
  change (0 <? 0) with false. cbn [from_option_undef mbind outcome_bind andb]. cbv iota.
  unfold BOOT_SECTOR_SIZE. change (1024 + 56) with 1080.
  destruct (Z.ltb_spec (dev_size dev) 1082); [by rewrite short_read by (cbn; unfold MAX_RW_COUNT; lia)|].
  rewrite disk_read_in by (cbn; unfold MAX_RW_COUNT; lia). cbn.
  change (dev_bytes (Disk fd (dev_size dev) (dev_byte dev)) 1080 2) with (dev_bytes dev 1080 2).
  assert (le_decode (dev_bytes dev 1080 2) =? 0xEF53 = bool_decide (dev_bytes dev 1080 2 = [x53; xef])) as ->;
    [|by destruct (bool_decide _)].
  pose proof (length_dev_bytes dev 1080 2) as Hl. pose proof (le_encode_decode (dev_bytes dev 1080 2)) as He.
  rewrite Hl in He. apply eq_bool_prop_intro. rewrite bool_decide_spec. rewrite Is_true_true, Z.eqb_eq. split; intros H1.
  - rewrite <- He, H1. reflexivity.
  - by rewrite H1.
Qed.
End Main.

(** A parser that knows no option at all satisfies the documentation. *)
Definition plain_parse (proc : opt_proc) (e : e4f) (argv : list (list byte)) : outcome (Z * e4f * list (list byte)) :=
  match argv with
  | [] => mret (0, e, [])
  | prog :: args => nonoptions proc e args [prog]
  end.

Lemma main_mounts_witness :
  main plain_parse (fun _ _ => 0) (fun _ => (sample_image, 3, 0)) [cstring (lit "ext4fuse"); cstring (lit "disk"); cstring (lit "/mnt")]
    true true
  = Ret (0, Some (sample_image, [cstring (lit "ext4fuse"); cstring (lit "/mnt")])).
Proof.
  etransitivity; [refine (proj2 (main_mounts plain_parse (fun _ _ => 0) (fun _ => (sample_image, 3, 0)) (cstring (lit "ext4fuse"))
    (lit "disk") [cstring (lit "/mnt")] true true sample_image 3 0 _ _ _ _ _ _ _))|].
  - intros proc e prog args _. reflexivity.
  - vm_decide.
  - exists x64, (lit "isk"). split; [reflexivity|]. split; [discriminate|vm_decide].
  - constructor; [|constructor]. exists x2f, (lit "mnt"). split; [reflexivity|]. split; [discriminate|vm_decide].
  - reflexivity.
  - lia.
  - cbn. lia.
  - reflexivity.
Defined.
