(* ===== verification/Session.v ===== *)
(** * A mounted file system serving requests

    The operations of [Ops] and [Read] as the callbacks libfuse dispatches to
    ([e4f_ops] of [src/fuse/fuse-main.c]), run one after the other from
    [op_init] on, against an abstract file system: directories as lists,
    attributes and contents of inodes.  The abstract file system has no
    state; the program's dentry cache must never show. *)

From Stdlib Require Import Strings.Byte.
From S2P Require Import Prelude Bytes CString Layout Disk Image Super Extents Inode Read Dcache Path Ops.

Section Session.
Context {A : Type} (filler : A -> list byte -> Z -> A * Z) (empty : A).

Inductive request :=
  | Getattr (p : list byte)
  | Open (p : list byte) (flags : Z)
  | ReadFile (fh size offset : Z)
  | Readlink (p buf : list byte)
  | Readdir (p : list byte) (offset : Z).

Inductive reply :=
  | Attr (r : Z) (st : stat)
  | Handle (r : Z) (fh : option Z)
  | Data (r : Z) (bs : list byte)
  | Target (r : Z) (t : list byte)
  | Listing (r : Z) (acc : A).

(** What the stack holds where a call leaves its local inodes and its name
    buffer uninitialised. *)
Record locals := Locals { l_lookup : list byte; l_inode : list byte; l_name : list byte }.

Definition locals_ok (l : locals) : Prop :=
  length (l_lookup l) = 156%nat /\ length (l_inode l) = 156%nat /\ length (l_name l) = 255%nat.

(** ** The program *)

(** [e4f_ops]: one request.  The buffer of [Readlink] is libfuse's, and the
    reply is the string in it. *)
Definition serve (rounds width fuel : nat) (f : fs) (l : locals) (d : dcache) (q : request) : outcome (reply * dcache) :=
  match q with
  | Getattr p =>
      '(r, st, d) ← op_getattr rounds width fuel f (l_lookup l) (l_inode l) d (cstring p); mret (Attr r st, d)
  | Open p flags =>
      '(r, fh, d) ← op_open rounds width fuel f (l_lookup l) d (cstring p) flags; mret (Handle r fh, d)
  | ReadFile fh size offset =>
      '(r, bs) ← op_read fuel f (l_inode l) fh size offset; mret (Data r bs, d)
  | Readlink p buf =>
      '(r, buf, d) ← op_readlink rounds width fuel f (l_lookup l) (l_inode l) d (cstring p) buf (Z.of_nat (length buf));
      mret (Target r (if r =? 0 then until_nul buf else []), d)
  | Readdir p offset =>
      '(r, acc, d) ← op_readdir filler rounds width fuel f (l_lookup l) (l_inode l) (l_name l) d (cstring p) offset empty;
      mret (Listing r acc, d)
  end.

Fixpoint serve_all (rounds width fuel : nat) (f : fs) (d : dcache) (qs : list (locals * request))
    : outcome (list reply * dcache) :=
  match qs with
  | [] => mret ([], d)
  | (l, q) :: qs =>
      '(r, d) ← serve rounds width fuel f l d q;
      '(rs, d) ← serve_all rounds width fuel f d qs;
      mret (r :: rs, d)
  end.

(** ** The abstract file system *)

Record contents := Contents {
  c_dirs : Z -> option (list dentry);
  c_stat : Z -> option stat;
  c_data : Z -> option (Z * (Z -> Z));
  c_link : Z -> option (list byte) }.

(** The entries after the one that ends at [off]. *)
Fixpoint after (off : Z) (es : list dentry) : option (list dentry) :=
  match es with
  | [] => None
  | e :: es => if de_next e =? off then Some es else after off es
  end.

Definition entries_from (off : Z) (es : list dentry) : option (list dentry) :=
  if off =? 0 then Some es else after off es.

(** The reply to a request, [None] where nothing is promised. *)
Definition answer (f : fs) (C : contents) (q : request) : option reply :=
  match q with
  | Getattr p =>
      k ← resolve (c_dirs C) ROOT_INODE_N (tokens p);
      if k =? 0 then Some (Attr (- ENOENT) zero_stat) else Attr 0 <$> c_stat C k
  | Open p flags =>
      if negb (Z.land flags 3 =? 0) then Some (Handle (- EACCES) None)
      else k ← resolve (c_dirs C) ROOT_INODE_N (tokens p); Some (Handle 0 (Some k))
  | ReadFile fh size offset =>
      if fh =? 0 then Some (Data (- ENOENT) [])
      else '(sz, bm) ← c_data C fh;
           let n := clip sz size offset in Some (Data n (file_bytes f bm offset n))
  | Readlink p buf =>
      k ← resolve (c_dirs C) ROOT_INODE_N (tokens p);
      if k =? 0 then None
      else
        st ← c_stat C k;
        if negb (S_ISLNK (st_mode st)) then Some (Target (- EINVAL) []) else Target 0 <$> c_link C k
  | Readdir p offset =>
      k ← resolve (c_dirs C) ROOT_INODE_N (tokens p);
      if k =? 0 then Some (Listing (- ENOENT) empty)
      else es ← c_dirs C k; es ← entries_from offset es; Some (Listing 0 (emit filler es empty))
  end.

(** The image holds these contents. *)
Class Holds (fuel width : nat) (f : fs) (C : contents) : Prop := {
  holds_tree :: DirTree fuel f (c_dirs C) width;
  holds_stat k st old : c_stat C k = Some st -> length old = 156%nat ->
    exists i, inode_get_by_number f k old = Ret (0, i) /\ stat_of i = st;
  holds_data k sz bm old : c_data C k = Some (sz, bm) -> length old = 156%nat ->
    fits 32 k /\ exists i nb, inode_get_by_number f k old = Ret (0, i) /\ inode_get_size i = sz /\
      BlockMap fuel f i bm nb /\ sz <= nb * BLOCK_SIZE f;
  holds_link k t i old : c_link C k = Some t -> inode_get_by_number f k old = Ret (0, i) -> length old = 156%nat ->
    link_target fuel f i t /\ length (i_block i) = 60%nat }.

(** The requests the replies are promised for: paths of components the cache
    can hold; reads that do not start inside a hole, and below 4 GiB when
    they start inside a block and leave it; listings of names of at most 254
    bytes; links with room for the target and its terminator. *)
Definition request_ok (rounds : nat) (f : fs) (C : contents) (q : request) : Prop :=
  match q with
  | Getattr p | Open p _ => path_ok p /\ (length p < rounds)%nat
  | ReadFile fh size offset =>
      0 <= offset < 2 ^ 63 /\ 0 <= size <= MAX_RW_COUNT /\
      forall sz bm, c_data C fh = Some (sz, bm) ->
        let start := offset mod BLOCK_SIZE f in
        (start = 0 \/ bm (offset / BLOCK_SIZE f) <> 0) /\
        (start = 0 \/ start + clip sz size offset <= BLOCK_SIZE f \/ offset < 2 ^ 32)
  | Readlink p buf =>
      path_ok p /\ (length p < rounds)%nat /\ Z.of_nat (length buf) < 2 ^ 31 /\
      forall k t, resolve (c_dirs C) ROOT_INODE_N (tokens p) = Some k -> c_link C k = Some t -> (length t < length buf)%nat
  | Readdir p offset =>
      path_ok p /\ (length p < rounds)%nat /\
      forall k es, resolve (c_dirs C) ROOT_INODE_N (tokens p) = Some k -> c_dirs C k = Some es ->
        Forall (fun e => (length (de_name e) <= 254)%nat) es
  end.

Lemma after_split off es es2 :
  after off es = Some es2 -> exists es1 e, es = (es1 ++ [e]) ++ es2 /\ de_next e = off.
Proof.
  induction es as [|e es IH]; [done|]. cbn [after]. destruct (Z.eqb_spec (de_next e) off) as [E|E].
  - intros [= <-]. exists [], e. done.
  - intros (es1 & e1 & -> & H)%IH. exists (e :: es1), e1. done.
Qed.

Lemma entries_from_split off es es2 :
  entries_from off es = Some es2 -> exists es1, es = es1 ++ es2 /\ resume es1 = off.
Proof.
  unfold entries_from. destruct (Z.eqb_spec off 0) as [->|_].
  - intros [= <-]. exists []. done.
  - intros (es1 & e & -> & H)%after_split. exists (es1 ++ [e]). split; [done|]. unfold resume. by rewrite last_snoc.
Qed.

(** ** One request *)

Section Request.
Context (rounds width fuel : nat) (f : fs) (C : contents) {H : Holds fuel width f C}.
Hypothesis G : geometry f.

Lemma serve_getattr l d kids p r :
  cache_ok (c_dirs C) d kids -> locals_ok l -> request_ok rounds f C (Getattr p) -> answer f C (Getattr p) = Some r ->
  exists d' kids', serve rounds width fuel f l d (Getattr p) = Ret (r, d') /\ cache_ok (c_dirs C) d' kids'.
Proof.
  intros Hc (Hl1 & Hl2 & _) (Hp & Hr) Ha. cbn in Ha. apply bind_Some in Ha as (k & Hk & Ha).
  destruct (by_path fuel f (c_dirs C) width rounds d kids p (l_lookup l) k G Hc Hp Hk Hl1 Hr (l_inode l))
    as (d' & kids' & Hc' & Hpath).
  exists d', kids'. split; [|done]. cbn [serve]. unfold op_getattr. rewrite Hpath.
  destruct (Z.eqb_spec k 0) as [->|Hk0].
  - injection Ha as <-. done.
  - apply fmap_Some in Ha as (st & Hst & ->). destruct (holds_stat k st (l_inode l) Hst Hl2) as (i & -> & <-). done.
Qed.

Lemma serve_open l d kids p flags r :
  cache_ok (c_dirs C) d kids -> locals_ok l -> request_ok rounds f C (Open p flags) -> answer f C (Open p flags) = Some r ->
  exists d' kids', serve rounds width fuel f l d (Open p flags) = Ret (r, d') /\ cache_ok (c_dirs C) d' kids'.
Proof.
  intros Hc (Hl1 & _) (Hp & Hr) Ha. cbn [answer] in Ha. cbn [serve]. unfold op_open.
  destruct (negb (Z.land flags 3 =? 0)).
  - injection Ha as <-. exists d, kids. done.
  - apply bind_Some in Ha as (k & Hk & [= <-]).
    destruct (idx_by_path_spec fuel f (c_dirs C) width G rounds d kids p (l_lookup l) k) as (d' & kids' & -> & Hc'); [done..|].
    exists d', kids'. done.
Qed.

Lemma serve_read l d fh size offset r :
  locals_ok l -> request_ok rounds f C (ReadFile fh size offset) -> answer f C (ReadFile fh size offset) = Some r ->
  serve rounds width fuel f l d (ReadFile fh size offset) = Ret (r, d).
Proof.
  intros (_ & Hl2 & _) (Ho & Hs & Hhole) Ha. cbn [answer] in Ha. cbn [serve].
  destruct (Z.eqb_spec fh 0) as [->|Hfh].
  - injection Ha as <-. unfold op_read. by rewrite (proj2 (Z.leb_le _ _)) by lia.
  - apply bind_Some in Ha as ([sz bm] & Hd & [= <-]). destruct (Hhole sz bm Hd) as [H1 H2].
    destruct (holds_data fh sz bm (l_inode l) Hd Hl2) as (Hf & i & nb & Hi & <- & BM & Hnb).
    destruct (read_bytes_file f bm offset (clip (inode_get_size i) size offset) H1) as [Hs0 Hb].
    rewrite (op_read_bytes fuel f (l_inode l) fh i bm nb size offset), Hb by (done || by rewrite Hs0). done.
Qed.

(** Clearing the write permissions leaves the kind of file. *)
Lemma link_mode i : S_ISLNK (st_mode (stat_of i)) = S_ISLNK (i_mode i).
Proof. unfold S_ISLNK, stat_of. cbn [st_mode]. by rewrite <- Z.land_assoc. Qed.

Lemma serve_readlink l d kids p buf r :
  cache_ok (c_dirs C) d kids -> locals_ok l -> request_ok rounds f C (Readlink p buf) ->
  answer f C (Readlink p buf) = Some r ->
  exists d' kids', serve rounds width fuel f l d (Readlink p buf) = Ret (r, d') /\ cache_ok (c_dirs C) d' kids'.
Proof.
  intros Hc (Hl1 & Hl2 & _) (Hp & Hr & Hb & Hlen) Ha. cbn [answer] in Ha. apply bind_Some in Ha as (k & Hk & Ha).
  destruct (by_path fuel f (c_dirs C) width rounds d kids p (l_lookup l) k G Hc Hp Hk Hl1 Hr (l_inode l))
    as (d' & kids' & Hc' & Hpath).
  exists d', kids'. split; [|done]. cbn [serve]. unfold op_readlink. rewrite Hpath.
  destruct (k =? 0); [done|]. apply bind_Some in Ha as (st & Hst & Ha).
  destruct (holds_stat k st (l_inode l) Hst Hl2) as (i & Hi & <-). rewrite Hi. cbn [mbind outcome_bind].
  rewrite link_mode in Ha. destruct (negb (S_ISLNK (i_mode i))); [by injection Ha as <-|].
  apply fmap_Some in Ha as (t & Ht & ->). destruct (holds_link k t i (l_inode l) Ht Hi Hl2) as [Hlt Hib].
  destruct (link_dest_ok fuel f i t buf Hlt Hib (Hlen k t Hk Ht) Hb) as (buf' & -> & <- & _). done.
Qed.

Lemma serve_readdir l d kids p offset r :
  cache_ok (c_dirs C) d kids -> locals_ok l -> request_ok rounds f C (Readdir p offset) ->
  answer f C (Readdir p offset) = Some r ->
  exists d' kids', serve rounds width fuel f l d (Readdir p offset) = Ret (r, d') /\ cache_ok (c_dirs C) d' kids'.
Proof.
  intros Hc (Hl1 & Hl2 & Hl3) (Hp & Hr & Hn) Ha. cbn [answer] in Ha. apply bind_Some in Ha as (k & Hk & Ha). cbn [serve].
  destruct (Z.eqb_spec k 0) as [->|Hk0].
  - injection Ha as <-.
    destruct (by_path fuel f (c_dirs C) width rounds d kids p (l_lookup l) 0 G Hc Hp Hk Hl1 Hr (l_inode l))
      as (d' & kids' & Hc' & Hpath).
    exists d', kids'. split; [|done]. unfold op_readdir. by rewrite Hpath.
  - apply bind_Some in Ha as (es & Hes & Ha). apply bind_Some in Ha as (es2 & H2 & [= <-]).
    apply entries_from_split in H2 as (es1 & -> & <-). specialize (Hn k _ Hk Hes). apply Forall_app in Hn as [_ Hn].
    destruct (readdir_ok filler fuel f (c_dirs C) width rounds d kids p (l_lookup l) (l_inode l) (l_name l) k es1 es2 empty)
      as (d' & kids' & Hc' & ->); try done; [apply holds_tree|].
    exists d', kids'. done.
Qed.

Lemma serve_answer l d kids q r :
  cache_ok (c_dirs C) d kids -> locals_ok l -> request_ok rounds f C q -> answer f C q = Some r ->
  exists d' kids', serve rounds width fuel f l d q = Ret (r, d') /\ cache_ok (c_dirs C) d' kids'.
Proof.
  intros Hc. destruct q; intros Hl Hq Ha.
  - by eapply serve_getattr.
  - by eapply serve_open.
  - exists d, kids. split; [by apply serve_read|done].
  - by eapply serve_readlink.
  - by eapply serve_readdir.
Qed.

Lemma serve_all_answers d kids qs rs :
  cache_ok (c_dirs C) d kids -> Forall (fun '(l, q) => locals_ok l /\ request_ok rounds f C q) qs ->
  Forall2 (fun '(_, q) r => answer f C q = Some r) qs rs ->
  exists d', serve_all rounds width fuel f d qs = Ret (rs, d').
Proof.
  intros Hc Hq Ha. revert d kids Hc Hq. induction Ha as [|[l q] r qs rs Hr _ IH]; intros d kids Hc Hq; [by exists d|].
  apply Forall_cons in Hq as [[Hl Hq] Hqs].
  destruct (serve_answer l d kids q r Hc Hl Hq Hr) as (d1 & kids1 & H1 & Hc1).
  destruct (IH d1 kids1 Hc1 Hqs) as (d2 & H2). exists d2. cbn [serve_all]. rewrite H1. cbn [mbind outcome_bind].
  by rewrite H2.
Qed.
End Request.
End Session.

(** ** Mounting *)

(** The super block of a device and the descriptors of its [n] groups. *)
Definition super_of (dev : disk) : fs := Fs dev (dev_bytes dev 1024 1024) [].

Definition loaded (dev : disk) (n : Z) : fs :=
  let f := super_of dev in
  Fs dev (fs_super f)
    ((fun j => dev_bytes dev (group_table_offset f + (0 + Z.of_nat j) * super_group_desc_size f) (super_group_desc_size f))
       <$> seq 0 (Z.to_nat n)).

(** The device holds a super block and the whole table of its [n] groups. *)
Record mountable (dev : disk) (n : Z) : Prop := {
  mt_geometry : geometry (super_of dev);
  mt_super : 2048 <= dev_size dev;
  mt_groups : super_n_block_groups (super_of dev) = Ret n;
  mt_table : n * super_group_desc_size (super_of dev) < 2 ^ 32;
  mt_fits : group_table_offset (super_of dev) + n * super_group_desc_size (super_of dev) <= dev_size dev }.

Lemma loaded_geometry dev n : geometry (super_of dev) -> geometry (loaded dev n).
Proof. intros [H1 H2 H3 H4 H5]. by split. Qed.

Lemma op_init_loads dev n dirs :
  mountable dev n ->
  exists d kids, op_init (Fs dev [] []) dcache_start = Ret (loaded dev n, d) /\ cache_ok dirs d kids.
Proof.
  intros [G Hs Hn Ht Hfit]. destruct (fresh_cache_ok dirs) as (d & kids & Hd & Hc). exists d, kids. split; [|done].
  unfold op_init, super_fill. cbn [fs_disk fs_gdesc].
  change (sizeof ext4_super_block) with 1024. unfold BOOT_SECTOR_SIZE, disk_read.
  pose proof (geo_fd _ G) as Hfd. pose proof (geo_dev _ G) as Hdev. cbn in Hfd, Hdev.
  rewrite disk_read_in by (unfold MAX_RW_COUNT; lia). cbn [fmap outcome_fmap mbind outcome_bind snd].
  fold (super_of dev). assert (block_size_shift (super_of dev) <? 64 = true) as ->.
  { apply Z.ltb_lt. unfold block_size_shift, wadd. pose proof (geo_shift _ G). pose proof (s_log_fits (super_of dev)) as [? _].
    rewrite u32_small; lia. }
  cbn [c_defined mbind outcome_bind]. rewrite Hn. cbn [mbind outcome_bind mret outcome_ret]. rewrite Z.eqb_refl.
  cbn [c_assert mbind outcome_bind]. destruct (n_block_groups_Ret _ G) as (n' & Hn' & Hpos).
  assert (n' = n) as -> by congruence. unfold super_group_fill. rewrite Hn. cbn [mbind outcome_bind].
  rewrite group_fill_loop_spec by (rewrite ?Z2Nat.id by lia; done || lia).
  cbn [mbind outcome_bind mret outcome_ret]. rewrite Z.eqb_refl. cbn [c_assert mbind outcome_bind].
  unfold inode_init. rewrite Hd. cbn. done.
Qed.

(** C1: the mounted program is the file system on the device.  [op_init] succeeds
    on a device that holds its super block and group descriptors; after it, any
    sequence of attribute, open, read, link and directory requests within the
    limits below, whatever the stack holds when each of them starts, is answered
    exactly as the abstract file system answers them one by one -- in particular
    no answer depends on what earlier requests have left in the dentry cache --
    and no request stops the program.

    The limits are those of the code, which [Holds], [answer] and
    [request_ok] spell out; outside of them it answers otherwise or aborts, as
    the theorems named show, and nothing is stated here: the components of a
    path but the last have less than 40 bytes ([long_name_pollutes_root]), all
    of them at most 255 ([token_len_u8]); a read asks for at most [MAX_RW_COUNT]
    bytes (just below 2 GiB), starts on a block boundary or
    in a block that is no hole ([first_read_hole]), does not leave the block it
    starts inside of at 4 GiB or above ([align_to_rounds_up]), and is of a file
    whose map [BlockMap] describes, which excludes extents with holes before
    them ([extent_lookup_hole]) and takes a missing index block for block 0
    ([indirect_hole]); a link exists ([readlink_ignores_missing]), has
    its text where [link_target] says and fits its buffer; a path leads through
    directories only, which are chains of records of less than 4 GiB (for others
    see [lookup_any_root] and [readdir_any_root]); and a listed directory has no name of 255 bytes
    ([printable_name_bounds]) and is listed from the start or an offset a listing
    has handed out. *)
Theorem mounted_session {A : Type} (filler : A -> list byte -> Z -> A * Z) empty dev n fuel width rounds C qs rs :
  mountable dev n -> Holds fuel width (loaded dev n) C ->
  Forall (fun '(l, q) => locals_ok l /\ request_ok rounds (loaded dev n) C q) qs ->
  Forall2 (fun '(_, q) r => answer filler empty (loaded dev n) C q = Some r) qs rs ->
  exists d d', op_init (Fs dev [] []) dcache_start = Ret (loaded dev n, d) /\
    serve_all filler empty rounds width fuel (loaded dev n) d qs = Ret (rs, d').
Proof.
  intros M HC Hq Ha. destruct (op_init_loads dev n (c_dirs C) M) as (d & kids & Hi & Hc).
  destruct (serve_all_answers filler empty rounds width fuel (loaded dev n) C
    (loaded_geometry dev n (mt_geometry _ _ M)) d kids qs rs Hc Hq Ha) as (d' & Hd').
  exists d, d'. done.
Qed.

(** ** Witness: the sample image *)

Lemma sample_loaded : loaded sample_image 1 = sample_fs.
Proof.
  unfold loaded. assert (group_table_offset (super_of sample_image) = 2048) as -> by (vm_compute; reflexivity).
  assert (super_group_desc_size (super_of sample_image) = 32) as -> by (vm_compute; reflexivity). reflexivity.
Qed.

Lemma sample_mountable : mountable sample_image 1.
Proof.
  split.
  - split; vm_compute; intuition discriminate.
  - vm_decide.
  - vm_compute. reflexivity.
  - vm_compute. reflexivity.
  - vm_decide.
Qed.

(** Attributes and contents of [/hello], and the link [/link] to it. *)
Definition sample_contents : contents := Contents sample_dirs
  (fun k => if (k =? 13) || (k =? 15) then Some (stat_of (sample_inode k)) else None)
  (fun k => if k =? 13 then Some (2500, hello_blocks) else None)
  (fun k => if k =? 15 then Some (bytes_of_string "hello") else None).

Lemma stat_prefix a b : length a = 128%nat -> stat_of (a ++ b) = stat_of a.
Proof.
  intros Hl. unfold stat_of. destruct (inode_prefix a b Hl) as (-> & _ & -> & _).
  rewrite (field_prefix _ "i_links_count" a b 26 2), (field_prefix _ "i_blocks_lo" a b 28 4), (field_prefix _ "i_uid" a b 2 2),
    (field_prefix _ "i_gid" a b 24 2), (field_prefix _ "i_atime" a b 8 4), (field_prefix _ "i_mtime" a b 16 4),
    (field_prefix _ "i_ctime" a b 12 4) by (reflexivity || lia).
  reflexivity.
Qed.

Definition disk_inode (k : Z) : list byte := dev_bytes sample_image (5 * 1024 + (k - 1) * 128) 128.

Lemma length_disk_inode k : length (disk_inode k) = 128%nat.
Proof. apply length_dev_bytes. Qed.

Lemma sample_read k old :
  k = 13 \/ k = 15 -> length old = 156%nat -> inode_get_by_number sample_fs k old = Ret (0, disk_inode k ++ drop 128 old).
Proof. by intros [-> | ->] _; vm_compute. Qed.

Lemma sample_holds : Holds 1 8 sample_fs sample_contents.
Proof.
  split.
  - exact sample_tree_ok.
  - intros k st old H Hold. cbn in H. destruct ((k =? 13) || (k =? 15)) eqn:Ek; [|done]. injection H as <-.
    rewrite orb_true_iff, !Z.eqb_eq in Ek. exists (disk_inode k ++ drop 128 old). split; [by apply sample_read|].
    change (sample_inode k) with (disk_inode k ++ repeat x00 28). by rewrite !stat_prefix by apply length_disk_inode.
  - intros k sz bm old H Hold. cbn in H. destruct (Z.eqb_spec k 13) as [->|]; [|done]. injection H as <- <-.
    split; [by vm_compute|]. exists (disk_inode 13 ++ drop 128 old), 3. split; [apply sample_read; [by left|done]|].
    destruct (inode_prefix (disk_inode 13) (drop 128 old) (length_disk_inode 13)) as (_ & Ef & Es & Eb).
    destruct (inode_prefix (disk_inode 13) (repeat x00 28) (length_disk_inode 13)) as (_ & Ef' & Es' & Eb').
    change (disk_inode 13 ++ repeat x00 28) with (sample_inode 13) in *.
    split; [rewrite Es, <- Es'; vm_compute; reflexivity|]. split; [|vm_decide].
    destruct hello_map as [H1 H2 H3]. split; [|done|done]. intros l Hlb. destruct (H1 l Hlb) as (m & Hm & Hrest).
    exists m. split; [|exact Hrest]. rewrite <- Hm. unfold inode_get_data_pblock, i_block_at. by rewrite Ef, Es, Eb, Ef', Es', Eb'.
  - intros k t i old H Hi Hold. cbn in H. destruct (Z.eqb_spec k 15) as [->|]; [|done]. injection H as <-.
    rewrite sample_read in Hi by (auto || done).
    assert (i = disk_inode 15 ++ drop 128 old) as -> by congruence. clear Hi.
    destruct (inode_prefix (disk_inode 15) (drop 128 old) (length_disk_inode 15)) as (_ & _ & Es & Eb).
    unfold link_target. rewrite Es, Eb. split; [|vm_compute; reflexivity].
    split; [vm_decide|]. split; vm_compute; reflexivity.
Qed.

Definition hello_path : list byte := bytes_of_string "/hello".
Definition stack : locals := Locals (repeat x01 156) (repeat x02 156) (repeat x03 255).

Definition sample_requests : list (locals * request) :=
  [(stack, Getattr hello_path); (stack, Open hello_path 0); (stack, ReadFile 13 3000 500);
   (stack, Readlink (bytes_of_string "/link") (repeat x04 8)); (stack, Readlink hello_path (repeat x04 8));
   (stack, Open hello_path 1); (stack, Getattr (bytes_of_string "/missing"))].

Definition sample_replies : list (reply (A := list (list byte * Z))) :=
  [Attr 0 (stat_of (sample_inode 13)); Handle 0 (Some 13); Data 2000 (file_bytes sample_fs hello_blocks 500 2000);
   Target 0 (bytes_of_string "hello"); Target (- EINVAL) [];
   Handle (- EACCES) None; Attr (- ENOENT) zero_stat].

Lemma mounted_session_witness :
  exists d d', op_init (Fs sample_image [] []) dcache_start = Ret (sample_fs, d) /\
    serve_all collect [] 10 8 1 sample_fs d sample_requests = Ret (sample_replies, d').
Proof.
  rewrite <- sample_loaded.
  refine (mounted_session collect [] sample_image 1 1 8 10 sample_contents sample_requests sample_replies sample_mountable _ _ _);
    rewrite sample_loaded.
  - exact sample_holds.
  - assert (locals_ok stack) as Hl by (repeat split).
    assert (path_ok hello_path) by vm_decide. assert (path_ok (bytes_of_string "/missing")) by vm_decide.
    repeat (apply Forall_cons; split); [..|constructor]; (split; [exact Hl|]); cbn [request_ok].
    1, 2, 6, 7: split; [assumption|vm_compute; lia].
    2, 3: split; [first [assumption | vm_decide]|]; split; [vm_compute; lia|]; split; [vm_compute; reflexivity|];
      intros k t _ Hk; cbn in Hk; destruct (k =? 15); [|discriminate]; injection Hk as <-; vm_compute; lia.
    split; [vm_compute; intuition discriminate|]. split; [vm_compute; intuition discriminate|].
    intros sz bm Hd. injection Hd as <- <-. vm_compute. intuition discriminate.
  - repeat (apply Forall2_cons; split); [..|constructor]; vm_compute; reflexivity.
Defined.
