(* ===== verification/DcacheThreads.v ===== *)
(** * The dentry cache under several threads ([src/fuse/dcache.c])

    libfuse answers requests on several threads, and the cache has no lock.
    Here [dcache_insert] and [dcache_lookup] are programs of one memory access
    a step, in the order of the source, and the steps of the threads
    interleave in any way (the accesses are atomic and seen in one order by
    all threads; C promises less).  Filling in the entry just allocated, which
    no other thread can see, is part of the step that allocates it. *)

From Stdlib Require Import Strings.Byte.
From stdpp Require Import relations functions.
From S2P Require Import Prelude Bytes CString Layout Dcache.

(** ** Programs *)

Inductive request :=
  | Insert (parent : option nat) (nm : list byte) (namelen n : Z)
  | Lookup (parent : option nat) (nm : list byte) (namelen : Z).

Definition parent_of (r : request) : nat :=
  match r with Insert parent _ _ _ | Lookup parent _ _ => default root parent end.

(** The places of a thread between two accesses, with its local variables. *)
Inductive pc :=
  | Start
  | InsTest (new : nat)
  | InsSelf (new : nat)
  | InsHead (new : nat)
  | InsSib (new c : nat)
  | InsLink (new : nat) (s : option nat)
  | InsAgain (new : nat)
  | InsNext (new c : nat)
  | InsPublish (new : nat)
  | LkHead
  | LkMatch (iter : nat)
  | LkHit (iter : nat)
  | LkSib (iter : nat)
  | LkTest (iter : nat)
  | Done (r : option nat).

Definition write_siblings (d : dcache) (q : nat) (s : option nat) : outcome dcache :=
  e ← entry d q; mret (update q (set_siblings s e) d).

Definition write_childs (d : dcache) (q : nat) (c : option nat) : outcome dcache :=
  e ← entry d q; mret (update q (set_childs c e) d).

Definition insert_step (parent : option nat) (nm : list byte) (namelen n : Z) (d : dcache) (at_ : pc)
    : outcome (dcache * pc) :=
  let p := default root parent in
  match at_ with
  | Start =>
      if DCACHE_ENTRY_NAME_LEN <? namelen + 1 then mret (d, Done None)
      else
        r ← entry d root;
        (if parent is None then c_assert (negb (inode r =? 0)) else Ret tt) ;;
        bs ← entry_name nm namelen;
        let new_entry := next d in
        mret (Dcache (<[new_entry := DcacheEntry None None n bs]> (entries d)) (S new_entry), InsTest new_entry)
  | InsTest new =>
      e ← entry d p; mret (d, match childs e with None => InsSelf new | Some _ => InsHead new end)
  | InsSelf new => d ← write_siblings d new (Some new); mret (d, InsPublish new)
  | InsHead new => e ← entry d p; c ← from_option_undef (childs e); mret (d, InsSib new c)
  | InsSib new c => e ← entry d c; mret (d, InsLink new (siblings e))
  | InsLink new s => d ← write_siblings d new s; mret (d, InsAgain new)
  | InsAgain new => e ← entry d p; c ← from_option_undef (childs e); mret (d, InsNext new c)
  | InsNext new c => d ← write_siblings d c (Some new); mret (d, InsPublish new)
  | InsPublish new => d ← write_childs d p (Some new); mret (d, Done (Some new))
  | _ => mret (d, at_)
  end.

Definition lookup_step (parent : option nat) (nm : list byte) (namelen : Z) (d : dcache) (at_ : pc)
    : outcome (dcache * pc) :=
  let p := default root parent in
  match at_ with
  | Start => e ← entry d p; mret (d, match childs e with None => Done None | Some _ => LkHead end)
  | LkHead => e ← entry d p; c ← from_option_undef (childs e); mret (d, LkMatch c)
  | LkMatch iter =>
      e ← entry d iter; m ← entry_matches e nm namelen;
      mret (d, if (m : bool) then LkHit iter else LkSib iter)
  | LkHit iter => d ← write_childs d p (Some iter); mret (d, Done (Some iter))
  | LkSib iter => e ← entry d iter; s ← from_option_undef (siblings e); mret (d, LkTest s)
  | LkTest iter =>
      e ← entry d p; mret (d, if decide (childs e = Some iter) then Done None else LkMatch iter)
  | _ => mret (d, at_)
  end.

Definition pstep (r : request) : dcache -> pc -> outcome (dcache * pc) :=
  match r with
  | Insert parent nm namelen n => insert_step parent nm namelen n
  | Lookup parent nm namelen => lookup_step parent nm namelen
  end.

(** One thread alone. *)
Fixpoint solo (fuel : nat) (r : request) (d : dcache) (at_ : pc) : outcome (option nat * dcache) :=
  match at_ with
  | Done x => mret (x, d)
  | _ =>
      match fuel with
      | O => OutOfFuel
      | S fuel => '(d, at_) ← pstep r d at_; solo fuel r d at_
      end
  end.

Record state := St { cache : dcache; threads : list (request * pc) }.

Definition start (d : dcache) (reqs : list request) : state := St d (map (fun r => (r, Start)) reqs).

Inductive step : state -> state -> Prop :=
  | step_thread s i r at_ d' at' :
      threads s !! i = Some (r, at_) -> pstep r (cache s) at_ = Ret (d', at') ->
      step s (St d' (<[i := (r, at')]> (threads s))).

(** A schedule: the thread that steps next. *)
Fixpoint run (sched : list nat) (s : state) : outcome state :=
  match sched with
  | [] => mret s
  | i :: sched =>
      '(r, at_) ← from_option_undef (threads s !! i);
      '(d, at_) ← pstep r (cache s) at_;
      run sched (St d (<[i := (r, at_)]> (threads s)))
  end.

Lemma run_steps sched s s' : run sched s = Ret s' -> rtc step s s'.
Proof.
  revert s. induction sched as [|i sched IH]; intros s H; cbn in H.
  { injection H as ->. constructor. }
  destruct (threads s !! i) as [[r at_]|] eqn:E; [|done]. cbn [from_option_undef mbind outcome_bind] in H.
  apply bind_Ret in H as ([d at'] & Hp & H). eapply rtc_l; [by econstructor|]. by apply IH.
Qed.

(** ** The invariant

    The rings need not stay rings, but their links never lead out of the
    children of the parent.  [K c p]: entry [c] was inserted under [p]. *)

Definition linked (d : dcache) (c : nat) : Prop := is_Some (sib d c).

Definition has_childs (d : dcache) (p : nat) : Prop := is_Some (entries d !! p ≫= childs).

Record heap_ok (K : nat -> nat -> Prop) (d : dcache) : Prop := {
  ho_heads p c : entries d !! p ≫= childs = Some c -> linked d c /\ K c p;
  ho_sibs q s p : sib d q = Some s -> K q p -> linked d s /\ K s p;
  ho_dom c p : K c p -> is_Some (entries d !! c);
  ho_fun c p q : K c p -> K c q -> p = q;
  ho_fresh c : is_Some (entries d !! c) -> (c < next d)%nat;
  ho_names c e : entries d !! c = Some e -> exists u, name e = until_nul (name e) ++ NUL :: u }.

(** What steps preserve. *)
Record extends (K : nat -> nat -> Prop) (d : dcache) (K' : nat -> nat -> Prop) (d' : dcache) : Prop := {
  ex_label q : is_Some (entries d !! q) -> label d' q = label d q;
  ex_linked q : linked d q -> linked d' q;
  ex_kids c p : K c p -> K' c p;
  ex_childs p : has_childs d p -> has_childs d' p }.

Lemma extends_refl K d : extends K d K d.
Proof. by split. Qed.

Lemma label_present d q l : label d q = Some l -> is_Some (entries d !! q).
Proof. unfold label. destruct (entries d !! q); [eauto|done]. Qed.

Lemma ex_label_Some K d K' d' q l : extends K d K' d' -> label d q = Some l -> label d' q = Some l.
Proof. intros X H. by rewrite (ex_label _ _ _ _ X) by (eapply label_present, H). Qed.

Lemma ex_present K d K' d' q : extends K d K' d' -> is_Some (entries d !! q) -> is_Some (entries d' !! q).
Proof.
  intros X H. destruct (label d q) as [l|] eqn:E.
  - eapply label_present, ex_label_Some; eauto.
  - unfold label in E. destruct H as [? H]. by rewrite H in E.
Qed.

(** The requests a cache can be given. *)
Definition valid (d : dcache) (r : request) : Prop :=
  is_Some (entries d !! parent_of r) /\
  match r with
  | Insert parent nm namelen _ =>
      (exists tok rest, nm = tok ++ rest /\ text tok /\ namelen = Z.of_nat (length tok)) /\
      exists l, label d root = Some l /\ (parent = None -> l.2 <> 0)
  | Lookup _ nm namelen => exists tok rest, nm = tok ++ rest /\ text tok /\ namelen = Z.of_nat (length tok)
  end.

(** The entry an insertion is to make. *)
Definition made (d : dcache) (K : nat -> nat -> Prop) (r : request) (c : nat) : Prop :=
  match r with
  | Insert _ nm namelen n => label d c = Some (take (Z.to_nat namelen) nm, n) /\ K c (parent_of r)
  | Lookup _ _ _ => False
  end.

(** A child of the parent with the name looked for. *)
Definition found (d : dcache) (K : nat -> nat -> Prop) (r : request) (c : nat) : Prop :=
  match r with
  | Insert _ _ _ _ => False
  | Lookup _ nm namelen => has_name d (take (Z.to_nat namelen) nm) c /\ K c (parent_of r)
  end.

Definition pc_ok (K : nat -> nat -> Prop) (d : dcache) (r : request) (at_ : pc) : Prop :=
  let p := parent_of r in
  match at_ with
  | Start => True
  | InsTest new | InsSelf new => made d K r new
  | InsHead new => made d K r new /\ has_childs d p
  | InsSib new c => made d K r new /\ has_childs d p /\ linked d c /\ K c p
  | InsLink new s => made d K r new /\ has_childs d p /\ exists s', s = Some s' /\ linked d s' /\ K s' p
  | InsAgain new => made d K r new /\ has_childs d p /\ linked d new
  | InsNext new c => made d K r new /\ linked d new /\ linked d c /\ K c p
  | InsPublish new => made d K r new /\ linked d new
  | LkHead => (if r is Lookup _ _ _ then True else False) /\ has_childs d p
  | LkMatch iter | LkSib iter | LkTest iter => (if r is Lookup _ _ _ then True else False) /\ linked d iter /\ K iter p
  | LkHit iter => found d K r iter /\ linked d iter
  | Done None => match r with Insert _ _ namelen _ => DCACHE_ENTRY_NAME_LEN < namelen + 1 | Lookup _ _ _ => True end
  | Done (Some c) => made d K r c \/ found d K r c
  end.

Lemma made_mono K d K' d' r c : extends K d K' d' -> made d K r c -> made d' K' r c.
Proof.
  intros X. destruct r; [|done]. intros [H1 H2]. split; [by eapply ex_label_Some|by apply (ex_kids _ _ _ _ X)].
Qed.

Lemma found_mono K d K' d' r c : extends K d K' d' -> found d K r c -> found d' K' r c.
Proof.
  intros X. destruct r; [done|]. intros [H1 H2]. split; [|by apply (ex_kids _ _ _ _ X)].
  unfold has_name in *. destruct (label d c) eqn:E; [|done]. by rewrite (ex_label_Some _ _ _ _ _ _ X E).
Qed.

Lemma pc_ok_mono K d K' d' r at_ : extends K d K' d' -> pc_ok K d r at_ -> pc_ok K' d' r at_.
Proof.
  intros X. pose proof (ex_linked _ _ _ _ X) as Hl. pose proof (ex_kids _ _ _ _ X) as Hk.
  pose proof (ex_childs _ _ _ _ X) as Hc. destruct at_ as [| | | | | | | | | | | | | |[]]; cbn; try done;
    try (destruct 1 as (? & ? & s' & -> & ? & ?)); intuition eauto 8 using made_mono, found_mono.
Qed.

Lemma valid_mono K d K' d' r : extends K d K' d' -> valid d r -> valid d' r.
Proof.
  intros X [Hp H]. split; [by eapply ex_present|]. destruct r; [|done].
  destruct H as (H1 & l & H2 & H3). split; [done|]. exists l. split; [by eapply ex_label_Some|done].
Qed.

(** ** The three writes *)

Lemma write_siblings_ok K d q s :
  heap_ok K d -> is_Some (entries d !! q) -> (s = q \/ linked d s) -> (forall p, K q p -> K s p) ->
  exists d', write_siblings d q (Some s) = Ret d' /\ heap_ok K d' /\ extends K d K d' /\ linked d' q.
Proof.
  intros H [e He] Hs HK. unfold write_siblings. rewrite (entry_Ret _ _ _ He). cbn [mbind outcome_bind mret outcome_ret].
  set (d' := update q _ d). eexists. split; [reflexivity|].
  assert (forall x, sib d' x = if decide (x = q) then Some s else sib d x) as Hsib.
  { intros x. unfold d', sib, update. cbn. destruct (decide (x = q)) as [->|]; [by rewrite lookup_insert_eq|].
    by rewrite lookup_insert_ne. }
  assert (forall x, entries d' !! x ≫= childs = entries d !! x ≫= childs) as Hch.
  { intros x. unfold d', update. cbn. destruct (decide (q = x)) as [<-|]; [by rewrite lookup_insert_eq, He|].
    by rewrite lookup_insert_ne. }
  assert (forall x, linked d x -> linked d' x) as Hl.
  { intros x. unfold linked. rewrite Hsib. destruct (decide (x = q)); [eauto|done]. }
  assert (linked d' q) as Hlq by (unfold linked; rewrite Hsib, decide_True by done; eauto).
  assert (forall x, is_Some (entries d' !! x) <-> is_Some (entries d !! x)) as Hdom.
  { intros x. unfold d', update. cbn. rewrite lookup_insert_is_Some'. split; [intros [<-|?]|]; eauto. }
  split; [|split; [|done]].
  - split.
    + intros p c. rewrite Hch. intros Hc. destruct (ho_heads _ _ H p c Hc). auto.
    + intros x y p. rewrite Hsib. destruct (decide (x = q)) as [->|].
      * intros [= <-] Hp. split; [|auto]. destruct Hs as [->|]; auto.
      * intros Hy Hp. destruct (ho_sibs _ _ H x y p Hy Hp). auto.
    + intros c p. rewrite Hdom. apply (ho_dom _ _ H).
    + apply (ho_fun _ _ H).
    + intros c. rewrite Hdom. apply (ho_fresh _ _ H).
    + intros c x Hx. unfold d', update in Hx. cbn in Hx. apply lookup_insert_Some in Hx as [[<- <-]|[_ Hx]].
      * exact (ho_names _ _ H q e He).
      * by apply (ho_names _ _ H c).
  - split; [|done|done|].
    + intros x _. by apply (label_update d q e).
    + intros p. unfold has_childs. by rewrite Hch.
Qed.

Lemma write_childs_ok K d p c :
  heap_ok K d -> is_Some (entries d !! p) -> linked d c -> K c p ->
  exists d', write_childs d p (Some c) = Ret d' /\ heap_ok K d' /\ extends K d K d'.
Proof.
  intros H [e He] Hc HK. unfold write_childs. rewrite (entry_Ret _ _ _ He). cbn [mbind outcome_bind mret outcome_ret].
  set (d' := update p _ d). eexists. split; [reflexivity|].
  assert (forall x, sib d' x = sib d x) as Hsib by (intros x; by apply (sib_update d p e)).
  assert (forall x, entries d' !! x ≫= childs = if decide (x = p) then Some c else entries d !! x ≫= childs) as Hch.
  { intros x. unfold d', update. cbn. destruct (decide (x = p)) as [->|]; [by rewrite lookup_insert_eq|].
    by rewrite lookup_insert_ne. }
  assert (forall x, is_Some (entries d' !! x) <-> is_Some (entries d !! x)) as Hdom.
  { intros x. unfold d', update. cbn. rewrite lookup_insert_is_Some'. split; [intros [<-|?]|]; eauto. }
  assert (forall x, linked d x -> linked d' x) as Hl by (intros x; unfold linked; by rewrite Hsib).
  split.
  - split.
    + intros x y. rewrite Hch. destruct (decide (x = p)) as [->|]; [intros [= <-]; auto|].
      intros Hy. destruct (ho_heads _ _ H x y Hy). auto.
    + intros x y q. rewrite Hsib. intros Hy Hq. destruct (ho_sibs _ _ H x y q Hy Hq). auto.
    + intros x y. rewrite Hdom. apply (ho_dom _ _ H).
    + apply (ho_fun _ _ H).
    + intros x. rewrite Hdom. apply (ho_fresh _ _ H).
    + intros x y Hy. unfold d', update in Hy. cbn in Hy. apply lookup_insert_Some in Hy as [[<- <-]|[_ Hy]].
      * exact (ho_names _ _ H p e He).
      * by apply (ho_names _ _ H x).
  - split; [|done|done|].
    + intros x _. by apply (label_update d p e).
    + intros x. unfold has_childs. rewrite Hch. destruct (decide (x = p)); [eauto|done].
Qed.

Lemma alloc_ok K d p tok n :
  heap_ok K d -> text tok ->
  let new := next d in
  let d' := Dcache (<[new := DcacheEntry None None n (tok ++ NUL :: repeat NUL (39 - length tok))]> (entries d)) (S new) in
  let K' := fun c q => K c q \/ (c = new /\ q = p) in
  heap_ok K' d' /\ extends K d K' d' /\ label d' new = Some (tok, n) /\ K' new p.
Proof.
  intros H Ht new d' K'.
  assert (entries d !! new = None) as Hn by (apply eq_None_not_Some; intros Hx%(ho_fresh _ _ H); unfold new in Hx; lia).
  assert (forall x, is_Some (entries d !! x) -> x <> new) as Hold by (intros x Hx ->; rewrite Hn in Hx; by destruct Hx).
  assert (forall x, sib d' x = sib d x) as Hsib.
  { intros x. unfold d', sib. cbn. destruct (decide (new = x)) as [<-|]; [by rewrite lookup_insert_eq, Hn|].
    by rewrite lookup_insert_ne. }
  assert (forall x, entries d' !! x ≫= childs = entries d !! x ≫= childs) as Hch.
  { intros x. unfold d'. cbn. destruct (decide (new = x)) as [<-|]; [by rewrite lookup_insert_eq, Hn|].
    by rewrite lookup_insert_ne. }
  assert (forall x, linked d x -> linked d' x) as Hl by (intros x; unfold linked; by rewrite Hsib).
  split; [|split; [|split]].
  - split.
    + intros x y. rewrite Hch. intros Hy. destruct (ho_heads _ _ H x y Hy). split; [auto|by left].
    + intros x y q. rewrite Hsib. intros Hy [Hq|[-> _]].
      * destruct (ho_sibs _ _ H x y q Hy Hq). split; [auto|by left].
      * unfold sib in Hy. by rewrite Hn in Hy.
    + intros c q [Hc|[-> _]]; unfold d'; cbn; rewrite lookup_insert_is_Some'; [right; by apply (ho_dom _ _ H c q)|by left].
    + intros c q q' [Hc|[-> ->]] [Hc'|[E ->]]; [by apply (ho_fun _ _ H c)| | |done].
      * subst c. by destruct (Hold new (ho_dom _ _ H _ _ Hc)).
      * by destruct (Hold new (ho_dom _ _ H _ _ Hc')).
    + intros c. unfold d'. cbn. rewrite lookup_insert_is_Some'. intros [<-|Hc%(ho_fresh _ _ H)]; unfold new; lia.
    + intros c x Hx. unfold d' in Hx. cbn in Hx. apply lookup_insert_Some in Hx as [[<- <-]|[_ Hx]].
      * cbn. rewrite until_nul_app by done. eauto.
      * by apply (ho_names _ _ H c).
  - split; [|done|by left|].
    + intros x Hx. unfold d', label. cbn. by rewrite lookup_insert_ne by (apply not_eq_sym; auto).
    + intros x. unfold has_childs. by rewrite Hch.
  - unfold label, d'. cbn. rewrite lookup_insert_eq. cbn. by rewrite until_nul_app.
  - by right.
Qed.

(** ** One step of one thread *)

Definition good (K : nat -> nat -> Prop) (d : dcache) (r : request) (o : outcome (dcache * pc)) : Prop :=
  exists K' d' at', o = Ret (d', at') /\ heap_ok K' d' /\ extends K d K' d' /\ pc_ok K' d' r at' /\
    forall c p, K' c p -> K c p \/ (p = parent_of r /\ made d' K' r c).

Lemma made_present K d r c : made d K r c -> is_Some (entries d !! c) /\ K c (parent_of r).
Proof. destruct r; [|done]. intros [Hl Hk]. split; [by eapply label_present|done]. Qed.

Section Step.
Context (K : nat -> nat -> Prop) (d : dcache) (r : request).
Hypothesis H : heap_ok K d.
Hypothesis V : valid d r.

Lemma good_read at' : pc_ok K d r at' -> good K d r (mret (d, at')).
Proof. intros O. exists K, d, at'. split; [done|]. split; [done|]. split; [apply extends_refl|]. auto. Qed.

Lemma good_siblings q s at' :
  is_Some (entries d !! q) -> (s = q \/ linked d s) -> (forall p, K q p -> K s p) ->
  (forall d', extends K d K d' -> linked d' q -> pc_ok K d' r at') ->
  good K d r (d ← write_siblings d q (Some s); mret (d, at')).
Proof.
  intros Hq Hs HK O. destruct (write_siblings_ok K d q s H Hq Hs HK) as (d' & -> & H' & X & Hl).
  exists K, d', at'. split; [done|]. auto 6.
Qed.

Lemma good_childs p c at' :
  is_Some (entries d !! p) -> linked d c -> K c p -> (forall d', extends K d K d' -> pc_ok K d' r at') ->
  good K d r (d ← write_childs d p (Some c); mret (d, at')).
Proof.
  intros Hp Hc HK O. destruct (write_childs_ok K d p c H Hp Hc HK) as (d' & -> & H' & X).
  exists K, d', at'. split; [done|]. auto 6.
Qed.

(** The parent is there, and its children are its own. *)
Lemma good_parent : exists e, entry d (parent_of r) = Ret e /\ entries d !! parent_of r = Some e /\
  forall c, childs e = Some c -> linked d c /\ K c (parent_of r) /\ has_childs d (parent_of r).
Proof.
  destruct V as [[e He] _]. exists e. split; [by apply entry_Ret|]. split; [done|]. intros c Hc.
  assert (entries d !! parent_of r ≫= childs = Some c) as E by (by rewrite He).
  destruct (ho_heads _ _ H _ _ E). split; [done|]. split; [done|]. unfold has_childs. rewrite E. eauto.
Qed.

Lemma linked_entry c p : linked d c -> K c p -> exists e s, entries d !! c = Some e /\ siblings e = Some s /\ linked d s /\ K s p.
Proof.
  intros [s Hs] Hk. pose proof Hs as Hs'. unfold sib in Hs'. destruct (entries d !! c) as [e|]; [|done].
  destruct (ho_sibs _ _ H _ _ p Hs Hk). by exists e, s.
Qed.

End Step.

Lemma insert_step_ok K d parent nm namelen n at_ (r := Insert parent nm namelen n) :
  heap_ok K d -> valid d r -> pc_ok K d r at_ -> good K d r (insert_step parent nm namelen n d at_).
Proof.
  intros H V O. destruct (good_parent K d r H V) as (e & Ee & He & Hch). unfold insert_step. fold (parent_of r). change (default root parent) with (parent_of r).
  destruct at_ as [|new|new|new|new c|new s|new|new c|new| | | | | |x]; cbn [pc_ok] in O.
  - destruct V as (_ & (tok & rest & -> & Ht & ->) & l & Hroot & Hnz).
    destruct (Z.ltb_spec DCACHE_ENTRY_NAME_LEN (Z.of_nat (length tok) + 1)) as [Hlt|Hge]; [by apply good_read|].
    unfold label in Hroot. destruct (entries d !! root) as [re|] eqn:Hre; [|done]. injection Hroot as <-. cbn in Hnz.
    rewrite (entry_Ret _ _ _ Hre). cbn [mbind outcome_bind].
    assert ((if parent is None then c_assert (negb (inode re =? 0)) else Ret tt) = Ret tt) as ->.
    { destruct parent; [done|]. by rewrite (proj2 (Z.eqb_neq _ _)) by auto. }
    cbn [mbind outcome_bind]. rewrite entry_name_eq by (try done; unfold DCACHE_ENTRY_NAME_LEN in Hge; lia).
    cbn [mbind outcome_bind]. destruct (alloc_ok K d (parent_of r) tok n H Ht) as (H' & X & Hl & Hk).
    eexists _, _, _. split; [reflexivity|]. split; [exact H'|]. split; [exact X|].
    assert (forall K' d', label d' (next d) = Some (tok, n) -> K' (next d) (parent_of r) -> made d' K' r (next d)) as Hm.
    { intros K' d' H1 H2. split; [|done]. rewrite Nat2Z.id, take_app_length. done. }
    split; [cbn [pc_ok]; by apply Hm|]. intros c p [Hc|[-> ->]]; [by left|]. right. split; [done|]. by apply Hm.
  - rewrite Ee. cbn [mbind outcome_bind]. apply good_read; [done|]. destruct (childs e) as [c|] eqn:Ec; [|done].
    split; [done|]. by apply (Hch c).
  - destruct (made_present K d r new O) as [Hn Hk]. apply good_siblings; [done|done|by left|done|].
    intros d' X Hl. split; [by eapply made_mono|done].
  - destruct O as [Hm [c Hc]]. rewrite He in Hc. cbn in Hc. rewrite Ee. cbn [mbind outcome_bind]. rewrite Hc.
    apply good_read; [done|]. destruct (Hch c Hc) as (? & ? & ?). cbn [pc_ok]. auto.
  - destruct O as (Hm & Hp & Hl & Hk). destruct (linked_entry K d H c _ Hl Hk) as (ce & s & Hce & Hs & Hls & HK).
    rewrite (entry_Ret _ _ _ Hce). cbn [mbind outcome_bind]. apply good_read; [done|]. cbn [pc_ok]. rewrite Hs. eauto 8.
  - destruct O as (Hm & Hp & s' & -> & Hl & Hk). destruct (made_present K d r new Hm) as [Hn Hkn].
    apply good_siblings; [done|done|by right|..].
    + intros p Hp'. by rewrite <- (ho_fun _ _ H _ _ _ Hkn Hp').
    + intros d' X Hl'. split; [by eapply made_mono|]. split; [by eapply ex_childs|done].
  - destruct O as (Hm & [c Hc] & Hl). rewrite He in Hc. cbn in Hc. rewrite Ee. cbn [mbind outcome_bind]. rewrite Hc.
    apply good_read; [done|]. destruct (Hch c Hc) as (? & ? & ?). cbn [pc_ok]. auto.
  - destruct O as (Hm & Hln & Hlc & Hkc). destruct (made_present K d r new Hm) as [Hn Hkn].
    apply good_siblings; [done|by eapply (ho_dom _ _ H)|by right|..].
    + intros p Hp'. by rewrite <- (ho_fun _ _ H _ _ _ Hkc Hp').
    + intros d' X _. split; [by eapply made_mono|by eapply ex_linked].
  - destruct O as [Hm Hl]. destruct (made_present K d r new Hm) as [Hn Hkn].
    apply good_childs; [done|eauto|done|done|]. intros d' X. left. by eapply made_mono.
  - by destruct O.
  - by destruct O.
  - by destruct O.
  - by destruct O.
  - by destruct O.
  - by apply good_read.
Qed.

Lemma lookup_step_ok K d parent nm namelen at_ (r := Lookup parent nm namelen) :
  heap_ok K d -> valid d r -> pc_ok K d r at_ -> good K d r (lookup_step parent nm namelen d at_).
Proof.
  intros H V O. destruct (good_parent K d r H V) as (e & Ee & He & Hch). unfold lookup_step. change (default root parent) with (parent_of r).
  destruct at_ as [|new|new|new|new c|new s|new|new c|new| |iter|iter|iter|iter|x]; cbn [pc_ok] in O.
  2-9: subst r; cbn in O; tauto.
  - rewrite Ee. cbn [mbind outcome_bind]. apply good_read; [done|]. destruct (childs e) as [c|] eqn:Ec; [|done].
    split; [done|]. by apply (Hch c).
  - destruct O as [_ [c Hc]]. rewrite He in Hc. cbn in Hc. rewrite Ee. cbn [mbind outcome_bind]. rewrite Hc.
    apply good_read; [done|]. destruct (Hch c Hc) as (? & ? & ?). by split.
  - destruct O as (_ & Hl & Hk). destruct (linked_entry K d H iter _ Hl Hk) as (ie & s & Hie & _).
    rewrite (entry_Ret _ _ _ Hie). cbn [mbind outcome_bind].
    destruct V as (_ & tok & rest & -> & Ht & ->). destruct (ho_names _ _ H iter ie Hie) as [u Hu]. rewrite (entry_matches_text ie tok rest u Hu Ht).
    cbn [mbind outcome_bind]. apply good_read; [done|].
    destruct (bool_decide_reflect (until_nul (name ie) = tok)) as [Hm|Hm]; [|by repeat split].
    split; [|done]. split; [|done]. rewrite Nat2Z.id, take_app_length. by eapply has_name_entry.
  - destruct O as [Hf Hl]. apply good_childs; [done|eauto|done|apply Hf|]. intros d' X. right. by eapply found_mono.
  - destruct O as (_ & Hl & Hk). destruct (linked_entry K d H iter _ Hl Hk) as (ie & s & Hie & Hs & Hls & HK).
    rewrite (entry_Ret _ _ _ Hie). cbn [mbind outcome_bind]. rewrite Hs. apply good_read; [done|]. split; [done|]. auto.
  - rewrite Ee. cbn [mbind outcome_bind]. apply good_read; [done|]. by destruct (decide (childs e = Some iter)).
  - apply good_read; [done|]. destruct x; [|done]. by destruct O; [|right].
Qed.

(** ** All threads *)

Section Threads.
Context (d0 : dcache) (kids : nat -> list nat) (reqs : list request).

Definition K0 (c p : nat) : Prop := c ∈ kids p.

Record threads_ok (K : nat -> nat -> Prop) (s : state) : Prop := {
  th_heap : heap_ok K (cache s);
  th_reqs : (threads s).*1 = reqs;
  th_pc i r at_ : threads s !! i = Some (r, at_) -> valid (cache s) r /\ pc_ok K (cache s) r at_;
  th_kids c p : K c p -> K0 c p \/ exists r, r ∈ reqs /\ p = parent_of r /\ made (cache s) K r c;
  th_ext : extends K0 d0 K (cache s) }.

Lemma ring_linked d cs c : ring (sib d) cs -> c ∈ cs -> exists s, sib d c = Some s /\ s ∈ cs.
Proof.
  intros Hr Hc. apply list_elem_of_split in Hc as (xs & ys & ->). apply ring_rotate in Hr.
  destruct Hr as [Hs _]. eexists. split; [exact Hs|]. destruct (ys ++ xs) as [|y l] eqn:E; cbn.
  - apply elem_of_app. right. left.
  - assert (y ∈ ys ++ xs) as Hy by (rewrite E; left). set_solver.
Qed.

Lemma threads_start_ok : dc_inv d0 kids -> Forall (valid d0) reqs -> threads_ok K0 (start d0 reqs).
Proof.
  intros I V. split; cbn [start cache threads].
  - split.
    + intros p c Hc. destruct (entries d0 !! p) as [e|] eqn:He; [|done]. cbn in Hc.
      rewrite (inv_heads _ _ I p e He) in Hc. assert (c ∈ kids p) as Hin.
      { destruct (kids p); [done|]. injection Hc as ->. left. }
      split; [|done]. destruct (ring_linked d0 (kids p) c (inv_ring _ _ I p) Hin) as (s & Hs & _). unfold linked. eauto.
    + intros q s p Hs Hq. destruct (ring_linked d0 (kids p) q (inv_ring _ _ I p) Hq) as (s' & Hs' & Hin).
      assert (s' = s) as -> by congruence. split; [|done].
      destruct (ring_linked d0 (kids p) s (inv_ring _ _ I p) Hin) as (s' & Hss & _). unfold linked. eauto.
    + intros c p Hc. by apply (inv_kids _ _ I) in Hc as [? _].
    + intros c p q. apply (inv_disjoint _ _ I).
    + apply (inv_fresh _ _ I).
    + intros c e He. apply (inv_names _ _ I c e He).
  - unfold fmap. rewrite <- list_fmap_compose. by rewrite list_fmap_id.
  - intros i r at_ Hi. unfold fmap in Hi. apply list_lookup_fmap_Some in Hi as (r' & [= -> ->] & Hi).
    split; [|done]. rewrite Forall_lookup in V. by apply (V i).
  - by left.
  - apply extends_refl.
Qed.

Lemma extends_trans K1 d1 K2 d2 K3 d3 : extends K1 d1 K2 d2 -> extends K2 d2 K3 d3 -> extends K1 d1 K3 d3.
Proof.
  intros X Y. split.
  - intros q Hq. rewrite (ex_label _ _ _ _ Y) by (by eapply ex_present). by apply (ex_label _ _ _ _ X).
  - intros q Hq. by apply (ex_linked _ _ _ _ Y), (ex_linked _ _ _ _ X).
  - intros c p Hc. by apply (ex_kids _ _ _ _ Y), (ex_kids _ _ _ _ X).
  - intros p Hp. by apply (ex_childs _ _ _ _ Y), (ex_childs _ _ _ _ X).
Qed.

(** A thread always has a step, and the invariant survives it. *)
Lemma thread_step K s i r at_ :
  threads_ok K s -> threads s !! i = Some (r, at_) ->
  exists K' d' at', pstep r (cache s) at_ = Ret (d', at') /\ threads_ok K' (St d' (<[i := (r, at')]> (threads s))).
Proof.
  intros T Hi. destruct (th_pc _ _ T _ _ _ Hi) as [V O].
  assert (good K (cache s) r (pstep r (cache s) at_)) as (K' & d' & at' & E & H' & X & O' & Hk).
  { destruct r; [apply insert_step_ok|apply lookup_step_ok]; try done; apply (th_heap _ _ T). }
  exists K', d', at'. split; [done|]. split; cbn [cache threads]; [done| | | |].
  - rewrite list_fmap_insert. rewrite list_insert_id; [apply (th_reqs _ _ T)|]. by rewrite list_lookup_fmap, Hi.
  - intros j r2 at2 Hj. apply list_lookup_insert_Some in Hj as [(<- & [= <- <-] & _)|[_ Hj]].
    + split; [by eapply valid_mono|done].
    + destruct (th_pc _ _ T _ _ _ Hj). split; [by eapply valid_mono|by eapply pc_ok_mono].
  - intros c p Hc. destruct (Hk c p Hc) as [Hold|[-> Hm]].
    + destruct (th_kids _ _ T c p Hold) as [?|(r2 & Hr2 & -> & Hm)]; [by left|]. right. exists r2.
      split; [done|]. split; [done|]. by eapply made_mono.
    + right. exists r. split; [|done]. rewrite <- (th_reqs _ _ T). apply list_elem_of_fmap.
      exists (r, at_). split; [done|]. by eapply list_elem_of_lookup_2.
  - eapply extends_trans; [apply (th_ext _ _ T)|exact X].
Qed.

Lemma steps_ok K s s' : threads_ok K s -> rtc step s s' -> exists K', threads_ok K' s'.
Proof.
  intros T R. revert K T. induction R as [s|s s1 s2 Hs _ IH]; intros K T; [by exists K|].
  destruct Hs as [s i r at_ d' at' Hi Hp].
  destruct (thread_step K s i r at_ T Hi) as (K' & d2 & at2 & E & T'). rewrite Hp in E. injection E as <- <-.
  by apply (IH K').
Qed.

(** A schedule of these threads never gets stuck. *)
Lemma run_ok K s sched :
  threads_ok K s -> Forall (fun i => (i < length reqs)%nat) sched -> exists K' s', run sched s = Ret s' /\ threads_ok K' s'.
Proof.
  intros T Hs. revert K s T. induction Hs as [|i sched Hi _ IH]; intros K s T; [by exists K, s|].
  rewrite <- (th_reqs _ _ T), length_fmap in Hi. apply lookup_lt_is_Some_2 in Hi as [[r at_] Hi].
  destruct (thread_step K s i r at_ T Hi) as (K' & d' & at' & E & T'). cbn [run]. rewrite Hi.
  cbn [from_option_undef mbind outcome_bind]. rewrite E. cbn [mbind outcome_bind]. by apply (IH K').
Qed.
End Threads.

(** The steps an insertion has before it at most. *)
Definition to_go (at_ : pc) : nat :=
  match at_ with
  | Start => 8
  | InsTest _ => 7
  | InsHead _ => 6
  | InsSib _ _ => 5
  | InsLink _ _ => 4
  | InsAgain _ => 3
  | InsNext _ _ | InsSelf _ => 2
  | InsPublish _ => 1
  | _ => 0
  end.

Lemma insert_step_to_go parent nm namelen n d at_ d' at' :
  insert_step parent nm namelen n d at_ = Ret (d', at') -> (to_go at' <= pred (to_go at_))%nat.
Proof.
  unfold insert_step. destruct at_; cbn [to_go pred]; intros H;
    try (injection H as <- <-; cbn; lia).
  - destruct (_ <? _); [injection H as <- <-; cbn; lia|].
    apply bind_Ret in H as (r & _ & H). apply bind_Ret in H as ([] & _ & H). apply bind_Ret in H as (bs & _ & H).
    injection H as <- <-. done.
  - apply bind_Ret in H as (e & _ & H). injection H as <- <-. destruct (childs e); cbn; lia.
  - apply bind_Ret in H as (e & _ & H). injection H as <- <-. done.
  - apply bind_Ret in H as (e & _ & H). apply bind_Ret in H as (c & _ & H). injection H as <- <-. cbn; lia.
  - apply bind_Ret in H as (e & _ & H). injection H as <- <-. cbn; lia.
  - apply bind_Ret in H as (e & _ & H). injection H as <- <-. cbn; lia.
  - apply bind_Ret in H as (e & _ & H). apply bind_Ret in H as (c0 & _ & H). injection H as <- <-. cbn; lia.
  - apply bind_Ret in H as (e & _ & H). injection H as <- <-. cbn; lia.
  - apply bind_Ret in H as (e & _ & H). injection H as <- <-. cbn; lia.
Qed.

Lemma run_to_go sched s s' i parent nm namelen n at_ :
  run sched s = Ret s' -> threads s !! i = Some (Insert parent nm namelen n, at_) ->
  exists at', threads s' !! i = Some (Insert parent nm namelen n, at') /\
    (to_go at' <= to_go at_ - count_occ Nat.eq_dec sched i)%nat.
Proof.
  revert s at_. induction sched as [|j sched IH]; intros s at_ H Hi; cbn [run count_occ] in *.
  { injection H as <-. exists at_. split; [done|lia]. }
  destruct (threads s !! j) as [[r atj]|] eqn:Hj; [|done]. cbn [from_option_undef mbind outcome_bind] in H.
  apply bind_Ret in H as ([d at2] & Hp & H). destruct (Nat.eq_dec j i) as [->|Hne].
  - rewrite Hi in Hj. injection Hj as <- <-. pose proof (insert_step_to_go _ _ _ _ _ _ _ _ Hp).
    destruct (IH _ at2 H) as (at' & H1 & H2).
    + cbn. apply list_lookup_insert_eq. by eapply lookup_lt_Some.
    + exists at'. split; [done|lia].
  - destruct (IH _ at_ H) as (at' & H1 & H2); [cbn; by rewrite list_lookup_insert_ne|]. by exists at'.
Qed.

(** ** Properties *)

(** C12: whatever the interleaving of any number of insertions and lookups, no
    thread ever follows a null or dangling pointer; names and inode numbers of
    the entries there were never change; an insertion that has finished has
    made an entry with its name and number or refused an over-long name; and a
    lookup that has found something found an entry with exactly the name it
    was given, which was a child of that parent before or was inserted under
    it by one of the requests. *)
Theorem dcache_threads_safe d kids reqs s :
  dc_inv d kids -> Forall (valid d) reqs -> rtc step (start d reqs) s ->
  (forall i r at_, threads s !! i = Some (r, at_) -> returns (pstep r (cache s) at_)) /\
  (forall q, is_Some (entries d !! q) -> label (cache s) q = label d q) /\
  (forall i parent nm namelen n x, threads s !! i = Some (Insert parent nm namelen n, Done x) ->
     match x with
     | Some c => label (cache s) c = Some (take (Z.to_nat namelen) nm, n)
     | None => DCACHE_ENTRY_NAME_LEN < namelen + 1
     end) /\
  (forall i parent nm namelen c, threads s !! i = Some (Lookup parent nm namelen, Done (Some c)) ->
     has_name (cache s) (take (Z.to_nat namelen) nm) c /\
     (c ∈ kids (default root parent) \/
      exists parent' nm' namelen' n, Insert parent' nm' namelen' n ∈ reqs /\
        default root parent' = default root parent /\ label (cache s) c = Some (take (Z.to_nat namelen') nm', n))).
Proof.
  intros I V R. destruct (steps_ok d kids reqs _ _ _ (threads_start_ok d kids reqs I V) R) as (K & T).
  split; [|split; [|split]].
  - intros i r at_ Hi. destruct (thread_step d kids reqs K s i r at_ T Hi) as (_ & d' & at' & E & _). by eexists.
  - intros q Hq. by apply (ex_label _ _ _ _ (th_ext _ _ _ _ _ T)).
  - intros i parent nm namelen n [c|] Hi; destruct (th_pc _ _ _ _ _ T _ _ _ Hi) as [_ O]; [|exact O].
    destruct O as [[Hl _]|[]]. exact Hl.
  - intros i parent nm namelen c Hi. destruct (th_pc _ _ _ _ _ T _ _ _ Hi) as [_ [[]|[Hn Hk]]].
    split; [exact Hn|]. destruct (th_kids _ _ _ _ _ T _ _ Hk) as [?|(r & Hr & Hp & Hm)]; [by left|]. right.
    destruct r as [parent' nm' namelen' n|]; [|done]. exists parent', nm', namelen', n. split; [done|]. split; [done|]. apply Hm.
Qed.

(** C33: every schedule of the threads runs, and one that gives the thread of an
    insertion eight steps finishes it, whatever the other threads do. *)
Theorem dcache_insert_wait_free d kids reqs sched :
  dc_inv d kids -> Forall (valid d) reqs -> Forall (fun i => (i < length reqs)%nat) sched ->
  exists s, run sched (start d reqs) = Ret s /\
    forall i parent nm namelen n, reqs !! i = Some (Insert parent nm namelen n) ->
      (8 <= count_occ Nat.eq_dec sched i)%nat -> exists x, threads s !! i = Some (Insert parent nm namelen n, Done x).
Proof.
  intros I V Hs. destruct (run_ok d kids reqs _ _ sched (threads_start_ok d kids reqs I V) Hs) as (K & s & Hrun & T).
  exists s. split; [done|]. intros i parent nm namelen n Hi Hc.
  destruct (run_to_go sched (start d reqs) s i parent nm namelen n Start Hrun) as (at' & Hat & Hle).
  { cbn. unfold fmap. by rewrite list_lookup_fmap, Hi. }
  destruct (th_pc _ _ _ _ _ T _ _ _ Hat) as [_ O]. cbn [to_go] in Hle.
  destruct at'; cbn [to_go] in Hle; try lia; cbn [pc_ok found] in O; try tauto; by eexists.
Qed.

(** ** One thread alone runs the functions of [Dcache] *)

Lemma solo_Done fuel r d x : solo fuel r d (Done x) = Ret (x, d).
Proof. by destruct fuel. Qed.

Lemma solo_S fuel r d at_ d' at' :
  (if at_ is Done _ then False else True) -> pstep r d at_ = Ret (d', at') ->
  solo (S fuel) r d at_ = solo fuel r d' at'.
Proof. intros Hd E. destruct at_; try done; cbn [solo]; by rewrite E. Qed.

Lemma write_siblings_Ret d q s e :
  entries d !! q = Some e -> write_siblings d q s = Ret (update q (set_siblings s e) d).
Proof. intros He. unfold write_siblings. by rewrite (entry_Ret _ _ _ He). Qed.

Lemma write_childs_Ret d q c e :
  entries d !! q = Some e -> write_childs d q c = Ret (update q (set_childs c e) d).
Proof. intros He. unfold write_childs. by rewrite (entry_Ret _ _ _ He). Qed.

Lemma solo_loop rounds d parent pe first iter nm namelen x (p := default root parent) :
  entries d !! p = Some pe -> childs pe = Some first -> lookup_loop rounds d first iter nm namelen = Ret x ->
  solo (3 * rounds + 1) (Lookup parent nm namelen) d (LkMatch iter)
  = Ret (x, match x with None => d | Some i => update p (set_childs (Some i) pe) d end).
Proof.
  intros Hp Hc. revert iter. induction rounds as [|rounds IH]; intros iter H; [done|]. cbn [lookup_loop] in H.
  replace (3 * S rounds + 1)%nat with (S (S (S (3 * rounds + 1)))) by lia.
  apply bind_Ret in H as (e & He & H). apply bind_Ret in H as (m & Hm & H).
  erewrite solo_S; [|done|cbn [pstep lookup_step]; rewrite He; cbn [mbind outcome_bind]; rewrite Hm; reflexivity].
  destruct m.
  - injection H as <-. erewrite solo_S; [apply solo_Done|done|].
    cbn [pstep lookup_step]. fold p. by rewrite (write_childs_Ret _ _ _ _ Hp).
  - destruct (siblings e) as [s|] eqn:Es; [|done].
    erewrite solo_S; [|done|cbn [pstep lookup_step]; rewrite He; cbn [mbind outcome_bind]; rewrite Es; reflexivity].
    erewrite solo_S; [|done|cbn [pstep lookup_step]; fold p; rewrite (entry_Ret _ _ _ Hp); cbn [mbind outcome_bind]; rewrite Hc; reflexivity].
    destruct (decide (s = first)) as [->|Hne].
    + injection H as <-. rewrite decide_True by done. apply solo_Done.
    + rewrite decide_False by congruence. by apply IH.
Qed.

Lemma solo_lookup_Ret d parent nm namelen x d' :
  dcache_lookup d parent nm namelen = Ret (x, d') ->
  exists fuel, solo fuel (Lookup parent nm namelen) d Start = Ret (x, d').
Proof.
  unfold dcache_lookup. intros E. apply bind_Ret in E as (pe & Hpe & E).
  assert (entries d !! default root parent = Some pe) as Hp.
  { unfold entry in Hpe. destruct (entries d !! default root parent); [by injection Hpe as ->|done]. }
  exists (S (S (3 * size (entries d) + 1))).
  erewrite solo_S; [|done|cbn [pstep lookup_step]; rewrite Hpe; reflexivity].
  destruct (childs pe) as [first|] eqn:Hc; [|by injection E as <- <-; rewrite solo_Done].
  erewrite solo_S; [|done|cbn [pstep lookup_step]; rewrite Hpe; cbn [mbind outcome_bind]; rewrite Hc; reflexivity].
  apply bind_Ret in E as (y & Hl & E). rewrite (solo_loop _ _ _ _ _ _ _ _ _ Hp Hc Hl).
  by destruct y; injection E as <- <-.
Qed.

Lemma solo_lookup d kids parent nm namelen :
  dc_inv d kids -> valid d (Lookup parent nm namelen) ->
  exists fuel, solo fuel (Lookup parent nm namelen) d Start = dcache_lookup d parent nm namelen.
Proof.
  intros I [[pe Hp] (tok & rest & -> & Ht & ->)]. cbn [parent_of] in Hp.
  destruct (lookup_refines d kids parent tok rest I (ex_intro _ _ Hp) Ht) as (x & d' & _ & E & _).
  rewrite E. by apply solo_lookup_Ret.
Qed.

Lemma update_update q e e' d : update q e (update q e' d) = update q e d.
Proof. unfold update. cbn. by rewrite insert_insert_eq. Qed.

Section Solo.
Context (d : dcache) (parent : option nat) (nm : list byte) (namelen n : Z) (pe : dcache_entry) (bs : list byte).
Let p := default root parent.
Let new := next d.
Let r := Insert parent nm namelen n.
Hypothesis Hp : entries d !! p = Some pe.
Hypothesis Hn : entries d !! new = None.

(** After the allocation, with the [siblings] [s]. *)
Let fresh (s : option nat) : dcache := Dcache (<[new := DcacheEntry None s n bs]> (entries d)) (S new).

Lemma fresh_old s q e : entries d !! q = Some e -> entries (fresh s) !! q = Some e.
Proof. intros He. cbn. rewrite lookup_insert_ne; [done|]. congruence. Qed.

Lemma fresh_link s : write_siblings (fresh None) new s = Ret (fresh s).
Proof.
  rewrite (write_siblings_Ret _ _ _ (DcacheEntry None None n bs)) by apply lookup_insert_eq.
  unfold fresh, update. cbn. by rewrite insert_insert_eq.
Qed.

Ltac advance tac := erewrite solo_S; [|done|cbn [pstep r insert_step]; fold p; tac; reflexivity].

(** The first child. *)
Lemma solo_first :
  childs pe = None ->
  solo 7 r (fresh None) (InsTest new) = Ret (Some new, update p (set_childs (Some new) pe) (fresh (Some new))).
Proof.
  intros Hc. pose proof (fresh_old (Some new) p pe Hp) as Hp2.
  advance ltac:(rewrite (entry_Ret _ _ _ (fresh_old None _ _ Hp)); cbn [mbind outcome_bind]; rewrite Hc).
  advance ltac:(rewrite fresh_link). advance ltac:(rewrite (write_childs_Ret _ _ _ _ Hp2)). apply solo_Done.
Qed.

(** Another child, linked in after the head [c]. *)
Lemma solo_next c ce pe' (d2 := update c (set_siblings (Some new) ce) (fresh (siblings ce))) :
  childs pe = Some c -> entries d !! c = Some ce -> entries d2 !! p = Some pe' ->
  solo 7 r (fresh None) (InsTest new) = Ret (Some new, update p (set_childs (Some new) pe') d2).
Proof.
  intros Hc Hce Hpe'. pose proof (fresh_old None p pe Hp) as Hp1.
  advance ltac:(rewrite (entry_Ret _ _ _ Hp1); cbn [mbind outcome_bind]; rewrite Hc).
  advance ltac:(rewrite (entry_Ret _ _ _ Hp1); cbn [mbind outcome_bind]; rewrite Hc).
  advance ltac:(rewrite (entry_Ret _ _ _ (fresh_old None _ _ Hce))). advance ltac:(rewrite fresh_link).
  advance ltac:(rewrite (entry_Ret _ _ _ (fresh_old (siblings ce) _ _ Hp)); cbn [mbind outcome_bind]; rewrite Hc).
  advance ltac:(rewrite (write_siblings_Ret _ _ _ _ (fresh_old (siblings ce) _ _ Hce))).
  advance ltac:(rewrite (write_childs_Ret _ _ _ _ Hpe')). apply solo_Done.
Qed.
End Solo.

Lemma entry_inv d p e : entry d p = Ret e -> entries d !! p = Some e.
Proof. unfold entry. destruct (entries d !! p); [by intros [= ->]|done]. Qed.

Lemma solo_insert_Ret d parent nm namelen n x d' :
  entries d !! next d = None -> dcache_insert d parent nm namelen n = Ret (x, d') ->
  solo 8 (Insert parent nm namelen n) d Start = Ret (x, d').
Proof.
  intros Hn. unfold dcache_insert. destruct (DCACHE_ENTRY_NAME_LEN <? namelen + 1) eqn:Hlt.
  { intros [= <- <-]. erewrite solo_S; [apply solo_Done|done|]. cbn [pstep insert_step]. by rewrite Hlt. }
  intros E. apply bind_Ret in E as (re & Hre & E). apply bind_Ret in E as ([] & Hass & E).
  apply bind_Ret in E as (bs & Hbs & E). apply bind_Ret in E as (pe & Hpe & E). apply entry_inv in Hpe as Hp.
  erewrite solo_S; [|done|].
  2: { cbn [pstep insert_step]. rewrite Hlt, Hre. cbn [mbind outcome_bind]. rewrite Hass. cbn [mbind outcome_bind].
       rewrite Hbs. reflexivity. }
  destruct (childs pe) as [c|] eqn:Hc; [|injection E as <- <-; by erewrite solo_first].
  apply bind_Ret in E as (ce & Hce%entry_inv & E). apply bind_Ret in E as (pe' & Hpe'%entry_inv & E).
  injection E as <- <-. by erewrite solo_next.
Qed.

Lemma solo_insert d kids parent nm namelen n :
  dc_inv d kids -> valid d (Insert parent nm namelen n) ->
  exists fuel, solo fuel (Insert parent nm namelen n) d Start = dcache_insert d parent nm namelen n.
Proof.
  intros I [Hp [(tok & rest & -> & Ht & ->) [l [Hroot Hnz]]]]. exists 8%nat.
  assert (entries d !! next d = None) as Hn by (apply eq_None_not_Some; intros Hx%(inv_fresh _ _ I); lia).
  assert (exists x d', dcache_insert d parent (tok ++ rest) (Z.of_nat (length tok)) n = Ret (x, d')) as (x & d' & E);
    [|rewrite E; by apply solo_insert_Ret].
  destruct (le_lt_dec (length tok) 39) as [H39|H39].
  - destruct (insert_refines d kids parent tok rest n I Hp Ht H39) as (d' & E & _); [rewrite Hroot; intros ->; cbn; intros [=]; by apply Hnz|].
    eauto.
  - unfold dcache_insert, DCACHE_ENTRY_NAME_LEN. rewrite (proj2 (Z.ltb_lt _ _)) by lia. eauto.
Qed.

(** ** Lookups that never end *)

(** Where a lookup is while it walks through [C]. *)
Definition walking (C : nat -> Prop) (at_ : pc) : Prop :=
  match at_ with LkMatch c | LkSib c | LkTest c => C c | _ => False end.

Lemma lookup_lost d parent nm namelen pe h (C : nat -> Prop) fuel at_ :
  entries d !! default root parent = Some pe -> childs pe = Some h -> ~ C h ->
  (forall c, C c -> exists e s, entries d !! c = Some e /\ siblings e = Some s /\ C s /\ entry_matches e nm namelen = Ret false) ->
  walking C at_ -> solo fuel (Lookup parent nm namelen) d at_ = OutOfFuel.
Proof.
  intros Hp Hc Hh HC. revert at_. induction fuel as [|fuel IH]; intros at_ Hw; [by destruct at_|].
  destruct at_; try done; cbn [walking] in Hw; destruct (HC _ Hw) as (e & s & He & Hs & HCs & Hm); cbn [solo pstep lookup_step].
  - rewrite (entry_Ret _ _ _ He). cbn [mbind outcome_bind]. rewrite Hm. cbn [mbind outcome_bind]. by apply IH.
  - rewrite (entry_Ret _ _ _ He). cbn [mbind outcome_bind]. rewrite Hs. cbn [from_option_undef mbind outcome_bind]. by apply IH.
  - rewrite (entry_Ret _ _ _ Hp). cbn [mbind outcome_bind]. rewrite decide_False by congruence. by apply IH.
Qed.

(** a thread that runs alone does what [dcache_insert] and [dcache_lookup]
    do: the programs of single accesses and the functions agree, result and
    cache. *)
Theorem dcache_threads_sequential d kids r :
  dc_inv d kids -> valid d r ->
  exists fuel, solo fuel r d Start =
    match r with
    | Insert parent nm namelen n => dcache_insert d parent nm namelen n
    | Lookup parent nm namelen => dcache_lookup d parent nm namelen
    end.
Proof. intros I V. destruct r; [by eapply solo_insert|by eapply solo_lookup]. Qed.

(** Two threads that insert under a root with one child, each having read the
    old link before either writes, and publishing in the opposite order. *)
Definition tok_a : list byte := [x61].
Definition tok_b : list byte := [x62].

Definition race_reqs : list request := [Insert None (cstring tok_a) 1 13; Insert None (cstring tok_b) 1 14].

Definition race_sched : list nat := (repeat 0 6 ++ repeat 1 6 ++ [0; 1; 1; 0])%nat.

Definition race_cache : dcache := match one_child with Ret (_, d) => d | _ => dcache_start end.

Lemma race_cache_inv : one_child = Ret (Some 1%nat, race_cache) /\ (exists kids, dc_inv race_cache kids) /\ Forall (valid race_cache) race_reqs.
Proof.
  assert (one_child = Ret (Some 1%nat, race_cache)) as E by (vm_compute; reflexivity). split; [done|]. split.
  - destruct (init_root_spec 2) as (d & Hd & I & Hl & _); [done|].
    destruct (insert_refines d (fun _ => []) None tok_sub [NUL] 12 I) as (d' & H).
    + apply (inv_root _ _ I).
    + vm_compute. set_solver.
    + cbn. lia.
    + by rewrite Hl.
    + cbv zeta in H. destruct H as (Hr & I' & _). unfold one_child in E. rewrite Hd in E. cbn [mbind outcome_bind] in E.
      change (cstring tok_sub) with (tok_sub ++ [NUL]) in E. change 3 with (Z.of_nat (length tok_sub)) in E.
      rewrite Hr in E. injection E as _ E. rewrite E in I'. eauto.
  - assert (forall t n, text t -> valid race_cache (Insert None (cstring t) (Z.of_nat (length t)) n)) as Hv.
    { intros t n Ht. split; [by eexists|]. split; [by exists t, [NUL]|]. eexists. split; [vm_compute; reflexivity|done]. }
    constructor; [apply (Hv tok_a); vm_decide|]. constructor; [apply (Hv tok_b); vm_decide|constructor].
Qed.

Definition race_end : state :=
  match run race_sched (start race_cache race_reqs) with Ret s => s | _ => start race_cache race_reqs end.

Lemma race_end_run :
  run race_sched (start race_cache race_reqs) = Ret race_end /\
  (threads race_end).*2 = [Done (Some 2%nat); Done (Some 3%nat)].
Proof. split; vm_compute; reflexivity. Qed.

(** Entry 2 is the head, its ring is 1, 3, 1, 3, ... *)
Lemma race_end_heap tok c s :
  text tok -> tok ∉ [tok_sub; tok_a; tok_b] -> (c, s) ∈ [(2, 1); (1, 3); (3, 1)]%nat ->
  exists e, entries (cache race_end) !! c = Some e /\ siblings e = Some s /\
    entry_matches e (cstring tok) (Z.of_nat (length tok)) = Ret false.
Proof.
  intros Ht Hn Hcs. assert (forall e nm u, name e = nm ++ NUL :: u -> text nm -> nm ∈ [tok_sub; tok_a; tok_b] ->
    entry_matches e (cstring tok) (Z.of_nat (length tok)) = Ret false) as Hm.
  { intros e nm u Hu Hnm Hin. assert (until_nul (name e) = nm) as E by (rewrite Hu; by apply until_nul_app).
    unfold cstring. rewrite (entry_matches_text e tok [NUL] u) by (done || by rewrite E). rewrite E.
    by rewrite bool_decide_false by congruence. }
  rewrite !elem_of_cons, elem_of_nil in Hcs. destruct Hcs as [[= -> ->]|[[= -> ->]|[[= -> ->]|[]]]];
    (eexists; split; [vm_compute; reflexivity|split; [reflexivity|]]).
  - apply (Hm _ tok_a (repeat NUL 38)); [reflexivity|vm_decide|set_solver].
  - apply (Hm _ tok_sub (repeat NUL 36)); [reflexivity|vm_decide|set_solver].
  - apply (Hm _ tok_b (repeat NUL 38)); [reflexivity|vm_decide|set_solver].
Qed.

(** C13: the cache is not safe for threads in one respect: two insertions under
    the same parent can interleave so that both return their entries and the
    cache is left with a ring its head is not on; every later lookup under
    that parent of a name that is not cached then runs for ever. *)
Theorem dcache_race_hangs tok fuel :
  text tok -> tok ∉ [tok_sub; tok_a; tok_b] ->
  rtc step (start race_cache race_reqs) race_end /\ (threads race_end).*2 = [Done (Some 2%nat); Done (Some 3%nat)] /\
  solo fuel (Lookup None (cstring tok) (Z.of_nat (length tok))) (cache race_end) Start = OutOfFuel.
Proof.
  intros Ht Hn. destruct race_end_run as [Hrun Hdone]. split; [by eapply run_steps|]. split; [done|].
  assert (exists pe, entries (cache race_end) !! root = Some pe /\ childs pe = Some 2%nat) as (pe & Hp & Hc).
  { eexists. split; [vm_compute; reflexivity|reflexivity]. }
  assert (default root None = root) as Hr by done.
  destruct fuel as [|fuel]; [done|].
  erewrite solo_S; [|done|cbn [pstep lookup_step]; rewrite Hr, (entry_Ret _ _ _ Hp); reflexivity].
  rewrite Hc. destruct fuel as [|fuel]; [done|].
  erewrite solo_S; [|done|cbn [pstep lookup_step]; rewrite Hr, (entry_Ret _ _ _ Hp); cbn [mbind outcome_bind]; rewrite Hc; reflexivity].
  destruct fuel as [|fuel]; [done|].
  destruct (race_end_heap tok 2 1 Ht Hn ltac:(left)) as (e & He & Hs & Hm).
  erewrite solo_S; [|done|cbn [pstep lookup_step]; rewrite (entry_Ret _ _ _ He); cbn [mbind outcome_bind]; rewrite Hm; reflexivity].
  destruct fuel as [|fuel]; [done|].
  erewrite solo_S; [|done|cbn [pstep lookup_step]; rewrite (entry_Ret _ _ _ He); cbn [mbind outcome_bind]; rewrite Hs; reflexivity].
  apply (lookup_lost _ None _ _ pe 2%nat (fun c => c = 1%nat \/ c = 3%nat)); [done|done|lia| |by left].
  intros c [->| ->].
  - destruct (race_end_heap tok 1 3 Ht Hn ltac:(right; left)) as (e1 & H1 & H2 & H3). exists e1, 3%nat. split; [exact H1|]. split; [exact H2|]. split; [by right|exact H3].
  - destruct (race_end_heap tok 3 1 Ht Hn ltac:(right; right; left)) as (e1 & H1 & H2 & H3). exists e1, 1%nat. split; [exact H1|]. split; [exact H2|]. split; [by left|exact H3].
Qed.

(** ** Witnesses *)

Lemma dcache_threads_safe_witness :
  label (cache race_end) 2%nat = Some (tok_a, 13) /\ label (cache race_end) 3%nat = Some (tok_b, 14).
Proof.
  destruct race_cache_inv as (_ & (kids & I) & V). destruct race_end_run as [Hrun _].
  destruct (dcache_threads_safe race_cache kids race_reqs race_end I V (run_steps _ _ _ Hrun)) as (_ & _ & Hins & _).
  split.
  - refine (Hins 0%nat None (cstring tok_a) 1 13 (Some 2%nat) _). vm_compute. reflexivity.
  - refine (Hins 1%nat None (cstring tok_b) 1 14 (Some 3%nat) _). vm_compute. reflexivity.
Defined.

Lemma dcache_insert_wait_free_witness :
  exists s x, run (repeat 1%nat 3 ++ repeat 0%nat 8) (start race_cache race_reqs) = Ret s /\
    threads s !! 0%nat = Some (Insert None (cstring tok_a) 1 13, Done x).
Proof.
  destruct race_cache_inv as (_ & (kids & I) & V).
  destruct (dcache_insert_wait_free race_cache kids race_reqs (repeat 1%nat 3 ++ repeat 0%nat 8) I V) as (s & Hs & H).
  - cbn. repeat constructor; lia.
  - destruct (H 0%nat None (cstring tok_a) 1 13) as [x Hx]; [reflexivity|cbn; lia|]. exists s, x. split; [exact Hs|exact Hx].
Defined.

Lemma dcache_threads_sequential_witness :
  exists fuel, solo fuel (Insert None (cstring tok_a) 1 13) race_cache Start = dcache_insert race_cache None (cstring tok_a) 1 13.
Proof.
  destruct race_cache_inv as (_ & (kids & I) & V). apply Forall_cons in V as [V _].
  exact (dcache_threads_sequential race_cache kids (Insert None (cstring tok_a) 1 13) I V).
Defined.

Lemma dcache_race_hangs_witness :
  solo 1000 (Lookup None (cstring [x7a]) 1) (cache race_end) Start = OutOfFuel.
Proof.
  refine (proj2 (proj2 (dcache_race_hangs [x7a] 1000 _ _))); [vm_decide|vm_decide].
Defined.
