(* ===== verification/PathThreads.v ===== *)
(** * Path lookups on several threads ([inode_get_idx_by_path] of
      [src/fuse/inode.c] over the shared cache of [src/fuse/dcache.c])

    libfuse answers requests on several threads, and every request that names
    a path starts with [inode_get_idx_by_path].  Here any number of threads
    run it at the same time.  The dentry cache is all they share: a call of
    [dcache_lookup] or [dcache_insert] is the program of single accesses of
    [DcacheThreads]; between two accesses the code only reads the device and
    its own variables, which is one step. *)

From Stdlib Require Import Strings.Byte.
From stdpp Require Import relations functions.
From S2P Require Import Prelude Bytes CString Layout Disk Image Super Extents Inode Dcache Path DcacheThreads.

(** ** The program *)

(** Where a thread is, with its variables: [path] what is left of the path,
    [ret], [dc] the cache entry reached, [idx], [n] the inode number, [ino] the
    local inode. *)
Inductive walker :=
  | AtAssert (path : list byte)
  | AtCached (path : list byte) (next : option nat)
  | InLookup (path : list byte) (path_len : Z) (ret : option nat) (at_ : pc)
  | AtInode (path : list byte) (ret : option nat)
  | AtLoop (path : list byte) (idx : Z) (dc : option nat) (ino : list byte)
  | InInsert (path : list byte) (path_len n : Z) (dc : option nat) (ino : list byte) (at_ : pc)
  | AtStrchr (path : list byte) (n : Z) (dc : option nat) (ino : list byte)
  | Finished (n : Z).

(** One step of a thread whose uninitialised inode is [local]. *)
Definition walker_step (width fuel : nat) (f : fs) (local : list byte) (d : dcache) (w : walker)
    : outcome (dcache * walker) :=
  match w with
  | AtAssert path =>
      c ← char_at path 0; c_assert (IS_PATH_SEPARATOR c) ;; mret (d, AtCached path None)
  | AtCached path next =>
      c ← char_at path 0;
      let path := if bool_decide (c = SLASH) then drop 1 path else path in
      path_len ← get_path_token_len path;
      mret (d, if path_len =? 0 then AtInode path next else InLookup path path_len next Start)
  | InLookup path path_len ret (Done next) =>
      mret (d, match next with
               | None => AtInode path ret
               | Some _ => AtCached (drop (Z.to_nat path_len) path) next
               end)
  | InLookup path path_len ret at_ =>
      '(d, at_) ← lookup_step ret path path_len d at_; mret (d, InLookup path path_len ret at_)
  | AtInode path ret => idx ← dcache_get_inode d ret; mret (d, AtLoop path idx ret local)
  | AtLoop path idx dc ino =>
      path ← skip_trailing_backslash path;
      path_len ← get_path_token_len path;
      if path_len =? 0 then mret (d, Finished idx)
      else
        '(_, ino) ← inode_get_by_number f idx ino;
        dctx ← inode_dir_ctx_reset fuel f ino;
        found ← dir_search width fuel f ino 0 dctx path path_len;
        mret (d, match found with
                 | None => Finished 0
                 | Some n => if S_ISDIR (i_mode ino) then InInsert path path_len n dc ino Start
                             else AtStrchr path n dc ino
                 end)
  | InInsert path path_len n dc ino (Done new) => mret (d, AtStrchr path n new ino)
  | InInsert path path_len n dc ino at_ =>
      '(d, at_) ← insert_step dc path path_len n d at_; mret (d, InInsert path path_len n dc ino at_)
  | AtStrchr path n dc ino =>
      next ← strchr path SLASH;
      mret (d, match next with None => Finished n | Some path => AtLoop path n dc ino end)
  | Finished n => mret (d, w)
  end.

Record system := System { shared : dcache; walkers : list walker }.

Definition system_start (d : dcache) (paths : list (list byte)) : system := System d ((fun p => AtAssert (cstring p)) <$> paths).

Inductive system_step (width fuel : nat) (f : fs) (local : list byte) : system -> system -> Prop :=
  | system_step_at s i w d' w' :
      walkers s !! i = Some w -> walker_step width fuel f local (shared s) w = Ret (d', w') ->
      system_step width fuel f local s (System d' (<[i := w']> (walkers s))).

(** A schedule: the thread that steps next. *)
Fixpoint system_run (width fuel : nat) (f : fs) (local : list byte) (sched : list nat) (s : system) : outcome system :=
  match sched with
  | [] => mret s
  | i :: sched =>
      w ← from_option_undef (walkers s !! i);
      '(d, w) ← walker_step width fuel f local (shared s) w;
      system_run width fuel f local sched (System d (<[i := w]> (walkers s)))
  end.

Lemma system_run_steps width fuel f local sched s s' :
  system_run width fuel f local sched s = Ret s' -> rtc (system_step width fuel f local) s s'.
Proof.
  revert s. induction sched as [|i sched IH]; intros s H; cbn in H; [injection H as ->; constructor|].
  destruct (walkers s !! i) as [w|] eqn:E; [|done]. cbn [from_option_undef mbind outcome_bind] in H.
  apply bind_Ret in H as ([d w'] & Hp & H). eapply rtc_l; [by econstructor|]. by apply IH.
Qed.

(** ** What the cache says of the image *)

(** As [cache_ok], for links that need not be rings: every entry is the
    directory entry of its parent's inode. *)
Record shared_ok (dirs : Z -> option (list dentry)) (K : nat -> nat -> Prop) (d : dcache) : Prop := {
  sh_heap : heap_ok K d;
  sh_root : fmap snd (label d root) = Some ROOT_INODE_N;
  sh_parent c p : K c p -> is_Some (entries d !! p);
  sh_child p c kp nm kc : K c p -> fmap snd (label d p) = Some kp -> label d c = Some (nm, kc) ->
    exists es, dirs kp = Some es /\ find_entry es nm = Some kc }.

Lemma points_mono K d K' d' next k : extends K d K' d' -> points d next k -> points d' next k.
Proof.
  intros X. unfold points. destruct (label d (default root next)) as [l|] eqn:E; [|done].
  by rewrite (ex_label_Some _ _ _ _ _ _ X E).
Qed.

(** The insertions a walker can make. *)
Definition inserts (dirs : Z -> option (list dentry)) (d : dcache) (r : request) : Prop :=
  match r with
  | Insert dc nm namelen n => exists k es, points d dc k /\ dirs k = Some es /\
      find_entry es (take (Z.to_nat namelen) nm) = Some n
  | Lookup _ _ _ => True
  end.

(** A step inside of the cache keeps it true to the image. *)
Lemma good_shared dirs K d r o :
  shared_ok dirs K d -> valid d r -> inserts dirs d r -> good K d r o ->
  exists K' d' at', o = Ret (d', at') /\ shared_ok dirs K' d' /\ extends K d K' d' /\ pc_ok K' d' r at'.
Proof.
  intros [H Hroot Hpar Hch] V Hins (K' & d' & at' & -> & H' & X & O & Hk). exists K', d', at'.
  split; [done|]. split; [|done]. split; [done| | |].
  - destruct (label d root) as [l|] eqn:E; [|done]. by rewrite (ex_label_Some _ _ _ _ _ _ X E).
  - intros c p HK. eapply ex_present; [exact X|]. destruct (Hk c p HK) as [HK0|[-> _]]; [by eapply Hpar|]. apply V.
  - intros p c kp nm kc HK Hp Hc. destruct (Hk c p HK) as [HK0|[-> Hm]].
    + rewrite (ex_label _ _ _ _ X) in Hc by (by eapply (ho_dom _ _ H)).
      rewrite (ex_label _ _ _ _ X) in Hp by (by eapply Hpar). by apply (Hch p c).
    + destruct r as [dc nm' namelen n|]; [|done]. destruct Hm as [Hl _], Hins as (k & es & Hpt & Hd & Hf).
      apply (points_mono _ _ _ _ _ _ X) in Hpt. unfold points in Hpt. cbn [parent_of] in Hp.
      rewrite Hl in Hc. injection Hc as <- <-. assert (kp = k) as -> by congruence. eauto.
Qed.

(** ** Where a walker is on its way to the answer [r] *)

(** Components FUSE can send and the cache can hold. *)
Definition good_path (p : list byte) : Prop :=
  text p /\ Forall (fun t => (length t <= 255)%nat) (tokens p) /\
  Forall (fun t => (length t <= 39)%nat) (removelast (tokens p)).

(** [path] starts with the component [t] of length [path_len]. *)
Record component_at (path : list byte) (path_len : Z) (t rest : list byte) : Prop := {
  ca_path : path = t ++ cstring rest;
  ca_len : path_len = Z.of_nat (length t);
  ca_slash : SLASH ∉ t;
  ca_text : text t;
  ca_some : t <> [];
  ca_255 : (length t <= 255)%nat;
  ca_ends : ends rest;
  ca_rest : good_path rest;
  ca_39 : tokens rest = [] \/ (length t <= 39)%nat }.

Lemma component_split p t rest :
  good_path p -> p = t ++ rest -> SLASH ∉ t -> ends rest -> t <> [] ->
  component_at (cstring p) (Z.of_nat (length t)) t rest /\ tokens p = t :: tokens rest.
Proof.
  intros (Ht & H255 & H39) -> Hs He Hne. apply text_app in Ht as [Ht Hr].
  rewrite (tokens_app t rest) in * by done. split; [|done]. apply Forall_cons in H255 as [? ?].
  destruct (tokens rest) as [|t2 ts] eqn:E.
  - split; try done; [by rewrite cstring_app| |by left]. split; [done|]. by rewrite E.
  - change (removelast (t :: t2 :: ts)) with (t :: removelast (t2 :: ts)) in H39. apply Forall_cons in H39 as [? ?].
    split; try done; [by rewrite cstring_app| |by right]. split; [done|]. by rewrite E.
Qed.

Section Walkers.
Context (fuel : nat) (f : fs) (dirs : Z -> option (list dentry)) (width : nat) (local : list byte).
Context {T : DirTree fuel f dirs width}.
Hypothesis G : geometry f.
Hypothesis Hlocal : length local = 156%nat.

Definition walker_ok (K : nat -> nat -> Prop) (d : dcache) (r : Z) (w : walker) : Prop :=
  match w with
  | AtAssert path => exists p, path = cstring p /\ head p = Some SLASH /\ good_path p /\
      resolve dirs ROOT_INODE_N (tokens p) = Some r
  | AtCached path next | AtInode path next => exists p k, path = cstring p /\ good_path p /\
      points d next k /\ resolve dirs k (tokens p) = Some r
  | InLookup path path_len ret at_ => exists t rest k, component_at path path_len t rest /\
      points d ret k /\ resolve dirs k (t :: tokens rest) = Some r /\
      valid d (Lookup ret path path_len) /\ pc_ok K d (Lookup ret path path_len) at_
  | AtLoop path idx dc ino => exists p, path = cstring p /\ good_path p /\
      resolve dirs idx (tokens p) = Some r /\ (tokens p = [] \/ points d dc idx) /\ length ino = 156%nat
  | InInsert path path_len n dc ino at_ => exists t rest k es, component_at path path_len t rest /\
      points d dc k /\ dirs k = Some es /\ find_entry es t = Some n /\ resolve dirs n (tokens rest) = Some r /\
      length ino = 156%nat /\ valid d (Insert dc path path_len n) /\ pc_ok K d (Insert dc path path_len n) at_
  | AtStrchr path n dc ino => exists path_len t rest, component_at path path_len t rest /\
      resolve dirs n (tokens rest) = Some r /\ (tokens rest = [] \/ points d dc n) /\ length ino = 156%nat
  | Finished n => n = r
  end.

Lemma walker_ok_mono K d K' d' r w : extends K d K' d' -> walker_ok K d r w -> walker_ok K' d' r w.
Proof.
  intros X.
  assert (forall next k, points d next k -> points d' next k) as HP by (intros; by eapply points_mono).
  destruct w; cbn; try done.
  (* AtCached *)
  - intros (p & k & ? & ? & ? & ?). exists p, k. auto.
  - intros (t & rest & k & ? & ? & ? & ? & ?). exists t, rest, k. eauto 8 using valid_mono, pc_ok_mono.
  - intros (p & k & ? & ? & ? & ?). exists p, k. auto.
  - intros (p & ? & ? & ? & Hp & ?). exists p. intuition auto.
  - intros (t & rest & k & es & ? & ? & ? & ? & ? & ? & ? & ?). exists t, rest, k, es. eauto 12 using valid_mono, pc_ok_mono.
  - intros (l & t & rest & ? & ? & Hp & ?). exists l, t, rest. intuition auto.
Qed.

(** ** One step *)

Definition walker_good (K : nat -> nat -> Prop) (d : dcache) (r : Z) (o : outcome (dcache * walker)) : Prop :=
  exists K' d' w', o = Ret (d', w') /\ shared_ok dirs K' d' /\ extends K d K' d' /\ walker_ok K' d' r w'.

Section Step.
Context (K : nat -> nat -> Prop) (d : dcache) (r : Z).
Hypothesis SH : shared_ok dirs K d.

Lemma walker_good_read w' : walker_ok K d r w' -> walker_good K d r (mret (d, w')).
Proof. intros O. exists K, d, w'. split; [done|]. split; [done|]. split; [apply extends_refl|done]. Qed.

(** The top of the loop of [get_cached_inode_num]. *)
Lemma cached_step path next : walker_ok K d r (AtCached path next) -> walker_good K d r (walker_step width fuel f local d (AtCached path next)).
Proof.
  intros (p & k & -> & Hg & Hp & Hres). cbn [walker_step].
  assert (exists q, (c ← char_at (cstring p) 0; Ret (if bool_decide (c = SLASH) then drop 1 (cstring p) else cstring p))
            = Ret (cstring q) /\ text q /\ tokens q = tokens p) as (q & Hq & Htq & Etq).
  { destruct p as [|x p]; [exists []; split; [done|split; [apply text_nil|done]]|]. change (char_at (cstring (x :: p)) 0) with (Ret x).
    cbn [mbind outcome_bind]. pose proof (proj1 Hg) as Hx. apply text_cons in Hx as Hx'.
    destruct (bool_decide_reflect (x = SLASH)) as [->|]; [exists p; rewrite tokens_slash; by destruct Hx'|by exists (x :: p)]. }
  destruct (char_at (cstring p) 0) as [c| | |]; try discriminate. cbn [mbind outcome_bind] in *.
  injection Hq as Hq. rewrite Hq. assert (good_path q) as Hgq by (unfold good_path in *; rewrite Etq; tauto).
  rewrite <- Etq in Hres. clear Etq Hq Hg. destruct (split_token q) as (t & rest & -> & Hs & He).
  assert (length t <= 255)%nat as H255.
  { destruct Hgq as (_ & H & _). destruct t as [|x t]; [cbn; lia|]. rewrite tokens_app in H by done. by inversion H. }
  apply text_app in Htq as [Htt _]. rewrite token_len by done. cbn [mbind outcome_bind].
  apply walker_good_read. destruct (Z.eqb_spec (Z.of_nat (length t)) 0) as [E|E].
  - exists (t ++ rest), k. done.
  - assert (t <> []) as Hne by (by intros ->). destruct (component_split _ t rest Hgq eq_refl Hs He Hne) as [Hc Et].
    rewrite Et in Hres. exists t, rest, k. split; [done|]. split; [done|]. split; [done|]. split; [|done].
    split; [by eapply points_entry|]. exists t, (cstring rest). split; [apply Hc|done].
Qed.

Lemma lookup_done path path_len ret x :
  walker_ok K d r (InLookup path path_len ret (Done x)) ->
  walker_good K d r (walker_step width fuel f local d (InLookup path path_len ret (Done x))).
Proof.
  intros (t & rest & k & Hc & Hp & Hres & V & O). cbn [walker_step]. apply walker_good_read.
  destruct x as [c|].
  - destruct O as [[]|[Hn HK]]. cbn in HK. rewrite (ca_path _ _ _ _ Hc), (ca_len _ _ _ _ Hc), Nat2Z.id in *.
    rewrite take_app_length in Hn. rewrite drop_app_length. unfold has_name in Hn.
    destruct (label d c) as [[nm kc]|] eqn:El; simplify_eq/=.
    destruct (sh_child _ _ _ SH _ c k t kc HK Hp El) as (es & Hdir & Hf). rewrite Hdir, Hf in Hres.
    exists rest, kc. split; [done|]. split; [apply Hc|]. split; [|done]. unfold points. cbn. by rewrite El.
  - exists (t ++ rest), k. split; [by rewrite (ca_path _ _ _ _ Hc), cstring_app|].
    assert (tokens (t ++ rest) = t :: tokens rest) as Et by (apply tokens_app; apply Hc). rewrite Et.
    split; [|done]. destruct (ca_rest _ _ _ _ Hc) as (H1 & H2 & H3). split; [|split].
    + apply text_app. split; [apply Hc|done].
    + rewrite Et. constructor; [apply Hc|done].
    + rewrite Et. destruct (tokens rest) as [|t2 ts] eqn:E; [constructor|].
      change (removelast (t :: t2 :: ts)) with (t :: removelast (t2 :: ts)). constructor; [|done].
      by destruct (ca_39 _ _ _ _ Hc) as [H|H]; [rewrite E in H|].
Qed.

(** A step of [dcache_lookup] or [dcache_insert]. *)
Lemma lookup_access path path_len ret at_ :
  (if at_ is Done _ then False else True) -> walker_ok K d r (InLookup path path_len ret at_) ->
  walker_good K d r (walker_step width fuel f local d (InLookup path path_len ret at_)).
Proof.
  intros Hat (t & rest & k & Hc & Hp & Hres & V & O).
  destruct (good_shared dirs K d _ _ SH V I (lookup_step_ok K d ret path path_len at_ (sh_heap _ _ _ SH) V O))
    as (K' & d' & at' & E & SH' & X & O').
  exists K', d', (InLookup path path_len ret at'). split; [destruct at_; try done; cbn [walker_step]; by rewrite E|].
  split; [done|]. split; [done|]. exists t, rest, k. eauto 8 using points_mono, valid_mono.
Qed.

Lemma insert_access path path_len n dc ino at_ :
  (if at_ is Done _ then False else True) -> walker_ok K d r (InInsert path path_len n dc ino at_) ->
  walker_good K d r (walker_step width fuel f local d (InInsert path path_len n dc ino at_)).
Proof.
  intros Hat (t & rest & k & es & Hc & Hp & Hd & Hf & Hres & Hino & V & O).
  assert (inserts dirs d (Insert dc path path_len n)) as Hins.
  { exists k, es. rewrite (ca_path _ _ _ _ Hc), (ca_len _ _ _ _ Hc), Nat2Z.id, take_app_length. done. }
  destruct (good_shared dirs K d _ _ SH V Hins (insert_step_ok K d dc path path_len n at_ (sh_heap _ _ _ SH) V O))
    as (K' & d' & at' & E & SH' & X & O').
  exists K', d', (InInsert path path_len n dc ino at'). split; [destruct at_; try done; cbn [walker_step]; by rewrite E|].
  split; [done|]. split; [done|]. exists t, rest, k, es. eauto 12 using points_mono, valid_mono.
Qed.

Lemma insert_done path path_len n dc ino x :
  walker_ok K d r (InInsert path path_len n dc ino (Done x)) ->
  walker_good K d r (walker_step width fuel f local d (InInsert path path_len n dc ino (Done x))).
Proof.
  intros (t & rest & k & es & Hc & Hp & Hd & Hf & Hres & Hino & V & O). cbn [walker_step]. apply walker_good_read.
  exists path_len, t, rest. split; [done|]. split; [done|]. split; [|done]. destruct x as [c|]; cbn [pc_ok] in O.
  - right. destruct O as [[Hl _]|[]]. unfold points. cbn. by rewrite Hl.
  - destruct (ca_39 _ _ _ _ Hc) as [|H39]; [by left|]. rewrite (ca_len _ _ _ _ Hc) in O. unfold DCACHE_ENTRY_NAME_LEN in O. lia.
Qed.

(** One round of the loop over the components. *)
Lemma loop_step path idx dc ino :
  walker_ok K d r (AtLoop path idx dc ino) -> walker_good K d r (walker_step width fuel f local d (AtLoop path idx dc ino)).
Proof.
  intros (p & -> & Hg & Hres & Hp & Hino). cbn [walker_step].
  destruct (skip_spec p (proj1 Hg)) as (t & rest & -> & Hs & He & Hnil & Etok & Htx & _). cbn [mbind outcome_bind].
  assert (good_path (t ++ rest)) as Hg' by (unfold good_path in *; rewrite <- Etok; tauto).
  destruct t as [|x t].
  { specialize (Hnil eq_refl). subst rest. rewrite Etok in Hres. change (Some idx = Some r) in Hres.
    apply walker_good_read. cbn. by injection Hres. }
  remember (x :: t) as t0 eqn:Ex. assert (t0 <> []) as Hne by (by subst). clear Ex x t. rename t0 into t.
  destruct (component_split _ t rest Hg' eq_refl Hs He Hne) as [Hc Et]. rewrite Etok, Et in *.
  rewrite token_len by (done || apply Hc). cbn [mbind outcome_bind].
  rewrite (proj2 (Z.eqb_neq _ _)) by (destruct t; cbn; [done|lia]).
  destruct Hp as [|Hp]; [done|]. cbn [resolve] in Hres. destruct (dirs idx) as [es|] eqn:Hdir; [|done].
  destruct (dirs_inode idx es ino Hdir Hino) as (i & -> & Hi & Hisdir & Hsz & (ctx & Hctx) & Hfrom).
  cbn [mbind outcome_bind]. rewrite Hctx. cbn [mbind outcome_bind]. rewrite (ca_path _ _ _ _ Hc).
  rewrite (dir_search_spec fuel f i t (cstring rest) 0 es ctx width G Hsz);
    [|lia|done|by apply dir_ctx_update_lblock in Hctx as [_ ?]|by eapply dirs_width].
  cbn [mbind outcome_bind]. apply walker_good_read. rewrite Hisdir. rewrite (ca_path _ _ _ _ Hc) in Hc.
  destruct (find_entry es t) as [n|] eqn:Hf; [|cbn; by injection Hres].
  exists t, rest, idx, es. do 6 (split; [done|]). split; [|done]. split; [by eapply points_entry|].
  split; [exists t, (cstring rest); split; [done|split; [apply Hc|done]]|].
  pose proof (sh_root _ _ _ SH) as Hroot. destruct (label d root) as [l|]; [|done]. exists l. split; [done|].
  intros _. injection Hroot as ->. done.
Qed.

Lemma strchr_step path n dc ino :
  walker_ok K d r (AtStrchr path n dc ino) -> walker_good K d r (walker_step width fuel f local d (AtStrchr path n dc ino)).
Proof.
  intros (path_len & t & rest & Hc & Hres & Hp & Hino). cbn [walker_step].
  rewrite (ca_path _ _ _ _ Hc), <- cstring_app, strchr_ends by (try apply Hc; apply text_app; split; apply Hc).
  cbn [mbind outcome_bind]. apply walker_good_read. destruct (ca_ends _ _ _ _ Hc) as [->|[rest' E]].
  - change (Some n = Some r) in Hres. cbn. by injection Hres.
  - rewrite E. rewrite <- E. exists rest. split; [done|]. split; [apply Hc|done].
Qed.

Lemma walker_step_ok w : walker_ok K d r w -> walker_good K d r (walker_step width fuel f local d w).
Proof.
  intros O. destruct w as [path|path next|path path_len ret at_|path ret|path idx dc ino|path path_len n dc ino at_|path n dc ino|n].
  - destruct O as (p & -> & Hh & Hg & Hres). destruct p as [|x p]; [done|]. injection Hh as ->. cbn [walker_step].
    change (char_at (cstring (SLASH :: p)) 0) with (Ret SLASH). cbn [mbind outcome_bind].
    change (c_assert (IS_PATH_SEPARATOR SLASH)) with (Ret tt). cbn [mbind outcome_bind]. apply walker_good_read.
    exists (SLASH :: p), ROOT_INODE_N. split; [done|]. split; [done|]. split; [apply (sh_root _ _ _ SH)|done].
  - by apply cached_step.
  - destruct at_; try (by apply lookup_access). by apply lookup_done.
  - destruct O as (p & k & -> & Hg & Hp & Hres). cbn [walker_step].
    assert (dcache_get_inode d ret = Ret k) as ->.
    { unfold dcache_get_inode. unfold points, label in Hp.
      destruct (entries d !! default root ret) as [e|] eqn:E; simplify_eq/=. by rewrite (entry_Ret _ _ _ E). }
    cbn [mbind outcome_bind]. apply walker_good_read. exists p. split; [done|]. split; [done|]. split; [done|]. split; [by right|done].
  - by apply loop_step.
  - destruct at_; try (by apply insert_access). by apply insert_done.
  - by apply strchr_step.
  - by apply walker_good_read.
Qed.
End Step.

(** ** All threads *)

Record system_ok (K : nat -> nat -> Prop) (answers : list Z) (s : system) : Prop := {
  sy_shared : shared_ok dirs K (shared s);
  sy_walkers : Forall2 (walker_ok K (shared s)) answers (walkers s) }.

Lemma system_start_ok d kids paths answers :
  cache_ok dirs d kids -> Forall path_ok paths ->
  Forall2 (fun p r => resolve dirs ROOT_INODE_N (tokens p) = Some r) paths answers ->
  system_ok (fun c p => c ∈ kids p) answers (system_start d paths).
Proof.
  intros [I Hroot Hch] Hp Ha. split; cbn.
  - split; [by apply (th_heap _ _ _ _ _ (threads_start_ok d kids [] I (Forall_nil_2 _)))|done| |exact Hch].
    intros c p Hc. by apply (inv_kids _ _ I) in Hc as [_ ?].
  - apply Forall2_fmap_r. induction Ha as [|p r paths answers Hr _ IH]; [constructor|].
    apply Forall_cons in Hp as [(Hh & Ht & H255 & H39) Hp]. constructor; [|by apply IH].
    exists p. done.
Qed.

(** A thread always has a step, and the invariant survives it. *)
Lemma system_thread_step K answers s i w :
  system_ok K answers s -> walkers s !! i = Some w ->
  exists K' d' w', walker_step width fuel f local (shared s) w = Ret (d', w') /\
    system_ok K' answers (System d' (<[i := w']> (walkers s))).
Proof.
  intros [SH Hw] Hi. destruct (Forall2_lookup_r _ _ _ _ _ Hw Hi) as (r & Hr & O).
  destruct (walker_step_ok K (shared s) r SH w O) as (K' & d' & w' & E & SH' & X & O').
  exists K', d', w'. split; [done|]. split; cbn; [done|].
  rewrite <- (list_insert_id answers i r) by done. apply Forall2_insert; [|done].
  eapply Forall2_impl; [exact Hw|]. intros r2 w2. by apply walker_ok_mono.
Qed.

Lemma system_steps_ok K answers s s' :
  system_ok K answers s -> rtc (system_step width fuel f local) s s' -> exists K', system_ok K' answers s'.
Proof.
  intros O R. revert K O. induction R as [s|s s1 s2 St _ IH]; intros K O; [by exists K|].
  destruct St as [s i w d' w' Hi Hp].
  destruct (system_thread_step K answers s i w O Hi) as (K' & d2 & w2 & E & O'). rewrite Hp in E. injection E as <- <-.
  by apply (IH K').
Qed.
End Walkers.

(** ** One thread alone runs the function of [Path] *)

Section Alone.
Context (width fuel : nat) (f : fs) (local : list byte).

Fixpoint walker_alone (n : nat) (d : dcache) (w : walker) : outcome (Z * dcache) :=
  match w with
  | Finished r => mret (r, d)
  | _ =>
      match n with
      | O => OutOfFuel
      | S n => '(d, w) ← walker_step width fuel f local d w; walker_alone n d w
      end
  end.

Definition reaches (d : dcache) (w : walker) (x : Z * dcache) : Prop := exists n, walker_alone n d w = Ret x.

Lemma reaches_step d w d' w' x :
  walker_step width fuel f local d w = Ret (d', w') -> reaches d' w' x -> reaches d w x.
Proof.
  intros E [n H]. destruct w as [| | | | | | |r]; try (exists (S n); cbn [walker_alone]; by rewrite E).
  cbn in E. injection E as <- <-. by exists n.
Qed.

Lemma reaches_lookup m path path_len ret d at_ y d' x :
  solo m (Lookup ret path path_len) d at_ = Ret (y, d') -> reaches d' (InLookup path path_len ret (Done y)) x ->
  reaches d (InLookup path path_len ret at_) x.
Proof.
  revert d at_. induction m as [|m IH]; intros d at_ H Hr.
  { destruct at_; try done. by injection H as <- <-. }
  destruct at_; try (by injection H as <- <-); cbn [solo] in H; apply bind_Ret in H as ([d2 at2] & Hs & H);
    (eapply reaches_step; [cbn [walker_step]; cbn [pstep] in Hs; rewrite Hs; reflexivity|by apply IH]).
Qed.

Lemma reaches_insert m path path_len n dc ino d at_ y d' x :
  solo m (Insert dc path path_len n) d at_ = Ret (y, d') -> reaches d' (InInsert path path_len n dc ino (Done y)) x ->
  reaches d (InInsert path path_len n dc ino at_) x.
Proof.
  revert d at_. induction m as [|m IH]; intros d at_ H Hr.
  { destruct at_; try done. by injection H as <- <-. }
  destruct at_; try (by injection H as <- <-); cbn [solo] in H; apply bind_Ret in H as ([d2 at2] & Hs & H);
    (eapply reaches_step; [cbn [walker_step]; cbn [pstep] in Hs; rewrite Hs; reflexivity|by apply IH]).
Qed.

(** [calloc] hands out cells not in use. *)
Definition fresh_next (d : dcache) : Prop := forall c, is_Some (entries d !! c) -> (c < next d)%nat.

Lemma fresh_update d p e e0 : fresh_next d -> entries d !! p = Some e0 -> fresh_next (update p e d).
Proof. intros F He c. unfold update. cbn. rewrite lookup_insert_is_Some'. intros [<-|?]; apply F; eauto. Qed.

Lemma fresh_alloc d e : fresh_next d -> fresh_next (Dcache (<[next d := e]> (entries d)) (S (next d))).
Proof. intros F c. cbn. rewrite lookup_insert_is_Some'. intros [<-|H%F]; lia. Qed.

Lemma fresh_lookup d parent nm namelen x d' :
  fresh_next d -> dcache_lookup d parent nm namelen = Ret (x, d') -> fresh_next d'.
Proof.
  intros F H. unfold dcache_lookup in H. apply bind_Ret in H as (p & Hp%entry_inv & H).
  destruct (childs p); [|by injection H as <- <-]. apply bind_Ret in H as ([y|] & _ & H); injection H as <- <-; [|done].
  by eapply fresh_update.
Qed.

Lemma fresh_insert d parent nm namelen n x d' :
  fresh_next d -> dcache_insert d parent nm namelen n = Ret (x, d') -> fresh_next d'.
Proof.
  intros F H. unfold dcache_insert in H. destruct (_ <? _); [by injection H as <- <-|].
  apply bind_Ret in H as (re & _ & H). apply bind_Ret in H as ([] & _ & H). apply bind_Ret in H as (bs & _ & H).
  apply bind_Ret in H as (p & Hp%entry_inv & H).
  assert (forall e, entries (Dcache (<[next d := e]> (entries d)) (S (next d))) !! default root parent = Some p) as Hp'.
  { intros e. cbn. rewrite lookup_insert_ne; [done|]. intros E. assert (next d < next d)%nat by (apply F; rewrite E; eauto). lia. }
  destruct (childs p) as [c|].
  - apply bind_Ret in H as (ce & Hce%entry_inv & H). apply bind_Ret in H as (p2 & Hp2%entry_inv & H). injection H as <- <-.
    eapply fresh_update; [|exact Hp2]. eapply (fresh_update _ _ _ ce); [by apply fresh_alloc|]. cbn.
    rewrite lookup_insert_ne; [done|]. intros E. assert (next d < next d)%nat by (apply F; rewrite E; eauto). lia.
  - injection H as <- <-. eapply fresh_update; [by apply fresh_alloc|apply Hp'].
Qed.

Lemma cached_alone rounds d path next path' ret d' x :
  fresh_next d -> cached_loop rounds d path next = Ret (path', ret, d') ->
  (fresh_next d' -> reaches d' (AtInode path' ret) x) -> reaches d (AtCached path next) x.
Proof.
  intros F H Hx. revert d path next F H. induction rounds as [|rounds IH]; intros d path next F H; [done|].
  cbn [cached_loop] in H. apply bind_Ret in H as (c & Hc & H). apply bind_Ret in H as (len & Hlen & H).
  eapply reaches_step; [cbn [walker_step]; rewrite Hc; cbn [mbind outcome_bind]; rewrite Hlen; reflexivity|].
  destruct (len =? 0); [injection H as <- <- <-; by apply Hx|].
  apply bind_Ret in H as ([y d2] & Hl & H). pose proof (fresh_lookup _ _ _ _ _ _ F Hl) as F2.
  apply solo_lookup_Ret in Hl as [m Hm]. eapply reaches_lookup; [exact Hm|].
  destruct y as [y|]; (eapply reaches_step; [reflexivity|]); [by apply IH|injection H as <- <- <-; by apply Hx].
Qed.

Lemma loop_alone rounds d path idx dc ino r d' :
  fresh_next d -> path_loop rounds width fuel f path idx dc d ino = Ret (r, d') -> reaches d (AtLoop path idx dc ino) (r, d').
Proof.
  revert d path idx dc ino. induction rounds as [|rounds IH]; intros d path idx dc ino F H; [done|].
  cbn [path_loop] in H. apply bind_Ret in H as (q & Hq & H). apply bind_Ret in H as (len & Hlen & H).
  destruct (len =? 0) eqn:E0.
  { injection H as <- <-. apply (reaches_step d _ d (Finished idx)); [|by exists 0%nat]. cbn [walker_step]. rewrite Hq.
    cbn [mbind outcome_bind]. rewrite Hlen. cbn [mbind outcome_bind]. by rewrite E0. }
  apply bind_Ret in H as ([z i] & Hi & H). apply bind_Ret in H as (ctx & Hctx & H). apply bind_Ret in H as (found & Hf & H).
  eapply reaches_step.
  { cbn [walker_step]. rewrite Hq. cbn [mbind outcome_bind]. rewrite Hlen. cbn [mbind outcome_bind]. rewrite E0, Hi.
    cbn [mbind outcome_bind]. rewrite Hctx. cbn [mbind outcome_bind]. rewrite Hf. reflexivity. }
  destruct found as [n|]; [|injection H as <- <-; by exists 0%nat].
  apply bind_Ret in H as ([dc2 d2] & Hins & H). apply bind_Ret in H as (nx & Hnx & H).
  assert (fresh_next d2 -> reaches d2 (AtStrchr q n dc2 i) (r, d')) as Hrest.
  { intros F2. eapply reaches_step; [cbn [walker_step]; rewrite Hnx; reflexivity|].
    destruct nx as [p2|]; [by apply IH|]. injection H as <- <-. by exists 0%nat. }
  destruct (S_ISDIR (i_mode i)); [|injection Hins as <- <-; by apply Hrest].
  pose proof (fresh_insert _ _ _ _ _ _ _ F Hins) as F2.
  assert (entries d !! next d = None) as Hn by (apply eq_None_not_Some; intros Hx%F; lia).
  apply (solo_insert_Ret _ _ _ _ _ _ _ Hn) in Hins. eapply reaches_insert; [exact Hins|].
  eapply reaches_step; [reflexivity|]. by apply Hrest.
Qed.
End Alone.

(** a thread that runs alone is [inode_get_idx_by_path]: when the function
    answers, the thread finishes with the same answer and the same cache. *)
Theorem walker_alone_is_lookup rounds width fuel f local d path r d' :
  fresh_next d -> inode_get_idx_by_path rounds width fuel f local d path = Ret (r, d') ->
  exists n, walker_alone width fuel f local n d (AtAssert path) = Ret (r, d').
Proof.
  intros F H. unfold inode_get_idx_by_path in H. apply bind_Ret in H as (c & Hc & H). apply bind_Ret in H as ([] & Hass & H).
  apply bind_Ret in H as ([[p ret] d2] & Hcl & H). apply bind_Ret in H as (idx & Hidx & H).
  change (reaches width fuel f local d (AtAssert path) (r, d')).
  eapply reaches_step; [cbn [walker_step]; rewrite Hc; cbn [mbind outcome_bind]; rewrite Hass; reflexivity|].
  eapply cached_alone; [done|exact Hcl|]. intros F2. eapply reaches_step; [cbn [walker_step]; rewrite Hidx; reflexivity|].
  by eapply loop_alone.
Qed.

(** ** Many threads *)

(** C4: path lookups on any number of threads at once.  Whatever the
    interleaving, starting from a cache that is consistent with the image: no
    thread fails an assertion or follows a bad pointer, each can always take
    another step until it has finished, and a thread that has finished has the
    answer [resolve] gives for its path -- what the others insert, their races
    included, never makes a lookup wrong.  (It can make one run for ever, see
    [dcache_race_hangs].) *)
Theorem concurrent_lookups_correct fuel f dirs width local d kids paths answers s :
  DirTree fuel f dirs width -> geometry f -> length local = 156%nat ->
  cache_ok dirs d kids -> Forall path_ok paths ->
  Forall2 (fun p r => resolve dirs ROOT_INODE_N (tokens p) = Some r) paths answers ->
  rtc (system_step width fuel f local) (system_start d paths) s ->
  (forall i w, walkers s !! i = Some w -> returns (walker_step width fuel f local (shared s) w)) /\
  (forall i n, walkers s !! i = Some (Finished n) -> answers !! i = Some n).
Proof.
  intros T G Hl Hc Hp Ha R.
  destruct (system_steps_ok fuel f dirs width local G Hl _ answers _ s (system_start_ok dirs d kids paths answers Hc Hp Ha) R) as (K & O).
  split.
  - intros i w Hi. destruct (system_thread_step fuel f dirs width local G Hl K answers s i w O Hi) as (_ & d' & w' & E & _). by eexists.
  - intros i n Hi. destruct (Forall2_lookup_r _ _ _ _ _ (sy_walkers _ _ _ _ O) Hi) as (r & Hr & E). cbn in E. by subst.
Qed.

(** Two lookups below the same directory and a third, on a fresh cache, one
    access of each in turn: the two insertions of [/sub] race. *)
Definition racing_paths : list (list byte) :=
  [bytes_of_string "/sub/ext"; bytes_of_string "/sub/ext"; bytes_of_string "/hello"].

Definition in_turn : list nat := concat (repeat [0; 1; 2]%nat 40).

Lemma concurrent_lookups_correct_witness :
  exists d s, inode_init dcache_start = Ret (d, 0) /\
    system_run 8 1 sample_fs (repeat x00 156) in_turn (system_start d racing_paths) = Ret s /\
    walkers s = [Finished 14; Finished 14; Finished 13] /\
    (forall i n, walkers s !! i = Some (Finished n) -> [14; 14; 13] !! i = Some n).
Proof.
  destruct (fresh_cache_ok sample_dirs) as (d & kids & Hd & Hok).
  assert (exists s, system_run 8 1 sample_fs (repeat x00 156) in_turn (system_start d racing_paths) = Ret s /\
    walkers s = [Finished 14; Finished 14; Finished 13]) as (s & Hs & Hw).
  { injection Hd as <-. eexists. split; vm_compute; reflexivity. }
  exists d, s. split; [exact Hd|]. split; [exact Hs|]. split; [exact Hw|].
  destruct (concurrent_lookups_correct 1 sample_fs sample_dirs 8 (repeat x00 156) d kids racing_paths [14; 14; 13] s)
    as [_ H].
  - exact sample_tree_ok.
  - exact sample_fs_geometry.
  - reflexivity.
  - exact Hok.
  - repeat (apply Forall_cons; split); [..|constructor]; vm_decide.
  - repeat (apply Forall2_cons; split); [..|constructor]; vm_compute; reflexivity.
  - by eapply system_run_steps.
  - exact H.
Defined.
