(* ===== verification/LoggingThreads.v ===== *)
(** * The log of the FUSE program under several threads
      ([__LOG] of [src/fuse/logging.c])

    [__LOG] prints a message with three calls, under a lock "so different
    threads don't interleave the log output".  Here every thread has messages
    to log, one call after the other; a step is a test, an acquisition of the
    lock, one call of the [printf] family or the release, and the steps
    interleave in any way.  The level and the file are set before the threads
    start. *)

From Stdlib Require Import Strings.Byte Strings.String.
From stdpp Require Import relations.
From S2P Require Import Prelude Bytes Format Logging.

(** Where a thread is in [__LOG] of its first message. *)
Inductive place := AtTest | AtLock | AtHeader | AtText | AtNewline | AtUnlock.

Record log_thread := LogThread { todo : list message; at_place : place }.

Record log_state := LogState { owner : option nat; file : list byte; log_threads : list log_thread }.

Definition log_header (m : message) : outcome (list byte) :=
  name ← from_option_undef (loglevel_str !! Z.to_nat (m_level m));
  mret (name ++ lit "[" ++ m_func m ++ lit ":" ++ decimal (m_line m) ++ lit "] ").

(** The step of thread [i]; [None] when it is blocked or has finished. *)
Definition log_step (level : Z) (i : nat) (s : log_state) : outcome (option log_state) :=
  match log_threads s !! i with
  | Some (LogThread (m :: ms) at_) =>
      let go o f t := mret (Some (LogState o f (<[i := t]> (log_threads s)))) in
      match at_ with
      | AtTest =>
          if m_level m <? 0 then go (owner s) (file s) (LogThread ms AtTest)
          else if level <? m_level m then go (owner s) (file s) (LogThread ms AtTest)
          else go (owner s) (file s) (LogThread (m :: ms) AtLock)
      | AtLock =>
          match owner s with
          | None => go (Some i) (file s) (LogThread (m :: ms) AtHeader)
          | Some _ => mret None
          end
      | AtHeader => h ← log_header m; go (owner s) (file s ++ h) (LogThread (m :: ms) AtText)
      | AtText => go (owner s) (file s ++ m_text m) (LogThread (m :: ms) AtNewline)
      | AtNewline => go (owner s) (file s ++ [x0a]) (LogThread (m :: ms) AtUnlock)
      | AtUnlock => go None (file s) (LogThread ms AtTest)
      end
  | _ => mret None
  end.

Definition logging_threads_start (msgs : list (list message)) : log_state :=
  LogState None [] ((fun ms => LogThread ms AtTest) <$> msgs).

Inductive log_steps_to (level : Z) (s s' : log_state) : Prop :=
  | log_steps_to_at i : log_step level i s = Ret (Some s') -> log_steps_to level s s'.

Section Threads.
Context (level : Z) (msgs : list (list message)).
Hypothesis level_ok : level <= LOG_DEBUG.

(** ** The invariant *)

Definition critical (p : place) : bool :=
  match p with AtTest | AtLock => false | _ => true end.

(** What a thread in its critical section has written of its line. *)
Definition partial (m : message) (p : place) : list byte :=
  let h := default [] (loglevel_str !! Z.to_nat (m_level m)) ++ lit "[" ++ m_func m ++ lit ":" ++ decimal (m_line m) ++ lit "] " in
  match p with
  | AtTest | AtLock | AtHeader => []
  | AtText => h
  | AtNewline => h ++ m_text m
  | AtUnlock => h ++ m_text m ++ [x0a]
  end.

Lemma partial_line m : partial m AtUnlock = line_of m.
Proof. unfold partial, line_of. by rewrite <- !app_assoc. Qed.

Definition wanted (ms : list message) : list message := filter (fun m => enabled level m = true) ms.

(** The messages of thread [i] in the history, in order. *)
Definition of_thread (i : nat) (hist : list (nat * message)) : list message := (filter (fun x => x.1 = i) hist).*2.

Definition lines (hist : list (nat * message)) : list byte := concat (line_of <$> hist.*2).

(** [hist]: the lines completed, with the threads that wrote them. *)
Record log_ok (hist : list (nat * message)) (s : log_state) : Prop := {
  lo_count : length (log_threads s) = length msgs;
  lo_owner : match owner s with
    | None => file s = lines hist
    | Some i => exists m ms p, log_threads s !! i = Some (LogThread (m :: ms) p) /\ critical p = true /\
        file s = lines hist ++ partial m p
    end;
  lo_alone i t : log_threads s !! i = Some t -> critical (at_place t) = true -> owner s = Some i;
  lo_wanted i m ms p : log_threads s !! i = Some (LogThread (m :: ms) p) -> p <> AtTest -> enabled level m = true;
  lo_rest i t ms : log_threads s !! i = Some t -> msgs !! i = Some ms ->
    of_thread i hist ++ wanted (todo t) = wanted ms }.

Lemma enabled_tests m : enabled level m = negb (m_level m <? 0) && negb (level <? m_level m).
Proof. unfold enabled. by rewrite <- !Z.leb_antisym. Qed.

Lemma log_header_Ret m : enabled level m = true -> log_header m = Ret (partial m AtText).
Proof.
  unfold enabled, log_header, partial, LOG_DEBUG in *. rewrite andb_true_iff, !Z.leb_le. intros [H0 H1].
  destruct (lookup_lt_is_Some_2 loglevel_str (Z.to_nat (m_level m))) as [name ->]; [cbn; lia|]. done.
Qed.

Lemma lines_snoc hist i m : lines (hist ++ [(i, m)]) = lines hist ++ line_of m.
Proof. unfold lines. rewrite !fmap_app, concat_app. cbn. by rewrite app_nil_r. Qed.

Lemma of_thread_snoc i hist j m : of_thread i (hist ++ [(j, m)]) = of_thread i hist ++ if decide (j = i) then [m] else [].
Proof. unfold of_thread. rewrite filter_app, fmap_app. f_equal. rewrite filter_cons. cbn [fst]. by destruct (decide (j = i)). Qed.

Lemma wanted_cons m ms : wanted (m :: ms) = if enabled level m then m :: wanted ms else wanted ms.
Proof. unfold wanted. rewrite filter_cons. by destruct (enabled level m); [rewrite decide_True|rewrite decide_False]. Qed.

Lemma start_log_ok : log_ok [] (logging_threads_start msgs).
Proof.
  assert (forall i t, log_threads (logging_threads_start msgs) !! i = Some t -> exists ms, msgs !! i = Some ms /\ t = LogThread ms AtTest) as Hs.
  { intros i t Hi. cbn in Hi. rewrite list_lookup_fmap in Hi. apply fmap_Some in Hi as (ms & Hms & ->). eauto. }
  split; [by cbn; rewrite length_fmap|done| | |].
  - intros i t (ms & _ & ->)%Hs. done.
  - intros i m ms p (ms' & _ & [= _ ->])%Hs. done.
  - intros i t ms (ms' & Hi & ->)%Hs Hi'. assert (ms' = ms) as -> by congruence. done.
Qed.

(** A thread outside of its critical section changes place or drops a message. *)
Lemma local_ok hist s i t t' :
  log_ok hist s -> log_threads s !! i = Some t -> critical (at_place t) = false -> critical (at_place t') = false ->
  wanted (todo t') = wanted (todo t) ->
  (forall m ms p, t' = LogThread (m :: ms) p -> p <> AtTest -> enabled level m = true) ->
  log_ok hist (LogState (owner s) (file s) (<[i := t']> (log_threads s))).
Proof.
  intros O Hi Hc Hc' Hw Hen. split; cbn.
  - rewrite length_insert. apply O.
  - pose proof (lo_owner _ _ O) as Ho. destruct (owner s) as [j|]; [|done]. destruct Ho as (m & ms & p & Hj & Hp & Hf).
    exists m, ms, p. rewrite list_lookup_insert_ne; [done|]. intros ->. rewrite Hj in Hi. injection Hi as <-. cbn in Hc. congruence.
  - intros j u Hj Hcu. apply list_lookup_insert_Some in Hj as [(-> & -> & _)|[_ Hj]]; [congruence|]. by apply (lo_alone _ _ O j u).
  - intros j m ms p Hj Hp. apply list_lookup_insert_Some in Hj as [(_ & E & _)|[_ Hj]]; [by eapply Hen|]. by apply (lo_wanted _ _ O j m ms p).
  - intros j u ms Hj Hms. apply list_lookup_insert_Some in Hj as [(-> & -> & _)|[_ Hj]].
    + rewrite Hw. by apply (lo_rest _ _ O j t).
    + by apply (lo_rest _ _ O j u).
Qed.

(** The owner writes the next part of its line. *)
Lemma write_ok hist s i m ms p p' :
  log_ok hist s -> log_threads s !! i = Some (LogThread (m :: ms) p) -> (critical p = true \/ owner s = None /\ p = AtLock) ->
  critical p' = true -> forall w, file s ++ w = lines hist ++ partial m p' ->
  log_ok hist (LogState (Some i) (file s ++ w) (<[i := LogThread (m :: ms) p']> (log_threads s))).
Proof.
  intros O Hi Hc Hc' w Hw. assert (owner s = Some i \/ owner s = None) as Hown.
  { destruct Hc as [Hc|[? _]]; [left; by eapply (lo_alone _ _ O)|by right]. }
  pose proof (lookup_lt_Some _ _ _ Hi) as Hlt. split; cbn.
  - rewrite length_insert. apply O.
  - exists m, ms, p'. rewrite list_lookup_insert_eq by done. done.
  - intros j u Hj Hcu. apply list_lookup_insert_Some in Hj as [(-> & _ & _)|[_ Hj]]; [done|].
    pose proof (lo_alone _ _ O j u Hj Hcu) as E. destruct Hown; congruence.
  - intros j m2 ms2 p2 Hj Hp. apply list_lookup_insert_Some in Hj as [(<- & [= <- <- <-] & _)|[_ Hj]].
    + apply (lo_wanted _ _ O i m ms p Hi). intros ->. destruct Hc as [?|[_ ?]]; done.
    + by apply (lo_wanted _ _ O j m2 ms2 p2).
  - intros j u ms2 Hj Hms. apply list_lookup_insert_Some in Hj as [(<- & <- & _)|[_ Hj]].
    + exact (lo_rest _ _ O i _ _ Hi Hms).
    + by apply (lo_rest _ _ O j u).
Qed.

(** The owner releases the lock: its line is complete. *)
Lemma unlock_ok hist s i m ms :
  log_ok hist s -> log_threads s !! i = Some (LogThread (m :: ms) AtUnlock) ->
  log_ok (hist ++ [(i, m)]) (LogState None (file s) (<[i := LogThread ms AtTest]> (log_threads s))).
Proof.
  intros O Hi. pose proof (lo_alone _ _ O _ _ Hi eq_refl) as Hown. pose proof (lo_owner _ _ O) as Ho. rewrite Hown in Ho.
  destruct Ho as (m2 & ms2 & p & Hj & _ & Hf). rewrite Hi in Hj. injection Hj as <- <- <-.
  pose proof (lo_wanted _ _ O i m ms AtUnlock Hi ltac:(done)) as Hen. split; cbn.
  - rewrite length_insert. apply O.
  - by rewrite Hf, lines_snoc, partial_line.
  - intros j u Hj Hcu. apply list_lookup_insert_Some in Hj as [(_ & <- & _)|[Hne Hj]]; [done|].
    pose proof (lo_alone _ _ O j u Hj Hcu). congruence.
  - intros j m2 ms2 p Hj Hp. apply list_lookup_insert_Some in Hj as [(_ & [= _ <-] & _)|[_ Hj]]; [done|]. by apply (lo_wanted _ _ O j m2 ms2 p).
  - intros j u ms2 Hj Hms. rewrite of_thread_snoc. apply list_lookup_insert_Some in Hj as [(<- & <- & _)|[Hne Hj]].
    + rewrite decide_True by done. pose proof (lo_rest _ _ O i _ _ Hi Hms) as E. cbn [todo] in E |- *.
      rewrite wanted_cons, Hen in E. by rewrite <- app_assoc.
    + rewrite decide_False, app_nil_r by done. by apply (lo_rest _ _ O j u).
Qed.

(** ** Steps *)

(** How many steps a thread has left at most. *)
Definition left_at (p : place) : nat :=
  match p with AtTest => 6 | AtLock => 5 | AtHeader => 4 | AtText => 3 | AtNewline => 2 | AtUnlock => 1 end.

Definition thread_left (t : log_thread) : nat :=
  match todo t with [] => 0 | _ :: ms => left_at (at_place t) + 6 * length ms end.

Definition steps_left (s : log_state) : nat := sum_list (thread_left <$> log_threads s).

Lemma sum_insert (l : list nat) i x y : l !! i = Some x -> (y < x)%nat -> (sum_list (<[i := y]> l) < sum_list l)%nat.
Proof.
  revert i. induction l as [|z l IH]; intros [|i] Hi Hlt; try done.
  - injection Hi as ->. cbn. unfold id. lia.
  - cbn. apply Nat.add_lt_mono_l. exact (IH i Hi Hlt).
Qed.

Lemma left_insert s i t t' o f :
  log_threads s !! i = Some t -> (thread_left t' < thread_left t)%nat ->
  (steps_left (LogState o f (<[i := t']> (log_threads s))) < steps_left s)%nat.
Proof.
  intros Hi Hlt. unfold steps_left. cbn. rewrite list_fmap_insert. apply sum_insert with (thread_left t); [|done].
  by rewrite list_lookup_fmap, Hi.
Qed.

(** A step keeps the invariant and uses up one of the steps left; a thread
    that cannot step has finished or waits for the owner. *)
Lemma log_step_ok hist s i :
  log_ok hist s ->
  match log_step level i s with
  | Ret (Some s') => (exists hist', log_ok hist' s') /\ (steps_left s' < steps_left s)%nat
  | Ret None => forall t, log_threads s !! i = Some t -> todo t = [] \/ (at_place t = AtLock /\ is_Some (owner s))
  | _ => False
  end.
Proof.
  intros O. unfold log_step. destruct (log_threads s !! i) as [[[|m ms] p]|] eqn:Hi; [by intros t [= <-]; left| |done].
  pose proof (lo_owner _ _ O) as Ho.
  assert (critical p = true -> owner s = Some i /\ file s = lines hist ++ partial m p) as Hcrit.
  { intros Hc. pose proof (lo_alone _ _ O i _ Hi Hc) as E. rewrite E in Ho. split; [done|].
    destruct Ho as (m2 & ms2 & p2 & Hj & _ & Hf). rewrite Hi in Hj. by injection Hj as <- <- <-. }
  assert (forall p' w, critical p = true -> critical p' = true -> partial m p' = partial m p ++ w ->
    log_ok hist (LogState (owner s) (file s ++ w) (<[i := LogThread (m :: ms) p']> (log_threads s)))) as Hwrite.
  { intros p' w Hc Hc' Hp. destruct (Hcrit Hc) as [-> Hf].
    apply (write_ok hist s i m ms p p'); [done|done|by left|done|]. by rewrite Hf, Hp, <- app_assoc. }
  destruct p; cbn [mret outcome_ret].
  - pose proof (enabled_tests m) as Hen.
    assert (enabled level m = false -> log_ok hist (LogState (owner s) (file s) (<[i := LogThread ms AtTest]> (log_threads s)))) as Hdrop.
    { intros E. apply local_ok with (LogThread (m :: ms) AtTest); try done; [cbn [todo]; by rewrite wanted_cons, E|]. by intros ? ? ? [= _ <-]. }
    destruct (m_level m <? 0); [split; [eauto|eapply left_insert; [exact Hi|cbn; destruct ms; cbn; lia]]|].
    destruct (level <? m_level m); [split; [eauto|eapply left_insert; [exact Hi|cbn; destruct ms; cbn; lia]]|].
    split; [|eapply left_insert; [exact Hi|cbn; lia]]. exists hist.
    apply local_ok with (LogThread (m :: ms) AtTest); try done. by intros ? ? ? [= <- _ _].
  - destruct (owner s) as [j|] eqn:Eo; [by intros t [= <-]; right|].
    split; [|eapply left_insert; [exact Hi|cbn; lia]]. exists hist. rewrite <- (app_nil_r (file s)).
    apply (write_ok hist s i m ms AtLock AtHeader); [done|done|by right|done|]. by rewrite Ho.
  - rewrite (log_header_Ret m) by (by apply (lo_wanted _ _ O i m ms AtHeader Hi)). cbn [mbind outcome_bind].
    split; [|eapply left_insert; [exact Hi|cbn; lia]]. exists hist. by apply Hwrite.
  - split; [|eapply left_insert; [exact Hi|cbn; lia]]. exists hist. by apply Hwrite.
  - split; [|eapply left_insert; [exact Hi|cbn; lia]]. exists hist. apply Hwrite; [done|done|]. cbn. by rewrite <- !app_assoc.
  - split; [|eapply left_insert; [exact Hi|cbn; destruct ms; cbn; lia]]. exists (hist ++ [(i, m)]). by apply unlock_ok.
Qed.

Lemma log_reachable n s : nsteps (log_steps_to level) n (logging_threads_start msgs) s ->
  exists hist, log_ok hist s /\ (n + steps_left s <= steps_left (logging_threads_start msgs))%nat.
Proof.
  assert (forall s0 hist0, log_ok hist0 s0 -> nsteps (log_steps_to level) n s0 s ->
    exists hist, log_ok hist s /\ (n + steps_left s <= steps_left s0)%nat) as H.
  { intros s0 hist0 O R. revert hist0 O. induction R as [s0|n s0 s1 s2 [i E] R IH]; intros hist0 O; [exists hist0; split; [done|lia]|].
    pose proof (log_step_ok hist0 s0 i O) as Hs. rewrite E in Hs. destruct Hs as [[hist1 O1] Hlt].
    destruct (IH hist1 O1) as (hist & O2 & Hle). exists hist. split; [done|lia]. }
  apply H with []. apply start_log_ok.
Qed.

Lemma start_left : steps_left (logging_threads_start msgs) = (6 * length (concat msgs))%nat.
Proof.
  unfold steps_left, logging_threads_start. cbn [log_threads]. rewrite <- list_fmap_compose.
  induction msgs as [|ms msgs' IH]; [done|]. cbn [fmap list_fmap sum_list concat]. rewrite length_app, IH.
  unfold compose, thread_left. cbn. destruct ms; cbn; lia.
Qed.
End Threads.

(** ** Properties *)

(** C31: with the level set to one that exists, the lock does what it is for:
    in every reachable state the file is a sequence of whole lines, followed by
    a part of one only while the lock is held; the lines of each thread are
    those of its enabled messages so far, in its order; no step fails; a run
    has at most six steps for each message, and when no thread can step, all
    messages have been dealt with. *)
Theorem logging_lines_whole level msgs n s :
  level <= LOG_DEBUG -> nsteps (log_steps_to level) n (logging_threads_start msgs) s ->
  (n <= 6 * length (concat msgs))%nat /\
  (exists hist rest, file s = lines hist ++ rest /\ (owner s = None -> rest = []) /\
     (forall i t ms, log_threads s !! i = Some t -> msgs !! i = Some ms ->
        of_thread i hist ++ wanted level (todo t) = wanted level ms) /\
     ((forall s', ~ log_steps_to level s s') ->
        rest = [] /\ forall i ms, msgs !! i = Some ms -> of_thread i hist = wanted level ms)) /\
  (forall i, returns (log_step level i s)).
Proof.
  intros Hl R. destruct (log_reachable level msgs Hl n s R) as (hist & O & Hle). rewrite start_left in Hle.
  split; [lia|]. pose proof (lo_owner _ _ _ _ O) as Ho.
  assert (exists rest, file s = lines hist ++ rest /\ (owner s = None -> rest = [])) as (rest & Hf & Hr).
  { destruct (owner s) as [i|]; [|exists []; by rewrite app_nil_r]. destruct Ho as (m & ms & p & _ & _ & Hf). by exists (partial m p). }
  assert (forall i, returns (log_step level i s)) as Hret.
  { intros i. pose proof (log_step_ok level msgs Hl hist s i O) as H. destruct (log_step level i s); [by eexists|done..]. }
  split; [|exact Hret]. exists hist, rest. split; [done|]. split; [done|]. split; [apply O|]. intros Hstuck.
  assert (forall i t, log_threads s !! i = Some t -> todo t = [] \/ (at_place t = AtLock /\ is_Some (owner s))) as Hend.
  { intros i. pose proof (log_step_ok level msgs Hl hist s i O) as H. destruct (log_step level i s) as [[s'|]| | |] eqn:E; try done.
    destruct (Hstuck s'). by exists i. }
  assert (owner s = None) as Hfree.
  { destruct (owner s) as [i|] eqn:Eo; [|done]. destruct Ho as (m & ms & p & Hi & Hc & _).
    destruct (Hend i _ Hi) as [?|[E _]]; [done|]. cbn in E. by subst. }
  split; [by apply Hr|]. intros i ms Hms.
  destruct (lookup_lt_is_Some_2 (log_threads s) i) as [t Ht].
  { rewrite (lo_count _ _ _ _ O). by eapply lookup_lt_Some. }
  rewrite <- (lo_rest _ _ _ _ O i t ms Ht Hms). destruct (Hend i t Ht) as [->|[_ H]]; [by rewrite app_nil_r|].
  rewrite Hfree in H. by destruct H.
Qed.

(** Two threads, the second asking for the lock in the middle of a line. *)
Definition two_logs : list (list message) :=
  [[Message 3 (lit "read") 1 (lit "a")]; [Message 7 (lit "open") 2 (lit "b"); Message 4 (lit "open") 3 (lit "c")]].

Fixpoint log_run (level : Z) (sched : list nat) (s : log_state) : option log_state :=
  match sched with
  | [] => Some s
  | i :: sched => match log_step level i s with Ret (Some s) => log_run level sched s | _ => None end
  end.

Lemma log_run_steps level sched s s' : log_run level sched s = Some s' -> nsteps (log_steps_to level) (length sched) s s'.
Proof.
  revert s. induction sched as [|i sched IH]; intros s H; cbn in H; [injection H as ->; constructor|].
  destruct (log_step level i s) as [[s1|]| | |] eqn:E; try done. econstructor; [by exists i|]. by apply IH.
Qed.

Lemma logging_lines_whole_witness :
  exists s, log_run 4 [0; 1; 0; 1; 0; 0; 0; 0; 1; 1; 1; 1; 1]%nat (logging_threads_start two_logs) = Some s /\
    file s = lit "[err]  [read:1] a" ++ [x0a] ++ lit "[warn] [open:3] c" ++ [x0a] /\
    (exists hist rest, file s = lines hist ++ rest /\ (owner s = None -> rest = [])).
Proof.
  eexists. split; [vm_compute; reflexivity|]. split; [vm_compute; reflexivity|].
  match goal with |- exists hist rest, file ?s = _ /\ _ => set (e := s) end.
  assert (nsteps (log_steps_to 4) 13 (logging_threads_start two_logs) e) as R.
  { apply (log_run_steps 4 [0; 1; 0; 1; 0; 0; 0; 0; 1; 1; 1; 1; 1]%nat). vm_compute. reflexivity. }
  destruct (logging_lines_whole 4 two_logs 13 e ltac:(unfold LOG_DEBUG; lia) R) as (_ & (hist & rest & Hf & Hr & _) & _).
  exists hist, rest. split; [exact Hf|exact Hr].
Defined.
