(* ===== verification/FaultHandler.v ===== *)
(** * The handler of segmentation faults ([signal_handle_sigsegv] of
      [src/fuse/fuse-main.c])

    The handler logs a backtrace and aborts.  It runs on the thread that
    faulted, whose interrupted frames never go on, in the middle of whatever
    the other threads do with the log ([LoggingThreads]); what the thread held
    it still holds, the lock of [__LOG] included.  That lock is a plain mutex,
    which a thread that has it waits for like any other.

    [strings] is what [backtrace_symbols] answers. *)

From Stdlib Require Import Strings.Byte Strings.String.
From stdpp Require Import relations.
From S2P Require Import Prelude Bytes Format Logging LoggingThreads.

Definition debug (line : Z) (text : list byte) : message :=
  Message LOG_DEBUG (lit "signal_handle_sigsegv") line text.

(** The messages of the handler, in order. *)
Definition signal_handle_sigsegv (strings : list (list byte)) : list message :=
  [debug 86 (lit "========================================");
   debug 87 (lit "Segmentation Fault.  Starting backtrace:")]
  ++ (debug 92 <$> strings) ++ [debug 93 (lit "========================================")].

Record process := Process { p_log : log_state; p_aborted : bool }.

(** Thread [i] faults. *)
Definition fault (i : nat) (strings : list (list byte)) (s : log_state) : log_state :=
  LogState (owner s) (file s) (<[i := LogThread (signal_handle_sigsegv strings) AtTest]> (log_threads s)).

(** The threads go on; [abort] is called when the handler, on thread [i], has
    logged everything. *)
Inductive process_step (level : Z) (i : nat) : process -> process -> Prop :=
  | step_log s s' : log_steps_to level s s' -> process_step level i (Process s false) (Process s' false)
  | step_abort s p : log_threads s !! i = Some (LogThread [] p) ->
      process_step level i (Process s false) (Process s true).

(** ** Steps get fewer *)

Lemma log_step_left level s i s' : log_step level i s = Ret (Some s') -> (steps_left s' < steps_left s)%nat.
Proof.
  unfold log_step. destruct (log_threads s !! i) as [[[|m ms] p]|] eqn:Hi; try done.
  assert (forall o f t', (thread_left t' < thread_left (LogThread (m :: ms) p))%nat ->
    (steps_left (LogState o f (<[i := t']> (log_threads s))) < steps_left s)%nat) as H by (intros; by eapply left_insert).
  assert (thread_left (LogThread ms AtTest) <= 6 * length ms)%nat as Hms by (destruct ms; cbn; lia).
  destruct p; cbn [mret outcome_ret].
  - destruct (m_level m <? 0); [intros [= <-]; apply H; cbn in *; lia|].
    destruct (level <? m_level m); intros [= <-]; apply H; cbn in *; lia.
  - destruct (owner s); [done|]. intros [= <-]. apply H. cbn. lia.
  - intros E. outcome_inv. subst. apply H. cbn. lia.
  - intros [= <-]. apply H. cbn. lia.
  - intros [= <-]. apply H. cbn. lia.
  - intros [= <-]. apply H. cbn in *. lia.
Qed.

Definition process_left (p : process) : nat := if p_aborted p then 0 else S (steps_left (p_log p)).

Lemma process_step_left level i p p' : process_step level i p p' -> (process_left p' < process_left p)%nat.
Proof. intros [s s' [j E]|s q Hi]; cbn; [apply log_step_left in E; lia|lia]. Qed.

Lemma process_bound level i n p p' : nsteps (process_step level i) n p p' -> (n + process_left p' <= process_left p)%nat.
Proof.
  induction 1 as [|n p q r St R IH]; [lia|]. apply process_step_left in St. lia.
Qed.

(** What holds at first and is kept by every step holds throughout. *)
Lemma process_invariant level i (I : process -> Prop) n p p' :
  (forall p p', I p -> process_step level i p p' -> I p') -> I p -> nsteps (process_step level i) n p p' -> I p'.
Proof. intros HI Hp R. induction R as [|n p q r St R IH]; [done|]. apply IH. by eapply HI. Qed.

Section Fault.
Context (level : Z) (msgs : list (list message)) (i : nat) (strings : list (list byte)).
Hypothesis level_ok : level <= LOG_DEBUG.

Let handler : list message := signal_handle_sigsegv strings.

Lemma handler_levels : Forall (fun m => m_level m = LOG_DEBUG) handler.
Proof. unfold handler, signal_handle_sigsegv. repeat (apply Forall_cons; split; [done|]). apply Forall_app. split; [|by constructor].
  apply Forall_fmap, Forall_true. done. Qed.

Lemma wanted_app ms ms' : wanted level (ms ++ ms') = wanted level ms ++ wanted level ms'.
Proof. apply filter_app. Qed.

Lemma wanted_idemp ms : wanted level (wanted level ms) = wanted level ms.
Proof. unfold wanted. by apply list_filter_filter_l. Qed.

(** ** A thread that faults outside of the lock

    The handler is one more list of messages of that thread. *)

Definition msgs_after (hist : list (nat * message)) : list (list message) := <[i := of_thread i hist ++ handler]> msgs.

Lemma fault_log_ok hist s :
  log_ok level msgs hist s -> (i < length msgs)%nat -> owner s <> Some i ->
  log_ok level (msgs_after hist) hist (fault i strings s).
Proof.
  intros O Hlt Hown. destruct (lookup_lt_is_Some_2 (log_threads s) i) as [t0 Ht0]; [by rewrite (lo_count _ _ _ _ O)|].
  destruct (lookup_lt_is_Some_2 msgs i Hlt) as [ms0 Hms0].
  split; cbn.
  - unfold msgs_after; rewrite !length_insert. apply O.
  - pose proof (lo_owner _ _ _ _ O) as Ho. destruct (owner s) as [j|]; [|done]. destruct Ho as (m & ms & p & Hj & Hp & Hf).
    exists m, ms, p. rewrite list_lookup_insert_ne; [done|]. congruence.
  - intros j u Hj Hc. apply list_lookup_insert_Some in Hj as [(_ & <- & _)|[_ Hj]]; [done|]. by apply (lo_alone _ _ _ _ O j u).
  - intros j m ms p Hj Hp. apply list_lookup_insert_Some in Hj as [(_ & [= _ <-] & _)|[_ Hj]]; [done|]. by apply (lo_wanted _ _ _ _ O j m ms p).
  - intros j u ms Hj Hms. unfold msgs_after in Hms.
    apply list_lookup_insert_Some in Hj as [(<- & <- & _)|[Hne Hj]].
    + rewrite list_lookup_insert_eq in Hms by done. injection Hms as <-. cbn [todo]. fold handler. rewrite wanted_app. f_equal.
      pose proof (lo_rest _ _ _ _ O i t0 ms0 Ht0 Hms0) as E. pose proof (wanted_idemp ms0) as E2. rewrite <- E, wanted_app in E2.
      rewrite wanted_idemp in E2. by apply app_inv_tail in E2.
    + rewrite list_lookup_insert_ne in Hms by done. by apply (lo_rest _ _ _ _ O j u).
Qed.

(** The log is in order, and whoever has aborted has logged all of it. *)
Definition in_order (before : list (nat * message)) (p : process) : Prop :=
  exists hist, log_ok level (msgs_after before) hist (p_log p) /\
    (p_aborted p = true -> exists q, log_threads (p_log p) !! i = Some (LogThread [] q)).

Lemma in_order_step before p p' : in_order before p -> process_step level i p p' -> in_order before p'.
Proof.
  intros (hist & O & _) St. destruct St as [s s' [j E]|s q Hi]; cbn [p_log] in O.
  - pose proof (log_step_ok level _ level_ok hist s j O) as H. rewrite E in H. destruct H as [[hist' O'] _]. by exists hist'.
  - exists hist. split; [done|]. by exists q.
Qed.

Lemma in_order_progress before p : (i < length msgs)%nat -> in_order before p -> p_aborted p = true \/ exists p', process_step level i p p'.
Proof.
  intros Hlt (hist & O & _). destruct p as [s [|]]; [by left|]. right. cbn [p_log] in O.
  assert (forall j, match log_step level j s with
    | Ret (Some s') => exists p', process_step level i (Process s false) p'
    | _ => forall t, log_threads s !! j = Some t -> todo t = [] \/ (at_place t = AtLock /\ is_Some (owner s)) end) as Hstep.
  { intros j. pose proof (log_step_ok level _ level_ok hist s j O) as H.
    destruct (log_step level j s) as [[s'|]| | |] eqn:E; try done. exists (Process s' false). constructor. by exists j. }
  destruct (lookup_lt_is_Some_2 (log_threads s) i) as [[ms q] Ht].
  { rewrite (lo_count _ _ _ _ O). unfold msgs_after. by rewrite length_insert. }
  assert (ms = [] -> exists p', process_step level i (Process s false) p') as Hdone.
  { intros ->. exists (Process s true). by apply step_abort with q. }
  pose proof (Hstep i) as Hi. destruct (log_step level i s) as [[s'|]| | |]; try done.
  all: destruct (Hi _ Ht) as [?|[_ [j Hj]]]; [by apply Hdone|].
  all: pose proof (lo_owner _ _ _ _ O) as Ho; rewrite Hj in Ho; destruct Ho as (m & ms' & p & Hjt & Hc & _).
  all: pose proof (Hstep j) as Hs; destruct (log_step level j s) as [[s'|]| | |]; try done.
  all: destruct (Hs _ Hjt) as [?|[Hp _]]; [done|]; cbn in Hp; by subst.
Qed.

(** ** A thread that faults with the lock *)

(** Nobody is between acquiring and releasing the lock, which [i] holds. *)
Record held (f0 : list byte) (s : log_state) : Prop := {
  held_owner : owner s = Some i;
  held_file : file s = f0;
  held_quiet j t : log_threads s !! j = Some t -> critical (at_place t) = false;
  held_handler : exists ms p, log_threads s !! i = Some (LogThread ms p) /\
    if level =? LOG_DEBUG then ms = handler else p = AtTest /\ Forall (fun m => m_level m = LOG_DEBUG) ms }.

Lemma fault_held hist s :
  log_ok level msgs hist s -> (i < length msgs)%nat -> owner s = Some i -> held (file s) (fault i strings s).
Proof.
  intros O Hlt Hown. assert (i < length (log_threads s))%nat as Hi by (by rewrite (lo_count _ _ _ _ O)). split; cbn.
  - done.
  - done.
  - intros j t Hj. apply list_lookup_insert_Some in Hj as [(_ & <- & _)|[Hne Hj]]; [done|].
    destruct (critical (at_place t)) eqn:E; [|done]. pose proof (lo_alone _ _ _ _ O j t Hj E). congruence.
  - exists handler, AtTest. rewrite list_lookup_insert_eq by done. split; [done|].
    destruct (level =? LOG_DEBUG); [done|]. split; [done|apply handler_levels].
Qed.

(** The only steps left are tests of levels. *)
Lemma held_log_step f0 s j s' : held f0 s -> log_step level j s = Ret (Some s') -> held f0 s'.
Proof.
  intros H E. unfold log_step in E. destruct (log_threads s !! j) as [[[|m ms] p]|] eqn:Hj; try done.
  pose proof (held_quiet _ _ H j _ Hj) as Hq. cbn in Hq.
  assert (forall t', critical (at_place t') = false ->
    (j = i -> if level =? LOG_DEBUG then todo t' = m :: ms else at_place t' = AtTest /\ todo t' = ms) ->
    held f0 (LogState (owner s) (file s) (<[j := t']> (log_threads s)))) as Hset.
  { intros t' Hc Hi. split; cbn; [apply H|apply H| |].
    - intros k t Hk. apply list_lookup_insert_Some in Hk as [(_ & <- & _)|[_ Hk]]; [done|]. by apply (held_quiet _ _ H k).
    - destruct (held_handler _ _ H) as (hs & q & Ht & Hh). destruct (decide (j = i)) as [->|Hne].
      + rewrite list_lookup_insert_eq by (by eapply lookup_lt_Some). rewrite Hj in Ht. injection Ht as <- <-.
        destruct t' as [ms' q']. exists ms', q'. split; [done|]. specialize (Hi eq_refl). cbn in Hi.
        destruct (level =? LOG_DEBUG); [by subst|]. destruct Hi as [-> ->], Hh as [_ Hh]. split; [done|]. by inversion Hh.
      + rewrite list_lookup_insert_ne by done. by exists hs, q. }
  assert (j = i -> level =? LOG_DEBUG = true -> m_level m = LOG_DEBUG) as Hm.
  { intros -> El. destruct (held_handler _ _ H) as (hs & q & Ht & Hh). rewrite El in Hh. rewrite Hj in Ht. injection Ht as <- <-.
    pose proof handler_levels as Hl. rewrite <- Hh in Hl. by inversion Hl. }
  assert (j = i -> level =? LOG_DEBUG = false -> m_level m = LOG_DEBUG) as Hm'.
  { intros -> El. destruct (held_handler _ _ H) as (hs & q & Ht & Hh). rewrite El in Hh. rewrite Hj in Ht. injection Ht as <- <-.
    destruct Hh as [_ Hh]. by inversion Hh. }
  unfold LOG_DEBUG in *. destruct p; try done; cbn [mret outcome_ret] in E; [|by rewrite (held_owner _ _ H) in E].
  destruct (Z.ltb_spec (m_level m) 0); [|destruct (Z.ltb_spec level (m_level m))]; injection E as <-; apply Hset; try done;
    intros ->; destruct (Z.eqb_spec level 7) as [El|El]; try done;
    try (specialize (Hm eq_refl eq_refl); lia); specialize (Hm' eq_refl eq_refl); lia.
Qed.

Definition held_process (f0 : list byte) (p : process) : Prop :=
  held f0 (p_log p) /\ (level = LOG_DEBUG -> p_aborted p = false).

Lemma held_step f0 p p' : held_process f0 p -> process_step level i p p' -> held_process f0 p'.
Proof.
  intros [H Ha] St. destruct St as [s s' [j E]|s q Hi]; cbn [p_log] in H.
  - split; [by eapply held_log_step|done].
  - split; [done|]. intros El. destruct (held_handler _ _ H) as (ms & p & Ht & Hh).
    rewrite El in Hh. rewrite Hi in Ht. injection Ht as <- <-. discriminate Hh.
Qed.

Lemma held_progress f0 p :
  held_process f0 p -> level <> LOG_DEBUG -> p_aborted p = true \/ exists p', process_step level i p p'.
Proof.
  intros [H _] Hl. destruct p as [s [|]]; [by left|]. right. cbn [p_log] in H.
  destruct (held_handler _ _ H) as (ms & p & Ht & Hh). rewrite (proj2 (Z.eqb_neq _ _)) in Hh by done.
  destruct Hh as [-> Hh]. destruct ms as [|m ms]; [exists (Process s true); by apply step_abort with AtTest|].
  inversion Hh as [|? ? Hm _]; subst. eexists (Process _ false). constructor. exists i. unfold log_step. rewrite Ht, Hm.
  change (LOG_DEBUG <? 0) with false. rewrite (proj2 (Z.ltb_lt level LOG_DEBUG)) by lia. reflexivity.
Qed.
End Fault.

(** C15: the handler of segmentation faults over the log.  A process whose
    thread [i] faults takes finitely many more steps.  If that thread was not
    holding the lock of the log, the process gets to [abort] whatever the other
    threads do, the log stays a sequence of whole lines up to a line under way,
    and at the [abort] the whole backtrace is in it as far as debug messages
    are enabled.  The same holds of the [abort] when they are disabled.  But
    when they are enabled, as they are unless the level is changed, a fault
    inside of [__LOG] with the lock held is never reported and never ends the
    process: the handler waits for the lock its own thread holds, and nothing
    is logged again. *)
Theorem fault_handler_aborts level msgs n s i strings :
  level <= LOG_DEBUG -> nsteps (log_steps_to level) n (logging_threads_start msgs) s -> (i < length msgs)%nat ->
  forall k p, nsteps (process_step level i) k (Process (fault i strings s) false) p ->
    (k <= S (steps_left (fault i strings s)))%nat /\
    (owner s = Some i /\ level = LOG_DEBUG -> p_aborted p = false /\ file (p_log p) = file s) /\
    (owner s <> Some i \/ level <> LOG_DEBUG -> p_aborted p = true \/ exists p', process_step level i p p') /\
    (owner s <> Some i -> exists hist rest, file (p_log p) = lines hist ++ rest /\
       (p_aborted p = true -> exists before,
          of_thread i hist = before ++ wanted level (signal_handle_sigsegv strings))).
Proof.
  intros Hl R Hi k p Rp. destruct (log_reachable level msgs Hl n s R) as (hist & O & _).
  split; [apply process_bound in Rp; change (process_left (Process ?x false)) with (S (steps_left x)) in Rp; lia|].
  destruct (decide (owner s = Some i)) as [Hown|Hown].
  - assert (held_process level i strings (file s) p) as H.
    { apply (process_invariant level i _ k (Process (fault i strings s) false)); [|split; [by eapply fault_held|done]|done].
      intros q q'. by apply held_step. }
    split; [intros [_ El]; split; [by apply H|apply (held_file _ _ _ _ _ (proj1 H))]|].
    split; [intros [?|?]; [done|by apply (held_progress level i strings Hl (file s))]|done].
  - assert (in_order level msgs i strings hist p) as H.
    { apply (process_invariant level i _ k (Process (fault i strings s) false)); [|by exists hist; split; [apply fault_log_ok|]|done].
      intros q q'. by apply in_order_step. }
    split; [by intros [? _]|]. split; [intros _; by apply (in_order_progress level msgs i strings Hl hist)|].
    intros _. destruct H as (hist' & O' & Hab).
    assert (exists rest, file (p_log p) = lines hist' ++ rest) as [rest Hf].
    { pose proof (lo_owner _ _ _ _ O') as Ho. destruct (owner (p_log p)) as [j|]; [|exists []; by rewrite app_nil_r].
      destruct Ho as (m & ms & q & _ & _ & Hf). by exists (partial m q). }
    exists hist', rest. split; [done|]. intros Ha. destruct (Hab Ha) as [q Ht].
    pose proof (lo_rest _ _ _ _ O' i _ (of_thread i hist ++ signal_handle_sigsegv strings) Ht) as E.
    unfold msgs_after in E. rewrite list_lookup_insert_eq in E by done. specialize (E eq_refl). cbn in E.
    rewrite app_nil_r, wanted_app in E. by exists (wanted level (of_thread i hist)).
Qed.

(** One thread, which faults while it prints its text. *)
Definition one_log : list (list message) := [[Message 3 (lit "read") 1 (lit "a")]].

Lemma fault_handler_aborts_witness :
  exists s, log_run LOG_DEBUG [0; 0; 0]%nat (logging_threads_start one_log) = Some s /\ owner s = Some 0%nat /\
    (forall k p, nsteps (process_step LOG_DEBUG 0) k (Process (fault 0 [lit "main"] s) false) p ->
       p_aborted p = false /\ file (p_log p) = lit "[err]  [read:1] ").
Proof.
  eexists. split; [vm_compute; reflexivity|]. split; [reflexivity|].
  match goal with |- forall k p, nsteps _ k (Process (fault _ _ ?s) _) p -> _ => set (e := s) end.
  assert (nsteps (log_steps_to LOG_DEBUG) 3 (logging_threads_start one_log) e) as R.
  { apply (log_run_steps LOG_DEBUG [0; 0; 0]%nat). vm_compute. reflexivity. }
  intros k p Rp.
  destruct (fault_handler_aborts LOG_DEBUG one_log 3 e 0 [lit "main"] ltac:(lia) R ltac:(cbn; lia) k p Rp) as (_ & H & _).
  exact (H (conj eq_refl eq_refl)).
Defined.
