(* ===== verification/Conf.v ===== *)
(** * Configuration files ([src/metaserver/conf.c], [src/chunkserver/conf.c])

    The JSON library is a parameter: [json_loads] gives the members of the
    object a text denotes, in the order they are iterated, [string_value] and
    [integer_value] what the accessors answer for a value.  A file is what
    reading it delivers; [malloc] and [calloc] succeed. *)

From Stdlib Require Import Strings.Byte Strings.String.
From S2P Require Import Prelude Bytes CString Format.

Section Json.
Context {J : Type}.
Abbreviation members := (list (list byte * J)).
Context (json_loads : list byte -> option members).
Context (string_value : J -> option (list byte)) (integer_value : J -> Z).

(** ** The metadata server *)

Record conf_t := Conf { conf_file : list byte; conf_root : members }.

(** [content] is the file of size [st.st_size], [None] when it cannot be opened,
    [rz] the answer of [read]. *)
Definition conf_alloc (file : list byte) (content : option (list byte)) (rz : Z) : outcome conf_t :=
  let rz := if content is None then -1 else rz in
  c_assert (negb (rz =? -1)) ;;
  let data := default [] content in
  let buf := take (Z.to_nat rz) data ++ calloc (Z.of_nat (length data) + 1 - rz) in
  match json_loads (until_nul buf) with
  | None => AssertFail
  | Some root => name ← strdup file; mret (Conf name root)
  end.

(** The loop over the members; both lengths are that of [key]. *)
Fixpoint search_loop (key : list byte) (d_key_sz : Z) (iter : members) : outcome (option J) :=
  match iter with
  | [] => mret None
  | (s_key, v) :: iter =>
      s_key_sz ← strlen key;
      if s_key_sz =? d_key_sz then
        c ← strncmp key (cstring s_key) (Z.to_nat d_key_sz);
        if c =? 0 then mret (Some v) else search_loop key d_key_sz iter
      else search_loop key d_key_sz iter
  end.

Definition conf_search (cf : option conf_t) (key : option (list byte)) : outcome (option J) :=
  match cf, key with
  | Some cf, Some key => d_key_sz ← strlen key; search_loop key d_key_sz (conf_root cf)
  | _, _ => mret None
  end.

(** ** The chunk server *)

(** [None] for a member [malloc] leaves uninitialised. *)
Record chunk_conf := ChunkConf {
  chunk_root : list byte;
  metaserver_addr : list byte;
  tcp_backlog : Z;
  port : option Z;
  work_thread_num : option Z;
  chunk_per_size : option Z;
  chunk_count : option Z }.

(** [json_object_get]. *)
Definition object_get (root : members) (name : list byte) : option J :=
  snd <$> head (filter (fun kv => fst kv = name) root).

(** [strdup(json_string_value(v))]. *)
Definition dup_string (v : J) : outcome (list byte) :=
  s ← from_option_undef (string_value v); strdup (cstring s).

Definition CONF_MAX : Z := 1024 * 1024.

(** [accessible]: [access] finds the file; [readn]: the answer of [read], as a
    [size_t]; [garbage]: what the buffer holds before. *)
Definition conf_create (file : option (list byte)) (accessible : bool) (data : list byte) (readn : Z)
    (garbage : list byte) : outcome (option chunk_conf) :=
  match file with
  | None => mret None
  | Some _ =>
      if negb accessible then mret None
      else if u64 readn <=? 0 then mret None
      else
        let n := Z.to_nat (Z.max 0 readn) in
        text ← strdup (take n data ++ drop n garbage);
        match json_loads text with
        | None => mret None
        | Some root =>
            let chunk_root := object_get root (lit "chunk_root") in
            let metaserver_addr := object_get root (lit "metaserver_addr") in
            let tcp_backlog := object_get root (lit "tcp_backlog") in
            match tcp_backlog, metaserver_addr, chunk_root with
            | Some b, Some a, Some c =>
                c ← dup_string c;
                a ← dup_string a;
                mret (Some (ChunkConf c a (s32 (integer_value b)) None None None None))
            | _, _, _ => mret None
            end
        end
  end.

(** ** Releasing *)

(** What a configuration owns, and what the two functions release, in order. *)
Inductive resource :=
  | JsonRoot (root : members)
  | StringBlock (s : list byte)
  | StructBlock.

Definition conf_free (cf : option conf_t) : list resource :=
  match cf with
  | None => []
  | Some cf => [JsonRoot (conf_root cf); StringBlock (conf_file cf); StructBlock]
  end.

Definition conf_destroy (mconf : option chunk_conf) : list resource :=
  match mconf with
  | None => []
  | Some c => [StringBlock (chunk_root c); StructBlock]
  end.

(** The strings [conf_create] duplicates, and the structure. *)
Definition chunk_conf_owns (c : chunk_conf) : list resource :=
  [StringBlock (chunk_root c); StringBlock (metaserver_addr c); StructBlock].

(** The address of the metadata server is never released. *)
Lemma conf_destroy_leaks c : chunk_conf_owns c ≡ₚ StringBlock (metaserver_addr c) :: conf_destroy (Some c).
Proof. unfold chunk_conf_owns, conf_destroy. apply perm_swap. Qed.

(** ** Looking up a member *)

Lemma strncmp_prefix_l t r s u :
  text s -> text t -> exists c, strncmp (t ++ r) (s ++ NUL :: u) (length t) = Ret c /\ (c = 0 <-> exists v, s = t ++ v).
Proof.
  revert s. induction t as [|y t IH]; intros s Hs Ht; cbn.
  { exists 0. split; [done|]. split; [by exists s|done]. }
  apply text_cons in Ht as [Hy Ht]. destruct s as [|x s]; cbn.
  - exists (uchar y - uchar NUL). rewrite decide_False by congruence. split; [done|].
    rewrite uchar_sub_0. split; [congruence|]. intros [v Hv]. discriminate.
  - apply text_cons in Hs as [Hx Hs]. destruct (decide (y = x)) as [->|Hne].
    + rewrite decide_False by done. destruct (IH s Hs Ht) as (c & Hc & Hiff).
      exists c. split; [done|]. rewrite Hiff. split; intros [v Hv]; exists v; congruence.
    + exists (uchar y - uchar x). split; [done|]. rewrite uchar_sub_0. split; [done|].
      intros [v Hv]. congruence.
Qed.

(** The first member whose name starts with [key]. *)
Fixpoint first_with_prefix (key : list byte) (ms : members) : option J :=
  match ms with
  | [] => None
  | (name, v) :: ms => if bool_decide (key `prefix_of` name) then Some v else first_with_prefix key ms
  end.

Lemma search_loop_spec key ms :
  text key -> Forall (fun kv => text (fst kv)) ms ->
  search_loop (cstring key) (Z.of_nat (length key)) ms = Ret (first_with_prefix key ms).
Proof.
  intros Hk. induction 1 as [|[name v] ms Hn _ IH]; [done|]. cbn [search_loop first_with_prefix].
  rewrite (strlen_text key [] Hk : strlen (cstring key) = _). cbn [mbind outcome_bind]. rewrite Z.eqb_refl, Nat2Z.id.
  destruct (strncmp_prefix_l key [NUL] name [] Hn Hk) as (c & Hc & Hiff). fold (cstring key) (cstring name) in Hc.
  rewrite Hc. cbn [mbind outcome_bind]. destruct (Z.eqb_spec c 0) as [E|E].
  - rewrite bool_decide_true by (by apply Hiff). done.
  - rewrite bool_decide_false by (intros Hp; by apply E, Hiff). exact IH.
Qed.

Lemma first_with_prefix_exact key ms :
  (forall name v, (name, v) ∈ ms -> key `prefix_of` name -> name = key) ->
  first_with_prefix key ms = object_get ms key.
Proof.
  intros H. unfold object_get. induction ms as [|[name v] ms IH]; [done|]. cbn [first_with_prefix].
  rewrite filter_cons. cbn [fst]. case_bool_decide as Hp.
  - rewrite decide_True; [done|]. apply (H name v); [left|done].
  - rewrite decide_False; [|intros ->; done]. apply IH. intros n w Hin. apply (H n w). by right.
Qed.

(** [conf_search] answers the value of the first member whose name starts with
    the key, because it compares the length of the key with itself; so it is
    the lookup of the key exactly when no other name extends it. *)
Theorem conf_search_prefix cf key :
  text key -> Forall (fun kv => text (fst kv)) (conf_root cf) ->
  conf_search (Some cf) (Some (cstring key)) = Ret (first_with_prefix key (conf_root cf)) /\
  ((forall name v, (name, v) ∈ conf_root cf -> key `prefix_of` name -> name = key) ->
     conf_search (Some cf) (Some (cstring key)) = Ret (object_get (conf_root cf) key)).
Proof.
  intros Hk Hm. assert (conf_search (Some cf) (Some (cstring key)) = Ret (first_with_prefix key (conf_root cf))) as E.
  { unfold conf_search. rewrite (strlen_text key [] Hk : strlen (cstring key) = _). cbn [mbind outcome_bind]. by apply search_loop_spec. }
  split; [exact E|]. intros H. by rewrite E, first_with_prefix_exact.
Qed.

(** A readable file of less than a mebibyte, in a buffer that happens to hold a
    zero after it, gives a configuration with its three members; the other
    four fields stay uninitialised whatever the file says.  A missing file, an
    empty one, a text that is no JSON object and a missing member give no
    configuration.  A failed [read] does not: the buffer is parsed as it was
    found. *)
Theorem conf_create_fields file data garbage :
  text data -> data <> [] -> Z.of_nat (length data) < CONF_MAX ->
  garbage !! length data = Some NUL ->
  conf_create (Some file) false data (Z.of_nat (length data)) garbage = Ret None /\
  conf_create (Some file) true data 0 garbage = Ret None /\
  (json_loads data = None -> conf_create (Some file) true data (Z.of_nat (length data)) garbage = Ret None) /\
  (forall root, json_loads data = Some root ->
     match object_get root (lit "chunk_root"), object_get root (lit "metaserver_addr"), object_get root (lit "tcp_backlog") with
     | Some c, Some a, Some b =>
         forall cs as_, string_value c = Some cs -> string_value a = Some as_ -> text cs -> text as_ ->
           conf_create (Some file) true data (Z.of_nat (length data)) garbage
           = Ret (Some (ChunkConf cs as_ (s32 (integer_value b)) None None None None))
     | _, _, _ => conf_create (Some file) true data (Z.of_nat (length data)) garbage = Ret None
     end) /\
  (forall t, strdup garbage = Ret t -> json_loads t = None -> conf_create (Some file) true data (-1) garbage = Ret None).
Proof.
  intros Ht Hne Hlen Hg. unfold CONF_MAX in Hlen.
  assert (0 < Z.of_nat (length data)) as Hpos by (destruct data; [done|cbn; lia]).
  assert (forall root, json_loads data = root ->
    conf_create (Some file) true data (Z.of_nat (length data)) garbage =
      match root with
      | None => Ret None
      | Some root =>
          match object_get root (lit "tcp_backlog"), object_get root (lit "metaserver_addr"), object_get root (lit "chunk_root") with
          | Some b, Some a, Some c =>
              c ← dup_string c; a ← dup_string a;
              Ret (Some (ChunkConf c a (s32 (integer_value b)) None None None None))
          | _, _, _ => Ret None
          end
      end) as E.
  { intros root <-. unfold conf_create. cbn [negb]. rewrite u64_small, (proj2 (Z.leb_gt _ _)) by lia.
    rewrite Z.max_r, Nat2Z.id, take_ge by lia.
    assert (drop (length data) garbage = NUL :: drop (S (length data)) garbage) as -> by (by apply drop_S).
    rewrite strdup_text by done. done. }
  split; [done|]. split; [done|]. split; [|split].
  - intros Hl. by rewrite (E None Hl).
  - intros root Hl. rewrite (E _ Hl). destruct (object_get root (lit "chunk_root")) as [c|];
      [|by repeat case_match]. destruct (object_get root (lit "metaserver_addr")) as [a|]; [|by case_match].
    destruct (object_get root (lit "tcp_backlog")) as [b|]; [|done].
    intros cs as_ Hc Ha Htc Hta. unfold dup_string. rewrite Hc, Ha. cbn. unfold cstring. by rewrite !strdup_text.
  - intros t Hs Hl. unfold conf_create. cbn [negb]. change (u64 (-1) <=? 0) with false. cbv iota.
    change (Z.to_nat (Z.max 0 (-1))) with 0%nat. rewrite take_0, drop_0. cbn [app]. rewrite Hs. cbn. by rewrite Hl.
Qed.
End Json.

(** ** Witnesses: values are numbers or texts *)

Definition value : Type := Z + list byte.
Definition as_string (v : value) : option (list byte) := match v with inr s => Some s | inl _ => None end.
Definition as_integer (v : value) : Z := match v with inl z => z | inr _ => 0 end.

(** Members whose names extend each other. *)
Definition sample_members : list (list byte * value) :=
  [(lit "tcp_backlog_max", inl 9); (lit "tcp_backlog", inl 128); (lit "chunk_root", inr (lit "/data"));
   (lit "metaserver_addr", inr (lit "127.0.0.1:9090")); (lit "port", inl 8080)].

Definition sample_loads (s : list byte) : option (list (list byte * value)) :=
  if decide (s = lit "{...}") then Some sample_members else None.

Lemma conf_search_prefix_witness :
  conf_search (Some (Conf (lit "conf.json") sample_members)) (Some (cstring (lit "tcp_backlog"))) = Ret (Some (inl 9)) /\
  conf_search (Some (Conf (lit "conf.json") sample_members)) (Some (cstring (lit "port"))) = Ret (Some (inl 8080)).
Proof.
  split.
  - refine (proj1 (conf_search_prefix (Conf (lit "conf.json") sample_members) (lit "tcp_backlog") _ _)); vm_decide.
  - refine (proj2 (conf_search_prefix (Conf (lit "conf.json") sample_members) (lit "port") _ _) _); [vm_decide|vm_decide|].
    intros name v Hin. change ((name, v) ∈ sample_members) in Hin. unfold sample_members in Hin. rewrite !elem_of_cons in Hin.
    destruct Hin as [H|[H|[H|[H|[H|H]]]]]; [..|inversion H]; injection H as -> _;
      (intros Hp; pose proof (bool_decide_eq_true_2 _ Hp) as Hb; vm_compute in Hb; first [discriminate Hb|reflexivity]).
Defined.

Lemma conf_create_fields_witness :
  conf_create sample_loads as_string as_integer (Some (lit "conf.json")) true (lit "{...}") 5 (calloc 9)
  = Ret (Some (ChunkConf (lit "/data") (lit "127.0.0.1:9090") 128 None None None None)).
Proof.
  refine (proj1 (proj2 (proj2 (proj2 (conf_create_fields sample_loads as_string as_integer (lit "conf.json") (lit "{...}") (calloc 9)
    _ _ _ _)))) sample_members _ _ _ _ _ _ _); try (vm_compute; reflexivity); try vm_decide.
Defined.
