(* ===== verification/ChunkCache.v ===== *)
(** * The chunk cache ([src/chunkserver/chunk_cache.c])

    A hash map from chunk names to chunks, and an array of chunks.  What
    happens to the chunks themselves is in [Chunk]; [chunk_cache_load] is in
    [ChunkLoad]. *)

From Stdlib Require Import Strings.Byte Strings.String.
From S2P Require Import Prelude Bytes CString Format Os Fnv Hashmap Chunk Utils.

Definition hashmap_hash_cb : hash_fn := fun k sz =>
  bs ← load_bytes k 0 sz; mret (u32 (c_hash_fnv1a_64 bs)).

(** The integers behind the two pointers. *)
Definition hashmap_key_compare_cb : cmp_fn := fun k1 k2 len =>
  key1 ← load_le k1 0 4;
  key2 ← load_le k2 0 4;
  mret (if key1 =? key2 then 1 else 0).

(** The chunk is closed and freed. *)
Definition hashmap_free_cb (o : os) (arg : option chunk_t) : outcome os :=
  match arg with
  | None => mret o
  | Some ck => '(_, o) ← chunk_deinit o (Some ck); mret o
  end.

(** [chunks] is the array, [None] when it is freed; its slots are never set. *)
Record chunk_cache_t := ChunkCache {
  cache : option c_hashmap_t;
  chunks : option (list (option chunk_t)) }.

Definition chunk_cache_new (count : Z) : chunk_cache_t :=
  ChunkCache (c_hashmap_alloc count (Some hashmap_hash_cb) (Some hashmap_key_compare_cb))
    (Some (repeat None (Z.to_nat count))).

Definition chunk_cache_remove (cc : option chunk_cache_t) (key : option (list byte)) (key_sz : Z)
    : outcome (Z * option chunk_cache_t) :=
  match cc with
  | Some (ChunkCache (Some m) cs) =>
      '(r, _, m) ← c_hashmap_del (Some m) key key_sz; mret (r, Some (ChunkCache m cs))
  | _ => mret (-1, cc)
  end.

Definition chunk_cache_add (cc : option chunk_cache_t) (key : option (list byte)) (key_sz : Z)
    (value : option (list byte)) (val_sz : Z) : outcome (Z * option chunk_cache_t) :=
  match cc with
  | Some (ChunkCache (Some m) cs) =>
      '(r, m) ← c_hashmap_put (Some m) key key_sz value val_sz; mret (r, Some (ChunkCache m cs))
  | _ => mret (-1, cc)
  end.

(** The map stays allocated, with callbacks for a [c_hashmap_destroy] that
    never comes. *)
Definition chunk_cache_destroy (cc : option chunk_cache_t) : option chunk_cache_t :=
  match cc with
  | None => None
  | Some cc => Some (ChunkCache (c_hashmap_set_free_cb (cache cc) true true) None)
  end.

(** [main] of [src/chunkserver/main.c]: its exit code and what it leaves behind. *)
Definition cache_main : Z * option chunk_cache_t := (0, chunk_cache_destroy (Some (chunk_cache_new 10))).

(** ** Properties *)

Lemma hash_cb_Ret key key_sz :
  0 <= key_sz <= Z.of_nat (length key) ->
  hashmap_hash_cb key key_sz = Ret (u32 (c_hash_fnv1a_64 (take (Z.to_nat key_sz) key))).
Proof.
  intros H. unfold hashmap_hash_cb, load_bytes. by rewrite !(proj2 (Z.leb_le _ _)) by lia.
Qed.

(** The comparison callback is the wrong way round for the map, which takes 0
    for equality: a pair is found exactly when its first four bytes differ
    from those of the key. *)
Lemma compare_inverted d key key_sz p a b :
  cmp_cb d = Some hashmap_key_compare_cb -> load_le p.1 0 4 = Ret a -> load_le key 0 4 = Ret b ->
  pair_matches d (Some key) key_sz p = Ret (negb (a =? b)).
Proof.
  intros Hc Ha Hb. unfold pair_matches. rewrite Hc. cbn [from_option_undef mbind outcome_bind].
  unfold hashmap_key_compare_cb. rewrite Ha, Hb. cbn.
  by destruct (a =? b).
Qed.

(** a cache made by [chunk_cache_new] stays empty.  Adding a key of its own
    length answers -1 and changes nothing, removing one changes nothing either
    (in a cache of one bucket it looks outside the table), and no chunk is
    ever put into the array.  After [chunk_cache_destroy] the map is still
    there and still answers -1. *)
Theorem chunk_cache_inert count key key_sz value val_sz cc :
  0 < count < 2 ^ 32 -> 0 < key_sz <= Z.of_nat (length key) -> cc = chunk_cache_new count ->
  chunk_cache_add (Some cc) (Some key) key_sz (Some value) val_sz = Ret (-1, Some cc) /\
  chunk_cache_remove (Some cc) (Some key) key_sz = (if count =? 1 then Undefined else Ret (0, Some cc)) /\
  chunks cc = Some (repeat None (Z.to_nat count)) /\
  (exists cc', chunk_cache_destroy (Some cc) = Some cc' /\ chunks cc' = None /\
     chunk_cache_add (Some cc') (Some key) key_sz (Some value) val_sz = Ret (-1, Some cc')) /\
  chunk_cache_new 0 = ChunkCache None (Some []).
Proof.
  intros Hc Hk ->. unfold chunk_cache_new.
  destruct (c_hashmap_alloc count (Some hashmap_hash_cb) (Some hashmap_key_compare_cb)) as [d|] eqn:E.
  2: { unfold c_hashmap_alloc, c_hashmap_init in E. rewrite (proj2 (Z.ltb_lt _ _)) in E by lia. discriminate E. }
  destruct (fresh_map_rejects count hashmap_hash_cb hashmap_key_compare_cb d key key_sz value val_sz _ E
    (hash_cb_Ret key key_sz ltac:(lia))) as (Hput & _ & Hdel & _).
  unfold chunk_cache_add, chunk_cache_remove. rewrite Hput, Hdel. split; [done|]. split; [by destruct (count =? 1)|].
  split; [done|]. split; [|done]. eexists. split; [reflexivity|]. split; [done|]. cbn [cache c_hashmap_set_free_cb].
  unfold c_hashmap_alloc, c_hashmap_init in E. rewrite (proj2 (Z.ltb_lt _ _)) in E by lia. injection E as <-.
  cbn. by rewrite andb_false_r.
Qed.

Lemma digits_are_digits fuel n b : b ∈ digits fuel n -> isdigit b = true.
Proof.
  revert n. induction fuel as [|fuel IH]; intros n Hb; cbn in Hb; [by apply elem_of_nil in Hb|].
  apply elem_of_cons in Hb as [->|Hb].
  - pose proof (Z.mod_pos_bound n 10 ltac:(lia)). unfold isdigit, schar. rewrite uchar_byte_of.
    rewrite wrap_small by (unfold fits; lia). rewrite swrap_small by lia.
    by rewrite !(proj2 (Z.leb_le _ _)) by lia.
  - destruct (n <? 10); [by apply elem_of_nil in Hb|]. by apply IH in Hb.
Qed.

(** [chunk_cache_load] looks for files whose whole name is a number
    ([is_digit]), but [chunk_init] creates [<id>.chunk]: no file a chunk server
    has created is ever taken for a chunk. *)
Theorem chunk_files_skipped id :
  0 <= id < 2 ^ 31 ->
  is_digit (Some (cstring (chunk_name id))) (Z.of_nat (length (chunk_name id))) = Ret false /\
  is_digit (Some (cstring (decimal id))) (Z.of_nat (length (decimal id))) = Ret true.
Proof.
  intros Hid. unfold cstring. rewrite !is_digit_spec. unfold chunk_name. pose proof (length_decimal id).
  rewrite snprintf_fits by (rewrite length_app; cbn; lia). rewrite forallb_app. split.
  - by rewrite (andb_comm (forallb isdigit (decimal id))), andb_false_r.
  - unfold decimal. rewrite (proj2 (Z.ltb_ge _ _)) by lia. rewrite bool_decide_false.
    + cbn [negb andb]. f_equal. apply forallb_forall. intros b Hb%in_rev. eapply digits_are_digits, list_elem_of_In, Hb.
    + cbn [digits rev]. by intros [_ ?]%app_eq_nil.
Qed.

(** The map of the program's cache is never destroyed: only the array is freed. *)
Lemma cache_main_leaves_map : exists m, cache_main = (0, Some (ChunkCache (Some m) None)).
Proof. eexists. unfold cache_main, chunk_cache_destroy, chunk_cache_new. cbn [cache c_hashmap_alloc c_hashmap_init Z.ltb Z.compare Pos.compare Pos.compare_cont]. reflexivity. Qed.

(** ** Witnesses *)

Lemma chunk_cache_inert_witness :
  chunk_cache_add (Some (chunk_cache_new 10)) (Some (lit "12")) 2 (Some (calloc 8)) 8
  = Ret (-1, Some (chunk_cache_new 10)).
Proof.
  refine (proj1 (chunk_cache_inert 10 (lit "12") 2 (calloc 8) 8 _ _ _ eq_refl)); [lia|cbn; lia].
Defined.

Lemma chunk_files_skipped_witness : is_digit (Some (cstring (lit "7.chunk"))) 7 = Ret false.
Proof. refine (proj1 (chunk_files_skipped 7 _)). lia. Defined.
