(* ===== verification/ChunkLoad.v ===== *)
(** * Loading the chunk cache from a directory
      ([chunk_cache_load] of [src/chunkserver/chunk_cache.c])

    The names of the entries come from [readdir], the kind and size of a file
    from [lstat].  The function the loop calls to append a name to the path,
    [snrpintf], is declared nowhere; it is a parameter, whatever is linked
    under that name. *)

From Stdlib Require Import Strings.Byte Strings.String.
From S2P Require Import Prelude Bytes CString Format Os Hashmap Chunk Utils ChunkCache.

(** ["%s"] of an [int], which is no pointer. *)
Definition format_string_of_int (_ : Z) : outcome (list byte) := Undefined.

(** The buffer with the path of the directory, and its length. *)
Definition root_prefix (root : list byte) : outcome (list byte * Z) :=
  root_sz ← strlen root;
  last ← char_at root (root_sz - 1);
  let name := until_nul root in
  if decide (last = x2f) then
    buf ← store_bytes (calloc 256) (snprintf 256 name ++ [NUL]); mret (buf, root_sz)
  else
    buf ← store_bytes (calloc 256) (snprintf 256 (name ++ lit "/") ++ [NUL]); mret (buf, root_sz + 1).

Definition dots (name : list byte) : bool := bool_decide (name = lit ".") || bool_decide (name = lit "..").

Section Load.
Context (can_open : list byte -> bool).
(** The buffer, the place in it, the room there, and the name. *)
Context (snrpintf : list byte -> Z -> Z -> list byte -> outcome (list byte)).
(** Whether the file is a regular one, and its size. *)
Context (lstat : list byte -> option (bool * Z)).
(** The memory of a chunk. *)
Context (chunk_bytes : chunk_t -> list byte).

(** [vector] are the chunks found so far, of at most 65535. *)
Fixpoint dir_loop (entries : list (list byte)) (o : os) (buf : list byte) (root_sz : Z) (vector : list chunk_t)
    : outcome (list chunk_t * os) :=
  match entries with
  | [] => mret (vector, o)
  | name :: entries =>
      if dots name then dir_loop entries o buf root_sz vector
      else
        buf ← snrpintf buf root_sz (256 - root_sz)%u64 name;
        path ← strdup buf;
        match lstat path with
        | None => dir_loop entries o buf root_sz vector
        | Some (is_reg, st_size) =>
            take_it ← (if is_reg : bool then is_digit (Some (cstring name)) (Z.of_nat (length name)) else mret false);
            if (take_it : bool) then
              c_defined (atoi name <? 2 ^ 31) ;;
              '(ck, o) ← chunk_alloc can_open o (atoi name);
              ck ← from_option_undef ck;
              c_defined (Z.of_nat (length vector) <? 65535) ;;
              let ck := Chunk (chunk_id ck) (offset ck) (fd ck) (thd ck) (u64 st_size) in
              dir_loop entries o buf root_sz (vector ++ [ck])
            else dir_loop entries o buf root_sz vector
        end
  end.

(** The loop increments [i], its bound, instead of [j]. *)
Fixpoint put_loop (rounds : nat) (cc : chunk_cache_t) (vector : list chunk_t) (i j : Z) : outcome chunk_cache_t :=
  if j <? i then
    match rounds with
    | O => OutOfFuel
    | S rounds =>
        ck ← from_option_undef (vector !! Z.to_nat j);
        cs ← from_option_undef (chunks cc);
        c_defined (j <? Z.of_nat (length cs)) ;;
        text ← format_string_of_int (chunk_id ck);
        let buf := snprintf 64 text in
        '(_, m) ← c_hashmap_put (cache cc) (Some (buf ++ calloc (64 - Z.of_nat (length buf)))) (Z.of_nat (length buf)) (Some (chunk_bytes ck)) 8;
        put_loop rounds (ChunkCache m (Some (<[Z.to_nat j := Some ck]> cs))) vector (i + 1)%u64 j
    end
  else mret cc.

(** [dir]: the names in the directory, [None] when it cannot be opened. *)
Definition chunk_cache_load (rounds : nat) (root : list byte) (dir : option (list (list byte))) (o : os)
    : outcome (chunk_cache_t * os) :=
  '(buf, root_sz) ← root_prefix root;
  entries ← from_option_undef dir;
  '(vector, o) ← dir_loop entries o buf root_sz [];
  let i := Z.of_nat (length vector) in
  cc ← put_loop rounds (chunk_cache_new (u32 (i + 1))) vector i 0;
  mret (cc, o).

(** ** What the loop over the directory finds *)

(** The names [is_digit] accepts. *)
Definition numeric (name : list byte) : bool := negb (bool_decide (name = [])) && forallb isdigit name.

Lemma is_digit_numeric name : is_digit (Some (cstring name)) (Z.of_nat (length name)) = Ret (numeric name).
Proof. apply is_digit_spec. Qed.

Lemma dir_loop_grows entries o buf sz vector vector' o' :
  dir_loop entries o buf sz vector = Ret (vector', o') ->
  (length vector <= length vector')%nat /\ (length vector' = length vector -> o' = o).
Proof.
  revert o buf vector. induction entries as [|name entries IH]; intros o buf vector H; cbn [dir_loop] in H.
  { injection H as -> ->. split; [lia|done]. }
  destruct (dots name); [by apply IH in H|].
  apply bind_Ret in H as (buf' & _ & H). apply bind_Ret in H as (path & _ & H).
  destruct (lstat path) as [[reg size]|]; [|by apply IH in H].
  apply bind_Ret in H as ([] & _ & H); [|by apply IH in H].
  apply bind_Ret in H as ([] & _ & H). apply bind_Ret in H as ([ck o1] & _ & H). apply bind_Ret in H as (c & _ & H).
  apply bind_Ret in H as ([] & _ & H). apply IH in H as [H _]. rewrite length_app in H. cbn in H. split; lia.
Qed.

(** A regular file with a numeric name is taken. *)
Lemma dir_loop_takes entries o buf sz vector vector' o' name :
  dir_loop entries o buf sz vector = Ret (vector', o') -> name ∈ entries -> numeric name = true ->
  dots name = false -> (forall path, exists size, lstat path = Some (true, size)) -> (length vector < length vector')%nat.
Proof.
  intros H Hin Hn Hd Hreg. revert o buf vector H.
  induction entries as [|x entries IH]; intros o buf vector H; cbn [dir_loop] in H; [by apply elem_of_nil in Hin|].
  destruct (decide (x = name)) as [->|Hne].
  - rewrite Hd in H. apply bind_Ret in H as (buf' & _ & H). apply bind_Ret in H as (path & _ & H).
    destruct (Hreg path) as [size E]. rewrite E, is_digit_numeric, Hn in H. cbn [mbind outcome_bind] in H.
    apply bind_Ret in H as ([] & _ & H). apply bind_Ret in H as ([ck o1] & _ & H). apply bind_Ret in H as (c & _ & H).
    apply bind_Ret in H as ([] & _ & H). apply dir_loop_grows in H as [H _]. rewrite length_app in H. cbn in H. lia.
  - apply elem_of_cons in Hin as [|Hin]; [congruence|]. specialize (IH Hin).
    destruct (dots x); [by eapply IH|].
    apply bind_Ret in H as (buf' & _ & H). apply bind_Ret in H as (path & _ & H).
    destruct (lstat path) as [[reg size]|]; [|by eapply IH].
    apply bind_Ret in H as ([] & _ & H); [|by eapply IH].
    apply bind_Ret in H as ([] & _ & H). apply bind_Ret in H as ([ck o1] & _ & H). apply bind_Ret in H as (c & _ & H).
    apply bind_Ret in H as ([] & _ & H). apply IH in H. rewrite length_app in H. cbn in H. lia.
Qed.

(** The second loop never ends well once it is entered. *)
Lemma put_loop_Ret rounds cc vector i j cc' :
  put_loop rounds cc vector i j = Ret cc' -> i <= j /\ cc' = cc.
Proof.
  destruct rounds as [|rounds]; cbn [put_loop]; destruct (Z.ltb_spec j i) as [Hlt|Hge]; intros H; try done;
    try (injection H as ->; split; [lia|done]).
  apply bind_Ret in H as (ck & _ & H). apply bind_Ret in H as (cs & _ & H). apply bind_Ret in H as ([] & _ & H). done.
Qed.

Lemma load_Ret rounds root dir o cc o' :
  chunk_cache_load rounds root dir o = Ret (cc, o') ->
  exists entries buf sz, dir = Some entries /\ dir_loop entries o buf sz [] = Ret ([], o) /\
    cc = chunk_cache_new 1 /\ o' = o.
Proof.
  unfold chunk_cache_load. intros H. apply bind_Ret in H as ([buf sz] & _ & H). apply bind_Ret in H as (entries & Hd & H).
  destruct dir as [entries'|]; [injection Hd as ->|done].
  apply bind_Ret in H as ([vector o1] & Hl & H). apply bind_Ret in H as (cc1 & Hp & H). injection H as -> ->.
  apply put_loop_Ret in Hp as [Hi ->]. destruct vector; [|cbn in Hi; lia].
  destruct (dir_loop_grows _ _ _ _ _ _ _ Hl) as [_ Ho]. rewrite (Ho eq_refl) in Hl |- *.
  by exists entries, buf, sz.
Qed.
(** What is asked of [snrpintf] when it does return: a string, in the room it
    was given. *)
Definition appends_string : Prop := forall buf off n s,
  0 <= off -> 0 < n -> off + n <= Z.of_nat (length buf) ->
  exists buf', snrpintf buf off n s = Ret buf' /\ length buf' = length buf /\ returns (strdup buf').

Lemma dir_loop_skips entries o buf sz :
  appends_string -> length buf = 256%nat -> 0 <= sz < 256 -> Forall (fun name => numeric name = false) entries ->
  dir_loop entries o buf sz [] = Ret ([], o).
Proof.
  intros Hs Hb Hsz H. revert buf Hb. induction H as [|name entries Hn _ IH]; intros buf Hb; [done|].
  cbn [dir_loop]. destruct (dots name); [by apply IH|].
  unfold wsub. rewrite wrap_small by (unfold fits; lia).
  destruct (Hs buf sz (256 - sz) name) as (buf' & -> & Hl & [path Hp]); [lia..|]. cbn [mbind outcome_bind]. rewrite Hp.
  cbn [mbind outcome_bind]. rewrite <- Hl in Hb.
  destruct (lstat path) as [[[] size]|]; [|by apply IH..]. rewrite is_digit_numeric, Hn. by apply IH.
Qed.
End Load.

Lemma root_prefix_Ret root :
  text root -> (0 < length root < 255)%nat ->
  exists buf sz, root_prefix (cstring root) = Ret (buf, sz) /\ length buf = 256%nat /\ 0 <= sz < 256.
Proof.
  intros Ht Hl. unfold root_prefix, cstring. rewrite strlen_text by done. cbn [mbind outcome_bind].
  destruct (lookup_lt_is_Some_2 root (length root - 1)) as [b Hb]; [lia|].
  assert (char_at (root ++ [NUL]) (Z.of_nat (length root) - 1) = Ret b) as ->.
  { apply char_at_lookup; [lia|]. replace (Z.to_nat _) with (length root - 1)%nat by lia. by rewrite lookup_app_l by lia. }
  cbn [mbind outcome_bind]. rewrite (until_nul_app root [] Ht).
  assert (forall s, (length s <= 255)%nat -> exists buf, store_bytes (calloc 256) (snprintf 256 s ++ [NUL]) = Ret buf /\ length buf = 256%nat) as Hst.
  { intros s Hs. assert (length (snprintf 256 s ++ [NUL]) <= 256)%nat as Hle.
    { rewrite length_app. unfold snprintf. rewrite length_take. cbn [length]. lia. }
    eexists. rewrite store_bytes_in by (unfold calloc; rewrite repeat_length; exact Hle).
    split; [reflexivity|]. rewrite length_app, length_drop. unfold calloc. rewrite repeat_length. lia. }
  destruct (decide (b = x2f)).
  - destruct (Hst root) as (buf & -> & Hbuf); [lia|]. exists buf, (Z.of_nat (length root)). split; [done|]. split; [done|lia].
  - destruct (Hst (root ++ lit "/")) as (buf & -> & Hbuf); [rewrite length_app; cbn; lia|].
    exists buf, (Z.of_nat (length root) + 1). split; [done|]. split; [done|lia].
Qed.

(** ** Properties *)

(** C34: [chunk_cache_load] never loads a chunk.  Over a directory without
    numeric names -- those of the files [chunk_init] makes are not -- it
    answers an empty cache with room for one chunk and leaves the system as it
    was; whenever it returns, that is its answer; and when a regular file with
    a numeric name is in the directory, it does not return. *)
Theorem chunk_cache_load_loads_nothing can_open (snrpintf : list byte -> Z -> Z -> list byte -> outcome (list byte))
    (lstat : list byte -> option (bool * Z)) (chunk_bytes : chunk_t -> list byte) rounds root o entries :
  text root -> (0 < length root < 255)%nat ->
  (appends_string snrpintf -> Forall (fun name => numeric name = false) entries ->
   chunk_cache_load can_open snrpintf lstat chunk_bytes rounds (cstring root) (Some entries) o = Ret (chunk_cache_new 1, o)) /\
  (forall id, 0 <= id < 2 ^ 31 -> numeric (chunk_name id) = false) /\
  (forall cc o', chunk_cache_load can_open snrpintf lstat chunk_bytes rounds (cstring root) (Some entries) o = Ret (cc, o') ->
     cc = chunk_cache_new 1 /\ o' = o) /\
  (forall name, name ∈ entries -> numeric name = true -> (forall path, exists size, lstat path = Some (true, size)) ->
     ~ returns (chunk_cache_load can_open snrpintf lstat chunk_bytes rounds (cstring root) (Some entries) o)).
Proof.
  intros Ht Hl. split; [|split; [|split]].
  - intros Hs Hn. destruct (root_prefix_Ret root Ht Hl) as (buf & sz & E & Hb & Hsz).
    unfold chunk_cache_load. rewrite E. cbn [mbind outcome_bind from_option_undef].
    rewrite dir_loop_skips by done. by destruct rounds.
  - intros id Hid. destruct (chunk_files_skipped id Hid) as [H _]. rewrite is_digit_numeric in H. congruence.
  - intros cc o' H. apply load_Ret in H as (_ & _ & _ & _ & _ & -> & ->). done.
  - intros name Hin Hn Hreg [[cc o'] H]. apply load_Ret in H as (entries' & buf & sz & [= <-] & H & _).
    assert (dots name = false) as Hd.
    { destruct (dots name) eqn:E; [|done]. exfalso. unfold dots in E.
      apply orb_true_iff in E as [->%bool_decide_eq_true| ->%bool_decide_eq_true]; discriminate Hn. }
    apply (dir_loop_takes _ _ _ _ _ _ _ _ _ _ _ H Hin Hn Hd) in Hreg. cbn in Hreg. lia.
Qed.

(** ** Witnesses *)

(** [snprintf], under the name the code uses. *)
Definition snprintf_at (buf : list byte) (off n : Z) (s : list byte) : outcome (list byte) :=
  store_at buf off (snprintf (Z.to_nat n) s ++ [NUL]).

Lemma strdup_nul s u : returns (strdup (s ++ NUL :: u)).
Proof.
  induction s as [|x s [t IH]]; cbn; [by eexists|]. destruct (decide (x = NUL)); [by eexists|]. rewrite IH. by eexists.
Qed.

Lemma snprintf_at_appends : appends_string snprintf_at.
Proof.
  intros buf off n s Ho Hn Hlen. unfold snprintf_at, store_at.
  assert (Z.of_nat (length (snprintf (Z.to_nat n) s)) < n) as Hl.
  { unfold snprintf. rewrite length_take. lia. }
  rewrite length_app. cbn [length]. rewrite !(proj2 (Z.leb_le _ _)) by lia. cbn [andb].
  eexists. split; [reflexivity|]. split.
  - rewrite !length_app, length_take, length_drop. cbn [length]. lia.
  - rewrite <- app_assoc. cbn [app]. rewrite app_assoc. apply strdup_nul.
Qed.

Lemma chunk_cache_load_loads_nothing_witness (o := Os ∅ ∅ 3 ∅ 0 []) :
  chunk_cache_load (fun _ => true) snprintf_at (fun _ => Some (true, 9)) (fun _ => calloc 32) 1 (cstring (lit "/data"))
    (Some [lit "."; lit ".."; lit "7.chunk"]) o = Ret (chunk_cache_new 1, o) /\
  ~ returns (chunk_cache_load (fun _ => true) snprintf_at (fun _ => Some (true, 9)) (fun _ => calloc 32) 1 (cstring (lit "/data"))
    (Some [lit "7"]) o).
Proof.
  split.
  - refine (proj1 (chunk_cache_load_loads_nothing _ _ _ _ 1 (lit "/data") _ _ _ _) snprintf_at_appends _); [vm_decide|cbn; lia|vm_decide].
  - refine (proj2 (proj2 (proj2 (chunk_cache_load_loads_nothing _ _ _ _ 1 (lit "/data") _ _ _ _))) (lit "7") _ _ _);
      [vm_decide|cbn; lia|vm_decide|reflexivity|]. intros path. by exists 9.
Defined.

(** A numeric file is a read of a wild string. *)
Example load_numeric_file (o := Os ∅ ∅ 3 ∅ 0 []) :
  chunk_cache_load (fun _ => true) snprintf_at (fun _ => Some (true, 9)) (fun _ => calloc 32) 1 (cstring (lit "/data"))
    (Some [lit "7"]) o = Undefined.
Proof. vm_compute. reflexivity. Qed.
