(* ===== verification/ChunkServer.v ===== *)
(** * The chunk server ([src/chunkserver/chunk_server.c])

    It puts the other components together: the configuration, two
    dispatchers, the cache and an array of chunks.  [chunk_cache_alloc] is not
    defined anywhere in the repository and is a parameter.  Dispatchers live
    in a heap of numbered structures. *)

From Stdlib Require Import Strings.Byte Strings.String.
From S2P Require Import Prelude Bytes CString Format Os Utils Chunk ChunkCache NetSock Conf.

Record chunk_server_t := ChunkServer {
  srv_root : list byte;
  meta_sock : nat;
  chunk_sock : nat;
  srv_chunks : list chunk_t;
  chunk_cache : chunk_cache_t;
  srv_per_size : Z;
  srv_count : Z }.

Section ChunkServer.
Context (can_open : list byte -> bool) (chunk_cache_alloc : Z -> chunk_cache_t).

(** The loop over the chunks, [todo] of them from [i] on; [calloc] zeroed
    each, and the result of [chunk_init] is ignored. *)
Fixpoint chunks_loop (o : os) (todo : nat) (i : Z) : outcome (list chunk_t * os) :=
  match todo with
  | O => mret ([], o)
  | S todo =>
      '(_, b, o) ← chunk_init can_open o (Some zero_chunk) (s32 i);
      b ← from_option_undef b;
      '(bs, o) ← chunks_loop o todo (i + 1);
      mret (b :: bs, o)
  end.

(** [p1] and [p2] are the addresses of the two dispatchers, [pairs1] and
    [pairs2] the results of their [socketpair] calls. *)
Definition chunk_server_alloc (o : os) (h : sock_heap) (p1 p2 : nat) (pairs1 pairs2 : list (option (Z * Z)))
    (cf : chunk_conf) : outcome (chunk_server_t * os * sock_heap) :=
  prt ← from_option_undef (port cf);
  threads ← from_option_undef (work_thread_num cf);
  let h := <[p1 := net_sock_create (Some (lit "127.0.0.1")) prt (tcp_backlog cf) threads pairs1]> h in
  root ← strdup (cstring (chunk_root cf));
  count ← from_option_undef (chunk_count cf);
  let cache := chunk_cache_alloc count in
  '(_, meta_addr) ← string_split (Some (cstring (metaserver_addr cf))) x3a true;
  meta_addr ← from_option_undef meta_addr;
  host ← from_option_undef (meta_addr !! 0%nat);
  meta_port ← from_option_undef (meta_addr !! 1%nat);
  let h := <[p2 := net_sock_create (Some host) (atoi meta_port) (tcp_backlog cf) 1 pairs2]> h in
  per_size ← from_option_undef (chunk_per_size cf);
  '(chunks, o) ← chunks_loop o (Z.to_nat count) 0;
  mret (ChunkServer root p2 p1 chunks cache per_size count, o, h).

(** The ids the threads of the two dispatchers get. *)
Definition chunk_server_start (srv : chunk_server_t) (h : sock_heap) : outcome sock_heap :=
  c ← from_option_undef (h !! chunk_sock srv);
  let h := <[chunk_sock srv := net_sock_run c]> h in
  m ← from_option_undef (h !! meta_sock srv);
  mret (<[meta_sock srv := net_sock_run m]> h).

Fixpoint deinit_all (o : os) (chunks : list chunk_t) : outcome os :=
  match chunks with
  | [] => mret o
  | b :: chunks => '(_, o) ← chunk_deinit o (Some b); deinit_all o chunks
  end.

Definition chunk_server_destroy (srv : chunk_server_t) (o : os) (h : sock_heap) : outcome (os * sock_heap) :=
  '(_, h) ← net_sock_destroy h (Some (chunk_sock srv));
  '(_, h) ← net_sock_destroy h (Some (chunk_sock srv));
  let _ := chunk_cache_destroy (Some (chunk_cache srv)) in
  o ← deinit_all o (srv_chunks srv);
  mret (o, h).

(** ** Starting *)

(** Descriptors from [next_fd] on are free. *)
Definition fresh_fds (o : os) : Prop := 0 <= next_fd o /\ forall n, next_fd o <= n -> fds o !! n = None.

Lemma chunk_init_opens o id :
  0 <= id < 2 ^ 31 -> (forall name, can_open name = true) -> fresh_fds o ->
  exists b o', chunk_init can_open o (Some zero_chunk) id = Ret (0, Some b, o') /\ fd b = next_fd o /\
    fds o' = <[next_fd o := OFile (chunk_name id) 0]> (fds o) /\
    files o' = <[chunk_name id := default [] (files o !! chunk_name id)]> (files o) /\
    next_fd o' = next_fd o + 1 /\ fresh_fds o'.
Proof.
  intros Hid Ho [Hn Hf]. unfold chunk_init, sys_open. rewrite (proj2 (Z.leb_le _ _)), Ho by lia.
  assert (next_fd o =? -1 = false) as -> by (apply Z.eqb_neq; lia). cbn.
  eexists _, _. split; [reflexivity|]. cbn. do 4 (split; [done|]).
  split; [cbn; lia|]. intros n Hn'. cbn in *. rewrite lookup_insert_ne by lia. apply Hf. lia.
Qed.

(** After the loop chunk [j] has descriptor [next_fd + j], open on its file. *)
Lemma chunks_loop_opens o todo i :
  0 <= i -> i + Z.of_nat todo < 2 ^ 31 -> (forall name, can_open name = true) -> fresh_fds o ->
  exists bs o', chunks_loop o todo i = Ret (bs, o') /\ length bs = todo /\
    (forall j b, bs !! j = Some b -> fd b = next_fd o + Z.of_nat j /\
       opened o' b (chunk_name (i + Z.of_nat j)) (default [] (files o !! chunk_name (i + Z.of_nat j))) 0) /\
    (forall n, n < next_fd o -> fds o' !! n = fds o !! n) /\
    (forall name, name ∈ dom (files o) -> files o' !! name = files o !! name).
Proof.
  intros Hi Hb Ho. revert o i Hi Hb. induction todo as [|todo IH]; intros o i Hi Hb Hfr.
  { exists [], o. repeat split; done. }
  cbn [chunks_loop]. rewrite s32_small by lia.
  destruct (chunk_init_opens o i) as (b & o1 & -> & Hfd & Hfds & Hfiles & Hnext & Hfr1); [lia|done..|].
  cbn [mbind outcome_bind from_option_undef].
  destruct (IH o1 (i + 1)) as (bs & o2 & -> & Hl & Hbs & Hold & Hdom); [lia|lia|done|].
  assert (chunk_name i ∈ dom (files o1)) as Hin by (rewrite Hfiles; set_solver).
  assert (forall k, i < k < 2 ^ 31 -> files o1 !! chunk_name k = files o !! chunk_name k) as Hkeep.
  { intros k Hk. rewrite Hfiles, lookup_insert_ne; [done|]. intros E. apply chunk_name_inj in E; lia. }
  cbn [mbind outcome_bind mret outcome_ret]. exists (b :: bs), o2. split; [done|]. split; [cbn; lia|].
  split; [|split].
  - intros [|j] b' Hj; cbn in Hj.
    + injection Hj as <-. change (Z.of_nat 0) with 0. rewrite !Z.add_0_r. split; [lia|]. split; [|split; [|lia]].
      * rewrite Hfd, Hold by lia. rewrite Hfds. apply lookup_insert_eq.
      * rewrite Hdom by done. rewrite Hfiles. apply lookup_insert_eq.
    + destruct (Hbs j b' Hj) as [Hfd' Hop]. apply lookup_lt_Some in Hj.
      replace (i + 1 + Z.of_nat j) with (i + Z.of_nat (S j)) in Hop by lia.
      rewrite Hkeep in Hop by lia. split; [lia|done].
  - intros n Hn. rewrite Hold by lia. rewrite Hfds, lookup_insert_ne by lia. done.
  - intros name Hname. rewrite Hdom by (rewrite Hfiles; set_solver). rewrite Hfiles.
    destruct (decide (name = chunk_name i)) as [->|Hne]; [|by rewrite lookup_insert_ne].
    rewrite lookup_insert_eq. apply elem_of_dom in Hname as [data ->]. done.
Qed.

(** C28: a server made from a complete configuration whose metadata address is
    [host:port] has its chunks [0 .. chunk_count) open on their files, with
    distinct descriptors, and keeps the files that were there; its dispatchers
    listen as configured.  A configuration read by [conf_create] is never
    complete: the server then works with an uninitialised port.  And a server
    can never be destroyed: the second [net_sock_destroy] gets the dispatcher
    the first one has freed. *)
Theorem chunk_server_lifecycle o h p1 p2 pairs1 pairs2 root host prt_text backlog prt threads per_size count :
  text root -> text host -> text prt_text -> x3a ∉ host -> x3a ∉ prt_text -> prt_text <> [] ->
  0 <= count < 2 ^ 31 -> (forall name, can_open name = true) -> fresh_fds o -> p1 <> p2 ->
  (exists srv o' h', chunk_server_alloc o h p1 p2 pairs1 pairs2
       (ChunkConf root (host ++ x3a :: prt_text) backlog (Some prt) (Some threads) (Some per_size) (Some count))
     = Ret (srv, o', h') /\
     Z.of_nat (length (srv_chunks srv)) = count /\
     (forall j b, srv_chunks srv !! j = Some b -> fd b = next_fd o + Z.of_nat j /\
        opened o' b (chunk_name (Z.of_nat j)) (default [] (files o !! chunk_name (Z.of_nat j))) 0) /\
     (forall name, name ∈ dom (files o) -> files o' !! name = files o !! name) /\
     (NetSock.port <$> h' !! p1, addr <$> h' !! p2, NetSock.port <$> h' !! p2)
       = (Some prt, Some host, Some (atoi prt_text)) /\
     chunk_server_destroy srv o' h' = Undefined) /\
  chunk_server_alloc o h p1 p2 pairs1 pairs2 (ChunkConf root (host ++ x3a :: prt_text) backlog None None None None) = Undefined.
Proof.
  intros Hr Hh Hp Hch Hcp Hne Hc Ho Hfr Hpp. split; [|done].
  destruct (chunks_loop_opens o (Z.to_nat count) 0) as (bs & o' & Hloop & Hl & Hbs & _ & Hkeep); [lia|lia|done..|].
  assert (string_split (Some (cstring (host ++ x3a :: prt_text))) x3a true = Ret (0, Some [host; prt_text])) as Hsplit.
  { rewrite split_two by (done || by apply text_app; split; [done|apply text_cons]). by destruct prt_text. }
  eexists _, o', _. unfold chunk_server_alloc. cbn [port work_thread_num tcp_backlog chunk_root chunk_count metaserver_addr
    chunk_per_size from_option_undef mbind outcome_bind]. rewrite (strdup_text root [] Hr : strdup (cstring root) = _).
  cbn [mbind outcome_bind]. rewrite Hsplit. cbn [mbind outcome_bind from_option_undef lookup list_lookup]. rewrite Hloop.
  cbn [mbind outcome_bind mret outcome_ret]. split; [reflexivity|]. cbn [srv_chunks].
  split; [lia|]. split; [exact Hbs|]. split; [exact Hkeep|]. split.
  - rewrite lookup_insert_ne, !lookup_insert_eq by done. cbn [fmap option_fmap option_map].
    unfold net_sock_create, net_sock_init. by destruct (init_loop pairs1 _ _), (init_loop pairs2 _ _).
  - unfold chunk_server_destroy, net_sock_destroy. cbn [chunk_sock]. rewrite lookup_insert_ne, lookup_insert_eq by done.
    cbn [from_option_undef mbind outcome_bind mret outcome_ret]. by rewrite lookup_delete_eq.
Qed.
End ChunkServer.

(** ** Witness *)

Definition no_files : os := Os ∅ ∅ 3 ∅ 0 [].

Lemma chunk_server_lifecycle_witness :
  (exists srv o' h', chunk_server_alloc (fun _ => true) chunk_cache_new no_files ∅ 0 1 [Some (8, 9); Some (10, 11)] [Some (12, 13)]
     (ChunkConf (lit "/data") (lit "10.0.0.1:9090") 128 (Some 8080) (Some 2) (Some 4096) (Some 3)) = Ret (srv, o', h') /\
   Z.of_nat (length (srv_chunks srv)) = 3 /\ NetSock.port <$> h' !! 1%nat = Some 9090 /\
   chunk_server_destroy srv o' h' = Undefined) /\
  chunk_server_alloc (fun _ => true) chunk_cache_new no_files ∅ 0 1 [] [] (ChunkConf (lit "/data") (lit "10.0.0.1:9090") 128 None None None None)
  = Undefined.
Proof.
  destruct (chunk_server_lifecycle (fun _ => true) chunk_cache_new no_files ∅ 0 1 [Some (8, 9); Some (10, 11)] [Some (12, 13)]
    (lit "/data") (lit "10.0.0.1") (lit "9090") 128 8080 2 4096 3) as [(srv & o' & h' & H & Hl & _ & _ & Hs & Hd) _];
    try vm_decide; try lia; try discriminate; try reflexivity.
  - split; [cbn; lia|reflexivity].
  - split; [|reflexivity]. exists srv, o', h'. split; [exact H|]. split; [exact Hl|]. split; [|exact Hd].
    injection Hs as _ _ Hs. rewrite Hs. reflexivity.
Defined.
